(* ===== verification/_CoqProject ===== *)
-Q . S2P
Prelude.v
Types.v
Text.v
Double.v
Metrics.v
MetricsText.v
TierStore.v
BlockStore.v
SsdLayout.v
SsdBlockStore.v
TieredStore.v
Routing.v
HashCompat.v
Eviction.v
Membership.v
Replication.v
Registry.v
Cache.v
Threads.v
StoreThreads.v
NodeThreads.v
Interleaving.v
Races.v
ReplicatorThreads.v
Telemetry.v
Rpc.v
Server.v
GrpcTransport.v
TransportThreads.v
Cluster.v
Failover.v
Ibverbs.v
RdmaReceive.v
KvTransport.v
RdmaThreads.v
Locks.v
LockOrder.v
