(* ===== verification/Prelude.v ===== *)
(** * Lethe: a verified model of the cache server

    Lethe is a distributed, tiered cache for the key/value blocks of language
    model serving.  A node keeps content-addressed blocks in up to three tiers
    (GPU memory, DRAM, a file on disk), finds the owners of a block on a
    consistent-hash ring, pushes each accepted block to its replicas, watches
    its peers with heartbeats, re-replicates when one is lost, and evicts with
    a SIEVE hand.  The sources are under src/cache_server; paths below are
    relative to src/cache_server/src and include/lethe.

    ** Files

    - [Prelude] (this file): machine integers as [Z] with the wrap written out,
      bytes and little-endian words, fixed-size arrays, iteration orders of
      hash containers, sums over lists and maps, the hint database.
    - [Types] (types.hpp): tiers, block identities, blocks, block metadata,
      peer records, the bucket hash.
    - [Text]: what the programs use of strings and streams: splitting, cutting,
      [stoi], [strtoull], extraction of words and numbers, [getline].
    - [Double]: the doubles that the metrics compute with, as multiples of
      [2^-100] with rounding to nearest even, and their printing.
    - [Metrics], [MetricsText] (metrics.cpp): counters, gauges and histograms;
      the text of the exposition, the HTTP response and the accept loop, with
      atomics that are loaded one by one while other threads record, and sends
      that may be cut short.
    - [TierStore]: the interface between a single tier and its clients.
      [TierStore] has the operations, [TierStoreSpec] their laws over an
      abstract map from identity to payload; [BlockStore] and [SsdBlockStore]
      are its instances, and the tiered store and the evictor are proved
      against it.
    - [BlockStore] (block_store.cpp): a tier in memory.
    - [SsdLayout], [SsdBlockStore] (ssd_block_store.cpp): the slot header byte
      by byte, the mapped file as slots, the constructor with its error paths
      and the restart scan, the ordered header writes of an insertion, the
      free list and the index.
    - [TieredStore] (tiered_store.cpp): lookup order, promotion, fall-through
      insertion, demotion, erase, snapshots, the visited and access books.
    - [Routing] (routing.cpp): virtual nodes, the ring, the binary search and
      the clockwise walk.  BLAKE3 is a parameter (any function from bytes to a
      32-byte digest); collision freedom of the virtual nodes is a hypothesis
      only where the order of equal ring positions would matter.
    - [HashCompat] (tools/hash_compat_driver.cpp, blake3_helper.hpp): the driver
      that prints hashes for comparison with the Python client.
    - [Eviction] (eviction.cpp): a pass of the hand over one tier, the
      broadcast, the hints that peers send.
    - [Membership] (membership.cpp): peer table, failure detector, heartbeat
      handler, membership changes; a step model of changes that overlap.
    - [Replication] (replication.cpp): the bounded queue and its workers, the
      fan-out, the fetch from any peer, re-replication rounds.
    - [Registry]: the registries in which the evictor, the replicator and the
      membership keep the private state of their objects.
    - [Cache] (cache.cpp): the facade; [node_step] is one node as a state
      machine over requests, peer messages and thread turns.
    - [Threads]: operations as trees of atomic actions, threads that take turns
      in any order, and rely-guarantee reasoning about all of them; not specific
      to this program.
    - [StoreThreads] (tiered_store.cpp, block_store.cpp): the operations of the
      tiered store at the granularity of its locks, with the bytes that a memory
      tier lends and what an erase does to them.
    - [NodeThreads] (cache.cpp, eviction.cpp): lookups, inserts and eviction
      passes over those actions.
    - [Interleaving]: what holds in every schedule of these operations.
    - [Races]: schedules in which a promise of the sequential operations fails.
    - [ReplicatorThreads] (replication.cpp): the queue, the workers, the sweep, the
      thread that reports a membership change and owes the first drain of its
      round, and the destructor; one critical section, send or counter update at
      a time.
    - [Telemetry]: the metrics calls that a step of the node makes.
    - [Rpc] (main.cpp): the service handlers over protocol messages, the peer
      list, the configuration of the server.
    - [Server] (main.cpp): a run of the process.
    - [GrpcTransport] (grpc_stream_transport.cpp): pushes and pulls.
    - [TransportThreads]: its operations under threads, with the stubs that are
      used outside the lock.
    - [Cluster]: nodes joined by that transport, where each call is answered, lost,
      or handled and not answered; the peers do not change.
    - [Failover]: the loss of a node of such a cluster.
    - [Ibverbs], [RdmaReceive] (ibverbs_transport.cpp): the RDMA wire format and
      the send ring; the receive buffers, the listener, the handshakes and a
      connection end to end.
    - [KvTransport] (kv_transport.hpp): the interface of the transports as a
      class with its laws, the two implementations as instances, and the choice
      between them.
    - [RdmaThreads]: concurrent sends over RDMA with the double-checked dial, the
      raw connection pointers, the pollers, the device that reads the posted
      buffers, refused dials, and the calls that drop connections.
    - [Locks]: locking skeletons (scopes, branches, loops), their traces, and why
      threads that respect an order of the locks cannot deadlock; not specific
      to this program.
    - [LockOrder]: the skeleton of every function that takes a mutex or joins a
      thread, composed as the functions call each other.

    ** Conventions

    State is passed explicitly; an operation returns its answer and the new
    state.  An operation of a single tier, of the router and of the queue runs
    under one mutex and is one step.  The tiered store has no lock of its own:
    the definitions of [TieredStore], [Eviction] and [Cache] say what an operation
    does when no other thread is inside the store, and the theorems about nodes
    and clusters are about handlers and thread turns that run one after the
    other.  [Interleaving] breaks the same operations at their locks, proves that
    one after the other they still answer as one finite map, and says what is left
    of their promises when they overlap; [ReplicatorThreads], [TransportThreads], [RdmaThreads] and
    [Membership.conc_step] do this for the other components that release a lock
    in the middle.  Errors are values
    of a sum or option type.  What the program does not determine is an
    argument: the clock, the outcome of system calls and remote calls, the
    iteration order of a hash container ([Iteration], [SnapOrder]), the order
    that an unstable sort gives equal keys ([Sorter]).  [inv], [node_ok],
    [cluster_ok] and [rdma_ok] are the invariants of the store, the node, the
    cluster and the RDMA transport; [contents] is the finite map that a store
    represents.  A store is content-addressed: theorems about several copies
    assume that a block's payload is a function of its identity ([addressed]).
    Blocks have a nonempty payload wherever a theorem asks for [block_ok],
    [event_ok] or [run_ok]: the disk tier accepts an empty block and a lookup takes
    it for a miss ([TieredStore.empty_block_not_found]).  [run_ok] also asks that
    heartbeats come from peers in the node's table.

    ** What the theorems show

    - Disk: an insertion killed between any two of its writes leaves no trace
      after a restart, if no free slot carries a live magic (which holds from a new
      file on, and not after an opening that reclaimed a corrupt slot); a restart
      finds exactly the blocks that were there, and index, free list, slots and
      byte counter agree in every reachable state.
    - Tiers: the three tiers with promotion, demotion and fall-through refine
      one map; where a block goes, when it is promoted and what an erase frees
      are characterised exactly.
    - Routing: the search and the walk compute the first distinct peers of the
      ring order; nodes with the same peers agree; removing a peer moves only
      its blocks and promotes the first replica.
    - Eviction: a pass touches its tier only, gives visited blocks their
      second chance, and, over a disk tier whose blocks are in no other tier,
      reaches the low watermark.
    - Membership: while heartbeats come from configured peers and handlers do not
      overlap, the ring is the local node and the alive peers after every handler;
      an alive peer that was not configured may be missing from it, and no dead
      peer is in it; silent peers are detected.
    - Replication: a lost peer's blocks are pushed to all remaining owners
      without loss when the queue is sent off between the ticks; queues stay
      within their bound.
    - Threads: in every interleaving at the granularity of the locks the tiers
      stay well formed, lookups return right bytes, operations end, and blocks
      are kept when threads move them in one direction only, as long as no freed
      span is read; requests to a server without a GPU tier never read one.
      Operations that run one after the other answer as a finite map.  Every push
      is taken from the queue in order and tried once; a re-replication round
      queues each of its blocks that the store keeps for exactly its other owners;
      the queue stays within its bound and one block, and the destructor returns
      with everything tried unless a sweep is in progress.  Pushes and pulls never use a
      freed stub while no peer is disconnected; the ring always holds the local
      node and known peers, and is right when membership changes do not overlap.
      Concurrent RDMA sends never use a dangling pointer, never write past or
      into a buffer of another send and never dial a peer twice, as long as
      connections are dropped while no send uses them; only a refused dial ends
      the process; the device reads exactly the posted messages, every send ends,
      and alone it is the sequential one.
      No node can deadlock on its mutexes and joins.
    - Node and cluster: every sequence of requests, messages and thread
      turns keeps a node well formed; lookups and inserts answer as specified
      over the wire; when pushes reach peers with room for them every replica ends
      up with every block, and the push traffic that an insert causes is finite
      whichever messages are lost.  After the loss of a node, if no push is lost,
      every block that was on all its owners is on all its owners under the new
      ring when the cluster is at rest.
    - Process: a server runs from its command line to its exit code, and a
      restart on the file that it left serves the blocks of its disk tier.
    - Private state: the registries give every object a field of its own.
    - RDMA: the wire format round-trips and acts like the gRPC push, buffers
      are never shared or lost, promises are set at most once; a connection
      delivers every push once and in order, and leaves the receiver as the
      same pushes over gRPC would; read repair works over either transport.
    - Metrics: the histograms count exactly in spite of the doubles; a scrape that
      is sent whole reads back every series, each with a value that it had at some
      moment of the scrape, and a truncated one is noticed; in every run of a node
      the recorded values are those of its state and of the answers of its
      handlers.
    - Hash driver: it prints the hashes that the cache and the router use.
    - Divergences: a wrapped eviction sweep loses a block, overlapping
      membership changes leave a stale ring, an unknown peer is never routed
      to, a block in another tier is counted as new, and a torn write into a
      reclaimed slot is visible; each is a theorem on a concrete state.  A peer
      that refuses an RDMA dial ends the process that dials, a failed memory
      registration is dereferenced, and dials leak their channel
      ([RdmaReceive.Dial_refused_terminates] and its neighbours,
      [RdmaThreads.rdma_refused_dial_terminates]).  A scraper that closes early ends
      the process, and an empty block on the disk is not found.  Among threads
      ([Races], [ReplicatorThreads.queue_overshoot] and its neighbour): a
      promotion and a demotion that cross lose the block, a lookup copies from
      freed memory, a moving block is missed, an insert is not counted, an erase
      is undone, the queue exceeds its bound, the destructor leaves a push
      behind, a shutdown frees the stub under a worker that sends and discards
      what is queued, a disconnect frees the RDMA connection under a send, and a
      send after the shutdown dials again, which ends the process in the
      destructor ([RdmaThreads.send_after_shutdown_terminates]).  A peer that
      comes back is put on the ring and pushed nothing.

    ** Fuel

    The binary search runs with the length of the ring as fuel, which halves at
    every turn; the clockwise walk visits each ring entry once; the eviction
    loop has the source's own bound of two sweeps; the drain of a round has
    its remaining length; the wait for an RDMA buffer has the source's 2000
    attempts.  Schedules are lists of turns of any length;
    [Interleaving.action_bound], [ReplicatorThreads.work] and
    [RdmaThreads.pc_left] bound the turns that an operation, a shutdown and a send
    need; a loop of a locking skeleton makes any finite number of turns.  The equivalence and liveness theorems show that the result is
    reached within it.

    ** Not modelled

    Thread creation and sleeping; waits on futures and condition variables in the
    deadlock theorem, which is about mutexes and joins ([ReplicatorThreads] has the
    wake-ups of the workers, [Ibverbs] and [RdmaReceive] the promises); weak memory (each action of a schedule is
    atomic, which the locks and the atomics of the source ensure; the borrowed
    spans are the one place where memory is read without a lock, and are
    modelled); gRPC channels and deadlines beyond their outcome; the calls into sockets, the verbs library and the file system beyond what they
    answer; log lines; the vendored BLAKE3; the Python client and the test
    programs.  The cluster theorems are over the gRPC transport; RDMA pushes
    reach them through [KvTransport.rdma_refines_grpc].  The lines of the C++
    sources that no definition covers are declarations that the definitions in
    the .cpp files repeat, comments, includes, log output and the calls named
    above. *)
From Stdlib Require Export ZArith Lia.
From Stdlib Require Import Strings.Byte.
From stdpp Require Export sorting vector strings base tactics gmap fin_maps numbers list.

(** ** Scope and notations *)

Declare Scope lethe_scope.
Delimit Scope lethe_scope with L.
Open Scope Z_scope.

(** ** Machine integers

    [std::size_t] and [std::uint64_t] are 64 bits wide, [std::uint32_t] is 32
    bits wide.  Values are kept in [Z]; an operation that can leave the range
    is wrapped explicitly where the source computes it. *)

Definition u8 (z : Z) : Z := z mod 2 ^ 8.
Definition u32 (z : Z) : Z := z mod 2 ^ 32.
Definition u64 (z : Z) : Z := z mod 2 ^ 64.

Notation "a +₆₄ b" := (u64 (a + b)) (at level 50, left associativity) : lethe_scope.
Notation "a -₆₄ b" := (u64 (a - b)) (at level 50, left associativity) : lethe_scope.
Notation "a *₆₄ b" := (u64 (a * b)) (at level 40, left associativity) : lethe_scope.
Notation "a +₃₂ b" := (u32 (a + b)) (at level 50, left associativity) : lethe_scope.
Open Scope lethe_scope.

Create HintDb lethe.

Lemma u8_range z : 0 ≤ u8 z < 2 ^ 8.
Proof. apply Z.mod_pos_bound. lia. Qed.

Lemma u32_range z : 0 ≤ u32 z < 2 ^ 32.
Proof. apply Z.mod_pos_bound. lia. Qed.

Lemma u64_range z : 0 ≤ u64 z < 2 ^ 64.
Proof. apply Z.mod_pos_bound. lia. Qed.

Lemma u8_small z : 0 ≤ z < 2 ^ 8 → u8 z = z.
Proof. apply Z.mod_small. Qed.

Lemma u32_small z : 0 ≤ z < 2 ^ 32 → u32 z = z.
Proof. apply Z.mod_small. Qed.

Lemma u64_small z : 0 ≤ z < 2 ^ 64 → u64 z = z.
Proof. apply Z.mod_small. Qed.

#[export] Hint Resolve u8_range u32_range u64_range : lethe.

(** The payload of a block is a [std::vector<std::byte>]; its [size()] is a
    [std::size_t], and [vector::max_size] keeps it below [2^63]. *)
Abbreviation byte := Corelib.Init.Byte.byte.
Abbreviation bytes := (list byte).

Definition size_of {A} (l : list A) : Z := Z.of_nat (length l).
Arguments size_of : simpl never.

Lemma size_of_nonneg {A} (l : list A) : 0 ≤ size_of l.
Proof. unfold size_of. lia. Qed.
#[export] Hint Resolve size_of_nonneg : lethe.

Lemma size_of_nil {A} : size_of (@nil A) = 0.
Proof. done. Qed.

Lemma size_of_pos {A} (l : list A) : l ≠ [] ↔ 0 < size_of l.
Proof. unfold size_of. destruct l; simpl; split; intros; (done || lia). Qed.

(** ** Bytes and little-endian words *)

#[export] Instance byte_eq_dec : EqDecision byte := Byte.byte_eq_dec.

#[export] Program Instance byte_countable : Countable byte :=
  inj_countable Byte.to_N Byte.of_N _.
Next Obligation. intros b. apply Byte.of_to_N. Qed.

Definition Z_of_byte (b : byte) : Z := Z.of_N (Byte.to_N b).

(** Conversion of an integer to [std::uint8_t]: reduction modulo [2^8]. *)
Definition byte_of_Z (z : Z) : byte :=
  default Byte.x00 (Byte.of_N (Z.to_N (z mod 256))).

Lemma Z_of_byte_range b : 0 ≤ Z_of_byte b < 256.
Proof.
  unfold Z_of_byte. pose proof (Byte.to_N_bounded b). lia.
Qed.

Lemma byte_of_Z_of_byte b : byte_of_Z (Z_of_byte b) = b.
Proof.
  unfold byte_of_Z. rewrite Z.mod_small by apply Z_of_byte_range.
  unfold Z_of_byte. by rewrite N2Z.id, Byte.of_to_N.
Qed.

Lemma Z_of_byte_of_Z z : Z_of_byte (byte_of_Z z) = z mod 256.
Proof.
  unfold byte_of_Z, Z_of_byte.
  pose proof (Z.mod_pos_bound z 256 ltac:(lia)).
  destruct (Byte.of_N (Z.to_N (z mod 256))) as [b|] eqn:E; simpl.
  - apply Byte.to_of_N in E. rewrite E. lia.
  - apply Byte.of_N_None_iff in E. lia.
Qed.

(** An [n]-byte unsigned integer in memory on a little-endian machine. *)
Fixpoint le_encode (n : nat) (z : Z) : bytes :=
  match n with
  | O => []
  | S n => byte_of_Z z :: le_encode n (z / 256)
  end.

Fixpoint le_decode (bs : bytes) : Z :=
  match bs with
  | [] => 0
  | b :: bs => Z_of_byte b + 256 * le_decode bs
  end.

Lemma length_le_encode n z : length (le_encode n z) = n.
Proof. revert z. induction n; intros z; simpl; auto. Qed.

Lemma le_decode_range bs : 0 ≤ le_decode bs < 256 ^ Z.of_nat (length bs).
Proof.
  induction bs as [|b bs IH]; simpl length; [simpl; lia|].
  rewrite Nat2Z.inj_succ, Z.pow_succ_r by lia. simpl le_decode.
  pose proof (Z_of_byte_range b). nia.
Qed.

Lemma le_decode_encode n z :
  0 ≤ z < 256 ^ Z.of_nat n → le_decode (le_encode n z) = z.
Proof.
  revert z. induction n as [|n IH]; intros z Hz; [simpl in *; lia|].
  rewrite Nat2Z.inj_succ, Z.pow_succ_r in Hz by lia. simpl.
  rewrite Z_of_byte_of_Z, IH.
  - pose proof (Z.div_mod z 256). lia.
  - split; [apply Z.div_pos; lia|apply Z.div_lt_upper_bound; lia].
Qed.

Lemma le_encode_decode bs : le_encode (length bs) (le_decode bs) = bs.
Proof.
  induction bs as [|b bs IH]; [done|]. simpl.
  pose proof (Z_of_byte_range b).
  rewrite (Z.add_comm (Z_of_byte b)), Z.mul_comm, Z.div_add_l, Z.div_small by lia.
  rewrite Z.add_0_r, IH. f_equal.
  rewrite <- (byte_of_Z_of_byte b) at 2. unfold byte_of_Z.
  rewrite Z.add_comm, Z_mod_plus_full. done.
Qed.

Arguments le_encode : simpl never.
Arguments le_decode : simpl never.

(** Copying the leading bytes of a buffer into a fixed-size array: a longer
    buffer is cut, a shorter one is padded with zero bytes. *)
Fixpoint vec_resize (n : nat) (l : bytes) : vec byte n :=
  match n with
  | O => [#]
  | S n => default Byte.x00 (head l) ::: vec_resize n (tail l)
  end.

Lemma vec_to_list_resize n l : vec_to_list (vec_resize n l) = resize n Byte.x00 l.
Proof.
  revert l. induction n as [|n IH]; intros [|b l]; simpl; f_equal; try done.
  rewrite IH. by rewrite resize_nil.
Qed.

Lemma vec_resize_to_list n (v : vec byte n) : vec_resize n (vec_to_list v) = v.
Proof.
  apply vec_to_list_inj2. rewrite vec_to_list_resize.
  apply resize_all_alt. by rewrite length_vec_to_list.
Qed.

(** Filters that keep or drop everything. *)
Lemma filter_all {A} (P : A → Prop) `{∀ x, Decision (P x)} l : Forall P l → filter P l = l.
Proof. induction 1 as [|x l Hx _ IH]; [done|]. by rewrite filter_cons_True, IH. Qed.

Lemma filter_none {A} (P : A → Prop) `{∀ x, Decision (P x)} l :
  Forall (λ x, ¬ P x) l → filter P l = [].
Proof. induction 1 as [|x l Hx _ IH]; [done|]. by rewrite filter_cons_False, IH. Qed.

Lemma length_filter_ne {A} `{EqDecision A} (x : A) l :
  NoDup l → x ∈ l → length (filter (λ y, y ≠ x) l) = (length l - 1)%nat.
Proof.
  intros Hnd Hx. apply list_elem_of_split in Hx as (l1 & l2 & ->).
  apply NoDup_app in Hnd as (_ & H1 & Hnd). apply NoDup_cons in Hnd as [H2 _].
  rewrite filter_app, filter_cons_False by tauto.
  rewrite (filter_all _ l1), (filter_all _ l2), !length_app; [cbn [length]; lia| |];
    apply Forall_forall; intros y Hy ->; [done|]. apply (H1 x Hy). by left.
Qed.

Lemma length_omap_le {A B} (f : A → option B) (l : list A) : (length (omap f l) ≤ length l)%nat.
Proof. induction l as [|x l IH]; cbn; [done|]. destruct (f x); cbn; lia. Qed.

(** Fixed-size records laid out one after the other. *)
Lemma take_drop_concat {A} (c n : nat) (ls : list (list A)) (l : list A) :
  Forall (λ l, length l = c) ls → ls !! n = Some l →
  take c (drop (n * c) (concat ls)) = l.
Proof.
  intros Hf. revert n. induction Hf as [|l0 ls Hl0 _ IH]; intros [|n] Hl; simplify_eq/=.
  - apply take_app_length.
  - rewrite <- drop_drop, drop_app_length. by apply IH.
Qed.

Lemma length_concat_const {A} (c : nat) (ls : list (list A)) :
  Forall (λ l, length l = c) ls → length (concat ls) = (length ls * c)%nat.
Proof. induction 1; simpl; rewrite ?length_app; lia. Qed.

(** ** Iteration over an [std::unordered_map]

    The iteration order of an unordered container is unspecified and depends
    on its history.  Every operation that iterates takes the order as an
    argument: a function that lists the entries of any map in some order.
    A theorem that quantifies over [it] therefore holds whatever order each
    single call happens to see. *)
Record Iteration (K V : Type) `{Countable K} := {
  iter_of :> gmap K V → list (K * V);
  iter_perm : ∀ m, iter_of m ≡ₚ map_to_list m
}.
Arguments iter_of {K V _ _}.
Arguments iter_perm {K V _ _}.
Arguments Build_Iteration {K V _ _}.

(** A concrete order, for evaluation. *)
Definition std_iteration {K V} `{Countable K} : Iteration K V :=
  {| iter_of := map_to_list; iter_perm := λ m, reflexivity _ |}.

(** Another one: the reverse. *)
Program Definition rev_iteration {K V} `{Countable K} : Iteration K V :=
  {| iter_of := λ m, reverse (map_to_list m) |}.
Next Obligation. intros. apply reverse_Permutation. Qed.

Section iteration.
Context {K V : Type} `{Countable K} (it : Iteration K V).
Implicit Types m : gmap K V.

Lemma elem_of_iter m k v : (k, v) ∈ it m ↔ m !! k = Some v.
Proof. rewrite (iter_perm it m). apply elem_of_map_to_list. Qed.

Lemma NoDup_iter m : NoDup (it m).*1.
Proof. rewrite (iter_perm it m). apply NoDup_fst_map_to_list. Qed.

Lemma elem_of_iter_fst m k : k ∈ (it m).*1 ↔ is_Some (m !! k).
Proof.
  rewrite (iter_perm it m), list_elem_of_fmap. split.
  - intros ([k' v] & -> & Hin%elem_of_map_to_list). eauto.
  - intros [v Hv%elem_of_map_to_list]. by exists (k, v).
Qed.
End iteration.

(** ** Sums *)

Definition zsum (l : list Z) : Z := foldr Z.add 0 l.

Lemma zsum_app l1 l2 : zsum (l1 ++ l2) = zsum l1 + zsum l2.
Proof. induction l1; simpl; lia. Qed.

#[export] Instance zsum_proper : Proper ((≡ₚ) ==> (=)) zsum.
Proof. induction 1; simpl; lia. Qed.

Lemma zsum_nonneg l : Forall (λ z, 0 ≤ z) l → 0 ≤ zsum l.
Proof. induction 1; simpl; lia. Qed.

Lemma zsum_insert (l : list Z) n x y :
  l !! n = Some x → zsum (<[n := y]> l) = zsum l - x + y.
Proof.
  revert n. induction l as [|z l IH]; intros [|n] E; simplify_eq/=; [lia|].
  rewrite (IH n E). lia.
Qed.

Lemma zsum_bound (l : list Z) c :
  Forall (λ z, 0 ≤ z ≤ c) l → 0 ≤ zsum l ≤ Z.of_nat (length l) * c.
Proof. induction 1; simpl; lia. Qed.

(** The sum of a measure over the values of a map. *)
Definition msum {K V} `{Countable K} (f : V → Z) (m : gmap K V) : Z :=
  zsum (f ∘ snd <$> map_to_list m).

Section msum.
Context {K V : Type} `{Countable K} (f : V → Z).
Implicit Types m : gmap K V.

Lemma msum_empty : msum f (∅ : gmap K V) = 0.
Proof. unfold msum. by rewrite map_to_list_empty. Qed.

Lemma msum_insert m k v :
  m !! k = None → msum f (<[k := v]> m) = f v + msum f m.
Proof. intros Hk. unfold msum. by rewrite map_to_list_insert. Qed.

Lemma msum_delete m k v :
  m !! k = Some v → msum f (delete k m) = msum f m - f v.
Proof.
  intros Hk. rewrite <- (insert_delete_id m k v Hk) at 2.
  rewrite msum_insert by apply lookup_delete_eq. lia.
Qed.

Lemma msum_update m k v v' :
  m !! k = Some v → msum f (<[k := v']> m) = msum f m - f v + f v'.
Proof.
  intros Hk. rewrite <- insert_delete_eq, msum_insert by apply lookup_delete_eq.
  rewrite (msum_delete m k v Hk). lia.
Qed.

Lemma msum_nonneg m : (∀ v, 0 ≤ f v) → 0 ≤ msum f m.
Proof. intros Hf. apply zsum_nonneg, Forall_fmap, Forall_true. intros [k v]. apply Hf. Qed.

Lemma msum_nonneg_in m : (∀ k v, m !! k = Some v → 0 ≤ f v) → 0 ≤ msum f m.
Proof.
  intros Hf. induction m as [|k v m Hk IH] using map_ind; [by rewrite msum_empty|].
  rewrite msum_insert by done. assert (0 ≤ f v) by (apply (Hf k); apply lookup_insert_eq).
  assert (0 ≤ msum f m); [|lia]. apply IH. intros k' v' Hk'. apply (Hf k').
  rewrite lookup_insert_ne; [done|]. congruence.
Qed.

Lemma msum_lookup_le m k v : (∀ v, 0 ≤ f v) → m !! k = Some v → f v ≤ msum f m.
Proof.
  intros Hf Hk. pose proof (msum_nonneg (delete k m) Hf).
  rewrite (msum_delete m k v Hk) in *. lia.
Qed.

Lemma msum_ext (g : V → Z) m :
  (∀ k v, m !! k = Some v → f v = g v) → msum f m = msum g m.
Proof.
  intros Hfg. unfold msum. f_equal. apply list_fmap_ext.
  intros i [k v] Hi. simpl. apply (Hfg k), elem_of_map_to_list.
  by eapply list_elem_of_lookup_2.
Qed.

Lemma msum_iter (it : Iteration K V) m : zsum (f ∘ snd <$> it m) = msum f m.
Proof. unfold msum. by rewrite (iter_perm it m). Qed.
End msum.

Lemma msum_fmap {K V W} `{Countable K} (f : W → Z) (g : V → W) (m : gmap K V) :
  msum f (g <$> m) = msum (f ∘ g) m.
Proof.
  unfold msum. rewrite map_to_list_fmap, <- list_fmap_compose. done.
Qed.

(** ** Tactics *)

(** Case analysis on the tests the code makes, with the arithmetic meaning of
    each boolean comparison put in the context. *)
Ltac case_test :=
  match goal with
  | |- context [if ?b then _ else _] => destruct b eqn:?
  | H : context [if ?b then _ else _] |- _ => destruct b eqn:?
  | |- context [match ?o with Some _ => _ | None => _ end] => destruct o eqn:?
  | H : context [match ?o with Some _ => _ | None => _ end] |- _ => destruct o eqn:?
  end.

Ltac zbool :=
  repeat match goal with
  | H : (_ && _) = true |- _ => apply andb_true_iff in H; destruct H
  | H : (_ || _) = false |- _ => apply orb_false_iff in H; destruct H
  | H : negb _ = true |- _ => apply negb_true_iff in H
  | H : negb _ = false |- _ => apply negb_false_iff in H
  | H : (_ <? _) = true |- _ => apply Z.ltb_lt in H
  | H : (_ <? _) = false |- _ => apply Z.ltb_ge in H
  | H : (_ <=? _) = true |- _ => apply Z.leb_le in H
  | H : (_ <=? _) = false |- _ => apply Z.leb_gt in H
  | H : (_ >? _) = _ |- _ => rewrite Z.gtb_ltb in H
  | H : (_ >=? _) = _ |- _ => rewrite Z.geb_leb in H
  | H : (_ =? _) = true |- _ => apply Z.eqb_eq in H
  | H : (_ =? _) = false |- _ => apply Z.eqb_neq in H
  | H : bool_decide _ = true |- _ => apply bool_decide_eq_true in H
  | H : bool_decide _ = false |- _ => apply bool_decide_eq_false in H
  end.

Ltac tests := repeat (case_test; zbool; simplify_eq/=).
