(* ===== verification/Types.v ===== *)
(** * Common types (cache_server/include/lethe/types.hpp)

    The identity of a block, its payload record, the metadata record that the
    evictor reads, the peer records of the membership protocol, and the
    in-memory hash functor of the block containers. *)
From S2P Require Import Prelude.

(** ** Enumerations *)

(** Order matters: a lower index is a faster and smaller tier. *)
Inductive Tier : Type := HBM | DRAM | SSD.

#[export] Instance Tier_eq_dec : EqDecision Tier.
Proof. solve_decision. Defined.

(** [static_cast<std::uint8_t>(tier)]. *)
Definition Tier_to_Z (t : Tier) : Z :=
  match t with HBM => 0 | DRAM => 1 | SSD => 2 end.

(** [static_cast<Tier>(raw)] for a value in range. *)
Definition Tier_of_Z (z : Z) : option Tier :=
  if z =? 0 then Some HBM else if z =? 1 then Some DRAM
  else if z =? 2 then Some SSD else None.

Lemma Tier_of_to_Z t : Tier_of_Z (Tier_to_Z t) = Some t.
Proof. by destruct t. Qed.

#[export] Instance Tier_countable : Countable Tier := inj_countable Tier_to_Z Tier_of_Z Tier_of_to_Z.

Inductive StreamPurpose : Type := ReplicationPush | ReadRepair | Promotion.

#[export] Instance StreamPurpose_eq_dec : EqDecision StreamPurpose.
Proof. solve_decision. Defined.

(** ** Block identity *)

(** A 32-byte content digest, [std::array<std::byte, 32>]. *)
Definition Hash256 : Set := vec byte 32.

#[export] Program Instance vec_countable {A n} `{Countable A} : Countable (vec A n) :=
  inj_countable vec_to_list
    (λ l, match decide (length l = n) with
          | left E => Some (eq_rect _ (vec A) (list_to_vec l) _ E)
          | right _ => None
          end) _.
Next Obligation.
  intros A n ?? v. simpl. destruct (decide _) as [E|Hne].
  - f_equal. apply vec_to_list_inj2. destruct E. simpl. apply vec_to_list_to_vec.
  - destruct Hne. apply length_vec_to_list.
Qed.

Record BlockId : Type := mkBlockId {
  b_hash : Hash256;
  b_layer : Z;        (* std::uint32_t *)
  b_head_group : Z;   (* std::uint32_t *)
  b_model_id : Z      (* std::uint32_t *)
}.

#[export] Instance BlockId_eq_dec : EqDecision BlockId.
Proof. solve_decision. Defined.

#[export] Program Instance BlockId_countable : Countable BlockId :=
  inj_countable' (λ b, (b_hash b, b_layer b, b_head_group b, b_model_id b))
    (λ '(h, l, g, m), mkBlockId h l g m) _.
Next Obligation. by intros []. Qed.

(** The three disambiguators are 32-bit values. *)
Definition BlockId_wf (b : BlockId) : Prop :=
  0 ≤ b_layer b < 2 ^ 32 ∧ 0 ≤ b_head_group b < 2 ^ 32 ∧ 0 ≤ b_model_id b < 2 ^ 32.

(** [BlockIdHash::operator()]: the bucket hash of the in-memory containers,
    a 64-bit fold of the leading eight digest bytes and the disambiguators. *)
Definition hash_combine (seed v : Z) : Z :=
  Z.lxor seed
    (u64 (v + 0x9E3779B97F4A7C15 + u64 (Z.shiftl seed 6) + Z.shiftr seed 2)).

Definition BlockIdHash (b : BlockId) : Z :=
  let h := le_decode (take 8 (vec_to_list (b_hash b))) in
  let h := hash_combine h (b_layer b) in
  let h := hash_combine h (b_head_group b) in
  hash_combine h (b_model_id b).

(** ** Records *)

(** A materialized block: identity, owned bytes, tier of origin, epoch. *)
Record KvBlock : Type := mkKvBlock {
  kv_id : BlockId;
  kv_data : bytes;
  kv_tier : Tier;
  kv_inserted_epoch : Z   (* std::uint64_t *)
}.

(** The ranges of the C++ types: [std::vector::max_size] bounds a payload, the
    disambiguators have 32 bits and the epoch has 64. *)
Record KvBlock_wf (b : KvBlock) : Prop := {
  wf_size : size_of (kv_data b) < 2 ^ 63;
  wf_id : BlockId_wf (kv_id b);
  wf_epoch : 0 ≤ kv_inserted_epoch b < 2 ^ 64
}.

(** Per-block index entry (no payload), with the SIEVE [visited] bit. *)
Record BlockMeta : Type := mkBlockMeta {
  m_id : BlockId;
  m_tier : Tier;
  m_size_bytes : Z;
  m_last_access_epoch : Z;
  m_insert_epoch : Z;
  m_visited : bool
}.

Record PeerStatus : Type := mkPeerStatus {
  ps_node_id : string;
  ps_last_seen_epoch : Z;
  ps_suspected : bool
}.

(** A seed-list entry: routing identity and transport address. *)
Record StaticPeer : Type := mkStaticPeer {
  sp_node_id : string;
  sp_address : string
}.

Record HeartbeatReply : Type := mkHeartbeatReply {
  alive_peers : list PeerStatus;
  cluster_epoch : Z
}.

(** ** Facts *)

Lemma lxor_range a b : 0 ≤ a < 2 ^ 64 → 0 ≤ b < 2 ^ 64 → 0 ≤ Z.lxor a b < 2 ^ 64.
Proof.
  intros Ha Hb. split; [apply Z.lxor_nonneg; lia|].
  destruct (decide (Z.lxor a b = 0)) as [->|Hne]; [lia|].
  assert (0 ≤ Z.lxor a b) by (apply Z.lxor_nonneg; lia).
  apply Z.log2_lt_pow2; [lia|].
  eapply Z.le_lt_trans; [apply Z.log2_lxor; lia|].
  apply Z.max_lub_lt.
  - destruct (decide (a = 0)) as [->|]; [simpl; lia|]. apply Z.log2_lt_pow2; lia.
  - destruct (decide (b = 0)) as [->|]; [simpl; lia|]. apply Z.log2_lt_pow2; lia.
Qed.

Lemma hash_combine_range s v : 0 ≤ s < 2 ^ 64 → 0 ≤ hash_combine s v < 2 ^ 64.
Proof. intros Hs. apply lxor_range; [done|apply u64_range]. Qed.

(** The digest prefix that both the bucket hash and the router read is a
    64-bit value. *)
Lemma le_decode_take_8_range (h : Hash256) :
  0 ≤ le_decode (take 8 (vec_to_list h)) < 2 ^ 64.
Proof.
  pose proof (le_decode_range (take 8 (vec_to_list h))) as Hr.
  rewrite length_take, length_vec_to_list in Hr.
  change (256 ^ Z.of_nat (8 `min` 32)) with (2 ^ 64) in Hr. done.
Qed.

(** The bucket hash is a [std::size_t]. *)
Lemma BlockIdHash_range b : 0 ≤ BlockIdHash b < 2 ^ 64.
Proof. unfold BlockIdHash. do 3 apply hash_combine_range. apply le_decode_take_8_range. Qed.

(** A digest whose bytes are all [b], for concrete inputs. *)
Definition hash_of_byte (b : byte) : Hash256 := vreplicate 32 b.
Definition block_id_of_byte (b : byte) : BlockId := mkBlockId (hash_of_byte b) 0 0 0.
