(* ===== verification/Text.v ===== *)
(** * Text

    The string operations of the C++ standard library that the sources use:
    searching and splitting, white space, the integer readers ([strtoull],
    [std::stoi], extraction from a stream) and the decimal printer that
    [std::to_string] and [operator<<] share.  A [std::string] is a [string] of
    eight-bit characters. *)
From Stdlib Require Import Ascii.
From stdpp Require Import pretty.
From S2P Require Import Prelude.

(** ** Splitting *)

(** [std::getline] with a delimiter.  The empty string after a trailing
    delimiter, which [getline] does not produce, is skipped by its caller. *)
Fixpoint split_on (sep : ascii) (s : string) : list string :=
  match s with
  | EmptyString => [""]
  | String a s =>
      if Ascii.eqb a sep then "" :: split_on sep s
      else match split_on sep s with
           | [] => [String a ""]
           | x :: l => String a x :: l
           end
  end.

(** [find] of a character with the two [substr]s around it. *)
Fixpoint cut_at (sep : ascii) (s : string) : option (string * string) :=
  match s with
  | EmptyString => None
  | String a s =>
      if Ascii.eqb a sep then Some ("", s)
      else (λ '(x, y), (String a x, y)) <$> cut_at sep s
  end.

(** [rfind] of a character with the two [substr]s around it. *)
Fixpoint cut_last (sep : ascii) (s : string) : option (string * string) :=
  match s with
  | EmptyString => None
  | String a s =>
      match cut_last sep s with
      | Some (x, y) => Some (String a x, y)
      | None => if Ascii.eqb a sep then Some ("", s) else None
      end
  end.

(** ** Integers *)

(** [strtoull] with base 10: white space, an optional sign, digits; a value
    over the range gives the largest one, a minus sign negates modulo [2^64]. *)
Definition is_space (a : ascii) : bool :=
  let n := Ascii.nat_of_ascii a in (n =? 32)%nat || ((9 <=? n)%nat && (n <=? 13)%nat).

Definition digit (a : ascii) : option Z :=
  let n := Z.of_nat (Ascii.nat_of_ascii a) in
  if (48 <=? n) && (n <=? 57) then Some (n - 48) else None.

Fixpoint digits (s : string) (acc : Z) : Z :=
  match s with
  | EmptyString => acc
  | String a s => match digit a with Some d => digits s (acc * 10 + d) | None => acc end
  end.

Fixpoint skip_spaces (s : string) : string :=
  match s with
  | String a s' => if is_space a then skip_spaces s' else s
  | EmptyString => s
  end.

Definition strtoull (s : string) : Z :=
  let s := skip_spaces s in
  let '(neg, s) := match s with
                   | String "-" s => (true, s)
                   | String "+" s => (false, s)
                   | _ => (false, s)
                   end in
  let v := digits s 0 in
  if v >? 2 ^ 64 - 1 then 2 ^ 64 - 1 else if neg then u64 (- v) else v.

(** [std::stoi]; [None] is an exception. *)
Definition stoi (s : string) : option Z :=
  let s := skip_spaces s in
  let '(neg, s) := match s with
                   | String "-" s => (true, s)
                   | String "+" s => (false, s)
                   | _ => (false, s)
                   end in
  match s with
  | String a _ =>
      match digit a with
      | None => None
      | Some _ =>
          let v := if (neg : bool) then - digits s 0 else digits s 0 in
          if (v <? - 2 ^ 31) || (v >? 2 ^ 31 - 1) then None else Some v
      end
  | EmptyString => None
  end.

(** ** Facts about splitting *)

Fixpoint lacks (c : ascii) (s : string) : bool :=
  match s with
  | EmptyString => true
  | String a s => negb (Ascii.eqb a c) && lacks c s
  end.

Lemma lacks_app c s1 s2 : lacks c (s1 +:+ s2) = lacks c s1 && lacks c s2.
Proof. induction s1 as [|a s1 IH]; [done|]. simpl. by rewrite IH, andb_assoc. Qed.

Lemma split_on_app sep s rest :
  lacks sep s = true → split_on sep (s +:+ String sep rest) = s :: split_on sep rest.
Proof.
  induction s as [|a s IH]; simpl; intros H.
  - by rewrite Ascii.eqb_refl.
  - apply andb_true_iff in H as [Ha Hs]. apply negb_true_iff in Ha. by rewrite Ha, (IH Hs).
Qed.

Lemma split_on_lacks sep s : lacks sep s = true → split_on sep s = [s].
Proof.
  induction s as [|a s IH]; simpl; intros H; [done|].
  apply andb_true_iff in H as [Ha Hs]. apply negb_true_iff in Ha. by rewrite Ha, (IH Hs).
Qed.

Lemma split_on_concat sep items :
  items ≠ [] → Forall (λ s, lacks sep s = true) items →
  split_on sep (String.concat (String sep "") items) = items.
Proof.
  intros Hne Hall. induction Hall as [|s items Hs Hall IH]; [done|].
  destruct items as [|s' items]; [by apply split_on_lacks|].
  change (String.concat (String sep "") (s :: s' :: items)) with
    (s +:+ String sep (String.concat (String sep "") (s' :: items))).
  by rewrite split_on_app, IH.
Qed.

Lemma cut_last_lacks sep s : lacks sep s = true → cut_last sep s = None.
Proof.
  induction s as [|a s IH]; [done|]. cbn. intros [Ha Hs]%andb_true_iff. apply negb_true_iff in Ha.
  by rewrite (IH Hs), Ha.
Qed.

Lemma cut_last_app sep s rest : lacks sep rest = true → cut_last sep (s +:+ String sep rest) = Some (s, rest).
Proof.
  intros Hr. induction s as [|a s IH].
  - change ("" +:+ String sep rest) with (String sep rest). cbn [cut_last].
    by rewrite (cut_last_lacks _ _ Hr), Ascii.eqb_refl.
  - change (String a s +:+ String sep rest) with (String a (s +:+ String sep rest)). cbn [cut_last]. by rewrite IH.
Qed.

Lemma cut_at_app sep s rest : lacks sep s = true → cut_at sep (s +:+ String sep rest) = Some (s, rest).
Proof.
  induction s as [|a s IH]; simpl; intros H; [by rewrite Ascii.eqb_refl|].
  apply andb_true_iff in H as [Ha Hs]. apply negb_true_iff in Ha. by rewrite Ha, (IH Hs).
Qed.

Lemma digits_nonneg s acc : 0 ≤ acc → 0 ≤ digits s acc.
Proof.
  revert acc. induction s as [|a s IH]; intros acc Ha; [done|]. simpl.
  unfold digit. destruct (_ && _) eqn:E; [|done]. apply IH. lia.
Qed.


(** ** Stream extraction *)

(** [operator>>] into a [std::string]: white space, then the longest run of
    other characters; an empty run is a failure. *)
Fixpoint read_word (s : string) : string * string :=
  match s with
  | EmptyString => ("", "")
  | String a s' =>
      if is_space a then ("", s)
      else let '(w, rest) := read_word s' in (String a w, rest)
  end.

Definition extract_word (s : string) : option (string * string) :=
  let '(w, rest) := read_word (skip_spaces s) in
  if String.eqb w "" then None else Some (w, rest).

(** The digits at the front of a string and what follows them. *)
Fixpoint scan_digits (s : string) (acc : Z) : Z * string :=
  match s with
  | EmptyString => (acc, "")
  | String a s' => match digit a with Some d => scan_digits s' (acc * 10 + d) | None => (acc, s) end
  end.

(** [operator>>] into a [std::uint32_t]: no digits or a value over the range is
    a failure, a minus sign negates modulo [2^32]. *)
Definition extract_u32 (s : string) : option (Z * string) :=
  let s := skip_spaces s in
  let '(neg, s) := match s with
                   | String "-" s => (true, s)
                   | String "+" s => (false, s)
                   | _ => (false, s)
                   end in
  match s with
  | EmptyString => None
  | String a _ =>
      match digit a with
      | None => None
      | Some _ =>
          let '(v, rest) := scan_digits s 0 in
          if v >? 2 ^ 32 - 1 then None else Some (if (neg : bool) then u32 (- v) else v, rest)
      end
  end.

(** The lines that [std::getline] gives in turn: nothing follows a final
    newline. *)
Definition newline : ascii := "010".

Fixpoint getlines (s : string) : list string :=
  match s with
  | EmptyString => []
  | String a s =>
      if Ascii.eqb a newline then "" :: getlines s
      else match getlines s with
           | [] => [String a ""]
           | x :: l => String a x :: l
           end
  end.

(** ** Facts about words, numbers and lines *)

Lemma string_app_cons a (s1 s2 : string) : String a s1 +:+ s2 = String a (s1 +:+ s2).
Proof. done. Qed.

Lemma string_app_assoc (s1 s2 s3 : string) : (s1 +:+ s2) +:+ s3 = s1 +:+ s2 +:+ s3.
Proof. induction s1 as [|a s1 IH]; [done|]. by rewrite !string_app_cons, IH. Qed.

Lemma string_app_nil_r (s : string) : s +:+ "" = s.
Proof. induction s as [|a s IH]; [done|]. by rewrite string_app_cons, IH. Qed.

Lemma string_app_inj (s s1 s2 : string) : s +:+ s1 = s +:+ s2 → s1 = s2.
Proof. induction s as [|a s IH]; [done|]. rewrite !string_app_cons. intros [= E]. by apply IH. Qed.

Fixpoint str_all (p : ascii → bool) (s : string) : bool :=
  match s with
  | EmptyString => true
  | String a s => p a && str_all p s
  end.

Lemma str_all_app p s1 s2 : str_all p (s1 +:+ s2) = str_all p s1 && str_all p s2.
Proof. induction s1 as [|a s1 IH]; [done|]. rewrite string_app_cons. cbn. by rewrite IH, andb_assoc. Qed.

Lemma str_all_mono (p q : ascii → bool) s :
  (∀ a, p a = true → q a = true) → str_all p s = true → str_all q s = true.
Proof.
  intros Hpq. induction s as [|a s IH]; [done|]. cbn. intros [Ha Hs]%andb_true_iff.
  apply andb_true_iff. auto.
Qed.

Lemma str_all_substring p n m s : str_all p s = true → str_all p (String.substring n m s) = true.
Proof.
  revert n m. induction s as [|a s IH]; intros n m Hs; [by destruct n, m|].
  cbn in Hs. apply andb_true_iff in Hs as [Ha Hs]. destruct n as [|n]; [|by apply IH].
  destruct m as [|m]; [done|]. cbn. rewrite Ha. by apply (IH 0%nat m).
Qed.

Lemma str_all_replicate p c n :
  str_all p c = true → str_all p (String.concat "" (replicate n c)) = true.
Proof.
  intros Hc. induction n as [|n IH]; [done|]. destruct n as [|n]; [done|].
  change (String.concat "" (replicate (S (S n)) c)) with (c +:+ "" +:+ String.concat "" (replicate (S n) c)).
  rewrite !str_all_app, Hc. exact IH.
Qed.

Lemma lacks_str_all c s : lacks c s = str_all (λ a, negb (Ascii.eqb a c)) s.
Proof. induction s as [|a s IH]; [done|]. cbn. by rewrite IH. Qed.

Definition is_digit (a : ascii) : bool := if digit a then true else false.
Definition non_space (a : ascii) : bool := negb (is_space a).

Lemma digit_range a d : digit a = Some d → 0 ≤ d ≤ 9.
Proof. unfold digit. destruct (_ && _) eqn:E; [|done]. intros [= <-]. zbool. lia. Qed.

Lemma is_digit_range a :
  is_digit a = true ↔ (48 ≤ Ascii.nat_of_ascii a ≤ 57)%nat.
Proof.
  unfold is_digit, digit. destruct (_ && _) eqn:E; split; intros H; try done; zbool; [lia|].
  apply andb_false_iff in E as [E|E]; zbool; lia.
Qed.

Lemma is_digit_non_space a : is_digit a = true → non_space a = true.
Proof.
  intros H%is_digit_range. unfold non_space, is_space.
  destruct (Nat.eqb_spec (nat_of_ascii a) 32), (Nat.leb_spec 9 (nat_of_ascii a)),
    (Nat.leb_spec (nat_of_ascii a) 13); cbn; lia.
Qed.

Lemma is_digit_ne a (c : ascii) : is_digit a = true → is_digit c = false → Ascii.eqb a c = false.
Proof. intros Ha Hc. destruct (Ascii.eqb_spec a c); congruence. Qed.

(** *** Decimal numbers *)

Lemma digit_pretty_char d : (d < 10)%N → digit (pretty_N_char d) = Some (Z.of_N d).
Proof.
  intros Hd. assert (d ∈ ([0;1;2;3;4;5;6;7;8;9])%N) as Hin by (rewrite !elem_of_cons; lia).
  repeat (apply elem_of_cons in Hin as [->|Hin]; [done|]). by apply not_elem_of_nil in Hin.
Qed.

Lemma scan_pretty_go x s rest :
  scan_digits (pretty_N_go x s +:+ rest) 0 = scan_digits (s +:+ rest) (Z.of_N x).
Proof.
  revert s. induction (N.lt_wf_0 x) as [x _ IH]; intros s.
  destruct (decide (x = 0)%N) as [->|Hx]; [by rewrite pretty_N_go_0|].
  rewrite pretty_N_go_step by lia. rewrite IH by (apply N.div_lt; lia).
  rewrite string_app_cons. cbn [scan_digits].
  rewrite digit_pretty_char by (apply N.mod_lt; lia). f_equal.
  pose proof (N.div_mod x 10). lia.
Qed.

Lemma pretty_go_digits x s : str_all is_digit s = true → str_all is_digit (pretty_N_go x s) = true.
Proof.
  revert s. induction (N.lt_wf_0 x) as [x _ IH]; intros s Hs.
  destruct (decide (x = 0)%N) as [->|Hx]; [by rewrite pretty_N_go_0|].
  rewrite pretty_N_go_step by lia. apply IH; [apply N.div_lt; lia|]. cbn [str_all].
  unfold is_digit at 1. by rewrite digit_pretty_char by (apply N.mod_lt; lia).
Qed.

Lemma pretty_go_nonempty x s : (0 < x)%N → pretty_N_go x s ≠ "".
Proof.
  revert s. induction (N.lt_wf_0 x) as [x _ IH]; intros s Hx. rewrite pretty_N_go_step by lia.
  destruct (decide (x / 10 = 0)%N) as [->|Hd]; [by rewrite pretty_N_go_0|].
  apply IH; [by apply N.div_lt|by apply N.neq_0_lt_0].
Qed.

(** A printed number is a nonempty string of digits that reads back. *)
Lemma pretty_digits (n : N) : str_all is_digit (pretty n) = true ∧ pretty n ≠ "".
Proof.
  unfold pretty, pretty_N. case_decide as Hn; [done|].
  split; [by apply pretty_go_digits|apply pretty_go_nonempty; lia].
Qed.

Lemma scan_pretty (n : N) rest :
  (∀ a s, rest = String a s → is_digit a = false) →
  scan_digits (pretty n +:+ rest) 0 = (Z.of_N n, rest).
Proof.
  intros Hrest. assert (∀ v, scan_digits rest v = (v, rest)) as Hstop.
  { intros v. destruct rest as [|a s]; [done|]. specialize (Hrest a s eq_refl).
    unfold is_digit in Hrest. cbn. by destruct (digit a). }
  unfold pretty, pretty_N. case_decide as Hn; [subst; by apply Hstop|].
  rewrite scan_pretty_go. apply Hstop.
Qed.

Lemma digits_scan s acc : digits s acc = (scan_digits s acc).1.
Proof. revert acc. induction s as [|a s IH]; intros acc; [done|]. cbn. destruct (digit a); [apply IH|done]. Qed.

Lemma substring_all s : String.substring 0 (String.length s) s = s.
Proof. induction s as [|a s IH]; [done|]. cbn. by rewrite IH. Qed.

Lemma length_string_app (s1 s2 : string) :
  String.length (s1 +:+ s2) = (String.length s1 + String.length s2)%nat.
Proof. induction s1 as [|a s1 IH]; [done|]. rewrite string_app_cons. cbn. by rewrite IH. Qed.

Lemma substring_after s1 s2 :
  String.substring (String.length s1) (String.length (s1 +:+ s2) - String.length s1) (s1 +:+ s2) = s2.
Proof.
  replace (String.length (s1 +:+ s2) - String.length s1)%nat with (String.length s2)
    by (rewrite length_string_app; lia).
  induction s1 as [|a s1 IH]; [apply substring_all|exact IH].
Qed.

(** *** Words *)

Lemma skip_spaces_word s : (∀ a s', s = String a s' → is_space a = false) → skip_spaces s = s.
Proof. destruct s as [|a s]; [done|]. intros H. cbn. by rewrite (H a s eq_refl). Qed.

Lemma read_word_app w rest :
  str_all non_space w = true → (∀ a s, rest = String a s → is_space a = true) →
  read_word (w +:+ rest) = (w, rest).
Proof.
  intros Hw Hrest. induction w as [|a w IH].
  - change ("" +:+ rest) with rest. destruct rest as [|a s]; [done|].
    cbn [read_word]. by rewrite (Hrest a s eq_refl).
  - rewrite string_app_cons. cbn [read_word str_all] in *. apply andb_true_iff in Hw as [Ha Hw]. apply negb_true_iff in Ha. by rewrite Ha, (IH Hw).
Qed.

Lemma extract_word_app w rest :
  w ≠ "" → str_all non_space w = true → (∀ a s, rest = String a s → is_space a = true) →
  extract_word (w +:+ rest) = Some (w, rest).
Proof.
  intros Hne Hw Hrest. unfold extract_word. rewrite skip_spaces_word.
  - rewrite read_word_app by done. by destruct (String.eqb_spec w "").
  - intros a s E. destruct w as [|c w]; [done|]. injection E as <- _. cbn in Hw.
    apply andb_true_iff in Hw as [Ha _]. by apply negb_true_iff in Ha.
Qed.

(** A digit is not a sign. *)
Lemma digit_sign {A} a (x y z : A) :
  is_digit a = true → match a with "-"%char => x | "+"%char => y | _ => z end = z.
Proof.
  intros Ha. destruct a as [[] [] [] [] [] [] [] []]; first [reflexivity | vm_compute in Ha; discriminate Ha].
Qed.

(** A printed number after a blank. *)
Lemma extract_u32_pretty (n : N) rest :
  (n < 2 ^ 32)%N → (∀ a s, rest = String a s → is_digit a = false) →
  extract_u32 (" " +:+ pretty n +:+ rest) = Some (Z.of_N n, rest).
Proof.
  intros Hn Hrest. destruct (pretty_digits n) as [Hd Hne].
  pose proof (scan_pretty n rest Hrest) as Hscan.
  unfold extract_u32. destruct (pretty n) as [|a s]; [done|].
  cbn in Hd. apply andb_true_iff in Hd as [Ha _].
  change (skip_spaces (" " +:+ String a s +:+ rest)) with (skip_spaces (String a (s +:+ rest))).
  change (String a s +:+ rest) with (String a (s +:+ rest)) in Hscan.
  rewrite skip_spaces_word
    by (intros b s' [= <- _]; by apply negb_true_iff, is_digit_non_space).
  rewrite digit_sign by done. unfold is_digit in Ha. destruct (digit a); [|done]. rewrite Hscan.
  destruct (Z.gtb_spec (Z.of_N n) (2 ^ 32 - 1)); [lia|done].
Qed.

(** *** Lines *)

(** Lines as [operator<<] writes them, each with its newline. *)
Definition unlines (ls : list string) : string :=
  foldr (λ l s, l +:+ String newline s) "" ls.

Lemma unlines_app l1 l2 : unlines (l1 ++ l2) = unlines l1 +:+ unlines l2.
Proof.
  induction l1 as [|l l1 IH]; [done|]. cbn [app unlines foldr]. fold (unlines (l1 ++ l2)) (unlines l1).
  by rewrite IH, string_app_assoc, string_app_cons.
Qed.

Lemma getlines_line l s :
  lacks newline l = true → getlines (l +:+ String newline s) = l :: getlines s.
Proof.
  induction l as [|a l IH]; intros Hl; [done|]. cbn [lacks] in Hl. apply andb_true_iff in Hl as [Ha Hl].
  apply negb_true_iff in Ha. rewrite string_app_cons. cbn [getlines]. by rewrite Ha, (IH Hl).
Qed.

Lemma getlines_unlines ls : Forall (λ l, lacks newline l = true) ls → getlines (unlines ls) = ls.
Proof.
  induction 1 as [|l ls Hl _ IH]; [done|]. cbn [unlines foldr]. fold (unlines ls).
  by rewrite getlines_line, IH.
Qed.
