(* ===== verification/Double.v ===== *)
(** * Double precision

    The floating-point operations of the metrics code on nonnegative values.  A
    [double] of at least [2^-47] is an integer multiple of [2^-100] and is
    represented by that multiple, so that comparison is the comparison of
    integers.  The metrics handle whole nanoseconds, milliseconds and
    microseconds in seconds, so no smaller value than [10^-9] (and zero)
    occurs, nor one near the overflow threshold.  Every operation is the exact
    rational result rounded to 53 significant bits, ties to even.  [print_g] is what [operator<<] writes for a double with
    the default precision. *)
From Stdlib Require Import Ascii.
From stdpp Require Import pretty.
From S2P Require Import Prelude Text.

(** The integer nearest to [n / d], ties to even. *)
Definition rne (n d : Z) : Z :=
  let f := n / d in
  let r := 2 * (n mod d) in
  if r <? d then f else if d <? r then f + 1 else if Z.even f then f else f + 1.

Definition double_one : Z := 2 ^ 100.

(** The double nearest to the rational [p / q]. *)
Definition fl (p q : Z) : Z :=
  let n := p * double_one in
  let k := Z.max 0 (Z.log2 (n / q) - 52) in
  rne n (q * 2 ^ k) * 2 ^ k.

Definition double_of_Z (z : Z) : Z := fl z 1.
Definition double_div (a b : Z) : Z := fl a b.
Definition double_mul (a b : Z) : Z := fl (a * b) (double_one * double_one).

(** [static_cast<std::uint64_t>], in range. *)
Definition double_trunc (a : Z) : Z := a / double_one.

(** ** Printing *)

(** The value [v] as a multiple of [10^(x - 5)], rounded. *)
Definition six_digits (v x : Z) : Z :=
  if x <=? 5 then rne (v * 10 ^ (5 - x)) double_one else rne v (double_one * 10 ^ (x - 5)).

(** The decimal exponent: the largest [x] with [10^x <= v], from above. *)
Fixpoint decimal_exponent (fuel : nat) (v x : Z) : Z :=
  match fuel with
  | O => x
  | S fuel =>
      if (if 0 <=? x then 10 ^ x * double_one <=? v else double_one <=? v * 10 ^ (- x)) then x
      else decimal_exponent fuel v (x - 1)
  end.

(** Six digits, padded with zeros on the left. *)
Definition pad_digits (n : nat) (d : Z) : string :=
  let s := pretty (Z.to_N d) in
  String.concat "" (replicate (n - String.length s) "0") +:+ s.

Fixpoint strip_zeros (s : string) : string :=
  match s with
  | EmptyString => ""
  | String a s =>
      match strip_zeros s with
      | EmptyString => if Ascii.eqb a "0"%char then "" else String a ""
      | s' => String a s'
      end
  end.

Definition with_fraction (int frac : string) : string :=
  let frac := strip_zeros frac in
  if String.eqb frac "" then int else int +:+ "." +:+ frac.

Definition print_exponent (x : Z) : string :=
  (if x <? 0 then "e-" else "e+") +:+ pad_digits 2 (Z.abs x).

(** [%g] with precision 6. *)
Definition print_g (v : Z) : string :=
  if v =? 0 then "0"
  else
    let x0 := decimal_exponent 700 v (Z.max 0 ((Z.log2 v - 100) / 3 + 1)) in
    let d0 := six_digits v x0 in
    let '(d, x) := if d0 =? 10 ^ 6 then (10 ^ 5, x0 + 1) else (d0, x0) in
    let s := pad_digits 6 d in
    if (x <? -4) || (6 <=? x)
    then with_fraction (String.substring 0 1 s) (String.substring 1 5 s) +:+ print_exponent x
    else if 0 <=? x
    then with_fraction (String.substring 0 (Z.to_nat x + 1) s)
           (String.substring (Z.to_nat x + 1) (5 - Z.to_nat x) s)
    else with_fraction "0" (String.concat "" (replicate (Z.to_nat (- x) - 1) "0") +:+ s).

Lemma print_g_examples :
  print_g (fl 5 100000) = "5e-05" ∧ print_g (fl 1 10000) = "0.0001" ∧ print_g (fl 7 2) = "3.5" ∧
  print_g (fl 123456789 1) = "1.23457e+08" ∧ print_g (fl 1 3) = "0.333333" ∧
  print_g (fl 999999600000 1000000) = "1e+06" ∧ print_g (fl 2 1) = "2" ∧
  print_g (fl 1000005 1000000) = "1.00001".
Proof. by vm_compute. Qed.

(** ** Rounding is monotone *)

(** [r] is nearest to [n / d], and even when halfway. *)
Lemma rne_nearest n d :
  0 < d → let r := rne n d in
  d * (2 * r - 1) ≤ 2 * n ≤ d * (2 * r + 1) ∧
  (2 * n = d * (2 * r - 1) ∨ 2 * n = d * (2 * r + 1) → Z.even r = true).
Proof.
  intros Hd. cbn zeta. unfold rne. pose proof (Z.div_mod n d ltac:(lia)) as E.
  pose proof (Z.mod_pos_bound n d Hd) as Hr. set (f := n / d) in *. set (r := n mod d) in *.
  destruct (Z.ltb_spec (2 * r) d); [split; [nia|intros [?|?]; nia]|].
  destruct (Z.ltb_spec d (2 * r)); [split; [nia|intros [?|?]; nia]|].
  destruct (Z.even f) eqn:Ev; (split; [nia|]); intros _; [done|].
  rewrite Z.even_add. by rewrite Ev.
Qed.

Lemma rne_mono n d n' d' : 0 < d → 0 < d' → n * d' ≤ n' * d → rne n d ≤ rne n' d'.
Proof.
  intros Hd Hd' Hle. destruct (rne_nearest n d Hd) as [H1 E1], (rne_nearest n' d' Hd') as [H2 E2].
  set (r := rne n d) in *. set (r' := rne n' d') in *.
  destruct (Z.le_gt_cases r r') as [|Hgt]; [done|exfalso].
  (* n / d is at least r - 1/2, n' / d' at most r' + 1/2 *)
  assert (d * d' * (2 * r - 1) ≤ 2 * n * d') by nia.
  assert (2 * n' * d ≤ d * d' * (2 * r' + 1)) by nia.
  assert (0 < d * d') by nia.
  assert (r = r' + 1) as Er by nia.
  assert (2 * n = d * (2 * r - 1)) as T1 by nia.
  assert (2 * n' = d' * (2 * r' + 1)) as T2 by nia.
  specialize (E1 (or_introl T1)). specialize (E2 (or_intror T2)).
  rewrite Er, Z.even_add, E2 in E1. done.
Qed.

Lemma rne_exact n d : 0 < d → rne (n * d) d = n.
Proof. intros Hd. unfold rne. rewrite Z.div_mul, Z.mod_mul by lia. destruct (Z.ltb_spec (2 * 0) d); lia. Qed.

(** Significands: below [2^53], and at least [2^52] for a positive exponent. *)
Lemma log2_quotient n q k :
  0 ≤ n → 0 < q → k = Z.max 0 (Z.log2 (n / q) - 52) →
  n ≤ 2 ^ 53 * (q * 2 ^ k) ∧ (0 < k → 2 ^ 52 * (q * 2 ^ k) ≤ n).
Proof.
  intros Hn Hq ->. assert (0 ≤ n / q) as Hx by (apply Z.div_pos; lia).
  pose proof (Z.mul_div_le n q Hq). pose proof (Z.mul_succ_div_gt n q Hq).
  set (x := n / q) in *. set (k := Z.max 0 (Z.log2 x - 52)).
  assert (x < 2 ^ (53 + k)) as Hu.
  { destruct (decide (x = 0)) as [->|Hne]; [apply Z.pow_pos_nonneg; lia|].
    pose proof (Z.log2_spec x ltac:(lia)) as [_ Hl]. eapply Z.lt_le_trans; [exact Hl|].
    apply Z.pow_le_mono_r; lia. }
  split.
  - rewrite Z.pow_add_r in Hu by lia. nia.
  - intros Hk. assert (0 < x) as Hpos.
    { destruct (decide (x = 0)) as [E|]; [|lia]. unfold k in Hk. rewrite E in Hk. cbn in Hk. lia. }
    pose proof (Z.log2_spec x Hpos) as [Hl _].
    replace (Z.log2 x) with (52 + k) in Hl by lia. rewrite Z.pow_add_r in Hl by lia. nia.
Qed.

Lemma fl_mono p q p' q' :
  0 ≤ p → 0 < q → 0 < q' → p * q' ≤ p' * q → fl p q ≤ fl p' q'.
Proof.
  intros Hp Hq Hq' Hle. unfold fl.
  assert (0 < double_one) as Ho by (by apply Z.pow_pos_nonneg).
  generalize dependent double_one. intros o Ho.
  assert (0 ≤ p') as Hp' by nia.
  set (n := p * o). set (n' := p' * o).
  assert (n * q' ≤ n' * q) as Hn by (unfold n, n'; nia).
  assert (0 ≤ n) as H0 by (unfold n; nia). assert (0 ≤ n') as H0' by (unfold n'; nia).
  assert (n / q ≤ n' / q') as Hdiv.
  { apply Z.div_le_lower_bound; [done|]. pose proof (Z.mul_div_le n q Hq). nia. }
  assert (Z.log2 (n / q) ≤ Z.log2 (n' / q')) as Hlog by (by apply Z.log2_le_mono).
  set (k := Z.max 0 (Z.log2 (n / q) - 52)). set (k' := Z.max 0 (Z.log2 (n' / q') - 52)).
  destruct (log2_quotient n q k H0 Hq eq_refl) as [Hu _].
  destruct (log2_quotient n' q' k' H0' Hq' eq_refl) as [_ Hl].
  assert (0 < 2 ^ k) as Hk by (apply Z.pow_pos_nonneg; lia).
  assert (0 < 2 ^ k') as Hk' by (apply Z.pow_pos_nonneg; lia).
  destruct (decide (k = k')) as [E|Hne].
  { rewrite <- E in *. apply Z.mul_le_mono_nonneg_r; [lia|]. apply rne_mono; nia. }
  assert (k + 1 ≤ k') as Hlt by (unfold k, k' in *; lia). specialize (Hl ltac:(unfold k in *; lia)).
  assert (rne n (q * 2 ^ k) ≤ 2 ^ 53) as B.
  { rewrite <- (rne_exact (2 ^ 53) (q * 2 ^ k)) by nia. apply rne_mono; nia. }
  assert (2 ^ 52 ≤ rne n' (q' * 2 ^ k')) as B'.
  { rewrite <- (rne_exact (2 ^ 52) (q' * 2 ^ k')) at 1 by nia. apply rne_mono; nia. }
  assert (2 * 2 ^ k ≤ 2 ^ k').
  { rewrite <- Z.pow_succ_r by lia. apply Z.pow_le_mono_r; lia. }
  nia.
Qed.

(** Integers below [2^53] are exact. *)
Lemma double_of_small z : 0 ≤ z < 2 ^ 53 → double_of_Z z = z * double_one.
Proof.
  intros Hz. unfold double_of_Z, fl. rewrite Z.div_1_r, Z.mul_1_l.
  assert (0 < double_one) as Ho by (by apply Z.pow_pos_nonneg).
  destruct (decide (z = 0)) as [->|Hne]; [done|].
  set (k := Z.max 0 _).
  assert (k ≤ 100) as Hk.
  { assert (Z.log2 (z * double_one) < 53 + 100); [|lia]. apply Z.log2_lt_pow2; [nia|].
    unfold double_one in *. rewrite Z.pow_add_r by lia. nia. }
  assert (0 ≤ k) as Hk0 by lia.
  assert (double_one = 2 ^ (100 - k) * 2 ^ k) as E.
  { unfold double_one. rewrite <- Z.pow_add_r by lia. f_equal. lia. }
  rewrite E, Z.mul_assoc, rne_exact by (apply Z.pow_pos_nonneg; lia). lia.
Qed.

(** ** The characters of a printed double *)

Definition num_char (a : ascii) : bool :=
  is_digit a || Ascii.eqb a "." || Ascii.eqb a "e" || Ascii.eqb a "+" || Ascii.eqb a "-".

Lemma digit_num_char a : is_digit a = true → num_char a = true.
Proof. intros Ha. unfold num_char. by rewrite Ha. Qed.

Lemma pretty_num_chars (n : N) : str_all num_char (pretty n) = true.
Proof. eapply str_all_mono; [apply digit_num_char|apply pretty_digits]. Qed.

Lemma pad_digits_num n d : str_all num_char (pad_digits n d) = true.
Proof. unfold pad_digits. rewrite str_all_app, str_all_replicate by done. apply pretty_num_chars. Qed.

Lemma strip_zeros_num s : str_all num_char s = true → str_all num_char (strip_zeros s) = true.
Proof.
  induction s as [|a s IH]; [done|]. cbn [str_all strip_zeros]. intros [Ha Hs]%andb_true_iff.
  specialize (IH Hs). destruct (strip_zeros s) as [|b s']; [destruct (Ascii.eqb a "0"); [done|]|];
    cbn [str_all] in *; by rewrite Ha, ?IH.
Qed.

Lemma with_fraction_num int frac :
  str_all num_char int = true → str_all num_char frac = true → str_all num_char (with_fraction int frac) = true.
Proof.
  intros Hi Hf. unfold with_fraction. destruct (String.eqb _ _); [done|].
  by rewrite !str_all_app, Hi, (strip_zeros_num frac Hf).
Qed.

Lemma print_g_num v : str_all num_char (print_g v) = true.
Proof.
  unfold print_g. destruct (v =? 0); [done|]. destruct (if _ =? _ then _ else _) as [d x].
  pose proof (pad_digits_num 6 d) as Hs.
  destruct (_ || _); [|destruct (0 <=? x)].
  - rewrite str_all_app, with_fraction_num by (by apply str_all_substring).
    unfold print_exponent. rewrite str_all_app, pad_digits_num. by destruct (x <? 0).
  - apply with_fraction_num; by apply str_all_substring.
  - apply with_fraction_num; [done|]. by rewrite str_all_app, str_all_replicate, Hs.
Qed.
