(* ===== verification/Metrics.v ===== *)
(** * Metrics (metrics.hpp, metrics.cpp)

    The atomic counters, gauges and histograms and the recording operations.
    Durations are integers in their clock unit; the histograms convert them to
    seconds in double precision as the source does ([Double]), and the
    theorems show that the buckets are nevertheless exact. *)
From S2P Require Import Prelude Types Double.

Definition kLatencyBounds : list Z :=
  [fl 5 100000; fl 1 10000; fl 5 10000; fl 1 1000; fl 5 1000; fl 1 100; fl 5 100; fl 1 10].
Definition kRecoveryBounds : list Z :=
  [fl 1 2; fl 1 1; fl 2 1; fl 3 1; fl 7 2; fl 4 1; fl 5 1; fl 8 1].

(** [std::chrono::duration<double>(d).count()] of nanoseconds and of
    milliseconds. *)
Definition seconds_of_ns (d : Z) : Z := double_div (double_of_Z d) (double_of_Z 1000000000).
Definition seconds_of_ms (d : Z) : Z := double_div (double_of_Z d) (double_of_Z 1000).

Record Histogram : Type := mkHistogram {
  hg_bounds : list Z;
  hg_buckets : list Z;   (* nine std::uint64_t counters *)
  hg_count : Z;
  hg_sum_micros : Z
}.

Definition new_histogram (bounds : list Z) : Histogram := mkHistogram bounds (replicate 9 0) 0 0.

(** The first bucket whose bound is not exceeded, or the last one. *)
Fixpoint bucket_of (bounds : list Z) (d : Z) : nat :=
  match bounds with
  | [] => 0
  | b :: bounds => if d >? b then S (bucket_of bounds d) else 0
  end.

Definition observe_seconds (sec : Z) (h : Histogram) : Histogram :=
  mkHistogram (hg_bounds h) (alter (λ n, n +₆₄ 1) (bucket_of (hg_bounds h) sec) (hg_buckets h))
    (hg_count h +₆₄ 1) (hg_sum_micros h +₆₄ double_trunc (double_mul sec (double_of_Z 1000000))).

(** The values of the [_bucket] lines, in order, the last one for [+Inf]. *)
Fixpoint cumulative (cum : Z) (buckets : list Z) : list Z :=
  match buckets with
  | [] => []
  | n :: buckets => (cum +₆₄ n) :: cumulative (cum +₆₄ n) buckets
  end.

Definition histogram_values (h : Histogram) : list Z * Z * Z :=
  (cumulative 0 (hg_buckets h), hg_sum_micros h, hg_count h).

Record Metrics : Type := mkMetrics {
  mx_req_lookup_hit : Z;
  mx_req_lookup_miss : Z;
  mx_req_insert_ok : Z;
  mx_req_stream_ok : Z;
  mx_stream_bytes_total : Z;
  mx_eviction_blocks_total : Z;
  mx_eviction_bytes_freed_total : Z;
  mx_cluster_epoch : Z;             (* long long gauges *)
  mx_tier_used : Tier → Z;
  mx_tier_capacity : Tier → Z;
  mx_replicas_under_target : Z;
  mx_lat_lookup : Histogram;
  mx_lat_insert : Histogram;
  mx_lat_stream : Histogram;
  mx_failover_recovery : Histogram
}.

Definition new_metrics : Metrics :=
  mkMetrics 0 0 0 0 0 0 0 0 (λ _, 0) (λ _, 0) 0 (new_histogram kLatencyBounds)
    (new_histogram kLatencyBounds) (new_histogram kLatencyBounds) (new_histogram kRecoveryBounds).

(** [static_cast<long long>] of an unsigned value. *)
Definition to_long_long (z : Z) : Z := if z <? 2 ^ 63 then z else z - 2 ^ 64.

Inductive MetricEvent : Type :=
| RecordLookup (hits misses latency : Z)
| RecordInsert (accepted latency : Z)
| RecordStreamBytes (n latency : Z)
| RecordTierUsage (t : Tier) (used capacity : Z)
| RecordEpoch (epoch : Z)
| RecordEvictionPass (blocks freed : Z)
| RecordFailoverRecovery (duration : Z)
| RecordUnderReplicated (count : Z).

(** The recording operations. *)
Definition record (m : Metrics) (r : MetricEvent) : Metrics :=
  match m with
  | mkMetrics hit miss ins str sb eb ef ep tu tc under ll li ls fr =>
      match r with
      | RecordLookup hits misses latency =>
          mkMetrics (hit +₆₄ hits) (miss +₆₄ misses) ins str sb eb ef ep tu tc under
            (observe_seconds (seconds_of_ns latency) ll) li ls fr
      | RecordInsert accepted latency =>
          mkMetrics hit miss (ins +₆₄ accepted) str sb eb ef ep tu tc under ll (observe_seconds (seconds_of_ns latency) li) ls fr
      | RecordStreamBytes n latency =>
          mkMetrics hit miss ins (str +₆₄ 1) (sb +₆₄ n) eb ef ep tu tc under ll li (observe_seconds (seconds_of_ns latency) ls) fr
      | RecordTierUsage t used capacity =>
          mkMetrics hit miss ins str sb eb ef ep
            (λ t', if decide (t' = t) then to_long_long used else tu t')
            (λ t', if decide (t' = t) then to_long_long capacity else tc t') under ll li ls fr
      | RecordEpoch epoch =>
          mkMetrics hit miss ins str sb eb ef (to_long_long epoch) tu tc under ll li ls fr
      | RecordEvictionPass blocks freed =>
          mkMetrics hit miss ins str sb (eb +₆₄ blocks) (ef +₆₄ freed) ep tu tc under ll li ls fr
      | RecordFailoverRecovery duration =>
          mkMetrics hit miss ins str sb eb ef ep tu tc under ll li ls (observe_seconds (seconds_of_ms duration) fr)
      | RecordUnderReplicated n =>
          mkMetrics hit miss ins str sb eb ef ep tu tc (to_long_long n) ll li ls fr
      end
  end.

(** ** Histograms *)

(** How many observations a bound covers. *)
Definition at_most (b : Z) (ds : list Z) : Z := Z.of_nat (length (filter (λ d, d ≤ b) ds)).

Lemma bucket_of_lt bounds d : (bucket_of bounds d ≤ length bounds)%nat.
Proof. induction bounds as [|b bounds IH]; simpl; [lia|]. destruct (_ >? _); lia. Qed.

(** Bucket [i] or an earlier one is chosen exactly when bound [i] covers the
    observation. *)
Lemma bucket_of_le bounds d i b :
  StronglySorted Z.le bounds → bounds !! i = Some b → (bucket_of bounds d ≤ i)%nat ↔ d ≤ b.
Proof.
  intros Hs. revert i. induction Hs as [|b0 bounds Hs IH Hall]; intros i Hi; [done|]. simpl.
  destruct (d >? b0) eqn:E.
  - destruct i as [|i]; simpl in Hi; [simplify_eq; lia|]. rewrite <- (IH i Hi). lia.
  - split; [|lia]. intros _. destruct i as [|i]; simpl in Hi; [simplify_eq; lia|].
    rewrite Forall_lookup in Hall. specialize (Hall i b Hi). lia.
Qed.

(** The counters after observing [ds]: bucket [i] has the observations that
    chose it. *)
Lemma observed_buckets ds h :
  length (hg_buckets h) = S (length (hg_bounds h)) →
  let h' := fold_left (λ h d, observe_seconds d h) ds h in
  hg_bounds h' = hg_bounds h ∧ length (hg_buckets h') = length (hg_buckets h) ∧
  (0 ≤ hg_count h < 2 ^ 64 → hg_count h' = u64 (hg_count h + Z.of_nat (length ds))) ∧
  ∀ i n, hg_buckets h !! i = Some n → ∃ n', hg_buckets h' !! i = Some n' ∧
    u64 n' = u64 (n + Z.of_nat (length (filter (λ d, bucket_of (hg_bounds h) d = i) ds))).
Proof.
  revert h. induction ds as [|d ds IH]; intros h Hl; cbn [fold_left].
  { split_and!; [done|done|intros; simpl; rewrite Z.add_0_r; symmetry; by apply u64_small|]. intros i n Hi. exists n. by rewrite Z.add_0_r. }
  destruct (IH (observe_seconds d h)) as (H1 & H2 & H3 & H4).
  { cbn [observe_seconds hg_buckets hg_bounds]. by rewrite length_alter. }
  cbn [observe_seconds hg_buckets hg_bounds hg_count] in H1, H2, H3, H4. split_and!.
  - done.
  - by rewrite H2, length_alter.
  - intros _. rewrite H3 by apply u64_range. unfold u64. rewrite Zplus_mod_idemp_l. f_equal. cbn [length]. lia.
  - intros i n Hi. rewrite filter_cons. destruct (decide (bucket_of (hg_bounds h) d = i)) as [Hd|Hd].
    + destruct (H4 i (u64 (n + 1))) as (n' & Hn' & E); [by rewrite Hd, list_lookup_alter_eq, Hi|].
      exists n'. split; [done|]. rewrite E. unfold u64. rewrite Zplus_mod_idemp_l. f_equal. cbn [length]. lia.
    + apply (H4 i n). by rewrite list_lookup_alter_ne.
Qed.

Lemma lookup_cumulative buckets i c :
  (i < length buckets)%nat → cumulative c buckets !! i = Some (u64 (c + zsum (take (S i) buckets))).
Proof.
  revert i c. induction buckets as [|n buckets IH]; intros i c Hi; simpl in Hi; [lia|].
  destruct i as [|i]; simpl.
  - by rewrite Z.add_0_r.
  - rewrite IH by lia. f_equal. unfold u64. rewrite Zplus_mod_idemp_l. f_equal. simpl. lia.
Qed.

Lemma length_cumulative c buckets : length (cumulative c buckets) = length buckets.
Proof. revert c. induction buckets as [|n buckets IH]; intros c; [done|]. simpl. by rewrite IH. Qed.

(** Observations that chose bucket [i] or an earlier one. *)
Definition up_to (bounds : list Z) (i : nat) (ds : list Z) : Z :=
  Z.of_nat (length (filter (λ d, (bucket_of bounds d ≤ i)%nat) ds)).

Lemma up_to_succ bounds i ds :
  up_to bounds (S i) ds = up_to bounds i ds + Z.of_nat (length (filter (λ d, bucket_of bounds d = S i) ds)).
Proof.
  unfold up_to. induction ds as [|d ds IH]; [done|]. rewrite !filter_cons.
  destruct (decide (bucket_of bounds d ≤ S i)%nat), (decide (bucket_of bounds d ≤ i)%nat),
    (decide (bucket_of bounds d = S i)); cbn [length]; lia.
Qed.

Lemma zsum_buckets bounds ds buckets i :
  (∀ j n, buckets !! j = Some n → u64 n = u64 (Z.of_nat (length (filter (λ d, bucket_of bounds d = j) ds)))) →
  (i < length buckets)%nat → u64 (zsum (take (S i) buckets)) = u64 (up_to bounds i ds).
Proof.
  intros Hb. induction i as [|i IH]; intros Hi.
  - destruct buckets as [|n buckets]; simpl in Hi; [lia|]. simpl.
    rewrite Z.add_0_r, (Hb 0%nat n eq_refl). unfold up_to. do 3 f_equal. apply list_filter_iff. lia.
  - destruct (lookup_lt_is_Some_2 buckets (S i) Hi) as [n Hn].
    rewrite (take_S_r _ _ _ Hn), zsum_app. simpl. rewrite Z.add_0_r, up_to_succ.
    unfold u64 in *. rewrite Zplus_mod, IH, (Hb _ _ Hn), <- Zplus_mod by lia. done.
Qed.

(** After any observations, fewer than [2^64], the rendered buckets are
    cumulative: the value for a bound is the number of observations that do not
    exceed it, the value for [+Inf] and the count are the number of
    observations. *)
Lemma histogram_cumulative bounds ds :
  StronglySorted Z.le bounds → length bounds = 8%nat → Z.of_nat (length ds) < 2 ^ 64 →
  let '(cums, _, cnt) := histogram_values (fold_left (λ h d, observe_seconds d h) ds (new_histogram bounds)) in
  length cums = 9%nat ∧ cnt = Z.of_nat (length ds) ∧ cums !! 8%nat = Some cnt ∧
  ∀ i b, bounds !! i = Some b → cums !! i = Some (at_most b ds).
Proof.
  intros Hs Hl Hlen. unfold histogram_values.
  destruct (observed_buckets ds (new_histogram bounds)) as (_ & Hlb & Hc & Hb).
  { simpl. by rewrite Hl. }
  set (h := fold_left _ ds _) in *.
  assert (hg_count h = Z.of_nat (length ds)) as -> by (rewrite Hc by (simpl; lia); apply u64_small; simpl; lia).
  rewrite length_cumulative.
  cbn [new_histogram hg_count hg_buckets hg_bounds] in Hlb, Hb. rewrite length_replicate in Hlb.
  assert (∀ j n, hg_buckets h !! j = Some n →
    u64 n = u64 (Z.of_nat (length (filter (λ d, bucket_of bounds d = j) ds)))) as Hb'.
  { intros j n Hj. assert (j < 9)%nat by (apply lookup_lt_Some in Hj; lia).
    destruct (Hb j 0) as (n' & Hn' & E); [by apply lookup_replicate_2|]. simplify_eq. done. }
  assert (∀ i, (i < 9)%nat → cumulative 0 (hg_buckets h) !! i = Some (up_to bounds i ds)) as Hcum.
  { intros i Hi. rewrite lookup_cumulative by lia. f_equal. rewrite Z.add_0_l.
    rewrite (zsum_buckets bounds ds) by (done || lia). apply u64_small. unfold up_to.
    pose proof (length_filter (λ d, (bucket_of bounds d ≤ i)%nat) ds). lia. }
  split_and!; [done|done| |].
  - rewrite Hcum by lia. f_equal. unfold up_to. f_equal. f_equal. apply filter_all.
    apply Forall_forall. intros d _. pose proof (bucket_of_lt bounds d). lia.
  - intros i b Hi. rewrite Hcum by (apply lookup_lt_Some in Hi; lia). f_equal. unfold up_to, at_most.
    do 2 f_equal. apply list_filter_iff. intros d. by apply bucket_of_le.
Qed.


(** ** Exact buckets *)

(** The bounds in the unit of the clock. *)
Definition latency_bounds_ns : list Z :=
  [50000; 100000; 500000; 1000000; 5000000; 10000000; 50000000; 100000000].
Definition recovery_bounds_ms : list Z := [500; 1000; 2000; 3000; 3500; 4000; 5000; 8000].

(** Seconds of a count of [1 / unit] seconds. *)
Definition seconds_of (unit d : Z) : Z := double_div (double_of_Z d) (double_of_Z unit).

Lemma seconds_mono unit d d' :
  0 < unit < 2 ^ 53 → 0 ≤ d → d ≤ d' → seconds_of unit d ≤ seconds_of unit d'.
Proof.
  intros Hu Hd Hle. unfold seconds_of, double_div.
  assert (0 < double_one) by (by apply Z.pow_pos_nonneg).
  assert (0 < double_of_Z unit) by (rewrite double_of_small by lia; nia).
  assert (0 ≤ double_of_Z d) by (transitivity (double_of_Z 0); [by vm_compute|apply fl_mono; lia]).
  apply fl_mono; try done. apply Z.mul_le_mono_nonneg_r; [lia|]. apply fl_mono; lia.
Qed.

(** A bound that is the double of [b] ticks, and that one more tick exceeds. *)
Definition separates (unit bound b : Z) : Prop :=
  0 ≤ b ∧ bound = seconds_of unit b ∧ bound < seconds_of unit (b + 1).

Lemma separates_spec unit bound b d :
  0 < unit < 2 ^ 53 → separates unit bound b → 0 ≤ d → (seconds_of unit d >? bound) = (d >? b).
Proof.
  intros Hu (Hb & -> & Hlt) Hd. rewrite !Z.gtb_ltb. destruct (Z.ltb_spec b d).
  - apply Z.ltb_lt. eapply Z.lt_le_trans; [exact Hlt|]. apply seconds_mono; lia.
  - apply Z.ltb_ge. apply seconds_mono; lia.
Qed.

Lemma bucket_of_seconds unit bounds bs d :
  0 < unit < 2 ^ 53 → Forall2 (separates unit) bounds bs → 0 ≤ d →
  bucket_of bounds (seconds_of unit d) = bucket_of bs d.
Proof.
  intros Hu HF Hd. induction HF as [|B b bounds bs Hs _ IH]; [done|]. cbn [bucket_of].
  rewrite (separates_spec unit B b d) by done. by rewrite IH.
Qed.

Lemma latency_separates : Forall2 (separates 1000000000) kLatencyBounds latency_bounds_ns.
Proof. repeat (apply Forall2_cons; split; [by vm_compute|]). by apply Forall2_nil. Qed.

Lemma recovery_separates : Forall2 (separates 1000) kRecoveryBounds recovery_bounds_ms.
Proof. repeat (apply Forall2_cons; split; [by vm_compute|]). by apply Forall2_nil. Qed.

Lemma separates_sorted unit bounds bs :
  0 < unit < 2 ^ 53 → Forall2 (separates unit) bounds bs → StronglySorted Z.le bs → StronglySorted Z.le bounds.
Proof.
  intros Hu HF Hs. induction HF as [|B b bounds bs (Hb & HB & _) HF IH]; [constructor|].
  apply StronglySorted_inv in Hs as [Hs Hall]. constructor; [by apply IH|].
  rewrite Forall_forall in Hall |- *. intros B' (i & HB')%list_elem_of_lookup.
  destruct (Forall2_lookup_l _ _ _ _ _ HF HB') as (b' & Hb' & (_ & -> & _)). subst B.
  apply seconds_mono; [done|done|]. apply Hall. by eapply list_elem_of_lookup_2.
Qed.

Lemma at_most_seconds unit B b ds :
  0 < unit < 2 ^ 53 → separates unit B b → Forall (λ d, 0 ≤ d) ds →
  at_most B (seconds_of unit <$> ds) = at_most b ds.
Proof.
  intros Hu Hs Hds. unfold at_most. induction Hds as [|d ds Hd _ IH]; [done|].
  rewrite fmap_cons, !filter_cons. pose proof (separates_spec unit B b d Hu Hs Hd) as E.
  destruct (decide (seconds_of unit d ≤ B)), (decide (d ≤ b)); cbn [length]; try lia.
Qed.

(** What the rendered values say about observations [ds] in clock ticks. *)
Definition exact_buckets (bs ds : list Z) (values : list Z * Z * Z) : Prop :=
  let '(cums, _, cnt) := values in
  length cums = 9%nat ∧ cnt = Z.of_nat (length ds) ∧ cums !! 8%nat = Some cnt ∧
  ∀ i b, bs !! i = Some b → cums !! i = Some (at_most b ds).

Lemma exact_histogram unit bounds bs ds :
  0 < unit < 2 ^ 53 → Forall2 (separates unit) bounds bs → StronglySorted Z.le bs → length bs = 8%nat →
  Forall (λ d, 0 ≤ d) ds → Z.of_nat (length ds) < 2 ^ 64 →
  exact_buckets bs ds
    (histogram_values (fold_left (λ h d, observe_seconds d h) (seconds_of unit <$> ds) (new_histogram bounds))).
Proof.
  intros Hu HF Hs Hl Hds Hlen.
  assert (length bounds = 8%nat) as Hlb by (by rewrite (Forall2_length _ _ _ HF)).
  pose proof (histogram_cumulative bounds (seconds_of unit <$> ds)
    (separates_sorted unit bounds bs Hu HF Hs) Hlb) as Hc.
  rewrite length_fmap in Hc. specialize (Hc Hlen). unfold exact_buckets.
  destruct (histogram_values _) as [[cums sm] cnt]. destruct Hc as (H1 & H2 & H3 & H4).
  split_and!; [done|done|done|]. intros i b Hi.
  destruct (Forall2_lookup_r _ _ _ _ _ HF Hi) as (B & HB & Hsep).
  rewrite (H4 i B HB). f_equal. by apply (at_most_seconds unit).
Qed.

(** The calls that observe one histogram leave the others alone. *)
Definition lookup_latencies (evs : list MetricEvent) : list Z :=
  omap (λ e, match e with RecordLookup _ _ l => Some l | _ => None end) evs.
Definition insert_latencies (evs : list MetricEvent) : list Z :=
  omap (λ e, match e with RecordInsert _ l => Some l | _ => None end) evs.
Definition stream_latencies (evs : list MetricEvent) : list Z :=
  omap (λ e, match e with RecordStreamBytes _ l => Some l | _ => None end) evs.
Definition recoveries (evs : list MetricEvent) : list Z :=
  omap (λ e, match e with RecordFailoverRecovery d => Some d | _ => None end) evs.

Lemma record_histograms evs m :
  mx_lat_lookup (fold_left record evs m) =
    fold_left (λ h d, observe_seconds d h) (seconds_of_ns <$> lookup_latencies evs) (mx_lat_lookup m) ∧
  mx_lat_insert (fold_left record evs m) =
    fold_left (λ h d, observe_seconds d h) (seconds_of_ns <$> insert_latencies evs) (mx_lat_insert m) ∧
  mx_lat_stream (fold_left record evs m) =
    fold_left (λ h d, observe_seconds d h) (seconds_of_ns <$> stream_latencies evs) (mx_lat_stream m) ∧
  mx_failover_recovery (fold_left record evs m) =
    fold_left (λ h d, observe_seconds d h) (seconds_of_ms <$> recoveries evs) (mx_failover_recovery m).
Proof.
  revert m. induction evs as [|e evs IH]; intros m; [done|]. cbn [fold_left].
  destruct (IH (record m e)) as (-> & -> & -> & ->). destruct m, e; split_and!; reflexivity.
Qed.

(** C34 (histograms): whatever calls were recorded, in any order, the rendered
    lookup latency histogram counts, for each bound, exactly the lookups whose
    latency in nanoseconds does not exceed the bound, although the program
    compares doubles; the last bucket and the count are the number of lookups.
    The same holds for the latencies of inserts and streams, and for the recovery
    histogram and milliseconds. *)
Theorem histograms_exact evs :
  Z.of_nat (length evs) < 2 ^ 64 →
  let m := fold_left record evs new_metrics in
  (Forall (λ d, 0 ≤ d) (lookup_latencies evs) →
     exact_buckets latency_bounds_ns (lookup_latencies evs) (histogram_values (mx_lat_lookup m))) ∧
  (Forall (λ d, 0 ≤ d) (insert_latencies evs) →
     exact_buckets latency_bounds_ns (insert_latencies evs) (histogram_values (mx_lat_insert m))) ∧
  (Forall (λ d, 0 ≤ d) (stream_latencies evs) →
     exact_buckets latency_bounds_ns (stream_latencies evs) (histogram_values (mx_lat_stream m))) ∧
  (Forall (λ d, 0 ≤ d) (recoveries evs) →
     exact_buckets recovery_bounds_ms (recoveries evs) (histogram_values (mx_failover_recovery m))).
Proof.
  intros Hlen. cbn zeta. destruct (record_histograms evs new_metrics) as (-> & -> & -> & ->).
  cbn [new_metrics mx_lat_lookup mx_lat_insert mx_lat_stream mx_failover_recovery].
  assert (∀ f : MetricEvent → option Z, Z.of_nat (length (omap f evs)) < 2 ^ 64) as Hl.
  { intros f. pose proof (length_omap_le f evs). lia. }
  split_and!; intros Hd.
  1-3: apply (exact_histogram 1000000000); try done; try apply Hl; [apply latency_separates|repeat constructor; lia].
  apply (exact_histogram 1000); try done; try apply Hl; [apply recovery_separates|repeat constructor; lia].
Qed.

Lemma histograms_exact_witness :
  let evs := [RecordLookup 1 0 20000; RecordLookup 0 1 50000; RecordInsert 1 3; RecordLookup 2 2 50001;
              RecordFailoverRecovery 3500; RecordLookup 0 0 2000000000] in
  (histogram_values (mx_lat_lookup (fold_left record evs new_metrics))).1.1 !! 0%nat = Some 2 ∧
  (histogram_values (mx_failover_recovery (fold_left record evs new_metrics))).1.1 !! 4%nat = Some 1.
Proof.
  intros evs. destruct (histograms_exact evs) as (H1 & _ & _ & H2).
  - vm_compute; reflexivity.
  - assert (Forall (λ d, 0 ≤ d) (lookup_latencies evs)) as Hl by (repeat constructor; lia).
    assert (Forall (λ d, 0 ≤ d) (recoveries evs)) as Hr by (repeat constructor; lia).
    specialize (H1 Hl). specialize (H2 Hr). unfold exact_buckets in H1, H2.
    destruct (histogram_values (mx_lat_lookup (fold_left record evs new_metrics))) as [[c1 s1] n1].
    destruct (histogram_values (mx_failover_recovery (fold_left record evs new_metrics))) as [[c2 s2] n2].
    destruct H1 as (_ & _ & _ & H1), H2 as (_ & _ & _ & H2). cbn [fst].
    rewrite (H1 0%nat 50000 eq_refl), (H2 4%nat 3500 eq_refl). split; reflexivity.
Defined.
