(* ===== verification/MetricsText.v ===== *)
(** * The metrics endpoint (metrics.cpp)

    The text exposition byte by byte, the HTTP response around it, and the
    server thread: what it answers for each turn of its accept loop.  Which
    system calls succeed, when a client connects and how much of a response the
    kernel accepts are arguments.  The exposition loads the atomics one by one;
    what the other threads write between the loads is an argument too. *)
From Stdlib Require Import Ascii.
From stdpp Require Import pretty.
From S2P Require Import Prelude Types Text Double Metrics.

(** ** The exposition *)

Definition dquote : string := String "034" "".

(** [std::uint64_t] and [long long] on a stream. *)
Definition show_u64 (v : Z) : string := pretty (Z.to_N v).
Definition show_ll (v : Z) : string := if v <? 0 then "-" +:+ pretty (Z.to_N (- v)) else pretty (Z.to_N v).

(** A text is a list of lines, each followed by a newline. *)
Definition render_counter (name help labels : string) (v : Z) : list string :=
  ["# HELP " +:+ name +:+ " " +:+ help; "# TYPE " +:+ name +:+ " counter";
   name +:+ labels +:+ " " +:+ show_u64 v].

Definition render_gauge (name help labels : string) (v : Z) : list string :=
  ["# HELP " +:+ name +:+ " " +:+ help; "# TYPE " +:+ name +:+ " gauge";
   name +:+ labels +:+ " " +:+ show_ll v].

(** The loop over the finite bounds with the running sum. *)
Fixpoint render_buckets (family op_label : string) (cum : Z) (bounds buckets : list Z) : list string * Z :=
  match bounds, buckets with
  | b :: bounds, n :: buckets =>
      let cum := cum +₆₄ n in
      let '(ls, cum') := render_buckets family op_label cum bounds buckets in
      ((family +:+ "_bucket{" +:+ op_label +:+ (if String.eqb op_label "" then "" else ",") +:+
        "le=" +:+ dquote +:+ print_g b +:+ dquote +:+ "} " +:+ show_u64 cum) :: ls, cum')
  | _, _ => ([], cum)
  end.

Definition render_histogram (family op_label : string) (h : Histogram) : list string :=
  let '(ls, cum) := render_buckets family op_label 0 (hg_bounds h) (hg_buckets h) in
  let total := cum +₆₄ default 0 (hg_buckets h !! 8%nat) in
  ls ++
  [family +:+ "_bucket{" +:+ op_label +:+ (if String.eqb op_label "" then "" else ",") +:+
     "le=" +:+ dquote +:+ "+Inf" +:+ dquote +:+ "} " +:+ show_u64 total;
   family +:+ "_sum{" +:+ op_label +:+ "} " +:+
     print_g (double_div (double_of_Z (hg_sum_micros h)) (double_of_Z 1000000));
   family +:+ "_count{" +:+ op_label +:+ "} " +:+ show_u64 (hg_count h)].

Definition tier_index (t : Tier) : nat := match t with HBM => 0 | DRAM => 1 | SSD => 2 end.
Definition tier_name (i : nat) : string :=
  if (i =? 0)%nat then "hbm" else if (i =? 1)%nat then "dram" else "ssd".

(** The two lines of a tier. *)
Definition render_tier (inst : string) (m : Metrics) (t : Tier) : list string :=
  ["lethe_tier_bytes{" +:+ inst +:+ ",tier=" +:+ dquote +:+ tier_name (tier_index t) +:+ dquote +:+
     ",state=" +:+ dquote +:+ "used" +:+ dquote +:+ "} " +:+ show_ll (mx_tier_used m t);
   "lethe_tier_bytes{" +:+ inst +:+ ",tier=" +:+ dquote +:+ tier_name (tier_index t) +:+ dquote +:+
     ",state=" +:+ dquote +:+ "capacity" +:+ dquote +:+ "} " +:+ show_ll (mx_tier_capacity m t)].

Definition request_line (inst op result : string) (v : Z) : string :=
  "lethe_requests_total{" +:+ inst +:+ ",op=" +:+ dquote +:+ op +:+ dquote +:+ ",result=" +:+ dquote +:+
    result +:+ dquote +:+ "} " +:+ show_u64 v.

Definition render_lines (node_id : string) (m : Metrics) : list string :=
  let inst := "node=" +:+ dquote +:+ node_id +:+ dquote in
  ["# HELP lethe_requests_total Cache requests by op and result";
   "# TYPE lethe_requests_total counter";
   request_line inst "lookup" "hit" (mx_req_lookup_hit m);
   request_line inst "lookup" "miss" (mx_req_lookup_miss m);
   request_line inst "insert" "ok" (mx_req_insert_ok m);
   request_line inst "stream" "ok" (mx_req_stream_ok m);
   "# HELP lethe_op_latency_seconds Operation latency seconds";
   "# TYPE lethe_op_latency_seconds histogram"] ++
  render_histogram "lethe_op_latency_seconds" (inst +:+ ",op=" +:+ dquote +:+ "lookup" +:+ dquote) (mx_lat_lookup m) ++
  render_histogram "lethe_op_latency_seconds" (inst +:+ ",op=" +:+ dquote +:+ "insert" +:+ dquote) (mx_lat_insert m) ++
  render_histogram "lethe_op_latency_seconds" (inst +:+ ",op=" +:+ dquote +:+ "stream" +:+ dquote) (mx_lat_stream m) ++
  ["# HELP lethe_tier_bytes Tier byte usage and capacity"; "# TYPE lethe_tier_bytes gauge"] ++
  render_tier inst m HBM ++ render_tier inst m DRAM ++ render_tier inst m SSD ++
  render_gauge "lethe_cluster_epoch" "Cluster membership epoch" ("{" +:+ inst +:+ "}") (mx_cluster_epoch m) ++
  render_gauge "lethe_replicas_under_target" "Blocks currently below replication target"
    ("{" +:+ inst +:+ "}") (mx_replicas_under_target m) ++
  render_counter "lethe_stream_bytes_total" "Total bytes transferred via the KV transport"
    ("{" +:+ inst +:+ "}") (mx_stream_bytes_total m) ++
  ["# HELP lethe_eviction_blocks_total Blocks evicted"; "# TYPE lethe_eviction_blocks_total counter";
   "lethe_eviction_blocks_total{" +:+ inst +:+ "} " +:+ show_u64 (mx_eviction_blocks_total m);
   "# HELP lethe_eviction_bytes_freed_total Bytes freed by eviction";
   "# TYPE lethe_eviction_bytes_freed_total counter";
   "lethe_eviction_bytes_freed_total{" +:+ inst +:+ "} " +:+ show_u64 (mx_eviction_bytes_freed_total m);
   "# HELP lethe_failover_recovery_seconds Failover recovery seconds";
   "# TYPE lethe_failover_recovery_seconds histogram"] ++
  render_histogram "lethe_failover_recovery_seconds" inst (mx_failover_recovery m).

Definition render (node_id : string) (m : Metrics) : string := unlines (render_lines node_id m).

(** ** The HTTP server *)

Definition crlf : string := String "013" (String newline "").

Definition http_response (body : string) : string :=
  "HTTP/1.1 200 OK" +:+ crlf +:+
  "Content-Type: text/plain; version=0.0.4" +:+ crlf +:+
  "Content-Length: " +:+ pretty (N.of_nat (String.length body)) +:+ crlf +:+
  "Connection: close" +:+ crlf +:+ crlf +:+ body.

(** *** The atomics

    The recording calls update, and a scrape loads, one atomic at a time. *)
Inductive Hist : Type := HLookup | HInsert | HStream | HRecovery.

Inductive Atom : Type :=
| ALookupHit | ALookupMiss | AInsertOk | AStreamOk | AStreamBytes | AEvictionBlocks | AEvictionFreed
| AEpoch | AUsed (t : Tier) | ACapacity (t : Tier) | AUnderTarget
| ABucket (h : Hist) (i : nat) | ACount (h : Hist) | ASum (h : Hist).

#[export] Instance Hist_eq_dec : EqDecision Hist.
Proof. solve_decision. Defined.
#[export] Instance Atom_eq_dec : EqDecision Atom.
Proof. solve_decision. Defined.

(** The value of every atomic. *)
Definition Vals : Type := Atom → Z.

(** [fetch_add] on the unsigned counters and [store] on the gauges. *)
Inductive AtomicOp : Type := FetchAdd (a : Atom) (n : Z) | StoreTo (a : Atom) (n : Z).

Definition perform_op (v : Vals) (w : AtomicOp) : Vals :=
  match w with
  | FetchAdd b n => λ a, if decide (a = b) then v a +₆₄ n else v a
  | StoreTo b n => λ a, if decide (a = b) then n else v a
  end.

Definition hist_bounds (h : Hist) : list Z := match h with HRecovery => kRecoveryBounds | _ => kLatencyBounds end.

Definition observe_ops (h : Hist) (sec : Z) : list AtomicOp :=
  [FetchAdd (ABucket h (bucket_of (hist_bounds h) sec)) 1; FetchAdd (ACount h) 1;
   FetchAdd (ASum h) (double_trunc (double_mul sec (double_of_Z 1000000)))].

(** What a recording call does, in order. *)
Definition record_ops (e : MetricEvent) : list AtomicOp :=
  match e with
  | RecordLookup hits misses latency =>
      [FetchAdd ALookupHit hits; FetchAdd ALookupMiss misses] ++ observe_ops HLookup (seconds_of_ns latency)
  | RecordInsert accepted latency => FetchAdd AInsertOk accepted :: observe_ops HInsert (seconds_of_ns latency)
  | RecordStreamBytes n latency =>
      [FetchAdd AStreamOk 1; FetchAdd AStreamBytes n] ++ observe_ops HStream (seconds_of_ns latency)
  | RecordTierUsage t used capacity => [StoreTo (AUsed t) (to_long_long used); StoreTo (ACapacity t) (to_long_long capacity)]
  | RecordEpoch epoch => [StoreTo AEpoch (to_long_long epoch)]
  | RecordEvictionPass blocks freed => [FetchAdd AEvictionBlocks blocks; FetchAdd AEvictionFreed freed]
  | RecordFailoverRecovery duration => observe_ops HRecovery (seconds_of_ms duration)
  | RecordUnderReplicated n => [StoreTo AUnderTarget (to_long_long n)]
  end.

(** The members that the values make up. *)
Definition histogram_of (v : Vals) (h : Hist) : Histogram :=
  mkHistogram (hist_bounds h) ((λ i, v (ABucket h i)) <$> seq 0 9) (v (ACount h)) (v (ASum h)).

Definition metrics_of (v : Vals) : Metrics :=
  mkMetrics (v ALookupHit) (v ALookupMiss) (v AInsertOk) (v AStreamOk) (v AStreamBytes) (v AEvictionBlocks)
    (v AEvictionFreed) (v AEpoch) (λ t, v (AUsed t)) (λ t, v (ACapacity t)) (v AUnderTarget)
    (histogram_of v HLookup) (histogram_of v HInsert) (histogram_of v HStream) (histogram_of v HRecovery).

(** The loads of [render], in order. *)
Definition histogram_loads (h : Hist) : list Atom := (ABucket h <$> seq 0 9) ++ [ASum h; ACount h].

Definition load_order : list Atom :=
  [ALookupHit; ALookupMiss; AInsertOk; AStreamOk] ++
  histogram_loads HLookup ++ histogram_loads HInsert ++ histogram_loads HStream ++
  concat ((λ t, [AUsed t; ACapacity t]) <$> [HBM; DRAM; SSD]) ++
  [AEpoch; AUnderTarget; AStreamBytes; AEvictionBlocks; AEvictionFreed] ++ histogram_loads HRecovery.

(** The loads one after the other; [between] has the operations of the other
    threads before each load, and after the last one. *)
Fixpoint load_all (order : list Atom) (between : list (list AtomicOp)) (v : Vals) : list (Atom * Z) * Vals :=
  match order with
  | [] => ([], fold_left perform_op (concat between) v)
  | a :: order =>
      let v := fold_left perform_op (default [] (head between)) v in
      let '(xs, v') := load_all order (tail between) v in
      ((a, v a) :: xs, v')
  end.

Fixpoint loaded (xs : list (Atom * Z)) (a : Atom) : Z :=
  match xs with
  | [] => 0
  | (b, x) :: xs => if decide (b = a) then x else loaded xs a
  end.

(** *** The accept loop *)

(** What [send] did: it accepted a number of bytes, none when it failed; or the
    client had closed, and the signal ends the process. *)
Inductive SendResult : Type := Sent (n : N) | SigPipe.

(** One turn of the accept loop: the flag that it reads first, whether a client
    connected before the timeout, the operations of the other threads meanwhile,
    and the result of [send]. *)
Record ServeTurn : Type := mkServeTurn {
  sv_running : bool;
  sv_accepted : bool;
  sv_ops : list (list AtomicOp);
  sv_send : SendResult
}.

(** What the clients receive, and whether the process is alive at the end. *)
Fixpoint serve_loop (node_id : string) (turns : list ServeTurn) (v : Vals) : list string * bool :=
  match turns with
  | [] => ([], true)
  | t :: turns =>
      if negb (sv_running t) then ([], true)
      else if sv_accepted t then
        let '(xs, v') := load_all load_order (sv_ops t) v in
        let out := http_response (render node_id (metrics_of (loaded xs))) in
        match sv_send t with
        | Sent n => let '(rs, alive) := serve_loop node_id turns v' in (String.substring 0 (N.to_nat n) out :: rs, alive)
        | SigPipe => ([], false)
        end
      else serve_loop node_id turns (fold_left perform_op (concat (sv_ops t)) v)
  end.

(** The socket calls; a failure leaves no descriptor open and serves nothing. *)
Definition serve (socket_ok bind_ok listen_ok : bool) (node_id : string) (turns : list ServeTurn) (v : Vals) :
    bool * (list string * bool) :=
  if negb socket_ok then (false, ([], true))
  else if negb bind_ok then (false, ([], true))
  else if negb listen_ok then (false, ([], true))
  else (true, serve_loop node_id turns v).

(** The port of the constructor's address; no colon or an exception leaves the
    default. *)
Definition metrics_port (bind_address : string) : Z :=
  match cut_last ":" bind_address with
  | None => 9090
  | Some (_, p) => match stoi p with Some v => v mod 2 ^ 16 | None => 9090 end
  end.

(** ** What a scraper reads *)

(** A series: a name and its labels, the values in double quotes. *)
Definition label (k v : string) : string := k +:+ "=" +:+ dquote +:+ v +:+ dquote.
Definition label_tail (labels : list (string * string)) : string :=
  foldr (λ kv s, "," +:+ label kv.1 kv.2 +:+ s) "}" labels.
Definition series (name node_id : string) (labels : list (string * string)) : string :=
  name +:+ "{" +:+ label "node" node_id +:+ label_tail labels.

Definition histogram_samples (node_id family : string) (labels : list (string * string)) (h : Histogram) :
    list (string * string) :=
  let '(cums, _, cnt) := histogram_values h in
  zip ((λ le, series (family +:+ "_bucket") node_id (labels ++ [("le", le)])) <$>
         (print_g <$> hg_bounds h) ++ ["+Inf"]) (show_u64 <$> cums) ++
  [(series (family +:+ "_sum") node_id labels,
    print_g (double_div (double_of_Z (hg_sum_micros h)) (double_of_Z 1000000)));
   (series (family +:+ "_count") node_id labels, show_u64 cnt)].

Definition request_sample (node_id op result : string) (v : Z) : string * string :=
  (series "lethe_requests_total" node_id [("op", op); ("result", result)], show_u64 v).

Definition tier_samples (node_id : string) (m : Metrics) (t : Tier) : list (string * string) :=
  [(series "lethe_tier_bytes" node_id [("tier", tier_name (tier_index t)); ("state", "used")], show_ll (mx_tier_used m t));
   (series "lethe_tier_bytes" node_id [("tier", tier_name (tier_index t)); ("state", "capacity")],
    show_ll (mx_tier_capacity m t))].

(** Every series with the text of its value. *)
Definition samples (node_id : string) (m : Metrics) : list (string * string) :=
  [request_sample node_id "lookup" "hit" (mx_req_lookup_hit m);
   request_sample node_id "lookup" "miss" (mx_req_lookup_miss m);
   request_sample node_id "insert" "ok" (mx_req_insert_ok m);
   request_sample node_id "stream" "ok" (mx_req_stream_ok m)] ++
  histogram_samples node_id "lethe_op_latency_seconds" [("op", "lookup")] (mx_lat_lookup m) ++
  histogram_samples node_id "lethe_op_latency_seconds" [("op", "insert")] (mx_lat_insert m) ++
  histogram_samples node_id "lethe_op_latency_seconds" [("op", "stream")] (mx_lat_stream m) ++
  tier_samples node_id m HBM ++ tier_samples node_id m DRAM ++ tier_samples node_id m SSD ++
  [(series "lethe_cluster_epoch" node_id [], show_ll (mx_cluster_epoch m));
   (series "lethe_replicas_under_target" node_id [], show_ll (mx_replicas_under_target m));
   (series "lethe_stream_bytes_total" node_id [], show_u64 (mx_stream_bytes_total m));
   (series "lethe_eviction_blocks_total" node_id [], show_u64 (mx_eviction_blocks_total m));
   (series "lethe_eviction_bytes_freed_total" node_id [], show_u64 (mx_eviction_bytes_freed_total m))] ++
  histogram_samples node_id "lethe_failover_recovery_seconds" [] (mx_failover_recovery m).

(** A scraper skips the comment lines and splits the others at the last blank. *)
Definition parse_line (l : string) : option (string * string) :=
  if String.prefix "#" l then None else cut_last " " l.
Definition parse_exposition (text : string) : list (string * string) := omap parse_line (getlines text).

(** Lines that a scraper reads as the samples [xs]. *)
Definition reads (ls : list string) (xs : list (string * string)) : Prop :=
  omap parse_line ls = xs ∧ Forall (λ l, lacks newline l = true) ls.

Lemma reads_app ls1 ls2 xs1 xs2 : reads ls1 xs1 → reads ls2 xs2 → reads (ls1 ++ ls2) (xs1 ++ xs2).
Proof. intros [<- H1] [<- H2]. split; [apply omap_app|by apply Forall_app]. Qed.

Lemma reads_nil : reads [] [].
Proof. done. Qed.

Lemma reads_comment l ls xs :
  String.prefix "#" l = true → lacks newline l = true → reads ls xs → reads (l :: ls) xs.
Proof. intros Hp Hl [<- H]. split; [|by constructor]. cbn. unfold parse_line at 1. by rewrite Hp. Qed.

Lemma reads_series name node labels v ls xs :
  String.prefix "#" (name +:+ "{") = false → lacks newline (name +:+ "{") = true →
  lacks newline node = true → lacks newline (label_tail labels) = true → str_all num_char v = true → reads ls xs →
  reads ((series name node labels +:+ " " +:+ v) :: ls) ((series name node labels, v) :: xs).
Proof.
  intros Hp Hn Hnode Hl Hv [<- Hls]. split.
  2:{ constructor; [|done]. unfold series. rewrite lacks_app in Hn. apply andb_true_iff in Hn as [Hn _].
    rewrite !lacks_app, Hn, Hl. unfold label. rewrite !lacks_app, Hnode.
    rewrite (lacks_str_all newline v), (str_all_mono num_char _ v); [done| |done].
    intros a Ha. destruct (Ascii.eqb_spec a newline) as [->|]; [by vm_compute in Ha|done]. }
  - cbn. unfold parse_line at 1. replace (String.prefix "#" (series name node labels +:+ " " +:+ v)) with false.
    + replace (cut_last " " (series name node labels +:+ " " +:+ v)) with (Some (series name node labels, v)); [done|].
      symmetry. apply cut_last_app. rewrite lacks_str_all. apply (str_all_mono num_char); [|done].
      intros a Ha. destruct (Ascii.eqb_spec a " ") as [->|]; [by vm_compute in Ha|done].
    + unfold series. destruct name as [|a name]; [done|]. rewrite !string_app_cons in *. cbn [String.prefix] in *.
      destruct (ascii_dec "#" a); [|done]. destruct (name +:+ "{"); discriminate Hp.
Qed.

Lemma show_u64_num v : str_all num_char (show_u64 v) = true.
Proof. apply pretty_num_chars. Qed.

Lemma show_ll_num v : str_all num_char (show_ll v) = true.
Proof. unfold show_ll. destruct (v <? 0); [rewrite str_all_app|]; apply pretty_num_chars. Qed.

(** The labels as the source concatenates them. *)
Definition op_label (node : string) (labels : list (string * string)) : string :=
  label "node" node +:+ foldr (λ kv s, "," +:+ label kv.1 kv.2 +:+ s) "" labels.

Lemma label_tail_text labels tail :
  foldr (λ kv s, "," +:+ label kv.1 kv.2 +:+ s) "" labels +:+ tail =
  foldr (λ kv s, "," +:+ label kv.1 kv.2 +:+ s) tail labels.
Proof. induction labels as [|kv labels IH]; [done|]. cbn [foldr]. by rewrite !string_app_assoc, IH. Qed.

Lemma op_label_nonempty node labels : String.eqb (op_label node labels) "" = false.
Proof. done. Qed.

(** The lines of a histogram as series with values. *)
Lemma bucket_line family node labels le v :
  family +:+ "_bucket{" +:+ op_label node labels +:+ "," +:+ "le=" +:+ dquote +:+ le +:+ dquote +:+ "} " +:+ v =
  series (family +:+ "_bucket") node (labels ++ [("le", le)]) +:+ " " +:+ v.
Proof.
  unfold series, op_label, label_tail. rewrite foldr_app, <- (label_tail_text labels (foldr _ _ _)).
  cbn [foldr fst snd]. unfold label, dquote. by rewrite !string_app_assoc.
Qed.

Lemma plain_line family suffix node labels v :
  family +:+ suffix +:+ "{" +:+ op_label node labels +:+ "} " +:+ v =
  series (family +:+ suffix) node labels +:+ " " +:+ v.
Proof.
  unfold series, op_label, label_tail. rewrite !string_app_assoc, <- (label_tail_text labels "}").
  by rewrite !string_app_assoc.
Qed.

Definition histogram_wf (h : Histogram) : Prop :=
  length (hg_bounds h) = 8%nat ∧ length (hg_buckets h) = 9%nat.

(** Names that start no comment and hold no newline. *)
Definition plain (s : string) : bool :=
  negb (String.prefix "#" (s +:+ "{")) && lacks newline (s +:+ "{").

Lemma reads_plain name node labels v ls xs :
  plain name = true → lacks newline node = true → lacks newline (label_tail labels) = true →
  str_all num_char v = true → reads ls xs →
  reads ((series name node labels +:+ " " +:+ v) :: ls) ((series name node labels, v) :: xs).
Proof.
  intros [Hp Hn]%andb_true_iff. apply negb_true_iff in Hp. by apply reads_series.
Qed.

Lemma num_char_newline v : str_all num_char v = true → lacks newline v = true.
Proof.
  intros Hv. rewrite lacks_str_all. apply (str_all_mono num_char); [|done].
  intros a Ha. destruct (Ascii.eqb_spec a newline) as [->|]; [by vm_compute in Ha|done].
Qed.

Lemma bucket_labels_newline labels le :
  lacks newline (label_tail labels) = true → lacks newline le = true →
  lacks newline (label_tail (labels ++ [("le", le)])) = true.
Proof.
  unfold label_tail. rewrite foldr_app, <- (label_tail_text labels "}"), <- (label_tail_text labels (foldr _ _ _)).
  rewrite !lacks_app. intros [-> _]%andb_true_iff Hle. cbn [foldr fst snd]. unfold label, dquote. rewrite !lacks_app, Hle. done.
Qed.

Lemma render_histogram_reads node family labels h :
  histogram_wf h → plain (family +:+ "_bucket") = true → plain (family +:+ "_sum") = true →
  plain (family +:+ "_count") = true → lacks newline node = true → lacks newline (label_tail labels) = true →
  reads (render_histogram family (op_label node labels) h) (histogram_samples node family labels h).
Proof.
  intros [Hb Hk] P1 P2 P3 Hnode Hl. destruct h as [bounds buckets cnt sm]. cbn [hg_bounds hg_buckets] in *.
  do 8 (destruct bounds as [|? bounds]; [done|]). destruct bounds; [|done].
  do 9 (destruct buckets as [|? buckets]; [done|]). destruct buckets; [|done].
  unfold render_histogram, histogram_samples, histogram_values.
  cbn [hg_bounds hg_buckets hg_sum_micros hg_count render_buckets lookup list_lookup from_option id cumulative
       fmap list_fmap app zip zip_with].
  rewrite !op_label_nonempty, !bucket_line.
  change (family +:+ "_sum{" +:+ ?x) with (family +:+ "_sum" +:+ "{" +:+ x).
  change (family +:+ "_count{" +:+ ?x) with (family +:+ "_count" +:+ "{" +:+ x).
  rewrite !plain_line.
  repeat (apply reads_plain; [done|done| | |]);
    repeat apply bucket_labels_newline; try done; try apply show_u64_num; try apply print_g_num;
    try (apply num_char_newline, print_g_num).
Qed.

(** ** The whole exposition *)

Record metrics_wf (m : Metrics) : Prop := {
  wf_lookup : hg_bounds (mx_lat_lookup m) = kLatencyBounds ∧ length (hg_buckets (mx_lat_lookup m)) = 9%nat;
  wf_insert : hg_bounds (mx_lat_insert m) = kLatencyBounds ∧ length (hg_buckets (mx_lat_insert m)) = 9%nat;
  wf_stream : hg_bounds (mx_lat_stream m) = kLatencyBounds ∧ length (hg_buckets (mx_lat_stream m)) = 9%nat;
  wf_recovery : hg_bounds (mx_failover_recovery m) = kRecoveryBounds ∧
    length (hg_buckets (mx_failover_recovery m)) = 9%nat
}.

Lemma new_metrics_wf : metrics_wf new_metrics.
Proof. by split. Qed.

Lemma observe_wf h bounds sec :
  hg_bounds h = bounds ∧ length (hg_buckets h) = 9%nat →
  hg_bounds (observe_seconds sec h) = bounds ∧ length (hg_buckets (observe_seconds sec h)) = 9%nat.
Proof. intros [Hb Hk]. split; [done|]. cbn [observe_seconds hg_buckets]. by rewrite length_alter. Qed.

Lemma record_wf m e : metrics_wf m → metrics_wf (record m e).
Proof.
  destruct m as [a1 a2 a3 a4 a5 a6 a7 a8 a9 a10 a11 a12 a13 a14 a15], e; intros [H1 H2 H3 H4];
    split; cbn [record mx_lat_lookup mx_lat_insert mx_lat_stream mx_failover_recovery] in *;
    try done; by apply observe_wf.
Qed.

Lemma recorded_wf evs m : metrics_wf m → metrics_wf (fold_left record evs m).
Proof. revert m. induction evs as [|e evs IH]; intros m Hm; [done|]. by apply IH, record_wf. Qed.

Lemma wf_histogram h bounds :
  length bounds = 8%nat → hg_bounds h = bounds ∧ length (hg_buckets h) = 9%nat → histogram_wf h.
Proof. intros Hl [Hb Hk]. split; [by rewrite Hb|done]. Qed.

(** Rewriting a line of [render_lines] into a series and its value. *)
Lemma request_line_series node op result v :
  request_line ("node=" +:+ dquote +:+ node +:+ dquote) op result v =
  series "lethe_requests_total" node [("op", op); ("result", result)] +:+ " " +:+ show_u64 v.
Proof.
  unfold request_line, series, label_tail, label, dquote. cbn [foldr fst snd]. by rewrite !string_app_assoc.
Qed.

Lemma tier_line_series node t state v :
  "lethe_tier_bytes{" +:+ ("node=" +:+ dquote +:+ node +:+ dquote) +:+ ",tier=" +:+ dquote +:+
    t +:+ dquote +:+ ",state=" +:+ dquote +:+ state +:+ dquote +:+ "} " +:+ v =
  series "lethe_tier_bytes" node [("tier", t); ("state", state)] +:+ " " +:+ v.
Proof. unfold series, label_tail, label, dquote. cbn [foldr fst snd]. by rewrite !string_app_assoc. Qed.

Lemma bare_line_series name node v :
  name +:+ ("{" +:+ ("node=" +:+ dquote +:+ node +:+ dquote) +:+ "}") +:+ " " +:+ v =
  series name node [] +:+ " " +:+ v.
Proof. unfold series, label_tail, label, dquote. cbn [foldr]. by rewrite !string_app_assoc. Qed.

Lemma bare_line_series' name node v :
  name +:+ "{" +:+ ("node=" +:+ dquote +:+ node +:+ dquote) +:+ "} " +:+ v = series name node [] +:+ " " +:+ v.
Proof. unfold series, label_tail, label, dquote. cbn [foldr]. by rewrite !string_app_assoc. Qed.

(** Comments and samples in turn. *)
Ltac read_lines :=
  repeat first [ apply reads_nil
               | apply reads_comment; [reflexivity|reflexivity|]
               | apply reads_plain; [reflexivity|assumption|reflexivity|apply show_u64_num || apply show_ll_num|] ].

Lemma render_tier_reads node m t :
  lacks newline node = true →
  reads (render_tier ("node=" +:+ dquote +:+ node +:+ dquote) m t) (tier_samples node m t).
Proof.
  intros Hnode. unfold render_tier, tier_samples. rewrite !tier_line_series. destruct t; read_lines.
Qed.

Lemma op_label_one node op :
  ("node=" +:+ dquote +:+ node +:+ dquote) +:+ ",op=" +:+ dquote +:+ op +:+ dquote = op_label node [("op", op)].
Proof. unfold op_label, label, dquote. cbn [foldr fst snd]. by rewrite !string_app_assoc. Qed.

Lemma op_label_none node : "node=" +:+ dquote +:+ node +:+ dquote = op_label node [].
Proof. unfold op_label, label, dquote. cbn [foldr]. by rewrite string_app_nil_r. Qed.

Lemma render_lines_reads node m :
  metrics_wf m → lacks newline node = true → reads (render_lines node m) (samples node m).
Proof.
  intros [H1 H2 H3 H4] Hnode. unfold render_lines, samples. cbn zeta.
  rewrite !request_line_series, !op_label_one.
  apply reads_app; [read_lines|].
  apply reads_app; [apply render_histogram_reads; try done; by apply (wf_histogram _ kLatencyBounds)|].
  apply reads_app; [apply render_histogram_reads; try done; by apply (wf_histogram _ kLatencyBounds)|].
  apply reads_app; [apply render_histogram_reads; try done; by apply (wf_histogram _ kLatencyBounds)|].
  match goal with |- reads _ ?xs => apply (reads_app _ _ [] xs); [read_lines|] end.
  do 3 (apply reads_app; [by apply render_tier_reads|]).
  unfold render_gauge, render_counter. rewrite !bare_line_series.
  change ("lethe_eviction_blocks_total{" +:+ ?x) with ("lethe_eviction_blocks_total" +:+ "{" +:+ x).
  change ("lethe_eviction_bytes_freed_total{" +:+ ?x) with ("lethe_eviction_bytes_freed_total" +:+ "{" +:+ x).
  rewrite !bare_line_series'.
  cbn [app]. read_lines.
  rewrite op_label_none. apply render_histogram_reads; try done; by apply (wf_histogram _ kRecoveryBounds).
Qed.

(** ** Distinct series *)

Definition histogram_keys (family : string) (labels : list (string * string)) (bounds : list Z) :
    list (string * list (string * string)) :=
  ((λ le, (family +:+ "_bucket", labels ++ [("le", le)])) <$> (print_g <$> bounds) ++ ["+Inf"]) ++
  [(family +:+ "_sum", labels); (family +:+ "_count", labels)].

Lemma histogram_samples_keys node family labels h :
  histogram_wf h →
  (histogram_samples node family labels h).*1 =
  (λ k, series k.1 node k.2) <$> histogram_keys family labels (hg_bounds h).
Proof.
  intros [Hb Hk]. destruct h as [bounds buckets cnt sm]. cbn [hg_bounds hg_buckets] in *.
  do 8 (destruct bounds as [|? bounds]; [done|]). destruct bounds; [|done].
  do 9 (destruct buckets as [|? buckets]; [done|]). by destruct buckets.
Qed.

Definition tier_keys (t : Tier) : list (string * list (string * string)) :=
  [("lethe_tier_bytes", [("tier", tier_name (tier_index t)); ("state", "used")]);
   ("lethe_tier_bytes", [("tier", tier_name (tier_index t)); ("state", "capacity")])].

Definition sample_keys : list (string * list (string * string)) :=
  [("lethe_requests_total", [("op", "lookup"); ("result", "hit")]);
   ("lethe_requests_total", [("op", "lookup"); ("result", "miss")]);
   ("lethe_requests_total", [("op", "insert"); ("result", "ok")]);
   ("lethe_requests_total", [("op", "stream"); ("result", "ok")])] ++
  histogram_keys "lethe_op_latency_seconds" [("op", "lookup")] kLatencyBounds ++
  histogram_keys "lethe_op_latency_seconds" [("op", "insert")] kLatencyBounds ++
  histogram_keys "lethe_op_latency_seconds" [("op", "stream")] kLatencyBounds ++
  tier_keys HBM ++ tier_keys DRAM ++ tier_keys SSD ++
  [("lethe_cluster_epoch", []); ("lethe_replicas_under_target", []); ("lethe_stream_bytes_total", []);
   ("lethe_eviction_blocks_total", []); ("lethe_eviction_bytes_freed_total", [])] ++
  histogram_keys "lethe_failover_recovery_seconds" [] kRecoveryBounds.

Lemma samples_keys node m :
  metrics_wf m → (samples node m).*1 = (λ k, series k.1 node k.2) <$> sample_keys.
Proof.
  intros [H1 H2 H3 H4]. unfold samples, sample_keys.
  assert (∀ family labels h bounds, length bounds = 8%nat →
    hg_bounds h = bounds ∧ length (hg_buckets h) = 9%nat →
    (histogram_samples node family labels h).*1 =
      (λ k, series k.1 node k.2) <$> histogram_keys family labels bounds) as Hh.
  { intros family labels h bounds Hl Hw. rewrite histogram_samples_keys by (by apply (wf_histogram _ bounds)).
    by rewrite (proj1 Hw). }
  rewrite !fmap_app, (Hh _ _ _ kLatencyBounds eq_refl H1), (Hh _ _ _ kLatencyBounds eq_refl H2),
    (Hh _ _ _ kLatencyBounds eq_refl H3), (Hh _ _ _ kRecoveryBounds eq_refl H4). done.
Qed.

Lemma series_inj node n1 l1 n2 l2 :
  lacks "{" n1 = true → lacks "{" n2 = true → series n1 node l1 = series n2 node l2 →
  n1 = n2 ∧ label_tail l1 = label_tail l2.
Proof.
  intros H1 H2 E. unfold series in E.
  assert (∀ n x, lacks "{" n = true → cut_at "{" (n +:+ "{" +:+ x) = Some (n, x)) as Hc
    by (intros n x Hn; by apply cut_at_app).
  pose proof (f_equal (cut_at "{") E) as E'. rewrite !Hc in E' by done. injection E' as -> E'.
  split; [done|]. by apply string_app_inj in E'.
Qed.

Lemma sample_keys_distinct : NoDup ((λ k, (k.1, label_tail k.2)) <$> sample_keys).
Proof. apply (bool_decide_unpack _). by vm_compute. Qed.

Lemma sample_keys_names : Forall (λ k, lacks "{" k.1 = true) sample_keys.
Proof. apply (bool_decide_unpack _). by vm_compute. Qed.

Lemma samples_distinct node m : metrics_wf m → NoDup (samples node m).*1.
Proof.
  intros Hm. rewrite (samples_keys node m Hm).
  generalize sample_keys_distinct, sample_keys_names. generalize sample_keys. intros ks Hd Hn.
  induction ks as [|k ks IH]; [constructor|]. cbn [fmap list_fmap] in Hd |- *.
  apply NoDup_cons in Hd as [Hk Hd]. apply Forall_cons in Hn as [Hn Hns].
  apply NoDup_cons. split; [|by apply IH]. contradict Hk.
  apply list_elem_of_fmap in Hk as (k' & E & Hk'). apply list_elem_of_fmap. exists k'. split; [|done].
  rewrite Forall_forall in Hns. destruct (series_inj node k.1 k.2 k'.1 k'.2 Hn (Hns k' Hk') E) as [-> ->].
  done.
Qed.

(** ** The response *)

(** A client: the text after the first empty header line, as many characters
    as the length header says, if they are there. *)
Fixpoint response_body (s : string) : option string :=
  if String.prefix (crlf +:+ crlf) s then Some (String.substring 4 (String.length s - 4) s)
  else match s with String _ s' => response_body s' | EmptyString => None end.

Definition content_length (l : string) : option Z :=
  if String.prefix "Content-Length: " l
  then Some (digits (String.substring 16 (String.length l - 16) l) 0) else None.

Definition read_response (s : string) : option string :=
  n ← head (omap content_length (getlines s));
  body ← response_body s;
  if Z.of_nat (String.length body) <? n then None else Some (String.substring 0 (Z.to_nat n) body).

Definition cr : ascii := "013".

Lemma response_body_skip w s : lacks cr w = true → response_body (w +:+ s) = response_body s.
Proof.
  induction w as [|a w IH]; intros Hw; [done|]. cbn [lacks] in Hw. apply andb_true_iff in Hw as [Ha Hw].
  apply negb_true_iff, Ascii.eqb_neq in Ha. rewrite string_app_cons. cbn [response_body].
  replace (String.prefix (crlf +:+ crlf) (String a (w +:+ s))) with false; [by apply IH|].
  change (crlf +:+ crlf) with (String cr (String newline (String cr (String newline "")))).
  cbn [String.prefix]. destruct (ascii_dec cr a); [|done]. by destruct Ha.
Qed.

Lemma response_body_line w c s :
  lacks cr w = true → Ascii.eqb c cr = false →
  response_body (w +:+ crlf +:+ String c s) = response_body (String c s).
Proof.
  intros Hw Hc. rewrite response_body_skip by done. apply Ascii.eqb_neq in Hc.
  change (crlf +:+ String c s) with (String cr (String newline (String c s))).
  assert (String.prefix (crlf +:+ crlf) (String cr (String newline (String c s))) = false) as E1.
  { change (crlf +:+ crlf) with (String cr (String newline (String cr (String newline "")))).
    cbn [String.prefix]. destruct (ascii_dec cr cr); [|done]. destruct (ascii_dec newline newline); [|done].
    destruct (ascii_dec cr c); [|done]. by destruct Hc. }
  cbn [response_body]. by rewrite E1.
Qed.

Lemma response_body_end w body :
  lacks cr w = true → response_body (w +:+ crlf +:+ crlf +:+ body) = Some body.
Proof.
  intros Hw. rewrite response_body_skip by done.
  change (crlf +:+ crlf +:+ body) with (String cr (String newline (String cr (String newline body)))).
  assert (String.prefix (crlf +:+ crlf) (String cr (String newline (String cr (String newline body)))) = true) as E
    by (by destruct body).
  cbn [response_body]. rewrite E. cbn [String.length String.substring].
  replace (S (S (S (S (String.length body)))) - 4)%nat with (String.length body) by lia.
  by rewrite substring_all.
Qed.

Lemma pretty_lacks c (n : N) : is_digit c = false → lacks c (pretty n) = true.
Proof.
  intros Hc. rewrite lacks_str_all. eapply str_all_mono; [|apply pretty_digits].
  intros a Ha. by rewrite (is_digit_ne a c).
Qed.

(** The response with any length header and any text after the headers. *)
Definition http_text (n : N) (body : string) : string :=
  "HTTP/1.1 200 OK" +:+ crlf +:+
  "Content-Type: text/plain; version=0.0.4" +:+ crlf +:+
  "Content-Length: " +:+ pretty n +:+ crlf +:+
  "Connection: close" +:+ crlf +:+ crlf +:+ body.

Lemma http_text_body n body : response_body (http_text n body) = Some body.
Proof.
  unfold http_text.
  change ("Content-Type: text/plain; version=0.0.4" +:+ ?x)
    with (String "C" ("ontent-Type: text/plain; version=0.0.4" +:+ x)).
  rewrite response_body_line, <- string_app_cons by done.
  change ("Content-Length: " +:+ ?x) with (String "C" ("ontent-Length: " +:+ x)).
  change (String "C" "ontent-Type: text/plain; version=0.0.4") with "Content-Type: text/plain; version=0.0.4".
  rewrite response_body_line, <- string_app_cons by done.
  rewrite response_body_skip by done.
  change ("Connection: close" +:+ ?x) with (String "C" ("onnection: close" +:+ x)).
  rewrite response_body_line, <- string_app_cons by (done || by apply pretty_lacks).
  by apply response_body_end.
Qed.

Lemma http_text_length n body : head (omap content_length (getlines (http_text n body))) = Some (Z.of_N n).
Proof.
  unfold http_text.
  assert (∀ w x, lacks newline w = true →
    getlines (w +:+ crlf +:+ x) = (w +:+ String cr "") :: getlines x) as Hline.
  { intros w x Hw. change (crlf +:+ x) with (String cr "" +:+ String newline x).
    rewrite <- string_app_assoc. apply getlines_line. by rewrite lacks_app, Hw. }
  rewrite Hline by done. rewrite Hline by done.
  rewrite <- (string_app_assoc "Content-Length: "), Hline
    by (rewrite lacks_app; apply andb_true_iff; split; [done|by apply pretty_lacks]).
  cbn [omap list_omap].
  change (content_length ("HTTP/1.1 200 OK" +:+ String cr "")) with (@None Z).
  change (content_length ("Content-Type: text/plain; version=0.0.4" +:+ String cr "")) with (@None Z).
  rewrite string_app_assoc.
  assert (∀ x, content_length ("Content-Length: " +:+ x) = Some (digits x 0)) as ->.
  { intros x. unfold content_length.
    replace (String.prefix "Content-Length: " ("Content-Length: " +:+ x)) with true by (by destruct x).
    do 2 f_equal. apply (substring_after "Content-Length: "). }
  cbn [head]. rewrite digits_scan, scan_pretty; [done|]. by intros a s [= <- _].
Qed.

(** A client gets exactly the body. *)
Lemma read_http_response body : read_response (http_response body) = Some body.
Proof.
  change (http_response body) with (http_text (N.of_nat (String.length body)) body).
  unfold read_response. rewrite http_text_length, http_text_body. cbn [mbind option_bind].
  rewrite (proj2 (Z.ltb_ge _ _)) by lia. f_equal.
  replace (Z.to_nat (Z.of_N (N.of_nat (String.length body)))) with (String.length body) by lia. apply substring_all.
Qed.

Lemma prefix_split p s : String.prefix p s = true → ∃ rest, s = p +:+ rest.
Proof.
  revert s. induction p as [|c p IH]; intros s; [by exists s|]. destruct s as [|c' s]; [done|]. cbn [String.prefix].
  destruct (ascii_dec c c') as [<-|]; [|done]. intros [rest ->]%IH. by exists rest.
Qed.

Lemma prefix_more p s x : (String.length p ≤ String.length s)%nat → String.prefix p (s +:+ x) = String.prefix p s.
Proof.
  revert s. induction p as [|c p IH]; intros s; [by destruct s, x|].
  destruct s as [|c' s]; cbn [String.length]; [lia|]. intros Hl. rewrite string_app_cons. cbn [String.prefix].
  destruct (ascii_dec c c'); [|done]. apply IH. lia.
Qed.

Lemma string_app_length s1 s2 : String.length (s1 +:+ s2) = (String.length s1 + String.length s2)%nat.
Proof. induction s1 as [|c s1 IH]; [done|]. rewrite string_app_cons. cbn [String.length]. lia. Qed.

Lemma string_app_inj_tail s1 s2 x : s1 +:+ x = s2 +:+ x → s1 = s2.
Proof.
  intros E. pose proof (f_equal String.length E) as El. rewrite !string_app_length in El.
  revert s2 E El. induction s1 as [|c s1 IH]; intros [|c2 s2] E El; cbn [String.length] in El; [done|lia|lia|].
  rewrite !string_app_cons in E. injection E as -> E. f_equal. apply IH; [done|lia].
Qed.

(** More text does not change where the body starts. *)
Lemma response_body_more s x b :
  response_body s = Some b → (4 ≤ String.length s)%nat ∧ response_body (s +:+ x) = Some (b +:+ x).
Proof.
  assert (∀ y, response_body ((crlf +:+ crlf) +:+ y) = Some y) as Hhit.
  { intros y. exact (response_body_end "" y eq_refl). }
  revert b. induction s as [|c s IH]; intros b; [done|].
  destruct (String.prefix (crlf +:+ crlf) (String c s)) eqn:E.
  - destruct (prefix_split _ _ E) as [rest Er]. rewrite Er, Hhit. intros [= ->].
    rewrite (string_app_assoc (crlf +:+ crlf) b x), Hhit, string_app_length. split; [|done].
    change (String.length (crlf +:+ crlf)) with 4%nat. lia.
  - intros Hb. cbn [response_body] in Hb. rewrite E in Hb. destruct (IH b Hb) as [Hl Hx].
    split; [cbn [String.length]; lia|]. rewrite string_app_cons. cbn [response_body].
    rewrite <- string_app_cons, prefix_more, E; [exact Hx|].
    change (String.length (crlf +:+ crlf)) with 4%nat. cbn [String.length]. lia.
Qed.

Lemma substring_split n s :
  ∃ rest, s = String.substring 0 n s +:+ rest ∧ String.length (String.substring 0 n s) = Nat.min n (String.length s).
Proof.
  revert n. induction s as [|c s IH]; intros [|n]; cbn [String.substring String.length]; try (by eexists).
  destruct (IH n) as (rest & E & Hl). exists rest. rewrite string_app_cons, <- E. split; [done|].
  cbn [String.length]. lia.
Qed.

Lemma http_text_split n body : http_text n body = http_text n "" +:+ body.
Proof. unfold http_text. by rewrite !string_app_assoc. Qed.

(** A client that got less than the response notices it. *)
Lemma read_truncated n body :
  (n < String.length (http_response body))%nat → read_response (String.substring 0 n (http_response body)) = None.
Proof.
  intros Hn. set (N := N.of_nat (String.length body)). change (http_response body) with (http_text N body) in *.
  destruct (substring_split n (http_text N body)) as (rest & E & Hl). set (r := String.substring 0 n _) in *.
  assert (String.length r = n) as Hr by lia. clear Hl.
  unfold read_response. destruct (response_body r) as [b|] eqn:Eb; [|by destruct (head _)].
  pose proof (proj2 (response_body_more r rest b Eb)) as Em. rewrite <- E, http_text_body in Em. injection Em as Em.
  assert (r = http_text N b) as ->.
  { rewrite http_text_split, Em in E. rewrite <- string_app_assoc, <- (http_text_split N b) in E.
    by apply string_app_inj_tail in E. }
  rewrite http_text_length. cbn [mbind option_bind].
  rewrite (proj2 (Z.ltb_lt _ _)); [done|]. unfold N. rewrite Em, string_app_length.
  rewrite E, string_app_length in Hn. lia.
Qed.

(** ** The server thread *)

(** The atomics that the members hold, and one call of a recording operation
    alone: the operations that it makes one by one add up to [record]. *)
Definition hist_in (m : Metrics) (h : Hist) : Histogram :=
  match h with
  | HLookup => mx_lat_lookup m | HInsert => mx_lat_insert m
  | HStream => mx_lat_stream m | HRecovery => mx_failover_recovery m
  end.

Definition vals_of (m : Metrics) : Vals := λ a,
  match a with
  | ALookupHit => mx_req_lookup_hit m | ALookupMiss => mx_req_lookup_miss m
  | AInsertOk => mx_req_insert_ok m | AStreamOk => mx_req_stream_ok m
  | AStreamBytes => mx_stream_bytes_total m | AEvictionBlocks => mx_eviction_blocks_total m
  | AEvictionFreed => mx_eviction_bytes_freed_total m | AEpoch => mx_cluster_epoch m
  | AUsed t => mx_tier_used m t | ACapacity t => mx_tier_capacity m t
  | AUnderTarget => mx_replicas_under_target m
  | ABucket h i => default 0 (hg_buckets (hist_in m h) !! i)
  | ACount h => hg_count (hist_in m h)
  | ASum h => hg_sum_micros (hist_in m h)
  end.

Lemma bucket_alter (l : list Z) i j :
  (i < length l)%nat →
  default 0 (alter (λ n, n +₆₄ 1) i l !! j) = if decide (j = i) then default 0 (l !! j) +₆₄ 1 else default 0 (l !! j).
Proof.
  intros Hi. destruct (decide (j = i)) as [->|Hne].
  - rewrite list_lookup_alter_eq. by destruct (lookup_lt_is_Some_2 _ _ Hi) as [x ->].
  - by rewrite list_lookup_alter_ne.
Qed.

Lemma observe_ops_alone h sec v a :
  fold_left perform_op (observe_ops h sec) v a =
  match a with
  | ABucket h' i => if decide (h' = h) then if decide (i = bucket_of (hist_bounds h) sec) then v a +₆₄ 1 else v a else v a
  | ACount h' => if decide (h' = h) then v a +₆₄ 1 else v a
  | ASum h' => if decide (h' = h) then v a +₆₄ double_trunc (double_mul sec (double_of_Z 1000000)) else v a
  | _ => v a
  end.
Proof.
  cbn [observe_ops fold_left perform_op]. generalize (bucket_of (hist_bounds h) sec) as k. intros k.
  destruct a; repeat (destruct (decide _); simplify_eq; try done).
Qed.

Lemma record_ops_alone m e a :
  metrics_wf m → fold_left perform_op (record_ops e) (vals_of m) a = vals_of (record m e) a.
Proof.
  destruct m as [a1 a2 a3 a4 a5 a6 a7 a8 a9 a10 a11 ll li ls fr]. intros [[B1 L1] [B2 L2] [B3 L3] [B4 L4]].
  cbn [mx_lat_lookup mx_lat_insert mx_lat_stream mx_failover_recovery] in *.
  destruct e; cbn [record_ops]; try change (?x :: observe_ops ?h ?s) with ([x] ++ observe_ops h s);
    rewrite ?fold_left_app, ?observe_ops_alone; cbn [fold_left perform_op record observe_seconds].
  all: destruct a as [| | | | | | | |t'|t'| |h i|h|h];
    try destruct h; cbn [vals_of hist_in mx_req_lookup_hit mx_req_lookup_miss mx_req_insert_ok mx_req_stream_ok mx_stream_bytes_total
         mx_eviction_blocks_total mx_eviction_bytes_freed_total mx_cluster_epoch mx_tier_used mx_tier_capacity
         mx_replicas_under_target mx_lat_lookup mx_lat_insert mx_lat_stream mx_failover_recovery
         observe_seconds hg_buckets hg_count hg_sum_micros hist_bounds].
  all: try (rewrite bucket_alter; [rewrite ?B1, ?B2, ?B3, ?B4|]);
    try (by repeat (destruct (decide _); simplify_eq));
    match goal with |- (bucket_of ?b ?sec < _)%nat => pose proof (bucket_of_lt b sec) as Hlt end;
    rewrite ?L1, ?L2, ?L3, ?L4, ?B1, ?B2, ?B3, ?B4 in *; cbn [length kLatencyBounds kRecoveryBounds] in *; lia.
Qed.

(** The atomics that exist: a histogram has nine buckets. *)
Definition existing (a : Atom) : Prop := (match a with ABucket _ i => i < 9 | _ => True end)%nat.

(** Every load sees the value of a moment of the scrape: after some of the
    operations that the other threads make during it. *)
Definition momentary (v : Vals) (ops : list AtomicOp) (seen : Vals) : Prop :=
  ∀ a, existing a → ∃ ops1 ops2, ops = ops1 ++ ops2 ∧ seen a = fold_left perform_op ops1 v a.

(** A scrape leaves none of them out. *)
Lemma load_order_complete a : existing a → a ∈ load_order.
Proof.
  unfold existing. intros Ha. apply (bool_decide_unpack _). destruct a as [| | | | | | | |t|t| |h i|h|h]; try destruct t; try destruct h;
    try (vm_compute; exact I); do 9 (destruct i as [|i]; [vm_compute; exact I|]); lia.
Qed.

Lemma load_all_state order between v : (load_all order between v).2 = fold_left perform_op (concat between) v.
Proof.
  revert between v. induction order as [|a order IH]; intros between v; [done|]. cbn [load_all].
  specialize (IH (tail between) (fold_left perform_op (default [] (head between)) v)).
  destruct (load_all _ _ _) as [xs v']. cbn [snd] in *. rewrite IH, <- fold_left_app. by destruct between.
Qed.

Lemma load_all_momentary order between v a :
  a ∈ order → ∃ ops1 ops2, concat between = ops1 ++ ops2 ∧
    loaded (load_all order between v).1 a = fold_left perform_op ops1 v a.
Proof.
  revert between v. induction order as [|b order IH]; intros between v; [by intros ?%not_elem_of_nil|]. intros Ha.
  cbn [load_all]. set (w := fold_left _ _ _). specialize (IH (tail between) w).
  assert (concat between = default [] (head between) ++ concat (tail between)) as Ec by (by destruct between).
  destruct (load_all order (tail between) w) as [xs v']. cbn [fst loaded] in *.
  destruct (decide (b = a)) as [->|Hne]; [by exists (default [] (head between)), (concat (tail between))|].
  apply elem_of_cons in Ha as [->|Ha]; [done|]. destruct (IH Ha) as (o1 & o2 & E1 & E2).
  exists (default [] (head between) ++ o1), o2. rewrite Ec, E1, app_assoc, fold_left_app. done.
Qed.

Lemma metrics_of_wf v : metrics_wf (metrics_of v).
Proof. by split. Qed.

(** The turns that answer a client, each with the atomics when it begins. *)
Fixpoint clients (turns : list ServeTurn) (v : Vals) : list (Vals * ServeTurn) :=
  match turns with
  | [] => []
  | t :: turns =>
      let v' := fold_left perform_op (concat (sv_ops t)) v in
      if negb (sv_running t) then []
      else if sv_accepted t
      then match sv_send t with Sent _ => (v, t) :: clients turns v' | SigPipe => [] end
      else clients turns v'
  end.

(** What a client makes of its response, when the scrape saw [seen]. *)
Definition client_reads (node : string) (n : N) (seen : Vals) (r : string) : Prop :=
  let out := http_response (render node (metrics_of seen)) in
  r = String.substring 0 (N.to_nat n) out ∧
  parse_exposition <$> read_response r =
    if (N.to_nat n <? String.length out)%nat then None else Some (samples node (metrics_of seen)).

Lemma substring_whole n s : (String.length s ≤ n)%nat → String.substring 0 n s = s.
Proof.
  revert n. induction s as [|c s IH]; intros [|n]; cbn [String.length String.substring]; try done; [lia|].
  intros Hn. f_equal. apply IH. lia.
Qed.

Lemma client_reads_sent node n seen :
  lacks newline node = true →
  client_reads node n seen (String.substring 0 (N.to_nat n) (http_response (render node (metrics_of seen)))).
Proof.
  intros Hnode. split; [done|]. cbn zeta. destruct (Nat.ltb_spec (N.to_nat n) (String.length (http_response (render node (metrics_of seen))))) as [Hn|Hn].
  - by rewrite read_truncated.
  - rewrite substring_whole, read_http_response by done. cbn [fmap option_fmap option_map]. f_equal.
    destruct (render_lines_reads node (metrics_of seen) (metrics_of_wf seen) Hnode) as [Hp Hl].
    unfold parse_exposition, render. by rewrite getlines_unlines.
Qed.

Lemma serve_loop_clients node turns v :
  lacks newline node = true →
  Forall2 (λ x r, ∃ n seen, sv_send x.2 = Sent n ∧ momentary x.1 (concat (sv_ops x.2)) seen ∧ client_reads node n seen r)
    (clients turns v) (serve_loop node turns v).1.
Proof.
  intros Hnode. revert v. induction turns as [|t turns IH]; intros v; [constructor|]. cbn [clients serve_loop].
  destruct (sv_running t); cbn [negb]; [|constructor]. destruct (sv_accepted t); [|apply IH].
  pose proof (load_all_state load_order (sv_ops t) v) as Ev.
  assert (momentary v (concat (sv_ops t)) (loaded (load_all load_order (sv_ops t) v).1)) as Hm
    by (intros a Ha; by apply load_all_momentary, load_order_complete).
  destruct (load_all load_order (sv_ops t) v) as [xs v']. cbn [fst snd] in Ev, Hm. subst v'.
  destruct (sv_send t) as [n|] eqn:Es; [|constructor].
  specialize (IH (fold_left perform_op (concat (sv_ops t)) v)). destruct (serve_loop node turns _) as [rs alive].
  cbn [fst] in *. constructor; [|exact IH]. exists n, (loaded xs). by split_and!; [| |apply client_reads_sent].
Qed.

(** The turns before the flag is found cleared. *)
Fixpoint running_prefix (turns : list ServeTurn) : list ServeTurn :=
  match turns with
  | [] => []
  | t :: turns => if sv_running t then t :: running_prefix turns else []
  end.

Lemma serve_loop_alive node turns v :
  (serve_loop node turns v).2 = false ↔ ∃ t, t ∈ running_prefix turns ∧ sv_accepted t = true ∧ sv_send t = SigPipe.
Proof.
  revert v. induction turns as [|t turns IH]; intros v; cbn [serve_loop running_prefix].
  { split; [done|]. by intros (? & ?%not_elem_of_nil & _). }
  destruct (sv_running t); cbn [negb].
  2:{ split; [done|]. by intros (? & ?%not_elem_of_nil & _). }
  setoid_rewrite elem_of_cons. destruct (sv_accepted t) eqn:Ea.
  - destruct (load_all load_order (sv_ops t) v) as [xs v']. destruct (sv_send t) eqn:Es.
    + specialize (IH v'). destruct (serve_loop node turns v') as [rs alive]. cbn [snd] in *. rewrite IH.
      split; [naive_solver|]. intros (x & [->|Hx] & ? & ?); [congruence|eauto].
    + split; [|done]. intros _. exists t. auto.
  - rewrite IH. split; [naive_solver|]. intros (x & [->|Hx] & ? & ?); [congruence|eauto].
Qed.

(** C33 (scrape): while the server runs, every client that connects, and no other,
    gets the part of one response that [send] accepted.  A client that got less
    than all of it notices from the length header; one that got all of it reads
    every counter, gauge and histogram series once, each with a value that the
    atomic had at some moment of the scrape, whatever the other threads record
    meanwhile.  The process dies of a scrape exactly when a client closes its
    connection before the answer is sent; when a socket call fails nothing is
    served. *)
Theorem metrics_scrape node turns v :
  lacks newline node = true →
  Forall2 (λ x r, ∃ n seen, sv_send x.2 = Sent n ∧ momentary x.1 (concat (sv_ops x.2)) seen ∧
      client_reads node n seen r ∧ NoDup (samples node (metrics_of seen)).*1)
    (clients turns v) (serve true true true node turns v).2.1 ∧
  ((serve true true true node turns v).2.2 = false ↔
     ∃ t, t ∈ running_prefix turns ∧ sv_accepted t = true ∧ sv_send t = SigPipe) ∧
  (∀ s b l, s && b && l = false → serve s b l node turns v = (false, ([], true))).
Proof.
  intros Hnode. split_and!.
  - eapply Forall2_impl; [by apply serve_loop_clients|]. cbn beta. intros x r (n & seen & H1 & H2 & H3).
    exists n, seen. split_and!; try done. by apply samples_distinct, metrics_of_wf.
  - apply serve_loop_alive.
  - by intros [] [] [].
Qed.

(** A lookup is recorded in the middle of a scrape, and the response is sent
    whole; the next one is cut after 80 bytes. *)
Definition wit_turns : list ServeTurn :=
  [mkServeTurn true true [[]; record_ops (RecordLookup 3 1 40000)] (Sent 100000); mkServeTurn true true [] (Sent 80)].

Lemma metrics_scrape_witness :
  ∃ r1 r2 seen, (serve true true true "node0" wit_turns (λ _, 0)).2.1 = [r1; r2] ∧
    momentary (λ _, 0) (record_ops (RecordLookup 3 1 40000)) seen ∧ read_response r2 = None.
Proof.
  pose proof (proj1 (metrics_scrape "node0" wit_turns (λ _, 0) eq_refl)) as H. revert H.
  generalize (serve true true true "node0" wit_turns (λ _, 0)).2.1 as out. intros out H.
  cbn [clients wit_turns sv_running sv_accepted sv_send negb] in H.
  destruct out as [|r1 out]; [discriminate (Forall2_length _ _ _ H)|]. apply Forall2_cons_1 in H as [H1 H].
  destruct out as [|r2 out]; [discriminate (Forall2_length _ _ _ H)|]. apply Forall2_cons_1 in H as [H2 H].
  destruct out as [|r3 out]; [|discriminate (Forall2_length _ _ _ H)].
  destruct H1 as (n1 & s1 & _ & M1 & _). destruct H2 as (n2 & s2 & N2 & _ & [R2 C2] & _).
  exists r1, r2, s1. split; [reflexivity|]. split; [exact M1|]. injection N2 as <-.
  assert (N.to_nat 80 <? String.length (http_response (render "node0" (metrics_of s2))) = true)%nat as Hlt.
  { unfold http_response. rewrite !string_app_length. apply Nat.ltb_lt. change (N.to_nat 80) with 80%nat. cbn [String.length]. lia. }
  rewrite Hlt in C2. destruct (read_response r2); [discriminate C2|reflexivity].
Defined.

(** What the comment of the file grants: a scrape between the operations of one
    recording call shows a count that its buckets do not add up to. *)
Example scrape_inconsistent :
  let seen := loaded (load_all load_order [[]; []; []; []; []; []; record_ops (RecordLookup 3 1 40000)] (λ _, 0)).1 in
  seen (ACount HLookup) = 1 ∧ seen ALookupHit = 0 ∧ Forall (λ i, seen (ABucket HLookup i) = 0) (seq 0 9).
Proof. split_and!; [vm_compute; reflexivity..|]. repeat constructor. Qed.

(** The port that the server passes comes back. *)
Lemma metrics_port_of_config p :
  (p < 2 ^ 16)%N → metrics_port ("0.0.0.0:" +:+ pretty p) = Z.of_N p.
Proof.
  intros Hp. unfold metrics_port.
  change ("0.0.0.0:" +:+ pretty p) with ("0.0.0.0" +:+ String ":" (pretty p)).
  rewrite cut_last_app by (by apply pretty_lacks).
  destruct (pretty_digits p) as [Hd Hne]. pose proof (scan_pretty p "" ltac:(done)) as Hs.
  rewrite string_app_nil_r in Hs.
  unfold stoi. rewrite skip_spaces_word.
  2:{ intros a s E. rewrite E in Hd. cbn in Hd. apply andb_true_iff in Hd as [Ha _].
      by apply negb_true_iff, is_digit_non_space. }
  destruct (pretty p) as [|a s]; [done|]. cbn [str_all] in Hd. apply andb_true_iff in Hd as [Ha _].
  rewrite digit_sign by done. unfold is_digit in Ha. destruct (digit a); [|done].
  rewrite digits_scan, Hs. cbn [fst].
  destruct ((Z.of_N p <? - 2 ^ 31) || (Z.of_N p >? 2 ^ 31 - 1)) eqn:E.
  { apply orb_true_iff in E as [E|E]; zbool; lia. }
  apply Z.mod_small. lia.
Qed.
