(* ===== verification/TierStore.v ===== *)
(** * The interface between the tiers and the tiered store

    A tier holds blocks under their identity.  [TierStore] collects the three
    operations that [TieredStore] (cache_server/src/tiered_store.cpp) calls on
    each tier and [TierStoreSpec] states what it relies on: each operation
    implements the corresponding operation on an abstract finite map from
    block identity to payload, and the byte accounting is the sum of the
    resident payload sizes.  [BlockStore] and [SsdBlockStore] are the two
    instances; the theorems on the tiered store are proved from this
    interface only. *)
From S2P Require Import Prelude Types.

Class TierStore (S : Type) := {
  ts_put : KvBlock → S → bool * S;
  ts_get : BlockId → S → option bytes;
  ts_erase : BlockId → S → Z * S;
  ts_used : S → Z;
  ts_capacity : S → Z;
  ts_order : Type;   (* the iteration order a snapshot happens to see *)
  ts_snapshot : ts_order → S → list BlockMeta;
  ts_contents : S → gmap BlockId bytes;
  ts_inv : S → Prop
}.

(** The abstract effect of an accepted insertion: content-addressed, so an
    identity that is already present keeps its payload. *)
Definition contents_put (id : BlockId) (d : bytes) (m : gmap BlockId bytes) :
    gmap BlockId bytes :=
  match m !! id with Some _ => m | None => <[id := d]> m end.

Definition opt_size (o : option bytes) : Z :=
  match o with Some d => size_of d | None => 0 end.

Class TierStoreSpec (S : Type) `{TierStore S} := {
  ts_put_inv b s :
    ts_inv s → KvBlock_wf b → ts_inv (ts_put b s).2;
  ts_put_true b s s' :
    ts_inv s → KvBlock_wf b → ts_put b s = (true, s') →
    ts_contents s' = contents_put (kv_id b) (kv_data b) (ts_contents s);
  ts_put_false b s s' :
    ts_inv s → ts_put b s = (false, s') → s' = s;
  ts_put_capacity b s : ts_capacity (ts_put b s).2 = ts_capacity s;
  ts_get_contents id s : ts_inv s → ts_get id s = ts_contents s !! id;
  ts_erase_inv id s : ts_inv s → ts_inv (ts_erase id s).2;
  ts_erase_contents id s :
    ts_inv s → ts_contents (ts_erase id s).2 = delete id (ts_contents s);
  ts_erase_freed id s :
    ts_inv s → (ts_erase id s).1 = opt_size (ts_contents s !! id);
  ts_erase_capacity id s : ts_capacity (ts_erase id s).2 = ts_capacity s;
  ts_snapshot_contents o s :
    ts_inv s →
    (λ m, (m_id m, m_size_bytes m)) <$> ts_snapshot o s ≡ₚ
      map_to_list (size_of <$> ts_contents s);
  ts_used_contents s : ts_inv s → ts_used s = msum size_of (ts_contents s);
  ts_used_le_capacity s : ts_inv s → ts_used s ≤ ts_capacity s
}.

Lemma contents_put_lookup id d m :
  contents_put id d m !! id = Some (default d (m !! id)).
Proof.
  unfold contents_put. destruct (m !! id) as [d'|] eqn:E; simpl; [done|].
  apply lookup_insert_eq.
Qed.

Lemma contents_put_lookup_ne id id' d m :
  id ≠ id' → contents_put id d m !! id' = m !! id'.
Proof.
  intros. unfold contents_put. destruct (m !! id); [done|]. by apply lookup_insert_ne.
Qed.

Lemma opt_size_nonneg o : 0 ≤ opt_size o.
Proof. destruct o; simpl; [auto with lethe|lia]. Qed.
#[export] Hint Resolve opt_size_nonneg : lethe.

Section spec.
Context {S} `{TierStoreSpec S}.
Implicit Types s : S.

(** An accepted insertion is readable; the payload that was already there
    is kept. *)
Lemma ts_get_put b s s' :
  ts_inv s → KvBlock_wf b → ts_put b s = (true, s') →
  ts_get (kv_id b) s' = Some (default (kv_data b) (ts_get (kv_id b) s)).
Proof.
  intros Hi Hw E.
  assert (ts_inv s') by (pose proof (ts_put_inv b s Hi Hw); by rewrite E in *).
  rewrite !ts_get_contents, (ts_put_true b s s' Hi Hw E) by done.
  apply contents_put_lookup.
Qed.

Lemma ts_get_put_ne b s s' id r :
  ts_inv s → KvBlock_wf b → ts_put b s = (r, s') → kv_id b ≠ id →
  ts_get id s' = ts_get id s.
Proof.
  intros Hi Hw E Hne. destruct r.
  - assert (ts_inv s') by (pose proof (ts_put_inv b s Hi Hw); by rewrite E in *).
    rewrite !ts_get_contents, (ts_put_true b s s' Hi Hw E) by done.
    by apply contents_put_lookup_ne.
  - by rewrite (ts_put_false b s s' Hi E).
Qed.

Lemma ts_get_erase id id' s :
  ts_inv s → ts_get id' (ts_erase id s).2 = if decide (id = id') then None else ts_get id' s.
Proof.
  intros Hi. rewrite !ts_get_contents, ts_erase_contents by auto using ts_erase_inv.
  case_decide as E; [subst; apply lookup_delete_eq|by apply lookup_delete_ne].
Qed.

(** Byte accounting of an erase: what it reports is what it frees. *)
Lemma ts_used_erase id s :
  ts_inv s → ts_used (ts_erase id s).2 = ts_used s - (ts_erase id s).1.
Proof.
  intros Hi. rewrite !ts_used_contents, ts_erase_contents, ts_erase_freed
    by auto using ts_erase_inv.
  destruct (ts_contents s !! id) as [d|] eqn:E; simpl.
  - by apply msum_delete.
  - rewrite delete_id by done. lia.
Qed.

(** Byte accounting of an insertion. *)
Lemma ts_used_put b s s' :
  ts_inv s → KvBlock_wf b → ts_put b s = (true, s') →
  ts_used s' = ts_used s +
    match ts_get (kv_id b) s with Some _ => 0 | None => size_of (kv_data b) end.
Proof.
  intros Hi Hw E.
  assert (ts_inv s') by (pose proof (ts_put_inv b s Hi Hw); by rewrite E in *).
  rewrite ts_get_contents, !ts_used_contents, (ts_put_true b s s' Hi Hw E) by done.
  unfold contents_put. destruct (ts_contents s !! kv_id b) as [d|] eqn:E'; [lia|].
  rewrite msum_insert by done. lia.
Qed.

(** All that an accepted insertion does to one tier. *)
Lemma ts_put_effect b s s' :
  ts_inv s → KvBlock_wf b → ts_put b s = (true, s') →
  ts_inv s' ∧ ts_contents s' = contents_put (kv_id b) (kv_data b) (ts_contents s) ∧
  ts_capacity s' = ts_capacity s ∧
  ts_used s' = ts_used s + match ts_contents s !! kv_id b with
                           | Some _ => 0 | None => size_of (kv_data b) end.
Proof.
  intros Hs Hw Ep. split_and!.
  - pose proof (ts_put_inv b s Hs Hw) as Hp. by rewrite Ep in Hp.
  - by apply ts_put_true.
  - pose proof (ts_put_capacity b s) as Hp. by rewrite Ep in Hp.
  - rewrite (ts_used_put b s s') by done. by rewrite ts_get_contents.
Qed.

(** All that an erase does to one tier. *)
Lemma ts_erase_effect id s n s' :
  ts_inv s → ts_erase id s = (n, s') →
  ts_inv s' ∧ ts_contents s' = delete id (ts_contents s) ∧
  ts_capacity s' = ts_capacity s ∧ ts_used s' = ts_used s - n ∧
  n = opt_size (ts_contents s !! id).
Proof.
  intros Hs E.
  pose proof (ts_erase_inv id s Hs) as H1. pose proof (ts_erase_contents id s Hs) as H2.
  pose proof (ts_erase_capacity id s) as H3. pose proof (ts_used_erase id s Hs) as H4.
  pose proof (ts_erase_freed id s Hs) as H5. by rewrite E in *.
Qed.

(** The sizes in a snapshot add up to the bytes in use. *)
Lemma ts_snapshot_sizes o s :
  ts_inv s → zsum (m_size_bytes <$> ts_snapshot o s) = ts_used s.
Proof.
  intros Hi. rewrite ts_used_contents by done.
  transitivity (zsum (snd <$> ((λ m, (m_id m, m_size_bytes m)) <$> ts_snapshot o s))).
  { by rewrite <- list_fmap_compose. }
  rewrite ts_snapshot_contents by done. rewrite map_to_list_fmap, <- list_fmap_compose.
  unfold msum. by f_equal.
Qed.

Lemma ts_snapshot_ids o s :
  ts_inv s → m_id <$> ts_snapshot o s ≡ₚ (map_to_list (ts_contents s)).*1.
Proof.
  intros Hi.
  transitivity (((λ m, (m_id m, m_size_bytes m)) <$> ts_snapshot o s).*1).
  { by rewrite <- list_fmap_compose. }
  rewrite ts_snapshot_contents by done. rewrite map_to_list_fmap, <- list_fmap_compose.
  apply reflexive_eq, list_fmap_ext. by intros ? [??].
Qed.

(** A snapshot lists each resident block once, with its size. *)
Lemma ts_snapshot_NoDup o s : ts_inv s → NoDup (m_id <$> ts_snapshot o s).
Proof. intros Hi. rewrite ts_snapshot_ids by done. apply NoDup_fst_map_to_list. Qed.

Lemma ts_snapshot_elem o s m :
  ts_inv s → m ∈ ts_snapshot o s →
  ∃ d, ts_contents s !! m_id m = Some d ∧ m_size_bytes m = size_of d.
Proof.
  intros Hi Hm.
  assert ((m_id m, m_size_bytes m) ∈ map_to_list (size_of <$> ts_contents s)) as Hin.
  { rewrite <- (ts_snapshot_contents o s Hi). apply list_elem_of_fmap. by exists m. }
  apply elem_of_map_to_list in Hin. rewrite lookup_fmap in Hin.
  apply fmap_Some in Hin as (d & Hd & Hs). eauto.
Qed.

Lemma ts_used_nonneg s : ts_inv s → 0 ≤ ts_used s.
Proof. intros Hi. rewrite ts_used_contents by done. apply msum_nonneg. auto with lethe. Qed.
End spec.
