(* ===== verification/BlockStore.v ===== *)
(** * Single-tier in-memory block store (block_store.hpp, block_store.cpp)

    The hash table that backs the HBM and the DRAM tier.  Each public method
    runs under one acquisition of the store's mutex, so each is one atomic
    step on the record below. *)
From S2P Require Import Prelude Types TierStore.

Record BlockStore : Type := mkBlockStore {
  bs_tier : Tier;
  bs_capacity_bytes : Z;
  bs_blocks : gmap BlockId KvBlock;
  bs_used_bytes : Z
}.

(** ** Operations *)

(** The constructor. *)
Definition empty_store (tier : Tier) (capacity_bytes : Z) : BlockStore :=
  mkBlockStore tier capacity_bytes ∅ 0.

Definition set_tier (b : KvBlock) (t : Tier) : KvBlock :=
  mkKvBlock (kv_id b) (kv_data b) t (kv_inserted_epoch b).

Definition Put (block : KvBlock) (s : BlockStore) : bool * BlockStore :=
  let block := set_tier block (bs_tier s) in
  let new_size := size_of (kv_data block) in
  match bs_blocks s !! kv_id block with
  | Some _ => (true, s)
  | None =>
      if bs_used_bytes s +₆₄ new_size >? bs_capacity_bytes s then (false, s)
      else
        (true, mkBlockStore (bs_tier s) (bs_capacity_bytes s)
                 (<[kv_id block := block]> (bs_blocks s))
                 (bs_used_bytes s +₆₄ new_size))
  end.

Definition Get (id : BlockId) (s : BlockStore) : option bytes :=
  match bs_blocks s !! id with
  | None => None
  | Some kv => Some (kv_data kv)
  end.

Definition Erase (id : BlockId) (s : BlockStore) : Z * BlockStore :=
  match bs_blocks s !! id with
  | None => (0, s)
  | Some kv =>
      let freed := size_of (kv_data kv) in
      (freed, mkBlockStore (bs_tier s) (bs_capacity_bytes s)
                (delete id (bs_blocks s)) (bs_used_bytes s -₆₄ freed))
  end.

Definition used_bytes (s : BlockStore) : Z := bs_used_bytes s.
Definition capacity_bytes (s : BlockStore) : Z := bs_capacity_bytes s.

Definition Snapshot (it : Iteration BlockId KvBlock) (s : BlockStore) : list BlockMeta :=
  (λ '(id, kv),
     {| m_id := id;
        m_tier := bs_tier s;
        m_size_bytes := size_of (kv_data kv);
        m_last_access_epoch := kv_inserted_epoch kv;
        m_insert_epoch := kv_inserted_epoch kv;
        m_visited := false |}) <$> it (bs_blocks s).

(** ** Invariant *)

Definition contents (s : BlockStore) : gmap BlockId bytes := kv_data <$> bs_blocks s.

Record inv (s : BlockStore) : Prop := {
  inv_capacity : 0 ≤ bs_capacity_bytes s ≤ 2 ^ 63;
  inv_used : bs_used_bytes s = msum (size_of ∘ kv_data) (bs_blocks s);
  inv_bound : bs_used_bytes s ≤ bs_capacity_bytes s;
  inv_entry id b : bs_blocks s !! id = Some b → kv_id b = id ∧ kv_tier b = bs_tier s
}.

Lemma bs_inv_used_range s : inv s → 0 ≤ bs_used_bytes s ≤ 2 ^ 63.
Proof.
  intros [Hc Hu Hb _]. split; [|lia]. rewrite Hu. apply msum_nonneg. intros. apply size_of_nonneg.
Qed.

(** Within the invariant neither the capacity test nor the counter wraps. *)
Lemma bs_used_add_exact s b :
  inv s → KvBlock_wf b →
  bs_used_bytes s +₆₄ size_of (kv_data b) = bs_used_bytes s + size_of (kv_data b).
Proof.
  intros Hi Hw. pose proof (bs_inv_used_range s Hi). pose proof (size_of_nonneg (kv_data b)).
  pose proof (wf_size b Hw). apply u64_small. lia.
Qed.

Lemma bs_used_sub_exact s id b :
  inv s → bs_blocks s !! id = Some b →
  bs_used_bytes s -₆₄ size_of (kv_data b) = bs_used_bytes s - size_of (kv_data b).
Proof.
  intros Hi Hb. pose proof (bs_inv_used_range s Hi).
  pose proof (msum_lookup_le (size_of ∘ kv_data) (bs_blocks s) id b) as Hle.
  rewrite <- (inv_used s Hi) in Hle. specialize (Hle (λ v, size_of_nonneg (kv_data v)) Hb). simpl in Hle.
  pose proof (size_of_nonneg (kv_data b)). apply u64_small. lia.
Qed.

Lemma bs_empty_store_inv t c : 0 ≤ c ≤ 2 ^ 63 → inv (empty_store t c).
Proof. intros. split; simpl; [done|by rewrite msum_empty|lia|done]. Qed.

(** ** Behaviour of the operations *)

Lemma bs_Put_present b s kv :
  bs_blocks s !! kv_id b = Some kv → Put b s = (true, s).
Proof. intros E. unfold Put. simpl. by rewrite E. Qed.

Lemma bs_Put_absent b s :
  inv s → KvBlock_wf b → bs_blocks s !! kv_id b = None →
  Put b s =
    if bs_capacity_bytes s <? bs_used_bytes s + size_of (kv_data b) then (false, s)
    else (true, mkBlockStore (bs_tier s) (bs_capacity_bytes s)
                  (<[kv_id b := set_tier b (bs_tier s)]> (bs_blocks s))
                  (bs_used_bytes s + size_of (kv_data b))).
Proof.
  intros Hi Hw E. unfold Put. simpl. rewrite E, bs_used_add_exact, Z.gtb_ltb by done. done.
Qed.

Lemma bs_Put_inv b s : inv s → KvBlock_wf b → inv (Put b s).2.
Proof.
  intros Hi Hw. destruct (bs_blocks s !! kv_id b) as [kv|] eqn:E.
  { by rewrite (bs_Put_present b s kv). }
  rewrite bs_Put_absent by done. case_test; zbool; [done|]. destruct Hi as [Hc Hu Hb He].
  split; simpl; [done| |lia|].
  - rewrite msum_insert, Hu by done. simpl. lia.
  - intros id b' [[<- <-]|[_ Hl]]%lookup_insert_Some; [done|by apply He].
Qed.

Lemma bs_Erase_inv id s : inv s → inv (Erase id s).2.
Proof.
  intros Hi. unfold Erase. destruct (bs_blocks s !! id) as [kv|] eqn:E; [|done]. simpl.
  rewrite (bs_used_sub_exact s id kv) by done. pose proof (size_of_nonneg (kv_data kv)).
  destruct Hi as [Hc Hu Hb He]. split; simpl; [done| |lia|].
  - rewrite (msum_delete _ _ _ _ E), Hu. done.
  - intros id' b' [_ Hl]%lookup_delete_Some. by apply He.
Qed.

Lemma bs_Get_contents id s : Get id s = contents s !! id.
Proof. unfold Get, contents. rewrite lookup_fmap. by destruct (bs_blocks s !! id). Qed.

Lemma bs_contents_lookup_None id s : contents s !! id = None ↔ bs_blocks s !! id = None.
Proof. unfold contents. by rewrite lookup_fmap, fmap_None. Qed.

Lemma bs_Put_contents b s s' :
  Put b s = (true, s') → contents s' = contents_put (kv_id b) (kv_data b) (contents s).
Proof.
  unfold Put, contents_put, contents. simpl. rewrite lookup_fmap.
  destruct (bs_blocks s !! kv_id b) as [kv|] eqn:E; simpl; [by intros [= <-]|].
  case_match; [done|]. intros [= <-]. simpl. by rewrite fmap_insert.
Qed.

Lemma bs_Erase_contents id s : contents (Erase id s).2 = delete id (contents s).
Proof.
  unfold Erase, contents. destruct (bs_blocks s !! id) as [kv|] eqn:E; simpl.
  - by rewrite fmap_delete.
  - rewrite delete_id; [done|]. by rewrite lookup_fmap, E.
Qed.

Lemma bs_Erase_freed id s : (Erase id s).1 = opt_size (contents s !! id).
Proof. unfold Erase, contents. rewrite lookup_fmap. by destruct (bs_blocks s !! id). Qed.

Lemma bs_used_contents s : inv s → bs_used_bytes s = msum size_of (contents s).
Proof. intros Hi. unfold contents. by rewrite msum_fmap, (inv_used s Hi). Qed.

(** ** Snapshot *)

Lemma bs_Snapshot_ids it s :
  (λ m, (m_id m, m_size_bytes m)) <$> Snapshot it s
    ≡ₚ map_to_list (size_of <$> contents s).
Proof.
  unfold Snapshot, contents. rewrite !map_to_list_fmap, (iter_perm it).
  rewrite <- !list_fmap_compose. apply reflexive_eq, list_fmap_ext. by intros ? [id kv] ?.
Qed.

#[export] Instance BlockStore_tier : TierStore BlockStore := {
  ts_put := Put;
  ts_get := Get;
  ts_erase := Erase;
  ts_used := used_bytes;
  ts_capacity := capacity_bytes;
  ts_order := Iteration BlockId KvBlock;
  ts_snapshot := Snapshot;
  ts_contents := contents;
  ts_inv := inv
}.

#[export] Instance BlockStore_tier_spec : TierStoreSpec BlockStore.
Proof.
  split; simpl.
  - apply bs_Put_inv.
  - intros b s s' _ _. apply bs_Put_contents.
  - intros b s s' _. unfold Put. repeat case_match; intros; by simplify_eq.
  - intros b s. unfold Put. by repeat case_match.
  - intros id s _. apply bs_Get_contents.
  - apply bs_Erase_inv.
  - intros id s _. apply bs_Erase_contents.
  - intros id s _. apply bs_Erase_freed.
  - intros id s. unfold Erase. by case_match.
  - intros o s _. apply bs_Snapshot_ids.
  - intros s. apply bs_used_contents.
  - intros s. apply inv_bound.
Qed.
