(* ===== verification/SsdLayout.v ===== *)
(** * On-disk slot layout of the SSD tier (ssd_block_store.hpp)

    The 64-byte slot header, field by field in file order, its little-endian
    encoding, and the slot array that the store maps into memory. *)
From S2P Require Import Prelude Types.

Record SsdSlotHeader : Type := mkSsdSlotHeader {
  h_magic : Z;            (* std::uint8_t,  offset 0 *)
  h_tier : Z;             (* std::uint8_t,  offset 1 *)
  h_flags : Z;            (* std::uint16_t, offset 2 *)
  h_payload_size : Z;     (* std::uint32_t, offset 4 *)
  h_hash : Hash256;       (*                offset 8 *)
  h_inserted_epoch : Z;   (* std::uint64_t, offset 40 *)
  h_layer : Z;            (* std::uint32_t, offset 48 *)
  h_head_group : Z;       (* std::uint32_t, offset 52 *)
  h_model_id : Z;         (* std::uint32_t, offset 56 *)
  h_reserved : vec byte 4 (*                offset 60 *)
}.

Definition header_bytes : nat := 64.
Arguments header_bytes : simpl never.
Definition kSlotMagicLive : Z := 0xA5.
Definition kSlotMagicFree : Z := 0x00.

(** The ranges of the C++ field types. *)
Record header_wf (h : SsdSlotHeader) : Prop := {
  hwf_magic : 0 ≤ h_magic h < 2 ^ 8;
  hwf_tier : 0 ≤ h_tier h < 2 ^ 8;
  hwf_flags : 0 ≤ h_flags h < 2 ^ 16;
  hwf_payload_size : 0 ≤ h_payload_size h < 2 ^ 32;
  hwf_epoch : 0 ≤ h_inserted_epoch h < 2 ^ 64;
  hwf_layer : 0 ≤ h_layer h < 2 ^ 32;
  hwf_head_group : 0 ≤ h_head_group h < 2 ^ 32;
  hwf_model_id : 0 ≤ h_model_id h < 2 ^ 32
}.

(** ** Encoding *)

Definition encode_header (h : SsdSlotHeader) : bytes :=
  le_encode 1 (h_magic h) ++ le_encode 1 (h_tier h) ++ le_encode 2 (h_flags h) ++
  le_encode 4 (h_payload_size h) ++ vec_to_list (h_hash h) ++
  le_encode 8 (h_inserted_epoch h) ++ le_encode 4 (h_layer h) ++
  le_encode 4 (h_head_group h) ++ le_encode 4 (h_model_id h) ++
  vec_to_list (h_reserved h).

(** The field of [n] bytes at offset [off]. *)
Definition field (off n : nat) (bs : bytes) : bytes := take n (drop off bs).

Definition decode_header (bs : bytes) : SsdSlotHeader := {|
  h_magic := le_decode (field 0 1 bs);
  h_tier := le_decode (field 1 1 bs);
  h_flags := le_decode (field 2 2 bs);
  h_payload_size := le_decode (field 4 4 bs);
  h_hash := vec_resize 32 (field 8 32 bs);
  h_inserted_epoch := le_decode (field 40 8 bs);
  h_layer := le_decode (field 48 4 bs);
  h_head_group := le_decode (field 52 4 bs);
  h_model_id := le_decode (field 56 4 bs);
  h_reserved := vec_resize 4 (field 60 4 bs)
|}.

Lemma length_encode_header h : length (encode_header h) = header_bytes.
Proof.
  unfold encode_header. rewrite !length_app, !length_le_encode, !length_vec_to_list. done.
Qed.

Lemma field_app_skip off n (l1 l2 : bytes) k :
  length l1 = k → (k ≤ off)%nat → field off n (l1 ++ l2) = field (off - k) n l2.
Proof. intros <- Hle. unfold field. by rewrite drop_app_ge. Qed.

Lemma field_app_here n (l1 l2 : bytes) : length l1 = n → field 0 n (l1 ++ l2) = l1.
Proof. intros <-. unfold field. by rewrite drop_0, take_app_length. Qed.

(** Reads one field of an encoded header. *)
Ltac read_field :=
  repeat (erewrite field_app_skip;
          [|rewrite ?length_le_encode, ?length_vec_to_list; reflexivity|lia]; cbn [Nat.sub]);
  first [ rewrite field_app_here by (rewrite ?length_le_encode, ?length_vec_to_list; reflexivity)
        | unfold field; rewrite drop_0, take_ge
            by (rewrite ?length_le_encode, ?length_vec_to_list; lia) ].

#[local] Opaque le_encode vec_to_list.

(** Decoding inverts encoding, also when the payload follows the header. *)
Lemma decode_encode_header h rest :
  header_wf h → decode_header (encode_header h ++ rest) = h.
Proof.
  intros [H1 H2 H3 H4 H5 H6 H7 H8]. destruct h as [a b c d e f g i j k].
  cbn in H1, H2, H3, H4, H5, H6, H7, H8.
  unfold decode_header, encode_header; cbn [h_magic h_tier h_flags h_payload_size h_hash
    h_inserted_epoch h_layer h_head_group h_model_id h_reserved].
  rewrite <- !app_assoc. f_equal.
  all: read_field; first [apply le_decode_encode; assumption|apply vec_resize_to_list].
Qed.

Lemma le_decode_take_bound n (bs : bytes) : 0 ≤ le_decode (take n bs) < 256 ^ Z.of_nat n.
Proof.
  pose proof (le_decode_range (take n bs)) as [H1 H2]. split; [done|].
  eapply Z.lt_le_trans; [exact H2|]. apply Z.pow_le_mono_r; [lia|]. rewrite length_take. lia.
Qed.

(** Whatever bytes the file holds, the decoded header is in range. *)
Lemma decode_header_wf bs : header_wf (decode_header bs).
Proof. split; simpl; apply le_decode_take_bound. Qed.

(** ** Slots *)

(** A slot of the mapped region: header and payload area. *)
Record Slot : Type := mkSlot { s_hdr : SsdSlotHeader; s_payload : bytes }.

#[export] Instance Slot_inhabited : Inhabited Slot :=
  populate (mkSlot (decode_header []) []).

Definition slot_id (s : Slot) : BlockId :=
  mkBlockId (h_hash (s_hdr s)) (h_layer (s_hdr s)) (h_head_group (s_hdr s)) (h_model_id (s_hdr s)).

(** The bytes of a slot in the file. *)
Definition slot_to_bytes (s : Slot) : bytes := encode_header (s_hdr s) ++ s_payload s.

Definition slot_of_bytes (bs : bytes) : Slot :=
  mkSlot (decode_header bs) (drop header_bytes bs).

(** The whole region, and the slot array seen through [slot_header] and
    [slot_payload] at [slot_offset n = n * slot_bytes]. *)
Definition region_bytes (slots : list Slot) : bytes := concat (slot_to_bytes <$> slots).

Definition slot_at (slot_bytes : nat) (region : bytes) (n : nat) : Slot :=
  slot_of_bytes (take slot_bytes (drop (n * slot_bytes) region)).

Definition slots_of_region (slot_bytes total_slots : nat) (region : bytes) : list Slot :=
  slot_at slot_bytes region <$> seq 0 total_slots.

Definition slot_wf (payload_bytes : nat) (s : Slot) : Prop :=
  header_wf (s_hdr s) ∧ length (s_payload s) = payload_bytes.

Lemma slot_of_to_bytes s : header_wf (s_hdr s) → slot_of_bytes (slot_to_bytes s) = s.
Proof.
  intros Hw. unfold slot_of_bytes, slot_to_bytes. rewrite decode_encode_header by done.
  rewrite drop_app_length' by (by rewrite length_encode_header). by destruct s.
Qed.

Lemma length_slot_to_bytes p s :
  length (s_payload s) = p → length (slot_to_bytes s) = (header_bytes + p)%nat.
Proof. intros <-. unfold slot_to_bytes. by rewrite length_app, length_encode_header. Qed.

Lemma slots_to_bytes_const p slots :
  Forall (slot_wf p) slots →
  Forall (λ l, length l = (header_bytes + p)%nat) (slot_to_bytes <$> slots).
Proof.
  intros Hf. apply Forall_fmap. eapply Forall_impl; [exact Hf|].
  intros s [_ Hp]. by apply length_slot_to_bytes.
Qed.

Lemma length_region_bytes p slots :
  Forall (slot_wf p) slots →
  length (region_bytes slots) = (length slots * (header_bytes + p))%nat.
Proof.
  intros Hf. unfold region_bytes.
  rewrite (length_concat_const (header_bytes + p)) by (by apply slots_to_bytes_const).
  by rewrite length_fmap.
Qed.

(** Reading the slot array back from its bytes gives the slot array. *)
Lemma slots_of_region_bytes p slots :
  Forall (slot_wf p) slots →
  slots_of_region (header_bytes + p) (length slots) (region_bytes slots) = slots.
Proof.
  intros Hf. apply list_eq. intros n. unfold slots_of_region. rewrite list_lookup_fmap.
  destruct (slots !! n) as [s|] eqn:E.
  - pose proof (lookup_lt_Some _ _ _ E). rewrite lookup_seq_lt by done. simpl. f_equal.
    unfold slot_at, region_bytes.
    rewrite (take_drop_concat (header_bytes + p) n _ (slot_to_bytes s)).
    + apply slot_of_to_bytes. by apply (Forall_lookup_1 _ _ _ _ Hf E).
    + by apply slots_to_bytes_const.
    + by rewrite list_lookup_fmap, E.
  - apply lookup_ge_None in E. by rewrite lookup_seq_ge.
Qed.

(** Any region of the right length yields well-formed slots. *)
Lemma slots_of_region_wf p total region :
  length region = (total * (header_bytes + p))%nat →
  Forall (slot_wf p) (slots_of_region (header_bytes + p) total region).
Proof.
  intros Hl. apply Forall_fmap, Forall_forall. intros n Hn%elem_of_seq.
  split; [apply decode_header_wf|]. unfold slot_at, slot_of_bytes. cbn [s_payload compose].
  rewrite length_drop, length_take, length_drop, Hl.
  remember (header_bytes + p)%nat as c eqn:Hc. clear Hl.
  assert (n * c + c ≤ total * c)%nat by nia. lia.
Qed.
