(* ===== verification/SsdBlockStore.v ===== *)
(** * SSD block store (ssd_block_store.hpp, ssd_block_store.cpp)

    A slot allocator over one memory-mapped file: an in-memory index from
    block identity to slot, a free list, and the slot array itself.  Public
    methods run under the store's mutex, so each is one atomic step; the
    writes of an insertion are also modelled one by one, for a process that
    is killed between two of them. *)
From S2P Require Import Prelude Types TierStore SsdLayout.

Record SsdBlockStore : Type := mkSsdBlockStore {
  ssd_capacity_bytes : Z;
  ssd_slot_bytes : Z;
  ssd_slot_payload_bytes : Z;
  ssd_total_slots : nat;
  ssd_usable_bytes : Z;
  ssd_slots : list Slot;               (* the mapped region *)
  ssd_index : gmap BlockId nat;        (* block identity to slot *)
  ssd_free_slots : list nat;           (* back of the vector is the last element *)
  ssd_bump_next : nat;
  ssd_used_bytes : Z
}.

(** ** Index rebuild *)

Definition slot_header (slots : list Slot) (n : nat) : SsdSlotHeader := s_hdr (slots !!! n).

(** [index_.emplace(id, n)]: an existing key is kept. *)
Definition emplace (id : BlockId) (n : nat) (m : gmap BlockId nat) : gmap BlockId nat :=
  match m !! id with Some _ => m | None => <[id := n]> m end.

Definition rebuild_slot (slots : list Slot) (slot_payload_bytes : Z)
    (acc : gmap BlockId nat * list nat * Z) (n : nat) : gmap BlockId nat * list nat * Z :=
  let '(index, free_slots, live_bytes) := acc in
  let h := slot_header slots n in
  if negb (h_magic h =? kSlotMagicLive) then (index, free_slots ++ [n], live_bytes)
  else if h_payload_size h >? slot_payload_bytes then (index, free_slots ++ [n], live_bytes)
  else (emplace (slot_id (slots !!! n)) n index, free_slots,
        live_bytes +₆₄ h_payload_size h).

(** [for (n = 0; n < total_slots_; ++n)]. *)
Definition rebuild_scan (slots : list Slot) (slot_payload_bytes : Z) (total_slots : nat) :
    gmap BlockId nat * list nat * Z :=
  foldl (rebuild_slot slots slot_payload_bytes) (∅, [], 0) (seq 0 total_slots).

Definition RebuildIndexFromMmap (s : SsdBlockStore) : SsdBlockStore :=
  let '(index, free_slots, live_bytes) :=
    rebuild_scan (ssd_slots s) (ssd_slot_payload_bytes s) (ssd_total_slots s) in
  mkSsdBlockStore (ssd_capacity_bytes s) (ssd_slot_bytes s) (ssd_slot_payload_bytes s)
    (ssd_total_slots s) (ssd_usable_bytes s) (ssd_slots s)
    index free_slots (ssd_total_slots s) live_bytes.

(** ** Constructor *)

(** What the constructor can end with instead of a store.  The member
    initialisers divide by [slot_bytes] before any argument check runs. *)
Inductive SsdError : Type :=
  | DivideByZero
  | SlotBytesTooSmall
  | NoSlots
  | OpenFailed
  | FstatFailed
  | FtruncateFailed
  | MmapFailed.

(** The outcome of the system calls the constructor makes. *)
Record SysCalls : Type := mkSysCalls {
  sys_open : bool; sys_fstat : bool; sys_ftruncate : bool; sys_mmap : bool
}.

Definition sys_ok : SysCalls := mkSysCalls true true true true.

(** [file] is the content of the file before the constructor runs (empty when
    it does not exist).  [ftruncate] cuts it or extends it with zero bytes. *)
Definition open_store (sys : SysCalls) (file : bytes) (capacity_bytes slot_bytes : Z) :
    SsdError + SsdBlockStore :=
  if slot_bytes =? 0 then inl DivideByZero
  else
    let slot_payload_bytes := slot_bytes -₆₄ Z.of_nat header_bytes in
    let total_slots := Z.to_nat (capacity_bytes / slot_bytes) in
    let usable_bytes := Z.of_nat total_slots *₆₄ slot_payload_bytes in
    if slot_bytes <=? Z.of_nat header_bytes then inl SlotBytesTooSmall
    else if (total_slots =? 0)%nat then inl NoSlots
    else if negb (sys_open sys) then inl OpenFailed
    else if negb (sys_fstat sys) then inl FstatFailed
    else
      let want := (total_slots * Z.to_nat slot_bytes)%nat in
      if negb (length file =? want)%nat && negb (sys_ftruncate sys) then inl FtruncateFailed
      else if negb (sys_mmap sys) then inl MmapFailed
      else
        let region := resize want Byte.x00 file in
        inr (RebuildIndexFromMmap
               (mkSsdBlockStore capacity_bytes slot_bytes slot_payload_bytes total_slots
                  usable_bytes (slots_of_region (Z.to_nat slot_bytes) total_slots region)
                  ∅ [] 0 0)).

(** The bytes that the page cache keeps when the process ends. *)
Definition file_bytes (s : SsdBlockStore) : bytes := region_bytes (ssd_slots s).

(** ** Slot writes *)

Inductive SlotWrite : Type :=
  | WPayload (d : bytes)
  | WTier (t : Z)
  | WFlags (f : Z)
  | WPayloadSize (n : Z)
  | WHash (h : Hash256)
  | WLayer (l : Z)
  | WHeadGroup (g : Z)
  | WModelId (m : Z)
  | WEpoch (e : Z)
  | WReserved (r : vec byte 4)
  | WMagic (m : Z).

Definition write_header (w : SlotWrite) (h : SsdSlotHeader) : SsdSlotHeader :=
  let 'mkSsdSlotHeader magic tier flags psize hash epoch layer hg model res := h in
  match w with
  | WPayload _ => h
  | WTier t => mkSsdSlotHeader magic t flags psize hash epoch layer hg model res
  | WFlags f => mkSsdSlotHeader magic tier f psize hash epoch layer hg model res
  | WPayloadSize n => mkSsdSlotHeader magic tier flags n hash epoch layer hg model res
  | WHash d => mkSsdSlotHeader magic tier flags psize d epoch layer hg model res
  | WLayer l => mkSsdSlotHeader magic tier flags psize hash epoch l hg model res
  | WHeadGroup g => mkSsdSlotHeader magic tier flags psize hash epoch layer g model res
  | WModelId m => mkSsdSlotHeader magic tier flags psize hash epoch layer hg m res
  | WEpoch e => mkSsdSlotHeader magic tier flags psize hash e layer hg model res
  | WReserved r => mkSsdSlotHeader magic tier flags psize hash epoch layer hg model r
  | WMagic m => mkSsdSlotHeader m tier flags psize hash epoch layer hg model res
  end.

(** [memcpy] overwrites the leading bytes and leaves the stale tail. *)
Definition write_payload (w : SlotWrite) (p : bytes) : bytes :=
  match w with WPayload d => d ++ drop (length d) p | _ => p end.

Definition apply_write (s : Slot) (w : SlotWrite) : Slot :=
  mkSlot (write_header w (s_hdr s)) (write_payload w (s_payload s)).

(** The writes of [Put] in program order: payload, header fields, magic last. *)
Definition put_writes (b : KvBlock) : list SlotWrite :=
  [ WPayload (kv_data b);
    WTier (Tier_to_Z SSD);
    WFlags 0;
    WPayloadSize (u32 (size_of (kv_data b)));
    WHash (b_hash (kv_id b));
    WLayer (b_layer (kv_id b));
    WHeadGroup (b_head_group (kv_id b));
    WModelId (b_model_id (kv_id b));
    WEpoch (kv_inserted_epoch b);
    WReserved (vreplicate 4 Byte.x00);
    WMagic kSlotMagicLive ].

(** The writes of [Erase]: magic first. *)
Definition erase_writes : list SlotWrite := [ WMagic kSlotMagicFree; WPayloadSize 0 ].

Definition write_slot (slots : list Slot) (n : nat) (ws : list SlotWrite) : list Slot :=
  <[n := foldl apply_write (slots !!! n) ws]> slots.

(** ** Operations *)

Definition with_alloc (s : SsdBlockStore) (free : list nat) (bump : nat) : SsdBlockStore :=
  mkSsdBlockStore (ssd_capacity_bytes s) (ssd_slot_bytes s) (ssd_slot_payload_bytes s)
    (ssd_total_slots s) (ssd_usable_bytes s) (ssd_slots s) (ssd_index s) free bump
    (ssd_used_bytes s).

Definition AllocSlot (s : SsdBlockStore) : option (nat * SsdBlockStore) :=
  match last (ssd_free_slots s) with
  | Some n => Some (n, with_alloc s (take (pred (length (ssd_free_slots s))) (ssd_free_slots s))
                         (ssd_bump_next s))
  | None =>
      if (ssd_bump_next s <? ssd_total_slots s)%nat
      then Some (ssd_bump_next s, with_alloc s (ssd_free_slots s) (S (ssd_bump_next s)))
      else None
  end.

Definition Put (block : KvBlock) (s : SsdBlockStore) : bool * SsdBlockStore :=
  if size_of (kv_data block) >? ssd_slot_payload_bytes s then (false, s)
  else match ssd_index s !! kv_id block with
  | Some _ => (true, s)
  | None =>
      match AllocSlot s with
      | None => (false, s)
      | Some (n, s1) =>
          (true, mkSsdBlockStore (ssd_capacity_bytes s1) (ssd_slot_bytes s1)
                   (ssd_slot_payload_bytes s1) (ssd_total_slots s1) (ssd_usable_bytes s1)
                   (write_slot (ssd_slots s1) n (put_writes block))
                   (emplace (kv_id block) n (ssd_index s1))
                   (ssd_free_slots s1) (ssd_bump_next s1)
                   (ssd_used_bytes s1 +₆₄ size_of (kv_data block)))
      end
  end.

Definition GetCopy (id : BlockId) (s : SsdBlockStore) : option KvBlock :=
  match ssd_index s !! id with
  | None => None
  | Some n =>
      let slot := ssd_slots s !!! n in
      let h := s_hdr slot in
      if negb (h_magic h =? kSlotMagicLive) then None
      else Some {| kv_id := slot_id slot;
                   kv_data := take (Z.to_nat (h_payload_size h)) (s_payload slot);
                   kv_tier := SSD;
                   kv_inserted_epoch := h_inserted_epoch h |}
  end.

Definition Erase (id : BlockId) (s : SsdBlockStore) : Z * SsdBlockStore :=
  match ssd_index s !! id with
  | None => (0, s)
  | Some n =>
      let freed := h_payload_size (slot_header (ssd_slots s) n) in
      (freed,
       mkSsdBlockStore (ssd_capacity_bytes s) (ssd_slot_bytes s) (ssd_slot_payload_bytes s)
         (ssd_total_slots s) (ssd_usable_bytes s)
         (write_slot (ssd_slots s) n erase_writes)
         (delete id (ssd_index s))
         (ssd_free_slots s ++ [n]) (ssd_bump_next s)
         (ssd_used_bytes s -₆₄ freed))
  end.

Definition used_bytes (s : SsdBlockStore) : Z := ssd_used_bytes s.
Definition capacity_bytes (s : SsdBlockStore) : Z := ssd_usable_bytes s.
Definition live_slot_count (s : SsdBlockStore) : nat := size (ssd_index s).

Definition Snapshot (it : Iteration BlockId nat) (s : SsdBlockStore) : list BlockMeta :=
  (λ '(id, slot_idx),
     let h := slot_header (ssd_slots s) slot_idx in
     {| m_id := id;
        m_tier := SSD;
        m_size_bytes := h_payload_size h;
        m_last_access_epoch := h_inserted_epoch h;
        m_insert_epoch := h_inserted_epoch h;
        m_visited := false |}) <$> it (ssd_index s).

(** ** Live slots *)

(** A slot that the scan indexes: live magic and a payload size that fits. *)
Definition live (payload_bytes : Z) (s : Slot) : bool :=
  (h_magic (s_hdr s) =? kSlotMagicLive) && (h_payload_size (s_hdr s) <=? payload_bytes).

Definition live_size (payload_bytes : Z) (s : Slot) : Z :=
  if live payload_bytes s then h_payload_size (s_hdr s) else 0.

Definition slot_data (s : Slot) : bytes :=
  take (Z.to_nat (h_payload_size (s_hdr s))) (s_payload s).

(** Slot [n] holds block [id]. *)
Definition live_at (payload_bytes : Z) (slots : list Slot) (n : nat) (id : BlockId) : Prop :=
  ∃ sl, slots !! n = Some sl ∧ live payload_bytes sl = true ∧ slot_id sl = id.

(** No block occupies two slots. *)
Definition slots_unique (payload_bytes : Z) (slots : list Slot) : Prop :=
  ∀ n m id, live_at payload_bytes slots n id → live_at payload_bytes slots m id → n = m.

Definition contents (s : SsdBlockStore) : gmap BlockId bytes :=
  (λ n, slot_data (ssd_slots s !!! n)) <$> ssd_index s.

Record inv (s : SsdBlockStore) : Prop := {
  inv_payload : 0 < ssd_slot_payload_bytes s < 2 ^ 32;
  inv_slot_bytes : ssd_slot_bytes s = Z.of_nat header_bytes + ssd_slot_payload_bytes s;
  inv_total : ssd_total_slots s = Z.to_nat (ssd_capacity_bytes s / ssd_slot_bytes s);
  inv_total_pos : (0 < ssd_total_slots s)%nat;
  inv_usable : ssd_usable_bytes s = Z.of_nat (ssd_total_slots s) * ssd_slot_payload_bytes s;
  inv_usable_range : ssd_usable_bytes s < 2 ^ 64;
  inv_slots_length : length (ssd_slots s) = ssd_total_slots s;
  inv_slots_wf : Forall (slot_wf (Z.to_nat (ssd_slot_payload_bytes s))) (ssd_slots s);
  inv_index id n :
    ssd_index s !! id = Some n ↔ live_at (ssd_slot_payload_bytes s) (ssd_slots s) n id;
  inv_free n :
    n ∈ ssd_free_slots s ↔
    ∃ sl, ssd_slots s !! n = Some sl ∧ live (ssd_slot_payload_bytes s) sl = false;
  inv_free_nodup : NoDup (ssd_free_slots s);
  inv_bump : ssd_bump_next s = ssd_total_slots s;
  inv_used : ssd_used_bytes s = zsum (live_size (ssd_slot_payload_bytes s) <$> ssd_slots s);
  inv_used_contents : ssd_used_bytes s = msum size_of (contents s)
}.

Lemma ssd_live_size_range P p s :
  slot_wf p s → 0 ≤ P → 0 ≤ live_size P s ≤ P.
Proof.
  intros [[_ _ _ Hp _ _ _ _] _] HP. unfold live_size, live.
  case_test; zbool; lia.
Qed.

Lemma ssd_live_sizes_bound P p slots :
  Forall (slot_wf p) slots → 0 ≤ P →
  0 ≤ zsum (live_size P <$> slots) ≤ Z.of_nat (length slots) * P.
Proof.
  intros Hf HP. rewrite <- (length_fmap (live_size P) slots). apply zsum_bound, Forall_fmap.
  eapply Forall_impl; [exact Hf|]. intros s Hs. simpl. by eapply ssd_live_size_range.
Qed.

Lemma ssd_slot_data_size P s :
  slot_wf (Z.to_nat P) s → live P s = true → size_of (slot_data s) = h_payload_size (s_hdr s).
Proof.
  intros [[_ _ _ Hp _ _ _ _] Hl] Hlive. unfold live in Hlive. zbool.
  unfold slot_data, size_of. rewrite length_take. lia.
Qed.

Lemma ssd_lookup_total_Some (slots : list Slot) n sl : slots !! n = Some sl → slots !!! n = sl.
Proof. apply list_lookup_total_correct. Qed.

(** Changing one slot, from the point of view of [live_at]. *)
Lemma ssd_live_at_insert P slots n sl sl' m id :
  slots !! n = Some sl →
  live_at P (<[n := sl']> slots) m id ↔
    (m = n ∧ live P sl' = true ∧ slot_id sl' = id) ∨ (m ≠ n ∧ live_at P slots m id).
Proof.
  intros Hn. pose proof (lookup_lt_Some _ _ _ Hn). unfold live_at.
  setoid_rewrite list_lookup_insert_Some. split.
  - intros (x & [(<- & <- & _)|[Hne Hx]] & Hl & Hid); [by left|right; eauto].
  - intros [(-> & Hl & Hid)|(Hne & x & Hx & Hl & Hid)]; [exists sl'|exists x]; naive_solver.
Qed.

Lemma ssd_zsum_live_insert P slots n sl sl' :
  slots !! n = Some sl →
  zsum (live_size P <$> <[n := sl']> slots) =
  zsum (live_size P <$> slots) - live_size P sl + live_size P sl'.
Proof.
  intros Hn. rewrite list_fmap_insert. apply zsum_insert. by rewrite list_lookup_fmap, Hn.
Qed.

(** ** Index rebuild is exact *)

Section rebuild.
Context (P : Z) (slots : list Slot).
Context (HP : 0 < P) (Hwf : Forall (slot_wf (Z.to_nat P)) slots).
Context (Hrange : Z.of_nat (length slots) * P < 2 ^ 64).
Context (Huniq : slots_unique P slots).

(** What the scan has established after the first [k] slots. *)
Definition scanned (k : nat) (acc : gmap BlockId nat * list nat * Z) : Prop :=
  let '(index, free, live_bytes) := acc in
  (∀ id n, index !! id = Some n ↔ (n < k)%nat ∧ live_at P slots n id) ∧
  free = filter (λ n, live P (slots !!! n) = false) (seq 0 k) ∧
  live_bytes = zsum (live_size P <$> take k slots) ∧
  live_bytes = msum (λ n, h_payload_size (s_hdr (slots !!! n))) index.

Lemma ssd_scanned_live k acc sl :
  scanned k acc → slots !! k = Some sl → live P sl = true →
  scanned (S k) (rebuild_slot slots P acc k).
Proof.
  destruct acc as [[index free] bytes]. intros (Hix & Hfr & Hby & Hms) Hk Hlive.
  pose proof (ssd_lookup_total_Some _ _ _ Hk) as Ht.
  assert (index !! slot_id sl = None) as Hnone.
  { destruct (index !! slot_id sl) as [n|] eqn:E; [|done]. apply Hix in E as [Hlt Hla].
    assert (n = k) by (apply (Huniq n k (slot_id sl)); [done|by exists sl]). lia. }
  pose proof Hlive as Hlive'. unfold live in Hlive'. apply andb_true_iff in Hlive' as [Hm Hs].
  assert (zsum (live_size P <$> take (S k) slots) =
          zsum (live_size P <$> take k slots) + h_payload_size (s_hdr sl)) as Hz.
  { rewrite (take_S_r _ _ _ Hk), fmap_app, zsum_app. simpl.
    unfold live_size at 2. rewrite Hlive. lia. }
  assert (0 ≤ bytes + h_payload_size (s_hdr sl) < 2 ^ 64).
  { rewrite Hby, <- Hz.
    pose proof (ssd_live_sizes_bound P _ (take (S k) slots) (Forall_take _ _ _ Hwf)) as Hb.
    rewrite length_take in Hb. nia. }
  unfold rebuild_slot, slot_header. rewrite Ht, Hm. apply Z.leb_le in Hs. simpl.
  replace (h_payload_size (s_hdr sl) >? P) with false by lia. unfold emplace. rewrite Hnone.
  split_and!.
  - intros id n. rewrite lookup_insert_Some, Hix. split.
    + intros [[<- <-]|[Hne [Hlt Hla]]]; [split; [lia|by exists sl]|split; [lia|done]].
    + intros [Hlt Hla]. destruct (decide (n = k)) as [->|Hne'].
      * left. destruct Hla as (sl' & Hsl' & _ & Hid). split; congruence.
      * right. split; [|split; [lia|done]]. intros Hid.
        apply Hne', (Huniq n k id); [done|]. exists sl. by rewrite Hid.
  - rewrite seq_S, filter_app, <- Hfr. cbn [Nat.add].
    rewrite filter_cons_False, filter_nil, app_nil_r by congruence. done.
  - rewrite u64_small by done. lia.
  - rewrite u64_small, msum_insert, Ht by done. lia.
Qed.

Lemma ssd_scanned_free k acc sl :
  scanned k acc → slots !! k = Some sl → live P sl = false →
  scanned (S k) (rebuild_slot slots P acc k).
Proof.
  destruct acc as [[index free] bytes]. intros (Hix & Hfr & Hby & Hms) Hk Hlive.
  pose proof (ssd_lookup_total_Some _ _ _ Hk) as Ht.
  assert (rebuild_slot slots P (index, free, bytes) k = (index, free ++ [k], bytes)) as ->.
  { unfold rebuild_slot, slot_header. rewrite Ht. unfold live in Hlive.
    apply andb_false_iff in Hlive as [->|Hs]; [done|].
    replace (h_payload_size (s_hdr sl) >? P) with true by lia. by case_match. }
  split_and!; [| | |done].
  - intros id n. rewrite Hix. split; intros [Hlt Hla]; (split; [|done]); [lia|].
    destruct (decide (n = k)) as [->|]; [|lia].
    destruct Hla as (sl' & Hsl' & Hl' & _). congruence.
  - rewrite seq_S, filter_app, <- Hfr. cbn [Nat.add].
    rewrite filter_cons_True, filter_nil by congruence. done.
  - rewrite (take_S_r _ _ _ Hk), fmap_app, zsum_app. simpl.
    unfold live_size at 2. rewrite Hlive. lia.
Qed.

Lemma ssd_rebuild_scan_exact k :
  (k ≤ length slots)%nat → scanned k (rebuild_scan slots P k).
Proof.
  unfold rebuild_scan. induction k as [|k IH]; intros Hk.
  { simpl. split_and!; try done. intros id n. rewrite lookup_empty. split; [done|lia]. }
  rewrite seq_S, foldl_app. simpl.
  destruct (lookup_lt_is_Some_2 slots k) as [sl Hsl]; [lia|].
  destruct (live P sl) eqn:Hl.
  - eapply ssd_scanned_live; eauto with lia.
  - eapply ssd_scanned_free; eauto with lia.
Qed.
End rebuild.

(** The geometry that the constructor computes, before the index is built. *)
Record geometry (s : SsdBlockStore) : Prop := {
  geo_payload : 0 < ssd_slot_payload_bytes s < 2 ^ 32;
  geo_slot_bytes : ssd_slot_bytes s = Z.of_nat header_bytes + ssd_slot_payload_bytes s;
  geo_total : ssd_total_slots s = Z.to_nat (ssd_capacity_bytes s / ssd_slot_bytes s);
  geo_total_pos : (0 < ssd_total_slots s)%nat;
  geo_usable : ssd_usable_bytes s = Z.of_nat (ssd_total_slots s) * ssd_slot_payload_bytes s;
  geo_usable_range : ssd_usable_bytes s < 2 ^ 64;
  geo_slots_length : length (ssd_slots s) = ssd_total_slots s;
  geo_slots_wf : Forall (slot_wf (Z.to_nat (ssd_slot_payload_bytes s))) (ssd_slots s)
}.

Lemma ssd_inv_geometry s : inv s → geometry s.
Proof. intros []. by split. Qed.

Lemma ssd_inv_unique s : inv s → slots_unique (ssd_slot_payload_bytes s) (ssd_slots s).
Proof.
  intros Hi n m id Hn%(inv_index s Hi) Hm%(inv_index s Hi). congruence.
Qed.

(** Scanning a slot array in which no block occupies two slots yields the
    invariant, whatever else the slots hold. *)
Lemma ssd_Rebuild_inv s :
  geometry s → slots_unique (ssd_slot_payload_bytes s) (ssd_slots s) →
  inv (RebuildIndexFromMmap s).
Proof.
  intros [Hp Hsb Ht Htp Hu Hur Hl Hw] Huniq. unfold RebuildIndexFromMmap.
  pose proof (ssd_rebuild_scan_exact (ssd_slot_payload_bytes s) (ssd_slots s) ltac:(lia) Hw
    ltac:(rewrite Hl; lia) Huniq (ssd_total_slots s) ltac:(lia)) as Hs.
  destruct (rebuild_scan _ _ _) as [[index free] live_bytes].
  destruct Hs as (Hix & Hfr & Hby & Hms).
  assert (∀ id n, index !! id = Some n ↔
    live_at (ssd_slot_payload_bytes s) (ssd_slots s) n id) as Hix'.
  { intros id n. rewrite Hix. split; [by intros [_ ?]|]. intros Hla. split; [|done].
    destruct Hla as (sl & Hsl & _). apply lookup_lt_Some in Hsl. lia. }
  split; simpl; try done.
  - intros n. rewrite Hfr, list_elem_of_filter, elem_of_seq. split.
    + intros [Hlive Hlt]. destruct (lookup_lt_is_Some_2 (ssd_slots s) n) as [sl Hsl]; [lia|].
      exists sl. split; [done|]. by rewrite (ssd_lookup_total_Some _ _ _ Hsl) in Hlive.
    + intros (sl & Hsl & Hlive). rewrite (ssd_lookup_total_Some _ _ _ Hsl).
      apply lookup_lt_Some in Hsl. split; [done|lia].
  - rewrite Hfr. apply NoDup_filter, NoDup_seq.
  - rewrite Hby, take_ge by lia. done.
  - rewrite Hms. unfold contents. simpl. rewrite msum_fmap. apply msum_ext.
    intros id n (sl & Hsl & Hlive & _)%Hix'. simpl. rewrite (ssd_lookup_total_Some _ _ _ Hsl).
    symmetry. eapply ssd_slot_data_size; [|done]. by apply (Forall_lookup_1 _ _ _ _ Hw Hsl).
Qed.

(** ** The writes of an insertion and of an erase *)

(** Reads of the slot after all the writes of [Put]. *)
Lemma ssd_put_slot_spec P sl b :
  slot_wf (Z.to_nat P) sl → 0 < P < 2 ^ 32 → KvBlock_wf b → size_of (kv_data b) ≤ P →
  let sl' := foldl apply_write sl (put_writes b) in
  slot_wf (Z.to_nat P) sl' ∧ live P sl' = true ∧ slot_id sl' = kv_id b ∧
  slot_data sl' = kv_data b ∧ h_payload_size (s_hdr sl') = size_of (kv_data b) ∧
  h_inserted_epoch (s_hdr sl') = kv_inserted_epoch b.
Proof.
  intros [Hh Hl] HP [Hsz (Hi1 & Hi2 & Hi3) He] Hle.
  destruct sl as [[a t f ps hs ep la hg mo re] p]. simpl in Hl.
  pose proof (size_of_nonneg (kv_data b)).
  assert (u32 (size_of (kv_data b)) = size_of (kv_data b)) as Hu by (apply u32_small; lia).
  unfold put_writes. cbn -[Z.pow]. unfold live, slot_data. cbn -[Z.pow]. rewrite Hu. split_and!.
  - split; [split; cbn -[Z.pow]; unfold Tier_to_Z, kSlotMagicLive in *; try lia; try done|].
    cbn. rewrite length_app, length_drop. unfold size_of in *. lia.
  - by apply Z.leb_le.
  - by destruct (kv_id b).
  - apply take_app_length'. unfold size_of. lia.
  - done.
  - done.
Qed.

Lemma ssd_erase_slot_spec P sl :
  slot_wf (Z.to_nat P) sl →
  let sl' := foldl apply_write sl erase_writes in
  slot_wf (Z.to_nat P) sl' ∧ live P sl' = false.
Proof.
  intros [[H1 H2 H3 H4 H5 H6 H7 H8] Hl].
  destruct sl as [[a t f ps hs ep la hg mo re] p]. unfold erase_writes. simpl in *.
  split; [|done]. split; [|done]. split; simpl; try done; unfold kSlotMagicFree; lia.
Qed.

#[local] Opaque put_writes erase_writes.

(** Under the invariant a free slot comes off the free list. *)
Lemma ssd_AllocSlot_Some s n s1 :
  inv s → AllocSlot s = Some (n, s1) →
  ∃ fr, ssd_free_slots s = fr ++ [n] ∧ s1 = with_alloc s fr (ssd_bump_next s).
Proof.
  intros Hi. unfold AllocSlot. destruct (last (ssd_free_slots s)) as [x|] eqn:E.
  - intros [= -> <-]. apply last_Some in E as [fr Hfr]. exists fr. split; [done|].
    rewrite Hfr, length_app, take_app_length' by (simpl; lia). done.
  - rewrite (inv_bump s Hi), Nat.ltb_irrefl. done.
Qed.

Lemma ssd_AllocSlot_None s : inv s → AllocSlot s = None ↔ ssd_free_slots s = [].
Proof.
  intros Hi. unfold AllocSlot. destruct (last (ssd_free_slots s)) as [x|] eqn:E.
  - split; [done|]. intros Hn. by rewrite Hn in E.
  - rewrite (inv_bump s Hi), Nat.ltb_irrefl. apply last_None in E. done.
Qed.

(** ** Insertion *)

(** The state after an insertion that takes slot [n] off the free list. *)
Lemma ssd_Put_cases b s :
  inv s →
  (Put b s = (false, s) ∧
     (ssd_slot_payload_bytes s < size_of (kv_data b) ∨
      ssd_index s !! kv_id b = None ∧ ssd_free_slots s = [])) ∨
  (Put b s = (true, s) ∧ is_Some (ssd_index s !! kv_id b)) ∨
  (∃ fr n sl, ssd_index s !! kv_id b = None ∧ size_of (kv_data b) ≤ ssd_slot_payload_bytes s ∧
     ssd_free_slots s = fr ++ [n] ∧ ssd_slots s !! n = Some sl ∧
     live (ssd_slot_payload_bytes s) sl = false ∧
     Put b s = (true,
       mkSsdBlockStore (ssd_capacity_bytes s) (ssd_slot_bytes s) (ssd_slot_payload_bytes s)
         (ssd_total_slots s) (ssd_usable_bytes s)
         (<[n := foldl apply_write sl (put_writes b)]> (ssd_slots s))
         (<[kv_id b := n]> (ssd_index s)) fr (ssd_bump_next s)
         (ssd_used_bytes s +₆₄ size_of (kv_data b)))).
Proof.
  intros Hi. unfold Put.
  destruct (size_of (kv_data b) >? ssd_slot_payload_bytes s) eqn:Hsz; zbool; [by left; auto|].
  destruct (ssd_index s !! kv_id b) as [n|] eqn:Hix; [by right; left; eauto|].
  destruct (AllocSlot s) as [[n s1]|] eqn:Ha.
  - right; right. apply ssd_AllocSlot_Some in Ha as (fr & Hfr & ->); [|done].
    destruct (proj1 (inv_free s Hi n)) as (sl & Hsl & Hlive); [rewrite Hfr; set_solver|].
    exists fr, n, sl. split_and!; try done.
    simpl. unfold emplace. rewrite Hix. unfold write_slot. by rewrite (ssd_lookup_total_Some _ _ _ Hsl).
  - left. split; [done|]. right. split; [done|]. by apply ssd_AllocSlot_None.
Qed.

Lemma ssd_contents_insert s s' id n sl' :
  inv s → ssd_index s !! id = None →
  (∃ sl, ssd_slots s !! n = Some sl ∧ live (ssd_slot_payload_bytes s) sl = false) →
  ssd_slots s' = <[n := sl']> (ssd_slots s) → ssd_index s' = <[id := n]> (ssd_index s) →
  contents s' = <[id := slot_data sl']> (contents s).
Proof.
  intros Hi Hnone (sl & Hsl & Hfree) Hs' Hix'. unfold contents. rewrite Hs', Hix', fmap_insert.
  pose proof (lookup_lt_Some _ _ _ Hsl).
  rewrite list_lookup_total_insert_eq by done. f_equal. apply map_fmap_ext.
  intros id' m Hm. f_equal. apply list_lookup_total_insert_ne.
  intros ->. apply (inv_index s Hi) in Hm as (sl2 & Hsl2 & Hl2 & _). congruence.
Qed.

Lemma ssd_Put_true_contents b s s' :
  inv s → KvBlock_wf b → Put b s = (true, s') →
  contents s' = contents_put (kv_id b) (kv_data b) (contents s).
Proof.
  intros Hi Hw E. destruct (ssd_Put_cases b s Hi) as [[E' _]|[[E' [n Hn]]|H]].
  - congruence.
  - rewrite E' in E. injection E as <-. unfold contents_put, contents.
    rewrite lookup_fmap, Hn. done.
  - destruct H as (fr & n & sl & Hnone & Hsz & Hfr & Hsl & Hfree & E').
    rewrite E' in E. injection E as <-.
    destruct (ssd_put_slot_spec (ssd_slot_payload_bytes s) sl b) as (_ & _ & _ & Hd & _);
      [by apply (Forall_lookup_1 _ _ _ _ (inv_slots_wf s Hi) Hsl)|apply (inv_payload s Hi)|done|done|].
    rewrite (ssd_contents_insert s _ (kv_id b) n (foldl apply_write sl (put_writes b)) Hi Hnone), Hd
      by eauto.
    unfold contents_put, contents. by rewrite lookup_fmap, Hnone.
Qed.

Lemma ssd_live_at_fresh P slots (index : gmap BlockId nat) id n m id' sl sl' :
  (∀ i k, index !! i = Some k ↔ live_at P slots k i) →
  index !! id = None → slots !! n = Some sl → live P sl = false →
  live P sl' = true → slot_id sl' = id →
  <[id := n]> index !! id' = Some m ↔ live_at P (<[n := sl']> slots) m id'.
Proof.
  intros Hix Hnone Hsl Hfree Hl' Hid'.
  rewrite lookup_insert_Some, (ssd_live_at_insert P slots n sl sl' m id' Hsl), Hix. split.
  - intros [[<- <-]|[Hne Hla]]; [by left|right; split; [|done]].
    intros ->. destruct Hla as (sl2 & Hsl2 & Hl2 & _). congruence.
  - intros [(-> & _ & <-)|[Hne Hla]]; [by left|right; split; [|done]].
    intros <-. apply Hix in Hla. congruence.
Qed.

(** The free list names exactly the slots that are not live. *)
Definition free_exact (P : Z) (slots : list Slot) (free : list nat) : Prop :=
  ∀ n, n ∈ free ↔ ∃ sl, slots !! n = Some sl ∧ live P sl = false.

Lemma ssd_free_exact_alloc P slots fr n sl' :
  NoDup (fr ++ [n]) → free_exact P slots (fr ++ [n]) → live P sl' = true →
  free_exact P (<[n := sl']> slots) fr.
Proof.
  intros Hnd Hf Hl' m. apply NoDup_app in Hnd as (_ & Hd & _).
  setoid_rewrite list_lookup_insert_Some. split.
  - intros Hm. destruct (proj1 (Hf m)) as (sl & Hsl & Hl); [set_solver|].
    exists sl. split; [|done]. right. split; [|done]. intros <-. apply (Hd n Hm). set_solver.
  - intros (sl & [(<- & <- & _)|[Hne Hsl]] & Hl); [congruence|].
    assert (m ∈ fr ++ [n]) as Hm by (apply Hf; eauto). set_solver.
Qed.

Lemma ssd_free_exact_release P slots fr n sl sl' :
  free_exact P slots fr → slots !! n = Some sl → live P sl' = false →
  free_exact P (<[n := sl']> slots) (fr ++ [n]).
Proof.
  intros Hf Hsl Hl' m. apply lookup_lt_Some in Hsl as Hlt.
  rewrite elem_of_app, list_elem_of_singleton. setoid_rewrite list_lookup_insert_Some.
  destruct (decide (n = m)) as [<-|Hne].
  - split; [|by right]. intros _. exists sl'. split; [by left|done].
  - rewrite (Hf m). split.
    + intros [(x & Hx & Hl)|?]; [|congruence]. exists x. split; [by right|done].
    + intros (x & [(? & _)|[_ Hx]] & Hl); [congruence|]. left. eauto.
Qed.

Lemma ssd_Put_inv b s : inv s → KvBlock_wf b → inv (Put b s).2.
Proof.
  intros Hi Hw. destruct (ssd_Put_cases b s Hi) as [[-> _]|[[-> _]|H]]; [done|done|].
  destruct H as (fr & n & sl & Hnone & Hsz & Hfr & Hsl & Hfree & E).
  pose proof (ssd_Put_true_contents b s _ Hi Hw E) as Hc. rewrite E. simpl in *.
  pose proof Hi as [Hp Hsb Ht Htp Hu Hur Hl Hwf Hix Hf Hnd Hb Hus Husc].
  pose proof (Forall_lookup_1 _ _ _ _ Hwf Hsl) as Hslwf.
  destruct (ssd_put_slot_spec (ssd_slot_payload_bytes s) sl b) as (Hw' & Hl' & Hid' & Hd' & Hps' & _); try done.
  set (sl' := foldl apply_write sl (put_writes b)) in *.
  assert (Forall (slot_wf (Z.to_nat (ssd_slot_payload_bytes s))) (<[n:=sl']> (ssd_slots s))) as Hwf'
    by (by apply Forall_insert).
  pose proof (ssd_zsum_live_insert (ssd_slot_payload_bytes s) _ n sl sl' Hsl) as Hz.
  unfold live_size at 3 4 in Hz. rewrite Hfree, Hl', Hps', <- Hus in Hz.
  pose proof (ssd_live_sizes_bound (ssd_slot_payload_bytes s) _ _ Hwf' ltac:(lia)) as Hbd.
  rewrite length_insert, Hl, <- Hu, Hz in Hbd.
  split; simpl; try done.
  - by rewrite length_insert.
  - intros id m. by apply (ssd_live_at_fresh _ _ _ _ _ _ _ sl).
  - apply ssd_free_exact_alloc; [by rewrite <- Hfr|by rewrite <- Hfr|done].
  - rewrite Hfr in Hnd. by apply NoDup_app in Hnd as (? & _).
  - rewrite u64_small by lia. lia.
  - rewrite Hc, u64_small by lia. unfold contents_put.
    assert (contents s !! kv_id b = None) as Hcn by (unfold contents; by rewrite lookup_fmap, Hnone).
    rewrite Hcn, msum_insert by done. lia.
Qed.

(** ** Erase *)

Lemma ssd_Erase_inv id s : inv s → inv (Erase id s).2 ∧
  contents (Erase id s).2 = delete id (contents s) ∧
  (Erase id s).1 = opt_size (contents s !! id).
Proof.
  intros Hi. unfold Erase. destruct (ssd_index s !! id) as [n|] eqn:Hn.
  2:{ split_and!; [done| |]; unfold contents; simpl;
      [rewrite delete_id; [done|]; by rewrite lookup_fmap, Hn|by rewrite lookup_fmap, Hn]. }
  pose proof Hi as [Hp Hsb Ht Htp Hu Hur Hl Hwf Hix Hf Hnd Hb Hus Husc].
  apply Hix in Hn as Hla. destruct Hla as (sl & Hsl & Hlive & Hid).
  pose proof (Forall_lookup_1 _ _ _ _ Hwf Hsl) as Hslwf.
  pose proof (ssd_slot_data_size _ _ Hslwf Hlive) as Hds.
  destruct (ssd_erase_slot_spec _ _ Hslwf) as (Hw' & Hl').
  unfold slot_header, write_slot. rewrite (ssd_lookup_total_Some _ _ _ Hsl). simpl.
  set (sl' := foldl apply_write sl erase_writes) in *.
  assert (contents s !! id = Some (slot_data sl)) as Hci
    by (unfold contents; by rewrite lookup_fmap, Hn, <- (ssd_lookup_total_Some _ _ _ Hsl)).
  pose proof (msum_lookup_le size_of _ _ _ size_of_nonneg Hci) as Hle.
  assert (0 ≤ ssd_used_bytes s ≤ ssd_usable_bytes s) as Hub.
  { rewrite Hus, Hu, <- Hl. apply (ssd_live_sizes_bound _ _ _ Hwf). lia. }
  pose proof (size_of_nonneg (slot_data sl)).
  assert (ssd_used_bytes s -₆₄ h_payload_size (s_hdr sl) =
          ssd_used_bytes s - h_payload_size (s_hdr sl)) as Hsub by (apply u64_small; lia).
  match goal with |- inv ?x ∧ _ => set (s' := x) end.
  assert (contents s' = delete id (contents s)) as Hc.
  { unfold contents, s'. simpl. rewrite <- fmap_delete. apply map_fmap_ext.
    intros id' m [Hne Hm]%lookup_delete_Some. f_equal. apply list_lookup_total_insert_ne.
    intros <-. apply Hix in Hm as (sl2 & Hsl2 & _ & Hid2). congruence. }
  split_and!; [|done|by rewrite Hci].
  split; simpl; try done.
  - by rewrite length_insert.
  - by apply Forall_insert.
  - intros id' m. rewrite lookup_delete_Some, (ssd_live_at_insert _ _ n sl sl' m id' Hsl), Hix. split.
    + intros [Hne Hla]. right. split; [|done]. intros ->.
      destruct Hla as (sl2 & Hsl2 & _ & Hid2). congruence.
    + intros [(_ & Hl2 & _)|[Hne Hla]]; [congruence|]. split; [|done].
      intros <-. apply Hix in Hla. congruence.
  - by eapply ssd_free_exact_release.
  - apply NoDup_app. split_and!; [done| |apply NoDup_singleton].
    intros m (sl2 & Hsl2 & Hl2)%Hf ->%list_elem_of_singleton. congruence.
  - rewrite Hsub, (ssd_zsum_live_insert _ _ n sl sl' Hsl), <- Hus. unfold live_size.
    rewrite Hlive, Hl'. lia.
  - rewrite Hsub, Hc, (msum_delete _ _ _ _ Hci), <- Husc. lia.
Qed.

(** ** Reads *)

Lemma ssd_contents_lookup_Some s id d :
  inv s →
  contents s !! id = Some d ↔
  ∃ n sl, ssd_slots s !! n = Some sl ∧ live (ssd_slot_payload_bytes s) sl = true ∧
          slot_id sl = id ∧ slot_data sl = d.
Proof.
  intros Hi. unfold contents. rewrite lookup_fmap, fmap_Some. split.
  - intros (n & Hn & ->). apply (inv_index s Hi) in Hn as (sl & Hsl & Hl & Hid).
    exists n, sl. by rewrite (ssd_lookup_total_Some _ _ _ Hsl).
  - intros (n & sl & Hsl & Hl & Hid & <-). exists n. split; [|by rewrite (ssd_lookup_total_Some _ _ _ Hsl)].
    apply (inv_index s Hi). by exists sl.
Qed.

(** The defensive magic test of [GetCopy] never fires, and the copy carries the
    identity it was asked for. *)
Lemma ssd_GetCopy_spec s id :
  inv s →
  GetCopy id s = (λ n, mkKvBlock id (slot_data (ssd_slots s !!! n)) SSD
                         (h_inserted_epoch (s_hdr (ssd_slots s !!! n)))) <$> ssd_index s !! id.
Proof.
  intros Hi. unfold GetCopy. destruct (ssd_index s !! id) as [n|] eqn:Hn; [|done]. simpl.
  apply (inv_index s Hi) in Hn as (sl & Hsl & Hl & Hid).
  rewrite (ssd_lookup_total_Some _ _ _ Hsl). unfold live in Hl. zbool.
  rewrite (proj2 (Z.eqb_eq _ _)) by done. simpl. by rewrite Hid.
Qed.

Lemma ssd_GetCopy_contents s id : inv s → kv_data <$> GetCopy id s = contents s !! id.
Proof.
  intros Hi. rewrite ssd_GetCopy_spec by done. unfold contents. rewrite lookup_fmap.
  by destruct (ssd_index s !! id).
Qed.

Lemma ssd_used_bound s : inv s → 0 ≤ ssd_used_bytes s ≤ ssd_usable_bytes s.
Proof.
  intros Hi. rewrite (inv_used s Hi), (inv_usable s Hi), <- (inv_slots_length s Hi).
  apply (ssd_live_sizes_bound _ _ _ (inv_slots_wf s Hi)). pose proof (inv_payload s Hi). lia.
Qed.

Lemma ssd_Snapshot_ids it s :
  inv s →
  (λ m, (m_id m, m_size_bytes m)) <$> Snapshot it s ≡ₚ map_to_list (size_of <$> contents s).
Proof.
  intros Hi. unfold Snapshot, contents. rewrite !map_to_list_fmap, (iter_perm it).
  rewrite <- !list_fmap_compose. apply reflexive_eq, list_fmap_ext.
  intros i [id n] Hin. simpl. f_equal.
  apply list_elem_of_lookup_2, elem_of_map_to_list, (inv_index s Hi) in Hin as (sl & Hsl & Hl & _).
  unfold slot_header. rewrite (ssd_lookup_total_Some _ _ _ Hsl). symmetry.
  eapply ssd_slot_data_size; [|done]. by apply (Forall_lookup_1 _ _ _ _ (inv_slots_wf s Hi) Hsl).
Qed.

#[export] Instance SsdBlockStore_tier : TierStore SsdBlockStore := {
  ts_put := Put;
  ts_get id s := kv_data <$> GetCopy id s;
  ts_erase := Erase;
  ts_used := used_bytes;
  ts_capacity := capacity_bytes;
  ts_order := Iteration BlockId nat;
  ts_snapshot := Snapshot;
  ts_contents := contents;
  ts_inv := inv
}.

#[export] Instance SsdBlockStore_tier_spec : TierStoreSpec SsdBlockStore.
Proof.
  split; simpl.
  - apply ssd_Put_inv.
  - apply ssd_Put_true_contents.
  - intros b s s' Hi E. destruct (ssd_Put_cases b s Hi) as [[E' _]|[[E' _]|H]]; [congruence|congruence|].
    destruct H as (fr & n & sl & _ & _ & _ & _ & _ & E'). congruence.
  - intros b s. unfold Put, AllocSlot. by repeat case_match; simplify_eq/=.
  - intros id s. apply ssd_GetCopy_contents.
  - intros id s Hi. by apply ssd_Erase_inv.
  - intros id s Hi. by apply ssd_Erase_inv.
  - intros id s Hi. by apply ssd_Erase_inv.
  - intros id s. unfold Erase. by case_match.
  - intros o s. apply ssd_Snapshot_ids.
  - intros s. apply inv_used_contents.
  - intros s Hi. by apply ssd_used_bound.
Qed.

(** ** Restart *)

(** Opening the file of a slot array with this geometry maps the same slots. *)
Lemma ssd_open_store_region sys s :
  geometry s → sys_open sys = true → sys_fstat sys = true → sys_mmap sys = true →
  open_store sys (region_bytes (ssd_slots s)) (ssd_capacity_bytes s) (ssd_slot_bytes s) =
  inr (RebuildIndexFromMmap s).
Proof.
  intros [Hp Hsb Ht Htp Hu Hur Hl Hw] Ho Hf Hm. unfold open_store.
  pose proof (Z2Nat.id (ssd_slot_payload_bytes s) ltac:(lia)) as Hzn.
  assert (Z.to_nat (ssd_slot_bytes s) =
          (header_bytes + Z.to_nat (ssd_slot_payload_bytes s))%nat) as Hsn by lia.
  replace (ssd_slot_bytes s =? 0) with false by (unfold header_bytes in *; lia).
  rewrite <- Ht, Ho, Hf, Hm. simpl negb.
  replace (ssd_slot_bytes s <=? Z.of_nat header_bytes) with false by lia.
  replace (ssd_total_slots s =? 0)%nat with false by (symmetry; apply Nat.eqb_neq; lia).
  rewrite (length_region_bytes _ _ Hw), Hl, Hsn, Nat.eqb_refl. cbn [negb andb].
  rewrite resize_all_alt by (by rewrite (length_region_bytes _ _ Hw), Hl).
  pose proof (slots_of_region_bytes _ _ Hw) as Hslots. rewrite Hl in Hslots. rewrite Hslots.
  rewrite (u64_small (ssd_slot_bytes s - _)) by (unfold header_bytes in *; lia).
  replace (ssd_slot_bytes s - Z.of_nat header_bytes) with (ssd_slot_payload_bytes s) by lia.
  rewrite u64_small by nia. f_equal. unfold RebuildIndexFromMmap. simpl. by rewrite Hu.
Qed.

Lemma ssd_Rebuild_slots s : ssd_slots (RebuildIndexFromMmap s) = ssd_slots s.
Proof. unfold RebuildIndexFromMmap. by repeat case_match. Qed.

Lemma ssd_Rebuild_payload s :
  ssd_slot_payload_bytes (RebuildIndexFromMmap s) = ssd_slot_payload_bytes s.
Proof. unfold RebuildIndexFromMmap. by repeat case_match. Qed.

(** Two stores whose live slots hold the same blocks have the same contents. *)
Lemma ssd_contents_same_live s1 s2 :
  inv s1 → inv s2 →
  (∀ n id d, (∃ sl, ssd_slots s1 !! n = Some sl ∧ live (ssd_slot_payload_bytes s1) sl = true ∧
                    slot_id sl = id ∧ slot_data sl = d) ↔
             (∃ sl, ssd_slots s2 !! n = Some sl ∧ live (ssd_slot_payload_bytes s2) sl = true ∧
                    slot_id sl = id ∧ slot_data sl = d)) →
  contents s1 = contents s2.
Proof.
  intros H1 H2 Heq. apply map_eq. intros id. apply option_eq. intros d.
  rewrite !ssd_contents_lookup_Some by done. split; intros (n & H); exists n; by apply Heq.
Qed.

Lemma ssd_Rebuild_contents s : inv s → contents (RebuildIndexFromMmap s) = contents s.
Proof.
  intros Hi. apply ssd_contents_same_live; [|done|by rewrite ssd_Rebuild_slots, ssd_Rebuild_payload].
  apply ssd_Rebuild_inv; [by apply ssd_inv_geometry|by apply ssd_inv_unique].
Qed.

(** ** A process killed in the middle of an insertion *)

(** The file after the first [k] writes of [Put b]. *)
Definition put_killed (k : nat) (b : KvBlock) (s : SsdBlockStore) : bytes :=
  if size_of (kv_data b) >? ssd_slot_payload_bytes s then file_bytes s
  else match ssd_index s !! kv_id b with
  | Some _ => file_bytes s
  | None =>
      match AllocSlot s with
      | None => file_bytes s
      | Some (n, s1) => region_bytes (write_slot (ssd_slots s1) n (take k (put_writes b)))
      end
  end.

(** No free slot carries the live magic (a reclaimed corrupt slot would). *)
Definition free_magic_clear (s : SsdBlockStore) : Prop :=
  ∀ n sl, n ∈ ssd_free_slots s → ssd_slots s !! n = Some sl → h_magic (s_hdr sl) ≠ kSlotMagicLive.

Definition write_ok (P : nat) (w : SlotWrite) : Prop :=
  match w with
  | WPayload d => (length d ≤ P)%nat
  | WTier z | WMagic z => 0 ≤ z < 2 ^ 8
  | WFlags z => 0 ≤ z < 2 ^ 16
  | WPayloadSize z | WLayer z | WHeadGroup z | WModelId z => 0 ≤ z < 2 ^ 32
  | WEpoch z => 0 ≤ z < 2 ^ 64
  | WHash _ | WReserved _ => True
  end.

Lemma ssd_apply_write_wf P sl w : slot_wf P sl → write_ok P w → slot_wf P (apply_write sl w).
Proof.
  intros [[H1 H2 H3 H4 H5 H6 H7 H8] Hl] Hok.
  destruct sl as [[a t f ps hs ep la hg mo re] p]; simpl in *.
  destruct w; (split; [split; simpl in *; done|]); simpl in *; try done.
  rewrite length_app, length_drop. lia.
Qed.

Lemma ssd_apply_writes_wf P sl ws :
  slot_wf P sl → Forall (write_ok P) ws → slot_wf P (foldl apply_write sl ws).
Proof.
  intros Hs Hf. revert sl Hs. induction Hf as [|w ws Hw _ IH]; intros sl Hs; simpl; [done|].
  by apply IH, ssd_apply_write_wf.
Qed.

#[local] Transparent put_writes.

Lemma ssd_put_writes_ok P b :
  KvBlock_wf b → size_of (kv_data b) ≤ Z.of_nat P → Forall (write_ok P) (put_writes b).
Proof.
  intros [Hs (H1 & H2 & H3) He] Hle. unfold put_writes. unfold size_of in Hle.
  repeat constructor; simpl; try done; try lia; apply u32_range.
Qed.

(** Only the last write of [Put] touches the magic byte. *)
Lemma ssd_put_writes_magic k b sl :
  (k < length (put_writes b))%nat →
  h_magic (s_hdr (foldl apply_write sl (take k (put_writes b)))) = h_magic (s_hdr sl).
Proof.
  destruct sl as [[a t f ps hs ep la hg mo re] p]. unfold put_writes. simpl length. intros Hk.
  do 11 (destruct k as [|k]; [done|]). lia.
Qed.

#[local] Opaque put_writes.

Lemma ssd_Rebuild_index s : inv s → ssd_index (RebuildIndexFromMmap s) = ssd_index s.
Proof.
  intros Hi. assert (inv (RebuildIndexFromMmap s)) as Hi'.
  { apply ssd_Rebuild_inv; [by apply ssd_inv_geometry|by apply ssd_inv_unique]. }
  apply map_eq. intros id. apply option_eq. intros n.
  by rewrite (inv_index _ Hi'), (inv_index _ Hi), ssd_Rebuild_slots, ssd_Rebuild_payload.
Qed.

(** Replacing a slot that is not live by one that is not live. *)
Lemma ssd_live_at_dead P slots n sl sl' m id :
  slots !! n = Some sl → live P sl = false → live P sl' = false →
  live_at P (<[n := sl']> slots) m id ↔ live_at P slots m id.
Proof.
  intros Hsl H H'. rewrite (ssd_live_at_insert P slots n sl sl' m id Hsl). split.
  - by intros [(_ & ? & _)|[_ ?]]; [congruence|].
  - intros Hla. right. split; [|done]. intros ->. destruct Hla as (x & Hx & Hl & _). congruence.
Qed.

(** The store that maps the half-written file. *)
Lemma ssd_killed_geometry s n sl' :
  geometry s → slot_wf (Z.to_nat (ssd_slot_payload_bytes s)) sl' →
  geometry (mkSsdBlockStore (ssd_capacity_bytes s) (ssd_slot_bytes s) (ssd_slot_payload_bytes s)
              (ssd_total_slots s) (ssd_usable_bytes s) (<[n := sl']> (ssd_slots s)) ∅ [] 0 0).
Proof.
  intros [Hp Hsb Ht Htp Hu Hur Hl Hw] Hs. split; simpl; try done.
  - by rewrite length_insert.
  - by apply Forall_insert.
Qed.

(** Opening a file in which one dead slot was replaced by a dead slot. *)
Lemma ssd_open_dead_slot sys s n sl sl' :
  inv s → sys_open sys = true → sys_fstat sys = true → sys_mmap sys = true →
  ssd_slots s !! n = Some sl → live (ssd_slot_payload_bytes s) sl = false →
  live (ssd_slot_payload_bytes s) sl' = false →
  slot_wf (Z.to_nat (ssd_slot_payload_bytes s)) sl' →
  ∃ s', open_store sys (region_bytes (<[n := sl']> (ssd_slots s)))
          (ssd_capacity_bytes s) (ssd_slot_bytes s) = inr s' ∧
        inv s' ∧ contents s' = contents s.
Proof.
  intros Hi Ho Hf Hm Hsl Hd Hd' Hwf'.
  pose proof (ssd_killed_geometry s n sl' (ssd_inv_geometry s Hi) Hwf') as Hg.
  pose proof (ssd_open_store_region sys _ Hg Ho Hf Hm) as Hopen. simpl in Hopen.
  eexists. split; [exact Hopen|].
  assert (inv (RebuildIndexFromMmap
    (mkSsdBlockStore (ssd_capacity_bytes s) (ssd_slot_bytes s) (ssd_slot_payload_bytes s)
       (ssd_total_slots s) (ssd_usable_bytes s) (<[n := sl']> (ssd_slots s)) ∅ [] 0 0))) as Hi'.
  { apply ssd_Rebuild_inv; [done|]. simpl. intros k m id.
    rewrite !(ssd_live_at_dead _ _ _ sl) by done. apply (ssd_inv_unique s Hi). }
  split; [done|]. apply ssd_contents_same_live; [done|done|].
  rewrite ssd_Rebuild_slots, ssd_Rebuild_payload. simpl. intros m id d.
  setoid_rewrite list_lookup_insert_Some. split.
  - intros (x & [(<- & <- & _)|[_ Hx]] & Hl & H); [congruence|eauto].
  - intros (x & Hx & Hl & H). exists x. split; [|done]. right. split; [|done]. intros <-. congruence.
Qed.

(** ** Reachable states *)

(** What happens to a store between two restarts. *)
Inductive step : SsdBlockStore → SsdBlockStore → Prop :=
  | step_put b s : KvBlock_wf b → step s (Put b s).2
  | step_erase id s : step s (Erase id s).2.

Lemma ssd_step_inv s s' : step s s' → inv s → inv s'.
Proof. destruct 1; intros Hi; [by apply ssd_Put_inv|by apply ssd_Erase_inv]. Qed.

Lemma ssd_steps_inv s s' : rtc step s s' → inv s → inv s'.
Proof. induction 1; eauto using ssd_step_inv. Qed.

Lemma ssd_free_magic_clear_put b s :
  inv s → free_magic_clear s → free_magic_clear (Put b s).2.
Proof.
  intros Hi Hc. destruct (ssd_Put_cases b s Hi) as [[-> _]|[[-> _]|H]]; [done|done|].
  destruct H as (fr & n & sl & Hnone & Hsz & Hfr & Hsl & Hfree & ->). simpl.
  intros m x Hm. simpl in Hm |- *. rewrite list_lookup_insert_Some.
  intros [(<- & _)|[_ Hx]].
  - pose proof (inv_free_nodup s Hi) as Hnd. rewrite Hfr in Hnd.
    apply NoDup_app in Hnd as (_ & Hd & _). destruct (Hd n Hm). set_solver.
  - apply (Hc m x); [rewrite Hfr; set_solver|done].
Qed.

#[local] Transparent erase_writes.
Lemma ssd_free_magic_clear_erase id s :
  inv s → free_magic_clear s → free_magic_clear (Erase id s).2.
Proof.
  intros Hi Hc. unfold Erase. destruct (ssd_index s !! id) as [n|]; [|done]. simpl.
  intros m x. simpl. unfold write_slot. rewrite elem_of_app, list_elem_of_singleton.
  rewrite list_lookup_insert_Some. intros Hm [(<- & <- & _)|[Hne Hx]].
  - destruct (ssd_slots s !!! n) as [h p]. by destruct h.
  - destruct Hm as [Hm| ->]; [by apply (Hc m x)|done].
Qed.
#[local] Opaque erase_writes.

Lemma ssd_steps_free_magic_clear s s' :
  rtc step s s' → inv s → free_magic_clear s → free_magic_clear s'.
Proof.
  induction 1 as [|s1 s2 s3 Hs _ IH]; [done|]. intros Hi Hc.
  apply IH; [by eapply ssd_step_inv|].
  destruct Hs; auto using ssd_free_magic_clear_put, ssd_free_magic_clear_erase.
Qed.

(** A file of zero bytes, or a file that does not exist yet. *)
Lemma ssd_slots_of_zero_region sb total :
  slots_of_region sb total (replicate (total * sb) Byte.x00) =
  replicate total (slot_of_bytes (replicate sb Byte.x00)).
Proof.
  unfold slots_of_region. apply list_eq. intros n. rewrite list_lookup_fmap.
  destruct (decide (n < total)%nat).
  - rewrite lookup_seq_lt, lookup_replicate_2 by done. simpl. unfold slot_at. do 2 f_equal.
    rewrite drop_replicate, take_replicate. f_equal. nia.
  - rewrite lookup_seq_ge by lia. symmetry. apply lookup_replicate_None. lia.
Qed.

(** The argument ranges for which the constructor succeeds. *)
Record open_args (capacity slot : Z) : Prop := {
  oa_slot : Z.of_nat header_bytes < slot;
  oa_slot_max : slot - Z.of_nat header_bytes < 2 ^ 32;
  oa_capacity : slot ≤ capacity < 2 ^ 64
}.

Lemma ssd_open_store_any sys file capacity slot :
  open_args capacity slot →
  sys_open sys = true → sys_fstat sys = true → sys_ftruncate sys = true → sys_mmap sys = true →
  ∃ s0, open_store sys file capacity slot = inr (RebuildIndexFromMmap s0) ∧ geometry s0 ∧
    ssd_capacity_bytes s0 = capacity ∧ ssd_slot_bytes s0 = slot ∧
    ssd_slots s0 = slots_of_region (Z.to_nat slot) (Z.to_nat (capacity / slot))
      (resize (Z.to_nat (capacity / slot) * Z.to_nat slot) Byte.x00 file).
Proof.
  intros [H1 H2 H3] Ho Hf Hft Hm. unfold open_store.
  assert (1 ≤ capacity / slot) as Hq by (apply Z.div_le_lower_bound; unfold header_bytes in *; lia).
  pose proof (Z.mul_div_le capacity slot ltac:(unfold header_bytes in *; lia)) as Hqs.
  assert (0 ≤ slot - Z.of_nat header_bytes < 2 ^ 64) by (unfold header_bytes in *; lia).
  rewrite (u64_small (slot - _)) by done.
  replace (slot =? 0) with false by (unfold header_bytes in *; lia).
  replace (slot <=? Z.of_nat header_bytes) with false by lia.
  replace (Z.to_nat (capacity / slot) =? 0)%nat with false by (symmetry; apply Nat.eqb_neq; lia).
  rewrite Ho, Hf, Hft, Hm, andb_false_r. cbn [negb].
  assert (0 ≤ Z.of_nat (Z.to_nat (capacity / slot)) * (slot - Z.of_nat header_bytes) < 2 ^ 64)
    by (unfold header_bytes in *; nia).
  eexists. split; [reflexivity|]. simpl. split; [|done].
  split; cbn -[header_bytes Z.pow]; [lia|lia|done|lia|by apply u64_small|apply u64_range| |].
  - unfold slots_of_region. by rewrite length_fmap, length_seq.
  - replace (Z.to_nat slot) with (header_bytes + Z.to_nat (slot - Z.of_nat header_bytes))%nat
      by (unfold header_bytes in *; lia).
    apply slots_of_region_wf. by rewrite length_resize.
Qed.

Lemma ssd_zero_slot_dead P n :
  (0 < n)%nat → live P (slot_of_bytes (replicate n Byte.x00)) = false ∧
                h_magic (s_hdr (slot_of_bytes (replicate n Byte.x00))) = 0.
Proof. destruct n; [lia|]. intros _. split; reflexivity. Qed.

Lemma ssd_open_fresh sys capacity slot :
  open_args capacity slot →
  sys_open sys = true → sys_fstat sys = true → sys_ftruncate sys = true → sys_mmap sys = true →
  ∃ s, open_store sys [] capacity slot = inr s ∧ inv s ∧ contents s = ∅ ∧ free_magic_clear s.
Proof.
  intros Ha Ho Hf Hft Hm.
  destruct (ssd_open_store_any sys [] capacity slot Ha Ho Hf Hft Hm) as (s0 & Hs0 & Hg & _ & _ & Hsl).
  rewrite resize_nil, ssd_slots_of_zero_region in Hsl.
  assert (0 < Z.to_nat slot)%nat as Hpos by (destruct Ha; unfold header_bytes in *; lia).
  assert (∀ n sl, ssd_slots s0 !! n = Some sl →
    live (ssd_slot_payload_bytes s0) sl = false ∧ h_magic (s_hdr sl) = 0) as Hdead.
  { intros n sl. rewrite Hsl. intros [-> _]%lookup_replicate. by apply ssd_zero_slot_dead. }
  assert (inv (RebuildIndexFromMmap s0)) as Hi.
  { apply ssd_Rebuild_inv; [done|]. intros n m id (sl & H & Hl & _).
    apply Hdead in H as [? _]. congruence. }
  exists (RebuildIndexFromMmap s0). split_and!; [done|done| |].
  - apply map_empty. intros id. destruct (contents _ !! id) as [d|] eqn:E; [|done].
    apply ssd_contents_lookup_Some in E as (n & sl & H & Hl & _); [|done].
    rewrite ssd_Rebuild_slots in H. rewrite ssd_Rebuild_payload in Hl. apply Hdead in H as [? _]. congruence.
  - intros n sl _. rewrite ssd_Rebuild_slots. intros [_ H]%Hdead. by rewrite H.
Qed.

(** ** Properties *)

(** C8 (restart): whatever insertions and erases ran since the store was
    opened, reopening the file that the process leaves behind succeeds and
    yields the same index, the same byte count and the same answer to every
    read, including the epoch and the payload bytes. *)
Theorem ssd_restart_roundtrip sys s :
  inv s → sys_open sys = true → sys_fstat sys = true → sys_mmap sys = true →
  ∃ s', open_store sys (file_bytes s) (ssd_capacity_bytes s) (ssd_slot_bytes s) = inr s' ∧
        inv s' ∧ ssd_index s' = ssd_index s ∧ ssd_used_bytes s' = ssd_used_bytes s ∧
        (∀ id, GetCopy id s' = GetCopy id s).
Proof.
  intros Hi Ho Hf Hm. exists (RebuildIndexFromMmap s).
  assert (inv (RebuildIndexFromMmap s)) as Hi'.
  { apply ssd_Rebuild_inv; [by apply ssd_inv_geometry|by apply ssd_inv_unique]. }
  split_and!; [by apply ssd_open_store_region; [apply ssd_inv_geometry|..]|done|by apply ssd_Rebuild_index| |].
  - by rewrite (inv_used_contents _ Hi'), (inv_used_contents _ Hi), ssd_Rebuild_contents.
  - intros id. by rewrite !ssd_GetCopy_spec, ssd_Rebuild_index, ssd_Rebuild_slots by done.
Qed.

(** C9 (torn writes): in a store whose free slots carry no live magic, a process
    killed after any proper prefix of the writes of an insertion leaves a file
    that reopens with exactly the blocks that were there before; the half-written
    slot is not visible.  A store that was opened on a new file has this
    condition, and insertions and erasures keep it
    ([ssd_steps_free_magic_clear]); an opening that reclaims a slot with a live
    magic and a wrong checksum does not establish it, and then a torn insertion
    can come back ([ssd_reclaimed_slot_torn_put]). *)
Theorem ssd_torn_put_invisible sys k b s :
  inv s → free_magic_clear s → KvBlock_wf b → (k < length (put_writes b))%nat →
  sys_open sys = true → sys_fstat sys = true → sys_mmap sys = true →
  ∃ s', open_store sys (put_killed k b s) (ssd_capacity_bytes s) (ssd_slot_bytes s) = inr s' ∧
        inv s' ∧ contents s' = contents s.
Proof.
  intros Hi Hc Hw Hk Ho Hf Hm.
  assert (∃ s', open_store sys (file_bytes s) (ssd_capacity_bytes s) (ssd_slot_bytes s) = inr s' ∧
                inv s' ∧ contents s' = contents s) as Hsame.
  { exists (RebuildIndexFromMmap s).
    split_and!; [by apply ssd_open_store_region; [apply ssd_inv_geometry|..]| |by apply ssd_Rebuild_contents].
    apply ssd_Rebuild_inv; [by apply ssd_inv_geometry|by apply ssd_inv_unique]. }
  unfold put_killed. destruct (_ >? _) eqn:Hsz; zbool; [done|].
  destruct (ssd_index s !! kv_id b); [done|].
  destruct (AllocSlot s) as [[n s1]|] eqn:Ha; [|done].
  apply ssd_AllocSlot_Some in Ha as (fr & Hfr & ->); [|done]. simpl.
  assert (n ∈ ssd_free_slots s) as Hn by (rewrite Hfr; set_solver).
  destruct (proj1 (inv_free s Hi n) Hn) as (sl & Hsl & Hdead).
  unfold write_slot. rewrite (ssd_lookup_total_Some _ _ _ Hsl).
  eapply ssd_open_dead_slot; try done.
  - unfold live. rewrite ssd_put_writes_magic by done.
    rewrite (proj2 (Z.eqb_neq _ _)) by (by apply (Hc n)). done.
  - apply ssd_apply_writes_wf; [by apply (Forall_lookup_1 _ _ _ _ (inv_slots_wf s Hi) Hsl)|].
    apply Forall_take, ssd_put_writes_ok; [done|]. pose proof (inv_payload s Hi). lia.
Qed.

(** Reachable states: starting from a file that does not exist, every
    sequence of insertions and erases keeps the index, the free list, the slot
    array and the byte counter consistent, and the counter never exceeds the
    usable capacity. *)
Theorem ssd_reachable_consistent sys capacity slot s0 s :
  open_args capacity slot →
  sys_open sys = true → sys_fstat sys = true → sys_ftruncate sys = true → sys_mmap sys = true →
  open_store sys [] capacity slot = inr s0 → rtc step s0 s →
  inv s ∧ free_magic_clear s ∧ 0 ≤ used_bytes s ≤ capacity_bytes s.
Proof.
  intros Ha Ho Hf Hft Hm E Hr.
  destruct (ssd_open_fresh sys capacity slot Ha Ho Hf Hft Hm) as (s1 & E1 & Hi & _ & Hc).
  assert (s1 = s0) as -> by congruence.
  pose proof (ssd_steps_inv _ _ Hr Hi). split_and!; [done|by eapply ssd_steps_free_magic_clear|..];
    by apply ssd_used_bound.
Qed.

(** ** Concrete stores *)

#[local] Transparent put_writes erase_writes.

(** Two slots of 66 bytes, one block of two bytes. *)
Definition wit_ssd0 : SsdBlockStore :=
  match open_store sys_ok [] 132 66 with
  | inr s => s
  | inl _ => mkSsdBlockStore 0 0 0 0 0 [] ∅ [] 0 0
  end.

Definition wit_block : KvBlock :=
  mkKvBlock (block_id_of_byte Byte.x01) [Byte.x0a; Byte.x0b] DRAM 7.

Definition wit_ssd1 : SsdBlockStore := (Put wit_block wit_ssd0).2.

Lemma wit_block_wf : KvBlock_wf wit_block.
Proof. by repeat split. Qed.

Lemma wit_ssd0_spec :
  open_store sys_ok [] 132 66 = inr wit_ssd0 ∧ inv wit_ssd0 ∧ free_magic_clear wit_ssd0 ∧
  contents wit_ssd0 = ∅.
Proof.
  destruct (ssd_open_fresh sys_ok 132 66) as (s & E & Hi & He & Hc); [by split|done..|].
  unfold wit_ssd0. rewrite E. done.
Qed.

Lemma wit_ssd1_inv : inv wit_ssd1.
Proof. apply ssd_Put_inv; [apply wit_ssd0_spec|apply wit_block_wf]. Qed.

Lemma ssd_restart_roundtrip_witness :
  (∃ s', open_store sys_ok (file_bytes wit_ssd1) (ssd_capacity_bytes wit_ssd1)
           (ssd_slot_bytes wit_ssd1) = inr s' ∧
        inv s' ∧ ssd_index s' = ssd_index wit_ssd1 ∧
        ssd_used_bytes s' = ssd_used_bytes wit_ssd1 ∧
        (∀ id, GetCopy id s' = GetCopy id wit_ssd1)) ∧
  kv_data <$> GetCopy (kv_id wit_block) wit_ssd1 = Some [Byte.x0a; Byte.x0b].
Proof.
  split; [|by vm_compute].
  apply (ssd_restart_roundtrip sys_ok wit_ssd1); [apply wit_ssd1_inv|done|done|done].
Defined.

Lemma ssd_torn_put_invisible_witness :
  ∃ s', open_store sys_ok (put_killed 5 wit_block wit_ssd0) (ssd_capacity_bytes wit_ssd0)
          (ssd_slot_bytes wit_ssd0) = inr s' ∧
        inv s' ∧ contents s' = contents wit_ssd0.
Proof.
  apply (ssd_torn_put_invisible sys_ok 5 wit_block wit_ssd0);
    [apply wit_ssd0_spec|apply wit_ssd0_spec|apply wit_block_wf|vm_compute; lia|done|done|done].
Defined.

Lemma ssd_reachable_consistent_witness :
  inv wit_ssd1 ∧ free_magic_clear wit_ssd1 ∧
  0 ≤ used_bytes wit_ssd1 ≤ capacity_bytes wit_ssd1.
Proof.
  apply (ssd_reachable_consistent sys_ok 132 66 wit_ssd0 wit_ssd1);
    [by split|done|done|done|done|apply wit_ssd0_spec|].
  apply rtc_once, step_put, wit_block_wf.
Defined.

(** ** A reclaimed corrupt slot *)

(** A file of one slot whose header bytes are all 0xA5: the magic is live but
    the payload size does not fit, so the scan reclaims the slot and leaves
    the magic byte in place. *)
Definition corrupt_file : bytes := replicate 66 Byte.xa5.

Definition corrupt_ssd : SsdBlockStore :=
  match open_store sys_ok corrupt_file 66 66 with inr s => s | inl _ => wit_ssd0 end.

(** Torn write into a reclaimed slot: when the slot that [Put] takes was
    reclaimed from a corrupt header, a process killed after the payload size
    was written leaves a file in which the slot reads as live, and the reopened
    store serves a block that nobody inserted.  The ordering "magic last" does
    not protect such a slot because its magic is live all along. *)
Theorem ssd_reclaimed_slot_torn_put :
  open_store sys_ok corrupt_file 66 66 = inr corrupt_ssd ∧
  contents corrupt_ssd = ∅ ∧
  match open_store sys_ok (put_killed 4 wit_block corrupt_ssd) 66 66 with
  | inr s' =>
      contents s' !! mkBlockId (hash_of_byte Byte.xa5) 0xA5A5A5A5 0xA5A5A5A5 0xA5A5A5A5 =
        Some (kv_data wit_block)
  | inl _ => False
  end.
Proof. split_and!; vm_compute; reflexivity. Qed.
