(* ===== verification/TieredStore.v ===== *)
(** * Tiered store (tiered_store.hpp, tiered_store.cpp)

    Three tiers, the per-block access counters and the SIEVE visited bits.
    The record and the operations are written over any two tier
    implementations (the memory tiers [M] and the disk tier [D]); the program
    uses [BlockStore] and [SsdBlockStore].  The theorems are proved from the
    interface [TierStoreSpec] alone: the tiered store refines one abstract
    finite map from block identity to payload. *)
From S2P Require Import Prelude Types TierStore BlockStore SsdBlockStore.

Record TieredStoreConfig : Type := mkTieredStoreConfig {
  hbm_bytes : Z;
  dram_bytes : Z;
  ssd_bytes : Z;
  ssd_path : string;
  enable_promotion : bool;
  promotion_access_threshold : Z;   (* std::uint32_t *)
  cfg_ssd_slot_bytes : Z
}.

Record GetResult : Type := mkGetResult {
  gr_data : bytes;
  gr_tier_found : Tier;
  gr_promoted : bool
}.

Record Tiered (M D : Type) : Type := mkTiered {
  t_cfg : TieredStoreConfig;
  t_hbm : option M;
  t_dram : option M;
  t_ssd : option D;
  t_access_counts : gmap BlockId Z;   (* std::uint32_t counters *)
  t_visited : gset BlockId
}.
Arguments mkTiered {M D}.
Arguments t_cfg {M D}.
Arguments t_hbm {M D}.
Arguments t_dram {M D}.
Arguments t_ssd {M D}.
Arguments t_access_counts {M D}.
Arguments t_visited {M D}.

(** The store of the program. *)
Abbreviation TieredStore := (Tiered BlockStore SsdBlockStore).

(** The members after construction: no HBM tier when its size is zero, always a
    DRAM tier, the disk tier [ssd]. *)
Definition new_store (cfg : TieredStoreConfig) (ssd : option SsdBlockStore) : TieredStore :=
  mkTiered cfg
    (if hbm_bytes cfg >? 0 then Some (empty_store HBM (hbm_bytes cfg)) else None)
    (Some (empty_store DRAM (dram_bytes cfg))) ssd ∅ ∅.

(** The constructor.  [file] is the content of the data file that the path
    names (a directory path gets the fixed file name appended), [sys] the
    outcome of the system calls made to map it. *)
Definition make_store (sys : SysCalls) (file : bytes) (cfg : TieredStoreConfig) :
    SsdError + TieredStore :=
  if (ssd_bytes cfg >? 0) && negb (String.eqb (ssd_path cfg) "")
  then match open_store sys file (ssd_bytes cfg) (cfg_ssd_slot_bytes cfg) with
       | inl e => inl e
       | inr ssd => inr (new_store cfg (Some ssd))
       end
  else inr (new_store cfg None).

Section operations.
Context {M D : Type} `{TierStore M} `{TierStore D}.
Implicit Types st : Tiered M D.

Definition with_hbm st (h : M) : Tiered M D :=
  mkTiered (t_cfg st) (Some h) (t_dram st) (t_ssd st) (t_access_counts st) (t_visited st).
Definition with_dram st (d : M) : Tiered M D :=
  mkTiered (t_cfg st) (t_hbm st) (Some d) (t_ssd st) (t_access_counts st) (t_visited st).
Definition with_ssd st (d : D) : Tiered M D :=
  mkTiered (t_cfg st) (t_hbm st) (t_dram st) (Some d) (t_access_counts st) (t_visited st).
Definition with_books st (c : gmap BlockId Z) (v : gset BlockId) : Tiered M D :=
  mkTiered (t_cfg st) (t_hbm st) (t_dram st) (t_ssd st) c v.

Definition PutToTier (block : KvBlock) (tier : Tier) st : bool * Tiered M D :=
  match tier with
  | HBM => match t_hbm st with
           | Some h => let '(r, h') := ts_put block h in (r, with_hbm st h')
           | None => (false, st)
           end
  | DRAM => match t_dram st with
            | Some d => let '(r, d') := ts_put block d in (r, with_dram st d')
            | None => (false, st)
            end
  | SSD => match t_ssd st with
           | Some d => let '(r, d') := ts_put block d in (r, with_ssd st d')
           | None => (false, st)
           end
  end.

Definition EraseFromTier (id : BlockId) (tier : Tier) st : Z * Tiered M D :=
  match tier with
  | HBM => match t_hbm st with
           | Some h => let '(n, h') := ts_erase id h in (n, with_hbm st h')
           | None => (0, st)
           end
  | DRAM => match t_dram st with
            | Some d => let '(n, d') := ts_erase id d in (n, with_dram st d')
            | None => (0, st)
            end
  | SSD => match t_ssd st with
           | Some d => let '(n, d') := ts_erase id d in (n, with_ssd st d')
           | None => (0, st)
           end
  end.

(** [hbm_->Get(id)] and its siblings; a tier that does not exist has nothing. *)
Definition tier_get (id : BlockId) (tier : Tier) st : option bytes :=
  match tier with
  | HBM => t_hbm st ≫= ts_get id
  | DRAM => t_dram st ≫= ts_get id
  | SSD => t_ssd st ≫= ts_get id
  end.

Definition bytes_empty (bs : bytes) : bool := match bs with [] => true | _ => false end.

(** The lookup order HBM, DRAM, SSD: each tier is consulted only while the
    bytes gathered so far are empty. *)
Definition probe (id : BlockId) st : Tier * bytes :=
  let r := match tier_get id HBM st with Some sp => (HBM, sp) | None => (SSD, []) end in
  let r := if bytes_empty r.2
           then match tier_get id DRAM st with Some sp => (DRAM, sp) | None => r end else r in
  if bytes_empty r.2
  then match tier_get id SSD st with Some sp => (SSD, sp) | None => r end else r.

(** The tier a hit on [found] is promoted to; [found] itself means none. *)
Definition promotion_target (found : Tier) st : Tier :=
  let target := match found with SSD => DRAM | _ => HBM end in
  match target, t_hbm st with HBM, None => DRAM | _, _ => target end.

Definition promote (id : BlockId) (found : Tier) (bs : bytes) (count : Z) st :
    bool * Tiered M D :=
  if enable_promotion (t_cfg st) &&
     (count >=? promotion_access_threshold (t_cfg st)) &&
     negb (bool_decide (found = HBM))
  then
    let target := promotion_target found st in
    if bool_decide (target = found) then (false, st)
    else
      let promo := mkKvBlock id bs target 0 in
      let '(ok, st1) := PutToTier promo target st in
      if ok then (true, (EraseFromTier id found st1).2) else (false, st1)
  else (false, st).

Definition Get (id : BlockId) st : option GetResult * Tiered M D :=
  let '(found, bs) := probe id st in
  if bytes_empty bs && bool_decide (found = SSD) then (None, st)
  else
    let count := default 0 (t_access_counts st !! id) +₃₂ 1 in
    let st1 := with_books st (<[id := count]> (t_access_counts st)) ({[id]} ∪ t_visited st) in
    let '(promoted, st2) := promote id found bs count st1 in
    (Some (mkGetResult bs found promoted), st2).

(** [kFallthrough], one row per hint. *)
Definition fallthrough (hint : Tier) : list Tier :=
  match hint with
  | HBM => [HBM; DRAM; SSD]
  | DRAM => [DRAM; SSD; SSD]
  | SSD => [SSD; SSD; SSD]
  end.

(** The candidate loop of [Put]: the SSD entry ends the chain. *)
Fixpoint put_chain (block : KvBlock) (row : list Tier) st : option Tier * Tiered M D :=
  match row with
  | [] => (None, st)
  | candidate :: row =>
      let '(ok, st1) := PutToTier block candidate st in
      if ok then (Some candidate, st1)
      else if bool_decide (candidate = SSD) then (None, st1)
      else put_chain block row st1
  end.

Definition Put (block : KvBlock) (hint : Tier) st : option Tier * Tiered M D :=
  put_chain block (fallthrough hint) st.

(** The block that a demotion writes: a fresh record with the payload. *)
Definition demoted (id : BlockId) (bs : bytes) (t : Tier) : KvBlock := mkKvBlock id bs t 0.

Definition Demote (id : BlockId) st : bool * Tiered M D :=
  match tier_get id HBM st with
  | Some span =>
      let '(ok, st1) := PutToTier (demoted id span DRAM) DRAM st in
      if ok then (true, (EraseFromTier id HBM st1).2)
      else
        let '(ok2, st2) := PutToTier (demoted id span SSD) SSD st1 in
        if ok2 then (true, (EraseFromTier id HBM st2).2) else (false, st2)
  | None =>
      match tier_get id DRAM st with
      | Some span =>
          let '(ok, st1) := PutToTier (demoted id span SSD) SSD st in
          if ok then (true, (EraseFromTier id DRAM st1).2) else (false, st1)
      | None => (false, st)
      end
  end.

Definition Erase (id : BlockId) st : Z * Tiered M D :=
  let '(f1, st1) := EraseFromTier id HBM st in
  let '(f2, st2) := EraseFromTier id DRAM st1 in
  let '(f3, st3) := EraseFromTier id SSD st2 in
  (0 +₆₄ f1 +₆₄ f2 +₆₄ f3,
   with_books st3 (delete id (t_access_counts st3)) (t_visited st3 ∖ {[id]})).

Definition used_bytes (t : Tier) st : Z :=
  match t with
  | HBM => from_option ts_used 0 (t_hbm st)
  | DRAM => from_option ts_used 0 (t_dram st)
  | SSD => from_option ts_used 0 (t_ssd st)
  end.

Definition capacity_bytes (t : Tier) st : Z :=
  match t with
  | HBM => from_option ts_capacity 0 (t_hbm st)
  | DRAM => from_option ts_capacity 0 (t_dram st)
  | SSD => from_option ts_capacity 0 (t_ssd st)
  end.

(** The iteration orders that one snapshot call may see. *)
Record SnapOrder : Type := mkSnapOrder { so_mem : ts_order (S := M); so_disk : ts_order (S := D) }.

Definition overlay_visited (v : gset BlockId) (m : BlockMeta) : BlockMeta :=
  mkBlockMeta (m_id m) (m_tier m) (m_size_bytes m) (m_last_access_epoch m) (m_insert_epoch m)
    (bool_decide (m_id m ∈ v)).

Definition Snapshot (o : SnapOrder) (t : Tier) st : list BlockMeta :=
  let out := match t with
             | HBM => from_option (ts_snapshot (so_mem o)) [] (t_hbm st)
             | DRAM => from_option (ts_snapshot (so_mem o)) [] (t_dram st)
             | SSD => from_option (ts_snapshot (so_disk o)) [] (t_ssd st)
             end in
  overlay_visited (t_visited st) <$> out.

Definition MarkVisited (id : BlockId) st : Tiered M D :=
  with_books st (t_access_counts st) ({[id]} ∪ t_visited st).

Definition ClearVisited (id : BlockId) st : Tiered M D :=
  with_books st (t_access_counts st) (t_visited st ∖ {[id]}).

Definition access_count_for_testing (id : BlockId) st : Z := default 0 (t_access_counts st !! id).
Definition visited_for_testing (id : BlockId) st : bool := bool_decide (id ∈ t_visited st).

End operations.
Arguments SnapOrder M D {_ _}.

(** ** Abstraction *)

Section spec.
Context {M D : Type} `{TierStoreSpec M} `{TierStoreSpec D}.
Implicit Types st : Tiered M D.

(** The blocks that one tier holds. *)
Definition tier_contents (t : Tier) st : gmap BlockId bytes :=
  match t with
  | HBM => from_option ts_contents ∅ (t_hbm st)
  | DRAM => from_option ts_contents ∅ (t_dram st)
  | SSD => from_option ts_contents ∅ (t_ssd st)
  end.

(** The abstract store: what a lookup in the order HBM, DRAM, SSD finds. *)
Definition contents st : gmap BlockId bytes :=
  tier_contents HBM st ∪ (tier_contents DRAM st ∪ tier_contents SSD st).

Definition resident (id : BlockId) st : Prop := is_Some (contents st !! id).

(** The tiers that exist satisfy their own invariants. *)
Record tiers_ok st : Prop := {
  ok_hbm h : t_hbm st = Some h → ts_inv h;
  ok_dram d : t_dram st = Some d → ts_inv d;
  ok_ssd d : t_ssd st = Some d → ts_inv d
}.

Record inv st : Prop := {
  inv_tiers : tiers_ok st;
  (* the three capacities together are addressable *)
  inv_capacities :
    capacity_bytes HBM st + capacity_bytes DRAM st + capacity_bytes SSD st < 2 ^ 64;
  (* copies of one block in several tiers agree, and no payload is empty *)
  inv_coherent t1 t2 id d1 d2 :
    tier_contents t1 st !! id = Some d1 → tier_contents t2 st !! id = Some d2 → d1 = d2;
  inv_nonempty t id d : tier_contents t st !! id = Some d → d ≠ [];
  (* what is stored satisfies the ranges of the types *)
  inv_blocks t id d : tier_contents t st !! id = Some d → BlockId_wf id ∧ size_of d < 2 ^ 63;
  (* the counters do not outlive the blocks *)
  inv_counts id : is_Some (t_access_counts st !! id) → resident id st
}.

Lemma tier_get_contents id t st : tiers_ok st → tier_get id t st = tier_contents t st !! id.
Proof.
  intros Hi. destruct t; simpl.
  - destruct (t_hbm st) as [h|] eqn:E; simpl; [apply ts_get_contents, (ok_hbm st Hi h E)|by rewrite lookup_empty].
  - destruct (t_dram st) as [d|] eqn:E; simpl; [apply ts_get_contents, (ok_dram st Hi d E)|by rewrite lookup_empty].
  - destruct (t_ssd st) as [d|] eqn:E; simpl; [apply ts_get_contents, (ok_ssd st Hi d E)|by rewrite lookup_empty].
Qed.

Lemma contents_lookup id st :
  contents st !! id =
  match tier_contents HBM st !! id with
  | Some d => Some d
  | None => match tier_contents DRAM st !! id with
            | Some d => Some d
            | None => tier_contents SSD st !! id
            end
  end.
Proof.
  unfold contents. rewrite !lookup_union.
  by destruct (tier_contents HBM st !! id), (tier_contents DRAM st !! id), (tier_contents SSD st !! id).
Qed.

(** Under coherence the abstract store holds [d] iff some tier does. *)
Lemma contents_lookup_Some id d st :
  inv st → contents st !! id = Some d ↔ ∃ t, tier_contents t st !! id = Some d.
Proof.
  intros Hi. rewrite contents_lookup. split.
  - repeat case_match; intros; simplify_eq; eauto.
  - intros [t Ht]. pose proof (inv_coherent st Hi) as Hc.
    destruct (tier_contents HBM st !! id) eqn:E1; [by rewrite (Hc _ _ _ _ _ E1 Ht)|].
    destruct (tier_contents DRAM st !! id) eqn:E2; [by rewrite (Hc _ _ _ _ _ E2 Ht)|].
    destruct t; congruence.
Qed.

Lemma contents_lookup_None id st :
  contents st !! id = None ↔ ∀ t, tier_contents t st !! id = None.
Proof.
  rewrite contents_lookup. split.
  - intros E t. repeat case_match; try done. destruct t; congruence.
  - intros Hn. by rewrite !Hn.
Qed.

Lemma resident_tier id st : resident id st ↔ ∃ t, is_Some (tier_contents t st !! id).
Proof.
  unfold resident. rewrite contents_lookup. split.
  - intros Hr. destruct (tier_contents HBM st !! id) eqn:E1; [exists HBM; by rewrite E1|].
    destruct (tier_contents DRAM st !! id) eqn:E2; [exists DRAM; by rewrite E2|].
    by exists SSD.
  - intros [t [d Ht]]. repeat case_match; try done. destruct t; simplify_eq; eauto.
Qed.

(** ** Effect of the two per-tier helpers *)

(** The part of the state that neither helper touches. *)
Record same_frame st st' : Prop := {
  sf_cfg : t_cfg st' = t_cfg st;
  sf_counts : t_access_counts st' = t_access_counts st;
  sf_visited : t_visited st' = t_visited st;
  sf_capacity t : capacity_bytes t st' = capacity_bytes t st;
  sf_hbm : t_hbm st' = None ↔ t_hbm st = None;
  sf_ssd : t_ssd st' = None ↔ t_ssd st = None
}.

Lemma same_frame_refl st : same_frame st st.
Proof. done. Qed.

Lemma same_frame_trans st1 st2 st3 :
  same_frame st1 st2 → same_frame st2 st3 → same_frame st1 st3.
Proof.
  intros [] []. split; try congruence.
  - by etrans.
  - by etrans.
Qed.

Record put_effect (b : KvBlock) (t : Tier) st st' : Prop := {
  pe_frame : same_frame st st';
  pe_ok : tiers_ok st';
  pe_contents t' : tier_contents t' st' =
    if decide (t' = t) then contents_put (kv_id b) (kv_data b) (tier_contents t st)
    else tier_contents t' st;
  pe_used t' : used_bytes t' st' = used_bytes t' st +
    (if decide (t' = t) then match tier_contents t st !! kv_id b with
                             | Some _ => 0 | None => size_of (kv_data b) end else 0)
}.

Record erase_effect (id : BlockId) (t : Tier) st (n : Z) st' : Prop := {
  ee_frame : same_frame st st';
  ee_ok : tiers_ok st';
  ee_contents t' : tier_contents t' st' =
    if decide (t' = t) then delete id (tier_contents t st) else tier_contents t' st;
  ee_used t' : used_bytes t' st' = used_bytes t' st - (if decide (t' = t) then n else 0);
  ee_freed : n = opt_size (tier_contents t st !! id)
}.

Lemma PutToTier_false b t st st' : tiers_ok st → PutToTier b t st = (false, st') → st' = st.
Proof.
  intros Hi. destruct t; simpl.
  - destruct (t_hbm st) as [h|] eqn:E; [|by intros [= <-]].
    destruct (ts_put b h) as [r h'] eqn:Ep. intros [= -> <-].
    apply ts_put_false in Ep as ->; [|by apply (ok_hbm st Hi)].
    destruct st; simpl in *. by subst.
  - destruct (t_dram st) as [h|] eqn:E; [|by intros [= <-]].
    destruct (ts_put b h) as [r h'] eqn:Ep. intros [= -> <-].
    apply ts_put_false in Ep as ->; [|by apply (ok_dram st Hi)].
    destruct st; simpl in *. by subst.
  - destruct (t_ssd st) as [h|] eqn:E; [|by intros [= <-]].
    destruct (ts_put b h) as [r h'] eqn:Ep. intros [= -> <-].
    apply ts_put_false in Ep as ->; [|by apply (ok_ssd st Hi)].
    destruct st; simpl in *. by subst.
Qed.

(** Closes the fields of an effect record for a state built by [with_hbm],
    [with_dram] or [with_ssd]; [Eh] is the old value of that tier. *)
Ltac solve_effect Hok Eh :=
  split;
  [ split; simpl; rewrite ?Eh; simpl; try done; intros []; simpl; rewrite ?Eh; simpl; done
  | split; simpl; intros; simplify_eq;
    first [done|by apply (ok_hbm _ Hok)|by apply (ok_dram _ Hok)|by apply (ok_ssd _ Hok)]
  | intros []; simpl; rewrite ?Eh; simpl; done
  | intros []; simpl; rewrite ?Eh; simpl; lia
  | .. ].

Lemma PutToTier_true b t st st' :
  tiers_ok st → KvBlock_wf b → PutToTier b t st = (true, st') → put_effect b t st st'.
Proof.
  intros Hok Hw E. destruct t; simpl in E.
  - destruct (t_hbm st) as [h|] eqn:Eh; [|done].
    destruct (ts_put b h) as [r h'] eqn:Ep. injection E as -> <-.
    destruct (ts_put_effect b h h' (ok_hbm st Hok h Eh) Hw Ep) as (Ha & Hb & Hc & Hd).
    solve_effect Hok Eh.
  - destruct (t_dram st) as [h|] eqn:Eh; [|done].
    destruct (ts_put b h) as [r h'] eqn:Ep. injection E as -> <-.
    destruct (ts_put_effect b h h' (ok_dram st Hok h Eh) Hw Ep) as (Ha & Hb & Hc & Hd).
    solve_effect Hok Eh.
  - destruct (t_ssd st) as [h|] eqn:Eh; [|done].
    destruct (ts_put b h) as [r h'] eqn:Ep. injection E as -> <-.
    destruct (ts_put_effect b h h' (ok_ssd st Hok h Eh) Hw Ep) as (Ha & Hb & Hc & Hd).
    solve_effect Hok Eh.
Qed.

(** Erasing from a tier that does not exist frees nothing. *)
Lemma erase_effect_absent id t st :
  tiers_ok st → tier_contents t st = ∅ → erase_effect id t st 0 st.
Proof.
  intros Hok E. split; [apply same_frame_refl|done|..].
  - intros t'. case_decide; [subst; by rewrite E, delete_empty|done].
  - intros t'. case_decide; lia.
  - by rewrite E, lookup_empty.
Qed.

Lemma EraseFromTier_effect id t st n st' :
  tiers_ok st → EraseFromTier id t st = (n, st') → erase_effect id t st n st'.
Proof.
  intros Hok E. destruct t; simpl in E.
  - destruct (t_hbm st) as [h|] eqn:Eh.
    2:{ injection E as <- <-. apply erase_effect_absent; [done|simpl; by rewrite Eh]. }
    destruct (ts_erase id h) as [r h'] eqn:Ep. injection E as <- <-.
    destruct (ts_erase_effect id h r h' (ok_hbm st Hok h Eh) Ep) as (Ha & Hb & Hc & Hd & He).
    solve_effect Hok Eh. simpl. by rewrite Eh.
  - destruct (t_dram st) as [h|] eqn:Eh.
    2:{ injection E as <- <-. apply erase_effect_absent; [done|simpl; by rewrite Eh]. }
    destruct (ts_erase id h) as [r h'] eqn:Ep. injection E as <- <-.
    destruct (ts_erase_effect id h r h' (ok_dram st Hok h Eh) Ep) as (Ha & Hb & Hc & Hd & He).
    solve_effect Hok Eh. simpl. by rewrite Eh.
  - destruct (t_ssd st) as [h|] eqn:Eh.
    2:{ injection E as <- <-. apply erase_effect_absent; [done|simpl; by rewrite Eh]. }
    destruct (ts_erase id h) as [r h'] eqn:Ep. injection E as <- <-.
    destruct (ts_erase_effect id h r h' (ok_ssd st Hok h Eh) Ep) as (Ha & Hb & Hc & Hd & He).
    solve_effect Hok Eh. simpl. by rewrite Eh.
Qed.

(** ** The abstract map that the tiers represent together *)

Record represents (m : gmap BlockId bytes) st : Prop := {
  rep_sound t id d : tier_contents t st !! id = Some d → m !! id = Some d;
  rep_complete id d : m !! id = Some d → ∃ t, tier_contents t st !! id = Some d
}.

(** What may be stored at all. *)
Definition storable (m : gmap BlockId bytes) : Prop :=
  ∀ id d, m !! id = Some d → d ≠ [] ∧ BlockId_wf id ∧ size_of d < 2 ^ 63.

Lemma inv_represents st : inv st → represents (contents st) st.
Proof.
  intros Hi. split; intros *; rewrite contents_lookup_Some by done; eauto.
Qed.

Lemma inv_storable st : inv st → storable (contents st).
Proof.
  intros Hi id d [t Ht]%contents_lookup_Some; [|done].
  split; [by apply (inv_nonempty st Hi t id)|by apply (inv_blocks st Hi t id)].
Qed.

Lemma represents_contents m st : represents m st → contents st = m.
Proof.
  intros [Hs Hc]. apply map_eq. intros id.
  destruct (m !! id) as [d|] eqn:E.
  - destruct (Hc id d E) as [t Ht]. rewrite contents_lookup.
    repeat case_match; try (rewrite <- E; symmetry; by eauto).
    destruct t; congruence.
  - apply contents_lookup_None. intros t.
    destruct (tier_contents t st !! id) as [d|] eqn:Et; [|done].
    apply Hs in Et. congruence.
Qed.

(** The invariant from the abstract map. *)
Lemma inv_of_represents m st :
  tiers_ok st →
  capacity_bytes HBM st + capacity_bytes DRAM st + capacity_bytes SSD st < 2 ^ 64 →
  represents m st → storable m →
  (∀ id, is_Some (t_access_counts st !! id) → is_Some (m !! id)) →
  inv st.
Proof.
  intros Hok Hcap Hr Hst Hcnt. pose proof (rep_sound m st Hr) as Hs. split; auto.
  - intros t1 t2 id d1 d2 Ha%Hs Hb%Hs. congruence.
  - intros t id d Ha%Hs. by apply (Hst id d).
  - intros t id d Ha%Hs. by apply (Hst id d).
  - intros id Hc. unfold resident. rewrite (represents_contents m st Hr). auto.
Qed.

(** As [inv_of_represents], for a state that differs in its tiers only. *)
Lemma inv_same_frame m st st' :
  inv st → same_frame st st' → tiers_ok st' → represents m st' → storable m →
  (∀ id, resident id st → is_Some (m !! id)) → inv st'.
Proof.
  intros Hi Hf Hok Hr Hst Hres. apply (inv_of_represents m); auto.
  - rewrite !(sf_capacity st st' Hf). apply (inv_capacities st Hi).
  - intros id. rewrite (sf_counts st st' Hf). intros Hc. by apply Hres, (inv_counts st Hi).
Qed.

(** ** Moving a block from one tier to another

    Promotion and demotion are both an insertion into the destination followed
    by an erase from the source. *)
Definition moved (id : BlockId) (from to : Tier) st st' : Prop :=
  same_frame st st' ∧ inv st' ∧ contents st' = contents st ∧
  tier_contents from st' !! id = None ∧ tier_contents to st' !! id = contents st !! id ∧
  (∀ t id', id ≠ id' → tier_contents t st' !! id' = tier_contents t st !! id') ∧
  (∀ t, t ≠ from → t ≠ to → tier_contents t st' = tier_contents t st).

Lemma wf_of_contents id d t st :
  inv st → contents st !! id = Some d → KvBlock_wf (mkKvBlock id d t 0).
Proof.
  intros Hi Hd. destruct (inv_storable st Hi id d Hd) as (_ & ? & ?). by split.
Qed.

Lemma move_effect id d from to st st1 n st2 :
  inv st → from ≠ to → tier_contents from st !! id = Some d →
  PutToTier (mkKvBlock id d to 0) to st = (true, st1) →
  EraseFromTier id from st1 = (n, st2) →
  moved id from to st st2.
Proof.
  intros Hi Hne Hd Hp He.
  assert (contents st !! id = Some d) as Hcd by (apply contents_lookup_Some; eauto).
  destruct (PutToTier_true _ _ _ _ (inv_tiers st Hi) (wf_of_contents id d to st Hi Hcd) Hp)
    as [Hf1 Hok1 Hc1 _].
  destruct (EraseFromTier_effect _ _ _ _ _ Hok1 He) as [Hf2 Hok2 Hc2 _ _].
  assert (∀ t, tier_contents t st2 =
    if decide (t = from) then delete id (tier_contents from st)
    else if decide (t = to) then contents_put id d (tier_contents to st)
    else tier_contents t st) as Hc.
  { intros t. rewrite Hc2, !Hc1. by repeat case_decide. }
  assert (tier_contents to st2 !! id = Some d) as Hto.
  { rewrite Hc. rewrite decide_False, decide_True, contents_put_lookup by congruence.
    destruct (tier_contents to st !! id) as [d'|] eqn:E; simpl; [|done].
    by rewrite (inv_coherent st Hi _ _ _ _ _ E Hd). }
  assert (∀ t id', id ≠ id' → tier_contents t st2 !! id' = tier_contents t st !! id') as Hoth.
  { intros t id' Hid. rewrite Hc. repeat case_decide; subst; [|by apply contents_put_lookup_ne|done].
    by apply lookup_delete_ne. }
  assert (tier_contents from st2 !! id = None) as Hfrom
    by (rewrite Hc, decide_True by done; apply lookup_delete_eq).
  pose proof (same_frame_trans _ _ _ Hf1 Hf2) as Hf.
  assert (represents (contents st) st2) as Hr.
  { split.
    - intros t id' d'. destruct (decide (id = id')) as [<-|Hid].
      + intros Ht. rewrite Hc in Ht. repeat case_decide; subst.
        * by rewrite lookup_delete_eq in Ht.
        * rewrite Hc, decide_False, decide_True in Hto by congruence. congruence.
        * apply contents_lookup_Some; eauto.
      + rewrite Hoth by done. intros. apply contents_lookup_Some; eauto.
    - intros id' d' [t Ht]%contents_lookup_Some; [|done].
      destruct (decide (id = id')) as [<-|Hid].
      + exists to. rewrite Hto. f_equal. by apply (inv_coherent st Hi from t id).
      + exists t. by rewrite Hoth. }
  split_and!; auto.
  - eapply inv_same_frame; eauto. by apply inv_storable.
  - by apply represents_contents.
  - by rewrite Hto.
  - intros t ??. rewrite Hc. by rewrite !decide_False.
Qed.

(** ** Get *)

(** No faster tier than [t] holds the block. *)
Definition first_tier (t : Tier) (id : BlockId) st : Prop :=
  match t with
  | HBM => True
  | DRAM => tier_contents HBM st !! id = None
  | SSD => tier_contents HBM st !! id = None ∧ tier_contents DRAM st !! id = None
  end.

Lemma bytes_empty_false (d : bytes) : d ≠ [] → bytes_empty d = false.
Proof. by destruct d. Qed.

Lemma probe_hit id d st :
  inv st → contents st !! id = Some d →
  ∃ t, probe id st = (t, d) ∧ tier_contents t st !! id = Some d ∧ first_tier t id st.
Proof.
  intros Hi Hd. unfold probe. rewrite !tier_get_contents by apply Hi.
  assert (d ≠ []) as Hne by (by apply (inv_storable st Hi id)).
  rewrite contents_lookup in Hd. destruct d as [|x d]; [done|].
  destruct (tier_contents HBM st !! id) as [d1|] eqn:E1.
  { injection Hd as ->. by exists HBM. }
  destruct (tier_contents DRAM st !! id) as [d2|] eqn:E2.
  { injection Hd as ->. by exists DRAM. }
  exists SSD. by rewrite Hd.
Qed.

Lemma probe_miss id st : inv st → contents st !! id = None → probe id st = (SSD, []).
Proof.
  intros Hi Hn. rewrite contents_lookup_None in Hn. unfold probe.
  rewrite !tier_get_contents, !Hn by apply Hi. done.
Qed.

(** What counting an access leaves unchanged. *)
Lemma inv_with_books st c v :
  inv st → (∀ id, is_Some (c !! id) → resident id st) → inv (with_books st c v).
Proof.
  intros Hi Hc. apply (inv_of_represents (contents st)).
  - destruct (inv_tiers st Hi). by split.
  - apply (inv_capacities st Hi).
  - destruct (inv_represents st Hi). by split.
  - by apply inv_storable.
  - exact Hc.
Qed.

(** The condition under which a hit is promoted: the policy asks for it, there
    is a faster tier to go to, and that tier accepts the block. *)
Definition promotes (id : BlockId) (found : Tier) (d : bytes) (count : Z) st : bool :=
  let target := promotion_target found st in
  enable_promotion (t_cfg st) && (count >=? promotion_access_threshold (t_cfg st)) &&
  negb (bool_decide (found = HBM)) && negb (bool_decide (target = found)) &&
  (PutToTier (mkKvBlock id d target 0) target st).1.

(** The promotion step either does nothing or moves the block one tier up. *)
Lemma promote_cases id found d count st :
  inv st → tier_contents found st !! id = Some d →
  if promotes id found d count st
  then ∃ st', promote id found d count st = (true, st') ∧
              moved id found (promotion_target found st) st st'
  else promote id found d count st = (false, st).
Proof.
  intros Hi Hd. unfold promote, promotes.
  destruct (enable_promotion (t_cfg st)); [|done].
  destruct (count >=? _); [|done].
  destruct (bool_decide (found = HBM)); [done|]. cbn [negb andb].
  case_bool_decide as Ht; [done|]. cbn [negb andb].
  destruct (PutToTier _ _ _) as [ok st1] eqn:Ep. destruct ok; cbn [fst].
  - destruct (EraseFromTier id found st1) as [n st2] eqn:Ee. exists st2.
    split; [done|]. by eapply move_effect.
  - by rewrite (PutToTier_false _ _ _ _ (inv_tiers st Hi) Ep).
Qed.

Lemma PutToTier_books b t st c v : (PutToTier b t (with_books st c v)).1 = (PutToTier b t st).1.
Proof. destruct t; simpl; case_match; try done; by destruct (ts_put _ _). Qed.

Lemma promotes_books id found d count st c v :
  promotes id found d count (with_books st c v) = promotes id found d count st.
Proof. unfold promotes. by rewrite PutToTier_books. Qed.

Definition count_access (id : BlockId) st : Tiered M D :=
  with_books st (<[id := default 0 (t_access_counts st !! id) +₃₂ 1]> (t_access_counts st))
    ({[id]} ∪ t_visited st).

Lemma inv_count_access id st : inv st → resident id st → inv (count_access id st).
Proof.
  intros Hi Hr. apply inv_with_books; [done|]. intros id'.
  destruct (decide (id = id')) as [<-|]; [done|].
  rewrite lookup_insert_ne by done. apply (inv_counts st Hi).
Qed.

Lemma Get_miss id st : inv st → contents st !! id = None → Get id st = (None, st).
Proof. intros. unfold Get. by rewrite probe_miss. Qed.

(** The value of the access counter after one more access. *)
Definition next_count (id : BlockId) st : Z := default 0 (t_access_counts st !! id) +₃₂ 1.

Lemma Get_hit id d st :
  inv st → contents st !! id = Some d →
  ∃ t st', Get id st = (Some (mkGetResult d t (promotes id t d (next_count id st) st)), st') ∧
    tier_contents t st !! id = Some d ∧ first_tier t id st ∧
    if promotes id t d (next_count id st) st
    then moved id t (promotion_target t st) (count_access id st) st'
    else st' = count_access id st.
Proof.
  intros Hi Hd. destruct (probe_hit id d st Hi Hd) as (t & Hp & Ht & Hfirst).
  unfold Get. rewrite Hp, bytes_empty_false by (by apply (inv_storable st Hi id)). cbn [andb].
  assert (inv (count_access id st)) as Hi' by (apply inv_count_access; [done|by exists d]).
  pose proof (promote_cases id t d (next_count id st) (count_access id st) Hi'
                ltac:(by destruct t)) as Hpc.
  unfold count_access in Hpc at 1. rewrite promotes_books in Hpc.
  change (with_books st _ _) with (count_access id st).
  change (default 0 _ +₃₂ 1) with (next_count id st). exists t.
  destruct (promotes id t d (next_count id st) st).
  - destruct Hpc as (st' & -> & Hm). by exists st'.
  - rewrite Hpc. by exists (count_access id st).
Qed.

Lemma Get_effect id st :
  inv st →
  inv (Get id st).2 ∧ contents (Get id st).2 = contents st ∧
  gr_data <$> (Get id st).1 = contents st !! id.
Proof.
  intros Hi. destruct (contents st !! id) as [d|] eqn:Hd.
  2:{ by rewrite Get_miss. }
  destruct (Get_hit id d st Hi Hd) as (t & st' & -> & _ & _ & Hst').
  destruct (promotes _ _ _ _ _); simpl.
  - by destruct Hst' as (_ & ? & -> & _).
  - subst st'. split; [apply inv_count_access; [done|by exists d]|done].
Qed.

(** ** Put *)

(** Writers that agree on the payload of an identity. *)
Definition agrees (b : KvBlock) (m : gmap BlockId bytes) : Prop :=
  ∀ d, m !! kv_id b = Some d → d = kv_data b.

Lemma PutToTier_effect b t st st' :
  inv st → KvBlock_wf b → kv_data b ≠ [] → agrees b (contents st) →
  PutToTier b t st = (true, st') →
  inv st' ∧ contents st' = <[kv_id b := kv_data b]> (contents st) ∧ same_frame st st'.
Proof.
  intros Hi Hw Hne Ha Hp.
  destruct (PutToTier_true _ _ _ _ (inv_tiers st Hi) Hw Hp) as [Hf Hok Hc _].
  pose proof (inv_represents st Hi) as [Hs Hcm].
  assert (tier_contents t st' !! kv_id b = Some (kv_data b)) as Hhere.
  { rewrite Hc, decide_True, contents_put_lookup by done.
    destruct (tier_contents t st !! kv_id b) as [d|] eqn:E; [|done].
    simpl. f_equal. by apply Ha, (Hs t). }
  assert (∀ t' id', kv_id b ≠ id' → tier_contents t' st' !! id' = tier_contents t' st !! id') as Hoth.
  { intros t' id' ?. rewrite Hc. case_decide; [subst; by apply contents_put_lookup_ne|done]. }
  assert (represents (<[kv_id b := kv_data b]> (contents st)) st') as Hr.
  { split.
    - intros t' id' d' Hl. destruct (decide (kv_id b = id')) as [<-|Hid].
      + rewrite lookup_insert_eq. destruct (decide (t' = t)) as [->|]; [congruence|].
        rewrite Hc, decide_False in Hl by done. f_equal. symmetry. by apply Ha, (Hs t').
      + rewrite lookup_insert_ne by done. apply (Hs t'). by rewrite <- Hoth.
    - intros id' d'. destruct (decide (kv_id b = id')) as [<-|Hid].
      + rewrite lookup_insert_eq. intros [= <-]. eauto.
      + rewrite lookup_insert_ne by done. intros [t' Ht']%Hcm. exists t'. by rewrite Hoth. }
  split_and!; [|by apply represents_contents|done].
  eapply inv_same_frame; eauto.
  - intros id' d'. destruct (decide (kv_id b = id')) as [<-|Hid].
    + rewrite lookup_insert_eq. intros [= <-]. destruct Hw. by split_and!.
    + rewrite lookup_insert_ne by done. by apply inv_storable.
  - intros id'. destruct (decide (kv_id b = id')) as [<-|Hid].
    + by rewrite lookup_insert_eq.
    + by rewrite lookup_insert_ne.
Qed.

Lemma put_chain_effect b row st r st' :
  inv st → KvBlock_wf b → kv_data b ≠ [] → agrees b (contents st) →
  put_chain b row st = (r, st') →
  match r with
  | Some t => inv st' ∧ contents st' = <[kv_id b := kv_data b]> (contents st) ∧
              same_frame st st' ∧ t ∈ row ∧ PutToTier b t st = (true, st')
  | None => st' = st
  end.
Proof.
  intros Hi Hw Hne Ha. revert r st'. induction row as [|t row IH]; simpl; intros r st'.
  { by intros [= <- <-]. }
  destruct (PutToTier b t st) as [ok st1] eqn:Ep. destruct ok.
  - intros [= <- <-]. destruct (PutToTier_effect b t st st1) as (?&?&?); auto.
    split_and!; auto. by left.
  - rewrite (PutToTier_false _ _ _ _ (inv_tiers st Hi) Ep).
    case_bool_decide; [by intros [= <- <-]|]. intros E. specialize (IH _ _ E).
    destruct r; [|done]. destruct IH as (?&?&?&?&?). split_and!; auto. by right.
Qed.

(** ** Demote *)

(** [to] is a slower tier than [from]. *)
Definition slower (from to : Tier) : Prop := Tier_to_Z from < Tier_to_Z to.

Lemma Demote_cases id st :
  inv st →
  Demote id st = (false, st) ∨
  ∃ st' from to, Demote id st = (true, st') ∧ moved id from to st st' ∧ slower from to ∧
    first_tier from id st ∧ is_Some (tier_contents from st !! id).
Proof.
  intros Hi. unfold Demote. rewrite !tier_get_contents by apply Hi.
  destruct (tier_contents HBM st !! id) as [d|] eqn:E1.
  { destruct (PutToTier (demoted id d DRAM) DRAM st) as [ok st1] eqn:Ep. destruct ok.
    - right. destruct (EraseFromTier id HBM st1) as [n st2] eqn:Ee.
      exists st2, HBM, DRAM. split_and!; [done|by eapply move_effect|done|done|by rewrite E1].
    - apply (PutToTier_false _ _ _ _ (inv_tiers st Hi)) in Ep as ->.
      destruct (PutToTier (demoted id d SSD) SSD st) as [ok st1] eqn:Ep. destruct ok.
      + right. destruct (EraseFromTier id HBM st1) as [n st2] eqn:Ee.
        exists st2, HBM, SSD. split_and!; [done|by eapply move_effect|done|done|by rewrite E1].
      + left. by rewrite (PutToTier_false _ _ _ _ (inv_tiers st Hi) Ep). }
  destruct (tier_contents DRAM st !! id) as [d|] eqn:E2; [|by left].
  destruct (PutToTier (demoted id d SSD) SSD st) as [ok st1] eqn:Ep. destruct ok.
  - right. destruct (EraseFromTier id DRAM st1) as [n st2] eqn:Ee.
    exists st2, DRAM, SSD. split_and!; [done|by eapply move_effect|done|done|by rewrite E2].
  - left. by rewrite (PutToTier_false _ _ _ _ (inv_tiers st Hi) Ep).
Qed.

Lemma Demote_effect id st :
  inv st → inv (Demote id st).2 ∧ contents (Demote id st).2 = contents st.
Proof.
  intros Hi. destruct (Demote_cases id st Hi) as [->|(st' & from & to & -> & Hm & _)]; [done|].
  by destruct Hm as (_ & ? & ? & _).
Qed.

(** ** Erase *)

Lemma tier_size_le_capacity t id st :
  tiers_ok st → 0 ≤ opt_size (tier_contents t st !! id) ≤ capacity_bytes t st.
Proof.
  intros Hok. split; [auto with lethe|].
  assert (∀ (S : Type) `{TierStoreSpec S} (s : S), ts_inv s →
            opt_size (ts_contents s !! id) ≤ ts_capacity s) as Hle.
  { intros S HS HSp s Hs. pose proof (ts_used_le_capacity s Hs). pose proof (ts_used_nonneg s Hs).
    destruct (ts_contents s !! id) as [d|] eqn:E; simpl; [|lia].
    rewrite ts_used_contents in * by done.
    assert (size_of d ≤ msum size_of (ts_contents s)) by (apply (msum_lookup_le size_of _ id d); auto with lethe). lia. }
  destruct t; simpl.
  - destruct (t_hbm st) as [h|] eqn:E; simpl; [by eapply Hle, (ok_hbm st Hok)|by rewrite lookup_empty].
  - destruct (t_dram st) as [h|] eqn:E; simpl; [by eapply Hle, (ok_dram st Hok)|by rewrite lookup_empty].
  - destruct (t_ssd st) as [h|] eqn:E; simpl; [by eapply Hle, (ok_ssd st Hok)|by rewrite lookup_empty].
Qed.

(** The bytes that all copies of a block occupy. *)
Definition copies_size (id : BlockId) st : Z :=
  opt_size (tier_contents HBM st !! id) + opt_size (tier_contents DRAM st !! id) +
  opt_size (tier_contents SSD st !! id).

Lemma Erase_effect id st :
  inv st →
  ∃ st', Erase id st = (copies_size id st, st') ∧ inv st' ∧
    contents st' = delete id (contents st) ∧
    (∀ t, tier_contents t st' = delete id (tier_contents t st)) ∧
    (∀ t, used_bytes t st' = used_bytes t st - opt_size (tier_contents t st !! id)) ∧
    t_access_counts st' = delete id (t_access_counts st) ∧ t_visited st' = t_visited st ∖ {[id]}.
Proof.
  intros Hi. unfold Erase. pose proof (inv_tiers st Hi) as Hok.
  destruct (EraseFromTier id HBM st) as [f1 st1] eqn:E1.
  destruct (EraseFromTier_effect _ _ _ _ _ Hok E1) as [Hf1 Hok1 Hc1 Hu1 Hn1].
  destruct (EraseFromTier id DRAM st1) as [f2 st2] eqn:E2.
  destruct (EraseFromTier_effect _ _ _ _ _ Hok1 E2) as [Hf2 Hok2 Hc2 Hu2 Hn2].
  destruct (EraseFromTier id SSD st2) as [f3 st3] eqn:E3.
  destruct (EraseFromTier_effect _ _ _ _ _ Hok2 E3) as [Hf3 Hok3 Hc3 Hu3 Hn3].
  pose proof (same_frame_trans _ _ _ (same_frame_trans _ _ _ Hf1 Hf2) Hf3) as Hf.
  rewrite Hc2, !Hc1, !decide_False in Hn3 by done. rewrite Hc1, decide_False in Hn2 by done.
  assert (∀ t, tier_contents t st3 = delete id (tier_contents t st)) as Hc.
  { intros t. rewrite Hc3, !Hc2, !Hc1. by destruct t. }
  set (st' := with_books st3 _ _).
  assert (represents (delete id (contents st)) st') as Hr.
  { assert (∀ t, tier_contents t st' = tier_contents t st3) as Hsame by (by intros []).
    pose proof (inv_represents st Hi) as [Hs Hcm]. split.
    - intros t id' d. rewrite Hsame, Hc, !lookup_delete_Some. intros [? ?]. eauto.
    - intros id' d [? [t ?]%Hcm]%lookup_delete_Some. exists t.
      by rewrite Hsame, Hc, lookup_delete_ne. }
  exists st'. split_and!.
  - f_equal. unfold copies_size. rewrite <- Hn1, <- Hn2, <- Hn3.
    pose proof (tier_size_le_capacity HBM id st Hok). pose proof (tier_size_le_capacity DRAM id st Hok).
    pose proof (tier_size_le_capacity SSD id st Hok). pose proof (inv_capacities st Hi).
    rewrite (u64_small (0 + f1)), (u64_small (0 + f1 + f2)), u64_small; lia.
  - apply (inv_of_represents (delete id (contents st))); [by destruct Hok3| | done| |].
    + change (capacity_bytes HBM st3 + capacity_bytes DRAM st3 + capacity_bytes SSD st3 < 2 ^ 64).
      rewrite !(sf_capacity _ _ Hf). apply (inv_capacities st Hi).
    + intros id' d [_ ?]%lookup_delete_Some. by apply (inv_storable st Hi).
    + simpl. intros id'. rewrite (sf_counts _ _ Hf).
      intros [c [Hne Hcn]%lookup_delete_Some]. rewrite lookup_delete_ne by done.
      apply (inv_counts st Hi). by exists c.
  - by apply represents_contents.
  - intros t. transitivity (tier_contents t st3); [by destruct t|apply Hc].
  - intros t. transitivity (used_bytes t st3); [by destruct t|].
    rewrite Hu3, Hu2, Hu1. destruct t; repeat case_decide; try done; lia.
  - simpl. by rewrite (sf_counts _ _ Hf).
  - simpl. by rewrite (sf_visited _ _ Hf).
Qed.

(** ** Accounting and snapshots *)

Lemma used_contents t st : tiers_ok st → used_bytes t st = msum size_of (tier_contents t st).
Proof.
  intros Hok. destruct t; simpl.
  - destruct (t_hbm st) as [h|] eqn:E; simpl; [by apply ts_used_contents, (ok_hbm st Hok)|done].
  - destruct (t_dram st) as [h|] eqn:E; simpl; [by apply ts_used_contents, (ok_dram st Hok)|done].
  - destruct (t_ssd st) as [h|] eqn:E; simpl; [by apply ts_used_contents, (ok_ssd st Hok)|done].
Qed.

Lemma used_capacity t st : tiers_ok st → 0 ≤ used_bytes t st ≤ capacity_bytes t st.
Proof.
  intros Hok. split.
  - rewrite used_contents by done. apply msum_nonneg. auto with lethe.
  - destruct t; simpl.
    + destruct (t_hbm st) as [h|] eqn:E; simpl; [by apply ts_used_le_capacity, (ok_hbm st Hok)|done].
    + destruct (t_dram st) as [h|] eqn:E; simpl; [by apply ts_used_le_capacity, (ok_dram st Hok)|done].
    + destruct (t_ssd st) as [h|] eqn:E; simpl; [by apply ts_used_le_capacity, (ok_ssd st Hok)|done].
Qed.

(** A snapshot lists the blocks of the tier, each once, with its size; the
    overlay touches only the visited bit. *)
Lemma Snapshot_contents o t st :
  tiers_ok st →
  (λ m, (m_id m, m_size_bytes m)) <$> Snapshot o t st ≡ₚ
    map_to_list (size_of <$> tier_contents t st).
Proof.
  intros Hok. unfold Snapshot. rewrite <- list_fmap_compose.
  destruct t; simpl.
  - destruct (t_hbm st) as [h|] eqn:E; simpl; [|by rewrite fmap_empty, map_to_list_empty].
    rewrite <- (ts_snapshot_contents (so_mem o) h) by (by apply (ok_hbm st Hok)). done.
  - destruct (t_dram st) as [h|] eqn:E; simpl; [|by rewrite fmap_empty, map_to_list_empty].
    rewrite <- (ts_snapshot_contents (so_mem o) h) by (by apply (ok_dram st Hok)). done.
  - destruct (t_ssd st) as [h|] eqn:E; simpl; [|by rewrite fmap_empty, map_to_list_empty].
    rewrite <- (ts_snapshot_contents (so_disk o) h) by (by apply (ok_ssd st Hok)). done.
Qed.

Lemma Snapshot_NoDup o t st : tiers_ok st → NoDup (m_id <$> Snapshot o t st).
Proof.
  intros Hok.
  replace (m_id <$> Snapshot o t st) with
    ((λ m, (m_id m, m_size_bytes m)) <$> Snapshot o t st).*1 by (by rewrite <- list_fmap_compose).
  rewrite Snapshot_contents by done. apply NoDup_fst_map_to_list.
Qed.

Lemma Snapshot_elem o t st m :
  tiers_ok st → m ∈ Snapshot o t st →
  ∃ d, tier_contents t st !! m_id m = Some d ∧ m_size_bytes m = size_of d.
Proof.
  intros Hok Hm.
  assert ((m_id m, m_size_bytes m) ∈ map_to_list (size_of <$> tier_contents t st)) as Hin.
  { rewrite <- (Snapshot_contents o t st Hok). apply list_elem_of_fmap. by exists m. }
  apply elem_of_map_to_list in Hin. rewrite lookup_fmap in Hin.
  apply fmap_Some in Hin as (d & Hd & Hs). eauto.
Qed.

Lemma Snapshot_complete o t st id d :
  tiers_ok st → tier_contents t st !! id = Some d →
  ∃ m, m ∈ Snapshot o t st ∧ m_id m = id ∧ m_size_bytes m = size_of d.
Proof.
  intros Hok Hd.
  assert ((id, size_of d) ∈ (λ m, (m_id m, m_size_bytes m)) <$> Snapshot o t st) as Hin.
  { rewrite (Snapshot_contents o t st Hok). apply elem_of_map_to_list. by rewrite lookup_fmap, Hd. }
  apply list_elem_of_fmap in Hin as (m & [= -> ->] & Hm). eauto.
Qed.

(** ** Stores in which every block lives in one tier *)

Definition exclusive st : Prop :=
  ∀ id t1 t2, is_Some (tier_contents t1 st !! id) → is_Some (tier_contents t2 st !! id) → t1 = t2.

Lemma moved_exclusive id from to st st' :
  inv st → exclusive st → is_Some (tier_contents from st !! id) →
  moved id from to st st' → exclusive st'.
Proof.
  intros Hi He Hf (_ & _ & _ & Hfrom & _ & Hoth & Htiers).
  assert (∀ t, is_Some (tier_contents t st' !! id) → t = to) as Hid.
  { intros t Ht. destruct (decide (t = to)) as [|Hne]; [done|].
    destruct (decide (t = from)) as [->|Hnf]; [rewrite Hfrom in Ht; by destruct Ht|].
    rewrite Htiers in Ht by done. by rewrite (He id t from Ht Hf) in Hnf. }
  intros id' t1 t2 H1' H2'. destruct (decide (id = id')) as [<-|Hne].
  - by rewrite (Hid t1 H1'), (Hid t2 H2').
  - rewrite Hoth in H1', H2' by done. by eapply He.
Qed.

Lemma moved_used id from to d st st' :
  inv st → tier_contents from st !! id = Some d → moved id from to st st' →
  used_bytes from st' = used_bytes from st - size_of d.
Proof.
  intros Hi Hd (_ & Hi' & _ & Hfrom & _ & Hoth & _).
  rewrite !used_contents by (apply Hi || apply Hi').
  replace (tier_contents from st') with (delete id (tier_contents from st)).
  { by apply msum_delete. }
  apply map_eq. intros id'. destruct (decide (id = id')) as [<-|Hne].
  - by rewrite lookup_delete_eq, Hfrom.
  - by rewrite lookup_delete_ne, Hoth.
Qed.

(** ** Traces

    One event per public operation with the answer that the caller sees. *)

Inductive event : Type :=
| EGet (id : BlockId) (r : option bytes)
| EPut (b : KvBlock) (hint : Tier) (accepted : bool)
| EDemote (id : BlockId) (ok : bool)
| EErase (id : BlockId)
| EMarkVisited (id : BlockId)
| EClearVisited (id : BlockId).

Inductive step st : event → Tiered M D → Prop :=
| step_get id : step st (EGet id (gr_data <$> (Get id st).1)) (Get id st).2
| step_put b hint : step st (EPut b hint (bool_decide (is_Some (Put b hint st).1))) (Put b hint st).2
| step_demote id : step st (EDemote id (Demote id st).1) (Demote id st).2
| step_erase id : step st (EErase id) (Erase id st).2
| step_mark id : step st (EMarkVisited id) (MarkVisited id st)
| step_clear id : step st (EClearVisited id) (ClearVisited id st).

Inductive steps : Tiered M D → list event → Tiered M D → Prop :=
| steps_nil st : steps st [] st
| steps_cons st e st' tr st'' : step st e st' → steps st' tr st'' → steps st (e :: tr) st''.

(** The abstract store: a map that forgets nothing by itself. *)
Inductive spec_step (m : gmap BlockId bytes) : event → gmap BlockId bytes → Prop :=
| spec_get id : spec_step m (EGet id (m !! id)) m
| spec_put_accepted b hint : spec_step m (EPut b hint true) (<[kv_id b := kv_data b]> m)
| spec_put_refused b hint : spec_step m (EPut b hint false) m
| spec_demote id ok : spec_step m (EDemote id ok) m
| spec_erase id : spec_step m (EErase id) (delete id m)
| spec_mark id : spec_step m (EMarkVisited id) m
| spec_clear id : spec_step m (EClearVisited id) m.

Inductive spec_steps : gmap BlockId bytes → list event → gmap BlockId bytes → Prop :=
| spec_steps_nil m : spec_steps m [] m
| spec_steps_cons m e m' tr m'' :
    spec_step m e m' → spec_steps m' tr m'' → spec_steps m (e :: tr) m''.

Lemma Put_effect b hint st :
  inv st → KvBlock_wf b → kv_data b ≠ [] → agrees b (contents st) →
  match Put b hint st with
  | (Some t, st') => inv st' ∧ contents st' = <[kv_id b := kv_data b]> (contents st) ∧
                     same_frame st st' ∧ t ∈ fallthrough hint ∧ PutToTier b t st = (true, st')
  | (None, st') => st' = st
  end.
Proof.
  intros Hi Hw Hne Ha. destruct (Put b hint st) as [r st'] eqn:E.
  pose proof (put_chain_effect b (fallthrough hint) st r st' Hi Hw Hne Ha E) as Hp. by destruct r.
Qed.

(** One turn of the candidate loop. *)
Lemma put_chain_cons b t row st :
  tiers_ok st →
  put_chain b (t :: row) st =
  if (PutToTier b t st).1 then (Some t, (PutToTier b t st).2)
  else if bool_decide (t = SSD) then (None, st) else put_chain b row st.
Proof.
  intros Hok. simpl. destruct (PutToTier b t st) as [[] st1] eqn:E; simpl; [done|].
  by rewrite (PutToTier_false _ _ _ _ Hok E).
Qed.

Lemma Put_order b hint st :
  tiers_ok st →
  match Put b hint st with
  | (Some t, _) => Tier_to_Z hint ≤ Tier_to_Z t ∧
      ∀ t', Tier_to_Z hint ≤ Tier_to_Z t' < Tier_to_Z t → (PutToTier b t' st).1 = false
  | (None, _) => ∀ t', Tier_to_Z hint ≤ Tier_to_Z t' → (PutToTier b t' st).1 = false
  end.
Proof.
  intros Hok. unfold Put. destruct hint; cbn [fallthrough]; rewrite !put_chain_cons by done.
  all: destruct (PutToTier b HBM st).1 eqn:E1, (PutToTier b DRAM st).1 eqn:E2,
         (PutToTier b SSD st).1 eqn:E3; cbn [bool_decide decide_rel Tier_to_Z].
  all: first [split; [simpl; lia|]|idtac]; intros []; simpl; intros; try done; lia.
Qed.

Section content_addressed.
(** The payload that a block identity stands for: every writer of [id] stores
    the same bytes. *)
Context (payload : BlockId → bytes).

Definition event_ok (e : event) : Prop :=
  match e with
  | EPut b _ _ => KvBlock_wf b ∧ kv_data b ≠ [] ∧ kv_data b = payload (kv_id b)
  | _ => True
  end.

Definition addressed (m : gmap BlockId bytes) : Prop :=
  ∀ id d, m !! id = Some d → d = payload id.

Lemma step_refines st e st' :
  inv st → addressed (contents st) → event_ok e → step st e st' →
  inv st' ∧ spec_step (contents st) e (contents st').
Proof.
  intros Hi Ha He Hs. destruct Hs as [id|b hint|id|id|id|id].
  - destruct (Get_effect id st Hi) as (? & -> & ->). split; [done|constructor].
  - destruct He as (Hw & Hne & Hp).
    pose proof (Put_effect b hint st Hi Hw Hne) as Hput.
    destruct (Put b hint st) as [[t|] st'] eqn:E; simpl.
    + destruct Hput as (? & -> & _); [intros d Hd; rewrite Hp; by apply Ha|].
      split; [done|constructor].
    + rewrite Hput by (intros d Hd; rewrite Hp; by apply Ha). split; [done|constructor].
  - destruct (Demote_effect id st Hi) as (? & ->). split; [done|constructor].
  - destruct (Erase_effect id st Hi) as (st' & -> & ? & Hc & _). simpl. rewrite Hc.
    split; [done|constructor].
  - split; [apply inv_with_books; [done|apply (inv_counts st Hi)]|constructor].
  - split; [apply inv_with_books; [done|apply (inv_counts st Hi)]|constructor].
Qed.

Lemma spec_step_addressed m e m' :
  addressed m → event_ok e → spec_step m e m' → addressed m'.
Proof.
  intros Ha He Hs. destruct Hs as [| b hint | | |id| |]; try done.
  - intros id d. rewrite lookup_insert_Some.
    intros [[<- <-]|[_ Hd]]; [by apply He|by apply Ha].
  - intros id' d [_ Hd]%lookup_delete_Some. by apply Ha.
Qed.

(** C7 (refinement): whatever the tiers do with promotion, demotion and
    fall-through, every sequence of operations on the tiered store, with nonempty
    blocks, answers as one finite map from identity to payload does: a lookup
    returns what was stored and not erased, an accepted insertion is visible,
    promotion and demotion lose nothing, and the invariant of the store holds
    throughout.  (An empty block on the disk is a miss:
    [empty_block_not_found].) *)
Theorem tiered_refines_map st tr st' :
  inv st → addressed (contents st) → Forall event_ok tr → steps st tr st' →
  inv st' ∧ spec_steps (contents st) tr (contents st').
Proof.
  intros Hi Ha Htr Hs. induction Hs as [st|st e st1 tr st2 Hst _ IH]; [by split; [|constructor]|].
  apply Forall_cons in Htr as [He Htr].
  destruct (step_refines st e st1 Hi Ha He Hst) as [Hi1 Hsp].
  destruct IH as [? Hrest]; [done|by eapply spec_step_addressed|done|].
  split; [done|by econstructor].
Qed.
End content_addressed.

(** C24 (lookup and promotion): a lookup of a resident block answers from the
    fastest tier that has it, counts the access (a 32-bit counter), sets its
    visited bit, and reports a promotion exactly when promotion is enabled, the
    counter has reached the threshold, a faster tier exists and accepts the
    block; the block has then moved there, and otherwise no tier changes. *)
Theorem tiered_get_promotion id d st :
  inv st → contents st !! id = Some d →
  ∃ t promoted st', Get id st = (Some (mkGetResult d t promoted), st') ∧
    tier_contents t st !! id = Some d ∧ first_tier t id st ∧
    t_access_counts st' !! id = Some (default 0 (t_access_counts st !! id) +₃₂ 1) ∧
    id ∈ t_visited st' ∧
    promoted = promotes id t d (default 0 (t_access_counts st !! id) +₃₂ 1) st ∧
    if promoted
    then tier_contents t st' !! id = None ∧
         tier_contents (promotion_target t st) st' !! id = Some d
    else ∀ t', tier_contents t' st' = tier_contents t' st.
Proof.
  intros Hi Hd. destruct (Get_hit id d st Hi Hd) as (t & st' & HG & Ht & Hf & Hst').
  exists t, (promotes id t d (next_count id st) st), st'.
  assert (t_access_counts st' = t_access_counts (count_access id st) ∧
          t_visited st' = t_visited (count_access id st)) as [Hcnt Hvis].
  { case_match; [|by subst]. destruct Hst' as ([] & _). done. }
  rewrite Hcnt, Hvis. split_and!; try done.
  - apply lookup_insert_eq.
  - set_solver.
  - case_match.
    + destruct Hst' as (_ & _ & _ & ? & ? & _). split; [done|by rewrite <- Hd].
    + subst st'. by intros [].
Qed.

(** Insertion: an insertion tries the hinted tier and then the slower
    ones in order; it is accepted by the first tier that takes it, after which
    a lookup finds the payload; if every tier refuses, nothing has changed. *)
Theorem tiered_put_get b hint st :
  inv st → KvBlock_wf b → kv_data b ≠ [] → agrees b (contents st) →
  match Put b hint st with
  | (Some t, st') =>
      inv st' ∧ Tier_to_Z hint ≤ Tier_to_Z t ∧ (PutToTier b t st).1 = true ∧
      (∀ t', Tier_to_Z hint ≤ Tier_to_Z t' < Tier_to_Z t → (PutToTier b t' st).1 = false) ∧
      gr_data <$> (Get (kv_id b) st').1 = Some (kv_data b) ∧
      (∀ id, id ≠ kv_id b → gr_data <$> (Get id st').1 = gr_data <$> (Get id st).1)
  | (None, st') =>
      st' = st ∧ ∀ t', Tier_to_Z hint ≤ Tier_to_Z t' → (PutToTier b t' st).1 = false
  end.
Proof.
  intros Hi Hw Hne Ha. pose proof (Put_effect b hint st Hi Hw Hne Ha) as Hp.
  pose proof (Put_order b hint st (inv_tiers st Hi)) as Ho.
  destruct (Put b hint st) as [[t|] st']; [|done].
  destruct Hp as (Hi' & Hc & _ & _ & Hp), Ho as [Hle Hlt].
  split_and!; [done|done|by rewrite Hp|done|..].
  - destruct (Get_effect (kv_id b) st' Hi') as (_ & _ & ->). by rewrite Hc, lookup_insert_eq.
  - intros id Hid. destruct (Get_effect id st' Hi') as (_ & _ & ->).
    destruct (Get_effect id st Hi) as (_ & _ & ->). by rewrite Hc, lookup_insert_ne.
Qed.

(** Demotion: a demotion either leaves the store as it is or moves the
    block from the fastest tier that has it to a slower one; in both cases
    every lookup answers as before. *)
Theorem tiered_demote_moves_down id st :
  inv st →
  inv (Demote id st).2 ∧ contents (Demote id st).2 = contents st ∧
  match Demote id st with
  | (true, st') => ∃ from to, Tier_to_Z from < Tier_to_Z to ∧
      is_Some (tier_contents from st !! id) ∧ first_tier from id st ∧
      tier_contents from st' !! id = None ∧ tier_contents to st' !! id = contents st !! id
  | (false, st') => st' = st
  end.
Proof.
  intros Hi. split_and!; [by apply Demote_effect..|].
  destruct (Demote_cases id st Hi) as [->|(st' & from & to & -> & Hm & Hs & Hf & Hh)]; [done|].
  destruct Hm as (_ & _ & _ & ? & ? & _). by exists from, to.
Qed.

(** Erase: an erase removes every copy of the block, its access counter
    and its visited bit, and returns exactly the bytes that the tiers'
    counters drop by, without 64-bit wrap-around. *)
Theorem tiered_erase_accounting id st :
  inv st →
  let '(freed, st') := Erase id st in
  inv st' ∧ contents st' = delete id (contents st) ∧
  (∀ t, tier_contents t st' !! id = None) ∧
  id ∉ t_visited st' ∧ t_access_counts st' !! id = None ∧
  freed = (used_bytes HBM st - used_bytes HBM st') + (used_bytes DRAM st - used_bytes DRAM st') +
          (used_bytes SSD st - used_bytes SSD st').
Proof.
  intros Hi. destruct (Erase_effect id st Hi) as (st' & -> & Hi' & Hc & Ht & Hu & Hac & Hv).
  split_and!; [done|done| | | |].
  - intros t. rewrite Ht. apply lookup_delete_eq.
  - rewrite Hv. set_solver.
  - rewrite Hac. apply lookup_delete_eq.
  - rewrite !Hu. unfold copies_size. lia.
Qed.
End spec.

(** ** The store of the program *)

(** The argument ranges of the constructor. *)
Record config_ok (cfg : TieredStoreConfig) : Prop := {
  co_hbm : 0 ≤ hbm_bytes cfg ≤ 2 ^ 63;
  co_dram : 0 ≤ dram_bytes cfg ≤ 2 ^ 63;
  co_ssd : 0 ≤ ssd_bytes cfg;
  co_sum : hbm_bytes cfg + dram_bytes cfg + ssd_bytes cfg < 2 ^ 64
}.

Lemma usable_le_capacity (s : SsdBlockStore) :
  ts_inv s → ts_capacity s ≤ ssd_capacity_bytes s.
Proof.
  intros Hi. simpl. pose proof (SsdBlockStore.inv_payload s Hi).
  pose proof (SsdBlockStore.inv_total s Hi). pose proof (SsdBlockStore.inv_total_pos s Hi).
  pose proof (SsdBlockStore.inv_slot_bytes s Hi). unfold SsdBlockStore.capacity_bytes.
  rewrite (SsdBlockStore.inv_usable s Hi).
  pose proof (Z.mul_div_le (ssd_capacity_bytes s) (ssd_slot_bytes s) ltac:(lia)). nia.
Qed.

(** The memory tiers of a new store are empty, the disk tier holds what it
    recovered. *)
Lemma new_store_inv cfg (ssd : option SsdBlockStore) :
  config_ok cfg →
  (∀ s, ssd = Some s → ts_inv s ∧ ts_capacity s ≤ ssd_bytes cfg ∧ storable (ts_contents s)) →
  inv (new_store cfg ssd) ∧ contents (new_store cfg ssd) = from_option ts_contents ∅ ssd.
Proof.
  intros [Hh Hd Hz Hsum] Hs. set (st := new_store cfg ssd).
  assert (∀ t, tier_contents t st = if decide (t = SSD) then from_option ts_contents ∅ ssd else ∅) as Hc.
  { intros []; simpl; try done. by destruct (_ >? _). }
  assert (represents (from_option ts_contents ∅ ssd) st) as Hr.
  { split.
    - intros t id d. rewrite Hc. case_decide; [done|by rewrite lookup_empty].
    - intros id d Hl. exists SSD. by rewrite Hc. }
  split; [|by apply represents_contents].
  apply (inv_of_represents (from_option ts_contents ∅ ssd)); [| |done| |by intros id []].
  - split; simpl.
    + intros h. destruct (_ >? _); [|done]. intros [= <-]. by apply bs_empty_store_inv.
    + intros d [= <-]. by apply bs_empty_store_inv.
    + intros d ->. by apply Hs.
  - simpl. destruct (_ >? _); simpl; (destruct ssd as [s|]; simpl; [destruct (Hs s) as (_ & ? & _); [done|simpl in *]|]);
      unfold BlockStore.capacity_bytes; simpl; lia.
  - destruct ssd as [s|]; [by apply Hs|]. intros id d. simpl. by rewrite lookup_empty.
Qed.

Lemma open_store_capacity sys file capacity slot s :
  open_store sys file capacity slot = inr s → ssd_capacity_bytes s = capacity.
Proof.
  unfold open_store. repeat case_match; try done. intros [= <-].
  unfold RebuildIndexFromMmap. by destruct (rebuild_scan _ _ _) as [[index free] n].
Qed.

(** The first start, with no data file. *)
Lemma make_store_fresh sys cfg :
  config_ok cfg → open_args (ssd_bytes cfg) (cfg_ssd_slot_bytes cfg) → ssd_path cfg ≠ "" →
  sys_open sys = true → sys_fstat sys = true → sys_ftruncate sys = true → sys_mmap sys = true →
  ∃ st, make_store sys [] cfg = inr st ∧ inv st ∧ contents st = ∅.
Proof.
  intros Hcfg Ha Hp H1 H2 H3 H4.
  destruct (ssd_open_fresh sys (ssd_bytes cfg) (cfg_ssd_slot_bytes cfg) Ha H1 H2 H3 H4) as (s & E & Hi & Hc & _).
  assert (0 < ssd_bytes cfg) as Hpos by (destruct Ha as [? _ ?]; lia).
  unfold make_store. rewrite (proj2 (Z.gtb_lt _ _)) by lia.
  rewrite (proj2 (String.eqb_neq _ _) Hp), E. cbn [andb negb]. eexists. split; [reflexivity|].
  destruct (new_store_inv cfg (Some s) Hcfg) as [Hi' Hc'].
  - intros ? [= <-]. split_and!; [exact Hi| |].
    + rewrite <- (open_store_capacity _ _ _ _ _ E). by apply usable_le_capacity.
    + simpl. rewrite Hc. intros id d. by rewrite lookup_empty.
  - split; [exact Hi'|]. rewrite Hc'. exact Hc.
Qed.

(** Restart of the whole store: a store built over the data file that an
    earlier store leaves behind starts with exactly the blocks of the earlier
    disk tier, all of them readable, and in a state that satisfies the
    invariant; the blocks of the memory tiers are gone. *)
Lemma tiered_restart sys cfg (st : TieredStore) (s : SsdBlockStore) :
  inv st → t_ssd st = Some s →
  config_ok cfg → ssd_bytes cfg = ssd_capacity_bytes s → cfg_ssd_slot_bytes cfg = ssd_slot_bytes s →
  ssd_path cfg ≠ "" → sys_open sys = true → sys_fstat sys = true → sys_mmap sys = true →
  ∃ st', make_store sys (file_bytes s) cfg = inr st' ∧ inv st' ∧ contents st' = tier_contents SSD st ∧
    (∀ id, gr_data <$> (Get id st').1 = tier_contents SSD st !! id).
Proof.
  intros Hi Es Hcfg Hcap Hslot Hpath Ho Hf Hm.
  assert (ts_inv s) as His by (by apply (ok_ssd st (inv_tiers st Hi))).
  pose proof (usable_le_capacity s His) as Husable.
  assert (ts_inv (RebuildIndexFromMmap s)) as Hir.
  { apply ssd_Rebuild_inv; [by apply ssd_inv_geometry|by apply ssd_inv_unique]. }
  assert (ssd_usable_bytes (RebuildIndexFromMmap s) = ssd_usable_bytes s) as Hu
    by (unfold RebuildIndexFromMmap; by repeat case_match).
  destruct (new_store_inv cfg (Some (RebuildIndexFromMmap s)) Hcfg) as [Hi' Hc'].
  { intros ? [= <-]. split_and!; [done| |].
    - simpl in *. unfold SsdBlockStore.capacity_bytes in *. rewrite Hu. lia.
    - simpl. rewrite ssd_Rebuild_contents by done. intros id d Hd.
      apply (inv_storable st Hi). apply contents_lookup_Some; [done|]. exists SSD. simpl. by rewrite Es. }
  eexists. split.
  { unfold make_store. rewrite Hcap, Hslot. unfold file_bytes.
    rewrite (ssd_open_store_region sys s) by (auto; by apply ssd_inv_geometry).
    replace (ssd_capacity_bytes s >? 0) with true.
    2:{ symmetry. apply Z.gtb_lt. pose proof (SsdBlockStore.inv_total s His).
        pose proof (SsdBlockStore.inv_total_pos s His).
        destruct (Z.le_gt_cases (ssd_capacity_bytes s) 0); [|lia].
        pose proof (SsdBlockStore.inv_slot_bytes s His). pose proof (SsdBlockStore.inv_payload s His).
        pose proof (Z.div_le_upper_bound (ssd_capacity_bytes s) (ssd_slot_bytes s) 0 ltac:(lia) ltac:(lia)).
        lia. }
    rewrite (proj2 (String.eqb_neq _ _) Hpath). reflexivity. }
  assert (∀ id, gr_data <$> (Get id (new_store cfg (Some (RebuildIndexFromMmap s)))).1 =
                SsdBlockStore.contents s !! id) as Hget.
  { intros id. destruct (Get_effect id _ Hi') as (_ & _ & ->). rewrite Hc'.
    by rewrite <- (ssd_Rebuild_contents s His). }
  split_and!; [exact Hi'| |].
  - rewrite Hc'. etrans; [exact (ssd_Rebuild_contents s His)|]. simpl. by rewrite Es.
  - intros id. rewrite Hget. simpl. by rewrite Es.
Qed.

(** ** Concrete stores *)

(** Eight bytes of HBM, two of DRAM, two disk slots; promotion on the second
    access. *)
Definition wit_cfg : TieredStoreConfig := mkTieredStoreConfig 8 2 132 "/tmp" true 2 66.

Definition wit_tiered : TieredStore := new_store wit_cfg (Some wit_ssd0).

Lemma wit_cfg_ok : config_ok wit_cfg.
Proof. by split. Qed.

Lemma wit_tiered_spec :
  make_store sys_ok [] wit_cfg = inr wit_tiered ∧ inv wit_tiered ∧ contents wit_tiered = ∅.
Proof.
  destruct wit_ssd0_spec as (Hopen & _ & _ & Hempty).
  destruct (new_store_inv wit_cfg (Some wit_ssd0) wit_cfg_ok) as [Hi Hc].
  { intros s [= <-]. split_and!; [apply wit_ssd0_spec|by vm_compute|].
    intros id d. simpl. rewrite Hempty. by rewrite lookup_empty. }
  split_and!; [|exact Hi|].
  - unfold make_store. cbn -[open_store]. by rewrite Hopen.
  - unfold wit_tiered. rewrite Hc. apply Hempty.
Qed.

(** The block in DRAM, then a second one that DRAM has no room for, then two
    lookups of the first: the second lookup promotes it. *)
Definition wit_block2 : KvBlock :=
  mkKvBlock (block_id_of_byte Byte.x02) [Byte.x0c] DRAM 8.

Definition wit_payload (id : BlockId) : bytes :=
  if decide (id = kv_id wit_block) then kv_data wit_block else kv_data wit_block2.

Definition wit_tiered1 : TieredStore := (Put wit_block DRAM wit_tiered).2.
Definition wit_tiered2 : TieredStore := (Put wit_block2 DRAM wit_tiered1).2.
Definition wit_tiered3 : TieredStore := (Get (kv_id wit_block) wit_tiered2).2.
Definition wit_tiered4 : TieredStore := (Get (kv_id wit_block) wit_tiered3).2.

Definition wit_trace : list event :=
  [EPut wit_block DRAM true; EPut wit_block2 DRAM true;
   EGet (kv_id wit_block) (Some (kv_data wit_block));
   EGet (kv_id wit_block) (Some (kv_data wit_block));
   EDemote (kv_id wit_block) true;
   EErase (kv_id wit_block2);
   EGet (kv_id wit_block2) None].

Definition wit_tiered5 : TieredStore :=
  (Get (kv_id wit_block2) (Erase (kv_id wit_block2) (Demote (kv_id wit_block) wit_tiered4).2).2).2.

Lemma wit_trace_steps : steps wit_tiered wit_trace wit_tiered5.
Proof.
  apply (steps_cons _ _ wit_tiered1); [vm_cast_no_check (step_put wit_tiered wit_block DRAM)|].
  apply (steps_cons _ _ wit_tiered2); [vm_cast_no_check (step_put wit_tiered1 wit_block2 DRAM)|].
  apply (steps_cons _ _ wit_tiered3); [vm_cast_no_check (step_get wit_tiered2 (kv_id wit_block))|].
  apply (steps_cons _ _ wit_tiered4); [vm_cast_no_check (step_get wit_tiered3 (kv_id wit_block))|].
  apply (steps_cons _ _ (Demote (kv_id wit_block) wit_tiered4).2);
    [vm_cast_no_check (step_demote wit_tiered4 (kv_id wit_block))|].
  eapply steps_cons; [constructor|].
  apply (steps_cons _ _ wit_tiered5); [|constructor].
  vm_cast_no_check (step_get (Erase (kv_id wit_block2) (Demote (kv_id wit_block) wit_tiered4).2).2
    (kv_id wit_block2)).
Qed.

Lemma tiered_refines_map_witness :
  spec_steps ∅ wit_trace (contents wit_tiered5).
Proof.
  destruct wit_tiered_spec as (_ & Hi & Hc).
  destruct (tiered_refines_map wit_payload wit_tiered wit_trace wit_tiered5 Hi) as [_ Hs].
  - rewrite Hc. intros id d. by rewrite lookup_empty.
  - apply Forall_cons; split; [by split_and!; [apply wit_block_wf|..]|].
    apply Forall_cons; split; [by repeat split|]. by repeat constructor.
  - exact wit_trace_steps.
  - by rewrite Hc in Hs.
Defined.

Lemma wit_agrees b (m : gmap BlockId bytes) : m = ∅ → agrees b m.
Proof. intros -> d. by rewrite lookup_empty. Qed.

Lemma wit_tiered2_inv : inv wit_tiered2.
Proof.
  destruct wit_tiered_spec as (_ & Hi & Hc).
  assert (inv wit_tiered1) as H1.
  { pose proof (Put_effect wit_block DRAM wit_tiered Hi wit_block_wf ltac:(done) (wit_agrees _ _ Hc)) as Hp.
    unfold wit_tiered1. by destruct (Put wit_block DRAM wit_tiered) as [[t|] st']; [apply Hp|subst]. }
  pose proof (Put_effect wit_block2 DRAM wit_tiered1 H1 ltac:(by repeat split) ltac:(done)) as Hp.
  unfold wit_tiered2. destruct (Put wit_block2 DRAM wit_tiered1) as [[t|] st'];
    [apply Hp|simpl; rewrite Hp; [done|]]; intros d; vm_compute; congruence.
Qed.

Lemma wit_tiered3_inv :
  inv wit_tiered3 ∧ contents wit_tiered3 !! kv_id wit_block = Some (kv_data wit_block).
Proof. split; [apply (Get_effect _ _ wit_tiered2_inv)|by vm_compute]. Qed.

Lemma tiered_get_promotion_witness :
  ∃ t promoted st', Get (kv_id wit_block) wit_tiered3 =
      (Some (mkGetResult (kv_data wit_block) t promoted), st') ∧
    t = DRAM ∧ promoted = true ∧ tier_contents HBM st' !! kv_id wit_block = Some (kv_data wit_block).
Proof.
  destruct wit_tiered3_inv as [Hi Hc].
  destruct (tiered_get_promotion (kv_id wit_block) (kv_data wit_block) wit_tiered3 Hi Hc)
    as (t & p & st' & HG & _). exists t, p, st'. split; [exact HG|].
  assert ((Get (kv_id wit_block) wit_tiered3).1 =
          Some (mkGetResult (kv_data wit_block) DRAM true)) as Hv by (by vm_compute).
  replace st' with wit_tiered4 by (unfold wit_tiered4; by rewrite HG).
  rewrite HG in Hv. injection Hv as -> ->. split_and!; [done|done|by vm_compute].
Defined.

Lemma tiered_put_get_witness :
  (Put wit_block DRAM wit_tiered).1 = Some DRAM ∧
  gr_data <$> (Get (kv_id wit_block) wit_tiered1).1 = Some (kv_data wit_block).
Proof.
  destruct wit_tiered_spec as (_ & Hi & Hc).
  pose proof (tiered_put_get wit_block DRAM wit_tiered Hi wit_block_wf ltac:(done)
    (wit_agrees _ _ Hc)) as Hp.
  assert ((Put wit_block DRAM wit_tiered).1 = Some DRAM) as Hr by (by vm_compute).
  split; [exact Hr|]. unfold wit_tiered1.
  destruct (Put wit_block DRAM wit_tiered) as [r st']. simpl in Hr. subst r. apply Hp.
Defined.

Lemma tiered_demote_moves_down_witness :
  (Demote (kv_id wit_block) wit_tiered2).1 = true ∧
  contents (Demote (kv_id wit_block) wit_tiered2).2 = contents wit_tiered2.
Proof.
  destruct (tiered_demote_moves_down (kv_id wit_block) wit_tiered2 wit_tiered2_inv) as (_ & Hc & _).
  split; [by vm_compute|exact Hc].
Defined.

Lemma tiered_erase_accounting_witness :
  (Erase (kv_id wit_block) wit_tiered2).1 = 2 ∧
  contents (Erase (kv_id wit_block) wit_tiered2).2 = delete (kv_id wit_block) (contents wit_tiered2).
Proof.
  pose proof (tiered_erase_accounting (kv_id wit_block) wit_tiered2 wit_tiered2_inv) as He.
  split; [by vm_compute|].
  destruct (Erase (kv_id wit_block) wit_tiered2) as [n st']. simpl. apply He.
Defined.

(** The second block went to the disk tier and survives a restart. *)
Example tiered_restart_case :
  ∃ s st', t_ssd wit_tiered2 = Some s ∧ make_store sys_ok (file_bytes s) wit_cfg = inr st' ∧
    gr_data <$> (Get (kv_id wit_block2) st').1 = Some (kv_data wit_block2).
Proof.
  assert (ssd_capacity_bytes <$> t_ssd wit_tiered2 = Some 132 ∧
          ssd_slot_bytes <$> t_ssd wit_tiered2 = Some 66) as [Hcap Hslot] by (by vm_compute).
  destruct (t_ssd wit_tiered2) as [s|] eqn:Es; [|discriminate Hcap]. injection Hcap as Hcap. injection Hslot as Hslot.
  destruct (tiered_restart sys_ok wit_cfg wit_tiered2 s wit_tiered2_inv Es wit_cfg_ok
    (eq_sym Hcap) (eq_sym Hslot) ltac:(done) eq_refl eq_refl eq_refl) as (st' & Hm & _ & _ & Hg).
  exists s, st'. split_and!; [done|done|]. rewrite Hg. by vm_compute.
Qed.

(** An empty block: the disk tier accepts it, and a lookup takes its empty bytes
    for a miss, although the tier holds it. *)
Theorem empty_block_not_found :
  let b := mkKvBlock (block_id_of_byte Byte.x01) [] SSD 0 in
  let st := (Put b SSD wit_tiered).2 in
  (Put b SSD wit_tiered).1 = Some SSD ∧ tier_contents SSD st !! kv_id b = Some [] ∧ (Get (kv_id b) st).1 = None.
Proof. split_and!; vm_compute; reflexivity. Qed.
