(* ===== verification/Routing.v ===== *)
(** * Consistent-hash router (routing.hpp, routing.cpp)

    The ring of virtual nodes, the binary search for the first entry at or
    after the target and the clockwise walk that picks distinct peers.  The
    BLAKE3 implementation is vendored third-party code and is a parameter of
    the model; [std::sort], which may order entries with equal keys either
    way, is any function that returns a sorted permutation. *)
From stdpp Require Import pretty.
From S2P Require Import Prelude Types.

Record RingEntry : Type := mkRingEntry { re_hash : Z; re_peer_idx : nat }.
#[export] Instance RingEntry_inhabited : Inhabited RingEntry := populate (mkRingEntry 0 0).

Record RouteResult : Type := mkRouteResult { primary : string; replicas : list string }.

Record Router : Type := mkRouter {
  r_local_node_id : string;
  r_vnodes_per_peer : nat;
  r_replication_factor : nat;
  r_peers : list string;
  r_ring : list RingEntry
}.

(** What [std::sort] promises for the comparison [a.hash < b.hash]. *)
Definition hash_le (a b : RingEntry) : Prop := re_hash a ≤ re_hash b.

Record Sorter : Type := mkSorter {
  sort_ring :> list RingEntry → list RingEntry;
  sort_ring_sorted l : Sorted hash_le (sort_ring l);
  sort_ring_perm l : sort_ring l ≡ₚ l
}.

(** The byte string of a key. *)
Definition bytes_of_string (s : string) : bytes :=
  Ascii.byte_of_ascii <$> String.list_ascii_of_string s.

Definition le_u64_from_digest (d : Hash256) : Z := le_decode (take 8 (vec_to_list d)).

Definition HashBlock (id : BlockId) : Z := le_decode (take 8 (vec_to_list (b_hash id))).

Section router.
Context (blake3_full : bytes → Hash256).

Definition vnode_key (peer : string) (vn : nat) : string :=
  peer +:+ "#" +:+ pretty (N.of_nat vn).

Definition HashVirtualNode (peer : string) (vn : nat) : Z :=
  le_u64_from_digest (blake3_full (bytes_of_string (vnode_key peer vn))).

(** The constructor. *)
Definition make_router (local_node_id : string) (vnodes replication_factor : nat) : Router :=
  mkRouter local_node_id vnodes replication_factor [] [].

(** The two nested loops of [SetPeers], before the sort. *)
Definition ring_entries (vnodes : nat) (peer_ids : list string) : list RingEntry :=
  concat (imap (λ i peer, (λ vn, mkRingEntry (HashVirtualNode peer vn) i) <$> seq 0 vnodes) peer_ids).

Definition SetPeers (sort : Sorter) (peer_ids : list string) (r : Router) : Router :=
  mkRouter (r_local_node_id r) (r_vnodes_per_peer r) (r_replication_factor r) peer_ids
    (sort (ring_entries (r_vnodes_per_peer r) peer_ids)).

(** The binary search; [fuel] bounds the number of turns of the loop. *)
Fixpoint lower_bound (fuel : nat) (ring : list RingEntry) (target : Z) (lo hi : nat) : nat :=
  match fuel with
  | O => lo
  | S fuel =>
      if (lo <? hi)%nat
      then let mid := (lo + (hi - lo) / 2)%nat in
           if re_hash (ring !!! mid) <? target
           then lower_bound fuel ring target (S mid) hi
           else lower_bound fuel ring target lo mid
      else lo
  end.

(** The clockwise walk over the remaining values of [step]. *)
Fixpoint walk (ring : list RingEntry) (peers : list string) (want idx : nat) (todo : list nat)
    (picked : list string) (seen : gset string) : list string :=
  match todo with
  | [] => picked
  | step :: todo =>
      if (length picked <? want)%nat
      then let peer := peers !!! re_peer_idx (ring !!! ((idx + step) mod length ring)%nat) in
           if bool_decide (peer ∈ seen)
           then walk ring peers want idx todo picked seen
           else walk ring peers want idx todo (picked ++ [peer]) ({[peer]} ∪ seen)
      else picked
  end.

Definition empty_route : RouteResult := mkRouteResult "" [].

Definition Route (id : BlockId) (r : Router) : RouteResult :=
  match r_ring r, r_peers r with
  | [], _ => empty_route
  | _, [] => empty_route
  | ring, peers =>
      let target := HashBlock id in
      let lo := lower_bound (length ring) ring target 0 (length ring) in
      let idx := (lo mod length ring)%nat in
      let want := Nat.max 1 (r_replication_factor r) in
      match walk ring peers want idx (seq 0 (length ring)) [] ∅ with
      | [] => empty_route
      | p :: rest => mkRouteResult p rest
      end
  end.

Definition IsLocalPrimary (id : BlockId) (r : Router) : bool :=
  String.eqb (primary (Route id r)) (r_local_node_id r).

Definition IsLocalReplica (id : BlockId) (r : Router) : bool :=
  let res := Route id r in
  if String.eqb (primary res) (r_local_node_id r) then true
  else existsb (λ p, String.eqb p (r_local_node_id r)) (replicas res).

(** ** The binary search *)

Definition ring_sorted (ring : list RingEntry) : Prop :=
  ∀ i j a b, (i ≤ j)%nat → ring !! i = Some a → ring !! j = Some b → re_hash a ≤ re_hash b.

Lemma Sorted_ring_sorted ring : Sorted hash_le ring → ring_sorted ring.
Proof.
  intros Hs i j a b Hij Ha Hb.
  assert (StronglySorted hash_le ring) as Hss.
  { apply Sorted_StronglySorted; [|done]. intros x y z. unfold hash_le. lia. }
  clear Hs. revert i j Hij Ha Hb. induction Hss as [|x l Hl IH Hall]; intros i j Hij Ha Hb; [done|].
  destruct j as [|j], i as [|i]; simplify_eq/=; try lia.
  - rewrite Forall_forall in Hall. apply Hall. by eapply list_elem_of_lookup_2.
  - apply (IH i j); [lia|done..].
Qed.

(** With as much fuel as the interval is long the loop stops, at the place
    where the entries stop being below the target. *)
Lemma lower_bound_spec fuel ring target lo hi :
  ring_sorted ring → (lo ≤ hi ≤ length ring)%nat → (hi - lo ≤ fuel)%nat →
  (∀ i e, (i < lo)%nat → ring !! i = Some e → re_hash e < target) →
  (∀ i e, (hi ≤ i)%nat → ring !! i = Some e → target ≤ re_hash e) →
  let n := lower_bound fuel ring target lo hi in
  (lo ≤ n ≤ hi)%nat ∧
  (∀ i e, (i < n)%nat → ring !! i = Some e → re_hash e < target) ∧
  (∀ i e, (n ≤ i)%nat → ring !! i = Some e → target ≤ re_hash e).
Proof.
  intros Hs. revert lo hi. induction fuel as [|fuel IH]; intros lo hi Hr Hf Hl Hh;
    cbn [lower_bound]; cbv zeta.
  { assert (lo = hi) as -> by lia. split_and!; auto; lia. }
  destruct (lo <? hi)%nat eqn:Hlt.
  2:{ apply Nat.ltb_ge in Hlt. assert (lo = hi) as -> by lia. split_and!; auto; lia. }
  apply Nat.ltb_lt in Hlt.
  pose proof (Nat.div_lt (hi - lo) 2 ltac:(lia) ltac:(lia)) as Hd.
  destruct (lookup_lt_is_Some_2 ring (lo + (hi - lo) / 2)) as [e He]; [lia|].
  rewrite (list_lookup_total_correct _ _ _ He).
  destruct (re_hash e <? target) eqn:Hc; zbool.
  - destruct (IH (S (lo + (hi - lo) / 2)) hi) as (? & ? & ?); [lia|lia| |done|split_and!; auto; lia].
    intros i e' Hi He'. pose proof (Hs i (lo + (hi - lo) / 2)%nat e' e ltac:(lia) He' He). lia.
  - destruct (IH lo (lo + (hi - lo) / 2)%nat) as (? & ? & ?); [lia|lia|done| |split_and!; auto; lia].
    intros i e' Hi He'. pose proof (Hs (lo + (hi - lo) / 2)%nat i e e' ltac:(lia) He He'). lia.
Qed.

(** ** The reference order

    The distinct peers met when walking the ring clockwise from the target:
    what the walk would pick without a bound on the number of owners. *)

Fixpoint distinct (seen : gset string) (l : list string) : list string :=
  match l with
  | [] => []
  | p :: l => if bool_decide (p ∈ seen) then distinct seen l else p :: distinct ({[p]} ∪ seen) l
  end.

(** The entries at or after the target, then the ones before it. *)
Definition clockwise (target : Z) (l : list (Z * string)) : list (Z * string) :=
  filter (λ x, target ≤ x.1) l ++ filter (λ x, x.1 < target) l.

Definition named (peers : list string) (ring : list RingEntry) : list (Z * string) :=
  (λ e, (re_hash e, peers !!! re_peer_idx e)) <$> ring.

Definition preference (id : BlockId) (r : Router) : list string :=
  distinct ∅ (clockwise (HashBlock id) (named (r_peers r) (r_ring r))).*2.

Definition owners (res : RouteResult) : list string := primary res :: replicas res.

Lemma walk_spec ring peers want idx todo picked seen :
  (length picked ≤ want)%nat →
  walk ring peers want idx todo picked seen =
  picked ++ take (want - length picked)
    (distinct seen ((λ step, peers !!! re_peer_idx (ring !!! ((idx + step) mod length ring)%nat)) <$> todo)).
Proof.
  revert picked seen. induction todo as [|st todo IH]; intros picked seen Hl; simpl.
  { by rewrite take_nil, app_nil_r. }
  destruct (length picked <? want)%nat eqn:Hlt.
  - apply Nat.ltb_lt in Hlt. case_bool_decide as Hin; [by apply IH|].
    rewrite IH by (rewrite length_app; simpl; lia). rewrite length_app. simpl length.
    replace (want - length picked)%nat with (S (want - (length picked + 1))) by lia.
    simpl. by rewrite <- app_assoc.
  - apply Nat.ltb_ge in Hlt. replace (want - length picked)%nat with 0%nat by lia.
    by rewrite take_0, app_nil_r.
Qed.

(** The indices of the walk enumerate the ring from [idx] on and around. *)
Lemma rotation {A} `{!Inhabited A} (l : list A) (idx : nat) :
  (idx < length l)%nat →
  (λ step, l !!! ((idx + step) mod length l)%nat) <$> seq 0 (length l) = drop idx l ++ take idx l.
Proof.
  intros Hi. apply list_eq. intros n. rewrite list_lookup_fmap.
  destruct (decide (n < length l)%nat) as [Hn|Hn].
  2:{ rewrite lookup_seq_ge by lia. symmetry. apply lookup_ge_None.
      rewrite length_app, length_drop, length_take. lia. }
  rewrite lookup_seq_lt by done. simpl. symmetry.
  destruct (decide (idx + n < length l)%nat) as [H|H].
  - rewrite lookup_app_l, lookup_drop by (rewrite length_drop; lia).
    rewrite Nat.mod_small by done. apply list_lookup_lookup_total_lt. lia.
  - rewrite lookup_app_r, length_drop by (rewrite length_drop; lia).
    assert ((idx + n) mod length l = n - (length l - idx))%nat as ->.
    { replace (idx + n)%nat with (n - (length l - idx) + 1 * length l)%nat by lia.
      rewrite Nat.Div0.mod_add, Nat.mod_small; lia. }
    rewrite lookup_take_lt by lia. apply list_lookup_lookup_total_lt. lia.
Qed.

(** A list cut where the entries stop being below the target. *)
Lemma clockwise_cut target (l : list (Z * string)) n :
  Forall (λ x, x.1 < target) (take n l) → Forall (λ x, target ≤ x.1) (drop n l) →
  clockwise target l = drop n l ++ take n l.
Proof.
  intros Ht Hd. unfold clockwise. rewrite <- (take_drop n l) at 1 2. rewrite !filter_app.
  rewrite (filter_none (λ x, target ≤ x.1) (take n l)), (filter_all _ (drop n l)) by
    first [done|eapply Forall_impl; [exact Ht|]; simpl; lia].
  rewrite (filter_none (λ x, x.1 < target) (drop n l)), (filter_all _ (take n l)) by
    first [done|eapply Forall_impl; [exact Hd|]; simpl; lia].
  by rewrite app_nil_r.
Qed.

Lemma Route_unfold id r :
  r_ring r ≠ [] → r_peers r ≠ [] →
  Route id r =
  match walk (r_ring r) (r_peers r) (Nat.max 1 (r_replication_factor r))
          (lower_bound (length (r_ring r)) (r_ring r) (HashBlock id) 0 (length (r_ring r))
             mod length (r_ring r))%nat
          (seq 0 (length (r_ring r))) [] ∅ with
  | [] => empty_route
  | p :: rest => mkRouteResult p rest
  end.
Proof. unfold Route. by destruct (r_ring r), (r_peers r). Qed.

(** The walk picks a prefix of the reference order. *)
Lemma Route_preference id r :
  ring_sorted (r_ring r) → r_ring r ≠ [] → r_peers r ≠ [] →
  owners (Route id r) = take (Nat.max 1 (r_replication_factor r)) (preference id r).
Proof.
  intros Hs Hring Hpeers. rewrite Route_unfold by done. unfold preference.
  destruct (lower_bound_spec (length (r_ring r)) (r_ring r) (HashBlock id) 0 (length (r_ring r)))
    as (Hn & Hlt & Hge); [done|lia|lia|lia| |].
  { intros i e Hi He. apply lookup_lt_Some in He. lia. }
  set (n := lower_bound _ _ _ _ _) in *.
  assert (0 < length (r_ring r))%nat as Hpos by (destruct (r_ring r); [done|simpl; lia]).
  set (idx := (n mod length (r_ring r))%nat).
  assert (idx < length (r_ring r))%nat as Hidx by (apply Nat.mod_upper_bound; lia).
  assert (clockwise (HashBlock id) (named (r_peers r) (r_ring r)) =
          named (r_peers r) (drop idx (r_ring r) ++ take idx (r_ring r))) as ->.
  { rewrite (clockwise_cut _ _ n).
    - unfold named. rewrite <- fmap_drop, <- fmap_take, <- fmap_app. f_equal.
      destruct (decide (n < length (r_ring r))%nat).
      + unfold idx. by rewrite Nat.mod_small.
      + assert (n = length (r_ring r)) as Hnl by lia.
        unfold idx. rewrite Hnl, Nat.Div0.mod_same, drop_all, firstn_all, drop_0, take_0. by rewrite app_nil_r.
    - unfold named. rewrite <- fmap_take, Forall_fmap. apply Forall_lookup. intros i e He. simpl.
      apply lookup_take_Some in He as [He Hi]. by apply (Hlt i).
    - unfold named. rewrite <- fmap_drop, Forall_fmap. apply Forall_lookup. intros i e He. simpl.
      rewrite lookup_drop in He. apply (Hge (n + i)%nat); [lia|done]. }
  rewrite <- rotation by done. unfold named.
  rewrite <- !list_fmap_compose.
  pose proof (walk_spec (r_ring r) (r_peers r) (Nat.max 1 (r_replication_factor r)) idx
    (seq 0 (length (r_ring r))) [] ∅ ltac:(simpl; lia)) as Hw.
  rewrite Nat.sub_0_r in Hw. simpl app in Hw. rewrite Hw.
  destruct (length (r_ring r)) as [|k] eqn:Hk; [lia|].
  by destruct (Nat.max 1 (r_replication_factor r)) as [|w] eqn:Hm; [lia|].
Qed.

(** ** Distinct peers *)

Lemma distinct_spec seen l :
  NoDup (distinct seen l) ∧ ∀ p, p ∈ distinct seen l ↔ p ∈ l ∧ p ∉ seen.
Proof.
  revert seen. induction l as [|q l IH]; intros seen; simpl.
  { split; [constructor|]. set_solver. }
  case_bool_decide as Hq.
  - destruct (IH seen) as [Hnd Hel]. split; [done|]. intros p. rewrite Hel, elem_of_cons.
    destruct (decide (p = q)) as [->|]; tauto.
  - destruct (IH ({[q]} ∪ seen)) as [Hnd Hel]. split.
    + constructor; [|done]. rewrite Hel, not_elem_of_union, not_elem_of_singleton. tauto.
    + intros p. rewrite !elem_of_cons, Hel, not_elem_of_union, not_elem_of_singleton.
      destruct (decide (p = q)) as [->|]; tauto.
Qed.

Lemma distinct_NoDup l : NoDup (distinct ∅ l).
Proof. apply distinct_spec. Qed.

Lemma elem_of_distinct p l : p ∈ distinct ∅ l ↔ p ∈ l.
Proof. rewrite (proj2 (distinct_spec ∅ l)). set_solver. Qed.

(** Dropping one peer from the walk drops it from the picked peers. *)
Lemma distinct_filter p seen l :
  distinct seen (filter (λ q, q ≠ p) l) = filter (λ q, q ≠ p) (distinct seen l).
Proof.
  revert seen. induction l as [|q l IH]; intros seen; [done|]. simpl.
  destruct (decide (q = p)) as [->|Hne].
  - rewrite filter_cons_False by (by intros []). case_bool_decide; [by apply IH|].
    rewrite filter_cons_False by (by intros []). rewrite <- IH. clear IH H.
    (* the mark left by [p] is never consulted *)
    generalize seen. induction l as [|q l IH]; intros s; [done|]. simpl.
    destruct (decide (q = p)) as [->|Hq];
      [rewrite filter_cons_False by (by intros []); apply IH|].
    rewrite filter_cons_True by done. simpl.
    destruct (decide (q ∈ s)).
    + rewrite !bool_decide_true by set_solver. apply IH.
    + rewrite !bool_decide_false by set_solver. f_equal. rewrite IH. f_equal. set_solver.
  - rewrite filter_cons_True by done. simpl. case_bool_decide; [by apply IH|].
    rewrite filter_cons_True by done. by rewrite IH.
Qed.

Lemma clockwise_filter target (P : Z * string → Prop) `{∀ x, Decision (P x)} l :
  clockwise target (filter P l) = filter P (clockwise target l).
Proof.
  unfold clockwise. rewrite filter_app, !list_filter_filter. f_equal; apply list_filter_iff; tauto.
Qed.

Lemma clockwise_perm target l : clockwise target l ≡ₚ l.
Proof.
  unfold clockwise. induction l as [|x l IH]; [done|].
  rewrite !filter_cons. destruct (decide (target ≤ x.1)).
  - rewrite decide_False by lia. simpl. by rewrite IH.
  - rewrite decide_True by lia. rewrite <- Permutation_middle. by rewrite IH.
Qed.

(** ** The ring that [SetPeers] builds *)

(** Every virtual node with its hash. *)
Definition vnodes (v : nat) (peer_ids : list string) : list (Z * string) :=
  concat ((λ p, (λ vn, (HashVirtualNode p vn, p)) <$> seq 0 v) <$> peer_ids).

(** No two virtual nodes of the peer set share a ring position. *)
Definition no_collision (v : nat) (peer_ids : list string) : Prop :=
  NoDup (vnodes v peer_ids).*1.

Lemma named_ring_entries v peer_ids pre :
  named (pre ++ peer_ids)
    (concat (imap (λ i peer, (λ vn, mkRingEntry (HashVirtualNode peer vn) (length pre + i)) <$> seq 0 v)
       peer_ids)) = vnodes v peer_ids.
Proof.
  revert pre. induction peer_ids as [|p ps IH]; intros pre; [done|].
  unfold named, vnodes in *. rewrite imap_cons, !fmap_cons, !concat_cons, fmap_app. f_equal.
  - rewrite <- list_fmap_compose. apply list_fmap_ext. intros i vn _. simpl. f_equal.
    rewrite Nat.add_0_r. apply list_lookup_total_correct, list_lookup_middle. done.
  - rewrite <- (IH (pre ++ [p])). rewrite <- app_assoc. simpl. f_equal. f_equal.
    apply imap_ext. intros i q _. simpl. apply list_fmap_ext. intros _ vn _. f_equal.
    rewrite length_app. simpl. lia.
Qed.

Lemma named_ring (sort : Sorter) v peer_ids :
  named peer_ids (sort (ring_entries v peer_ids)) ≡ₚ vnodes v peer_ids.
Proof.
  rewrite <- (named_ring_entries v peer_ids []). unfold named, ring_entries. simpl.
  by rewrite (sort_ring_perm sort).
Qed.

Definition key_le (a b : Z * string) : Prop := a.1 ≤ b.1.

Lemma named_ring_sorted (sort : Sorter) v peer_ids :
  StronglySorted key_le (named peer_ids (sort (ring_entries v peer_ids))).
Proof.
  assert (StronglySorted hash_le (sort (ring_entries v peer_ids))) as Hs.
  { apply Sorted_StronglySorted; [|apply sort_ring_sorted]. intros x y z. unfold hash_le. lia. }
  unfold named. induction Hs as [|e l _ IH Hall]; [constructor|]. simpl.
  constructor; [done|]. apply Forall_fmap. eapply Forall_impl; [exact Hall|]. done.
Qed.

Lemma NoDup_fst_inj (l : list (Z * string)) x y :
  NoDup l.*1 → x ∈ l → y ∈ l → x.1 = y.1 → x = y.
Proof.
  intros Hnd [i Hx]%list_elem_of_lookup [j Hy]%list_elem_of_lookup E.
  assert (i = j) as ->; [|congruence].
  eapply (NoDup_lookup l.*1); [done|by rewrite list_lookup_fmap, Hx|].
  by rewrite list_lookup_fmap, Hy, E.
Qed.

(** Without collisions the sorted order of a set of virtual nodes is unique,
    so the sort's freedom does not show. *)
Lemma sorted_vnodes_unique l1 l2 :
  NoDup l1.*1 → l1 ≡ₚ l2 → StronglySorted key_le l1 → StronglySorted key_le l2 → l1 = l2.
Proof.
  intros Hnd Hp H1 H2. apply (StronglySorted_unique_strong key_le); [|done..].
  intros x y Hx Hy Hxy Hyx. eapply NoDup_fst_inj; [exact Hnd|done|by rewrite Hp|].
  unfold key_le in *. lia.
Qed.

Lemma StronglySorted_filter_key (P : Z * string → Prop) `{∀ x, Decision (P x)} l :
  StronglySorted key_le l → StronglySorted key_le (filter P l).
Proof.
  induction 1 as [|x l Hl IH Hall]; [constructor|]. rewrite filter_cons.
  case_decide; [|done]. constructor; [done|]. apply Forall_forall. intros y [_ Hy]%list_elem_of_filter.
  by apply (proj1 (Forall_forall _ _) Hall).
Qed.

Lemma NoDup_fst_filter (P : Z * string → Prop) `{∀ x, Decision (P x)} l :
  NoDup l.*1 → NoDup (filter P l).*1.
Proof.
  induction l as [|x l IH]; [done|]. rewrite fmap_cons, NoDup_cons. intros [Hx Hl].
  rewrite filter_cons. case_decide; [|by apply IH]. rewrite fmap_cons, NoDup_cons.
  split; [|by apply IH]. contradict Hx. apply list_elem_of_fmap in Hx as (y & -> & [_ Hy]%list_elem_of_filter).
  apply list_elem_of_fmap. by exists y.
Qed.

Lemma snd_filter p (l : list (Z * string)) :
  (filter (λ x, x.2 ≠ p) l).*2 = filter (λ q, q ≠ p) l.*2.
Proof.
  induction l as [|[h q] l IH]; [done|]. rewrite filter_cons, fmap_cons, filter_cons. cbn [snd].
  case_decide; [|done]. rewrite fmap_cons. cbn [snd]. by rewrite IH.
Qed.

Lemma vnodes_filter v p ps :
  vnodes v (filter (λ q, q ≠ p) ps) = filter (λ x, x.2 ≠ p) (vnodes v ps).
Proof.
  unfold vnodes. induction ps as [|q ps IH]; [done|]. rewrite fmap_cons, concat_cons, filter_app.
  destruct (decide (q = p)) as [->|Hne].
  - rewrite filter_cons_False by (by intros []). rewrite IH.
    rewrite (filter_none (λ x, x.2 ≠ p) (_ <$> _)); [done|].
    apply Forall_fmap, Forall_true. intros vn Hf. by apply Hf.
  - rewrite filter_cons_True, fmap_cons, concat_cons, IH by done.
    rewrite (filter_all (λ x, x.2 ≠ p) (_ <$> _)); [done|]. by apply Forall_fmap, Forall_true.
Qed.

Lemma no_collision_filter v p ps : no_collision v ps → no_collision v (filter (λ q, q ≠ p) ps).
Proof. intros H. unfold no_collision. rewrite vnodes_filter. by apply NoDup_fst_filter. Qed.

Lemma elem_of_vnodes v ps p : (0 < v)%nat → p ∈ (vnodes v ps).*2 ↔ p ∈ ps.
Proof.
  intros Hv. unfold vnodes. induction ps as [|q ps IH]; [done|].
  rewrite fmap_cons, concat_cons, fmap_app, elem_of_app, IH, elem_of_cons.
  rewrite <- list_fmap_compose. split; (intros [H|H]; [left|by right]).
  - by apply list_elem_of_fmap in H as (vn & -> & _).
  - subst. apply list_elem_of_fmap. exists 0%nat. split; [done|]. apply elem_of_seq. lia.
Qed.

Section set_peers.
Context (sort : Sorter) (ps : list string) (r : Router).
Let r' := SetPeers sort ps r.

Lemma SetPeers_named :
  named (r_peers r') (r_ring r') ≡ₚ vnodes (r_vnodes_per_peer r) ps ∧
  StronglySorted key_le (named (r_peers r') (r_ring r')).
Proof. split; [apply named_ring|apply named_ring_sorted]. Qed.

Lemma SetPeers_ring_sorted : ring_sorted (r_ring r').
Proof. apply Sorted_ring_sorted, sort_ring_sorted. Qed.

Lemma SetPeers_ring_nonempty : (0 < r_vnodes_per_peer r)%nat → ps ≠ [] → r_ring r' ≠ [].
Proof.
  intros Hv Hps E. pose proof (proj1 SetPeers_named) as Hp. rewrite E in Hp.
  apply Permutation_nil_l in Hp. destruct ps as [|p ps']; [done|].
  pose proof (proj2 (elem_of_vnodes (r_vnodes_per_peer r) (p :: ps') p Hv) ltac:(by left)) as Hin.
  rewrite <- Hp in Hin. by apply not_elem_of_nil in Hin.
Qed.

Lemma SetPeers_preference_elem id p :
  (0 < r_vnodes_per_peer r)%nat → p ∈ preference id r' ↔ p ∈ ps.
Proof.
  intros Hv. unfold preference. rewrite elem_of_distinct, clockwise_perm, (proj1 SetPeers_named).
  by apply elem_of_vnodes.
Qed.

Lemma SetPeers_preference_perm id :
  (0 < r_vnodes_per_peer r)%nat → NoDup ps → preference id r' ≡ₚ ps.
Proof.
  intros Hv Hnd. apply NoDup_Permutation; [apply distinct_NoDup|done|].
  intros p. by apply SetPeers_preference_elem.
Qed.

Lemma SetPeers_owners id :
  (0 < r_vnodes_per_peer r)%nat → ps ≠ [] →
  owners (Route id r') = take (Nat.max 1 (r_replication_factor r)) (preference id r').
Proof.
  intros Hv Hps. apply (Route_preference id r').
  - apply SetPeers_ring_sorted.
  - by apply SetPeers_ring_nonempty.
  - done.
Qed.
End set_peers.

(** The reference order depends on the set of virtual nodes only. *)
Lemma preference_perm sort1 sort2 ps1 ps2 r1 r2 id :
  r_vnodes_per_peer r1 = r_vnodes_per_peer r2 → ps1 ≡ₚ ps2 →
  no_collision (r_vnodes_per_peer r1) ps1 →
  preference id (SetPeers sort1 ps1 r1) = preference id (SetPeers sort2 ps2 r2).
Proof.
  intros Hv Hps Hnc. unfold preference. do 3 f_equal.
  destruct (SetPeers_named sort1 ps1 r1) as [Hp1 Hs1], (SetPeers_named sort2 ps2 r2) as [Hp2 Hs2].
  apply sorted_vnodes_unique; [by rewrite Hp1| |done|done].
  rewrite Hp1, Hp2, Hv. unfold vnodes. by rewrite Hps.
Qed.

(** Removing a peer removes it from every reference order and changes nothing
    else. *)
Lemma preference_remove sort1 sort2 ps p r id :
  no_collision (r_vnodes_per_peer r) ps →
  preference id (SetPeers sort2 (filter (λ q, q ≠ p) ps) r) =
  filter (λ q, q ≠ p) (preference id (SetPeers sort1 ps r)).
Proof.
  intros Hnc. unfold preference.
  destruct (SetPeers_named sort1 ps r) as [Hp1 Hs1].
  destruct (SetPeers_named sort2 (filter (λ q, q ≠ p) ps) r) as [Hp2 Hs2].
  assert (named (r_peers (SetPeers sort2 (filter (λ q, q ≠ p) ps) r))
                (r_ring (SetPeers sort2 (filter (λ q, q ≠ p) ps) r)) =
          filter (λ x, x.2 ≠ p) (named (r_peers (SetPeers sort1 ps r)) (r_ring (SetPeers sort1 ps r)))) as ->.
  { symmetry. apply sorted_vnodes_unique; [| |by apply StronglySorted_filter_key|done].
    - rewrite Hp1. by apply NoDup_fst_filter.
    - rewrite Hp1, Hp2. by rewrite vnodes_filter. }
  rewrite clockwise_filter, <- distinct_filter. f_equal.
  apply snd_filter.
Qed.

(** Cutting a list to [w] before and after one element is dropped. *)
Lemma take_filter_notin {A} `{EqDecision A} (p : A) w L :
  p ∉ take w L → take w (filter (λ q, q ≠ p) L) = take w L.
Proof.
  intros Hp. rewrite <- (take_drop w L) at 1. rewrite filter_app, (filter_all _ (take w L)).
  - destruct (decide (w ≤ length L)%nat).
    + rewrite take_app_le by (rewrite length_take; lia). by rewrite take_take, Nat.min_id.
    + rewrite (drop_ge L) by lia. rewrite filter_nil, app_nil_r, take_take. by rewrite Nat.min_id.
  - apply Forall_forall. intros q Hq ->. done.
Qed.

Lemma take_filter_prefix {A} `{EqDecision A} (p : A) w L :
  filter (λ q, q ≠ p) (take w L) `prefix_of` take w (filter (λ q, q ≠ p) L).
Proof.
  rewrite <- (take_drop w L) at 2. rewrite filter_app.
  rewrite take_app_ge; [by eexists|].
  etrans; [apply length_filter|]. rewrite length_take. lia.
Qed.

(** Whether the local node is among the owners. *)
Lemma IsLocalReplica_spec id r :
  IsLocalReplica id r = true ↔ r_local_node_id r ∈ owners (Route id r).
Proof.
  unfold IsLocalReplica, owners. rewrite elem_of_cons.
  destruct (String.eqb_spec (primary (Route id r)) (r_local_node_id r)) as [E|E].
  { split; [intros _; by left|done]. }
  rewrite existsb_exists. split.
  - intros (x & Hx & ->%String.eqb_eq). right. by apply list_elem_of_In.
  - intros [?|Hx]; [congruence|]. exists (r_local_node_id r). split; [by apply list_elem_of_In|].
    by apply String.eqb_eq.
Qed.

(** C10 (routing): the binary search and the wrapping index walk compute the
    first owners of the reference order: walking clockwise from the block's
    position, the distinct peers in the order they are met.  The owners are
    pairwise different peers of the configured set, and there are as many as
    the replication factor asks for (at least one) or as there are peers. *)
Theorem route_owners sort ps r id :
  (0 < r_vnodes_per_peer r)%nat → ps ≠ [] → NoDup ps →
  let r' := SetPeers sort ps r in
  let want := Nat.max 1 (r_replication_factor r) in
  owners (Route id r') =
    take want (distinct ∅ (clockwise (HashBlock id) (named (r_peers r') (r_ring r'))).*2) ∧
  NoDup (owners (Route id r')) ∧
  (∀ p, p ∈ owners (Route id r') → p ∈ ps) ∧
  length (owners (Route id r')) = Nat.min want (length ps).
Proof.
  intros Hv Hps Hnd r' want. pose proof (SetPeers_owners sort ps r id Hv Hps) as Ho.
  change (SetPeers sort ps r) with r' in Ho. change (Nat.max 1 _) with want in Ho. rewrite Ho.
  split_and!; [done| | |].
  - eapply sublist_NoDup; [|apply sublist_take]. apply distinct_NoDup.
  - intros p (i & Hi & _)%elem_of_take. apply list_elem_of_lookup_2 in Hi.
    by apply SetPeers_preference_elem in Hi.
  - rewrite length_take. f_equal. apply Permutation_length.
    by apply (SetPeers_preference_perm sort ps r id).
Qed.

(** Agreement: two nodes that know the same set of peers, in whatever
    order and whatever their own names, route every block alike, provided no
    two virtual nodes collide. *)
Theorem route_agreement sort1 sort2 ps1 ps2 r1 r2 id :
  (0 < r_vnodes_per_peer r1)%nat → r_vnodes_per_peer r1 = r_vnodes_per_peer r2 →
  r_replication_factor r1 = r_replication_factor r2 →
  ps1 ≡ₚ ps2 → no_collision (r_vnodes_per_peer r1) ps1 →
  Route id (SetPeers sort1 ps1 r1) = Route id (SetPeers sort2 ps2 r2).
Proof.
  intros Hv Hvv Hrr Hps Hnc. destruct (decide (ps1 = [])) as [->|Hne].
  { apply Permutation_nil_l in Hps as <-. unfold Route. simpl.
    by destruct (sort1 _), (sort2 _). }
  assert (ps2 ≠ []) as Hne2 by (intros ->; by apply Permutation_nil_r in Hps).
  assert (owners (Route id (SetPeers sort1 ps1 r1)) = owners (Route id (SetPeers sort2 ps2 r2))) as Ho.
  { rewrite !SetPeers_owners by (done || by rewrite <- Hvv). rewrite Hrr. f_equal. by apply preference_perm. }
  destruct (Route id (SetPeers sort1 ps1 r1)), (Route id (SetPeers sort2 ps2 r2)).
  by injection Ho as -> ->.
Qed.

(** C11 (minimal disruption and failover): removing a peer from the set leaves
    the owners of every block that it did not own unchanged; for a block that
    it owned, the other owners stay owners in the same order, ahead of any new
    one, so when the primary goes away the first replica becomes the primary. *)
Theorem route_failover sort1 sort2 ps p r id :
  (0 < r_vnodes_per_peer r)%nat → no_collision (r_vnodes_per_peer r) ps →
  filter (λ q, q ≠ p) ps ≠ [] →
  let before := Route id (SetPeers sort1 ps r) in
  let after := Route id (SetPeers sort2 (filter (λ q, q ≠ p) ps) r) in
  (p ∉ owners before → after = before) ∧
  filter (λ q, q ≠ p) (owners before) `prefix_of` owners after ∧
  p ∉ owners after ∧
  (primary before = p → ∀ q rest, replicas before = q :: rest → primary after = q).
Proof.
  intros Hv Hnc Hrest before after.
  assert (ps ≠ []) as Hps by (intros ->; done).
  assert (owners before = take (Nat.max 1 (r_replication_factor r)) (preference id (SetPeers sort1 ps r)))
    as Hb by (by apply SetPeers_owners).
  assert (owners after = take (Nat.max 1 (r_replication_factor r))
    (filter (λ q, q ≠ p) (preference id (SetPeers sort1 ps r)))) as Ha.
  { unfold after. rewrite SetPeers_owners by done. f_equal. by apply preference_remove. }
  assert (filter (λ q, q ≠ p) (owners before) `prefix_of` owners after) as Hpre.
  { rewrite Hb, Ha. apply take_filter_prefix. }
  split_and!; [| done | |].
  - intros Hp. assert (owners after = owners before) as E.
    { rewrite Ha. rewrite Hb in Hp |- *. by apply take_filter_notin. }
    destruct after, before. by injection E as -> ->.
  - rewrite Ha. intros (i & Hi & _)%elem_of_take. apply list_elem_of_lookup_2 in Hi.
    apply list_elem_of_filter in Hi as [Hi _]. done.
  - intros Hprim q rest Hrep. destruct Hpre as [tl Htl]. unfold owners in Htl.
    assert (q ≠ p) as Hqp.
    { intros ->. assert (NoDup (owners before)) as Hnd.
      { rewrite Hb. eapply sublist_NoDup; [|apply sublist_take]. apply distinct_NoDup. }
      unfold owners in Hnd. rewrite Hprim, Hrep in Hnd.
      apply NoDup_cons in Hnd as [Hnd _]. apply Hnd. by left. }
    rewrite Hprim, Hrep, filter_cons_False, filter_cons_True in Htl by (done || by intros []).
    by injection Htl as -> _.
Qed.
End router.

(** ** Concrete rings *)

#[export] Instance hash_le_dec a b : Decision (hash_le a b).
Proof. unfold hash_le. apply _. Defined.

Program Definition merge_sorter : Sorter := mkSorter (merge_sort hash_le) _ _.
Next Obligation.
  intros l. apply Sorted_merge_sort. intros x y. unfold hash_le. lia.
Qed.
Next Obligation. intros l. apply merge_sort_Permutation. Qed.

(** A stand-in for BLAKE3: every byte of the digest is three times the first
    byte of the key plus the last. *)
Definition wit_blake3 (bs : bytes) : Hash256 :=
  hash_of_byte (byte_of_Z (3 * Z_of_byte (default Byte.x00 (head bs)) + Z_of_byte (default Byte.x00 (last bs)))).

Definition wit_router : Router := make_router "a" 2 2.
Definition wit_peers : list string := ["a"; "b"; "c"].
Definition wit_bid : BlockId := block_id_of_byte Byte.x55.

Lemma wit_no_collision : no_collision wit_blake3 2 wit_peers.
Proof. unfold no_collision. apply (bool_decide_unpack _). vm_compute. exact I. Qed.

Lemma route_owners_witness :
  owners (Route wit_bid (SetPeers wit_blake3 merge_sorter wit_peers wit_router)) = ["b"; "c"] ∧
  NoDup (owners (Route wit_bid (SetPeers wit_blake3 merge_sorter wit_peers wit_router))).
Proof.
  split; [by vm_compute|].
  apply (route_owners wit_blake3 merge_sorter wit_peers wit_router wit_bid); [simpl; lia|done|].
  apply (bool_decide_unpack _). vm_compute. exact I.
Defined.

Lemma route_agreement_witness :
  Route wit_bid (SetPeers wit_blake3 merge_sorter wit_peers wit_router) =
  Route wit_bid (SetPeers wit_blake3 merge_sorter ["c"; "b"; "a"] (make_router "b" 2 2)).
Proof.
  apply (route_agreement wit_blake3); [simpl; lia|done|done| |apply wit_no_collision].
  exact (Permutation_rev wit_peers).
Defined.

Lemma route_failover_witness :
  primary (Route wit_bid (SetPeers wit_blake3 merge_sorter
             (filter (λ q, q ≠ "b") wit_peers) wit_router)) = "c".
Proof.
  destruct (route_failover wit_blake3 merge_sorter merge_sorter wit_peers "b" wit_router wit_bid)
    as (_ & _ & _ & Hf); [simpl; lia|apply wit_no_collision|by vm_compute|].
  apply (Hf ltac:(by vm_compute) "c" []). by vm_compute.
Defined.
