(* ===== verification/HashCompat.v ===== *)
(** * The hash compatibility driver (hash_compat_driver.cpp, blake3_helper.hpp)

    A filter that reads requests line by line and prints BLAKE3 digests in
    hexadecimal: the chained hash of a block of tokens, or the key of a
    virtual node.  It is compared with the Python client; the theorems relate
    its text protocol to the digests that the server computes.  The incremental
    hasher is vendored code and is a parameter; its documented law is that
    feeding the input in pieces gives the digest of the whole. *)
From Stdlib Require Import Ascii.
From stdpp Require Import pretty.
From S2P Require Import Prelude Types Text Routing.

(** The interface of blake3.h. *)
Class Blake3 (H : Type) := {
  blake3_hasher_init : H;
  blake3_hasher_update : H → bytes → H;
  blake3_hasher_finalize : H → Hash256
}.

Class Blake3Spec (H : Type) `{Blake3 H} : Prop :=
  blake3_pieces parts :
    blake3_hasher_finalize (fold_left blake3_hasher_update parts blake3_hasher_init) =
    blake3_hasher_finalize (blake3_hasher_update blake3_hasher_init (concat parts)).

(** ** Hexadecimal *)

Definition nyb (c : ascii) : option Z :=
  let n := Z.of_nat (nat_of_ascii c) in
  if (48 <=? n) && (n <=? 57) then Some (n - 48)
  else if (97 <=? n) && (n <=? 102) then Some (n - 97 + 10)
  else if (65 <=? n) && (n <=? 70) then Some (n - 65 + 10)
  else None.

(** The loop over the pairs of characters. *)
Fixpoint hex_pairs (hex : string) : option bytes :=
  match hex with
  | String c1 (String c2 rest) =>
      hi ← nyb c1; lo ← nyb c2; bs ← hex_pairs rest;
      Some (byte_of_Z (Z.lor (Z.shiftl hi 4) lo) :: bs)
  | _ => Some []
  end.

Definition hex_to_bytes (hex : string) : option Hash256 :=
  if (String.length hex =? 64)%nat then vec_resize 32 <$> hex_pairs hex else None.

(** [kHex[i]]. *)
Definition kHex : string := "0123456789abcdef".
Definition hex_char (i : Z) : ascii := default "0"%char (String.get (Z.to_nat i) kHex).

Fixpoint bytes_to_hex (data : bytes) : string :=
  match data with
  | [] => ""
  | b :: data =>
      String (hex_char (Z.shiftr (Z_of_byte b) 4))
        (String (hex_char (Z.land (Z_of_byte b) 0xF)) (bytes_to_hex data))
  end.

(** ** The two modes *)

(** [while (iss >> t)]; an extraction consumes at least one character, so the
    length of the line bounds the turns. *)
Fixpoint read_tokens (fuel : nat) (s : string) : list Z :=
  match fuel with
  | O => []
  | S fuel =>
      match extract_u32 s with
      | Some (t, rest) => t :: read_tokens fuel rest
      | None => []
      end
  end.

(** The four bytes of one token, least significant first. *)
Definition pack_token (v : Z) : bytes :=
  byte_of_Z <$> [Z.land v 0xFF; Z.land (Z.shiftr v 8) 0xFF; Z.land (Z.shiftr v 16) 0xFF;
                 Z.land (Z.shiftr v 24) 0xFF].

Section driver.
Context {H : Type} `{Blake3 H}.

(** blake3_helper.hpp. *)
Definition blake3_full (input : bytes) : Hash256 :=
  blake3_hasher_finalize (blake3_hasher_update blake3_hasher_init input).

Definition default_line (line : string) : option string :=
  let '(prev_hex, rest) := default ("", "") (extract_word line) in
  prev ← hex_to_bytes prev_hex;
  let tokens := read_tokens (S (String.length rest)) rest in
  let h := blake3_hasher_update blake3_hasher_init (vec_to_list prev) in
  let h := fold_left (λ h v, blake3_hasher_update h (pack_token v)) tokens h in
  Some (bytes_to_hex (vec_to_list (blake3_hasher_finalize h))).

Definition ring_key_line (line : string) : option string :=
  '(peer, rest) ← extract_word line;
  '(vn, _) ← extract_u32 rest;
  let key := peer +:+ "#" +:+ pretty (Z.to_N vn) in
  let h := blake3_hasher_update blake3_hasher_init (bytes_of_string key) in
  Some (bytes_to_hex (vec_to_list (blake3_hasher_finalize h))).

(** The loop over the lines of the input: what was printed and the exit code.
    Empty lines are skipped; the first bad one ends the run. *)
Fixpoint run_lines (f : string → option string) (lines out : list string) : list string * Z :=
  match lines with
  | [] => (out, 0)
  | line :: lines =>
      if String.eqb line "" then run_lines f lines out
      else match f line with
           | None => (out, 1)
           | Some digest => run_lines f lines (out ++ [digest])
           end
  end.

Definition run_mode (f : string → option string) (stdin : string) : string * Z :=
  let '(out, code) := run_lines f (getlines stdin) [] in (unlines out, code).

Definition run_default_mode : string → string * Z := run_mode default_line.
Definition run_ring_key_mode : string → string * Z := run_mode ring_key_line.

Definition main (args : list string) (stdin : string) : string * Z :=
  if existsb (String.eqb "--mode=ring_key") args then run_ring_key_mode stdin else run_default_mode stdin.
End driver.

(** ** Hexadecimal text *)

Lemma nyb_hex_char i : 0 ≤ i < 16 → nyb (hex_char i) = Some i.
Proof.
  intros Hi. assert (i ∈ [0;1;2;3;4;5;6;7;8;9;10;11;12;13;14;15]) as Hin by (rewrite !elem_of_cons; lia).
  repeat (apply elem_of_cons in Hin as [->|Hin]; [done|]). by apply not_elem_of_nil in Hin.
Qed.

Lemma nibbles b :
  0 ≤ Z.shiftr (Z_of_byte b) 4 < 16 ∧ 0 ≤ Z.land (Z_of_byte b) 15 < 16 ∧
  byte_of_Z (Z.lor (Z.shiftl (Z.shiftr (Z_of_byte b) 4) 4) (Z.land (Z_of_byte b) 15)) = b.
Proof. split; [|split]; destruct b; by vm_compute. Qed.

Lemma hex_pairs_to_hex bs : hex_pairs (bytes_to_hex bs) = Some bs.
Proof.
  induction bs as [|b bs IH]; [done|]. cbn [bytes_to_hex hex_pairs].
  destruct (nibbles b) as (H1 & H2 & H3). rewrite !nyb_hex_char by done. cbn [mbind option_bind].
  rewrite IH. cbn [option_bind]. by rewrite H3.
Qed.

Lemma length_bytes_to_hex bs : String.length (bytes_to_hex bs) = (2 * length bs)%nat.
Proof. induction bs as [|b bs IH]; [done|]. cbn [bytes_to_hex String.length length]. lia. Qed.

Lemma hex_to_bytes_to_hex (d : Hash256) : hex_to_bytes (bytes_to_hex (vec_to_list d)) = Some d.
Proof.
  unfold hex_to_bytes. rewrite length_bytes_to_hex, length_vec_to_list, hex_pairs_to_hex.
  change (2 * 32 =? 64)%nat with true. cbn [fmap option_fmap option_map]. by rewrite vec_resize_to_list.
Qed.

(** A hexadecimal text has neither blanks nor newlines. *)
Definition is_hex (a : ascii) : bool := if nyb a then true else false.

Lemma bytes_to_hex_digits bs : str_all is_hex (bytes_to_hex bs) = true.
Proof.
  induction bs as [|b bs IH]; [done|]. cbn [bytes_to_hex str_all]. destruct (nibbles b) as (H1 & H2 & _).
  unfold is_hex at 1 2. by rewrite !nyb_hex_char by done.
Qed.

Lemma is_hex_non_space a : is_hex a = true → non_space a = true.
Proof. by destruct a as [[] [] [] [] [] [] [] []]. Qed.

Lemma non_space_newline a : non_space a = true → negb (Ascii.eqb a newline) = true.
Proof. intros Ha. destruct (Ascii.eqb_spec a newline) as [->|]; [by vm_compute in Ha|done]. Qed.

(** ** Tokens *)

Lemma pack_token_le v : pack_token v = le_encode 4 v.
Proof.
  assert (∀ z n, 0 ≤ n → byte_of_Z (Z.land (Z.shiftr z n) 255) = byte_of_Z (z / 2 ^ n)) as Hb.
  { intros z n Hn. rewrite Z.shiftr_div_pow2 by done. change 255 with (Z.ones 8).
    rewrite Z.land_ones by lia. unfold byte_of_Z. by rewrite Zmod_mod. }
  unfold pack_token, le_encode. cbn [fmap list_fmap].
  rewrite <- (Z.shiftr_0_r v) at 1. rewrite !Hb by lia. rewrite Z.pow_0_r, Z.div_1_r.
  change (2 ^ 8) with 256. change (2 ^ 16) with (256 * 256). change (2 ^ 24) with (256 * 256 * 256).
  by rewrite !Z.div_div by lia.
Qed.

Definition print_tokens (ts : list N) : string := foldr (λ t s, " " +:+ pretty t +:+ s) "" ts.

Lemma print_tokens_head ts a s : print_tokens ts = String a s → a = " "%char.
Proof. destruct ts; [done|]. by intros [= <- _]. Qed.

Lemma read_print_tokens ts fuel :
  Forall (λ t, (t < 2 ^ 32)%N) ts → (length ts < fuel)%nat →
  read_tokens fuel (print_tokens ts) = Z.of_N <$> ts.
Proof.
  intros Hts. revert fuel. induction Hts as [|t ts Ht _ IH]; intros [|fuel] Hf; cbn [length] in Hf; try lia.
  - done.
  - cbn [print_tokens foldr]. fold (print_tokens ts). cbn [read_tokens].
    rewrite extract_u32_pretty by (done || (intros a s ->%print_tokens_head; done)).
    rewrite fmap_cons. f_equal. apply IH. lia.
Qed.

Lemma length_print_tokens ts : (length ts ≤ String.length (print_tokens ts))%nat.
Proof.
  induction ts as [|t ts IH]; [done|]. cbn [print_tokens foldr length]. fold (print_tokens ts).
  rewrite string_app_cons. cbn [String.length].
  assert (∀ s s', (String.length s' ≤ String.length (s +:+ s'))%nat) as Hle.
  { intros s s'. induction s as [|a s IHs]; [done|]. rewrite string_app_cons. cbn. lia. }
  specialize (Hle (pretty t) (print_tokens ts)). change ("" +:+ pretty t +:+ print_tokens ts)
    with (pretty t +:+ print_tokens ts). lia.
Qed.

Lemma print_tokens_newline ts : lacks newline (print_tokens ts) = true.
Proof.
  induction ts as [|t ts IH]; [done|]. cbn [print_tokens foldr]. fold (print_tokens ts).
  rewrite !lacks_app, IH. rewrite (lacks_str_all _ (pretty t)).
  rewrite (str_all_mono is_digit); [done| |apply pretty_digits].
  intros a Ha. by apply non_space_newline, is_digit_non_space.
Qed.

(** ** Runs *)

Lemma run_lines_ok f lines outs acc rest :
  Forall2 (λ l o, l ≠ "" ∧ f l = Some o) lines outs →
  run_lines f (lines ++ rest) acc = run_lines f rest (acc ++ outs).
Proof.
  intros HF. revert acc. induction HF as [|l o lines outs [Hne Hl] _ IH]; intros acc.
  - by rewrite app_nil_r.
  - cbn [app run_lines]. destruct (String.eqb_spec l ""); [done|]. by rewrite Hl, IH, <- app_assoc.
Qed.

Lemma run_mode_ok f lines outs :
  Forall (λ l, lacks newline l = true) lines → Forall2 (λ l o, l ≠ "" ∧ f l = Some o) lines outs →
  run_mode f (unlines lines) = (unlines outs, 0).
Proof.
  intros Hl HF. unfold run_mode. rewrite getlines_unlines by done.
  pose proof (run_lines_ok f lines outs [] [] HF) as Hr. rewrite app_nil_r in Hr. by rewrite Hr.
Qed.

(** A bad line ends the run after the output of the lines before it. *)
Lemma run_mode_bad f lines outs bad rest :
  Forall (λ l, lacks newline l = true) lines → Forall2 (λ l o, l ≠ "" ∧ f l = Some o) lines outs →
  lacks newline bad = true → bad ≠ "" → f bad = None →
  run_mode f (unlines (lines ++ [bad]) +:+ rest) = (unlines outs, 1).
Proof.
  intros Hl HF Hb Hne Hbad. unfold run_mode.
  assert (getlines (unlines (lines ++ [bad]) +:+ rest) = lines ++ bad :: getlines rest) as ->.
  { clear HF. induction Hl as [|l lines Hl _ IH]; cbn [app unlines foldr].
    - rewrite string_app_assoc, string_app_cons. by apply getlines_line.
    - rewrite string_app_assoc, string_app_cons, getlines_line by done. f_equal. exact IH. }
  rewrite (run_lines_ok f lines outs) by done. cbn [app run_lines].
  destruct (String.eqb_spec bad ""); [done|]. by rewrite Hbad.
Qed.

(** ** What the driver computes *)

Section driver_spec.
Context {H : Type} `{Blake3Spec H}.

(** The chained hash of one block: the previous digest, then the tokens as
    little-endian words. *)
Definition chained_block_hash (prev : Hash256) (tokens : list N) : Hash256 :=
  blake3_full (vec_to_list prev ++ concat (le_encode 4 ∘ Z.of_N <$> tokens)).

Definition print_request (req : Hash256 * list N) : string :=
  bytes_to_hex (vec_to_list req.1) +:+ print_tokens req.2.

Definition hex_of (d : Hash256) : string := bytes_to_hex (vec_to_list d).

Lemma hex_of_ne d : hex_of d ≠ "".
Proof.
  intros E. apply (f_equal String.length) in E. unfold hex_of in E.
  by rewrite length_bytes_to_hex, length_vec_to_list in E.
Qed.

Lemma hex_of_non_space d : str_all non_space (hex_of d) = true.
Proof. eapply str_all_mono; [apply is_hex_non_space|apply bytes_to_hex_digits]. Qed.

Lemma hex_of_newline d : lacks newline (hex_of d) = true.
Proof. rewrite lacks_str_all. eapply str_all_mono; [apply non_space_newline|apply hex_of_non_space]. Qed.

Lemma default_line_request prev ts :
  Forall (λ t, (t < 2 ^ 32)%N) ts →
  default_line (print_request (prev, ts)) = Some (hex_of (chained_block_hash prev ts)).
Proof.
  intros Hts. unfold default_line, print_request. cbn [fst snd].
  rewrite extract_word_app by (apply hex_of_ne || apply hex_of_non_space ||
    (intros a s ->%print_tokens_head; done)).
  cbn [from_option id]. rewrite hex_to_bytes_to_hex. cbn [mbind option_bind].
  rewrite read_print_tokens by (done || pose proof (length_print_tokens ts); lia).
  unfold hex_of, chained_block_hash, blake3_full. do 2 f_equal.
  pose proof (blake3_pieces (vec_to_list prev :: (pack_token ∘ Z.of_N <$> ts))) as Hp.
  cbn [fold_left concat] in Hp.
  assert (∀ h, fold_left (λ h v, blake3_hasher_update h (pack_token v)) (Z.of_N <$> ts) h =
    fold_left blake3_hasher_update (pack_token ∘ Z.of_N <$> ts) h) as ->.
  { clear. induction ts as [|t ts IH]; intros h; [done|]. apply IH. }
  rewrite Hp. do 5 f_equal. apply list_fmap_ext. intros i t _. apply pack_token_le.
Qed.

Definition digest_lines (reqs : list (Hash256 * list N)) : list string :=
  (λ r, hex_of (chained_block_hash r.1 r.2)) <$> reqs.

(** C35 (hash driver): for any requests, each the hexadecimal previous digest and
    its tokens, the driver prints one line per request and exits with 0; the
    lines read back as the chained hashes, so an output can be the previous
    digest of a later request.  A line whose first word is not 64 hexadecimal
    digits ends the run with code 1 after the lines before it. *)
Theorem driver_chained_hash reqs bad rest :
  Forall (λ r, Forall (λ t, (t < 2 ^ 32)%N) r.2) reqs →
  lacks newline bad = true → bad ≠ "" →
  hex_to_bytes (default ("", "") (extract_word bad)).1 = None →
  run_default_mode (unlines (print_request <$> reqs)) = (unlines (digest_lines reqs), 0) ∧
  hex_to_bytes <$> getlines (unlines (digest_lines reqs)) =
    (λ r, Some (chained_block_hash r.1 r.2)) <$> reqs ∧
  run_default_mode (unlines ((print_request <$> reqs) ++ [bad]) +:+ rest) = (unlines (digest_lines reqs), 1).
Proof.
  intros Hreqs Hb Hne Hbad.
  assert (Forall (λ l, lacks newline l = true) (print_request <$> reqs)) as Hl.
  { apply Forall_fmap, Forall_true. intros [p ts]. unfold print_request. cbn [compose fst snd].
    rewrite lacks_app, print_tokens_newline, andb_true_r. apply hex_of_newline. }
  assert (Forall2 (λ l o, l ≠ "" ∧ default_line l = Some o) (print_request <$> reqs) (digest_lines reqs)) as HF.
  { unfold digest_lines. clear Hl. induction Hreqs as [|[p ts] reqs Hr _ IH]; [constructor|].
    rewrite !fmap_cons. constructor; [|done]. split; [|by apply default_line_request].
    unfold print_request. cbn [fst]. pose proof (hex_of_ne p) as Hp. unfold hex_of in Hp.
    by destruct (bytes_to_hex p). }
  split_and!.
  - by apply run_mode_ok.
  - rewrite getlines_unlines.
    + unfold digest_lines. rewrite <- list_fmap_compose. apply list_fmap_ext. intros i r _. apply hex_to_bytes_to_hex.
    + apply Forall_fmap, Forall_true. intros r. apply hex_of_newline.
  - apply run_mode_bad; try done. unfold default_line.
    destruct (default ("", "") (extract_word bad)) as [w r]. cbn [fst] in Hbad. by rewrite Hbad.
Qed.

Definition print_vnode (v : string * nat) : string := v.1 +:+ " " +:+ pretty (N.of_nat v.2).

Lemma ring_key_line_vnode peer vn :
  peer ≠ "" → str_all non_space peer = true → Z.of_nat vn < 2 ^ 32 →
  ring_key_line (print_vnode (peer, vn)) = Some (hex_of (blake3_full (bytes_of_string (vnode_key peer vn)))).
Proof.
  intros Hne Hp Hvn. unfold ring_key_line, print_vnode. cbn [fst snd].
  rewrite extract_word_app by (done || (intros a s [= <- _]; done)). cbn [mbind option_bind].
  rewrite <- (string_app_nil_r (pretty (N.of_nat vn))), extract_u32_pretty by (done || lia).
  cbn [option_bind mbind]. do 2 f_equal. unfold blake3_full, vnode_key.
  replace (Z.to_N (Z.of_N (N.of_nat vn))) with (N.of_nat vn) by lia. done.
Qed.

(** Ring keys: in ring-key mode the driver prints, for each pair of a peer
    and a virtual node, the digest from which the router takes the position of
    that virtual node on its ring. *)
Theorem driver_ring_key_matches_router (vs : list (string * nat)) :
  Forall (λ v, v.1 ≠ "" ∧ str_all non_space v.1 = true ∧ Z.of_nat v.2 < 2 ^ 32) vs →
  ∃ out, main ["--mode=ring_key"] (unlines (print_vnode <$> vs)) = (out, 0) ∧
    (λ l, le_u64_from_digest <$> hex_to_bytes l) <$> getlines out =
    (λ v, Some (HashVirtualNode blake3_full v.1 v.2)) <$> vs.
Proof.
  intros Hvs. set (outs := (λ v, hex_of (blake3_full (bytes_of_string (vnode_key v.1 v.2)))) <$> vs).
  exists (unlines outs). split.
  - apply run_mode_ok.
    + apply Forall_fmap. eapply Forall_impl; [exact Hvs|]. intros [p vn] (_ & Hp & _). cbn [compose fst] in *.
      unfold print_vnode. cbn [fst snd]. rewrite !lacks_app, !lacks_str_all.
      rewrite (str_all_mono non_space), (str_all_mono is_digit _ (pretty _)); try done.
      * intros a Ha. by apply non_space_newline, is_digit_non_space.
      * apply pretty_digits.
      * apply non_space_newline.
    + unfold outs. induction Hvs as [|[p vn] vs (Hne & Hp & Hvn) _ IH]; [constructor|].
      rewrite !fmap_cons. constructor; [|done]. cbn [fst snd] in *. split.
      * unfold print_vnode. by destruct p.
      * by apply ring_key_line_vnode.
  - rewrite getlines_unlines.
    + unfold outs. rewrite <- list_fmap_compose. apply list_fmap_ext. intros i [p vn] _.
      cbn [compose]. unfold hex_of. by rewrite hex_to_bytes_to_hex.
    + apply Forall_fmap, Forall_true. intros v. apply hex_of_newline.
Qed.
End driver_spec.

(** ** A concrete run *)

(** A toy digest that satisfies the law: it keeps all input and cuts it. *)
#[export] Instance toy_blake3 : Blake3 bytes := {|
  blake3_hasher_init := [];
  blake3_hasher_update h d := h ++ d;
  blake3_hasher_finalize h := vec_resize 32 (reverse h)
|}.

#[export] Instance toy_blake3_spec : Blake3Spec bytes.
Proof.
  intros parts. cbn [blake3_hasher_init blake3_hasher_update blake3_hasher_finalize toy_blake3].
  assert (∀ h : bytes, fold_left (λ h d, h ++ d) parts h = h ++ concat parts) as Hf; [|by rewrite Hf].
  induction parts as [|p parts IH]; intros h; cbn; [by rewrite app_nil_r|]. by rewrite IH, app_assoc.
Qed.

Lemma driver_chained_hash_witness :
  let reqs := [(hash_of_byte Byte.x00, [1; 258]%N); (hash_of_byte Byte.xab, [])] in
  (run_default_mode (H := bytes) (unlines (print_request <$> reqs))).2 = 0 ∧
  (run_default_mode (H := bytes) (unlines ((print_request <$> reqs) ++ ["xyz 1"]) +:+ "more")).2 = 1.
Proof.
  set (reqs := [_; _]). destruct (driver_chained_hash (H := bytes) reqs "xyz 1" "more") as (E1 & _ & E3).
  - repeat constructor.
  - reflexivity.
  - discriminate.
  - reflexivity.
  - split; [by rewrite E1|by rewrite E3].
Defined.

Lemma driver_ring_key_matches_router_witness :
  ∃ out, main (H := bytes) ["--mode=ring_key"] (unlines (print_vnode <$> [("node0", 0%nat); ("node1", 127%nat)])) = (out, 0) ∧
    length (getlines out) = 2%nat.
Proof.
  destruct (driver_ring_key_matches_router (H := bytes) [("node0", 0%nat); ("node1", 127%nat)]) as (out & E & Hr).
  - repeat constructor; (discriminate || reflexivity).
  - exists out. split; [exact E|]. apply (f_equal length) in Hr. by rewrite !length_fmap in Hr.
Defined.
