(* ===== verification/Eviction.v ===== *)
(** * Eviction (eviction.hpp, eviction.cpp)

    One pass of the per-tier eviction thread: the watermark test, the SIEVE
    walk of a hand over the tier's snapshot, demotion or erase of each victim,
    the broadcast to the peers, and the record of what peers evicted.  The
    walk runs against the tiered store through its own operations; the order
    in which a snapshot lists the blocks is an argument, as the store keeps
    them in a hash map. *)
From S2P Require Import Prelude Types TierStore BlockStore SsdBlockStore TieredStore.

Record EvictionConfig : Type := mkEvictionConfig {
  high_watermark_pct : Z;
  low_watermark_pct : Z;
  scan_interval_ms : Z;
  broadcast_evictions : bool
}.

Record PassResult : Type := mkPassResult {
  hbm_evicted : nat;
  dram_evicted : nat;
  ssd_evicted : nat;
  bytes_freed : Z;
  blocks_broadcast : nat
}.

Definition no_pass : PassResult := mkPassResult 0 0 0 0 0.

(** [EvictorState] without its threads and gRPC channels: of the stub map only
    the addresses that have a channel are kept. *)
Record EvictorState : Type := mkEvictorState {
  ev_running : bool;
  ev_threads : list Tier;
  ev_hand_hbm : nat;
  ev_hand_dram : nat;
  ev_hand_ssd : nat;
  ev_stubs : gset string;
  ev_peer_evicted : gmap string (gset BlockId)
}.

Definition new_evictor_state : EvictorState := mkEvictorState false [] 0 0 0 ∅ ∅.

(** One [EvictBroadcast] request. *)
Record EvictBroadcastRequest : Type := mkEvictBroadcastRequest {
  eb_source_node : string;
  eb_epoch : Z;
  eb_evicted : list BlockId
}.

(** The effects of a pass outside the store, in the order they happen. *)
Inductive PassEffect : Type :=
| RecordTierUsage (t : Tier) (used cap : Z)
| RecordEvictionPass (blocks : nat) (bytes : Z)
| EvictBroadcast (address : string) (req : EvictBroadcastRequest).

Definition hand_of (t : Tier) (e : EvictorState) : nat :=
  match t with HBM => ev_hand_hbm e | DRAM => ev_hand_dram e | SSD => ev_hand_ssd e end.

Definition set_hand (t : Tier) (h : nat) (e : EvictorState) : EvictorState :=
  match t with
  | HBM => mkEvictorState (ev_running e) (ev_threads e) h (ev_hand_dram e) (ev_hand_ssd e)
             (ev_stubs e) (ev_peer_evicted e)
  | DRAM => mkEvictorState (ev_running e) (ev_threads e) (ev_hand_hbm e) h (ev_hand_ssd e)
             (ev_stubs e) (ev_peer_evicted e)
  | SSD => mkEvictorState (ev_running e) (ev_threads e) (ev_hand_hbm e) (ev_hand_dram e) h
             (ev_stubs e) (ev_peer_evicted e)
  end.

Definition set_visited (v : bool) (m : BlockMeta) : BlockMeta :=
  mkBlockMeta (m_id m) (m_tier m) (m_size_bytes m) (m_last_access_epoch m) (m_insert_epoch m) v.

#[export] Instance BlockMeta_inhabited : Inhabited BlockMeta :=
  populate (mkBlockMeta (block_id_of_byte Byte.x00) HBM 0 0 0 false).

Section pass.
Context {M D : Type} `{TierStore M} `{TierStore D}.

(** [Start]: one thread per tier with capacity, unless already running. *)
Definition Start (st : Tiered M D) (e : EvictorState) : EvictorState :=
  if ev_running e then e
  else mkEvictorState true
         (ev_threads e ++ filter (λ t, capacity_bytes t st ≠ 0) [HBM; DRAM; SSD])
         (ev_hand_hbm e) (ev_hand_dram e) (ev_hand_ssd e) (ev_stubs e) (ev_peer_evicted e).

Definition Shutdown (e : EvictorState) : EvictorState :=
  mkEvictorState false [] (ev_hand_hbm e) (ev_hand_dram e) (ev_hand_ssd e) (ev_stubs e)
    (ev_peer_evicted e).

(** The local variables of the SIEVE loop, with the store it works on. *)
Record Sieve : Type := mkSieve {
  sv_store : Tiered M D;
  sv_blocks : list BlockMeta;   (* the snapshot, with its own visited bits *)
  sv_hand : nat;
  sv_freed : Z;
  sv_evicted : list BlockId
}.

(** A victim is demoted, or erased when it cannot be; the bytes that the walk
    counts as freed. *)
Definition evict_victim (tier : Tier) (meta : BlockMeta) (st : Tiered M D) : Z * Tiered M D :=
  let '(demoted, st1) := if bool_decide (tier = SSD) then (false, st)
                         else Demote (m_id meta) st in
  if demoted then (m_size_bytes meta, st1) else Erase (m_id meta) st1.

(** The body of the loop. *)
Definition sieve_step (tier : Tier) (s : Sieve) : Sieve :=
  let hand := if (length (sv_blocks s) <=? sv_hand s)%nat then 0%nat else sv_hand s in
  let meta := sv_blocks s !!! hand in
  if m_visited meta
  then mkSieve (ClearVisited (m_id meta) (sv_store s))
         (<[hand := set_visited false meta]> (sv_blocks s)) (S hand) (sv_freed s) (sv_evicted s)
  else
    let '(removed, st') := evict_victim tier meta (sv_store s) in
    mkSieve st' (sv_blocks s) (S hand) (sv_freed s +₆₄ removed) (sv_evicted s ++ [m_id meta]).

(** The loop; [fuel] is [max_steps - steps]. *)
Fixpoint sieve_loop (tier : Tier) (need : Z) (fuel : nat) (s : Sieve) : Sieve :=
  match fuel with
  | O => s
  | S fuel => if sv_freed s <? need then sieve_loop tier need fuel (sieve_step tier s) else s
  end.

(** One request for each known address; the stubs are created on first use. *)
Definition BroadcastEvictionsToPeers (addresses : list string) (source : string) (epoch : Z)
    (evicted : list BlockId) (e : EvictorState) : list PassEffect * EvictorState :=
  ((λ a, EvictBroadcast a (mkEvictBroadcastRequest source epoch evicted)) <$> addresses,
   mkEvictorState (ev_running e) (ev_threads e) (ev_hand_hbm e) (ev_hand_dram e) (ev_hand_ssd e)
     (list_to_set addresses ∪ ev_stubs e) (ev_peer_evicted e)).

(** [membership_], when there is one: the addresses and the epoch it reports. *)
Definition Peers : Type := option (list string * Z).

Definition RunPassForTier (cfg : EvictionConfig) (has_metrics : bool) (peers : Peers)
    (local_node_id : string) (o : SnapOrder M D) (tier : Tier)
    (e : EvictorState) (st : Tiered M D) :
    PassResult * list PassEffect * EvictorState * Tiered M D :=
  let cap := capacity_bytes tier st in
  let used := used_bytes tier st in
  let eff1 := if has_metrics && (cap >? 0) then [RecordTierUsage tier used cap] else [] in
  if (cap =? 0) || (used =? 0) then (no_pass, eff1, e, st)
  else
    let high := (cap *₆₄ high_watermark_pct cfg) / 100 in
    let low := (cap *₆₄ low_watermark_pct cfg) / 100 in
    if used <=? high then (no_pass, eff1, e, st)
    else
      let blocks := Snapshot o tier st in
      match blocks with
      | [] => (no_pass, eff1, e, st)
      | _ =>
          let need := used -₆₄ low in
          let s := sieve_loop tier need (length blocks * 2)
                     (mkSieve st blocks (hand_of tier e) 0 []) in
          let evicted := sv_evicted s in
          let n := length evicted in
          let e1 := set_hand tier (sv_hand s) e in
          let eff2 := if has_metrics && (0 <? n)%nat
                      then [RecordEvictionPass n (sv_freed s)] else [] in
          let broadcast := broadcast_evictions cfg && (0 <? n)%nat in
          let '(eff3, e2) :=
            match broadcast, peers with
            | true, Some (addresses, epoch) =>
                match addresses with
                | [] => ([], e1)
                | _ => BroadcastEvictionsToPeers addresses local_node_id epoch evicted e1
                end
            | _, _ => ([], e1)
            end in
          (mkPassResult (if bool_decide (tier = HBM) then n else 0)
             (if bool_decide (tier = DRAM) then n else 0)
             (if bool_decide (tier = SSD) then n else 0)
             (sv_freed s) (if broadcast then n else 0),
           eff1 ++ eff2 ++ eff3, e2, sv_store s)
      end.
End pass.
Arguments Sieve M D : clear implicits.

Definition kPerPeerBound : nat := 4096.

Definition OnPeerEviction (evicted : list BlockId) (peer : string) (e : EvictorState) : EvictorState :=
  let set := default ∅ (ev_peer_evicted e !! peer) in
  let set := if (kPerPeerBound <? size set)%nat then ∅ else set in
  mkEvictorState (ev_running e) (ev_threads e) (ev_hand_hbm e) (ev_hand_dram e) (ev_hand_ssd e)
    (ev_stubs e) (<[peer := set ∪ list_to_set evicted]> (ev_peer_evicted e)).

Definition peer_evicted_count_for_testing (peer : string) (e : EvictorState) : nat :=
  from_option size 0%nat (ev_peer_evicted e !! peer).

(** ** One victim *)

Section proofs.
Context {M D : Type} `{TierStoreSpec M} `{TierStoreSpec D}.
Implicit Types st : Tiered M D.

Lemma tier_capacity_lt t st : inv st → capacity_bytes t st < 2 ^ 64.
Proof.
  intros Hi. pose proof (inv_capacities st Hi). pose proof (used_capacity HBM st (inv_tiers st Hi)).
  pose proof (used_capacity DRAM st (inv_tiers st Hi)).
  pose proof (used_capacity SSD st (inv_tiers st Hi)). destruct t; lia.
Qed.

Lemma evict_victim_frame tier meta st :
  inv st →
  inv (evict_victim tier meta st).2 ∧
  (contents (evict_victim tier meta st).2 = contents st ∨
   contents (evict_victim tier meta st).2 = delete (m_id meta) (contents st)) ∧
  (∀ t id, m_id meta ≠ id →
     tier_contents t (evict_victim tier meta st).2 !! id = tier_contents t st !! id).
Proof.
  intros Hi. unfold evict_victim.
  assert (∀ st1, inv st1 → st1 = st → inv (Erase (m_id meta) st1).2 ∧
    (contents (Erase (m_id meta) st1).2 = contents st ∨
     contents (Erase (m_id meta) st1).2 = delete (m_id meta) (contents st)) ∧
    (∀ t id, m_id meta ≠ id →
       tier_contents t (Erase (m_id meta) st1).2 !! id = tier_contents t st !! id)) as Her.
  { intros st1 Hi1 ->. destruct (Erase_effect (m_id meta) st Hi) as (st' & -> & Hi' & Hc & Ht & _).
    split_and!; [done|by right|]. intros t id Hne. simpl. by rewrite Ht, lookup_delete_ne. }
  case_bool_decide; [by apply Her|].
  destruct (Demote_cases (m_id meta) st Hi) as [->|(st' & from & to & -> & Hm & _)]; [by apply Her|].
  destruct Hm as (_ & ? & ? & _ & _ & Hoth & _). split_and!; [done|by left|]. intros. by apply Hoth.
Qed.

(** A victim that the tier still holds leaves it, and the count is exact. *)
Lemma evict_victim_present tier meta d st :
  inv st → exclusive st → tier_contents tier st !! m_id meta = Some d →
  m_size_bytes meta = size_of d →
  (evict_victim tier meta st).1 = size_of d ∧
  used_bytes tier (evict_victim tier meta st).2 = used_bytes tier st - size_of d ∧
  exclusive (evict_victim tier meta st).2 ∧
  tier_contents tier (evict_victim tier meta st).2 !! m_id meta = None.
Proof.
  intros Hi He Hd Hs. unfold evict_victim.
  assert (∀ t, t ≠ tier → tier_contents t st !! m_id meta = None) as Hothers.
  { intros t Hne. destruct (tier_contents t st !! m_id meta) eqn:E; [|done].
    destruct Hne. eapply He; [by rewrite E|by rewrite Hd]. }
  assert ((Erase (m_id meta) st).1 = size_of d ∧
    used_bytes tier (Erase (m_id meta) st).2 = used_bytes tier st - size_of d ∧
    exclusive (Erase (m_id meta) st).2 ∧
    tier_contents tier (Erase (m_id meta) st).2 !! m_id meta = None) as Her.
  { destruct (Erase_effect (m_id meta) st Hi) as (st' & -> & Hi' & Hc & Ht & Hu & _).
    split_and!.
    - unfold copies_size. cbn [fst].
      destruct tier; rewrite Hd; rewrite !Hothers by done; cbn [opt_size]; lia.
    - cbn [snd]. by rewrite Hu, Hd.
    - intros id t1 t2. cbn [snd]. rewrite !Ht.
      intros [? [_ H1']%lookup_delete_Some] [? [_ H2']%lookup_delete_Some]. by eapply He.
    - cbn [snd]. rewrite Ht. apply lookup_delete_eq. }
  case_bool_decide; [done|].
  destruct (Demote_cases (m_id meta) st Hi) as [->|(st' & from & to & -> & Hm & _ & _ & Hf)]; [done|].
  assert (from = tier) as -> by (eapply He; [done|by rewrite Hd]).
  cbn [fst snd]. split_and!; [done|by eapply moved_used|by eapply moved_exclusive|apply Hm].
Qed.

(** On the disk tier a victim that is gone already changes nothing. *)
Lemma evict_victim_absent meta st :
  inv st → exclusive st → contents st !! m_id meta = None →
  (evict_victim SSD meta st).1 = 0 ∧
  used_bytes SSD (evict_victim SSD meta st).2 = used_bytes SSD st ∧
  exclusive (evict_victim SSD meta st).2.
Proof.
  intros Hi He Hn. rewrite contents_lookup_None in Hn.
  change (evict_victim SSD meta st) with (Erase (m_id meta) st).
  destruct (Erase_effect (m_id meta) st Hi) as (st' & -> & Hi' & Hc & Ht & Hu & _).
  split_and!.
  - unfold copies_size. by rewrite !Hn.
  - cbn [snd]. pose proof (Hu SSD) as Hu'. rewrite Hn in Hu'. simpl in *. lia.
  - intros id t1 t2. cbn [snd]. rewrite !Ht.
    intros [? [_ H1']%lookup_delete_Some] [? [_ H2']%lookup_delete_Some]. by eapply He.
Qed.

Lemma evict_victim_ssd_gone meta st :
  inv st → contents (evict_victim SSD meta st).2 !! m_id meta = None.
Proof.
  intros Hi. change (evict_victim SSD meta st) with (Erase (m_id meta) st).
  destruct (Erase_effect (m_id meta) st Hi) as (st' & -> & _ & Hc & _). cbn [snd].
  rewrite Hc. apply lookup_delete_eq.
Qed.

Lemma ClearVisited_inv id st : inv st → inv (ClearVisited id st).
Proof. intros Hi. apply inv_with_books; [done|apply (inv_counts st Hi)]. Qed.

Lemma ClearVisited_tier t id st : tier_contents t (ClearVisited id st) = tier_contents t st.
Proof. by destruct t. Qed.


(** The loop ends within its bound, because enough was freed or because the
    bound was reached. *)
Lemma sieve_loop_steps tier (P : nat → Sieve M D → Prop) need fuel k s :
  (∀ k s, P k s → sv_freed s < need → P (S k) (sieve_step tier s)) → P k s →
  ∃ k', (k ≤ k' ≤ k + fuel)%nat ∧ P k' (sieve_loop tier need fuel s) ∧
    (need ≤ sv_freed (sieve_loop tier need fuel s) ∨ k' = (k + fuel)%nat).
Proof.
  intros Hstep. revert k s. induction fuel as [|fuel IH]; intros k s Hp; simpl.
  { exists k. split; [lia|]. split; [done|]. right. lia. }
  destruct (sv_freed s <? need) eqn:E; zbool.
  - destruct (IH (S k) (sieve_step tier s)) as (k' & ? & ? & Hor); [by apply Hstep|].
    exists k'. split; [lia|]. split; [done|]. destruct Hor; [by left|right; lia].
  - exists k. split; [lia|]. split; [done|by left].
Qed.

(** ** The walk

    [pos j] is the index that the hand points to at step [j]; [N] steps are
    one sweep over the snapshot. *)
Section walk.
Context (tier : Tier) (st0 : Tiered M D) (blocks0 : list BlockMeta) (h0 : nat).
Let N := length blocks0.
Definition wrap (h : nat) : nat := if (N <=? h)%nat then 0%nat else h.
Definition pos (j : nat) : nat := ((wrap h0 + j) mod N)%nat.

Record walk_inv (k : nat) (s : Sieve M D) : Prop := {
  wi_inv : inv (sv_store s);
  wi_length : length (sv_blocks s) = N;
  wi_blocks i m : blocks0 !! i = Some m →
    ∃ v, sv_blocks s !! i = Some (set_visited v m);
  wi_hand : wrap (sv_hand s) = pos k;
  (* one visit clears the bit *)
  wi_seen j m : (j < k)%nat → sv_blocks s !! pos j = Some m → m_visited m = false;
  (* ahead of the hand in the first sweep nothing has changed *)
  wi_ahead j : (k ≤ j < N)%nat → sv_blocks s !! pos j = blocks0 !! pos j;
  wi_frame id t : id ∉ sv_evicted s →
    tier_contents t (sv_store s) !! id = tier_contents t st0 !! id;
  wi_sub : contents (sv_store s) ⊆ contents st0;
  (* a block is a victim on the first visit if its bit was clear, else on the second *)
  wi_victim j m : (j < k)%nat → blocks0 !! pos j = Some m →
    m_visited m = false ∨ (N ≤ j)%nat → m_id m ∈ sv_evicted s;
  wi_evicted id : id ∈ sv_evicted s → ∃ j m, (j < k)%nat ∧ blocks0 !! pos j = Some m ∧
    m_id m = id ∧ (m_visited m = false ∨ (N ≤ j)%nat)
}.

Lemma pos_lt j : (0 < N)%nat → (pos j < N)%nat.
Proof. intros. apply Nat.mod_upper_bound. lia. Qed.

Lemma pos_add j : pos (j + N) = pos j.
Proof.
  unfold pos. replace (wrap h0 + (j + N))%nat with (wrap h0 + j + 1 * N)%nat by lia.
  apply Nat.Div0.mod_add.
Qed.

Lemma pos_inj i j : (i < N)%nat → (j < N)%nat → pos i = pos j → i = j.
Proof.
  intros Hi Hj E. unfold pos in E.
  pose proof (Nat.div_mod (wrap h0 + i) N ltac:(lia)) as Ei.
  pose proof (Nat.div_mod (wrap h0 + j) N ltac:(lia)) as Ej. rewrite <- E in Ej.
  destruct (Nat.lt_trichotomy ((wrap h0 + i) / N) ((wrap h0 + j) / N)) as [|[|]]; nia.
Qed.

(** Every index is visited during the first sweep. *)
Lemma pos_surj i : (i < N)%nat → ∃ j, (j < N)%nat ∧ pos j = i.
Proof.
  intros Hi. assert (wrap h0 < N)%nat as Hw.
  { unfold wrap. destruct (N <=? h0)%nat eqn:E; [lia|]. by apply Nat.leb_gt in E. }
  destruct (decide (wrap h0 ≤ i)%nat).
  - exists (i - wrap h0)%nat. split; [lia|]. unfold pos.
    replace (wrap h0 + (i - wrap h0))%nat with i by lia. by apply Nat.mod_small.
  - exists (i + N - wrap h0)%nat. split; [lia|]. unfold pos.
    replace (wrap h0 + (i + N - wrap h0))%nat with (i + 1 * N)%nat by lia.
    rewrite Nat.Div0.mod_add. by apply Nat.mod_small.
Qed.

Lemma wrap_next i k : (0 < N)%nat → i = pos k → wrap (S i) = pos (S k).
Proof.
  intros HN ->. pose proof (pos_lt k HN). unfold wrap at 1. unfold pos at 3.
  replace (wrap h0 + S k)%nat with (S (wrap h0 + k)) by lia.
  pose proof (Nat.div_mod (wrap h0 + k) N ltac:(lia)) as Hdm. fold (pos k) in Hdm.
  destruct (N <=? S (pos k))%nat eqn:E; [apply Nat.leb_le in E|apply Nat.leb_gt in E].
  - replace (S (wrap h0 + k)) with (0 + (S ((wrap h0 + k) / N)) * N)%nat by nia.
    rewrite Nat.Div0.mod_add. symmetry. apply Nat.mod_small. lia.
  - rewrite Hdm. replace (S (N * ((wrap h0 + k) / N) + pos k))%nat
      with (S (pos k) + ((wrap h0 + k) / N) * N)%nat by lia.
    rewrite Nat.Div0.mod_add. symmetry. apply Nat.mod_small. lia.
Qed.

Lemma walk_inv_start :
  inv st0 → (0 < N)%nat → walk_inv 0 (mkSieve st0 blocks0 h0 0 []).
Proof.
  intros Hi HN. split; simpl; try done.
  - intros i m Hm. exists (m_visited m). by destruct m.
  - unfold pos. rewrite Nat.add_0_r. symmetry. apply Nat.mod_small.
    unfold wrap. destruct (N <=? h0)%nat eqn:E; [lia|]. by apply Nat.leb_gt in E.
  - lia.
  - lia.
  - intros id Hid. by apply not_elem_of_nil in Hid.
Qed.

(** The block under the hand. *)
Lemma walk_inv_current k s :
  (0 < N)%nat → walk_inv k s →
  ∃ m v, blocks0 !! pos k = Some m ∧ sv_blocks s !! pos k = Some (set_visited v m) ∧
    sv_blocks s !!! (if (length (sv_blocks s) <=? sv_hand s)%nat then 0%nat else sv_hand s) =
      set_visited v m ∧
    (v = true → (k < N)%nat) ∧ ((k < N)%nat → v = m_visited m).
Proof.
  intros HN Hw. destruct (lookup_lt_is_Some_2 blocks0 (pos k)) as [m Hm]; [by apply pos_lt|].
  destruct (wi_blocks k s Hw _ _ Hm) as [v Hv]. exists m, v. split_and!; [done|done| | |].
  - rewrite (wi_length k s Hw). fold (wrap (sv_hand s)). rewrite (wi_hand k s Hw).
    by apply list_lookup_total_correct.
  - intros ->. destruct (decide (k < N)%nat) as [|Hk]; [done|].
    assert (pos k = pos (k - N)) as Hpos by (rewrite <- (pos_add (k - N)); f_equal; lia).
    rewrite Hpos in Hv. by apply (wi_seen k s Hw (k - N)) in Hv; [|lia].
  - intros Hk. pose proof (wi_ahead k s Hw k ltac:(lia)) as Ha.
    rewrite Hm, Hv in Ha. injection Ha as Ha. by rewrite <- Ha.
Qed.

Lemma walk_inv_step k s :
  (0 < N)%nat → walk_inv k s → walk_inv (S k) (sieve_step tier s).
Proof.
  intros HN Hw. destruct (walk_inv_current k s HN Hw) as (m & v & Hm & Hv & Htot & Hvk & Hkv).
  pose proof (pos_lt k HN) as Hpk.
  assert ((if (length (sv_blocks s) <=? sv_hand s)%nat then 0%nat else sv_hand s) = pos k) as Hhand
    by (rewrite (wi_length k s Hw); apply (wi_hand k s Hw)).
  unfold sieve_step. rewrite Htot, Hhand. destruct v; cbn [m_visited set_visited].
  - (* second chance *)
    specialize (Hvk eq_refl). specialize (Hkv Hvk).
    split; cbn [sv_store sv_blocks sv_hand sv_freed sv_evicted].
    + apply ClearVisited_inv, Hw.
    + rewrite length_insert. apply Hw.
    + intros i m' Hm'. destruct (decide (i = pos k)) as [->|Hi].
      * rewrite list_lookup_insert_eq by (rewrite (wi_length k s Hw); done).
        exists false. by simplify_eq.
      * rewrite list_lookup_insert_ne by done. by apply (wi_blocks k s Hw).
    + by apply wrap_next.
    + intros j m' Hj. destruct (decide (pos j = pos k)) as [->|Hjk].
      * rewrite list_lookup_insert_eq by (rewrite (wi_length k s Hw); done). by intros [= <-].
      * rewrite list_lookup_insert_ne by done.
        assert (j ≠ k) by (by intros ->). intros Hm'. apply (wi_seen k s Hw j); [lia|done].
    + intros j Hj. rewrite list_lookup_insert_ne; [apply (wi_ahead k s Hw); lia|].
      intros E. apply pos_inj in E; lia.
    + intros id t Hid. rewrite ClearVisited_tier. by apply (wi_frame k s Hw).
    + apply (wi_sub k s Hw).
    + intros j m' Hj Hm' Hor. destruct (decide (j = k)) as [->|].
      * simplify_eq. destruct Hor; [congruence|lia].
      * apply (wi_victim k s Hw j); [lia|done..].
    + intros id (j & m' & Hj & Hrest)%(wi_evicted k s Hw). exists j, m'. split; [lia|done].
  - (* victim *)
    destruct (evict_victim_frame tier (set_visited false m) (sv_store s) (wi_inv k s Hw)) as (Hi' & Hc & Hf).
    destruct (evict_victim tier (set_visited false m) (sv_store s)) as [removed st'].
    cbn [fst snd] in *. change (m_id (set_visited false m)) with (m_id m) in *.
    split; cbn [sv_store sv_blocks sv_hand sv_freed sv_evicted].
    + done.
    + apply Hw.
    + apply Hw.
    + by apply wrap_next.
    + intros j m' Hj Hm'. destruct (decide (j = k)) as [->|]; [by simplify_eq|].
      apply (wi_seen k s Hw j); [lia|done].
    + intros j Hj. apply (wi_ahead k s Hw). lia.
    + intros id t [Hid1 Hid2]%not_elem_of_app. rewrite Hf by (intros <-; apply Hid2; by left).
      by apply (wi_frame k s Hw).
    + etrans; [|apply (wi_sub k s Hw)]. destruct Hc as [->| ->]; [done|apply delete_subseteq].
    + intros j m' Hj Hm' Hor. apply elem_of_app. destruct (decide (j = k)) as [->|].
      * right. simplify_eq. by left.
      * left. apply (wi_victim k s Hw j); [lia|done..].
    + intros id [(j & m' & Hj & Hrest)%(wi_evicted k s Hw)|Hid]%elem_of_app.
      * exists j, m'. split; [lia|done].
      * apply list_elem_of_singleton in Hid as ->. exists k, m. split_and!; [lia|done|done|].
        destruct (decide (k < N)%nat) as [Hk|]; [left; by rewrite <- Hkv|right; lia].
Qed.

(** ** Accounting

    The bytes counted as freed are the bytes that left the tier: in every step
    of the first sweep, and on the disk tier in every step. *)
Record acc_inv (s : Sieve M D) : Prop := {
  ai_exclusive : exclusive (sv_store s);
  ai_used : used_bytes tier (sv_store s) = used_bytes tier st0 - sv_freed s;
  ai_freed : 0 ≤ sv_freed s;
  ai_gone id : id ∈ sv_evicted s → tier_contents tier (sv_store s) !! id = None;
  ai_gone_ssd id : tier = SSD → id ∈ sv_evicted s → contents (sv_store s) !! id = None
}.

Context (o : SnapOrder M D) (Hblocks : blocks0 = Snapshot o tier st0).
Context (Hinv : inv st0) (Hexcl : exclusive st0).

Lemma blocks_NoDup i j m m' :
  blocks0 !! i = Some m → blocks0 !! j = Some m' → m_id m = m_id m' → i = j.
Proof.
  intros Hi Hj E. pose proof (Snapshot_NoDup o tier st0 (inv_tiers _ Hinv)) as Hnd.
  rewrite <- Hblocks in Hnd. eapply (NoDup_lookup (m_id <$> blocks0)); [done|by rewrite list_lookup_fmap, Hi|].
  by rewrite list_lookup_fmap, Hj, E.
Qed.

(** A block that was not a victim yet is still in the tier. *)
Lemma fresh_victim k s m :
  walk_inv k s → blocks0 !! pos k = Some m → m_id m ∉ sv_evicted s →
  ∃ d, tier_contents tier (sv_store s) !! m_id m = Some d ∧ m_size_bytes m = size_of d.
Proof.
  intros Hw Hm Hnew. rewrite (wi_frame k s Hw) by done.
  apply (Snapshot_elem o); [apply Hinv|]. rewrite <- Hblocks. by eapply list_elem_of_lookup_2.
Qed.

Lemma first_sweep_fresh k s m :
  (k < N)%nat → walk_inv k s → blocks0 !! pos k = Some m → m_id m ∉ sv_evicted s.
Proof.
  intros Hk Hw Hm (j & m' & Hj & Hm' & E & _)%(wi_evicted k s Hw).
  pose proof (blocks_NoDup _ _ _ _ Hm Hm' (eq_sym E)) as Hp. apply pos_inj in Hp; lia.
Qed.

Lemma acc_inv_start : acc_inv (mkSieve st0 blocks0 h0 0 []).
Proof.
  split; simpl; [done|lia|lia|intros id Hid|intros id _ Hid]; by apply not_elem_of_nil in Hid.
Qed.

(** One victim, under the accounting. *)
Lemma acc_inv_victim k s m :
  walk_inv k s → acc_inv s → blocks0 !! pos k = Some m → (k < N)%nat ∨ tier = SSD →
  let r := evict_victim tier (set_visited false m) (sv_store s) in
  exclusive r.2 ∧ used_bytes tier r.2 = used_bytes tier (sv_store s) - r.1 ∧ 0 ≤ r.1 ∧
  tier_contents tier r.2 !! m_id m = None.
Proof.
  intros Hw Ha Hm Hk r. pose proof (wi_inv k s Hw) as Hi.
  destruct (decide (m_id m ∈ sv_evicted s)) as [Hold|Hnew].
  - assert (tier = SSD) as Ht.
    { destruct Hk as [Hk|]; [|done]. by apply (first_sweep_fresh k s m) in Hk. }
    pose proof (ai_gone_ssd s Ha _ Ht Hold) as Hgone. unfold r. rewrite Ht.
    destruct (evict_victim_absent (set_visited false m) (sv_store s) Hi (ai_exclusive s Ha) Hgone)
      as (E1 & E2 & E3).
    pose proof (evict_victim_ssd_gone (set_visited false m) (sv_store s) Hi) as E4.
    rewrite E1, E2. split_and!; [done|lia|lia|]. by apply (proj1 (contents_lookup_None _ _) E4).
  - destruct (fresh_victim k s m Hw Hm Hnew) as (d & Hd & Hsz).
    destruct (evict_victim_present tier (set_visited false m) d (sv_store s) Hi (ai_exclusive s Ha) Hd Hsz)
      as (E1 & E2 & E3 & E4).
    unfold r. rewrite E1, E2. split_and!; [done|lia|auto with lethe|done].
Qed.

Lemma acc_inv_step k s :
  (0 < N)%nat → walk_inv k s → acc_inv s → (k < N)%nat ∨ tier = SSD →
  acc_inv (sieve_step tier s).
Proof.
  intros HN Hw Ha Hk. destruct (walk_inv_current k s HN Hw) as (m & v & Hm & Hv & Htot & Hvk & Hkv).
  pose proof (wi_inv k s Hw) as Hi.
  unfold sieve_step. rewrite Htot. destruct v; cbn [m_visited set_visited].
  - split; cbn [sv_store sv_blocks sv_hand sv_freed sv_evicted]; apply Ha.
  - pose proof (acc_inv_victim k s m Hw Ha Hm Hk) as (Hex & Hu & Hr & Hgone).
    destruct (evict_victim_frame tier (set_visited false m) (sv_store s) Hi) as (Hi' & Hc & Hf).
    assert (tier = SSD → contents (evict_victim tier (set_visited false m) (sv_store s)).2 !! m_id m = None)
      as Hssd by (intros Ht; rewrite Ht; by apply (evict_victim_ssd_gone (set_visited false m))).
    destruct (evict_victim tier (set_visited false m) (sv_store s)) as [removed st'].
    cbn [fst snd] in *. change (m_id (set_visited false m)) with (m_id m) in *.
    pose proof (used_capacity tier st' (inv_tiers _ Hi')). pose proof (ai_used s Ha).
    pose proof (used_capacity tier st0 (inv_tiers _ Hinv)). 
    pose proof (tier_capacity_lt tier st0 Hinv).
    pose proof (ai_freed s Ha).
    split; cbn [sv_store sv_blocks sv_hand sv_freed sv_evicted].
    + done.
    + rewrite u64_small; lia.
    + rewrite u64_small; lia.
    + intros id [Hid|Hid]%elem_of_app; [|by apply list_elem_of_singleton in Hid as ->].
      destruct (decide (m_id m = id)) as [<-|]; [done|]. rewrite Hf by done. by apply (ai_gone s Ha).
    + intros id Ht [Hid|Hid]%elem_of_app; [|apply list_elem_of_singleton in Hid as ->; by apply Hssd].
      pose proof (ai_gone_ssd s Ha id Ht Hid) as Hn.
      destruct Hc as [->| ->]; [done|]. rewrite lookup_delete_None. by right.
Qed.

(** When every block of the snapshot was a victim the tier is empty. *)
Lemma drained k s :
  walk_inv k s → acc_inv s → (∀ j m, (j < N)%nat → blocks0 !! pos j = Some m → m_id m ∈ sv_evicted s) →
  sv_freed s = used_bytes tier st0.
Proof.
  intros Hw Ha Hall. pose proof (ai_used s Ha) as Hu.
  rewrite used_contents in Hu by apply (wi_inv k s Hw).
  assert (tier_contents tier (sv_store s) = ∅) as Hempty.
  { apply map_empty. intros id. destruct (tier_contents tier (sv_store s) !! id) as [d|] eqn:E; [|done].
    destruct (decide (id ∈ sv_evicted s)) as [Hin|Hout]; [by rewrite (ai_gone s Ha) in E|].
    rewrite (wi_frame k s Hw) in E by done. destruct Hout.
    destruct (Snapshot_complete o tier st0 id d (inv_tiers _ Hinv) E) as (m & Hm & <- & _).
    rewrite <- Hblocks in Hm. apply list_elem_of_lookup in Hm as [i Hm].
    destruct (pos_surj i) as (j & Hj & <-); [by eapply lookup_lt_Some|]. by eapply Hall. }
  rewrite Hempty in Hu. unfold msum in Hu. rewrite map_to_list_empty in Hu. simpl in Hu. lia.
Qed.

Lemma loop_ssd_low need :
  tier = SSD → (0 < N)%nat → 0 ≤ need ≤ used_bytes tier st0 →
  used_bytes tier (sv_store (sieve_loop tier need (N * 2) (mkSieve st0 blocks0 h0 0 []))) ≤
  used_bytes tier st0 - need.
Proof.
  intros Ht HN Hneed.
  destruct (sieve_loop_steps tier (λ k s, walk_inv k s ∧ acc_inv s) need (N * 2) 0
    (mkSieve st0 blocks0 h0 0 [])) as (k & Hk & [Hw Ha] & Hor).
  - intros k s [Hw Ha] _. split; [by apply walk_inv_step|]. eapply acc_inv_step; eauto.
  - split; [by apply walk_inv_start|apply acc_inv_start].
  - rewrite (ai_used _ Ha). destruct Hor as [|Hk2]; [lia|].
    rewrite (drained k _ Hw Ha); [lia|]. intros j m Hj Hm.
    apply (wi_victim k _ Hw (j + N)); [lia|by rewrite pos_add|]. right. lia.
Qed.

Lemma loop_unvisited_low need :
  Forall (λ m, m_visited m = false) blocks0 → (0 < N)%nat → 0 ≤ need ≤ used_bytes tier st0 →
  used_bytes tier (sv_store (sieve_loop tier need (N * 2) (mkSieve st0 blocks0 h0 0 []))) ≤
  used_bytes tier st0 - need.
Proof.
  intros Hun HN Hneed.
  assert (∀ k s, walk_inv k s → acc_inv s → k = N → sv_freed s = used_bytes tier st0) as Hfull.
  { intros k s Hw Ha ->. apply (drained N s Hw Ha). intros j m Hj Hm.
    apply (wi_victim N s Hw j); [done|done|]. left. by apply (Forall_lookup_1 _ _ _ _ Hun Hm). }
  destruct (sieve_loop_steps tier (λ k s, walk_inv k s ∧ acc_inv s ∧ (k ≤ N)%nat) need (N * 2) 0
    (mkSieve st0 blocks0 h0 0 [])) as (k & Hk & (Hw & Ha & HkN) & Hor).
  - intros k s (Hw & Ha & Hk) Hlt.
    assert (k ≠ N) by (intros ->; rewrite (Hfull N s Hw Ha) in Hlt by done; lia).
    split_and!; [by apply walk_inv_step| |lia]. eapply acc_inv_step; eauto. left. lia.
  - split_and!; [by apply walk_inv_start|apply acc_inv_start|lia].
  - rewrite (ai_used _ Ha). destruct Hor; lia.
Qed.
End walk.

(** ** The pass *)

Section run_pass.
Context (cfg : EvictionConfig) (mt : bool) (peers : Peers) (me : string) (o : SnapOrder M D).

Definition high_bytes (t : Tier) st : Z := (capacity_bytes t st *₆₄ high_watermark_pct cfg) / 100.
Definition low_bytes (t : Tier) st : Z := (capacity_bytes t st *₆₄ low_watermark_pct cfg) / 100.

Definition pass_sieve (t : Tier) (e : EvictorState) st : Sieve M D :=
  sieve_loop t (used_bytes t st -₆₄ low_bytes t st) (length (Snapshot o t st) * 2)
    (mkSieve st (Snapshot o t st) (hand_of t e) 0 []).

Lemma used_snapshot_nonempty t st :
  inv st → used_bytes t st ≠ 0 → (0 < length (Snapshot o t st))%nat.
Proof.
  intros Hi Hu. destruct (Snapshot o t st) as [|m l] eqn:E; [|simpl; lia].
  pose proof (Snapshot_contents o t st (inv_tiers st Hi)) as Hp. rewrite E in Hp.
  apply Permutation_nil_l in Hp. symmetry in Hp. apply map_to_list_empty_iff, fmap_empty_inv in Hp.
  destruct Hu. rewrite used_contents, Hp by apply Hi. unfold msum. by rewrite map_to_list_empty.
Qed.

(** What the pass does to the store: nothing below the high watermark, and the
    walk above it. *)
Lemma RunPass_store t e st :
  inv st →
  (RunPassForTier cfg mt peers me o t e st).2 =
  if (used_bytes t st =? 0) || (used_bytes t st <=? high_bytes t st) then st
  else sv_store (pass_sieve t e st).
Proof.
  intros Hi. unfold RunPassForTier, pass_sieve, low_bytes, high_bytes.
  pose proof (used_capacity t st (inv_tiers st Hi)) as Huc.
  destruct (used_bytes t st =? 0) eqn:E1; zbool.
  { by rewrite orb_true_r. }
  replace (capacity_bytes t st =? 0) with false by lia. cbn [orb].
  destruct (used_bytes t st <=? _) eqn:E2; [done|].
  pose proof (used_snapshot_nonempty t st Hi ltac:(done)) as Hne.
  destruct (Snapshot o t st) as [|m l] eqn:E; [simpl in Hne; lia|]. rewrite <- E.
  destruct (broadcast_evictions cfg && _), peers as [[[|a l'] ep]|]; done.
Qed.

Lemma pass_sieve_walk t e st :
  inv st → used_bytes t st ≠ 0 →
  ∃ k, walk_inv st (Snapshot o t st) (hand_of t e) k (pass_sieve t e st).
Proof.
  intros Hi Hu. pose proof (used_snapshot_nonempty t st Hi Hu) as Hne.
  destruct (sieve_loop_steps t (walk_inv st (Snapshot o t st) (hand_of t e))
    (used_bytes t st -₆₄ low_bytes t st) (length (Snapshot o t st) * 2) 0
    (mkSieve st (Snapshot o t st) (hand_of t e) 0 [])) as (k & _ & Hw & _).
  - intros. by apply walk_inv_step.
  - by apply walk_inv_start.
  - by exists k.
Qed.

(** Watermarks in the range where no product wraps. *)
Record watermarks_ok (t : Tier) st : Prop := {
  wm_order : 0 ≤ low_watermark_pct cfg ≤ high_watermark_pct cfg;
  wm_range : capacity_bytes t st * high_watermark_pct cfg < 2 ^ 64
}.

Lemma watermarks_exact t st :
  inv st → watermarks_ok t st →
  high_bytes t st = capacity_bytes t st * high_watermark_pct cfg / 100 ∧
  low_bytes t st = capacity_bytes t st * low_watermark_pct cfg / 100 ∧
  0 ≤ low_bytes t st ≤ high_bytes t st.
Proof.
  intros Hi [Ho Hr]. pose proof (used_capacity t st (inv_tiers st Hi)).
  unfold high_bytes, low_bytes. rewrite !u64_small by nia.
  split_and!; [done|done| |]; [apply Z.div_pos; nia|apply Z.div_le_mono; nia].
Qed.

Lemma pass_need t st :
  inv st → watermarks_ok t st → high_bytes t st < used_bytes t st →
  used_bytes t st -₆₄ low_bytes t st = used_bytes t st - low_bytes t st ∧
  0 ≤ used_bytes t st - low_bytes t st ≤ used_bytes t st.
Proof.
  intros Hi Hwm Hlt. destruct (watermarks_exact t st Hi Hwm) as (_ & _ & ?).
  pose proof (tier_capacity_lt t st Hi). pose proof (used_capacity t st (inv_tiers st Hi)).
  split; [apply u64_small; lia|lia].
Qed.

(** A pass only moves and removes. *)
Lemma RunPass_inv t e st :
  inv st →
  let st' := (RunPassForTier cfg mt peers me o t e st).2 in inv st' ∧ contents st' ⊆ contents st.
Proof.
  intros Hi st'. unfold st'. rewrite RunPass_store by done.
  destruct (used_bytes t st =? 0) eqn:E; [done|]. cbn [orb]. case_match; [done|]. zbool.
  destruct (pass_sieve_walk t e st Hi ltac:(done)) as [k Hw].
  split; [apply Hw|apply (wi_sub _ _ _ _ _ Hw)].
Qed.

(** Scope of a pass: a pass keeps the store's invariant, never adds or
    alters a payload, and leaves every block that its tier does not hold
    exactly where it is. *)
Theorem evict_pass_frame t e st :
  inv st →
  let st' := (RunPassForTier cfg mt peers me o t e st).2 in
  inv st' ∧ contents st' ⊆ contents st ∧
  (∀ id t', tier_contents t st !! id = None → tier_contents t' st' !! id = tier_contents t' st !! id).
Proof.
  intros Hi st'. unfold st'. rewrite RunPass_store by done.
  destruct (used_bytes t st =? 0) eqn:E; [done|]. cbn [orb]. case_match; [done|]. zbool.
  destruct (pass_sieve_walk t e st Hi ltac:(done)) as [k Hw].
  split_and!; [apply Hw|apply (wi_sub _ _ _ _ _ Hw)|].
  intros id t' Hn. apply (wi_frame _ _ _ _ _ Hw).
  intros (j & m & _ & Hm & <- & _)%(wi_evicted _ _ _ _ _ Hw).
  apply list_elem_of_lookup_2 in Hm. apply (Snapshot_elem o) in Hm as (d & Hd & _); [|apply Hi].
  congruence.
Qed.

(** Second chance: a block whose visited bit was set when the pass started
    is evicted only after every block whose bit was clear, wherever the hand
    started and however the snapshot is ordered. *)
Theorem evict_second_chance t e st m m' :
  inv st → m ∈ Snapshot o t st → m' ∈ Snapshot o t st →
  m_visited m = true → m_visited m' = false →
  m_id m ∈ sv_evicted (pass_sieve t e st) → m_id m' ∈ sv_evicted (pass_sieve t e st).
Proof.
  intros Hi [i Hm]%list_elem_of_lookup [i' Hm']%list_elem_of_lookup Hv Hv' Hev.
  assert (0 < length (Snapshot o t st))%nat as HN by (apply lookup_lt_Some in Hm; lia).
  destruct (sieve_loop_steps t (walk_inv st (Snapshot o t st) (hand_of t e))
    (used_bytes t st -₆₄ low_bytes t st) (length (Snapshot o t st) * 2) 0
    (mkSieve st (Snapshot o t st) (hand_of t e) 0 [])) as (k & _ & Hw & _);
    [intros; by apply walk_inv_step|by apply walk_inv_start|].
  fold (pass_sieve t e st) in Hw.
  apply (wi_evicted _ _ _ _ _ Hw) in Hev as (j & m1 & Hj & Hm1 & E & Hor).
  pose proof (blocks_NoDup t st _ o eq_refl Hi _ _ _ _ Hm1 Hm E) as Hp. subst i. simplify_eq.
  destruct Hor as [|HNj]; [congruence|].
  destruct (pos_surj (Snapshot o t st) (hand_of t e) i') as (j' & Hj' & <-);
    [by eapply lookup_lt_Some|].
  apply (wi_victim _ _ _ _ _ Hw j'); [lia|done|by left].
Qed.

(** C12 (disk tier): in a store in which every block lives in one tier, and with
    the low watermark not above the high one, a pass over the disk tier that finds
    usage above the high watermark brings it down to the low watermark, whatever
    the visited bits are: the bound of two sweeps is enough.  Below the high
    watermark the pass does nothing. *)
Theorem evict_ssd_reaches_low e st :
  inv st → exclusive st → watermarks_ok SSD st →
  let st' := (RunPassForTier cfg mt peers me o SSD e st).2 in
  if used_bytes SSD st <=? capacity_bytes SSD st * high_watermark_pct cfg / 100 then st' = st
  else used_bytes SSD st' ≤ capacity_bytes SSD st * low_watermark_pct cfg / 100.
Proof.
  intros Hi He Hwm st'. unfold st'. rewrite RunPass_store by done.
  destruct (watermarks_exact SSD st Hi Hwm) as (<- & <- & Hlh).
  destruct (_ <=? high_bytes SSD st) eqn:E2; [by rewrite orb_true_r|]. zbool.
  replace (used_bytes SSD st =? 0) with false by lia. cbn [orb].
  destruct (pass_need SSD st Hi Hwm E2) as [Hneed Hrange].
  pose proof (loop_ssd_low SSD st (Snapshot o SSD st) (hand_of SSD e) o eq_refl Hi He
    (used_bytes SSD st - low_bytes SSD st) eq_refl
    (used_snapshot_nonempty SSD st Hi ltac:(lia)) Hrange) as Hl.
  unfold pass_sieve. rewrite Hneed. lia.
Qed.

(** Any tier, one sweep: when every block lives in one tier and no visited
    bit is set, a pass over any tier that finds usage above the high watermark
    brings it down to the low watermark. *)
Theorem evict_unvisited_reaches_low t e st :
  inv st → exclusive st → watermarks_ok t st →
  Forall (λ m, m_visited m = false) (Snapshot o t st) →
  let st' := (RunPassForTier cfg mt peers me o t e st).2 in
  if used_bytes t st <=? capacity_bytes t st * high_watermark_pct cfg / 100 then st' = st
  else used_bytes t st' ≤ capacity_bytes t st * low_watermark_pct cfg / 100.
Proof.
  intros Hi He Hwm Hun st'. unfold st'. rewrite RunPass_store by done.
  destruct (watermarks_exact t st Hi Hwm) as (<- & <- & Hlh).
  destruct (_ <=? high_bytes t st) eqn:E2; [by rewrite orb_true_r|]. zbool.
  replace (used_bytes t st =? 0) with false by lia. cbn [orb].
  destruct (pass_need t st Hi Hwm E2) as [Hneed Hrange].
  pose proof (loop_unvisited_low t st (Snapshot o t st) (hand_of t e) o eq_refl Hi He
    (used_bytes t st - low_bytes t st) Hun
    (used_snapshot_nonempty t st Hi ltac:(lia)) Hrange) as Hl.
  unfold pass_sieve. rewrite Hneed. lia.
Qed.
End run_pass.
End proofs.

Lemma size_list_to_set_le (l : list BlockId) : (size (list_to_set l : gset BlockId) ≤ length l)%nat.
Proof.
  induction l as [|x l IH]; [rewrite list_to_set_nil, size_empty; cbn [length]; lia|].
  rewrite list_to_set_cons, size_union_alt, size_singleton. cbn [length].
  assert (size (list_to_set l ∖ {[x]} : gset BlockId) ≤ size (list_to_set l : gset BlockId))%nat
    by (apply subseteq_size; set_solver). lia.
Qed.

(** The hint set of one peer stays below twice the bound as long as one
    broadcast carries no more blocks than the bound. *)
Lemma OnPeerEviction_bound evicted peer e :
  (length evicted ≤ kPerPeerBound)%nat →
  (peer_evicted_count_for_testing peer e ≤ 2 * kPerPeerBound)%nat →
  (peer_evicted_count_for_testing peer (OnPeerEviction evicted peer e) ≤ 2 * kPerPeerBound)%nat.
Proof.
  intros Hl Hb. unfold peer_evicted_count_for_testing, OnPeerEviction. cbn [ev_peer_evicted].
  rewrite lookup_insert_eq. cbn [from_option].
  set (s := if (kPerPeerBound <? _)%nat then ∅ else default ∅ (ev_peer_evicted e !! peer)).
  assert (size s ≤ kPerPeerBound)%nat as Hs.
  { unfold s. destruct (kPerPeerBound <? _)%nat eqn:E; [rewrite size_empty; lia|].
    by apply Nat.ltb_ge in E. }
  pose proof (size_union_alt s (list_to_set evicted)) as Hu.
  assert (size (list_to_set evicted ∖ s : gset BlockId) ≤ length evicted)%nat.
  { etrans; [|apply size_list_to_set_le]. apply subseteq_size.
    intros x [Hx _]%elem_of_difference. exact Hx. }
  lia.
Qed.

(** ** Concrete passes *)

(** Four DRAM blocks of one byte, four disk slots, promotion off. *)
Definition wit_evict_cfg : TieredStoreConfig := mkTieredStoreConfig 0 4 264 "/tmp" false 2 66.

Definition wit_evict_ssd : SsdBlockStore :=
  match open_store sys_ok [] 264 66 with inr s => s | inl _ => wit_ssd0 end.

Definition wit_evict0 : TieredStore := new_store wit_evict_cfg (Some wit_evict_ssd).

Definition wit_eblock (x : byte) : KvBlock := mkKvBlock (block_id_of_byte x) [x] DRAM 0.

Definition wit_bytes : list byte := [Byte.x01; Byte.x02; Byte.x03; Byte.x04].

Definition put_all (hint : Tier) (xs : list byte) (st : TieredStore) : TieredStore :=
  fold_left (λ st x, (TieredStore.Put (wit_eblock x) hint st).2) xs st.

Definition get_all (xs : list byte) (st : TieredStore) : TieredStore :=
  fold_left (λ st x, (TieredStore.Get (block_id_of_byte x) st).2) xs st.

(** All four in DRAM; in DRAM with every block but the second visited; all
    four on the disk. *)
Definition wit_dram4 : TieredStore := put_all DRAM wit_bytes wit_evict0.
Definition wit_dram4_visited : TieredStore :=
  get_all [Byte.x01; Byte.x03; Byte.x04] wit_dram4.
Definition wit_ssd4 : TieredStore := put_all SSD wit_bytes wit_evict0.

Definition std_order : SnapOrder BlockStore SsdBlockStore :=
  mkSnapOrder (M := BlockStore) (D := SsdBlockStore)
    (std_iteration (K := BlockId) (V := KvBlock)) (std_iteration (K := BlockId) (V := nat)).

Definition wit_ecfg : EvictionConfig := mkEvictionConfig 90 50 500 true.

Definition wit_ecfg_ssd : EvictionConfig := mkEvictionConfig 40 20 500 true.

Definition wit_pass (t : Tier) (st : TieredStore) :
    PassResult * list PassEffect * EvictorState * TieredStore :=
  RunPassForTier wit_ecfg true (Some (["h1:1"], 7)) "a" std_order t new_evictor_state st.

(** C39 (the second sweep erases demoted blocks): a DRAM pass demotes the one
    block that was not visited, clears the bits of the others, comes around to
    the demoted block again, fails to demote it a second time and erases it
    from the disk tier, although the disk has room for it.  Its bytes are
    counted twice, so the pass stops with the tier still above the low
    watermark. *)
Theorem evict_second_sweep_loses_block :
  gr_data <$> (TieredStore.Get (block_id_of_byte Byte.x02) wit_dram4_visited).1 = Some [Byte.x02] ∧
  gr_data <$> (TieredStore.Get (block_id_of_byte Byte.x02) (wit_pass DRAM wit_dram4_visited).2).1 = None ∧
  bytes_freed (wit_pass DRAM wit_dram4_visited).1.1.1 = 2 ∧
  TieredStore.used_bytes DRAM (wit_pass DRAM wit_dram4_visited).2 = 3 ∧
  TieredStore.capacity_bytes DRAM wit_dram4_visited * low_watermark_pct wit_ecfg / 100 = 2 ∧
  TieredStore.used_bytes SSD (wit_pass DRAM wit_dram4_visited).2 = 0.
Proof. split_and!; vm_compute; reflexivity. Qed.

(** The concrete stores satisfy the hypotheses of the theorems. *)
Definition wit_epayload (id : BlockId) : bytes := take 1 (vec_to_list (b_hash id)).

Lemma wit_evict0_spec : inv wit_evict0 ∧ contents wit_evict0 = ∅.
Proof.
  destruct (ssd_open_fresh sys_ok 264 66) as (s & E & Hi & Hc & _); [by split|done..|].
  assert (wit_evict_ssd = s) as Es by (unfold wit_evict_ssd; by rewrite E).
  destruct (new_store_inv wit_evict_cfg (Some wit_evict_ssd)) as [Hi' Hc'].
  - by split.
  - intros s' [= <-]. rewrite Es. split_and!; [done| |].
    + rewrite <- Es. by vm_compute.
    + intros id d. cbn. rewrite Hc. by rewrite lookup_empty.
  - split; [done|]. unfold wit_evict0. rewrite Hc', Es. exact Hc.
Qed.

Definition wit_good (st : TieredStore) : Prop := inv st ∧ addressed wit_epayload (contents st).

Lemma put_all_good hint xs st :
  Forall (λ x, event_ok wit_epayload (EPut (wit_eblock x) hint true)) xs →
  wit_good st → wit_good (put_all hint xs st).
Proof.
  intros Hxs. revert st. induction Hxs as [|x xs Hx _ IH]; intros st [Hi Ha]; [done|]. simpl.
  apply IH.
  set (ev := EPut (wit_eblock x) hint (bool_decide (is_Some (TieredStore.Put (wit_eblock x) hint st).1))).
  destruct (step_refines wit_epayload st ev _ Hi Ha Hx (step_put st (wit_eblock x) hint)) as [Hi' Hs].
  split; [done|]. by apply (spec_step_addressed wit_epayload _ ev _ Ha Hx Hs).
Qed.

Lemma get_all_good xs st : wit_good st → wit_good (get_all xs st).
Proof.
  revert st. induction xs as [|x xs IH]; intros st [Hi Ha]; [done|]. simpl. apply IH.
  destruct (Get_effect (block_id_of_byte x) st Hi) as (Hi' & Hc & _). split; [done|]. by rewrite Hc.
Qed.

Lemma wit_evict_good : wit_good wit_dram4 ∧ wit_good wit_dram4_visited ∧ wit_good wit_ssd4.
Proof.
  assert (wit_good wit_evict0) as H0.
  { destruct wit_evict0_spec as [Hi Hc]. split; [done|]. rewrite Hc. intros id d. by rewrite lookup_empty. }
  assert (∀ hint, Forall (λ x, event_ok wit_epayload (EPut (wit_eblock x) hint true)) wit_bytes) as Hev
    by (intros hint; repeat (apply Forall_cons; split; [by repeat split|]); by apply Forall_nil).
  split_and!; [by apply put_all_good|by apply get_all_good, put_all_good|by apply put_all_good].
Qed.

(** With one tier in use every block lives in one tier. *)
Lemma used_zero_empty t (st : TieredStore) :
  inv st → TieredStore.used_bytes t st = 0 → tier_contents t st = ∅.
Proof.
  intros Hi Hu. rewrite used_contents in Hu by apply Hi. apply map_empty. intros id.
  destruct (tier_contents t st !! id) as [d|] eqn:E; [|done].
  pose proof (msum_lookup_le size_of _ id d ltac:(auto with lethe) E) as Hle.
  apply (inv_nonempty st Hi) in E. destruct d; [done|]. unfold size_of in *. simpl in *. lia.
Qed.

Lemma one_tier_exclusive t (st : TieredStore) :
  inv st → (∀ t', t' ≠ t → TieredStore.used_bytes t' st = 0) → exclusive st.
Proof.
  intros Hi Hz id t1 t2 [d1 H1] [d2 H2].
  assert (∀ t' d, tier_contents t' st !! id = Some d → t' = t) as Ht.
  { intros t' d Hd. destruct (decide (t' = t)) as [|Hne]; [done|].
    by rewrite (used_zero_empty t' st Hi (Hz t' Hne)), lookup_empty in Hd. }
  by rewrite (Ht _ _ H1), (Ht _ _ H2).
Qed.

Lemma evict_pass_frame_witness :
  contents (wit_pass DRAM wit_dram4_visited).2 ⊆ contents wit_dram4_visited.
Proof.
  apply (evict_pass_frame wit_ecfg true (Some (["h1:1"], 7)) "a" std_order DRAM new_evictor_state
    wit_dram4_visited). apply wit_evict_good.
Defined.

(** A pass that needs all the bytes reaches the visited block [x04] after the
    unvisited [x02]. *)
Lemma evict_second_chance_witness :
  ∃ m m', m_id m = block_id_of_byte Byte.x04 ∧ m_id m' = block_id_of_byte Byte.x02 ∧
    m_visited m = true ∧ m_visited m' = false ∧
    m_id m' ∈ sv_evicted (pass_sieve wit_ecfg_ssd std_order DRAM new_evictor_state wit_dram4_visited).
Proof.
  set (l := TieredStore.Snapshot std_order DRAM wit_dram4_visited).
  assert (length l = 4%nat) as Hlen by (by vm_compute).
  exists (l !!! 1%nat), (l !!! 0%nat).
  assert (m_visited (l !!! 1%nat) = true) as Hv by (by vm_compute).
  assert (m_visited (l !!! 0%nat) = false) as Hv' by (by vm_compute).
  split_and!; [by vm_compute|by vm_compute|exact Hv|exact Hv'|].
  apply (evict_second_chance wit_ecfg_ssd std_order DRAM new_evictor_state wit_dram4_visited
    (l !!! 1%nat) (l !!! 0%nat)).
  - apply wit_evict_good.
  - apply list_elem_of_lookup_total_2. fold l. lia.
  - apply list_elem_of_lookup_total_2. fold l. lia.
  - exact Hv.
  - exact Hv'.
  - apply (bool_decide_unpack _). vm_compute. exact I.
Defined.

Lemma wit_one_tier :
  exclusive wit_ssd4 ∧ exclusive wit_dram4.
Proof.
  split.
  - apply (one_tier_exclusive SSD); [apply wit_evict_good|]. intros []; by vm_compute.
  - apply (one_tier_exclusive DRAM); [apply wit_evict_good|]. intros []; by vm_compute.
Qed.

Lemma evict_ssd_reaches_low_witness :
  TieredStore.used_bytes SSD wit_ssd4 = 4 ∧
  TieredStore.used_bytes SSD
    (RunPassForTier wit_ecfg_ssd true None "a" std_order SSD new_evictor_state wit_ssd4).2 ≤ 1.
Proof.
  split; [by vm_compute|].
  pose proof (evict_ssd_reaches_low wit_ecfg_ssd true None "a" std_order new_evictor_state wit_ssd4
    ltac:(apply wit_evict_good) ltac:(apply wit_one_tier) ltac:(by split; vm_compute)) as Hp.
  replace (TieredStore.used_bytes SSD wit_ssd4) with 4 in Hp by (by vm_compute).
  replace (TieredStore.capacity_bytes SSD wit_ssd4) with 8 in Hp by (by vm_compute).
  exact Hp.
Defined.

Lemma evict_unvisited_reaches_low_witness :
  TieredStore.used_bytes DRAM wit_dram4 = 4 ∧
  TieredStore.used_bytes DRAM (wit_pass DRAM wit_dram4).2 ≤ 2.
Proof.
  split; [by vm_compute|].
  pose proof (evict_unvisited_reaches_low wit_ecfg true (Some (["h1:1"], 7)) "a" std_order DRAM
    new_evictor_state wit_dram4
    ltac:(apply wit_evict_good) ltac:(apply wit_one_tier) ltac:(by split; vm_compute)) as Hp.
  replace (TieredStore.used_bytes DRAM wit_dram4) with 4 in Hp by (by vm_compute).
  replace (TieredStore.capacity_bytes DRAM wit_dram4) with 4 in Hp by (by vm_compute).
  apply Hp. apply (bool_decide_unpack _). vm_compute. exact I.
Defined.
