(* ===== verification/Membership.v ===== *)
(** * Membership (membership.hpp, membership.cpp)

    The peer table, the failure detector, the heartbeat handler and the
    propagation of a membership change to the router and the replicator.  Time
    is read from the steady clock and is an argument (nanoseconds); whether an
    outbound heartbeat succeeded in time is the environment's answer.  Calls
    into other components are returned as effects. *)
From S2P Require Import Prelude Types.

Record PeerInfo : Type := mkPeerInfo {
  pi_node_id : string;
  pi_address : string;
  pi_last_seen : Z;
  pi_last_seen_epoch : Z;
  pi_suspected : bool;
  pi_alive : bool;
  pi_ever_seen : bool
}.

(** Durations in the unit of the clock. *)
Record MembershipConfig : Type := mkMembershipConfig {
  heartbeat_interval : Z;
  suspect_after : Z;
  dead_after : Z
}.

(** The pointers to other components may be null; [mb_has_*] records which
    are not. *)
Record Membership : Type := mkMembership {
  mb_cfg : MembershipConfig;
  mb_local_node_id : string;
  mb_has_router : bool;
  mb_has_replicator : bool;
  mb_has_metrics : bool;
  mb_peers : gmap string PeerInfo;
  mb_epoch : Z;   (* std::uint64_t *)
  mb_running : bool
}.

Inductive MemberEffect : Type :=
| RecordEpoch (e : Z)
| RouterSetPeers (ids : list string)
| TriggerReReplication (lost : list string).

Definition with_peers (m : Membership) (ps : gmap string PeerInfo) : Membership :=
  mkMembership (mb_cfg m) (mb_local_node_id m) (mb_has_router m) (mb_has_replicator m)
    (mb_has_metrics m) ps (mb_epoch m) (mb_running m).
Definition with_epoch (m : Membership) (e : Z) : Membership :=
  mkMembership (mb_cfg m) (mb_local_node_id m) (mb_has_router m) (mb_has_replicator m)
    (mb_has_metrics m) (mb_peers m) e (mb_running m).
Definition with_running (m : Membership) (r : bool) : Membership :=
  mkMembership (mb_cfg m) (mb_local_node_id m) (mb_has_router m) (mb_has_replicator m)
    (mb_has_metrics m) (mb_peers m) (mb_epoch m) r.

(** [peers_.emplace]: an entry that exists is kept. *)
Definition seed_peer (now : Z) (ps : gmap string PeerInfo) (p : StaticPeer) : gmap string PeerInfo :=
  match ps !! sp_node_id p with
  | Some _ => ps
  | None => <[sp_node_id p :=
               mkPeerInfo (sp_node_id p) (sp_address p) now 0 false true false]> ps
  end.

Definition make_membership (cfg : MembershipConfig) (local_node_id : string)
    (seed_peers : list StaticPeer) (has_router has_replicator has_metrics : bool) (now : Z) :
    Membership :=
  mkMembership cfg local_node_id has_router has_replicator has_metrics
    (fold_left (seed_peer now) seed_peers ∅) 0 false.

Definition Start (m : Membership) : Membership := with_running m true.
Definition Shutdown (m : Membership) : Membership := with_running m false.

(** The ids of the peers that are alive, in iteration order. *)
Definition alive_ids (it : Iteration string PeerInfo) (m : Membership) : list string :=
  (filter (λ x, pi_alive x.2 = true) (it (mb_peers m))).*1.

Definition OnMembershipChange (it : Iteration string PeerInfo) (lost : list string)
    (m : Membership) : list MemberEffect * Membership :=
  let m1 := with_epoch m (mb_epoch m +₆₄ 1) in
  let ids := mb_local_node_id m1 :: alive_ids it m1 in
  ((if mb_has_metrics m1 then [RecordEpoch (mb_epoch m1)] else []) ++
   (if mb_has_router m1 then [RouterSetPeers ids] else []) ++
   (if mb_has_replicator m1 && negb (bool_decide (lost = [])) then [TriggerReReplication lost] else []),
   m1).

(** The peers to contact: not self, with an address, dead or alive. *)
Definition heartbeat_targets (it : Iteration string PeerInfo) (m : Membership) :
    list (string * string) :=
  (λ x, (x.1, pi_address x.2)) <$>
    filter (λ x, x.1 ≠ mb_local_node_id m ∧ pi_address x.2 ≠ "") (it (mb_peers m)).

(** A successful reply from [peer_id], under the lock; the second component
    collects the peers that came back. *)
Definition note_reply (now epoch : Z) (acc : gmap string PeerInfo * list string) (peer_id : string) :
    gmap string PeerInfo * list string :=
  let '(ps, resurrected) := acc in
  match ps !! peer_id with
  | None => acc
  | Some i =>
      (<[peer_id := mkPeerInfo (pi_node_id i) (pi_address i) now epoch false true true]> ps,
       if pi_alive i then resurrected else resurrected ++ [peer_id])
  end.

(** [reply id address] is true when the heartbeat sent there was answered with
    OK before the deadline; [now] is the time of the update. *)
Definition SendHeartbeatsToAllPeers (it it' : Iteration string PeerInfo)
    (reply : string → string → bool) (now : Z) (m : Membership) :
    list MemberEffect * Membership :=
  let targets := heartbeat_targets it m in
  let succeeded := (filter (λ x, reply x.1 x.2 = true) targets).*1 in
  match succeeded with
  | [] => ([], m)
  | _ =>
      let '(ps, resurrected) := fold_left (note_reply now (mb_epoch m)) succeeded (mb_peers m, []) in
      let m1 := with_peers m ps in
      match resurrected with
      | [] => ([], m1)
      | _ => OnMembershipChange it' [] m1
      end
  end.

(** The detector on one entry; the flag says that the peer just died. *)
Definition evaluate_peer (cfg : MembershipConfig) (local : string) (now : Z)
    (id : string) (i : PeerInfo) : PeerInfo * bool :=
  if String.eqb id local then (i, false)
  else if negb (pi_alive i) then (i, false)
  else if negb (pi_ever_seen i) then (i, false)
  else
    let since := now - pi_last_seen i in
    if since >? dead_after cfg
    then (mkPeerInfo (pi_node_id i) (pi_address i) (pi_last_seen i) (pi_last_seen_epoch i)
            true false (pi_ever_seen i), true)
    else (mkPeerInfo (pi_node_id i) (pi_address i) (pi_last_seen i) (pi_last_seen_epoch i)
            (since >? suspect_after cfg) (pi_alive i) (pi_ever_seen i), false).

Definition EvaluateSuspicions (it : Iteration string PeerInfo) (now : Z) (m : Membership) :
    list string * Membership :=
  let eval := evaluate_peer (mb_cfg m) (mb_local_node_id m) now in
  ((filter (λ x, (eval x.1 x.2).2 = true) (it (mb_peers m))).*1,
   with_peers m (map_imap (λ id i, Some (eval id i).1) (mb_peers m))).

(** The iteration orders that one turn of the loop sees. *)
Record TickOrder : Type := mkTickOrder {
  to_targets : Iteration string PeerInfo;
  to_resurrect : Iteration string PeerInfo;
  to_evaluate : Iteration string PeerInfo;
  to_change : Iteration string PeerInfo
}.

(** One turn of [HeartbeatLoop] up to the wait: the update happens at [now1],
    the evaluation at [now2]. *)
Definition HeartbeatTick (o : TickOrder) (reply : string → string → bool) (now1 now2 : Z)
    (m : Membership) : list MemberEffect * Membership :=
  let '(eff1, m1) := SendHeartbeatsToAllPeers (to_targets o) (to_resurrect o) reply now1 m in
  let '(lost, m2) := EvaluateSuspicions (to_evaluate o) now2 m1 in
  match lost with
  | [] => (eff1, m2)
  | _ => let '(eff2, m3) := OnMembershipChange (to_change o) lost m2 in (eff1 ++ eff2, m3)
  end.

(** A default-constructed [PeerInfo] with the id filled in. *)
Definition unknown_peer (peer_id : string) : PeerInfo := mkPeerInfo peer_id "" 0 0 false true false.

Definition OnHeartbeat (it it' : Iteration string PeerInfo) (now : Z) (peer_id : string)
    (m : Membership) : HeartbeatReply * list MemberEffect * Membership :=
  let i := default (unknown_peer peer_id) (mb_peers m !! peer_id) in
  let resurrected := negb (pi_alive i) in
  let i' := mkPeerInfo (pi_node_id i) (pi_address i) now (mb_epoch m) false true true in
  let m1 := with_peers m (<[peer_id := i']> (mb_peers m)) in
  let reply := mkHeartbeatReply
    ((λ x, mkPeerStatus (pi_node_id x.2) (pi_last_seen_epoch x.2) (pi_suspected x.2)) <$>
       filter (λ x, pi_alive x.2 = true) (it (mb_peers m1))) (mb_epoch m1) in
  if resurrected
  then let '(eff, m2) := OnMembershipChange it' [] m1 in (reply, eff, m2)
  else (reply, [], m1).

Definition AlivePeers (it : Iteration string PeerInfo) (m : Membership) : list string :=
  (λ x, pi_node_id x.2) <$> filter (λ x, pi_alive x.2 = true) (it (mb_peers m)).

Definition Epoch (m : Membership) : Z := mb_epoch m.

Definition AllPeerAddresses (it : Iteration string PeerInfo) (m : Membership) : list string :=
  (λ x, pi_address x.2) <$>
    filter (λ x, pi_address x.2 ≠ "" ∧ pi_alive x.2 = true) (it (mb_peers m)).

Definition BumpEpochForTesting (m : Membership) : Membership := with_epoch m (mb_epoch m +₆₄ 1).

(** ** The alive set and the ring *)

Definition alive_set (m : Membership) : gset string :=
  dom (filter (λ x, pi_alive x.2 = true) (mb_peers m)).

Lemma elem_of_alive_set p m :
  p ∈ alive_set m ↔ ∃ i, mb_peers m !! p = Some i ∧ pi_alive i = true.
Proof.
  unfold alive_set. rewrite elem_of_dom. split.
  - intros [i [Hi Ha]%map_lookup_filter_Some]. eauto.
  - intros (i & Hi & Ha). exists i. by apply map_lookup_filter_Some.
Qed.

Lemma elem_of_alive_ids it p m : p ∈ alive_ids it m ↔ p ∈ alive_set m.
Proof.
  rewrite elem_of_alive_set. unfold alive_ids. rewrite list_elem_of_fmap. split.
  - intros ([q i] & -> & [Ha Hin]%list_elem_of_filter). rewrite elem_of_iter in Hin. eauto.
  - intros (i & Hi & Ha). exists (p, i). split; [done|].
    apply list_elem_of_filter. split; [done|]. by apply elem_of_iter.
Qed.

Lemma NoDup_fst_filter_iter (P : string * PeerInfo → Prop) `{∀ x, Decision (P x)}
    (it : Iteration string PeerInfo) ps :
  NoDup (filter P (it ps)).*1.
Proof.
  pose proof (NoDup_iter it ps) as Hnd. induction (it ps) as [|x l IH]; [done|].
  rewrite fmap_cons, NoDup_cons in Hnd. destruct Hnd as [Hx Hl]. rewrite filter_cons.
  case_decide; [|by apply IH]. rewrite fmap_cons, NoDup_cons. split; [|by apply IH].
  contradict Hx. apply list_elem_of_fmap in Hx as (y & -> & [_ Hy]%list_elem_of_filter).
  apply list_elem_of_fmap. by exists y.
Qed.

(** The peers that the router was last told about. *)
Definition ring_after (ring : list string) (effs : list MemberEffect) : list string :=
  fold_left (λ r e, match e with RouterSetPeers ids => ids | _ => r end) effs ring.

(** The ring holds the local node and the alive peers, each once. *)
Definition ring_ok (m : Membership) (ring : list string) : Prop :=
  NoDup ring ∧ ∀ p, p ∈ ring ↔ p = mb_local_node_id m ∨ p ∈ alive_set m.

(** The table holds other peers only. *)
Definition self_absent (m : Membership) : Prop := mb_peers m !! mb_local_node_id m = None.

Lemma ring_ok_same m m' ring :
  mb_local_node_id m' = mb_local_node_id m → alive_set m' = alive_set m →
  ring_ok m ring → ring_ok m' ring.
Proof. intros Hl Ha [Hnd Hr]. split; [done|]. by rewrite Hl, Ha. Qed.

Lemma ring_after_app ring e1 e2 : ring_after ring (e1 ++ e2) = ring_after (ring_after ring e1) e2.
Proof. apply fold_left_app. Qed.

(** A membership change makes the router's ring right, whatever it was. *)
Lemma OnMembershipChange_spec it lost m ring :
  self_absent m → mb_has_router m = true →
  let '(eff, m') := OnMembershipChange it lost m in
  ring_ok m' (ring_after ring eff) ∧ mb_peers m' = mb_peers m ∧
  mb_local_node_id m' = mb_local_node_id m ∧ mb_has_router m' = true ∧
  mb_epoch m' = mb_epoch m +₆₄ 1.
Proof.
  intros Hs Hr. simpl. split_and!; try done. rewrite Hr.
  replace (ring_after ring _) with (mb_local_node_id m :: alive_ids it m).
  2:{ unfold ring_after. destruct (mb_has_metrics m), (mb_has_replicator m && _); done. }
  split.
  - apply NoDup_cons. split; [|apply NoDup_fst_filter_iter].
    rewrite elem_of_alive_ids, elem_of_alive_set. intros (i & Hi & _).
    unfold self_absent in Hs. congruence.
  - intros p. rewrite elem_of_cons, elem_of_alive_ids. done.
Qed.

(** ** Outbound heartbeats *)

(** What the replies of [l] do to the table. *)
Record replies_effect (now epoch : Z) (l : list string) (ps : gmap string PeerInfo)
    (res : list string) (ps' : gmap string PeerInfo) (res' : list string) : Prop := {
  re_dom p : is_Some (ps' !! p) ↔ is_Some (ps !! p);
  re_in p i : p ∈ l → ps !! p = Some i →
    ps' !! p = Some (mkPeerInfo (pi_node_id i) (pi_address i) now epoch false true true);
  re_out p : p ∉ l → ps' !! p = ps !! p;
  re_none : res' = [] → ∀ p i, p ∈ l → ps !! p = Some i → pi_alive i = true
}.

Lemma note_replies now epoch l ps res ps' res' :
  fold_left (note_reply now epoch) l (ps, res) = (ps', res') →
  replies_effect now epoch l ps res ps' res' ∧ (res' = [] → res = []).
Proof.
  revert ps res. induction l as [|q l IH]; intros ps res; simpl.
  { intros [= <- <-]. split; [|done]. split; try done; set_solver. }
  intros E. destruct (ps !! q) as [i|] eqn:Eq.
  2:{ destruct (IH _ _ E) as [[H1 H2 H3 H4] Hr]. split; [|done]. split; [done| | |].
      - intros p j [->|Hp]%elem_of_cons; [congruence|by apply H2].
      - intros p [_ Hp]%not_elem_of_cons. by apply H3.
      - intros Hn p j [->|Hp]%elem_of_cons; [congruence|by apply H4]. }
  destruct (IH _ _ E) as [[H1 H2 H3 H4] Hr].
  assert (res' = [] → pi_alive i = true ∧ res = []) as Hres.
  { intros Hn. specialize (Hr Hn). destruct (pi_alive i); [done|]. by destruct res. }
  split; [|intros Hn; by apply Hres]. split.
  - intros p. rewrite H1. destruct (decide (q = p)) as [<-|]; [|by rewrite lookup_insert_ne].
    rewrite lookup_insert_eq, Eq. split; intros; eauto.
  - intros p j Hp Hj. destruct (decide (p ∈ l)) as [Hin|Hout].
    + destruct (decide (q = p)) as [<-|Hne].
      * rewrite (H2 q _ Hin (lookup_insert_eq _ _ _)). simpl. by simplify_eq.
      * apply H2; [done|]. by rewrite lookup_insert_ne.
    + apply elem_of_cons in Hp as [->|]; [|done]. rewrite (H3 q Hout), lookup_insert_eq. by simplify_eq.
  - intros p [Hne Hp]%not_elem_of_cons. rewrite (H3 p Hp). by rewrite lookup_insert_ne.
  - intros Hn p j Hp Hj. destruct (decide (q = p)) as [<-|Hne]; [simplify_eq; by apply Hres|].
    apply elem_of_cons in Hp as [->|Hp]; [done|]. apply (H4 Hn p j Hp). by rewrite lookup_insert_ne.
Qed.

(** The wiring and the set of known peers, which no handler changes (a
    heartbeat from an unknown peer apart). *)
Record same_node (m m' : Membership) : Prop := {
  sn_cfg : mb_cfg m' = mb_cfg m;
  sn_local : mb_local_node_id m' = mb_local_node_id m;
  sn_router : mb_has_router m' = mb_has_router m;
  sn_replicator : mb_has_replicator m' = mb_has_replicator m;
  sn_known p : is_Some (mb_peers m' !! p) ↔ is_Some (mb_peers m !! p)
}.

Lemma same_node_refl m : same_node m m.
Proof. done. Qed.

Lemma same_node_trans m1 m2 m3 : same_node m1 m2 → same_node m2 m3 → same_node m1 m3.
Proof. intros [???? Hk1] [???? Hk2]. split; try congruence. intros p. by rewrite Hk2. Qed.

Lemma same_node_self_absent m m' : same_node m m' → self_absent m → self_absent m'.
Proof.
  intros Hn Hs. unfold self_absent in *. rewrite (sn_local _ _ Hn).
  apply eq_None_not_Some. rewrite (sn_known _ _ Hn), Hs. by intros [].
Qed.

Lemma OnMembershipChange_node it lost m : same_node m (OnMembershipChange it lost m).2.
Proof. done. Qed.

(** The peer [p] with entry [i] is contacted and answers. *)
Definition responds (reply : string → string → bool) (m : Membership) (p : string) (i : PeerInfo) : Prop :=
  p ≠ mb_local_node_id m ∧ pi_address i ≠ "" ∧ reply p (pi_address i) = true.

Definition seen_now (now epoch : Z) (i : PeerInfo) : PeerInfo :=
  mkPeerInfo (pi_node_id i) (pi_address i) now epoch false true true.

Lemma elem_of_succeeded it reply m p :
  p ∈ (filter (λ x, reply x.1 x.2 = true) (heartbeat_targets it m)).*1 ↔
  ∃ i, mb_peers m !! p = Some i ∧ responds reply m p i.
Proof.
  unfold heartbeat_targets, responds. rewrite list_elem_of_fmap. split.
  - intros ([q a] & -> & [Hr Hin]%list_elem_of_filter).
    apply list_elem_of_fmap in Hin as ([q' i] & [= -> ->] & [[Hl Ha] Hi]%list_elem_of_filter).
    rewrite elem_of_iter in Hi. simpl in *. eauto.
  - intros (i & Hi & Hl & Ha & Hr). exists (p, pi_address i). split; [done|].
    apply list_elem_of_filter. split; [done|]. apply list_elem_of_fmap. exists (p, i). split; [done|].
    apply list_elem_of_filter. split; [done|]. by apply elem_of_iter.
Qed.

(** Replies that bring nobody back leave the alive set as it is. *)
Lemma replies_alive now epoch l m ps :
  fold_left (note_reply now epoch) l (mb_peers m, []) = (ps, []) → alive_set (with_peers m ps) = alive_set m.
Proof.
  intros Ef. destruct (note_replies _ _ _ _ _ _ _ Ef) as [[H1 H2 H3 H4] _].
  apply set_eq. intros p. rewrite !elem_of_alive_set. simpl. split.
  - intros (i & Hi & Hal). destruct (proj1 (H1 p) (mk_is_Some _ _ Hi)) as [j Hj]. exists j. split; [done|].
    destruct (decide (p ∈ l)) as [Hin|Hout]; [by apply (H4 eq_refl p)|].
    rewrite (H3 p Hout) in Hi. by simplify_eq.
  - intros (i & Hi & Hal). destruct (decide (p ∈ l)) as [Hin|Hout].
    + rewrite (H2 p i Hin Hi). eauto.
    + rewrite (H3 p Hout). eauto.
Qed.

Lemma Send_spec it it' reply now m eff m' ring :
  SendHeartbeatsToAllPeers it it' reply now m = (eff, m') →
  self_absent m → mb_has_router m = true → ring_ok m ring →
  same_node m m' ∧ ring_ok m' (ring_after ring eff) ∧
  (eff = [] → alive_set m' = alive_set m ∧ mb_epoch m' = mb_epoch m) ∧
  (∀ p i, mb_peers m !! p = Some i →
     (responds reply m p i → mb_peers m' !! p = Some (seen_now now (mb_epoch m) i)) ∧
     (¬ responds reply m p i → mb_peers m' !! p = Some i)).
Proof.
  intros E Hs Hrt Hring. unfold SendHeartbeatsToAllPeers in E.
  pose proof (elem_of_succeeded it reply m) as Hsucc.
  destruct (filter _ _).*1 as [|q l] eqn:El.
  { injection E as <- <-. split_and!; [done|done|done|]. intros p i Hi. split; [|done].
    intros Hr. assert (p ∈ @nil string) as Hn by (rewrite Hsucc; eauto). by apply not_elem_of_nil in Hn. }
  rewrite <- El in *. clear q l El. set (succeeded := (filter _ _).*1) in *.
  destruct (fold_left _ succeeded _) as [ps res] eqn:Ef.
  destruct (note_replies _ _ _ _ _ _ _ Ef) as [[H1 H2 H3 H4] _].
  assert (same_node m (with_peers m ps)) as Hn by (split; try done; exact H1).
  assert (∀ p i, mb_peers m !! p = Some i →
     (responds reply m p i → ps !! p = Some (seen_now now (mb_epoch m) i)) ∧
     (¬ responds reply m p i → ps !! p = Some i)) as Hpeers.
  { intros p i Hi. split.
    - intros Hr. apply H2; [|done]. apply Hsucc. eauto.
    - intros Hr. rewrite H3; [done|]. rewrite Hsucc. intros (j & Hj & Hrj). by simplify_eq. }
  destruct res as [|r0 res].
  - injection E as <- <-.
    assert (alive_set (with_peers m ps) = alive_set m) as Ha by exact (replies_alive _ _ _ _ _ Ef).
    split_and!; [done| |done|done]. by apply (ring_ok_same m).
  - pose proof (OnMembershipChange_spec it' [] (with_peers m ps) ring
      (same_node_self_absent _ _ Hn Hs) Hrt) as Hc.
    rewrite E in Hc. destruct Hc as (Hring' & Hps & _ & _ & _).
    split_and!; [|done| |].
    + eapply same_node_trans; [exact Hn|]. by rewrite <- (f_equal snd E : _ = m').
    + intros ->. unfold OnMembershipChange in E. simpl in E. rewrite Hrt in E.
      by destruct (mb_has_metrics m).
    + intros p i Hi. rewrite Hps. by apply Hpeers.
Qed.

(** ** The detector *)

(** The condition under which the detector declares a peer dead. *)
Definition silent (now : Z) (m : Membership) (p : string) (i : PeerInfo) : Prop :=
  p ≠ mb_local_node_id m ∧ pi_alive i = true ∧ pi_ever_seen i = true ∧
  dead_after (mb_cfg m) < now - pi_last_seen i.

Lemma evaluate_peer_dead now m p i :
  (evaluate_peer (mb_cfg m) (mb_local_node_id m) now p i).2 = true ↔ silent now m p i.
Proof.
  unfold evaluate_peer, silent.
  destruct (String.eqb_spec p (mb_local_node_id m)); [simpl; split; [done|tauto]|].
  destruct (pi_alive i); simpl; [|split; [done|]; intros (_ & ? & _); done].
  destruct (pi_ever_seen i); simpl; [|split; [done|]; intros (_ & _ & ? & _); done].
  destruct (_ >? _) eqn:E; simpl; zbool.
  - split; [intros _; by split_and!|done].
  - split; [done|]. intros (_ & _ & _ & ?). lia.
Qed.

Lemma EvaluateSuspicions_lookup it now m p :
  mb_peers (EvaluateSuspicions it now m).2 !! p =
  (λ i, (evaluate_peer (mb_cfg m) (mb_local_node_id m) now p i).1) <$> mb_peers m !! p.
Proof. simpl. rewrite map_lookup_imap. by destruct (mb_peers m !! p). Qed.

Lemma elem_of_lost it now m p :
  p ∈ (EvaluateSuspicions it now m).1 ↔ ∃ i, mb_peers m !! p = Some i ∧ silent now m p i.
Proof.
  simpl. rewrite list_elem_of_fmap. split.
  - intros ([q i] & -> & [Hd Hin]%list_elem_of_filter). rewrite elem_of_iter in Hin.
    exists i. split; [done|]. by apply evaluate_peer_dead.
  - intros (i & Hi & Hs). exists (p, i). split; [done|]. apply list_elem_of_filter.
    split; [by apply evaluate_peer_dead|]. by apply elem_of_iter.
Qed.

Lemma evaluate_peer_alive now m p i :
  pi_alive (evaluate_peer (mb_cfg m) (mb_local_node_id m) now p i).1 = true ↔
  pi_alive i = true ∧ ¬ silent now m p i.
Proof.
  rewrite <- evaluate_peer_dead. unfold evaluate_peer.
  destruct (String.eqb p _); [simpl; intuition congruence|].
  destruct (pi_alive i) eqn:Ea, (pi_ever_seen i), (_ >? _); simpl; rewrite ?Ea; intuition congruence.
Qed.

Lemma EvaluateSuspicions_alive it now m p :
  p ∈ alive_set (EvaluateSuspicions it now m).2 ↔
  p ∈ alive_set m ∧ p ∉ (EvaluateSuspicions it now m).1.
Proof.
  rewrite elem_of_lost, !elem_of_alive_set, EvaluateSuspicions_lookup. split.
  - intros (i' & (i & Hi & ->)%fmap_Some & Hal). apply evaluate_peer_alive in Hal as [Hal Hns].
    split; [eauto|]. intros (j & Hj & Hs). by simplify_eq.
  - intros ((i & Hi & Hal) & Hns). rewrite Hi. eexists. split; [done|].
    apply evaluate_peer_alive. split; [done|]. intros Hs. apply Hns. eauto.
Qed.

Lemma EvaluateSuspicions_node it now m : same_node m (EvaluateSuspicions it now m).2.
Proof. split; try done. intros p. rewrite EvaluateSuspicions_lookup. by rewrite fmap_is_Some. Qed.

(** ** Inbound heartbeats *)

Lemma OnHeartbeat_spec it it' now p m ring :
  self_absent m → mb_has_router m = true → ring_ok m ring → p ≠ mb_local_node_id m →
  is_Some (mb_peers m !! p) →
  let '(reply, eff, m') := OnHeartbeat it it' now p m in
  same_node m m' ∧ ring_ok m' (ring_after ring eff) ∧
  (eff = [] → alive_set m' = alive_set m ∧ mb_epoch m' = mb_epoch m).
Proof.
  intros Hs Hrt Hring Hp [i Hi]. unfold OnHeartbeat. rewrite Hi. cbn [default from_option id].
  set (m1 := with_peers m _).
  assert (same_node m m1) as Hn.
  { split; try done. intros q. simpl. destruct (decide (p = q)) as [<-|];
      [rewrite lookup_insert_eq, Hi; split; eauto|by rewrite lookup_insert_ne]. }
  destruct (pi_alive i) eqn:Ha; cbn [negb].
  - assert (alive_set m1 = alive_set m) as Hal.
    { apply set_eq. intros q. rewrite !elem_of_alive_set. simpl.
      destruct (decide (p = q)) as [<-|]; [|by rewrite lookup_insert_ne].
      rewrite lookup_insert_eq, Hi. split; intros (j & [= <-] & _); eauto. }
    split_and!; [done|by apply (ring_ok_same m)|done].
  - pose proof (OnMembershipChange_spec it' [] m1 ring (same_node_self_absent _ _ Hn Hs) Hrt) as Hc.
    destruct (OnMembershipChange it' [] m1) as [eff m2] eqn:E.
    destruct Hc as (Hr & Hps & Hl & Hrt' & _). split_and!; [|done|].
    + eapply same_node_trans; [exact Hn|]. rewrite <- (f_equal snd E : _ = m2).
      apply OnMembershipChange_node.
    + intros ->. unfold OnMembershipChange in E. simpl in E. rewrite Hrt in E.
      by destruct (mb_has_metrics m).
Qed.

(** ** One turn of the heartbeat loop *)

Lemma HeartbeatTick_spec o reply now1 now2 m ring :
  self_absent m → mb_has_router m = true → ring_ok m ring →
  let '(eff, m') := HeartbeatTick o reply now1 now2 m in
  same_node m m' ∧ ring_ok m' (ring_after ring eff) ∧
  (eff = [] → alive_set m' = alive_set m ∧ mb_epoch m' = mb_epoch m).
Proof.
  intros Hs Hrt Hring. unfold HeartbeatTick.
  destruct (SendHeartbeatsToAllPeers _ _ reply now1 m) as [eff1 m1] eqn:E1.
  destruct (Send_spec _ _ _ _ _ _ _ _ E1 Hs Hrt Hring) as (Hn1 & Hr1 & He1 & _).
  pose proof (EvaluateSuspicions_node (to_evaluate o) now2 m1) as Hn2.
  pose proof (EvaluateSuspicions_alive (to_evaluate o) now2 m1) as Hal.
  destruct (EvaluateSuspicions (to_evaluate o) now2 m1) as [lost m2] eqn:E2. cbn [fst snd] in *.
  assert (mb_epoch m2 = mb_epoch m1) as Hep by (by injection E2 as <- <-).
  pose proof (same_node_trans _ _ _ Hn1 Hn2) as Hn12.
  destruct lost as [|q lost].
  - assert (alive_set m2 = alive_set m1) as Ha.
    { apply set_eq. intros p. rewrite Hal. split; [by intros []|]. intros. split; [done|].
      apply not_elem_of_nil. }
    split_and!; [done| |].
    + apply (ring_ok_same m1); [apply Hn2|done|done].
    + intros He. destruct (He1 He) as [<- <-]. done.
  - pose proof (OnMembershipChange_spec (to_change o) (q :: lost) m2 (ring_after ring eff1)
      (same_node_self_absent _ _ Hn12 Hs) ltac:(by rewrite (sn_router _ _ Hn12))) as Hc.
    destruct (OnMembershipChange (to_change o) (q :: lost) m2) as [eff2 m3] eqn:E3.
    destruct Hc as (Hr & Hps & Hl & Hrt' & _). split_and!.
    + eapply same_node_trans; [exact Hn12|]. rewrite <- (f_equal snd E3 : _ = m3).
      apply OnMembershipChange_node.
    + by rewrite ring_after_app.
    + intros [_ ->]%app_eq_nil. unfold OnMembershipChange in E3. simpl in E3.
      rewrite (sn_router _ _ Hn12), Hrt in E3. by destruct (mb_has_metrics m2).
Qed.

(** ** Sequences of events, each handler run to its end *)

Inductive MemberEvent : Type :=
| MTick (o : TickOrder) (reply : string → string → bool) (now1 now2 : Z)
| MHeartbeat (it it' : Iteration string PeerInfo) (now : Z) (peer_id : string).

(** The state with the peers that the router was last given. *)
Definition member_step (s : Membership * list string) (e : MemberEvent) : Membership * list string :=
  match e with
  | MTick o reply now1 now2 =>
      let '(eff, m') := HeartbeatTick o reply now1 now2 s.1 in (m', ring_after s.2 eff)
  | MHeartbeat it it' now p =>
      let '(_, eff, m') := OnHeartbeat it it' now p s.1 in (m', ring_after s.2 eff)
  end.

(** Heartbeats come from peers of the seed list. *)
Definition from_known (m : Membership) (e : MemberEvent) : Prop :=
  match e with
  | MTick _ _ _ _ => True
  | MHeartbeat _ _ _ p => is_Some (mb_peers m !! p)
  end.

Lemma member_step_ok m ring e :
  self_absent m → mb_has_router m = true → ring_ok m ring → from_known m e →
  same_node m (member_step (m, ring) e).1 ∧
  ring_ok (member_step (m, ring) e).1 (member_step (m, ring) e).2.
Proof.
  intros Hs Hrt Hr Hk. destruct e as [o reply now1 now2|it it' now p]; simpl.
  - pose proof (HeartbeatTick_spec o reply now1 now2 m ring Hs Hrt Hr) as Ht.
    destruct (HeartbeatTick o reply now1 now2 m) as [eff m']. by destruct Ht as (? & ? & _).
  - assert (p ≠ mb_local_node_id m) as Hp.
    { intros ->. unfold self_absent in Hs. simpl in Hk. rewrite Hs in Hk. by destruct Hk. }
    pose proof (OnHeartbeat_spec it it' now p m ring Hs Hrt Hr Hp Hk) as Ht.
    destruct (OnHeartbeat it it' now p m) as [[rep eff] m']. by destruct Ht as (? & ? & _).
Qed.

Lemma member_steps_ok m ring evs :
  self_absent m → mb_has_router m = true → ring_ok m ring → Forall (from_known m) evs →
  let '(m', ring') := fold_left member_step evs (m, ring) in ring_ok m' ring'.
Proof.
  revert m ring. induction evs as [|e evs IH]; intros m ring Hs Hrt Hr Hk; [done|].
  apply Forall_cons in Hk as [He Hk]. simpl.
  destruct (member_step_ok m ring e Hs Hrt Hr He) as [Hn Hr'].
  destruct (member_step (m, ring) e) as [m1 ring1]. cbn [fst snd] in *.
  apply IH; [by eapply same_node_self_absent|by rewrite (sn_router _ _ Hn)|done|].
  eapply Forall_impl; [exact Hk|]. intros [] Hf; [done|]. simpl in *. by apply (sn_known _ _ Hn).
Qed.

(** Heartbeats of other nodes, configured or not. *)
Definition from_others (m : Membership) (e : MemberEvent) : Prop :=
  match e with
  | MTick _ _ _ _ => True
  | MHeartbeat _ _ _ p => p ≠ mb_local_node_id m
  end.

(** The ring up to peers that are not in the table of [m0]. *)
Record ring_near (m0 m : Membership) (ring : list string) : Prop := {
  rn_absent : self_absent m;
  rn_router : mb_has_router m = true;
  rn_local : mb_local_node_id m = mb_local_node_id m0;
  rn_known p : is_Some (mb_peers m0 !! p) → is_Some (mb_peers m !! p);
  rn_nodup : NoDup ring;
  rn_self : mb_local_node_id m ∈ ring;
  rn_alive p : p ∈ ring → p = mb_local_node_id m ∨ p ∈ alive_set m;
  rn_ring p : p ∈ alive_set m → p ∉ ring → mb_peers m0 !! p = None
}.

Lemma ring_ok_near m0 m ring :
  self_absent m → mb_has_router m = true → mb_local_node_id m = mb_local_node_id m0 →
  (∀ p, is_Some (mb_peers m0 !! p) → is_Some (mb_peers m !! p)) → ring_ok m ring → ring_near m0 m ring.
Proof.
  intros Hs Hrt Hl Hk [Hn Hr]. split; try done.
  - apply Hr. by left.
  - intros p. apply Hr.
  - intros p Ha Hp. destruct Hp. apply Hr. by right.
Qed.

(** The router is told the whole ring, or nothing. *)
Lemma ring_after_cases eff : (∀ r, ring_after r eff = r) ∨ ∃ ids, ∀ r, ring_after r eff = ids.
Proof.
  induction eff as [|e eff IH] using rev_ind; [by left|]. unfold ring_after in *. setoid_rewrite fold_left_app. cbn [fold_left].
  destruct e; try exact IH. right. by eexists.
Qed.

Definition exact_ring (m : Membership) : list string := mb_local_node_id m :: elements (alive_set m).

Lemma exact_ring_ok m : self_absent m → ring_ok m (exact_ring m).
Proof.
  intros Hs. split.
  - apply NoDup_cons. split; [|apply NoDup_elements]. rewrite elem_of_elements, elem_of_alive_set.
    intros (i & Hi & _). unfold self_absent in Hs. congruence.
  - intros p. unfold exact_ring. by rewrite elem_of_cons, elem_of_elements.
Qed.

Lemma ring_near_same m0 m m' ring eff :
  ring_near m0 m ring → same_node m m' → ring_ok m' (ring_after (exact_ring m) eff) →
  ring_near m0 m' (ring_after ring eff).
Proof.
  intros Hr Hn Hok. pose proof (same_node_self_absent _ _ Hn (rn_absent _ _ _ Hr)) as Hs'.
  assert (mb_local_node_id m' = mb_local_node_id m0) as Hl by (rewrite (sn_local _ _ Hn); apply Hr).
  assert (mb_has_router m' = true) as Hrt by (rewrite (sn_router _ _ Hn); apply Hr).
  assert (∀ p, is_Some (mb_peers m0 !! p) → is_Some (mb_peers m' !! p)) as Hk.
  { intros p Hp%(rn_known _ _ _ Hr). by apply (sn_known _ _ Hn). }
  destruct (ring_after_cases eff) as [E|[ids E]]; rewrite E in *; [|by apply ring_ok_near].
  assert (∀ p, p ∈ alive_set m' ↔ p ∈ alive_set m) as Ha.
  { intros p. destruct (exact_ring_ok m (rn_absent _ _ _ Hr)) as [_ H1]. destruct Hok as [_ H2].
    specialize (H1 p). specialize (H2 p). rewrite (sn_local _ _ Hn) in H2.
    assert (∀ x, self_absent x → mb_local_node_id x = mb_local_node_id m → p ∈ alive_set x → p ≠ mb_local_node_id m) as Hne.
    { intros x Hx Ex (i & Hi & _)%elem_of_alive_set ->. unfold self_absent in Hx. rewrite Ex in Hx. congruence. }
    split; intros Hp; [apply Hne in Hp as Hq; [|done|apply Hn]|apply Hne in Hp as Hq; [|apply Hr|done]]; tauto. }
  destruct Hr as [R1 R2 R3 R4 R5 R6 R7 R8]. split; try done.
  - by rewrite (sn_local _ _ Hn).
  - intros p Hp. rewrite (sn_local _ _ Hn), Ha. by apply R7.
  - intros p Hp. rewrite Ha in Hp. by apply R8.
Qed.

Lemma member_step_near m0 m ring e :
  ring_near m0 m ring → from_others m e →
  ring_near m0 (member_step (m, ring) e).1 (member_step (m, ring) e).2.
Proof.
  intros Hr He. pose proof (exact_ring_ok m (rn_absent _ _ _ Hr)) as Hx.
  destruct e as [o reply now1 now2|it it' now p]; cbn [member_step fst snd].
  - pose proof (HeartbeatTick_spec o reply now1 now2 m _ (rn_absent _ _ _ Hr) (rn_router _ _ _ Hr) Hx) as Ht.
    destruct (HeartbeatTick o reply now1 now2 m) as [eff m']. destruct Ht as (Hn & Hok & _). by eapply ring_near_same.
  - destruct (mb_peers m !! p) as [i|] eqn:Ep.
    + pose proof (OnHeartbeat_spec it it' now p m _ (rn_absent _ _ _ Hr) (rn_router _ _ _ Hr) Hx He) as Ht.
      destruct (OnHeartbeat it it' now p m) as [[rep eff] m']. destruct Ht as (Hn & Hok & _); [by eexists|].
      by eapply ring_near_same.
    + unfold OnHeartbeat. rewrite Ep. cbn [default from_option unknown_peer pi_alive negb fst snd ring_after fold_left].
      destruct Hr as [R1 R2 R3 R4 R5 R6 R7 R8].
      assert (mb_peers m0 !! p = None) as H0.
      { apply eq_None_not_Some. intros H%R4. rewrite Ep in H. by destruct H. }
      split; try done; cbn [with_peers mb_peers mb_local_node_id].
      * unfold self_absent. cbn. by rewrite lookup_insert_ne.
      * intros q Hq. apply lookup_insert_is_Some'. right. by apply R4.
      * intros q [->|(j & Hj & Ha)%elem_of_alive_set]%R7; [by left|right].
        apply elem_of_alive_set. exists j. cbn. rewrite lookup_insert_ne; [done|]. intros <-. congruence.
      * intros q (j & Hj & Ha)%elem_of_alive_set Hq. cbn in Hj. apply lookup_insert_Some in Hj as [[<- _]|[_ Hj]]; [done|].
        apply R8; [apply elem_of_alive_set; by exists j|done].
Qed.

Lemma member_steps_near m0 m ring evs :
  ring_near m0 m ring → Forall (from_others m0) evs →
  ring_near m0 (fold_left member_step evs (m, ring)).1 (fold_left member_step evs (m, ring)).2.
Proof.
  revert m ring. induction evs as [|e evs IH]; intros m ring Hr Hev; [done|]. apply Forall_cons in Hev as [He Hev].
  cbn [fold_left]. pose proof (member_step_near m0 m ring e Hr) as H1.
  destruct (member_step (m, ring) e) as [m1 ring1]. cbn [fst snd] in H1. apply IH; [|done].
  apply H1. destruct e; [done|]. cbn in *. by rewrite (rn_local _ _ _ Hr).
Qed.

(** C29 (the ring follows the membership): when the handlers run one after the
    other and heartbeats come from configured peers only, the peer list that the
    router holds is at every point the local node and the peers that are alive,
    each once.  When other nodes send heartbeats too, the ring still holds the
    local node, no peer twice and no peer that is not alive, and an alive peer is
    missing from it only if it was not configured. *)
Theorem membership_ring_tracks_alive m ring evs :
  self_absent m → mb_has_router m = true → ring_ok m ring →
  let '(m', ring') := fold_left member_step evs (m, ring) in
  (Forall (from_known m) evs → ring_ok m' ring') ∧
  (Forall (from_others m) evs →
     NoDup ring' ∧ mb_local_node_id m ∈ ring' ∧
     (∀ p, p ∈ ring' → p = mb_local_node_id m ∨ p ∈ alive_set m') ∧
     (∀ p, p ∈ alive_set m' → p ∉ ring' → mb_peers m !! p = None)).
Proof.
  intros Hs Hrt Hr. pose proof (member_steps_ok m ring evs Hs Hrt Hr) as H1.
  pose proof (member_steps_near m m ring evs (ring_ok_near m m ring Hs Hrt eq_refl (λ _ H, H) Hr)) as H2.
  destruct (fold_left member_step evs (m, ring)) as [m' ring']. cbn [fst snd] in H2. split; [exact H1|].
  intros [_ _ Hl _ ? ? ? ?]%H2. by rewrite <- Hl.
Qed.

(** Failure detection: in one turn of the heartbeat loop, a peer that
    answers stays or becomes alive and is in the ring; a peer that was seen
    before, does not answer and has been silent for longer than [dead_after]
    leaves the ring and is handed to re-replication; a peer that was never
    reached stays alive however long it is silent. *)
Theorem membership_tick_detects o reply now1 now2 m ring p i :
  self_absent m → mb_has_router m = true → mb_has_replicator m = true → ring_ok m ring →
  mb_peers m !! p = Some i →
  let '(eff, m') := HeartbeatTick o reply now1 now2 m in
  (responds reply m p i → now2 - now1 ≤ dead_after (mb_cfg m) →
     p ∈ alive_set m' ∧ p ∈ ring_after ring eff) ∧
  (¬ responds reply m p i → silent now2 m p i →
     p ∉ alive_set m' ∧ p ∉ ring_after ring eff ∧
     ∃ lost, TriggerReReplication lost ∈ eff ∧ p ∈ lost) ∧
  (¬ responds reply m p i → pi_alive i = true → pi_ever_seen i = false →
     p ∈ alive_set m' ∧ p ∈ ring_after ring eff).
Proof.
  intros Hs Hrt Hrp Hring Hi.
  assert (p ≠ mb_local_node_id m) as Hpl by (intros ->; unfold self_absent in Hs; congruence).
  pose proof (HeartbeatTick_spec o reply now1 now2 m ring Hs Hrt Hring) as Hspec.
  unfold HeartbeatTick in *.
  destruct (SendHeartbeatsToAllPeers _ _ reply now1 m) as [eff1 m1] eqn:E1.
  destruct (Send_spec _ _ _ _ _ _ _ _ E1 Hs Hrt Hring) as (Hn1 & _ & _ & Hpeers).
  destruct (Hpeers p i Hi) as [Hyes Hno].
  pose proof (EvaluateSuspicions_alive (to_evaluate o) now2 m1 p) as Hal.
  pose proof (elem_of_lost (to_evaluate o) now2 m1 p) as Hlost.
  pose proof (EvaluateSuspicions_node (to_evaluate o) now2 m1) as Hn2.
  destruct (EvaluateSuspicions (to_evaluate o) now2 m1) as [lost m2] eqn:E2. cbn [fst snd] in *.
  assert (mb_local_node_id m2 = mb_local_node_id m) as Hl2
    by (by rewrite (sn_local _ _ Hn2), (sn_local _ _ Hn1)).
  assert (mb_has_replicator m2 = true) as Hrp2
    by (by rewrite (sn_replicator _ _ Hn2), (sn_replicator _ _ Hn1)).
  set (fin := match lost with [] => (eff1, m2) | _ => _ end) in *.
  assert (mb_peers fin.2 = mb_peers m2 ∧ mb_local_node_id fin.2 = mb_local_node_id m ∧
          (lost ≠ [] → TriggerReReplication lost ∈ fin.1)) as (Hps & Hloc & Htrig).
  { unfold fin. destruct lost as [|q l]; [done|]. split_and!; [done|exact Hl2|].
    intros _. unfold OnMembershipChange. cbn -[alive_ids]. rewrite Hrp2. cbn -[alive_ids].
    rewrite !elem_of_app. right. right. right. by left. }
  assert (alive_set fin.2 = alive_set m2) as Hfin by (unfold alive_set; by rewrite Hps).
  destruct fin as [eff m']. cbn [fst snd] in *. destruct Hspec as (_ & [_ Hr] & _).
  assert (p ∈ ring_after ring eff ↔ p ∈ alive_set m') as Hring'.
  { rewrite Hr, Hloc. intuition congruence. }
  assert (∀ j, mb_peers m1 !! p = Some j → p ∈ alive_set m1 ↔ pi_alive j = true) as Hal1.
  { intros j Hj. rewrite elem_of_alive_set, Hj. split; [by intros (? & [= <-] & ?)|eauto]. }
  assert (∀ j, mb_peers m1 !! p = Some j → p ∈ lost ↔ silent now2 m1 p j) as Hlost1.
  { intros j Hj. rewrite Hlost, Hj. split; [by intros (? & [= <-] & ?)|eauto]. }
  rewrite Hring', Hfin, Hal. unfold silent in *.
  rewrite (sn_cfg _ _ Hn1), (sn_local _ _ Hn1) in Hlost1.
  split_and!.
  - intros Hresp Hnow. specialize (Hyes Hresp). rewrite (Hal1 _ Hyes), (Hlost1 _ Hyes). simpl.
    intuition lia.
  - intros Hresp Hsil. specialize (Hno Hresp). rewrite (Hal1 _ Hno), (Hlost1 _ Hno).
    assert (p ∈ lost) as Hin by (by apply (Hlost1 _ Hno)).
    split_and!; [tauto|tauto|]. exists lost. split; [|done]. apply Htrig. by intros ->; apply not_elem_of_nil in Hin.
  - intros Hresp Ha Hev. specialize (Hno Hresp). rewrite (Hal1 _ Hno), (Hlost1 _ Hno).
    intuition congruence.
Qed.

(** Joining peers: a heartbeat from a peer that is not in the table makes
    the peer count as alive, but fires no membership change: the epoch stays
    and the router is not told, so the peer owns no block. *)
Theorem membership_unknown_join_not_routed it it' now p m ring :
  mb_peers m !! p = None →
  let '(reply, eff, m') := OnHeartbeat it it' now p m in
  eff = [] ∧ mb_epoch m' = mb_epoch m ∧ p ∈ alive_set m' ∧ ring_after ring eff = ring.
Proof.
  intros Hp. unfold OnHeartbeat. rewrite Hp. cbn [default from_option unknown_peer pi_alive negb].
  split_and!; [done|done| |done]. apply elem_of_alive_set. simpl. rewrite lookup_insert_eq. eauto.
Qed.

(** ** Interleaved membership changes

    [OnMembershipChange] runs without holding the lock across its parts: the
    epoch is bumped, the alive list is read under [mu_], then the router is
    called.  The heartbeat thread and the RPC threads can be between these
    parts at the same time.  A task is a thread inside [OnMembershipChange]. *)
Inductive Task : Type :=
| TBump (lost : list string)
| TRead (lost : list string)
| TSet (ids lost : list string).

Record Conc : Type := mkConc {
  c_m : Membership;
  c_ring : list string;
  c_tasks : list Task
}.

(** The atomic sections. *)
Inductive Action : Type :=
| AEvaluate (it : Iteration string PeerInfo) (now : Z)
| AHeartbeat (now : Z) (peer_id : string)
| AReplies (now : Z) (succeeded : list string)
| ARun (it : Iteration string PeerInfo) (k : nat).

(** The locked part of [OnHeartbeat]. *)
Definition heartbeat_locked (now : Z) (p : string) (m : Membership) : bool * Membership :=
  let i := default (unknown_peer p) (mb_peers m !! p) in
  (negb (pi_alive i), with_peers m (<[p := seen_now now (mb_epoch m) i]> (mb_peers m))).

Definition conc_step (s : Conc) (a : Action) : Conc :=
  match a with
  | AEvaluate it now =>
      let '(lost, m') := EvaluateSuspicions it now (c_m s) in
      mkConc m' (c_ring s) (if bool_decide (lost = []) then c_tasks s else c_tasks s ++ [TBump lost])
  | AHeartbeat now p =>
      let '(resurrected, m') := heartbeat_locked now p (c_m s) in
      mkConc m' (c_ring s) (if resurrected then c_tasks s ++ [TBump []] else c_tasks s)
  | AReplies now succeeded =>
      let '(ps, resurrected) :=
        fold_left (note_reply now (mb_epoch (c_m s))) succeeded (mb_peers (c_m s), []) in
      mkConc (with_peers (c_m s) ps) (c_ring s)
        (if bool_decide (resurrected = []) then c_tasks s else c_tasks s ++ [TBump []])
  | ARun it k =>
      match c_tasks s !! k with
      | Some (TBump lost) =>
          mkConc (with_epoch (c_m s) (mb_epoch (c_m s) +₆₄ 1)) (c_ring s)
            (<[k := TRead lost]> (c_tasks s))
      | Some (TRead lost) =>
          mkConc (c_m s) (c_ring s)
            (<[k := TSet (mb_local_node_id (c_m s) :: alive_ids it (c_m s)) lost]> (c_tasks s))
      | Some (TSet ids lost) => mkConc (c_m s) ids (delete k (c_tasks s))
      | None => s
      end
  end.

(** Run without interference the three sections are [OnMembershipChange]. *)
Lemma task_alone it lost m ring :
  mb_has_router m = true →
  fold_left conc_step [ARun it 0; ARun it 0; ARun it 0] (mkConc m ring [TBump lost]) =
  mkConc (OnMembershipChange it lost m).2 (ring_after ring (OnMembershipChange it lost m).1) [].
Proof.
  intros Hr. simpl. rewrite Hr. f_equal. unfold ring_after.
  destruct (mb_has_metrics m), (mb_has_replicator m && _); done.
Qed.

(** A list that a router may be given: the local node, once, and known peers. *)
Definition ring_known (m : Membership) (ring : list string) : Prop :=
  NoDup ring ∧ mb_local_node_id m ∈ ring ∧
  ∀ p, p ∈ ring → p = mb_local_node_id m ∨ is_Some (mb_peers m !! p).

(** A heartbeat comes from a configured peer. *)
Definition action_ok (m : Membership) (a : Action) : Prop :=
  match a with AHeartbeat _ p => is_Some (mb_peers m !! p) | _ => True end.

Definition task_ring (t : Task) : option (list string) := match t with TSet ids _ => Some ids | _ => None end.

Record conc_ok (s : Conc) : Prop := {
  cc_self : self_absent (c_m s);
  cc_ring : ring_known (c_m s) (c_ring s);
  cc_tasks t ids : t ∈ c_tasks s → task_ring t = Some ids → ring_known (c_m s) ids
}.

Lemma alive_ring_ok it m : self_absent m → ring_ok m (mb_local_node_id m :: alive_ids it m).
Proof.
  intros Hs. split.
  - apply NoDup_cons. split; [|apply NoDup_fst_filter_iter].
    rewrite elem_of_alive_ids, elem_of_alive_set. intros (i & Hi & _). unfold self_absent in Hs. congruence.
  - intros p. by rewrite elem_of_cons, elem_of_alive_ids.
Qed.

Lemma ring_ok_known m ring : ring_ok m ring → ring_known m ring.
Proof.
  intros [Hnd Hr]. split_and!; [done|apply Hr; by left|]. intros p [->|Hp]%Hr; [by left|right].
  apply elem_of_alive_set in Hp as (i & Hi & _). eauto.
Qed.

Lemma ring_known_same m m' ring : same_node m m' → ring_known m ring → ring_known m' ring.
Proof.
  intros Hn (H1 & H2 & H3). unfold ring_known. rewrite (sn_local _ _ Hn). split_and!; [done|done|].
  intros p Hp. rewrite (sn_known _ _ Hn). by apply H3.
Qed.

Lemma heartbeat_locked_node now p m : is_Some (mb_peers m !! p) → same_node m (heartbeat_locked now p m).2.
Proof.
  intros [i Hi]. split; try done. intros q. cbn. rewrite Hi. cbn. destruct (decide (p = q)) as [<-|Hne].
  - rewrite lookup_insert_eq, Hi. split; intros; eauto.
  - by rewrite lookup_insert_ne.
Qed.

Lemma replies_node now l m ps res :
  fold_left (note_reply now (mb_epoch m)) l (mb_peers m, []) = (ps, res) → same_node m (with_peers m ps).
Proof. intros E. split; try done. apply note_replies in E as [[H1 _ _ _] _]. exact H1. Qed.

(** Every part of a handler keeps the wiring, adds at most one change that has
    read nothing yet, and adds none if the alive set stays. *)
Lemma conc_step_local s a :
  action_ok (c_m s) a → match a with ARun _ _ => False | _ => True end →
  same_node (c_m s) (c_m (conc_step s a)) ∧ c_ring (conc_step s a) = c_ring s ∧
  ((c_tasks (conc_step s a) = c_tasks s ∧ alive_set (c_m (conc_step s a)) = alive_set (c_m s)) ∨
   ∃ lost, c_tasks (conc_step s a) = c_tasks s ++ [TBump lost]).
Proof.
  intros Ha Hr. destruct a as [it now|now p|now l|it k]; [| | |done]; cbn [conc_step].
  - pose proof (EvaluateSuspicions_node it now (c_m s)) as Hn.
    pose proof (EvaluateSuspicions_alive it now (c_m s)) as Hal.
    destruct (EvaluateSuspicions it now (c_m s)) as [lost m']. cbn [fst snd c_m c_ring c_tasks] in *.
    split_and!; [done|done|]. case_bool_decide as Hl; [left|right; by eexists]. split; [done|].
    apply set_eq. intros p. rewrite Hal, Hl. rewrite elem_of_nil. tauto.
  - cbn in Ha. pose proof (heartbeat_locked_node now p (c_m s) Ha) as Hn. destruct Ha as [i Hi].
    unfold heartbeat_locked in *. rewrite Hi in *. cbn [default from_option id snd c_m c_ring c_tasks] in *.
    split_and!; [done|done|]. destruct (pi_alive i) eqn:Ea; cbn [negb]; [left|right; by eexists]. split; [done|].
    apply set_eq. intros q. rewrite !elem_of_alive_set. cbn. destruct (decide (p = q)) as [<-|Hne].
    + rewrite lookup_insert_eq, Hi. split; intros _; eauto.
    + by rewrite lookup_insert_ne.
  - destruct (fold_left _ l _) as [ps res] eqn:E. cbn [c_m c_ring c_tasks].
    split_and!; [by eapply replies_node|done|]. case_bool_decide as Hl; [left|right; by eexists]. subst res.
    split; [done|]. by eapply replies_alive.
Qed.

Lemma conc_step_ok s a :
  conc_ok s → action_ok (c_m s) a → conc_ok (conc_step s a) ∧ same_node (c_m s) (c_m (conc_step s a)).
Proof.
  intros [Hs Hr Ht] Ha.
  assert (match a with ARun _ _ => False | _ => True end →
    conc_ok (conc_step s a) ∧ same_node (c_m s) (c_m (conc_step s a))) as Hloc.
  { intros Hl. destruct (conc_step_local s a Ha Hl) as (Hn & Er & Htasks).
      split; [|done]. split; [by eapply same_node_self_absent|rewrite Er; by eapply ring_known_same|].
      intros t ids Hin Hids. destruct Htasks as [[E _]|[lost E]]; rewrite E in Hin.
      - eapply ring_known_same; [exact Hn|]. by eapply Ht.
      - apply elem_of_app in Hin as [Hin| ->%list_elem_of_singleton]; [|done].
        eapply ring_known_same; [exact Hn|]. by eapply Ht. }
  destruct a as [it now|now p|now l|it k]; [by apply Hloc..|]. clear Hloc.
  cbn [conc_step]. destruct (c_tasks s !! k) as [[lost|lost|ids lost]|] eqn:Ek; cbn [c_m]; [| | |by split].
  - split; [|done]. split; [exact Hs|exact Hr|]. cbn. intros t ids (j & Hj)%list_elem_of_lookup Hids.
    apply list_lookup_insert_Some in Hj as [(_ & <- & _)|[_ Hj]]; [done|]. eapply Ht; [by eapply list_elem_of_lookup_2|done].
  - split; [|done]. split; [exact Hs|exact Hr|]. cbn. intros t ids (j & Hj)%list_elem_of_lookup Hids.
    apply list_lookup_insert_Some in Hj as [(_ & <- & _)|[_ Hj]];
      [injection Hids as <-; by apply ring_ok_known, alive_ring_ok|]. eapply Ht; [by eapply list_elem_of_lookup_2|done].
  - split; [|done]. split; [exact Hs|eapply Ht; [by eapply list_elem_of_lookup_2|done]|].
    cbn. intros t ids' Hin Hids. eapply Ht; [|done].
    eapply elem_of_submseteq; [exact Hin|]. apply sublist_submseteq, sublist_delete.
Qed.
(** At most one change is in progress at a time. *)
Fixpoint serial (s : Conc) (acts : list Action) : Prop :=
  (length (c_tasks s) ≤ 1)%nat ∧
  match acts with [] => True | a :: acts => serial (conc_step s a) acts end.

(** The list that the only change in progress will publish is right. *)
Definition pending_ok (s : Conc) : Prop :=
  match c_tasks s with
  | [] => ring_ok (c_m s) (c_ring s)
  | TSet ids _ :: _ => ring_ok (c_m s) ids
  | _ => True
  end.

Lemma conc_step_serial s a :
  conc_ok s → action_ok (c_m s) a → (length (c_tasks s) ≤ 1)%nat → (length (c_tasks (conc_step s a)) ≤ 1)%nat →
  pending_ok s → pending_ok (conc_step s a).
Proof.
  intros [Hs _ _] Ha Hlen Hlen' Hp.
  assert (match a with ARun _ _ => False | _ => True end → pending_ok (conc_step s a)) as Hloc.
  { intros Hl. destruct (conc_step_local s a Ha Hl) as (Hn & Er & [[Et Eal]|[lost Et]]); unfold pending_ok in *.
    - rewrite Et, Er. destruct (c_tasks s) as [|[| |ids lost] ts]; try done;
        (eapply ring_ok_same; [apply (sn_local _ _ Hn)|exact Eal|done]).
    - rewrite Et in Hlen' |- *. rewrite length_app in Hlen'. cbn in Hlen'.
      destruct (c_tasks s); [done|cbn in Hlen'; lia]. }
  destruct a as [it now|now p|now l|it k]; [by apply Hloc..|]. clear Hloc.
  unfold pending_ok in *. cbn [conc_step]. destruct (c_tasks s) as [|t [|]] eqn:Et; [| |cbn in Hlen; lia].
  - rewrite lookup_nil. cbn. by rewrite Et.
  - destruct k as [|k]; [|change ((t :: []) !! S k) with (([] : list Task) !! k); rewrite lookup_nil; cbn; by rewrite Et].
    destruct t as [lost|lost|ids lost]; cbn; [done|by apply alive_ring_ok|done].
Qed.

(** In every interleaving the router is given lists that hold the local node once
    and otherwise only configured peers; and if the changes do not overlap, the
    ring is right whenever none is in progress. *)
Theorem membership_interleaved s acts :
  conc_ok s → (∀ a, a ∈ acts → action_ok (c_m s) a) →
  let s' := fold_left conc_step acts s in
  ring_known (c_m s') (c_ring s') ∧
  (serial s acts → pending_ok s → c_tasks s' = [] → ring_ok (c_m s') (c_ring s')).
Proof.
  revert s. induction acts as [|a acts IH]; intros s Hok Ha; cbn [fold_left].
  - split; [apply Hok|]. intros _ Hp Et. unfold pending_ok in Hp. by rewrite Et in Hp.
  - destruct (conc_step_ok s a Hok (Ha a (list_elem_of_here _ _))) as [Hok1 Hn].
    destruct (IH (conc_step s a) Hok1) as [H1 H2].
    + intros b Hb. specialize (Ha b (list_elem_of_further _ _ _ Hb)). destruct b; cbn in *; try done.
      by apply (sn_known _ _ Hn).
    + split; [done|]. intros [Hlen Hser] Hp. apply H2; [done|].
      apply conc_step_serial; [done|apply Ha; by left|done| |done]. destruct acts; apply Hser.
Qed.

(** No action starts a change. *)
Fixpoint calm (s : Conc) (acts : list Action) : Prop :=
  match acts with
  | [] => True
  | a :: acts => c_tasks (conc_step s a) = [] ∧ calm (conc_step s a) acts
  end.

Lemma calm_ring s acts :
  c_tasks s = [] → calm s acts → c_ring (fold_left conc_step acts s) = c_ring s.
Proof.
  revert s. induction acts as [|a acts IH]; intros s Hs; [done|]. cbn [calm fold_left]. intros [Ht Hc].
  rewrite (IH _ Ht Hc). destruct a as [it now|now p|now l|it k]; cbn [conc_step].
  - by destruct (EvaluateSuspicions it now (c_m s)).
  - by destruct (heartbeat_locked now p (c_m s)).
  - by destruct (fold_left _ l _).
  - by rewrite Hs.
Qed.

(** Node [a] with peers [b] and [c], both seen at time 0. *)
Definition wit_mcfg : MembershipConfig := mkMembershipConfig 200 1000 3000.

Definition wit_member : Membership :=
  fold_left (λ m p, (heartbeat_locked 0 p m).2) ["b"; "c"]
    (make_membership wit_mcfg "a" [mkStaticPeer "b" "h:1"; mkStaticPeer "c" "h:2"] true true true 0).

(** [b] beats at 5000, [c] is declared dead, beats, and its thread overtakes the
    heartbeat thread, which then publishes the list it read before. *)
Definition stale_schedule : list Action :=
  [AHeartbeat 5000 "b"; AEvaluate std_iteration 5001; ARun std_iteration 0; ARun std_iteration 0;
   AHeartbeat 5002 "c"; ARun std_iteration 1; ARun std_iteration 1; ARun std_iteration 1;
   ARun std_iteration 0].

(** C40 (stale ring): two overlapping membership changes can leave the router
    without a peer that is alive, with no change pending that would repair it;
    and as long as no peer dies or comes back, nothing that the heartbeats and
    the detector do repairs it either. *)
Theorem membership_stale_ring :
  let s := fold_left conc_step stale_schedule (mkConc wit_member ["a"; "b"; "c"] []) in
  c_tasks s = [] ∧ pi_alive <$> mb_peers (c_m s) !! "c" = Some true ∧ c_ring s = ["a"; "b"] ∧
  mb_epoch (c_m s) = 2 ∧ ∀ acts, calm s acts → c_ring (fold_left conc_step acts s) = ["a"; "b"].
Proof.
  assert (let s := fold_left conc_step stale_schedule (mkConc wit_member ["a"; "b"; "c"] []) in
    c_tasks s = [] ∧ pi_alive <$> mb_peers (c_m s) !! "c" = Some true ∧ c_ring s = ["a"; "b"] ∧
    mb_epoch (c_m s) = 2) as (H1 & H2 & H3 & H4) by (split_and!; vm_compute; reflexivity).
  intros s. split_and!; [exact H1|exact H2|exact H3|exact H4|]. intros acts Hc. rewrite (calm_ring s acts H1 Hc). exact H3.
Qed.

(** The heartbeats that follow from the peer that was left out are such a run. *)
Lemma stale_ring_calm :
  let s := fold_left conc_step stale_schedule (mkConc wit_member ["a"; "b"; "c"] []) in
  calm s [AHeartbeat 5100 "c"; AReplies 5200 ["b"; "c"]; AEvaluate std_iteration 5300; AHeartbeat 5400 "b"].
Proof. vm_compute. repeat split. Qed.

(** ** Concrete nodes *)

Lemma wit_member_ok :
  self_absent wit_member ∧ mb_has_router wit_member = true ∧ mb_has_replicator wit_member = true ∧
  ring_ok wit_member ["a"; "b"; "c"].
Proof.
  split_and!; [by vm_compute|by vm_compute|by vm_compute|].
  pose proof (OnMembershipChange_spec std_iteration [] wit_member [] ltac:(by vm_compute) ltac:(by vm_compute)) as Hc.
  destruct (OnMembershipChange std_iteration [] wit_member) as [eff m'] eqn:E.
  destruct Hc as ([Hnd Hr] & Hps & Hl & _ & _).
  split; [apply (bool_decide_unpack _); vm_compute; exact I|].
  assert (ring_after [] (OnMembershipChange std_iteration [] wit_member).1 ≡ₚ ["a"; "b"; "c"]) as Hp.
  { vm_compute. repeat constructor. }
  rewrite E in Hp. cbn [fst] in Hp. intros p. rewrite <- Hp, Hr, Hl. unfold alive_set. by rewrite Hps.
Qed.

Definition wit_ticks : list MemberEvent :=
  [MTick (mkTickOrder std_iteration std_iteration std_iteration std_iteration)
     (λ p _, String.eqb p "b") 5000 5001;
   MHeartbeat std_iteration rev_iteration 6000 "c"].

Lemma membership_ring_tracks_alive_witness :
  (let '(m', ring') := fold_left member_step wit_ticks (wit_member, ["a"; "b"; "c"]) in ring_ok m' ring') ∧
  (let '(m', ring') := fold_left member_step [MHeartbeat std_iteration std_iteration 10 "x"] (wit_member, ["a"; "b"; "c"]) in
   ring' = ["a"; "b"; "c"] ∧ "x" ∈ alive_set m' ∧ NoDup ring').
Proof.
  destruct wit_member_ok as (Hs & Hr & _ & Hok). split.
  - pose proof (membership_ring_tracks_alive wit_member ["a"; "b"; "c"] wit_ticks Hs Hr Hok) as H.
    destruct (fold_left member_step wit_ticks _) as [m' ring']. apply H.
    apply Forall_cons; split; [done|]. apply Forall_cons; split; [vm_compute; eauto|]. by apply Forall_nil.
  - pose proof (membership_ring_tracks_alive wit_member ["a"; "b"; "c"] [MHeartbeat std_iteration std_iteration 10 "x"] Hs Hr Hok) as H.
    pose proof (membership_unknown_join_not_routed std_iteration std_iteration 10 "x" wit_member
      ["a"; "b"; "c"] ltac:(by vm_compute)) as Hj.
    cbn [fold_left member_step fst snd] in *. destruct (OnHeartbeat _ _ _ _ _) as [[reply eff] m'].
    destruct Hj as (_ & _ & Hx & E). split; [exact E|]. split; [exact Hx|]. apply H.
    apply Forall_cons; split; [discriminate|]. by apply Forall_nil.
Defined.

(** [c] does not answer and was last seen at 0: dead at 5001. *)
Lemma membership_tick_detects_witness :
  let '(eff, m') := HeartbeatTick (mkTickOrder std_iteration std_iteration std_iteration std_iteration)
     (λ p _, String.eqb p "b") 5000 5001 wit_member in
  "c" ∉ alive_set m' ∧ "c" ∉ ring_after ["a"; "b"; "c"] eff.
Proof.
  destruct wit_member_ok as (Hs & Hr & Hrp & Hok).
  pose proof (membership_tick_detects (mkTickOrder std_iteration std_iteration std_iteration std_iteration)
     (λ p _, String.eqb p "b") 5000 5001 wit_member ["a"; "b"; "c"] "c"
     (mkPeerInfo "c" "h:2" 0 0 false true true) Hs Hr Hrp Hok ltac:(by vm_compute)) as Ht.
  destruct (HeartbeatTick _ _ _ _ _) as [eff m']. destruct Ht as (_ & Hd & _).
  destruct Hd as (Ha & Hr' & _); [by intros (_ & _ & ?)|by vm_compute|]. done.
Defined.

Lemma membership_unknown_join_not_routed_witness :
  let '(reply, eff, m') := OnHeartbeat std_iteration std_iteration 10 "x" wit_member in
  eff = [] ∧ "x" ∈ alive_set m' ∧ ring_after ["a"; "b"; "c"] eff = ["a"; "b"; "c"].
Proof.
  pose proof (membership_unknown_join_not_routed std_iteration std_iteration 10 "x" wit_member
    ["a"; "b"; "c"] ltac:(by vm_compute)) as Hj.
  destruct (OnHeartbeat _ _ _ _ _) as [[reply eff] m']. by destruct Hj as (? & _ & ? & ?).
Defined.
