(* ===== verification/Replication.v ===== *)
(** * Replication and read repair (replication.hpp, replication.cpp)

    The bounded queue of pushes with its workers, the fan-out of an insert to
    the replicas, the re-replication round after a peer was lost, and the
    fetch from any of several peers.  The transport is an interface: what a
    [Send] or a [Fetch] answers, and when, comes from the environment. *)
From S2P Require Import Prelude Types TierStore BlockStore SsdBlockStore TieredStore Routing.

Definition kReplicationQueueMax : nat := 1024.
Definition kReplicationWorkers : nat := 4.
Definition kReReplicationBatch : nat := 256.

Record ReplicateTask : Type := mkReplicateTask { rt_peer_id : string; rt_block : KvBlock }.

Record ReplicatorPoolState : Type := mkPool {
  rp_queue : list ReplicateTask;
  rp_running : bool;
  rp_overflow_drops : Z;        (* std::uint64_t counters *)
  rp_replicate_attempts : Z;
  rp_replicate_failures : Z;
  rp_rerep_round : list BlockId;
  rp_rerep_cursor : nat;
  rp_rerep_active : bool;
  rp_rerep_start : Z
}.

Definition new_pool : ReplicatorPoolState := mkPool [] true 0 0 0 [] 0 false 0.

(** The destructor stops the threads; a worker leaves its loop when it then
    finds the queue empty. *)
Definition stop_pool (s : ReplicatorPoolState) : ReplicatorPoolState :=
  mkPool (rp_queue s) false (rp_overflow_drops s) (rp_replicate_attempts s) (rp_replicate_failures s)
    (rp_rerep_round s) (rp_rerep_cursor s) (rp_rerep_active s) (rp_rerep_start s).
Definition worker_exits (s : ReplicatorPoolState) : bool :=
  match rp_queue s with [] => negb (rp_running s) | _ => false end.

(** Calls to the metrics and to the transport, in order. *)
Inductive ReplEffect : Type :=
| RecordUnderReplicated (n : nat)
| RecordFailoverRecovery (elapsed : Z)
| RecordStreamBytes (n : Z)
| TransportSend (peer : string) (id : BlockId) (purpose : StreamPurpose) (data : bytes).

Definition with_queue (s : ReplicatorPoolState) (q : list ReplicateTask) : ReplicatorPoolState :=
  mkPool q (rp_running s) (rp_overflow_drops s) (rp_replicate_attempts s) (rp_replicate_failures s)
    (rp_rerep_round s) (rp_rerep_cursor s) (rp_rerep_active s) (rp_rerep_start s).
Definition with_cursor (s : ReplicatorPoolState) (c : nat) : ReplicatorPoolState :=
  mkPool (rp_queue s) (rp_running s) (rp_overflow_drops s) (rp_replicate_attempts s)
    (rp_replicate_failures s) (rp_rerep_round s) c (rp_rerep_active s) (rp_rerep_start s).
Definition with_active (s : ReplicatorPoolState) (a : bool) : ReplicatorPoolState :=
  mkPool (rp_queue s) (rp_running s) (rp_overflow_drops s) (rp_replicate_attempts s)
    (rp_replicate_failures s) (rp_rerep_round s) (rp_rerep_cursor s) a (rp_rerep_start s).
Definition with_round (s : ReplicatorPoolState) (r : list BlockId) (now : Z) : ReplicatorPoolState :=
  mkPool (rp_queue s) (rp_running s) (rp_overflow_drops s) (rp_replicate_attempts s)
    (rp_replicate_failures s) r 0 (negb (bool_decide (r = []))) now.
Definition with_drop (s : ReplicatorPoolState) : ReplicatorPoolState :=
  mkPool (rp_queue s) (rp_running s) (rp_overflow_drops s +₆₄ 1) (rp_replicate_attempts s)
    (rp_replicate_failures s) (rp_rerep_round s) (rp_rerep_cursor s) (rp_rerep_active s) (rp_rerep_start s).

(** One worker taking the front of the queue and sending it; [ok] is the
    transport's answer, [has_transport] and [has_metrics] say that the
    pointers are not null. *)
Definition worker_step (has_transport has_metrics ok : bool) (s : ReplicatorPoolState) :
    list ReplEffect * ReplicatorPoolState :=
  match rp_queue s with
  | [] => ([], s)
  | task :: q =>
      let b := rt_block task in
      let sent := has_transport && ok in
      let s' := mkPool q (rp_running s) (rp_overflow_drops s) (rp_replicate_attempts s +₆₄ 1)
                  (if sent then rp_replicate_failures s else rp_replicate_failures s +₆₄ 1)
                  (rp_rerep_round s) (rp_rerep_cursor s) (rp_rerep_active s) (rp_rerep_start s) in
      ((if has_transport then [TransportSend (rt_peer_id task) (kv_id b) ReplicationPush (kv_data b)] else []) ++
       (if sent && has_metrics then [RecordStreamBytes (size_of (kv_data b))] else []), s')
  end.

(** Pushing one block to one peer under the queue lock, with overflow drop. *)
Definition enqueue_or_drop (block : KvBlock) (s : ReplicatorPoolState) (peer_id : string) :
    ReplicatorPoolState :=
  if (kReplicationQueueMax <=? length (rp_queue s))%nat then with_drop s
  else with_queue s (rp_queue s ++ [mkReplicateTask peer_id block]).

Definition ReplicateOut (has_transport : bool) (local : string) (r : option Router) (block : KvBlock)
    (s : ReplicatorPoolState) : list string * ReplicatorPoolState :=
  match r, has_transport with
  | Some r, true =>
      let submitted := filter (λ p, p ≠ local) (replicas (Route (kv_id block) r)) in
      (submitted, fold_left (enqueue_or_drop block) submitted s)
  | _, _ => ([], s)
  end.

(** ** Fetching

    [answer p] is what the transport's fetch from [p] yields in the end, an
    exception counting as nothing.  A poll of the loop sees some of the
    outstanding futures ready: [ready] lists, for each pass of the [while]
    loop before the deadline, which ones. *)
Section fetch.
Context (answer : string → option KvBlock).

(** One [for] loop over the futures; [true] marks a future that is still
    valid. *)
Fixpoint poll (ready : list bool) (futs : list (string * bool)) :
    option KvBlock * list (string * bool) :=
  match futs with
  | [] => (None, [])
  | (p, valid) :: futs =>
      let '(now, ready) := match ready with [] => (false, []) | b :: bs => (b, bs) end in
      if valid && now
      then match answer p with
           | Some b => (Some b, (p, false) :: futs)
           | None => let '(r, futs') := poll ready futs in (r, (p, false) :: futs')
           end
      else let '(r, futs') := poll ready futs in (r, (p, valid) :: futs')
  end.

Definition any_ready (before after : list (string * bool)) : bool :=
  negb (bool_decide (snd <$> before = snd <$> after)).

Fixpoint fetch_loop (passes : list (list bool)) (futs : list (string * bool)) : option KvBlock :=
  match passes with
  | [] => None
  | ready :: passes =>
      let '(r, futs') := poll ready futs in
      match r with
      | Some b => Some b
      | None => if negb (any_ready futs futs') && forallb (λ f, negb f.2) futs' then None
                else fetch_loop passes futs'
      end
  end.

Definition FetchFromAny (has_transport : bool) (passes : list (list bool)) (peers : list string) :
    option KvBlock :=
  if bool_decide (peers = []) || negb has_transport then None
  else fetch_loop passes ((λ p, (p, true)) <$> peers).
End fetch.

(** ** Re-replication *)

Section rerep.
Context {M D : Type} `{TierStore M} `{TierStore D}.
Context (local : string) (r : Router) (has_metrics : bool).

(** Every member of the route except self. *)
Definition push_targets (id : BlockId) : list string :=
  let route := Route id r in
  (if negb (String.eqb (primary route) "") && negb (String.eqb (primary route) local)
   then [primary route] else []) ++ filter (λ p, p ≠ local) (replicas route).

Definition in_route (id : BlockId) : bool :=
  let route := Route id r in
  String.eqb (primary route) local || existsb (λ p, String.eqb p local) (replicas route).

(** The orders of the three snapshots of one scan. *)
Definition candidates (o : Tier → SnapOrder M D) (st : Tiered M D) : list BlockId :=
  concat ((λ t, filter (λ id, in_route id = true) (m_id <$> Snapshot (o t) t st)) <$> [HBM; DRAM; SSD]).

(** The loop of one tick; [fuel] bounds the candidates that are left. *)
Fixpoint drain_loop (fuel dispatched : nat) (s : ReplicatorPoolState) (st : Tiered M D) :
    ReplicatorPoolState * Tiered M D :=
  match fuel with
  | O => (s, st)
  | S fuel =>
      if (dispatched <? kReReplicationBatch)%nat
      then match rp_rerep_round s !! rp_rerep_cursor s with
           | None => (s, st)
           | Some id =>
               let targets := push_targets id in
               let next := with_cursor s (S (rp_rerep_cursor s)) in
               match targets with
               | [] => drain_loop fuel dispatched next st
               | _ =>
                   if (kReplicationQueueMax <? length (rp_queue s) + length targets)%nat
                   then (s, st)
                   else let '(got, st') := Get id st in
                        match got with
                        | None => drain_loop fuel dispatched next st'
                        | Some g =>
                            let blk := mkKvBlock id (gr_data g) (gr_tier_found g) 0 in
                            drain_loop fuel (S dispatched)
                              (with_queue next (rp_queue s ++ ((λ p, mkReplicateTask p blk) <$> targets)))
                              st'
                        end
               end
           end
      else (s, st)
  end.

(** [DrainReReplication], for non-null dependencies. *)
Definition DrainReReplication (now : Z) (s : ReplicatorPoolState) (st : Tiered M D) :
    list ReplEffect * ReplicatorPoolState * Tiered M D :=
  if negb (rp_rerep_active s) then ([], s, st)
  else
    let '(s1, st1) := drain_loop (length (rp_rerep_round s) - rp_rerep_cursor s) 0 s st in
    if (length (rp_rerep_round s1) <=? rp_rerep_cursor s1)%nat
    then ((if has_metrics then [RecordUnderReplicated 0; RecordFailoverRecovery (now - rp_rerep_start s1)]
           else []), with_active s1 false, st1)
    else ((if has_metrics
           then [RecordUnderReplicated (length (rp_rerep_round s1) - rp_rerep_cursor s1)] else []), s1, st1).

(** [TriggerReReplication], for non-null dependencies; [now] is read when the
    round starts and again at the end of the first batch. *)
Definition TriggerReReplication (o : Tier → SnapOrder M D) (now now' : Z) (lost_peers : list string)
    (s : ReplicatorPoolState) (st : Tiered M D) :
    list ReplEffect * ReplicatorPoolState * Tiered M D :=
  match lost_peers with
  | [] => ([], s, st)
  | _ =>
      let round := candidates o st in
      let s1 := with_round s round now in
      let eff := if has_metrics then [RecordUnderReplicated (length round)] else [] in
      let '(eff', s2, st') := DrainReReplication now' s1 st in
      (eff ++ eff', s2, st')
  end.
End rerep.

(** ** Targets *)

Lemma Route_owners_length id r :
  (length (owners (Route id r)) ≤ Nat.max 1 (r_replication_factor r))%nat.
Proof.
  destruct (decide (r_ring r = [])) as [E|Hr]; [unfold Route; rewrite E; simpl; lia|].
  destruct (decide (r_peers r = [])) as [E|Hp].
  { unfold Route. rewrite E. destruct (r_ring r); simpl; lia. }
  rewrite Route_unfold, walk_spec by (done || simpl; lia). cbn [app length].
  rewrite Nat.sub_0_r.
  destruct (take _ _) as [|p rest] eqn:E; simpl; [lia|].
  assert (length (p :: rest) ≤ Nat.max 1 (r_replication_factor r))%nat as Hl.
  { rewrite <- E, length_take. lia. }
  simpl in Hl. lia.
Qed.

Section rerep_proofs.
Context {M D : Type} `{TierStoreSpec M} `{TierStoreSpec D}.
Context (local : string) (r : Router) (mt : bool).
Implicit Types st : Tiered M D.

Lemma push_targets_length id : (length (push_targets local r id) ≤ length (owners (Route id r)))%nat.
Proof.
  unfold push_targets, owners. rewrite length_app. cbn [length].
  pose proof (length_filter (λ p, p ≠ local) (replicas (Route id r))).
  destruct (_ && _); simpl; lia.
Qed.

Lemma elem_of_push_targets id p :
  p ≠ "" → p ∈ push_targets local r id ↔ p ∈ owners (Route id r) ∧ p ≠ local.
Proof.
  intros Hp. unfold push_targets, owners. rewrite elem_of_app, elem_of_cons, list_elem_of_filter.
  destruct (String.eqb_spec (primary (Route id r)) ""), (String.eqb_spec (primary (Route id r)) local);
    cbn [negb andb]; rewrite ?not_elem_of_nil, ?list_elem_of_singleton; try rewrite (elem_of_nil);
    intuition congruence.
Qed.

Lemma in_route_spec id : in_route local r id = true ↔ local ∈ owners (Route id r).
Proof.
  unfold in_route, owners. rewrite orb_true_iff, elem_of_cons, String.eqb_eq, existsb_exists. split.
  - intros [->|(x & Hx & ->%String.eqb_eq)]; [by left|right; by apply list_elem_of_In].
  - intros [->|Hx]; [by left|]. right. exists local. split; [by apply list_elem_of_In|by apply String.eqb_eq].
Qed.

(** The round is what the node holds and is in the route of. *)
Lemma elem_of_candidates o st id :
  tiers_ok st →
  id ∈ candidates local r o st ↔ resident id st ∧ local ∈ owners (Route id r).
Proof.
  intros Hok. rewrite resident_tier. unfold candidates.
  assert (∀ t, id ∈ filter (λ i, in_route local r i = true) (m_id <$> Snapshot (o t) t st) ↔
            is_Some (tier_contents t st !! id) ∧ local ∈ owners (Route id r)) as Ht.
  { intros t. rewrite list_elem_of_filter, in_route_spec, list_elem_of_fmap. split.
    - intros (Hl & m & -> & Hm). split; [|done].
      destruct (Snapshot_elem (o t) t st m Hok Hm) as (d & Hd & _). eauto.
    - intros ([d Hd] & Hl). split; [done|].
      destruct (Snapshot_complete (o t) t st id d Hok Hd) as (m & Hm & Hid & _). eauto. }
  cbn [fmap list_fmap concat]. rewrite !elem_of_app, !Ht. split.
  - intros [[Hs Hl]|[[Hs Hl]|[[Hs Hl]|Hx]]];
      [split; [by exists HBM|done]|split; [by exists DRAM|done]|split; [by exists SSD|done]|].
    by apply not_elem_of_nil in Hx.
  - intros [[[] Hs] Hl]; tauto.
Qed.

(** ** One tick of the sweep *)

(** What a queued push says: where to, which block, which bytes. *)
Definition task_key (t : ReplicateTask) : string * BlockId * bytes :=
  (rt_peer_id t, kv_id (rt_block t), kv_data (rt_block t)).

Lemma task_keys blk (l : list string) :
  task_key <$> ((λ p, mkReplicateTask p blk) <$> l) = (λ p, (p, kv_id blk, kv_data blk)) <$> l.
Proof. by rewrite <- list_fmap_compose. Qed.

(** The pushes that a resident block needs. *)
Definition pushes (m : gmap BlockId bytes) (id : BlockId) : list (string * BlockId * bytes) :=
  match m !! id with
  | Some d => (λ p, (p, id, d)) <$> push_targets local r id
  | None => []
  end.

(** The fields that a tick does not touch. *)
Definition same_round (s s' : ReplicatorPoolState) : Prop :=
  rp_rerep_round s' = rp_rerep_round s ∧ rp_rerep_active s' = rp_rerep_active s ∧
  rp_rerep_start s' = rp_rerep_start s.

(** [n] candidates were consumed, in order, each with all of its pushes. *)
Record drained (fuel dispatched n : nat) (s : ReplicatorPoolState) st
    (s' : ReplicatorPoolState) st' : Prop := {
  dr_round : same_round s s';
  dr_cursor : rp_rerep_cursor s' = (rp_rerep_cursor s + n)%nat;
  dr_le : (n ≤ fuel)%nat;
  dr_inv : inv st';
  dr_contents : contents st' = contents st;
  dr_queue : task_key <$> rp_queue s' = (task_key <$> rp_queue s) ++
    concat (pushes (contents st) <$> take n (drop (rp_rerep_cursor s) (rp_rerep_round s)));
  dr_bound : (length (rp_queue s) ≤ kReplicationQueueMax)%nat →
    (length (rp_queue s') ≤ kReplicationQueueMax)%nat;
  (* with room in the queue the whole batch goes out *)
  dr_progress K : (∀ id, (length (push_targets local r id) ≤ K)%nat) →
    (length (rp_queue s) + (kReReplicationBatch - dispatched) * K ≤ kReplicationQueueMax)%nat →
    (Nat.min fuel (kReReplicationBatch - dispatched) ≤ n)%nat
}.

Lemma drained_stop fuel dispatched s st :
  inv st →
  (∀ K, (∀ id, (length (push_targets local r id) ≤ K)%nat) →
     (length (rp_queue s) + (kReReplicationBatch - dispatched) * K ≤ kReplicationQueueMax)%nat →
     Nat.min fuel (kReReplicationBatch - dispatched) = 0%nat) →
  drained fuel dispatched 0 s st s st.
Proof.
  intros Hi Hk. split; try done; try lia.
  - rewrite take_0. simpl. by rewrite app_nil_r.
  - intros K HK Hroom. rewrite (Hk K HK Hroom). lia.
Qed.

Lemma drained_next fuel dispatched dispatched1 n id s st s1 st1 s' st' :
  rp_rerep_round s !! rp_rerep_cursor s = Some id →
  same_round s s1 → rp_rerep_cursor s1 = S (rp_rerep_cursor s) → contents st1 = contents st →
  task_key <$> rp_queue s1 = (task_key <$> rp_queue s) ++ pushes (contents st) id →
  ((length (rp_queue s) ≤ kReplicationQueueMax)%nat → (length (rp_queue s1) ≤ kReplicationQueueMax)%nat) →
  (dispatched < kReReplicationBatch)%nat → (dispatched ≤ dispatched1 ≤ S dispatched)%nat →
  (length (rp_queue s1) ≤ length (rp_queue s) + (dispatched1 - dispatched) * length (push_targets local r id))%nat →
  drained fuel dispatched1 n s1 st1 s' st' →
  drained (S fuel) dispatched (S n) s st s' st'.
Proof.
  intros Hid (Hr & Ha & Hst) Hc Hcont Hq Hb Hd Hd1 Hlen [(Hr' & Ha' & Hst') Hc' Hle Hi' Hcont' Hq' Hb' Hp'].
  split; try done.
  - unfold same_round. by rewrite Hr', Ha', Hst', Hr, Ha, Hst.
  - lia.
  - lia.
  - by rewrite Hcont', Hcont.
  - rewrite Hq', Hq, Hc, Hr, Hcont, (drop_S _ _ _ Hid), <- app_assoc. done.
  - auto.
  - intros K HK Hroom.
    pose proof (HK id) as HKid.
    assert ((dispatched1 - dispatched) * length (push_targets local r id) ≤ (dispatched1 - dispatched) * K)%nat
      by (apply Nat.mul_le_mono_l; done).
    assert (Nat.min fuel (kReReplicationBatch - dispatched1) ≤ n)%nat.
    { apply (Hp' K HK).
      assert ((kReReplicationBatch - dispatched) * K =
        (dispatched1 - dispatched) * K + (kReReplicationBatch - dispatched1) * K)%nat as Hsplit.
      { rewrite <- Nat.mul_add_distr_r. f_equal. lia. }
      lia. }
    lia.
Qed.

Lemma drain_loop_spec fuel dispatched s st :
  inv st → (rp_rerep_cursor s + fuel ≤ length (rp_rerep_round s))%nat →
  ∃ n s' st', drain_loop local r fuel dispatched s st = (s', st') ∧
    drained fuel dispatched n s st s' st'.
Proof.
  revert dispatched s st. induction fuel as [|fuel IH]; intros dispatched s st Hi Hf.
  { exists 0%nat, s, st. split; [done|]. apply drained_stop; [done|]. intros. lia. }
  cbn [drain_loop]. destruct (dispatched <? kReReplicationBatch)%nat eqn:Hd.
  2:{ apply Nat.ltb_ge in Hd. exists 0%nat, s, st. split; [done|]. apply drained_stop; [done|]. intros. lia. }
  apply Nat.ltb_lt in Hd.
  destruct (lookup_lt_is_Some_2 (rp_rerep_round s) (rp_rerep_cursor s)) as [id Hid]; [lia|].
  rewrite Hid. set (next := with_cursor s (S (rp_rerep_cursor s))).
  destruct (push_targets local r id) as [|t ts] eqn:Ht.
  - destruct (IH dispatched next st Hi) as (n & s' & st' & E & Hdr); [simpl; lia|].
    exists (S n), s', st'. split; [done|].
    eapply (drained_next fuel dispatched dispatched n id s st next st); try done; try lia.
    + simpl. unfold pushes. rewrite Ht. case_match; by rewrite app_nil_r.
    + simpl. lia.
  - destruct (kReplicationQueueMax <? _)%nat eqn:Hfull.
    { apply Nat.ltb_lt in Hfull. exists 0%nat, s, st. split; [done|]. apply drained_stop; [done|].
      intros K HK Hroom. pose proof (HK id) as HKid. rewrite Ht in HKid. simpl length in *.
      assert (1 * K ≤ (kReReplicationBatch - dispatched) * K)%nat by (apply Nat.mul_le_mono_r; lia). lia. }
    apply Nat.ltb_ge in Hfull.
    destruct (Get_effect id st Hi) as (Hi' & Hcont & Hget).
    destruct (Get id st) as [got st1]. cbn [fst snd] in *. destruct got as [g|].
    + set (blk := mkKvBlock id (gr_data g) (gr_tier_found g) 0).
      set (s1 := with_queue next _).
      destruct (IH (S dispatched) s1 st1 Hi') as (n & s' & st' & E & Hdr); [simpl; lia|].
      exists (S n), s', st'. split; [done|]. simpl in Hget.
      eapply (drained_next fuel dispatched (S dispatched) n id s st s1 st1); try done; try lia.
      * unfold s1. cbn [rp_queue with_queue]. rewrite fmap_app, task_keys. unfold pushes.
        by rewrite <- Hget, Ht.
      * intros _. unfold s1. cbn [rp_queue with_queue]. rewrite length_app, length_fmap. done.
      * unfold s1. cbn [rp_queue with_queue]. rewrite length_app, length_fmap, Ht. simpl. lia.
    + destruct (IH dispatched next st1 Hi') as (n & s' & st' & E & Hdr); [simpl; lia|].
      exists (S n), s', st'. split; [done|]. simpl in Hget.
      eapply (drained_next fuel dispatched dispatched n id s st next st1); try done; try lia.
      * simpl. unfold pushes. rewrite <- Hget. by rewrite app_nil_r.
      * simpl. lia.
Qed.

(** A tick only appends to the queue, blocks that it built itself. *)
Lemma drain_loop_appends fuel dispatched s st :
  ∃ new, rp_queue (drain_loop local r fuel dispatched s st).1 = rp_queue s ++ new ∧
    Forall (λ t, kv_inserted_epoch (rt_block t) = 0) new.
Proof.
  revert dispatched s st. induction fuel as [|fuel IH]; intros dispatched s st; cbn [drain_loop].
  { exists []. by rewrite app_nil_r. }
  assert (∃ new, rp_queue s = rp_queue s ++ new ∧ Forall (λ t, kv_inserted_epoch (rt_block t) = 0) new) as Hstop.
  { exists []. by rewrite app_nil_r. }
  destruct (dispatched <? _)%nat; [|done]. destruct (_ !! _) as [id|]; [|done].
  destruct (push_targets local r id) as [|p ps]; [apply (IH _ (with_cursor s _))|].
  destruct (_ <? _)%nat; [done|]. destruct (Get id st) as [[g|] st']; [|apply (IH _ (with_cursor s _))].
  destruct (IH (S dispatched) (with_queue (with_cursor s (S (rp_rerep_cursor s)))
    (rp_queue s ++ ((λ q, mkReplicateTask q (mkKvBlock id (gr_data g) (gr_tier_found g) 0)) <$> p :: ps))) st')
    as (new & Hq & Hn).
  eexists. split; [rewrite Hq; cbn [rp_queue with_queue]; by rewrite <- app_assoc|].
  apply Forall_app. split; [|done]. apply Forall_fmap, Forall_forall. done.
Qed.

Lemma DrainReReplication_appends now s st :
  ∃ new, rp_queue (DrainReReplication local r mt now s st).1.2 = rp_queue s ++ new ∧
    Forall (λ t, kv_inserted_epoch (rt_block t) = 0) new.
Proof.
  unfold DrainReReplication. destruct (rp_rerep_active s); cbn [negb].
  2:{ exists []. by rewrite app_nil_r. }
  pose proof (drain_loop_appends (length (rp_rerep_round s) - rp_rerep_cursor s) 0 s st) as Ha.
  destruct (drain_loop _ _ _ _ _ _) as [s1 st1]. by destruct (_ <=? _)%nat.
Qed.

(** The round's own invariant: the cursor is within it, and the round is active
    as long as it is not at the end. *)
Definition round_ok (s : ReplicatorPoolState) : Prop :=
  (rp_rerep_cursor s ≤ length (rp_rerep_round s))%nat ∧
  rp_rerep_active s = negb (length (rp_rerep_round s) <=? rp_rerep_cursor s)%nat.

Lemma DrainReReplication_spec now s st :
  inv st → round_ok s →
  ∃ n eff s' st', DrainReReplication local r mt now s st = (eff, s', st') ∧ round_ok s' ∧
    rp_rerep_round s' = rp_rerep_round s ∧
    drained (length (rp_rerep_round s) - rp_rerep_cursor s) 0 n s st
      (with_active s' (rp_rerep_active s)) st'.
Proof.
  intros Hi [Hc Ha]. unfold DrainReReplication.
  destruct (rp_rerep_active s) eqn:Eact; cbn [negb].
  2:{ exists 0%nat, [], s, st. split_and!; [done|split; [done|by rewrite Eact]|done|].
      replace (with_active s false) with s by (destruct s; simpl in *; by subst).
      apply drained_stop; [done|]. intros K _ _.
      symmetry in Ha. apply negb_false_iff, Nat.leb_le in Ha. lia. }
  destruct (drain_loop_spec (length (rp_rerep_round s) - rp_rerep_cursor s) 0 s st Hi)
    as (n & s1 & st1 & E & Hdr); [lia|]. rewrite E.
  pose proof (dr_round _ _ _ _ _ _ _ Hdr) as (Hr & Hact & _).
  pose proof (dr_cursor _ _ _ _ _ _ _ Hdr) as Hcur. pose proof (dr_le _ _ _ _ _ _ _ Hdr) as Hle.
  destruct (length (rp_rerep_round s1) <=? rp_rerep_cursor s1)%nat eqn:Hend.
  - eexists n, _, _, _. split; [reflexivity|]. cbn [rp_rerep_cursor rp_rerep_round rp_rerep_active with_active].
    split_and!; [split; simpl; [rewrite Hr; lia|by rewrite Hend]|done|].
    replace (with_active (with_active s1 false) true) with s1; [done|].
    rewrite Eact in Hact. destruct s1; simpl in *. by subst.
  - eexists n, _, _, _. split; [reflexivity|].
    split_and!; [split; [rewrite Hr; lia|rewrite Hact, Eact; by rewrite Hend]|done|].
    replace (with_active s1 true) with s1; [done|].
    rewrite Eact in Hact. destruct s1; simpl in *. by subst.
Qed.

(** Successive ticks of the sweep thread, with the workers emptying the queue
    before each; the pushes that the workers take, in order. *)
Fixpoint sweep (nows : list Z) (s : ReplicatorPoolState) st :
    list ReplicateTask * ReplicatorPoolState * Tiered M D :=
  match nows with
  | [] => (rp_queue s, with_queue s [], st)
  | now :: nows =>
      let '(_, s1, st1) := DrainReReplication local r mt now (with_queue s []) st in
      let '(sent, s2, st2) := sweep nows s1 st1 in (rp_queue s ++ sent, s2, st2)
  end.

Lemma sweep_spec nows s st :
  inv st → round_ok s → (r_replication_factor r ≤ 4)%nat →
  ∃ sent s' st', sweep nows s st = (sent, s', st') ∧ round_ok s' ∧ inv st' ∧
    contents st' = contents st ∧ rp_rerep_round s' = rp_rerep_round s ∧
    (Nat.min (length (rp_rerep_round s)) (rp_rerep_cursor s + kReReplicationBatch * length nows)
       ≤ rp_rerep_cursor s')%nat ∧
    task_key <$> sent = (task_key <$> rp_queue s) ++
      concat (pushes (contents st) <$>
        take (rp_rerep_cursor s' - rp_rerep_cursor s) (drop (rp_rerep_cursor s) (rp_rerep_round s))) ∧
    (rp_rerep_cursor s ≤ rp_rerep_cursor s')%nat.
Proof.
  intros Hi Hro HR. revert s st Hi Hro. induction nows as [|now nows IH]; intros s st Hi Hro; cbn [sweep].
  { exists (rp_queue s), (with_queue s []), st. cbn [rp_rerep_cursor rp_rerep_round with_queue length].
    rewrite Nat.sub_diag, take_0. cbn [fmap list_fmap concat]. rewrite app_nil_r.
    split_and!; try done; lia. }
  destruct (DrainReReplication_spec now (with_queue s []) st Hi Hro)
    as (n & eff & s1 & st1 & E & Hro1 & Hr1 & Hdr). rewrite E.
  pose proof (dr_cursor _ _ _ _ _ _ _ Hdr) as Hc1. pose proof (dr_contents _ _ _ _ _ _ _ Hdr) as Hcont.
  pose proof (dr_queue _ _ _ _ _ _ _ Hdr) as Hq1.
  cbn [rp_rerep_cursor rp_rerep_round rp_queue with_queue with_active fmap list_fmap app] in *.
  destruct (IH s1 st1 (dr_inv _ _ _ _ _ _ _ Hdr) Hro1)
    as (sent & s' & st' & E' & Hro' & Hi' & Hcont' & Hr' & Hmin & Hq & Hmono).
  rewrite E'. exists (rp_queue s ++ sent), s', st'.
  assert (Nat.min (length (rp_rerep_round s) - rp_rerep_cursor s) kReReplicationBatch ≤ n)%nat as Hprog.
  { pose proof (dr_progress _ _ _ _ _ _ _ Hdr 4%nat) as Hp.
    cbn [rp_rerep_cursor rp_rerep_round rp_queue with_queue length] in Hp. rewrite Nat.sub_0_r in Hp.
    apply Hp; [|unfold kReReplicationBatch, kReplicationQueueMax; lia].
    intros id. pose proof (push_targets_length id). pose proof (Route_owners_length id r). lia. }
  split_and!; [done|done|done|congruence|congruence| | |lia].
  - rewrite Hr1 in Hmin. cbn [length]. destruct Hro as [Hle _]. lia.
  - rewrite fmap_app, Hq, Hq1, Hr1, Hc1, Hcont. f_equal. rewrite <- concat_app, <- fmap_app. do 2 f_equal.
    replace (rp_rerep_cursor s' - rp_rerep_cursor s)%nat
      with (n + (rp_rerep_cursor s' - (rp_rerep_cursor s + n)))%nat by lia.
    rewrite <- drop_drop. by rewrite take_take_drop.
Qed.

(** C28 (re-replication reconverges): after peers were lost, with an empty queue
    and a replication factor of at most four, the inline batch and enough ticks of
    the sweep, with the queue sent off between them, queue every block that the
    node held and is an owner of to every other owner under the new ring, with the
    right bytes; no candidate is skipped by batching or back-pressure, the store's
    contents do not change, and the round ends. *)
Theorem rereplication_reconverges o now now' nows lost s st :
  inv st → lost ≠ [] → rp_queue s = [] → (r_replication_factor r ≤ 4)%nat →
  (length (candidates local r o st) ≤ kReReplicationBatch * S (length nows))%nat →
  let '(_, s1, st1) := TriggerReReplication local r mt o now now' lost s st in
  let '(sent, s2, st2) := sweep nows s1 st1 in
  rp_rerep_active s2 = false ∧ contents st2 = contents st ∧
  ∀ id d p, contents st !! id = Some d → local ∈ owners (Route id r) →
    p ∈ owners (Route id r) → p ≠ local → p ≠ "" → (p, id, d) ∈ task_key <$> sent.
Proof.
  intros Hi Hlost Hq HR Hlen. set (round := candidates local r o st) in *.
  set (s0 := with_round s round now).
  assert (round_ok s0) as Hro0.
  { unfold s0. split; simpl; [lia|]. by destruct round. }
  (* the trigger's inline batch is a tick that starts with an empty queue *)
  pose proof (sweep_spec (now' :: nows) s0 st Hi Hro0 HR) as
    (sent & s2 & st2 & E & [Hc2 Ha2] & _ & Hcont & Hr & Hmin & Hsent & _).
  assert (with_queue s0 [] = s0) as Hs0 by (unfold s0, with_round; destruct s; simpl in *; by subst).
  cbn [sweep] in E. rewrite Hs0 in E.
  unfold TriggerReReplication. destruct lost as [|l0 lost]; [done|].
  change (with_round s (candidates local r o st) now) with s0.
  destruct (DrainReReplication local r mt now' s0 st) as [[eff s1] st1].
  destruct (sweep nows s1 st1) as [[sent' s2'] st2'].
  replace (rp_queue s0) with (@nil ReplicateTask) in E by (unfold s0; simpl; by rewrite Hq).
  cbn [app] in E. injection E as -> -> ->.
  cbn [rp_rerep_cursor rp_rerep_round rp_queue s0 with_round length] in *.
  rewrite Hr in Hc2, Ha2.
  assert (rp_rerep_cursor s2 = length round) as Hcur by lia.
  split_and!; [rewrite Ha2, Hcur, Nat.leb_refl; done|done|].
  intros id d p Hd Hl Hp Hpl Hpe. rewrite Hsent, Hcur, Nat.sub_0_r, drop_0, firstn_all, Hq.
  cbn [fmap list_fmap app].
  assert (id ∈ round) as Hin by (apply elem_of_candidates; [apply Hi|]; split; [by exists d|done]).
  apply list_elem_of_In, in_concat. exists (pushes (contents st) id). split.
  - apply list_elem_of_In, list_elem_of_fmap. by exists id.
  - apply list_elem_of_In. unfold pushes. rewrite Hd. apply list_elem_of_fmap. exists p. split; [done|].
    by apply elem_of_push_targets.
Qed.

(** One tick: a tick takes a prefix of what is left of the round and puts
    all pushes of each of its blocks on the queue, in order; it never takes the
    queue over its bound, and it leaves the payloads alone. *)
Theorem drain_tick_prefix now s st :
  inv st → round_ok s →
  ∃ n eff s' st', DrainReReplication local r mt now s st = (eff, s', st') ∧
    rp_rerep_cursor s' = (rp_rerep_cursor s + n)%nat ∧
    task_key <$> rp_queue s' = (task_key <$> rp_queue s) ++
      concat (pushes (contents st) <$> take n (drop (rp_rerep_cursor s) (rp_rerep_round s))) ∧
    ((length (rp_queue s) ≤ kReplicationQueueMax)%nat →
     (length (rp_queue s') ≤ kReplicationQueueMax)%nat) ∧
    inv st' ∧ contents st' = contents st ∧ round_ok s'.
Proof.
  intros Hi Hro. destruct (DrainReReplication_spec now s st Hi Hro) as (n & eff & s' & st' & E & Hro' & Hr & Hdr).
  exists n, eff, s', st'. destruct Hdr. by split_and!.
Qed.
End rerep_proofs.

(** ** Fan-out of an insert *)

Lemma enqueue_all block peers s :
  (length (rp_queue s) ≤ kReplicationQueueMax)%nat →
  let room := (kReplicationQueueMax - length (rp_queue s))%nat in
  rp_queue (fold_left (enqueue_or_drop block) peers s) =
    rp_queue s ++ ((λ p, mkReplicateTask p block) <$> take room peers) ∧
  u64 (rp_overflow_drops (fold_left (enqueue_or_drop block) peers s)) =
    u64 (rp_overflow_drops s + Z.of_nat (length peers - room)).
Proof.
  revert s. induction peers as [|p peers IH]; intros s Hl; cbn [fold_left].
  { rewrite take_nil. simpl. rewrite app_nil_r. split; [done|]. f_equal. lia. }
  unfold enqueue_or_drop at 2 4. destruct (kReplicationQueueMax <=? length (rp_queue s))%nat eqn:E.
  - apply Nat.leb_le in E. destruct (IH (with_drop s)) as [IH1 IH2]; [done|].
    cbn [rp_queue with_drop rp_overflow_drops] in IH1, IH2. rewrite IH1, IH2.
    replace (kReplicationQueueMax - length (rp_queue s))%nat with 0%nat by lia.
    rewrite !take_0. split; [done|]. unfold u64. rewrite Zplus_mod_idemp_l. f_equal. simpl length. lia.
  - apply Nat.leb_gt in E.
    destruct (IH (with_queue s (rp_queue s ++ [mkReplicateTask p block]))) as [IH1 IH2];
      [cbn [rp_queue with_queue]; rewrite length_app; simpl; lia|].
    cbn [rp_queue with_queue rp_overflow_drops] in IH1, IH2. rewrite length_app in IH1, IH2.
    simpl length in IH1, IH2. rewrite IH1, IH2.
    replace (kReplicationQueueMax - length (rp_queue s))%nat
      with (S (kReplicationQueueMax - (length (rp_queue s) + 1))) by lia.
    cbn [take fmap list_fmap length]. rewrite <- app_assoc. split; [done|]. do 2 f_equal; lia.
Qed.

(** Fan-out: an insert is queued to the replicas of its route other than
    self, in order, up to the bound of the queue; each push that does not fit
    is counted as a drop, and the queue never grows over its bound.  The
    returned list names every replica, also the ones whose push was dropped. *)
Theorem replicate_out_bounded local r block s :
  (length (rp_queue s) ≤ kReplicationQueueMax)%nat →
  let '(submitted, s') := ReplicateOut true local (Some r) block s in
  let room := (kReplicationQueueMax - length (rp_queue s))%nat in
  submitted = filter (λ p, p ≠ local) (replicas (Route (kv_id block) r)) ∧
  rp_queue s' = rp_queue s ++ ((λ p, mkReplicateTask p block) <$> take room submitted) ∧
  u64 (rp_overflow_drops s') = u64 (rp_overflow_drops s + Z.of_nat (length submitted - room)) ∧
  (length (rp_queue s') ≤ kReplicationQueueMax)%nat.
Proof.
  intros Hl. unfold ReplicateOut.
  destruct (enqueue_all block (filter (λ p, p ≠ local) (replicas (Route (kv_id block) r))) s Hl) as [Hq Hd].
  split_and!; [done|done|done|]. rewrite Hq, length_app, length_fmap, length_take. lia.
Qed.

(** ** Read repair *)

Section fetch_proofs.
Context (answer : string → option KvBlock).

Lemma poll_sound ready futs b futs' :
  poll answer ready futs = (Some b, futs') → ∃ p, (p, true) ∈ futs ∧ answer p = Some b.
Proof.
  revert ready futs'. induction futs as [|[p v] futs IH]; intros ready futs' E; [done|]. simpl in E.
  destruct (match ready with [] => (false, []) | b :: bs => (b, bs) end) as [now rest].
  destruct (v && now) eqn:Hv.
  - apply andb_true_iff in Hv as [-> _]. destruct (answer p) as [b'|] eqn:Ha.
    + injection E as -> _. exists p. split; [by left|done].
    + destruct (poll answer rest futs) as [r f'] eqn:Ep. injection E as -> _.
      destruct (IH _ _ Ep) as (q & Hq & Hans). exists q. split; [by right|done].
  - destruct (poll answer rest futs) as [r f'] eqn:Ep. injection E as -> _.
    destruct (IH _ _ Ep) as (q & Hq & Hans). exists q. split; [by right|done].
Qed.

(** No future becomes outstanding again. *)
Lemma poll_sub ready futs r futs' p :
  poll answer ready futs = (r, futs') → (p, true) ∈ futs' → (p, true) ∈ futs.
Proof.
  revert ready r futs'. induction futs as [|[q v] futs IH]; intros ready r futs' E Hp;
    simpl in E; [by injection E as <- <-|].
  destruct (match ready with [] => (false, []) | b :: bs => (b, bs) end) as [now rest].
  destruct (v && now) eqn:Hv; [destruct (answer q)|].
  - injection E as <- <-. apply elem_of_cons in Hp as [[=]|Hp]. by right.
  - destruct (poll answer rest futs) as [r' f'] eqn:Ep. injection E as <- <-.
    apply elem_of_cons in Hp as [[=]|Hp]. right. by eapply IH.
  - destruct (poll answer rest futs) as [r' f'] eqn:Ep. injection E as <- <-.
    apply elem_of_cons in Hp as [[= -> ->]|Hp]; [by left|]. right. by eapply IH.
Qed.

(** A future that will yield a block stays outstanding until it is returned. *)
Lemma poll_none ready futs futs' p :
  poll answer ready futs = (None, futs') → (p, true) ∈ futs → is_Some (answer p) → (p, true) ∈ futs'.
Proof.
  revert ready futs'. induction futs as [|[q v] futs IH]; intros ready futs' E Hp Ha;
    [by apply not_elem_of_nil in Hp|]. simpl in E.
  destruct (match ready with [] => (false, []) | b :: bs => (b, bs) end) as [now rest].
  destruct (v && now) eqn:Hv.
  - destruct (answer q) as [b'|] eqn:Hq; [done|].
    destruct (poll answer rest futs) as [r f'] eqn:Ep. injection E as -> <-.
    apply elem_of_cons in Hp as [[= -> ->]|Hp]; [rewrite Hq in Ha; by destruct Ha|].
    right. by eapply IH.
  - destruct (poll answer rest futs) as [r f'] eqn:Ep. injection E as -> <-.
    apply elem_of_cons in Hp as [[= -> ->]|Hp]; [by left|]. right. by eapply IH.
Qed.

Lemma poll_all_ready futs p n :
  (p, true) ∈ futs → is_Some (answer p) → (length futs ≤ n)%nat →
  is_Some (poll answer (replicate n true) futs).1.
Proof.
  revert n. induction futs as [|[q v] futs IH]; intros n Hp Ha Hn; [by apply not_elem_of_nil in Hp|].
  destruct n as [|n]; simpl in Hn; [lia|]. simpl. rewrite andb_true_r.
  assert ((p, true) ∈ futs → is_Some (poll answer (replicate n true) futs).1) as Hrest
    by (intros; apply IH; [done|done|lia]).
  destruct (poll answer (replicate n true) futs) as [r f'].
  apply elem_of_cons in Hp as [[= <- <-]|Hp].
  - destruct Ha as [b ->]. by eexists.
  - destruct v; [destruct (answer q)|]; simpl; eauto.
Qed.

Lemma length_poll ready futs : length (poll answer ready futs).2 = length futs.
Proof.
  revert ready. induction futs as [|[q v] futs IH]; intros ready; [done|]. simpl.
  destruct (match ready with [] => (false, []) | b :: bs => (b, bs) end) as [now rest].
  specialize (IH rest). destruct (poll answer rest futs) as [r f'].
  destruct (v && now); [destruct (answer q)|]; simpl in *; lia.
Qed.

(** Read repair: what a fetch returns was answered by one of the asked
    peers, and if one of them has the block and the last pass before the
    deadline finds every outstanding answer, the fetch returns a block: an
    empty answer of a faster peer does not end it. *)
Theorem fetch_from_any_spec passes n peers :
  (length peers ≤ n)%nat →
  (∀ b, FetchFromAny answer true passes peers = Some b → ∃ p, p ∈ peers ∧ answer p = Some b) ∧
  ((∃ p, p ∈ peers ∧ is_Some (answer p)) →
   is_Some (FetchFromAny answer true (passes ++ [replicate n true]) peers)).
Proof.
  intros Hn. unfold FetchFromAny. split.
  - intros b. case_bool_decide; [done|]. cbn [orb negb].
    assert (∀ p, (p, true) ∈ (λ p, (p, true)) <$> peers → p ∈ peers) as Hfuts.
    { intros p (q & [= ->] & Hq)%list_elem_of_fmap. done. }
    revert Hfuts. generalize ((λ p, (p, true)) <$> peers).
    induction passes as [|ready passes IH]; intros futs Hfuts E; [done|]. simpl in E.
    destruct (poll answer ready futs) as [[b'|] futs'] eqn:Ep.
    + injection E as ->. apply poll_sound in Ep as (p & Hp & Ha). exists p. auto.
    + destruct (_ && _); [done|]. apply (IH futs'); [|done].
      intros p Hp. apply Hfuts.
      by eapply poll_sub.
  - intros (p & Hp & Ha). rewrite bool_decide_false by (intros ->; by apply not_elem_of_nil in Hp).
    cbn [orb negb].
    assert ((p, true) ∈ (λ p, (p, true)) <$> peers) as Hin by (apply list_elem_of_fmap; by exists p).
    assert (length ((λ p, (p, true)) <$> peers) ≤ n)%nat as Hlen by (by rewrite length_fmap).
    revert Hin Hlen. generalize ((λ p, (p, true)) <$> peers).
    induction passes as [|ready passes IH]; intros futs Hin Hlen; simpl.
    + pose proof (poll_all_ready futs p n Hin Ha Hlen) as [b Hb].
      destruct (poll answer (replicate n true) futs) as [r f']. simpl in Hb. subst r. by eexists.
    + pose proof (length_poll ready futs) as Hl.
      destruct (poll answer ready futs) as [[b'|] futs'] eqn:Ep; [by eexists|]. simpl in Hl.
      pose proof (poll_none _ _ _ _ Ep Hin Ha) as Hin'.
      replace (forallb _ futs') with false.
      2:{ symmetry. apply not_true_iff_false. rewrite forallb_forall. intros Hall.
          apply list_elem_of_In, Hall in Hin'. done. }
      rewrite andb_false_r. apply IH; [done|lia].
Qed.
End fetch_proofs.

(** ** Concrete runs *)

Definition wit_ring : Router := SetPeers wit_blake3 merge_sorter wit_peers wit_router.

Definition wit_orders (t : Tier) : SnapOrder BlockStore.BlockStore SsdBlockStore.SsdBlockStore :=
  mkSnapOrder (M := BlockStore.BlockStore) (D := SsdBlockStore.SsdBlockStore)
    (std_iteration (K := BlockId) (V := KvBlock)) (std_iteration (K := BlockId) (V := nat)).

(** Node [a] holds one block in DRAM and one on disk, and owns both with [b]. *)
Lemma rereplication_reconverges_witness :
  let '(_, s1, st1) := TriggerReReplication "a" wit_ring true wit_orders 0 1 ["d"] new_pool wit_tiered2 in
  let '(sent, s2, st2) := sweep "a" wit_ring true [] s1 st1 in
  rp_rerep_active s2 = false ∧
  ("b", kv_id SsdBlockStore.wit_block, kv_data SsdBlockStore.wit_block) ∈ task_key <$> sent.
Proof.
  pose proof (rereplication_reconverges "a" wit_ring true wit_orders 0 1 [] ["d"] new_pool wit_tiered2
    wit_tiered2_inv ltac:(done) eq_refl ltac:(simpl; lia)) as Hr.
  destruct (TriggerReReplication "a" wit_ring true wit_orders 0 1 ["d"] new_pool wit_tiered2) as [[eff s1] st1].
  destruct (sweep "a" wit_ring true [] s1 st1) as [[sent s2] st2].
  destruct Hr as (Ha & _ & Hs).
  - assert (length (candidates "a" wit_ring wit_orders wit_tiered2) = 2%nat) as -> by (by vm_compute).
    unfold kReReplicationBatch. simpl. lia.
  - split; [exact Ha|]. apply Hs; [by vm_compute| | |done|done].
    + apply (bool_decide_unpack _). vm_compute. exact I.
    + apply (bool_decide_unpack _). vm_compute. exact I.
Defined.

Lemma drain_tick_prefix_witness :
  ∃ n eff s' st', DrainReReplication "a" wit_ring true 5
      (with_round new_pool [kv_id SsdBlockStore.wit_block] 0) wit_tiered2 = (eff, s', st') ∧
    rp_rerep_cursor s' = n ∧ contents st' = contents wit_tiered2.
Proof.
  destruct (drain_tick_prefix "a" wit_ring true 5 (with_round new_pool [kv_id SsdBlockStore.wit_block] 0)
    wit_tiered2 wit_tiered2_inv) as (n & eff & s' & st' & E & Hc & _ & _ & _ & Hcont & _).
  - split; simpl; [lia|done].
  - exists n, eff, s', st'. split_and!; [exact E|exact Hc|exact Hcont].
Defined.

Lemma replicate_out_bounded_witness :
  (ReplicateOut true "a" (Some wit_ring) SsdBlockStore.wit_block new_pool).1 = ["b"] ∧
  rp_queue (ReplicateOut true "a" (Some wit_ring) SsdBlockStore.wit_block new_pool).2 =
    [mkReplicateTask "b" SsdBlockStore.wit_block].
Proof.
  pose proof (replicate_out_bounded "a" wit_ring SsdBlockStore.wit_block new_pool ltac:(simpl; lia)) as Hr.
  destruct (ReplicateOut true "a" (Some wit_ring) SsdBlockStore.wit_block new_pool) as [sub s'] eqn:E.
  destruct Hr as (Hsub & Hq & _ & _). cbn [fst snd].
  assert (sub = ["b"]) as -> by (rewrite Hsub; by vm_compute). split; [done|]. rewrite Hq. by vm_compute.
Defined.

(** [b] answers with nothing first, [c] has the block. *)
Lemma fetch_from_any_spec_witness :
  is_Some (FetchFromAny (λ p, if String.eqb p "c" then Some SsdBlockStore.wit_block else None) true
    ([[true; false]] ++ [replicate 2 true]) ["b"; "c"]).
Proof.
  apply (fetch_from_any_spec (λ p, if String.eqb p "c" then Some SsdBlockStore.wit_block else None)
    [[true; false]] 2 ["b"; "c"]); [simpl; lia|].
  exists "c". split; [right; by left|by eexists].
Defined.
