(* ===== verification/Registry.v ===== *)
(** * The private state of the components (eviction.cpp, replication.cpp, membership.cpp)

    [Evictor], [Replicator] and [Membership] keep their private state outside
    the object, in a registry of the translation unit that maps the address of
    the object to its state.  This file models the registries, the constructors
    and destructors that fill them, and the null check of every method, and
    shows that an object sees exactly a private field of its own. *)
From S2P Require Import Prelude Types TierStore TieredStore Eviction Membership Replication.

(** ** A registry *)

(** The address of an object. *)
Notation Ptr := Z (only parsing).

Notation Registry S := (gmap Ptr S).

(** [impls.find]: null when there is no entry. *)
Definition impl_for {S} (p : Ptr) (reg : Registry S) : option S := reg !! p.

(** [impls.emplace]: an entry that exists is kept. *)
Definition emplace {S} (p : Ptr) (s : S) (reg : Registry S) : Registry S :=
  match impl_for p reg with Some _ => reg | None => <[p := s]> reg end.

Definition erase {S} (p : Ptr) (reg : Registry S) : Registry S := delete p reg.

(** The body of a method: null returns [dflt] at once. *)
Definition with_impl {S R} (dflt : R) (p : Ptr) (f : S → R * S) (reg : Registry S) : R * Registry S :=
  match impl_for p reg with
  | None => (dflt, reg)
  | Some s => let '(r, s') := f s in (r, <[p := s']> reg)
  end.

Definition method {S} (p : Ptr) (f : S → S) (reg : Registry S) : Registry S :=
  (with_impl tt p (λ s, (tt, f s)) reg).2.

(** ** The three components *)

Definition Evictor_ctor (p : Ptr) (reg : Registry EvictorState) : Registry EvictorState :=
  emplace p new_evictor_state reg.

Definition Evictor_dtor (p : Ptr) (reg : Registry EvictorState) : Registry EvictorState :=
  erase p (method p Eviction.Shutdown reg).

Definition Replicator_ctor (p : Ptr) (reg : Registry ReplicatorPoolState) : Registry ReplicatorPoolState :=
  emplace p new_pool reg.

Definition pool_for (p : Ptr) (reg : Registry ReplicatorPoolState) : option ReplicatorPoolState := reg !! p.

Definition Replicator_dtor (p : Ptr) (reg : Registry ReplicatorPoolState) : Registry ReplicatorPoolState :=
  match pool_for p reg with
  | None => reg
  | Some s => erase p (<[p := stop_pool s]> reg)
  end.

(** The addresses with a channel; the condition variable carries no data. *)
Record MembershipImpl : Type := mkMembershipImpl { im_stubs : gset string }.

Definition new_membership_impl : MembershipImpl := mkMembershipImpl ∅.

(** Whether a channel is created, and the state. *)
Definition stub_for_peer (address : string) (impl : MembershipImpl) : bool * MembershipImpl :=
  if bool_decide (address ∈ im_stubs impl) then (false, impl)
  else (true, mkMembershipImpl ({[address]} ∪ im_stubs impl)).

Definition Membership_ctor (p : Ptr) (reg : Registry MembershipImpl) : Registry MembershipImpl :=
  emplace p new_membership_impl reg.

(** Its [Shutdown] wakes the thread and changes nothing in the state. *)
Definition Membership_dtor (p : Ptr) (reg : Registry MembershipImpl) : Registry MembershipImpl :=
  erase p (method p (λ s, s) reg).

(** ** What a component gives its objects *)

Class Pimpl (S : Type) : Type := {
  fresh : S;
  ctor : Ptr → Registry S → Registry S;
  dtor : Ptr → Registry S → Registry S
}.

Class PimplSpec (S : Type) `{Pimpl S} : Prop := {
  ctor_new p reg : impl_for p reg = None → ctor p reg = <[p := fresh]> reg;
  dtor_gone p reg : dtor p reg = delete p reg
}.

#[export] Instance Evictor_pimpl : Pimpl EvictorState :=
  { fresh := new_evictor_state; ctor := Evictor_ctor; dtor := Evictor_dtor }.
#[export] Instance Replicator_pimpl : Pimpl ReplicatorPoolState :=
  { fresh := new_pool; ctor := Replicator_ctor; dtor := Replicator_dtor }.
#[export] Instance Membership_pimpl : Pimpl MembershipImpl :=
  { fresh := new_membership_impl; ctor := Membership_ctor; dtor := Membership_dtor }.

Lemma emplace_new {S} p (s : S) reg : impl_for p reg = None → emplace p s reg = <[p := s]> reg.
Proof. unfold emplace. by intros ->. Qed.

Lemma method_alter {S} p (f : S → S) reg : method p f reg = alter f p reg.
Proof.
  unfold method, with_impl, impl_for. destruct (reg !! p) as [s|] eqn:E; simpl.
  - apply map_eq. intros q. destruct (decide (p = q)) as [<-|Hne]; simplify_map_eq; by rewrite ?E.
  - apply map_eq. intros q. destruct (decide (p = q)) as [<-|Hne]; simplify_map_eq; by rewrite ?E.
Qed.

Lemma erase_method {S} p (f : S → S) (reg : Registry S) : erase p (method p f reg) = delete p reg.
Proof.
  rewrite method_alter. unfold erase. apply map_eq. intros q.
  by destruct (decide (p = q)) as [<-|Hne]; simplify_map_eq.
Qed.

#[export] Instance Evictor_pimpl_spec : PimplSpec EvictorState.
Proof. split; [intros; by apply emplace_new|intros; apply erase_method]. Qed.
#[export] Instance Replicator_pimpl_spec : PimplSpec ReplicatorPoolState.
Proof.
  split; [intros; by apply emplace_new|]. intros p reg. cbn. unfold Replicator_dtor, pool_for, erase.
  destruct (reg !! p) eqn:E; [by rewrite delete_insert_eq|by rewrite delete_id].
Qed.
#[export] Instance Membership_pimpl_spec : PimplSpec MembershipImpl.
Proof. split; [intros; by apply emplace_new|intros; apply erase_method]. Qed.

(** ** Objects *)

Inductive Op (S : Type) : Type :=
| New (p : Ptr)
| Method (p : Ptr) (f : S → S)
| Delete (p : Ptr).
Arguments New {_}. Arguments Method {_}. Arguments Delete {_}.

Section objects.
Context {S : Type} `{PimplSpec S}.
Implicit Types (ops : list (Op S)) (reg : Registry S).

(** What the program does. *)
Definition step reg (o : Op S) : Registry S :=
  match o with
  | New p => ctor p reg
  | Method p f => method p f reg
  | Delete p => dtor p reg
  end.

(** What it means: a field of the object, which lives from its construction to
    its destruction. *)
Definition field_step (p : Ptr) (x : option S) (o : Op S) : option S :=
  match o with
  | New q => if decide (q = p) then Some fresh else x
  | Method q f => if decide (q = p) then f <$> x else x
  | Delete q => if decide (q = p) then None else x
  end.
Definition field (p : Ptr) ops : option S := fold_left (field_step p) ops None.

(** An object is constructed only where none is alive. *)
Definition lifetimes ops : Prop :=
  ∀ k p, ops !! k = Some (New p) → field p (take k ops) = None.

(** Private state: for every program of constructions, method calls and
    destructions, in any order and on any number of objects, what a method finds
    in the registry is what a field of its own object would hold: fresh state
    after the construction, also at the address of a destroyed object, changed
    only by calls on that object, and null after the destruction. *)
Theorem private_fields ops : lifetimes ops → ∀ p, impl_for p (fold_left step ops ∅) = field p ops.
Proof.
  induction ops as [|o ops IH] using rev_ind; intros Hl p; [apply lookup_empty|].
  assert (lifetimes ops) as Hl'.
  { intros k q Hk. pose proof (lookup_lt_Some _ _ _ Hk). specialize (Hl k q).
    rewrite lookup_app_l, take_app_le in Hl by lia. by apply Hl. }
  specialize (IH Hl'). unfold field. rewrite !fold_left_app. fold (field p ops). rewrite <- IH.
  set (reg := fold_left step ops ∅) in *. unfold impl_for in *. destruct o as [q|q f|q]; cbn [fold_left step field_step].
  - rewrite ctor_new.
    + destruct (decide (q = p)) as [->|Hne]; by simplify_map_eq.
    + unfold impl_for. rewrite IH. specialize (Hl (length ops) q).
      rewrite take_app_length in Hl. apply Hl. by rewrite list_lookup_middle.
  - rewrite method_alter. destruct (decide (q = p)) as [->|Hne]; by simplify_map_eq.
  - rewrite dtor_gone. destruct (decide (q = p)) as [->|Hne]; by simplify_map_eq.
Qed.
End objects.

(** ** A concrete program *)

(** Two evictors; the first is destroyed and a third one gets its address. *)
Definition wit_ops : list (Op EvictorState) :=
  [New 16; New 32; Method 16 (OnPeerEviction [block_id_of_byte Byte.x01] "b");
   Method 32 (OnPeerEviction [block_id_of_byte Byte.x02; block_id_of_byte Byte.x03] "b"); Delete 16; New 16].

Lemma private_fields_witness :
  peer_evicted_count_for_testing "b" <$> impl_for 16 (fold_left step wit_ops ∅) = Some 0%nat ∧
  peer_evicted_count_for_testing "b" <$> impl_for 32 (fold_left step wit_ops ∅) = Some 2%nat.
Proof.
  assert (lifetimes wit_ops) as Hl.
  { intros k p Hk. do 6 (destruct k as [|k]; [simplify_eq/=; by vm_compute|]). done. }
  rewrite !(private_fields wit_ops Hl). by vm_compute.
Defined.
