(* ===== verification/Cache.v ===== *)
(** * The cache facade (cache.hpp, cache.cpp)

    One node: the tiered store, the router, the replicator, the membership and
    the evictor wired together, with the RPC handlers that the server calls.
    Effects that one component has on another (a membership change that sets
    the router's peers and starts a re-replication round) are carried out
    here, as the pointers between the components do in the program. *)
From S2P Require Import Prelude Types TierStore BlockStore SsdBlockStore TieredStore Routing.
From S2P Require Import Eviction Membership Replication.

Record CacheConfig : Type := mkCacheConfig {
  cc_node_id : string;
  cc_seed_peers : list StaticPeer;
  cc_hbm_bytes : Z;
  cc_dram_bytes : Z;
  cc_ssd_bytes : Z;
  cc_ssd_path : string;
  cc_replication_factor : nat;
  cc_virtual_nodes_per_peer : nat;
  cc_eviction_high_watermark_pct : Z;
  cc_eviction_low_watermark_pct : Z
}.

Inductive Where : Type := LocalHit | RemoteHit | Miss.

Record Entry : Type := mkEntry {
  en_id : BlockId;
  en_where : Where;
  en_remote_node : option string;
  en_tier : Tier;
  en_local_data : bytes
}.

Record LookupResult : Type := mkLookupResult {
  lr_entries : list Entry;
  lr_hit_count : Z;    (* std::uint32_t *)
  lr_miss_count : Z
}.

Record LocalFetchResult : Type := mkLocalFetchResult { lf_data : bytes; lf_tier : Tier }.

(** The members.  [lc_connections] is the transport's connection table;
    [lc_has_metrics] is the build option that creates the metrics object. *)
Record LetheCache : Type := mkLetheCache {
  lc_cfg : CacheConfig;
  lc_store : TieredStore;
  lc_router : Router;
  lc_has_metrics : bool;
  lc_connections : gmap string string;
  lc_pool : ReplicatorPoolState;
  lc_membership : Membership;
  lc_evict_cfg : EvictionConfig;
  lc_evictor : EvictorState;
  lc_running : bool
}.

Definition with_store (c : LetheCache) (st : TieredStore) : LetheCache :=
  mkLetheCache (lc_cfg c) st (lc_router c) (lc_has_metrics c) (lc_connections c) (lc_pool c)
    (lc_membership c) (lc_evict_cfg c) (lc_evictor c) (lc_running c).
Definition with_router (c : LetheCache) (r : Router) : LetheCache :=
  mkLetheCache (lc_cfg c) (lc_store c) r (lc_has_metrics c) (lc_connections c) (lc_pool c)
    (lc_membership c) (lc_evict_cfg c) (lc_evictor c) (lc_running c).
Definition with_pool (c : LetheCache) (s : ReplicatorPoolState) : LetheCache :=
  mkLetheCache (lc_cfg c) (lc_store c) (lc_router c) (lc_has_metrics c) (lc_connections c) s
    (lc_membership c) (lc_evict_cfg c) (lc_evictor c) (lc_running c).
Definition with_membership (c : LetheCache) (m : Membership) : LetheCache :=
  mkLetheCache (lc_cfg c) (lc_store c) (lc_router c) (lc_has_metrics c) (lc_connections c) (lc_pool c)
    m (lc_evict_cfg c) (lc_evictor c) (lc_running c).
Definition with_evictor (c : LetheCache) (e : EvictorState) : LetheCache :=
  mkLetheCache (lc_cfg c) (lc_store c) (lc_router c) (lc_has_metrics c) (lc_connections c) (lc_pool c)
    (lc_membership c) (lc_evict_cfg c) e (lc_running c).
Definition with_running (c : LetheCache) (b : bool) : LetheCache :=
  mkLetheCache (lc_cfg c) (lc_store c) (lc_router c) (lc_has_metrics c) (lc_connections c) (lc_pool c)
    (lc_membership c) (lc_evict_cfg c) (lc_evictor c) b.

Definition with_connections (c : LetheCache) (t : gmap string string) : LetheCache :=
  mkLetheCache (lc_cfg c) (lc_store c) (lc_router c) (lc_has_metrics c) t (lc_pool c)
    (lc_membership c) (lc_evict_cfg c) (lc_evictor c) (lc_running c).

(** The defaults of [TieredStoreConfig], [MembershipConfig] (milliseconds in
    the header, nanoseconds here) and [EvictionConfig]. *)
Definition store_config (cfg : CacheConfig) : TieredStoreConfig :=
  mkTieredStoreConfig (cc_hbm_bytes cfg) (cc_dram_bytes cfg) (cc_ssd_bytes cfg) (cc_ssd_path cfg)
    true 2 65536.
Definition default_membership_config : MembershipConfig :=
  mkMembershipConfig 200000000 1000000000 3000000000.
Definition eviction_config (cfg : CacheConfig) : EvictionConfig :=
  mkEvictionConfig (cc_eviction_high_watermark_pct cfg) (cc_eviction_low_watermark_pct cfg) 500 true.

(** Self first, then the seeds other than self. *)
Definition ring_peers (cfg : CacheConfig) : list string :=
  cc_node_id cfg :: filter (λ p, p ≠ cc_node_id cfg) (sp_node_id <$> cc_seed_peers cfg).

(** [EnsurePeerClient] for every seed other than self; connecting is
    idempotent. *)
Definition connect (conns : gmap string string) (p : StaticPeer) : gmap string string :=
  match conns !! sp_node_id p with
  | Some _ => conns
  | None => <[sp_node_id p := sp_address p]> conns
  end.

Section cache.
Context (blake3_full : bytes → Hash256).

(** The members that the constructor builds around the store. *)
Definition built_cache (sort : Sorter) (has_metrics : bool) (now : Z) (cfg : CacheConfig)
    (st : TieredStore) : LetheCache :=
  mkLetheCache cfg st
    (SetPeers blake3_full sort (ring_peers cfg)
      (make_router (cc_node_id cfg) (cc_virtual_nodes_per_peer cfg) (cc_replication_factor cfg)))
    has_metrics
    (fold_left connect (filter (λ p, sp_node_id p ≠ cc_node_id cfg) (cc_seed_peers cfg)) ∅)
    new_pool
    (make_membership default_membership_config (cc_node_id cfg) (cc_seed_peers cfg)
       true true has_metrics now)
    (eviction_config cfg) new_evictor_state false.

Definition make_cache (sys : SysCalls) (file : bytes) (sort : Sorter) (has_metrics : bool) (now : Z)
    (cfg : CacheConfig) : SsdError + LetheCache :=
  match make_store sys file (store_config cfg) with
  | inl e => inl e
  | inr st => inr (built_cache sort has_metrics now cfg st)
  end.

Definition Start (c : LetheCache) : LetheCache :=
  if lc_running c then c
  else with_running (with_evictor (with_membership c (Membership.Start (lc_membership c)))
         (Eviction.Start (lc_store c) (lc_evictor c))) true.

(** The transport forgets its connections on shutdown. *)
Definition Shutdown (c : LetheCache) : LetheCache :=
  if lc_running c
  then with_running (with_connections (with_evictor
         (with_membership c (Membership.Shutdown (lc_membership c)))
         (Eviction.Shutdown (lc_evictor c))) ∅) false
  else c.

(** One entry of a lookup. *)
Definition lookup_one (r : Router) (node_id : string) (id : BlockId) (st : TieredStore) :
    Entry * TieredStore :=
  let '(got, st') := TieredStore.Get id st in
  match got with
  | Some g => (mkEntry id LocalHit None (gr_tier_found g) (gr_data g), st')
  | None =>
      let route := Route id r in
      if negb (String.eqb (primary route) "") && negb (String.eqb (primary route) node_id)
      then (mkEntry id RemoteHit (Some (primary route)) DRAM [], st')
      else (mkEntry id Miss None DRAM [], st')
  end.

Definition is_hit (e : Entry) : bool := match en_where e with Miss => false | _ => true end.

(** The loop of [Lookup] with its two counters. *)
Definition lookup_step (r : Router) (node_id : string) (acc : LookupResult * TieredStore) (id : BlockId) :
    LookupResult * TieredStore :=
  let '(res, st) := acc in
  let '(e, st') := lookup_one r node_id id st in
  (mkLookupResult (lr_entries res ++ [e])
     (if is_hit e then lr_hit_count res +₃₂ 1 else lr_hit_count res)
     (if is_hit e then lr_miss_count res else lr_miss_count res +₃₂ 1), st').

Definition Lookup (ids : list BlockId) (c : LetheCache) : LookupResult * LetheCache :=
  let '(res, st) := fold_left (lookup_step (lc_router c) (cc_node_id (lc_cfg c))) ids
                      (mkLookupResult [] 0 0, lc_store c) in
  (res, with_store c st).

Definition total_used (st : TieredStore) : Z :=
  TieredStore.used_bytes HBM st +₆₄ TieredStore.used_bytes DRAM st +₆₄ TieredStore.used_bytes SSD st.

(** One block of [Insert]: the count so far and the node. *)
Definition insert_step (acc : Z * LetheCache) (blk : KvBlock) : Z * LetheCache :=
  let '(accepted, c) := acc in
  let before := total_used (lc_store c) in
  let '(landed, st') := TieredStore.Put blk (kv_tier blk) (lc_store c) in
  let c1 := with_store c st' in
  match landed with
  | Some _ =>
      if total_used st' >? before
      then (accepted +₃₂ 1,
            with_pool c1 (ReplicateOut true (cc_node_id (lc_cfg c)) (Some (lc_router c)) blk (lc_pool c)).2)
      else (accepted, c1)
  | None => (accepted, c1)
  end.

Definition Insert (blocks : list KvBlock) (c : LetheCache) : Z * LetheCache :=
  fold_left insert_step blocks (0, c).

Definition FetchLocal (id : BlockId) (c : LetheCache) : option LocalFetchResult * LetheCache :=
  let '(got, st') := TieredStore.Get id (lc_store c) in
  ((λ g, mkLocalFetchResult (gr_data g) (gr_tier_found g)) <$> got, with_store c st').

Definition cluster_epoch (c : LetheCache) : Z := Epoch (lc_membership c).

Definition IngestStreamedBlock (id : BlockId) (payload : bytes) (purpose : StreamPurpose)
    (c : LetheCache) : LetheCache :=
  with_store c (TieredStore.Put (mkKvBlock id payload DRAM (cluster_epoch c)) DRAM (lc_store c)).2.

(** What a call into the node from outside its handlers may depend on: the
    order of the sort and of the snapshots, and the clock. *)
Record Choices : Type := mkChoices {
  ch_sort : Sorter;
  ch_orders : Tier → SnapOrder BlockStore SsdBlockStore;
  ch_now : Z;
  ch_now' : Z
}.

(** The calls that a membership change makes. *)
Definition apply_effect (ch : Choices) (c : LetheCache) (e : MemberEffect) : LetheCache :=
  match e with
  | RecordEpoch _ => c
  | RouterSetPeers ids => with_router c (SetPeers blake3_full (ch_sort ch) ids (lc_router c))
  | Membership.TriggerReReplication lost =>
      let '(_, s, st) := TriggerReReplication (cc_node_id (lc_cfg c)) (lc_router c) (lc_has_metrics c)
                           (ch_orders ch) (ch_now ch) (ch_now' ch) lost (lc_pool c) (lc_store c) in
      with_store (with_pool c s) st
  end.

Definition apply_effects (ch : Choices) (effs : list MemberEffect) (c : LetheCache) : LetheCache :=
  fold_left (apply_effect ch) effs c.

Definition OnHeartbeat (ch : Choices) (it it' : Iteration string PeerInfo) (now : Z) (peer_id : string)
    (c : LetheCache) : HeartbeatReply * LetheCache :=
  let '(reply, effs, m) := Membership.OnHeartbeat it it' now peer_id (lc_membership c) in
  (reply, apply_effects ch effs (with_membership c m)).

(** A turn of the heartbeat thread. *)
Definition heartbeat_tick (ch : Choices) (o : TickOrder) (reply : string → string → bool) (now1 now2 : Z)
    (c : LetheCache) : LetheCache :=
  let '(effs, m) := HeartbeatTick o reply now1 now2 (lc_membership c) in
  apply_effects ch effs (with_membership c m).

(** A turn of the sweep thread of the replicator. *)
Definition sweep_tick (now : Z) (c : LetheCache) : LetheCache :=
  let '(_, s, st) := DrainReReplication (cc_node_id (lc_cfg c)) (lc_router c) (lc_has_metrics c) now
                       (lc_pool c) (lc_store c) in
  with_store (with_pool c s) st.

(** One worker of the replicator. *)
Definition worker_tick (ok : bool) (c : LetheCache) : LetheCache :=
  with_pool c (worker_step true (lc_has_metrics c) ok (lc_pool c)).2.

(** One pass of the eviction thread of a tier. *)
Definition evict_tick (o : SnapOrder BlockStore SsdBlockStore) (it : Iteration string PeerInfo) (t : Tier)
    (c : LetheCache) : list PassEffect * LetheCache :=
  let '(_, effs, e, st) :=
    RunPassForTier (lc_evict_cfg c) (lc_has_metrics c)
      (Some (AllPeerAddresses it (lc_membership c), Epoch (lc_membership c)))
      (cc_node_id (lc_cfg c)) o t (lc_evictor c) (lc_store c) in
  (effs, with_store (with_evictor c e) st).

Definition OnEvictBroadcast (evicted : list BlockId) (source : string) (c : LetheCache) : LetheCache :=
  with_evictor c (OnPeerEviction evicted source (lc_evictor c)).
End cache.

(** ** Lookup *)

(** The answer that a lookup of [id] must give when the node holds [m]. *)
Definition expected (r : Router) (node_id : string) (m : gmap BlockId bytes) (id : BlockId) :
    BlockId * Where * option string * bytes :=
  match m !! id with
  | Some d => (id, LocalHit, None, d)
  | None =>
      if decide (primary (Route id r) ≠ "" ∧ primary (Route id r) ≠ node_id)
      then (id, RemoteHit, Some (primary (Route id r)), [])
      else (id, Miss, None, [])
  end.

Definition observed (e : Entry) : BlockId * Where * option string * bytes :=
  (en_id e, en_where e, en_remote_node e, en_local_data e).

Lemma lookup_one_spec r node_id id (st : TieredStore) :
  inv st →
  let '(e, st') := lookup_one r node_id id st in
  inv st' ∧ contents st' = contents st ∧ observed e = expected r node_id (contents st) id.
Proof.
  intros Hi. unfold lookup_one, expected. destruct (Get_effect id st Hi) as (Hi' & Hc & Hg).
  destruct (TieredStore.Get id st) as [got st']. cbn [fst snd] in *. rewrite <- Hg.
  destruct got as [g|]; [done|]. cbn [fmap option_fmap option_map].
  destruct (String.eqb_spec (primary (Route id r)) ""), (String.eqb_spec (primary (Route id r)) node_id);
    cbn [negb andb]; case_decide; try done; tauto.
Qed.

Definition hits (l : list Entry) : nat := length (filter (λ e, is_hit e = true) l).

Lemma hits_app l e : hits (l ++ [e]) = (hits l + if is_hit e then 1 else 0)%nat.
Proof.
  unfold hits. rewrite filter_app, length_app. f_equal. rewrite filter_cons, filter_nil.
  destruct (is_hit e) eqn:E; by rewrite decide_bool_decide.
Qed.

Lemma lookup_loop r node_id ids res (st : TieredStore) :
  inv st →
  let '(res', st') := fold_left (lookup_step r node_id) ids (res, st) in
  inv st' ∧ contents st' = contents st ∧
  observed <$> lr_entries res' = (observed <$> lr_entries res) ++ (expected r node_id (contents st) <$> ids) ∧
  (lr_hit_count res = Z.of_nat (hits (lr_entries res)) →
   lr_miss_count res = Z.of_nat (length (lr_entries res) - hits (lr_entries res)) →
   Z.of_nat (length (lr_entries res) + length ids) < 2 ^ 32 →
   lr_hit_count res' = Z.of_nat (hits (lr_entries res')) ∧
   lr_miss_count res' = Z.of_nat (length (lr_entries res') - hits (lr_entries res'))).
Proof.
  revert res st. induction ids as [|id ids IH]; intros res st Hi; cbn [fold_left].
  { cbn [fmap list_fmap]. rewrite app_nil_r. by split_and!. }
  unfold lookup_step at 2. pose proof (lookup_one_spec r node_id id st Hi) as Ho.
  destruct (lookup_one r node_id id st) as [e st1]. destruct Ho as (Hi1 & Hc1 & He).
  set (res1 := mkLookupResult _ _ _).
  specialize (IH res1 st1 Hi1). destruct (fold_left _ ids (res1, st1)) as [res' st'].
  destruct IH as (Hi' & Hc' & Hobs & Hcnt).
  split_and!; [done|congruence| |].
  - rewrite Hobs, Hc1. unfold res1. cbn [lr_entries]. rewrite fmap_app, <- app_assoc, !fmap_cons, <- He. done.
  - intros Hh Hm Hlen. unfold res1 in Hcnt. cbn [lr_entries lr_hit_count lr_miss_count] in Hcnt.
    rewrite length_app, hits_app in Hcnt. cbn [length] in Hcnt, Hlen.
    assert (hits (lr_entries res) ≤ length (lr_entries res))%nat as Hle by apply length_filter.
    apply Hcnt; [| |lia].
    + destruct (is_hit e); [|lia]. rewrite Hh, u32_small; lia.
    + destruct (is_hit e); [lia|]. rewrite Hm, u32_small; lia.
Qed.

(** C36 (lookup): a lookup answers each requested id in order: a local hit with
    the stored bytes exactly for the blocks that the node holds, otherwise a
    pointer to the block's primary, which is never the node itself, or a miss.
    The two counters add up to the number of ids, and the payloads that the
    node holds do not change. *)
Theorem lookup_spec ids c :
  inv (lc_store c) → Z.of_nat (length ids) < 2 ^ 32 →
  let '(res, c') := Lookup ids c in
  observed <$> lr_entries res =
    expected (lc_router c) (cc_node_id (lc_cfg c)) (contents (lc_store c)) <$> ids ∧
  lr_hit_count res = Z.of_nat (hits (lr_entries res)) ∧
  lr_hit_count res + lr_miss_count res = Z.of_nat (length ids) ∧
  Forall (λ e, en_remote_node e ≠ Some (cc_node_id (lc_cfg c))) (lr_entries res) ∧
  inv (lc_store c') ∧ contents (lc_store c') = contents (lc_store c).
Proof.
  intros Hi Hlen. unfold Lookup.
  pose proof (lookup_loop (lc_router c) (cc_node_id (lc_cfg c)) ids (mkLookupResult [] 0 0) (lc_store c) Hi) as Hl.
  destruct (fold_left _ ids _) as [res st']. destruct Hl as (Hi' & Hc' & Hobs & Hcnt).
  cbn [lr_entries lr_hit_count lr_miss_count fmap list_fmap app length] in Hobs, Hcnt.
  destruct Hcnt as [Hh Hm]; [done|done|done|].
  assert (length (lr_entries res) = length ids) as Hn
    by (by rewrite <- (length_fmap observed), Hobs, length_fmap).
  assert (hits (lr_entries res) ≤ length (lr_entries res))%nat by apply length_filter.
  split_and!; [done|done|lia| |done|done].
  apply Forall_lookup. intros i e He.
  assert (observed <$> lr_entries res !! i = expected (lc_router c) (cc_node_id (lc_cfg c)) (contents (lc_store c)) <$> ids !! i) as Hi2.
  { rewrite <- !list_lookup_fmap. by rewrite Hobs. }
  rewrite He in Hi2. destruct (ids !! i) as [id|]; [|done]. injection Hi2 as Hi2.
  unfold observed, expected in Hi2. destruct (contents (lc_store c) !! id); [by injection Hi2 as _ _ -> _|].
  case_decide as Hd; injection Hi2 as _ _ -> _; [|done]. intros [= E]. by apply Hd.
Qed.

(** ** Insert *)

Lemma total_used_exact (st : TieredStore) :
  inv st → total_used st = TieredStore.used_bytes HBM st + TieredStore.used_bytes DRAM st +
             TieredStore.used_bytes SSD st.
Proof.
  intros Hi. unfold total_used. pose proof (inv_capacities st Hi).
  pose proof (used_capacity HBM st (inv_tiers st Hi)). pose proof (used_capacity DRAM st (inv_tiers st Hi)).
  pose proof (used_capacity SSD st (inv_tiers st Hi)). rewrite !(u64_small); try lia.
  rewrite u64_small; lia.
Qed.

(** The used-bytes test of [Insert] detects whether the tier where the block
    landed had it before. *)
Lemma put_grows b t (st st' : TieredStore) :
  inv st → inv st' → KvBlock_wf b → kv_data b ≠ [] → PutToTier b t st = (true, st') →
  (total_used st' >? total_used st) = bool_decide (tier_contents t st !! kv_id b = None).
Proof.
  intros Hi Hi' Hw Hne Hp. rewrite !total_used_exact by done.
  destruct (PutToTier_true b t st st' (inv_tiers st Hi) Hw Hp) as [_ _ _ Hu].
  rewrite !Hu. assert (0 < size_of (kv_data b)) as Hpos.
  { destruct (kv_data b); [done|]. unfold size_of. simpl. lia. }
  destruct (tier_contents t st !! kv_id b) as [d|] eqn:E;
    [rewrite bool_decide_false by done|rewrite bool_decide_true by done];
    destruct t; repeat case_decide; try done; lia.
Qed.

Definition block_ok (payload : BlockId → bytes) (b : KvBlock) : Prop :=
  KvBlock_wf b ∧ kv_data b ≠ [] ∧ kv_data b = payload (kv_id b).

(** Everything of a node but its store and its replication pool. *)
Record same_parts (c c' : LetheCache) : Prop := {
  sp_cfg : lc_cfg c' = lc_cfg c;
  sp_router : lc_router c' = lc_router c;
  sp_membership : lc_membership c' = lc_membership c
}.

(** What one block of an insert does. *)
Lemma insert_step_effect payload n c b :
  inv (lc_store c) → addressed payload (contents (lc_store c)) → block_ok payload b →
  let '(n', c') := insert_step (n, c) b in
  inv (lc_store c') ∧ addressed payload (contents (lc_store c')) ∧ same_parts c c' ∧
  match TieredStore.Put b (kv_tier b) (lc_store c) with
  | (Some t, st') =>
      lc_store c' = st' ∧ contents st' = <[kv_id b := kv_data b]> (contents (lc_store c)) ∧
      if bool_decide (tier_contents t (lc_store c) !! kv_id b = None)
      then n' = n +₃₂ 1 ∧
           lc_pool c' = (ReplicateOut true (cc_node_id (lc_cfg c)) (Some (lc_router c)) b (lc_pool c)).2
      else n' = n ∧ lc_pool c' = lc_pool c
  | (None, _) => n' = n ∧ lc_pool c' = lc_pool c ∧ lc_store c' = lc_store c
  end.
Proof.
  intros Hi Ha (Hw & Hne & Hp). unfold insert_step.
  assert (agrees b (contents (lc_store c))) as Hag by (intros d Hd; rewrite Hp; by apply Ha).
  pose proof (Put_effect b (kv_tier b) (lc_store c) Hi Hw Hne Hag) as Hput.
  destruct (TieredStore.Put b (kv_tier b) (lc_store c)) as [[t|] st'].
  - destruct Hput as (Hi' & Hc & _ & _ & Hpt).
    rewrite (put_grows b t (lc_store c) st' Hi Hi' Hw Hne Hpt).
    assert (addressed payload (contents st')) as Ha'.
    { rewrite Hc. intros id d [[<- <-]|[_ Hd]]%lookup_insert_Some; [done|by apply Ha]. }
    destruct (bool_decide _); by split_and!.
  - subst st'. by split_and!.
Qed.

(** Accepted count: an insert counts a block, and hands it to replication,
    exactly when it landed in a tier that did not hold it; the payload is then
    readable.  A block that no tier takes changes nothing. *)
Theorem insert_counts_landed payload n c b :
  inv (lc_store c) → addressed payload (contents (lc_store c)) → block_ok payload b →
  let '(n', c') := insert_step (n, c) b in
  match TieredStore.Put b (kv_tier b) (lc_store c) with
  | (Some t, _) =>
      n' = (if bool_decide (tier_contents t (lc_store c) !! kv_id b = None) then n +₃₂ 1 else n) ∧
      (FetchLocal (kv_id b) c').1 ≫= (λ f, Some (lf_data f)) = Some (kv_data b) ∧
      lc_pool c' = (if bool_decide (tier_contents t (lc_store c) !! kv_id b = None)
                    then (ReplicateOut true (cc_node_id (lc_cfg c)) (Some (lc_router c)) b (lc_pool c)).2
                    else lc_pool c)
  | (None, _) => n' = n ∧ lc_store c' = lc_store c ∧ lc_pool c' = lc_pool c
  end.
Proof.
  intros Hi Ha Hok. pose proof (insert_step_effect payload n c b Hi Ha Hok) as Hs.
  destruct (insert_step (n, c) b) as [n' c']. destruct Hs as (Hi' & _ & _ & Hm).
  destruct (TieredStore.Put b (kv_tier b) (lc_store c)) as [[t|] st'].
  2:{ destruct Hm as (-> & -> & ->). done. }
  destruct Hm as (<- & Hc & Hm). split_and!.
  - by destruct (bool_decide _), Hm as [-> _].
  - unfold FetchLocal. destruct (Get_effect (kv_id b) (lc_store c') Hi') as (_ & _ & Hg).
    rewrite Hc, lookup_insert_eq in Hg.
    destruct (TieredStore.Get (kv_id b) (lc_store c')) as [[g|] ?]; simpl in *; congruence.
  - by destruct (bool_decide _), Hm as [_ ->].
Qed.

Lemma insert_loop payload blocks n c :
  inv (lc_store c) → addressed payload (contents (lc_store c)) → Forall (block_ok payload) blocks →
  let '(n', c') := fold_left insert_step blocks (n, c) in
  inv (lc_store c') ∧ addressed payload (contents (lc_store c')) ∧ same_parts c c' ∧
  (∀ id, contents (lc_store c') !! id = contents (lc_store c) !! id ∨
         contents (lc_store c) !! id = None ∧ id ∈ kv_id <$> blocks ∧
         contents (lc_store c') !! id = Some (payload id)) ∧
  (0 ≤ n → n + Z.of_nat (length blocks) < 2 ^ 32 → n ≤ n' ≤ n + Z.of_nat (length blocks)).
Proof.
  revert n c. induction blocks as [|b blocks IH]; intros n c Hi Ha Hok; cbn [fold_left].
  { split_and!; [done|done|done|by left|simpl; lia]. }
  apply Forall_cons in Hok as [Hb Hok].
  pose proof (insert_step_effect payload n c b Hi Ha Hb) as Hs.
  destruct (insert_step (n, c) b) as [n1 c1]. destruct Hs as (Hi1 & Ha1 & [E1 E2 E3] & Hm).
  specialize (IH n1 c1 Hi1 Ha1 Hok). destruct (fold_left insert_step blocks (n1, c1)) as [n' c'].
  destruct IH as (Hi' & Ha' & [F1 F2 F3] & Hids & Hn).
  assert ((∀ id, contents (lc_store c1) !! id = contents (lc_store c) !! id ∨
           id = kv_id b ∧ contents (lc_store c1) !! id = Some (payload id)) ∧
          (n1 = n ∨ n1 = n +₃₂ 1)) as [Hone Hn1].
  { destruct (TieredStore.Put b (kv_tier b) (lc_store c)) as [[t|] st'].
    - destruct Hm as (Est & Hc & Hm). rewrite Est. split.
      + intros id. rewrite Hc. destruct (decide (kv_id b = id)) as [<-|Hne].
        * right. rewrite lookup_insert_eq. split; [done|]. f_equal. apply Hb.
        * left. by rewrite lookup_insert_ne.
      + destruct (bool_decide _), Hm as [-> _]; auto.
    - destruct Hm as (-> & _ & ->). auto. }
  split_and!; [done|done|split; congruence| |].
  - intros id. destruct (Hids id) as [Hid|(Hnone & Hin & Hsome)].
    + rewrite Hid. destruct (Hone id) as [|[-> Hp]]; [by left|].
      destruct (contents (lc_store c) !! kv_id b) as [d|] eqn:Ed.
      * left. rewrite Hp. by rewrite (Ha _ _ Ed).
      * right. split_and!; [done|by left|done].
    + right. destruct (Hone id) as [E|[_ E]]; [|congruence]. rewrite <- E. split_and!; [done|by right|done].
  - intros H0 Hlt. cbn [length] in *. destruct Hn1 as [->| ->]; [lia|].
    rewrite u32_small in Hn by lia. lia.
Qed.

(** When every block was counted, every block is held. *)
Lemma insert_loop_full payload blocks n c :
  inv (lc_store c) → addressed payload (contents (lc_store c)) → Forall (block_ok payload) blocks →
  0 ≤ n → n + Z.of_nat (length blocks) < 2 ^ 32 →
  let '(n', c') := fold_left insert_step blocks (n, c) in
  n' = n + Z.of_nat (length blocks) →
  ∀ b, b ∈ blocks → contents (lc_store c') !! kv_id b = Some (kv_data b).
Proof.
  revert n c. induction blocks as [|b blocks IH]; intros n c Hi Ha Hok H0 Hlt; cbn [fold_left length] in *.
  { intros _ b Hb. by apply not_elem_of_nil in Hb. }
  apply Forall_cons in Hok as [Hb Hok].
  pose proof (insert_step_effect payload n c b Hi Ha Hb) as Hs.
  destruct (insert_step (n, c) b) as [n1 c1]. destruct Hs as (Hi1 & Ha1 & _ & Hm).
  assert (n1 = n ∨ n1 = n + 1 ∧ contents (lc_store c1) !! kv_id b = Some (kv_data b)) as Hn1.
  { destruct (TieredStore.Put b (kv_tier b) (lc_store c)) as [[t|] st']; [|left; apply Hm].
    destruct Hm as (-> & Hc & Hm). destruct (bool_decide _), Hm as [-> _]; [right|by left].
    rewrite u32_small by lia. split; [done|]. by rewrite Hc, lookup_insert_eq. }
  pose proof (insert_loop payload blocks n1 c1 Hi1 Ha1 Hok) as Hloop.
  assert (0 ≤ n1 ∧ n1 + Z.of_nat (length blocks) < 2 ^ 32) as [H1 H2] by (destruct Hn1 as [->|[-> _]]; lia).
  specialize (IH n1 c1 Hi1 Ha1 Hok H1 H2).
  destruct (fold_left insert_step blocks (n1, c1)) as [n' c'].
  destruct Hloop as (_ & _ & _ & Hids & Hn). specialize (Hn H1 H2).
  intros En. destruct Hn1 as [->|[-> Hc1]]; [lia|].
  intros b' [->|Hb']%elem_of_cons; [|apply IH; [lia|done]].
  destruct (Hids (kv_id b)) as [->|(Hnone & _)]; congruence.
Qed.

(** Insert: inserting blocks never removes or alters a payload; every
    identity holds afterwards what it held before or, if it was absent, the
    payload of one of the inserted blocks; the count is at most the number of
    blocks. *)
Theorem insert_spec payload blocks c :
  inv (lc_store c) → addressed payload (contents (lc_store c)) → Forall (block_ok payload) blocks →
  Z.of_nat (length blocks) < 2 ^ 32 →
  let '(accepted, c') := Insert blocks c in
  inv (lc_store c') ∧
  (∀ id, contents (lc_store c') !! id = contents (lc_store c) !! id ∨
         contents (lc_store c) !! id = None ∧ id ∈ kv_id <$> blocks ∧
         contents (lc_store c') !! id = Some (payload id)) ∧
  0 ≤ accepted ≤ Z.of_nat (length blocks).
Proof.
  intros Hi Ha Hok Hlen. unfold Insert.
  pose proof (insert_loop payload blocks 0 c Hi Ha Hok) as Hl.
  destruct (fold_left insert_step blocks (0, c)) as [n c']. destruct Hl as (? & _ & _ & ? & Hn).
  split_and!; [done|done|lia..].
Qed.

(** ** The node as a state machine *)

Inductive NodeEvent : Type :=
| NLookup (ids : list BlockId)
| NInsert (blocks : list KvBlock)
| NFetch (id : BlockId)
| NIngest (id : BlockId) (payload : bytes) (purpose : StreamPurpose)
| NHeartbeat (ch : Choices) (it it' : Iteration string PeerInfo) (now : Z) (peer_id : string)
| NTick (ch : Choices) (o : TickOrder) (reply : string → string → bool) (now1 now2 : Z)
| NSweep (now : Z)
| NWorker (ok : bool)
| NEvict (o : SnapOrder BlockStore SsdBlockStore) (it : Iteration string PeerInfo) (t : Tier)
| NEvictBroadcast (evicted : list BlockId) (source : string).

Definition node_step (blake3_full : bytes → Hash256) (c : LetheCache) (e : NodeEvent) : LetheCache :=
  match e with
  | NLookup ids => (Lookup ids c).2
  | NInsert blocks => (Insert blocks c).2
  | NFetch id => (FetchLocal id c).2
  | NIngest id payload purpose => IngestStreamedBlock id payload purpose c
  | NHeartbeat ch it it' now p => (OnHeartbeat blake3_full ch it it' now p c).2
  | NTick ch o reply now1 now2 => heartbeat_tick blake3_full ch o reply now1 now2 c
  | NSweep now => sweep_tick now c
  | NWorker ok => worker_tick ok c
  | NEvict o it t => (evict_tick o it t c).2
  | NEvictBroadcast evicted source => OnEvictBroadcast evicted source c
  end.

(** The pool within its bound and with a consistent round. *)
Definition pool_ok (s : ReplicatorPoolState) : Prop :=
  (length (rp_queue s) ≤ kReplicationQueueMax)%nat ∧ round_ok s.

Section node.
Context (payload : BlockId → bytes).

Record node_ok (c : LetheCache) : Prop := {
  no_store : inv (lc_store c);
  no_addressed : addressed payload (contents (lc_store c));
  no_self : self_absent (lc_membership c);
  no_wired : mb_has_router (lc_membership c) = true;
  no_ring : ring_ok (lc_membership c) (r_peers (lc_router c));
  no_epoch : 0 ≤ mb_epoch (lc_membership c) < 2 ^ 64;
  no_pool : pool_ok (lc_pool c)
}.

(** What the environment may send: content-addressed payloads, heartbeats of
    configured peers. *)
Definition node_event_ok (c : LetheCache) (e : NodeEvent) : Prop :=
  match e with
  | NInsert blocks => Forall (block_ok payload) blocks
  | NIngest id data _ =>
      BlockId_wf id ∧ size_of data < 2 ^ 63 ∧ data ≠ [] ∧ data = payload id
  | NHeartbeat _ _ _ _ p => is_Some (mb_peers (lc_membership c) !! p)
  | _ => True
  end.

Fixpoint run_ok (blake3_full : bytes → Hash256) (c : LetheCache) (evs : list NodeEvent) : Prop :=
  match evs with
  | [] => True
  | e :: evs => node_event_ok c e ∧ run_ok blake3_full (node_step blake3_full c e) evs
  end.

Lemma enqueue_round block peers s :
  round_ok s → round_ok (fold_left (enqueue_or_drop block) peers s).
Proof.
  revert s. induction peers as [|p peers IH]; intros s Hr; [done|]. simpl. apply IH.
  unfold enqueue_or_drop. by destruct (_ <=? _)%nat.
Qed.

Lemma ReplicateOut_pool_ok t local r block s :
  pool_ok s → pool_ok (ReplicateOut t local r block s).2.
Proof.
  intros [Hq Hr]. unfold ReplicateOut. destruct r as [r|]; [|done]. destruct t; [|done]. cbn [snd].
  split; [|by apply enqueue_round].
  destruct (enqueue_all block (filter (λ p, p ≠ local) (replicas (Route (kv_id block) r))) s Hq) as [-> _].
  rewrite length_app, length_fmap, length_take. lia.
Qed.

Lemma worker_pool_ok t m ok s : pool_ok s → pool_ok (worker_step t m ok s).2.
Proof.
  intros [Hq Hr]. unfold worker_step. destruct (rp_queue s) as [|x q] eqn:E.
  - cbn [snd]. split; [by rewrite E|done].
  - split; [cbn [snd rp_queue length] in *; lia|done].
Qed.

(** A tick of the sweep, inside the node. *)
Lemma drain_ok local r mt now s (st : TieredStore) :
  inv st → pool_ok s →
  let '(_, s', st') := DrainReReplication local r mt now s st in
  inv st' ∧ contents st' = contents st ∧ pool_ok s'.
Proof.
  intros Hi [Hq Hr].
  destruct (DrainReReplication_spec local r mt now s st Hi Hr) as (n & eff & s' & st' & -> & Hr' & _ & Hdr).
  destruct Hdr as [_ _ _ ? ? _ Hb _]. split_and!; [done|done|]. split; [by apply Hb|done].
Qed.

Lemma trigger_ok local r mt o now now' lost s (st : TieredStore) :
  inv st → pool_ok s →
  let '(_, s', st') := TriggerReReplication local r mt o now now' lost s st in
  inv st' ∧ contents st' = contents st ∧ pool_ok s'.
Proof.
  intros Hi [Hq Hr]. unfold TriggerReReplication. destruct lost as [|l lost]; [done|].
  assert (pool_ok (with_round s (candidates local r o st) now)) as Hp.
  { split; [done|]. split; simpl; [lia|]. by destruct (candidates local r o st). }
  pose proof (drain_ok local r mt now' _ st Hi Hp) as Hd.
  by destruct (DrainReReplication local r mt now' _ st) as [[eff s'] st'].
Qed.

Context (blake3_full : bytes → Hash256).

(** The calls that a membership change makes keep the store and the pool well
    formed and leave the router with the peers it was given. *)
Lemma apply_effects_ok ch effs c :
  inv (lc_store c) → pool_ok (lc_pool c) →
  let c' := apply_effects blake3_full ch effs c in
  inv (lc_store c') ∧ contents (lc_store c') = contents (lc_store c) ∧ pool_ok (lc_pool c') ∧
  lc_membership c' = lc_membership c ∧ r_peers (lc_router c') = ring_after (r_peers (lc_router c)) effs.
Proof.
  revert c. induction effs as [|e effs IH]; intros c Hi Hp; [done|].
  assert (inv (lc_store (apply_effect blake3_full ch c e)) ∧
    contents (lc_store (apply_effect blake3_full ch c e)) = contents (lc_store c) ∧
    pool_ok (lc_pool (apply_effect blake3_full ch c e)) ∧
    lc_membership (apply_effect blake3_full ch c e) = lc_membership c ∧
    r_peers (lc_router (apply_effect blake3_full ch c e)) = ring_after (r_peers (lc_router c)) [e]) as
    (H1 & H2 & H3 & H4 & H5).
  { destruct e as [ep|ids|lost]; [done|done|]. cbn [apply_effect].
    pose proof (trigger_ok (cc_node_id (lc_cfg c)) (lc_router c) (lc_has_metrics c) (ch_orders ch)
      (ch_now ch) (ch_now' ch) lost (lc_pool c) (lc_store c) Hi Hp) as Ht.
    destruct (TriggerReReplication _ _ _ _ _ _ _ _ _) as [[eff s'] st'].
    by destruct Ht as (? & ? & ?). }
  destruct (IH (apply_effect blake3_full ch c e) H1 H3) as (I1 & I2 & I3 & I4 & I5).
  unfold apply_effects in *. cbn [fold_left]. split_and!; [done|congruence|done|congruence|].
  rewrite I5, H5. done.
Qed.

Lemma node_ok_store c st :
  node_ok c → inv st → addressed payload (contents st) → node_ok (with_store c st).
Proof. intros [] ??. by split. Qed.

Lemma node_ok_store_same c st :
  node_ok c → inv st → contents st = contents (lc_store c) → node_ok (with_store c st).
Proof. intros Hok Hi Hc. apply node_ok_store; [done|done|]. rewrite Hc. apply Hok. Qed.

Lemma node_ok_pool c s : node_ok c → pool_ok s → node_ok (with_pool c s).
Proof. intros [] ?. by split. Qed.

(** An insert leaves the pool within its bound. *)
Lemma insert_pool_ok blocks n c :
  pool_ok (lc_pool c) → pool_ok (lc_pool (fold_left insert_step blocks (n, c)).2).
Proof.
  revert n c. induction blocks as [|b blocks IH]; intros n c Hp; [done|].
  assert (pool_ok (lc_pool (insert_step (n, c) b).2)) as H1.
  { unfold insert_step. destruct (TieredStore.Put b (kv_tier b) (lc_store c)) as [[t|] st']; [|done].
    destruct (_ >? _); [by apply ReplicateOut_pool_ok|done]. }
  cbn [fold_left]. destruct (insert_step (n, c) b) as [n1 c1]. by apply IH.
Qed.

Lemma insert_node_ok blocks c :
  node_ok c → Forall (block_ok payload) blocks → node_ok (Insert blocks c).2.
Proof.
  intros Hok Hb. unfold Insert.
  pose proof (insert_loop payload blocks 0 c (no_store c Hok) (no_addressed c Hok) Hb) as Hl.
  pose proof (insert_pool_ok blocks 0 c (no_pool c Hok)) as Hp.
  destruct (fold_left insert_step blocks (0, c)) as [n c'].
  destruct Hl as (Hi & Ha & [E1 E2 E3] & _), Hok. cbn [snd] in *.
  split; [exact Hi|exact Ha|by rewrite E3|by rewrite E3|by rewrite E2, E3|by rewrite E3|exact Hp].
Qed.

(** A membership handler followed by its effects. *)
Lemma node_ok_member c m effs ch :
  node_ok c → same_node (lc_membership c) m → 0 ≤ mb_epoch m < 2 ^ 64 →
  ring_ok m (ring_after (r_peers (lc_router c)) effs) →
  node_ok (apply_effects blake3_full ch effs (with_membership c m)).
Proof.
  intros Hok Hn Hep Hr.
  destruct (apply_effects_ok ch effs (with_membership c m) (no_store c Hok) (no_pool c Hok))
    as (H1 & H2 & H3 & H4 & H5).
  split; [done|rewrite H2; apply Hok| | | | |done]; rewrite H4.
  - apply (same_node_self_absent _ _ Hn), Hok.
  - cbn [lc_membership with_membership]. rewrite (sn_router _ _ Hn). apply Hok.
  - rewrite H5. exact Hr.
  - exact Hep.
Qed.

Lemma change_epoch it lost m : 0 ≤ mb_epoch (OnMembershipChange it lost m).2 < 2 ^ 64.
Proof. apply u64_range. Qed.

Lemma heartbeat_epoch it it' now p m :
  0 ≤ mb_epoch m < 2 ^ 64 → 0 ≤ mb_epoch (Membership.OnHeartbeat it it' now p m).2 < 2 ^ 64.
Proof. intros Hm. unfold Membership.OnHeartbeat. destruct (negb _); [apply u64_range|done]. Qed.

Lemma tick_epoch o reply now1 now2 m :
  0 ≤ mb_epoch m < 2 ^ 64 → 0 ≤ mb_epoch (HeartbeatTick o reply now1 now2 m).2 < 2 ^ 64.
Proof.
  intros Hm. unfold HeartbeatTick, SendHeartbeatsToAllPeers.
  assert (∀ eff1 m1, 0 ≤ mb_epoch m1 < 2 ^ 64 →
    0 ≤ mb_epoch (let '(lost, m2) := EvaluateSuspicions (to_evaluate o) now2 m1 in
      match lost with
      | [] => (eff1, m2)
      | _ => let '(eff2, m3) := OnMembershipChange (to_change o) lost m2 in (eff1 ++ eff2, m3)
      end).2 < 2 ^ 64) as Hrest.
  { intros eff1 m1 H1. unfold EvaluateSuspicions. destruct (filter _ _).*1; [done|apply u64_range]. }
  destruct (filter _ (heartbeat_targets _ _)).*1; [by apply (Hrest [])|].
  destruct (fold_left _ _ _) as [ps [|q res]]; [by apply (Hrest [])|].
  apply Hrest, u64_range.
Qed.

(** Requests and the store. *)
Lemma node_step_requests c e :
  node_ok c → node_event_ok c e →
  match e with
  | NLookup _ | NInsert _ | NFetch _ | NIngest _ _ _ => node_ok (node_step blake3_full c e)
  | _ => True
  end.
Proof.
  intros Hok He. destruct e as [ids|blocks|id|id d pur| | | | | |]; try done; cbn [node_step].
  - unfold Lookup. pose proof (lookup_loop (lc_router c) (cc_node_id (lc_cfg c)) ids
      (mkLookupResult [] 0 0) (lc_store c) (no_store c Hok)) as Hl.
    destruct (fold_left _ ids _) as [res st']. destruct Hl as (? & ? & _). by apply node_ok_store_same.
  - by apply insert_node_ok.
  - unfold FetchLocal. destruct (Get_effect id (lc_store c) (no_store c Hok)) as (? & ? & _).
    destruct (TieredStore.Get id (lc_store c)) as [got st']. by apply node_ok_store_same.
  - destruct He as (Hid & Hsz & Hne & Hd). unfold IngestStreamedBlock.
    assert (KvBlock_wf (mkKvBlock id d DRAM (cluster_epoch c))) as Hw by (split; [done|done|apply Hok]).
    set (b := mkKvBlock id d DRAM (cluster_epoch c)) in *.
    assert (agrees b (contents (lc_store c))) as Hag.
    { intros d' Hd'. simpl. rewrite Hd. by apply (no_addressed c Hok). }
    pose proof (Put_effect b DRAM (lc_store c) (no_store c Hok) Hw Hne Hag) as Hput.
    destruct (TieredStore.Put b DRAM (lc_store c)) as [[t|] st'].
    + destruct Hput as (Hi' & Hc & _). apply node_ok_store; [done|done|]. cbn [snd]. rewrite Hc.
      intros i x [[<- <-]|[_ Hx]]%lookup_insert_Some; [done|by apply (no_addressed c Hok)].
    + cbn [snd]. subst st'. by destruct c.
Qed.

(** The threads of the node and the messages of its peers. *)
Lemma node_step_ok c e : node_ok c → node_event_ok c e → node_ok (node_step blake3_full c e).
Proof.
  intros Hok He. pose proof (node_step_requests c e Hok He) as Hreq.
  destruct e as [ids|blocks|id|id d pur|ch it it' now p|ch o reply now1 now2|now|ok|o it t|ev src];
    [done..| | | | | |]; clear Hreq; cbn [node_step].
  - assert (p ≠ mb_local_node_id (lc_membership c)) as Hp.
    { intros ->. destruct He as [i Hi]. pose proof (no_self c Hok) as Hs. unfold self_absent in Hs. congruence. }
    pose proof (OnHeartbeat_spec it it' now p (lc_membership c) (r_peers (lc_router c)) (no_self c Hok)
      (no_wired c Hok) (no_ring c Hok) Hp He) as Ht.
    pose proof (heartbeat_epoch it it' now p (lc_membership c) (no_epoch c Hok)) as Hep.
    unfold OnHeartbeat. destruct (Membership.OnHeartbeat _ _ _ _ _) as [[rep eff] m'].
    destruct Ht as (? & ? & _). by apply node_ok_member.
  - pose proof (HeartbeatTick_spec o reply now1 now2 (lc_membership c) (r_peers (lc_router c)) (no_self c Hok)
      (no_wired c Hok) (no_ring c Hok)) as Ht.
    pose proof (tick_epoch o reply now1 now2 (lc_membership c) (no_epoch c Hok)) as Hep.
    unfold heartbeat_tick. destruct (HeartbeatTick _ _ _ _ _) as [eff m'].
    destruct Ht as (? & ? & _). by apply node_ok_member.
  - pose proof (drain_ok (cc_node_id (lc_cfg c)) (lc_router c) (lc_has_metrics c) now (lc_pool c)
      (lc_store c) (no_store c Hok) (no_pool c Hok)) as Hd.
    unfold sweep_tick. destruct (DrainReReplication _ _ _ _ _ _) as [[eff s'] st'].
    destruct Hd as (? & ? & ?). apply node_ok_store_same; [by apply node_ok_pool|done|done].
  - apply node_ok_pool; [done|]. apply worker_pool_ok, Hok.
  - unfold evict_tick. pose proof (RunPass_inv (lc_evict_cfg c) (lc_has_metrics c)
      (Some (AllPeerAddresses it (lc_membership c), Epoch (lc_membership c))) (cc_node_id (lc_cfg c)) o t
      (lc_evictor c) (lc_store c) (no_store c Hok)) as Hr.
    destruct (RunPassForTier _ _ _ _ _ _ _ _) as [[[res effs] ev] st']. destruct Hr as [Hi Hsub].
    apply node_ok_store; [by destruct Hok; split|done|].
    intros i x Hx. apply (no_addressed c Hok). by eapply lookup_weaken.
  - by destruct Hok; split.
Qed.

(** C6 (node invariant): from a well-formed node, every sequence of requests,
    heartbeats, thread turns and peer messages, in any order, leaves a node
    whose store satisfies its invariant and holds only the payloads that
    belong to its identities, whose ring is exactly itself and its alive
    peers, and whose replication queue is within its bound; where the blocks that
    arrive are nonempty and named after their bytes, and heartbeats come from
    peers that the node knows (one from an unknown peer makes it count as alive
    without putting it on the ring). *)
Theorem node_invariant c evs :
  node_ok c → run_ok blake3_full c evs → node_ok (fold_left (node_step blake3_full) evs c).
Proof.
  revert c. induction evs as [|e evs IH]; intros c Hok Hev; [done|]. destruct Hev as [He Hev].
  simpl. apply IH; [by apply node_step_ok|done].
Qed.

(** A peer that comes back is put on the ring at once, and with it the ownership
    of its blocks moves; but nothing is pushed to it: queue, round and store are
    as before. *)
Theorem rejoin_pushes_nothing ch it it' now p i c :
  node_ok c → mb_peers (lc_membership c) !! p = Some i → pi_alive i = false →
  let c' := (OnHeartbeat blake3_full ch it it' now p c).2 in
  p ∉ r_peers (lc_router c) ∧ p ∈ r_peers (lc_router c') ∧ lc_pool c' = lc_pool c ∧ lc_store c' = lc_store c.
Proof.
  intros Hok Hp Hd. unfold OnHeartbeat, Membership.OnHeartbeat. rewrite Hp. cbn [default from_option id].
  rewrite Hd. cbn [negb]. set (m1 := with_peers (lc_membership c) _).
  assert (p ∈ alive_set m1) as Hin.
  { apply elem_of_alive_set. eexists. cbn. by rewrite lookup_insert_eq. }
  unfold OnMembershipChange. rewrite bool_decide_true, andb_false_r, app_nil_r by done. cbn zeta.
  assert (mb_has_router (with_epoch m1 (mb_epoch m1 +₆₄ 1)) = true) as -> by apply (no_wired c Hok).
  split.
  - rewrite (proj2 (no_ring c Hok) p). intros [->|Ha].
    + pose proof (no_self c Hok) as Hs. unfold self_absent in Hs. congruence.
    + apply elem_of_alive_set in Ha as (j & Hj & Ha). congruence.
  - destruct (mb_has_metrics _); (split; [|done]); cbn; apply elem_of_cons; right; by apply elem_of_alive_ids.
Qed.

(** The table that the constructor builds: one alive entry per seed id. *)
Lemma seed_peers_alive now seeds ps p :
  (∀ q i, ps !! q = Some i → pi_alive i = true) →
  let ps' := fold_left (seed_peer now) seeds ps in
  (is_Some (ps' !! p) ↔ is_Some (ps !! p) ∨ p ∈ sp_node_id <$> seeds) ∧
  (∀ q i, ps' !! q = Some i → pi_alive i = true).
Proof.
  revert ps. induction seeds as [|x seeds IH]; intros ps Hal; cbn [fold_left].
  { split; [|done]. rewrite fmap_nil, elem_of_nil. tauto. }
  assert ((∀ q i, seed_peer now ps x !! q = Some i → pi_alive i = true) ∧
          (is_Some (seed_peer now ps x !! p) ↔ is_Some (ps !! p) ∨ p = sp_node_id x)) as [Hal' Hx].
  { unfold seed_peer. destruct (ps !! sp_node_id x) as [i|] eqn:E.
    - split; [done|]. split; [auto|]. intros [?| ->]; [done|by rewrite E].
    - split.
      + intros q i [[_ <-]|[_ Hq]]%lookup_insert_Some; [done|by eapply Hal].
      + rewrite lookup_insert_is_Some'. split; intros [?|?]; auto. }
  destruct (IH _ Hal') as [Hd Ha]. split; [|done]. rewrite Hd, Hx, fmap_cons, elem_of_cons. tauto.
Qed.

Lemma ring_peers_distinct cfg :
  cc_node_id cfg ∉ sp_node_id <$> cc_seed_peers cfg →
  ring_peers cfg = cc_node_id cfg :: (sp_node_id <$> cc_seed_peers cfg).
Proof.
  intros Hself. unfold ring_peers. f_equal. apply filter_all, Forall_forall. intros p Hp ->. done.
Qed.

Lemma built_cache_ok sort mt now cfg st :
  inv st → addressed payload (contents st) →
  NoDup (cc_node_id cfg :: (sp_node_id <$> cc_seed_peers cfg)) →
  node_ok (built_cache blake3_full sort mt now cfg st).
Proof.
  intros Hi Ha [Hself Hnd]%NoDup_cons.
  assert (∀ q i, (∅ : gmap string PeerInfo) !! q = Some i → pi_alive i = true) as H0.
  { intros q i. by rewrite lookup_empty. }
  split; cbn; [done|done| |done| |done|split; [simpl; lia|by split; simpl]].
  - unfold self_absent. cbn. apply eq_None_not_Some. intros H.
    apply (seed_peers_alive now _ ∅ _ H0) in H as [[x Hx]|?]; [by rewrite lookup_empty in Hx|done].
  - rewrite ring_peers_distinct by done. split; [by apply NoDup_cons|].
    intros p. rewrite elem_of_cons, elem_of_alive_set. cbn.
    destruct (seed_peers_alive now (cc_seed_peers cfg) ∅ p H0) as [Hd Hal].
    rewrite lookup_empty in Hd. split; (intros [->|Hp]; [by left|right]).
    + destruct (proj2 Hd (or_intror Hp)) as [i Hi']. exists i. split; [done|]. by eapply Hal.
    + destruct Hp as (i & Hp & _). by destruct (proj1 Hd ltac:(by eexists)) as [[? [=]]|?].
Qed.

End node.

(** ** A concrete node *)

(** Node [a] with peers [b] and [c], two virtual nodes each. *)
Definition wit_ccfg : CacheConfig :=
  mkCacheConfig "a" [mkStaticPeer "b" "h:1"; mkStaticPeer "c" "h:2"] 8 64 0 "" 2 2 90 70.

Definition wit_node : LetheCache := built_cache wit_blake3 merge_sorter true 0 wit_ccfg wit_tiered.

Definition wit_choices : Choices := mkChoices merge_sorter (λ _, std_order) 10 11.

Lemma wit_nodup : NoDup (cc_node_id wit_ccfg :: (sp_node_id <$> cc_seed_peers wit_ccfg)).
Proof. apply (bool_decide_unpack _). vm_compute. exact I. Qed.

Lemma wit_empty_addressed (st : TieredStore) : contents st = ∅ → addressed wit_payload (contents st).
Proof. intros -> id d. by rewrite lookup_empty. Qed.

Lemma wit_node_ok : node_ok wit_payload wit_node.
Proof.
  destruct wit_tiered_spec as (_ & Hi & Hc).
  apply built_cache_ok; [done|by apply wit_empty_addressed|apply wit_nodup].
Qed.

Definition wit_on (t : Tier) : KvBlock :=
  mkKvBlock (kv_id SsdBlockStore.wit_block) (kv_data SsdBlockStore.wit_block) t 7.

Lemma wit_on_ok t : block_ok wit_payload (wit_on t).
Proof. split_and!; [|done|by destruct t]. destruct wit_block_wf. by destruct t; split. Qed.

(** Copies in two tiers: a block that the disk tier holds, inserted again
    with the DRAM hint, is stored a second time, counted as newly accepted and
    queued for its replica again. *)
Theorem insert_counts_second_copy :
  let '(n1, c1) := Insert [wit_on SSD] wit_node in
  let '(n2, c2) := Insert [wit_on DRAM] c1 in
  n1 = 1 ∧ n2 = 1 ∧ total_used (lc_store c1) = 2 ∧ total_used (lc_store c2) = 4 ∧
  length (rp_queue (lc_pool c1)) = 1%nat ∧ length (rp_queue (lc_pool c2)) = 2%nat.
Proof.
  assert (let '(n1, c1) := Insert [wit_on SSD] wit_node in
    let '(n2, c2) := Insert [wit_on DRAM] c1 in
    (n1, n2, total_used (lc_store c1), total_used (lc_store c2), length (rp_queue (lc_pool c1)),
     length (rp_queue (lc_pool c2))) = (1, 1, 2, 4, 1%nat, 2%nat)) as H by (vm_compute; reflexivity).
  destruct (Insert [wit_on SSD] wit_node) as [n1 c1]. destruct (Insert [wit_on DRAM] c1) as [n2 c2].
  by simplify_eq.
Qed.

(** The disk copy is found, an unknown block is looked up at its primary. *)
Lemma lookup_spec_witness :
  let '(res, _) := Lookup [kv_id (wit_on SSD); wit_bid] (Insert [wit_on SSD] wit_node).2 in
  lr_hit_count res + lr_miss_count res = 2 ∧
  observed <$> lr_entries res =
    [(kv_id (wit_on SSD), LocalHit, None, kv_data (wit_on SSD)); (wit_bid, RemoteHit, Some "b", [])].
Proof.
  set (c := (Insert [wit_on SSD] wit_node).2).
  assert (node_ok wit_payload c) as Hok.
  { apply insert_node_ok; [apply wit_node_ok|]. apply Forall_singleton, wit_on_ok. }
  pose proof (lookup_spec [kv_id (wit_on SSD); wit_bid] c (no_store _ _ Hok) ltac:(by vm_compute)) as Hl.
  destruct (Lookup _ c) as [res c']. destruct Hl as (Hobs & _ & Hcnt & _). split; [exact Hcnt|].
  rewrite Hobs. vm_compute. reflexivity.
Defined.

Lemma insert_counts_landed_witness :
  (insert_step (0, wit_node) (wit_on DRAM)).1 = 1 ∧
  (FetchLocal (kv_id (wit_on DRAM)) (insert_step (0, wit_node) (wit_on DRAM)).2).1 ≫=
    (λ f, Some (lf_data f)) = Some (kv_data (wit_on DRAM)).
Proof.
  pose proof (insert_counts_landed wit_payload 0 wit_node (wit_on DRAM) (no_store _ _ wit_node_ok)
    (no_addressed _ _ wit_node_ok) (wit_on_ok DRAM)) as Hs.
  assert ((TieredStore.Put (wit_on DRAM) (kv_tier (wit_on DRAM)) (lc_store wit_node)).1 = Some DRAM) as Hl
    by (by vm_compute).
  destruct (insert_step (0, wit_node) (wit_on DRAM)) as [n' c'].
  destruct (TieredStore.Put (wit_on DRAM) (kv_tier (wit_on DRAM)) (lc_store wit_node)) as [[t|] st'];
    [injection Hl as ->|discriminate Hl].
  destruct Hs as (Hn & Hf & _). split; [|exact Hf]. rewrite Hn. by vm_compute.
Defined.

Lemma insert_spec_witness :
  let '(accepted, c') := Insert [wit_on DRAM; wit_block2] wit_node in
  accepted = 2 ∧ inv (lc_store c') ∧ 0 ≤ accepted ≤ 2.
Proof.
  assert ((Insert [wit_on DRAM; wit_block2] wit_node).1 = 2) as Ha by (by vm_compute).
  assert (Forall (block_ok wit_payload) [wit_on DRAM; wit_block2]) as Hb.
  { apply Forall_cons; split; [apply wit_on_ok|]. apply Forall_singleton. by split_and!; [split|..]. }
  pose proof (insert_spec wit_payload [wit_on DRAM; wit_block2] wit_node (no_store _ _ wit_node_ok)
    (no_addressed _ _ wit_node_ok) Hb ltac:(by vm_compute)) as Hs.
  destruct (Insert [wit_on DRAM; wit_block2] wit_node) as [n c'].
  destruct Hs as (Hi & _ & Hn). split; [exact Ha|]. split; [exact Hi|exact Hn].
Defined.

(** An insert, a lookup that promotes, a heartbeat, a turn of the heartbeat
    thread in which a peer dies, a sweep, a worker and an eviction pass. *)
Definition wit_orders : TickOrder := mkTickOrder std_iteration std_iteration std_iteration std_iteration.

Definition wit_events : list NodeEvent :=
  [NInsert [wit_on DRAM; wit_block2]; NLookup [kv_id wit_block2; wit_bid];
   NHeartbeat wit_choices std_iteration std_iteration 5 "c";
   NTick wit_choices wit_orders (λ p _, String.eqb p "b") 4000000000 4000000001;
   NSweep 4000000002; NWorker true; NEvict std_order std_iteration DRAM;
   NEvictBroadcast [wit_bid] "b"].

Lemma node_invariant_witness :
  let c := fold_left (node_step wit_blake3) wit_events wit_node in
  node_ok wit_payload c ∧ r_peers (lc_router c) = ["a"; "b"] ∧ cluster_epoch c = 1.
Proof.
  split; [|split; by vm_compute].
  apply (node_invariant wit_payload wit_blake3 wit_node wit_events wit_node_ok).
  split_and!; try done.
  - apply Forall_cons; split; [apply wit_on_ok|]. apply Forall_singleton. by split_and!; [split|..].
  - apply (bool_decide_unpack _). by vm_compute.
Defined.
