(* ===== verification/Threads.v ===== *)
(** * Threads that interleave at the steps their locks make atomic

    A component without a lock of its own makes its operations out of calls
    that each take one lock.  [prog] is such an operation: a finite tree of
    atomic actions.  Run alone it is a function of the state; run with others,
    the scheduler picks the thread that performs the next action.  [exec] is
    partial: [None] is undefined behaviour.

    The second half is the reasoning principle: an invariant of the state, a
    preorder that every action respects, and for each thread what must hold
    when it acts, whatever actions of the others came before. *)
From S2P Require Import Prelude.

Inductive prog (Act : Type → Type) (A : Type) : Type :=
| Ret (a : A)
| Do {R : Type} (act : Act R) (k : R → prog Act A).
Arguments Ret {_ _}.
Arguments Do {_ _ _}.

Fixpoint pbind {Act A B} (p : prog Act A) (f : A → prog Act B) : prog Act B :=
  match p with
  | Ret a => f a
  | Do act k => Do act (λ r, pbind (k r) f)
  end.

Definition call {Act R} (act : Act R) : prog Act R := Do act Ret.

Declare Scope prog_scope.
Delimit Scope prog_scope with prog.
Notation "'let!' x := p 'in' q" := (pbind p (λ x, q))
  (at level 10, x name, p at level 100, q at level 200) : prog_scope.

(** At most [n] actions, for all the answers that the actions may give. *)
Fixpoint within {Act A} (may : ∀ R, Act R → R → Prop) (n : nat) (p : prog Act A) {struct p} : Prop :=
  match p with
  | Ret _ => True
  | Do act k => match n with O => False | S n => ∀ r, may _ act r → within may n (k r) end
  end.

Section within.
Context {Act : Type → Type} (may : ∀ R, Act R → R → Prop).

Lemma within_le {A} n m (p : prog Act A) : within may n p → (n ≤ m)%nat → within may m p.
Proof.
  revert n m. induction p as [a|R act k IH]; intros n m H Hle; [exact I|].
  destruct n as [|n]; [done|]. destruct m as [|m]; [lia|]. intros r Hr. apply (IH r n); [by apply H|lia].
Qed.

Lemma within_bind {A B} n m (p : prog Act A) (f : A → prog Act B) :
  within may n p → (∀ a, within may m (f a)) → within may (n + m) (pbind p f).
Proof.
  revert n. induction p as [a|R act k IH]; intros n; cbn [pbind within].
  - intros _ H. apply within_le with m; [apply H|lia].
  - destruct n as [|n]; [done|]. intros H Hf r Hr. apply IH; [by apply H|done].
Qed.

Lemma within_call {R A} n (act : Act R) (f : R → prog Act A) :
  (∀ r, may R act r → within may n (f r)) → within may (S n) (pbind (call act) f).
Proof. intros H r Hr. by apply H. Qed.
End within.

Section threads.
Context {Act : Type → Type} {St : Type} (exec : ∀ R, Act R → St → option (R * St)).

(** ** A thread that runs alone *)

Fixpoint run {A} (p : prog Act A) (st : St) : option (A * St) :=
  match p with
  | Ret a => Some (a, st)
  | Do act k => '(r, st') ← exec _ act st; run (k r) st'
  end.

Lemma run_bind {A B} (f : A → prog Act B) (p : prog Act A) st :
  run (pbind p f) st = '(a, st') ← run p st; run (f a) st'.
Proof.
  revert st. induction p as [a|R act k IH]; intros st; [done|].
  cbn [pbind run]. destruct (exec R act st) as [[r st']|]; [|done]. apply IH.
Qed.

(** ** Threads that take turns *)

Context {Op Reply : Type} (op_prog : Op → prog Act Reply).

(** A thread keeps the operation that it was started for; a finished one holds
    its reply. *)
Record Config : Type := mkConfig { cf_state : St; cf_threads : list (Op * prog Act Reply) }.

Inductive Turn : Type := Spawn (o : Op) | Step (i : nat).

(** The next action; a finished thread has none. *)
Definition advance {A} (p : prog Act A) (st : St) : option (prog Act A * St) :=
  match p with
  | Ret _ => Some (p, st)
  | Do act k => '(r, st') ← exec _ act st; Some (k r, st')
  end.

Definition turn (c : Config) (t : Turn) : option Config :=
  match t with
  | Spawn o => Some (mkConfig (cf_state c) (cf_threads c ++ [(o, op_prog o)]))
  | Step i =>
      match cf_threads c !! i with
      | Some (o, p) =>
          '(p', st') ← advance p (cf_state c);
          Some (mkConfig st' (<[i := (o, p')]> (cf_threads c)))
      | None => Some c
      end
  end.

Fixpoint turns (c : Config) (ts : list Turn) : option Config :=
  match ts with
  | [] => Some c
  | t :: ts => c' ← turn c t; turns c' ts
  end.

Definition answered (c : Config) (o : Op) (a : Reply) : Prop := (o, Ret a) ∈ cf_threads c.

Lemma turns_app c ts1 ts2 : turns c (ts1 ++ ts2) = c' ← turns c ts1; turns c' ts2.
Proof.
  revert c. induction ts1 as [|t ts1 IH]; intros c; [done|]. cbn [turns app].
  destruct (turn c t); [apply IH|done].
Qed.

(** A single thread that takes all the turns does what it does alone. *)
Lemma turns_alone o p st a st' :
  run p st = Some (a, st') →
  ∃ n, turns (mkConfig st [(o, p)]) (replicate n (Step 0)) = Some (mkConfig st' [(o, Ret a)]).
Proof.
  revert st. induction p as [x|R act k IH]; intros st; cbn [run].
  - intros [= <- <-]. by exists 0%nat.
  - destruct (exec R act st) as [[r st1]|] eqn:E; [|done]. intros (n & Hn)%IH. exists (S n).
    cbn [replicate turns turn cf_threads lookup list_lookup cf_state advance]. rewrite E. exact Hn.
Qed.

(** The thread that was started last, after others that are left as they are. *)
Lemma turns_last ths o p st a st' :
  run p st = Some (a, st') →
  ∃ n, turns (mkConfig st (ths ++ [(o, p)])) (replicate n (Step (length ths))) = Some (mkConfig st' (ths ++ [(o, Ret a)])).
Proof.
  revert st. induction p as [x|R act k IH]; intros st; cbn [run].
  - intros [= <- <-]. by exists 0%nat.
  - destruct (exec R act st) as [[r st1]|] eqn:E; [|done]. intros (n & Hn)%IH. exists (S n).
    cbn [replicate turns turn cf_threads cf_state]. rewrite list_lookup_middle by done. cbn [advance]. rewrite E.
    cbn [mbind option_bind]. rewrite insert_app_r_alt, Nat.sub_diag by done. exact Hn.
Qed.

(** A schedule that runs operations one after the other, each to its end: the
    [i]-th thread and its successors, with the number of steps of each. *)
Fixpoint serial (i : nat) (os : list Op) (ns : list nat) : list Turn :=
  match os, ns with
  | o :: os, n :: ns => Spawn o :: replicate n (Step i) ++ serial (S i) os ns
  | _, _ => []
  end.

(** What a thread has answered. *)
Definition reply_at (i : nat) (c : Config) : option Reply :=
  match cf_threads c !! i with Some (_, Ret a) => Some a | _ => None end.

Lemma reply_at_lookup i c o a :
  (cf_threads c).*1 !! i = Some o → reply_at i c = Some a → cf_threads c !! i = Some (o, Ret a).
Proof.
  unfold reply_at. rewrite list_lookup_fmap.
  destruct (cf_threads c !! i) as [[o' [a'|R act k]]|]; cbn; congruence.
Qed.

(** The operations that a schedule starts, in order. *)
Fixpoint started (ts : list Turn) : list Op :=
  match ts with
  | [] => []
  | Spawn o :: ts => o :: started ts
  | Step _ :: ts => started ts
  end.

Lemma turns_started ts c c' :
  turns c ts = Some c' → (cf_threads c').*1 = (cf_threads c).*1 ++ started ts.
Proof.
  revert c. induction ts as [|t ts IH]; intros c; cbn [turns started].
  - intros [= <-]. by rewrite app_nil_r.
  - destruct (turn c t) as [c1|] eqn:E; [|done]. cbn. intros ->%IH. destruct t as [o|i]; cbn in E.
    + injection E as <-. cbn. by rewrite fmap_app, <- app_assoc.
    + f_equal. destruct (cf_threads c !! i) as [[o p]|] eqn:Ei; [|by injection E as <-].
      destruct (advance p (cf_state c)) as [[p' st']|]; [|done]. injection E as <-. cbn.
      rewrite list_fmap_insert. apply list_insert_id. by rewrite list_lookup_fmap, Ei.
Qed.

(** A thread that needs at most [n] actions is finished after [n] turns of its
    own, whatever the others do, if the actions answer as [may] says. *)
Fixpoint own_turns (i : nat) (ts : list Turn) : nat :=
  match ts with
  | [] => 0
  | Step j :: ts => if (i =? j)%nat then S (own_turns i ts) else own_turns i ts
  | Spawn _ :: ts => own_turns i ts
  end.

Lemma own_turns_finish (may : ∀ R, Act R → R → Prop) (I : Config → Prop) ts c c' i o p n :
  (∀ c t c', I c → t ∈ ts → turn c t = Some c' → I c') →
  (∀ c R (act : Act R) r st', I c → exec R act (cf_state c) = Some (r, st') → may R act r) →
  I c → turns c ts = Some c' → cf_threads c !! i = Some (o, p) → within may n p → (n ≤ own_turns i ts)%nat →
  ∃ a, cf_threads c' !! i = Some (o, Ret a).
Proof.
  intros Hstep Hmay. revert c p n. induction ts as [|t ts IH]; intros c p n Hi; cbn [turns own_turns].
  - intros [= <-] Ht Hw Hn. destruct p as [a|R act k]; [eauto|]. cbn in Hw. destruct n; [done|lia].
  - destruct (turn c t) as [c1|] eqn:E; [|done]. cbn [mbind option_bind]. intros H Ht Hw Hn.
    assert (I c1) as Hi1 by (eapply Hstep; [exact Hi|by left|exact E]).
    assert (∀ c t c', I c → t ∈ ts → turn c t = Some c' → I c') as Hstep'.
    { intros ??? ? ?. eapply Hstep; [done|by right]. }
    destruct t as [o'|j]; unfold turn in E.
    { simplify_eq. eapply (IH Hstep' _ p n Hi1 H); [|done|done]. cbn. by apply lookup_app_l_Some. }
    destruct (cf_threads c !! j) as [[o' q]|] eqn:Ej.
    2:{ simplify_eq. destruct (Nat.eqb_spec i j) as [Hij|Hne]; [congruence|].
        by eapply (IH Hstep' _ p n Hi1 H). }
    destruct (advance q (cf_state c)) as [[q' st']|] eqn:Ea; [|done]. cbn in E. simplify_eq.
    destruct (Nat.eqb_spec i j) as [Hij|Hne]; [subst j; rewrite Ht in Ej; simplify_eq|].
    + assert (<[i := (o', q')]> (cf_threads c) !! i = Some (o', q')) as Hq.
      { apply list_lookup_insert_eq. by eapply lookup_lt_Some. }
      destruct q as [a|R act k]; cbn [advance] in Ea.
      * simplify_eq. eapply (IH Hstep' _ (Ret a) 0%nat Hi1 H Hq); [done|lia].
      * destruct (exec R act (cf_state c)) as [[r st1]|] eqn:Ee; [|done]. cbn in Ea. simplify_eq.
        destruct n as [|n]; [done|].
        eapply (IH Hstep' _ (k r) n Hi1 H Hq); [by apply Hw, (Hmay c R act r st' Hi)|lia].
    + eapply (IH Hstep' _ p n Hi1 H); [|done|done]. cbn. by rewrite list_lookup_insert_ne.
Qed.

(** ** Rely and guarantee *)

Section rely.
Context (I : St → Prop) (rel : relation St) `{!PreOrder rel}.
Context (pre : ∀ R, Act R → St → Prop).
Context (guarantee : ∀ R (act : Act R) st r st',
  I st → pre R act st → exec R act st = Some (r, st') → I st' ∧ rel st st').

(** From [st] on, whatever the others do in between, the thread acts only as
    [pre] allows and ends with an answer in [Q]. *)
Fixpoint safe {A} (Q : A → St → Prop) (p : prog Act A) (st : St) : Prop :=
  match p with
  | Ret a => ∀ st1, rel st st1 → I st1 → Q a st1
  | Do act k => ∀ st1, rel st st1 → I st1 →
      pre _ act st1 ∧ ∀ r st2, exec _ act st1 = Some (r, st2) → safe Q (k r) st2
  end.

Lemma safe_later {A} (Q : A → St → Prop) p st st1 : safe Q p st → rel st st1 → safe Q p st1.
Proof.
  destruct p as [a|R act k]; cbn; intros H Hr st2 Hr2; apply H; by etrans.
Qed.

Lemma safe_now {A} (Q : A → St → Prop) p st :
  (∀ st1, rel st st1 → I st1 → safe Q p st1) → safe Q p st.
Proof. destruct p as [a|R act k]; cbn; intros H st1 Hr Hi; by apply (H st1). Qed.

Lemma safe_bind {A B} (Q : B → St → Prop) (f : A → prog Act B) p st :
  safe (λ a st1, safe Q (f a) st1) p st → safe Q (pbind p f) st.
Proof.
  revert st. induction p as [a|R act k IH]; intros st H; cbn [pbind]; [by apply safe_now|].
  intros st1 Hr Hi. destruct (H st1 Hr Hi) as [Hp Hk]. split; [done|]. intros r st2 E. by apply IH, Hk.
Qed.

Lemma safe_mono {A} (Q Q' : A → St → Prop) p st :
  safe Q p st → (∀ a st1, rel st st1 → I st1 → Q a st1 → Q' a st1) → safe Q' p st.
Proof.
  revert st. induction p as [a|R act k IH]; intros st H HQ; cbn in *.
  - intros st1 Hr Hi. by apply HQ, H.
  - intros st1 Hr Hi. destruct (H st1 Hr Hi) as [Hp Hk]. split; [done|]. intros r st2 E.
    destruct (guarantee R act st1 r st2 Hi Hp E) as [Hi2 Hr2].
    apply IH; [by apply Hk|]. intros a st3 Hr3 Hi3. apply HQ; [|done]. by repeat (etrans; [eassumption|]).
Qed.

Context (op_ok : Op → Prop) (post : Op → Reply → St → Prop).
Context (spawned : ∀ o st, op_ok o → I st → safe (post o) (op_prog o) st).

Record config_ok (c : Config) : Prop := {
  co_inv : I (cf_state c);
  co_threads o p : (o, p) ∈ cf_threads c → safe (post o) p (cf_state c)
}.

Lemma sched_turn_ok c t c' :
  config_ok c → (∀ o, t = Spawn o → op_ok o) → turn c t = Some c' →
  config_ok c' ∧ rel (cf_state c) (cf_state c').
Proof.
  intros [Hi Hth] Hop. destruct t as [o|i]; cbn [turn].
  - intros [= <-]. split; [|done]. split; [done|]. cbn. intros o' p.
    rewrite elem_of_app, list_elem_of_singleton. intros [H|[= -> ->]]; [by apply Hth|]. by apply spawned, Hi; apply Hop.
  - destruct (cf_threads c !! i) as [[o p]|] eqn:E; [|by intros [= <-]].
    assert (safe (post o) p (cf_state c)) as Hs by (by apply Hth, list_elem_of_lookup_2 with i).
    destruct (advance p (cf_state c)) as [[p' st']|] eqn:Ea; [|done]. cbn. intros [= <-]. cbn.
    assert (I st' ∧ rel (cf_state c) st' ∧ safe (post o) p' st') as (Hi' & Hr & Hs').
    { destruct p as [a|R act k]; cbn [advance] in Ea; [by simplify_eq|].
      destruct (exec R act (cf_state c)) as [[r st1]|] eqn:Ee; [|done]. cbn in Ea. simplify_eq.
      destruct (Hs (cf_state c) ltac:(done) Hi) as [Hp Hk].
      destruct (guarantee R act _ r st' Hi Hp Ee) as [Hi' Hr]. split_and!; [done|done|by apply Hk]. }
    split; [|done]. split; [done|]. cbn.
    intros o' q (j & Hj)%list_elem_of_lookup. apply list_lookup_insert_Some in Hj as [(-> & [= <- <-] & _)|[_ Hj]].
    + done.
    + eapply safe_later; [|exact Hr]. apply Hth. by apply list_elem_of_lookup_2 in Hj.
Qed.

Lemma turns_ok ts c c' :
  config_ok c → (∀ o, Spawn o ∈ ts → op_ok o) → turns c ts = Some c' →
  config_ok c' ∧ rel (cf_state c) (cf_state c').
Proof.
  revert c. induction ts as [|t ts IH]; intros c Hc Hop; cbn [turns].
  - by intros [= <-].
  - destruct (turn c t) as [c1|] eqn:E; [|done]. cbn. intros H.
    destruct (sched_turn_ok c t c1 Hc) as [Hc1 Hr]; [intros o ->; apply Hop; by left|done|].
    destruct (IH c1 Hc1) as [Hc' Hr']; [intros o Ho; apply Hop; by right|done|]. split; [done|by etrans].
Qed.

(** What every schedule gives, started from no thread. *)
Lemma schedule_ok ts st c :
  I st → (∀ o, Spawn o ∈ ts → op_ok o) → turns (mkConfig st []) ts = Some c →
  I (cf_state c) ∧ rel st (cf_state c) ∧ ∀ o a, answered c o a → post o a (cf_state c).
Proof.
  intros Hi Hop H. destruct (turns_ok ts (mkConfig st []) c) as [[Hi' Hth] Hr]; [|done|done|].
  - split; [done|]. by intros o p ?%not_elem_of_nil.
  - split_and!; [done|done|]. intros o a Ho. by apply (Hth o (Ret a) Ho).
Qed.

(** If no allowed action is undefined, no schedule is. *)
Lemma schedule_defined ts c :
  (∀ R (act : Act R) st, I st → pre R act st → is_Some (exec R act st)) →
  config_ok c → (∀ o, Spawn o ∈ ts → op_ok o) → is_Some (turns c ts).
Proof.
  intros Hprog. revert c. induction ts as [|t ts IH]; intros c Hc Hop; [by eexists|].
  assert (is_Some (turn c t)) as [c1 E].
  { destruct t as [o|i]; [by eexists|]. cbn [turn]. destruct (cf_threads c !! i) as [[o p]|] eqn:Et; [|by eexists].
    pose proof (co_threads c Hc o p (list_elem_of_lookup_2 _ _ _ Et)) as Hs.
    destruct p as [a|R act k]; [by eexists|]. cbn [advance].
    destruct (Hs (cf_state c) ltac:(done) (co_inv c Hc)) as [Hp _].
    destruct (Hprog R act (cf_state c) (co_inv c Hc) Hp) as [[r st'] ->]. by eexists. }
  cbn [turns]. rewrite E. cbn. destruct (sched_turn_ok c t c1 Hc) as [Hc1 _]; [intros o ->; apply Hop; by left|done|].
  apply IH; [done|]. intros o Ho. apply Hop. by right.
Qed.
End rely.
End threads.
