(* ===== verification/StoreThreads.v ===== *)
(** * The tiered store at the granularity of its locks (tiered_store.cpp, block_store.cpp)

    The tiered store has no lock of its own: each tier has one, the access
    counters and visited bits share another, and no operation holds two at once.
    This file gives every operation as a program whose actions are the calls
    that take one lock.  A memory tier lends its bytes: [BlockStore::Get]
    returns a span that is read after the lock is released and that an erase of
    the block invalidates; reading it then is undefined behaviour.  The disk
    tier copies under its lock.

    Alone, the programs are the operations of [TieredStore]; that is what the
    sequential definitions describe. *)
From S2P Require Import Prelude Types TierStore TieredStore Threads.

(** Bytes lent by a memory tier: the block, how often it had been erased from
    the tier when they were lent, and what they were. *)
Record Span : Type := mkSpan { sp_tier : Tier; sp_id : BlockId; sp_erased : nat; sp_bytes : bytes }.

(** The store, how often each block was erased from each tier, and the blocks
    that were handed to the replicator, in order. *)
Record Shared (M D : Type) : Type := mkShared {
  sh_store : Tiered M D;
  sh_erased : gmap (Tier * BlockId) nat;
  sh_out : list KvBlock
}.
Arguments mkShared {_ _}. Arguments sh_store {_ _}. Arguments sh_erased {_ _}. Arguments sh_out {_ _}.

Inductive Act {M D : Type} `{TierStore M} `{TierStore D} : Type → Type :=
| APut (b : KvBlock) (t : Tier) : Act bool
| AErase (id : BlockId) (t : Tier) : Act Z
| ALend (id : BlockId) (t : Tier) : Act (option Span)
| ARead (sp : Span) : Act bytes
| AGetCopy (id : BlockId) : Act (option bytes)
| ATouch (id : BlockId) : Act Z
| AForget (id : BlockId) : Act unit
| AMark (id : BlockId) : Act unit
| AClear (id : BlockId) : Act unit
| AList (o : SnapOrder M D) (t : Tier) : Act (list BlockMeta)
| AVisited : Act (gset BlockId)
| AUsed (t : Tier) : Act Z
| ACapacity (t : Tier) : Act Z
| AReplicate (b : KvBlock) : Act unit.
Arguments Act M D {_ _}.

Section actions.
Context {M D : Type} `{TierStore M} `{TierStore D}.
Implicit Types s : Shared M D.

Definition with_st s (st : Tiered M D) : Shared M D := mkShared st (sh_erased s) (sh_out s).

Definition erased (t : Tier) (id : BlockId) s : nat := default 0%nat (sh_erased s !! (t, id)).

(** [erase] destroys the node of the block, if there is one. *)
Definition erase_node (id : BlockId) (t : Tier) s : Z * Shared M D :=
  let '(n, st) := EraseFromTier id t (sh_store s) in
  (n, mkShared st
        (match tier_get id t (sh_store s) with
         | Some _ => <[(t, id) := S (erased t id s)]> (sh_erased s)
         | None => sh_erased s
         end) (sh_out s)).

Definition bump (id : BlockId) (st : Tiered M D) : Z * Tiered M D :=
  let count := default 0 (t_access_counts st !! id) +₃₂ 1 in
  (count, with_books st (<[id := count]> (t_access_counts st)) ({[id]} ∪ t_visited st)).

Definition exec (R : Type) (a : Act M D R) s : option (R * Shared M D) :=
  let st := sh_store s in
  match a in Act _ _ R return option (R * Shared M D) with
  | APut b t => let '(ok, st') := PutToTier b t st in Some (ok, with_st s st')
  | AErase id t => Some (erase_node id t s)
  | ALend id t => Some ((λ d, mkSpan t id (erased t id s) d) <$> tier_get id t st, s)
  | ARead sp => if (sp_erased sp =? erased (sp_tier sp) (sp_id sp) s)%nat then Some (sp_bytes sp, s) else None
  | AGetCopy id => Some (tier_get id SSD st, s)
  | ATouch id => let '(n, st') := bump id st in Some (n, with_st s st')
  | AForget id =>
      Some (tt, with_st s (with_books st (delete id (t_access_counts st)) (t_visited st ∖ {[id]})))
  | AMark id => Some (tt, with_st s (MarkVisited id st))
  | AClear id => Some (tt, with_st s (ClearVisited id st))
  | AList o t =>
      Some (match t with
            | HBM => from_option (ts_snapshot (so_mem o)) [] (t_hbm st)
            | DRAM => from_option (ts_snapshot (so_mem o)) [] (t_dram st)
            | SSD => from_option (ts_snapshot (so_disk o)) [] (t_ssd st)
            end, s)
  | AVisited => Some (t_visited st, s)
  | AUsed t => Some (used_bytes t st, s)
  | ACapacity t => Some (capacity_bytes t st, s)
  | AReplicate b => Some (tt, mkShared st (sh_erased s) (sh_out s ++ [b]))
  end.

(** ** The operations *)

Open Scope prog_scope.

Definition perform {R} (a : Act M D R) : prog (Act M D) R := call a.

(** [bytes.assign(span->begin(), span->end())]. *)
Definition read_lent (id : BlockId) (t : Tier) : prog (Act M D) (option bytes) :=
  let! sp := perform (ALend id t) in
  match sp with
  | None => Ret None
  | Some sp => let! d := perform (ARead sp) in Ret (Some d)
  end.

Section config.
Context (cfg : TieredStoreConfig) (has_hbm : bool).

Definition probe_prog (id : BlockId) : prog (Act M D) (Tier * bytes) :=
  let! x := read_lent id HBM in
  let r := match x with Some d => (HBM, d) | None => (SSD, []) end in
  let! r := (if bytes_empty r.2
        then let! x := read_lent id DRAM in Ret (match x with Some d => (DRAM, d) | None => r end)
        else Ret r) in
  if bytes_empty r.2
  then let! x := perform (AGetCopy id) in Ret (match x with Some d => (SSD, d) | None => r end)
  else Ret r.

Definition target_of (found : Tier) : Tier :=
  let target := match found with SSD => DRAM | _ => HBM end in
  match target, has_hbm with HBM, false => DRAM | _, _ => target end.

Definition promote_prog (id : BlockId) (found : Tier) (bs : bytes) (count : Z) : prog (Act M D) bool :=
  if enable_promotion cfg && (count >=? promotion_access_threshold cfg) && negb (bool_decide (found = HBM))
  then
    let target := target_of found in
    if bool_decide (target = found) then Ret false
    else
      let! ok := perform (APut (mkKvBlock id bs target 0) target) in
      if ok then let! _ := perform (AErase id found) in Ret true else Ret false
  else Ret false.

Definition get_prog (id : BlockId) : prog (Act M D) (option GetResult) :=
  let! r := probe_prog id in
  if bytes_empty r.2 && bool_decide (r.1 = SSD) then Ret None
  else
    let! count := perform (ATouch id) in
    let! promoted := promote_prog id r.1 r.2 count in
    Ret (Some (mkGetResult r.2 r.1 promoted)).
End config.

Fixpoint put_chain_prog (block : KvBlock) (row : list Tier) : prog (Act M D) (option Tier) :=
  match row with
  | [] => Ret None
  | candidate :: row =>
      let! ok := perform (APut block candidate) in
      if ok then Ret (Some candidate)
      else if bool_decide (candidate = SSD) then Ret None
      else put_chain_prog block row
  end.

Definition put_prog (block : KvBlock) (hint : Tier) : prog (Act M D) (option Tier) :=
  put_chain_prog block (fallthrough hint).

(** The span is read again for the second copy. *)
Definition demote_prog (id : BlockId) : prog (Act M D) bool :=
  let! h := perform (ALend id HBM) in
  match h with
  | Some sp =>
      let! d := perform (ARead sp) in
      let! ok := perform (APut (demoted id d DRAM) DRAM) in
      if ok then let! _ := perform (AErase id HBM) in Ret true
      else
        let! d2 := perform (ARead sp) in
        let! ok2 := perform (APut (demoted id d2 SSD) SSD) in
        if ok2 then let! _ := perform (AErase id HBM) in Ret true else Ret false
  | None =>
      let! m := perform (ALend id DRAM) in
      match m with
      | Some sp =>
          let! d := perform (ARead sp) in
          let! ok := perform (APut (demoted id d SSD) SSD) in
          if ok then let! _ := perform (AErase id DRAM) in Ret true else Ret false
      | None => Ret false
      end
  end.

Definition erase_prog (id : BlockId) : prog (Act M D) Z :=
  let! f1 := perform (AErase id HBM) in
  let! f2 := perform (AErase id DRAM) in
  let! f3 := perform (AErase id SSD) in
  let! _ := perform (AForget id) in
  Ret (0 +₆₄ f1 +₆₄ f2 +₆₄ f3).

(** The tier's lock, then that of the visited bits. *)
Definition snapshot_prog (o : SnapOrder M D) (t : Tier) : prog (Act M D) (list BlockMeta) :=
  let! out := perform (AList o t) in
  match out with
  | [] => Ret []
  | _ => let! v := perform AVisited in Ret (overlay_visited v <$> out)
  end.
End actions.

(** ** What no action changes *)

#[global] Arguments PutToTier : simpl never.
#[global] Arguments EraseFromTier : simpl never.
#[global] Arguments tier_get : simpl never.

Section frame.
Context {M D : Type} `{TierStore M} `{TierStore D}.
Implicit Types (s : Shared M D) (st : Tiered M D).

Definition hbm_exists st : bool := match t_hbm st with Some _ => true | None => false end.

(** The configuration and the tiers that there are. *)
Definition fixed st : TieredStoreConfig * bool := (t_cfg st, hbm_exists st).

Lemma PutToTier_fixed b t st : fixed (PutToTier b t st).2 = fixed st.
Proof.
  unfold PutToTier, fixed, hbm_exists. destruct t.
  - destruct (t_hbm st) eqn:E; [by destruct (ts_put b _)|cbn; by rewrite E].
  - destruct (t_dram st); [by destruct (ts_put b _)|done].
  - destruct (t_ssd st); [by destruct (ts_put b _)|done].
Qed.

Lemma EraseFromTier_fixed id t st : fixed (EraseFromTier id t st).2 = fixed st.
Proof.
  unfold EraseFromTier, fixed, hbm_exists. destruct t.
  - destruct (t_hbm st) eqn:E; [by destruct (ts_erase id _)|cbn; by rewrite E].
  - destruct (t_dram st); [by destruct (ts_erase id _)|done].
  - destruct (t_ssd st); [by destruct (ts_erase id _)|done].
Qed.

Lemma exec_fixed R (a : Act M D R) s r s' :
  exec R a s = Some (r, s') → fixed (sh_store s') = fixed (sh_store s).
Proof.
  destruct a as [b t|id t| | | | | | | | | | | |]; cbn [exec]; try (by intros [= _ <-]).
  - pose proof (PutToTier_fixed b t (sh_store s)) as Hf. destruct (PutToTier b t (sh_store s)). by intros [= _ <-].
  - unfold erase_node. pose proof (EraseFromTier_fixed id t (sh_store s)) as Hf.
    destruct (EraseFromTier id t (sh_store s)). by intros [= _ <-].
  - case_match; [by intros [= _ <-]|done].
Qed.

Lemma run_fixed {A} (p : prog (Act M D) A) s a s' :
  run exec p s = Some (a, s') → fixed (sh_store s') = fixed (sh_store s).
Proof.
  revert s. induction p as [x|R act k IH]; intros s; cbn [run]; [by intros [= _ <-]|].
  destruct (exec R act s) as [[r s1]|] eqn:E; [|done]. cbn. intros H1%IH. rewrite H1. by eapply exec_fixed.
Qed.
End frame.

(** ** A thread that runs alone *)

Section alone.
Context {M D : Type} `{TierStore M} `{TierStore D}.
Implicit Types (s : Shared M D) (st : Tiered M D).

(** [p] answers [r] and leaves the store [st]. *)
Definition alone {A} (p : prog (Act M D) A) s (r : A * Tiered M D) : Prop :=
  ∃ g, run exec p s = Some (r.1, mkShared r.2 g (sh_out s)).

Lemma alone_ret {A} (a : A) s : alone (Ret a) s (a, sh_store s).
Proof. exists (sh_erased s). by destruct s. Qed.

Lemma alone_bind {A B} (p : prog (Act M D) A) (f : A → prog (Act M D) B) s a st' r :
  alone p s (a, st') → (∀ s', sh_store s' = st' → sh_out s' = sh_out s → alone (f a) s' r) → alone (pbind p f) s r.
Proof.
  intros [g E] Hf. destruct (Hf (mkShared st' g (sh_out s)) eq_refl eq_refl) as [g' E'].
  exists g'. by rewrite run_bind, E.
Qed.

Lemma alone_put b t s : alone (perform (APut b t)) s (PutToTier b t (sh_store s)).
Proof. exists (sh_erased s). cbn. by destruct (PutToTier b t (sh_store s)). Qed.

Lemma alone_erase id t s : alone (perform (AErase id t)) s (EraseFromTier id t (sh_store s)).
Proof. eexists. cbn. unfold erase_node. by destruct (EraseFromTier id t (sh_store s)). Qed.

Lemma alone_lent id t s : alone (read_lent id t) s (tier_get id t (sh_store s), sh_store s).
Proof.
  exists (sh_erased s). cbn. destruct (tier_get id t (sh_store s)); cbn; rewrite ?Nat.eqb_refl; by destruct s.
Qed.

Lemma alone_pair {A B} (p : prog (Act M D) A) (f : A → prog (Act M D) B) s (x : A * Tiered M D) r :
  alone p s x → (∀ s', sh_store s' = x.2 → sh_out s' = sh_out s → alone (f x.1) s' r) → alone (pbind p f) s r.
Proof. destruct x. apply alone_bind. Qed.

Lemma alone_fixed {A} (p : prog (Act M D) A) s x : alone p s x → fixed x.2 = fixed (sh_store s).
Proof. intros [g E]. apply (run_fixed _ _ _ _ E). Qed.

Lemma alone_get id cfg has_hbm s :
  fixed (sh_store s) = (cfg, has_hbm) →
  alone (get_prog cfg has_hbm id) s (Get id (sh_store s)).
Proof.
  intros [= Hcfg Hh]. unfold get_prog, Get.
  assert (alone (probe_prog id) s (probe id (sh_store s), sh_store s)) as Hp.
  { unfold probe_prog, probe. eapply alone_bind; [apply alone_lent|]. intros s1 E1 O1.
    set (r := match tier_get id HBM _ with Some d => _ | None => _ end). cbn zeta.
    set (r' := if bytes_empty r.2 then match tier_get id DRAM (sh_store s) with Some sp => _ | None => r end else r).
    apply alone_bind with r' (sh_store s).
    - unfold r'. destruct (bytes_empty r.2); [|rewrite <- E1; apply alone_ret]. rewrite <- E1.
      eapply alone_bind; [apply alone_lent|]. intros s2 <- O2. apply alone_ret.
    - intros s2 E2 O2. destruct (bytes_empty r'.2); [|rewrite <- E2; apply alone_ret].
      exists (sh_erased s2). cbn. rewrite E2, <- E2. by destruct s2. }
  eapply alone_bind; [exact Hp|]. intros s1 E1 O1. clear Hp.
  destruct (probe id (sh_store s)) as [found bs]. cbn [fst snd].
  destruct (bytes_empty bs && _); [rewrite <- E1; apply alone_ret|].
  apply alone_bind with (bump id (sh_store s)).1 (bump id (sh_store s)).2.
  { exists (sh_erased s1). cbn. by rewrite E1. }
  intros s2 E2 O2. cbn [bump fst snd] in E2 |- *. set (count := default 0 _ +₃₂ 1) in *. rewrite <- E2.
  assert (alone (promote_prog cfg has_hbm id found bs count) s2 (promote id found bs count (sh_store s2))) as Hp.
  { unfold promote_prog, promote. replace (t_cfg (sh_store s2)) with cfg by (by rewrite E2).
    destruct (enable_promotion cfg && _ && _); [|apply alone_ret].
    replace (promotion_target found (sh_store s2)) with (target_of has_hbm found).
    2:{ unfold promotion_target, target_of. rewrite E2. cbn [with_books t_hbm].
        rewrite <- Hh. unfold hbm_exists. by destruct (t_hbm (sh_store s)), found. }
    destruct (bool_decide (target_of has_hbm found = found)); [apply alone_ret|].
    eapply alone_pair; [apply alone_put|]. intros s3 E3 O3. destruct (PutToTier _ _ (sh_store s2)) as [[] st3];
      cbn [fst snd] in *; [|rewrite <- E3; apply alone_ret].
    eapply alone_pair; [apply alone_erase|]. intros s4 E4 O4. rewrite <- E3, <- E4. apply alone_ret. }
  eapply alone_pair; [exact Hp|]. intros s3 E3 O3. destruct (promote _ _ _ _ (sh_store s2)) as [pr st3].
  cbn [fst snd] in *. subst st3. apply alone_ret.
Qed.

Lemma alone_put_chain b row s : alone (put_chain_prog b row) s (put_chain b row (sh_store s)).
Proof.
  revert s. induction row as [|t row IH]; intros s; [apply alone_ret|]. cbn [put_chain_prog put_chain].
  eapply alone_pair; [apply alone_put|]. intros s1 E1 O1. destruct (PutToTier b t (sh_store s)) as [[] st1];
    cbn [fst snd] in *; subst st1; [apply alone_ret|].
  destruct (bool_decide (t = SSD)); [apply alone_ret|apply IH].
Qed.

Lemma alone_demote id s : alone (demote_prog id) s (Demote id (sh_store s)).
Proof.
  unfold alone, demote_prog, Demote. destruct s as [st er out]. cbn [sh_store sh_out].
  destruct (tier_get id HBM st) as [d|] eqn:E1; cbn; rewrite E1; cbn.
  - rewrite Nat.eqb_refl. cbn. destruct (PutToTier _ DRAM st) as [[] st1] eqn:E2; cbn.
    + unfold erase_node. cbn. destruct (EraseFromTier id HBM st1). by eexists.
    + unfold erased. cbn. rewrite Nat.eqb_refl. cbn.
      destruct (PutToTier _ SSD st1) as [[] st2]; cbn; [|by eexists].
      unfold erase_node. cbn. destruct (EraseFromTier id HBM st2). by eexists.
  - destruct (tier_get id DRAM st) as [d|] eqn:E2; cbn; [|by eexists].
    rewrite Nat.eqb_refl. cbn. destruct (PutToTier _ SSD st) as [[] st1]; cbn; [|by eexists].
    unfold erase_node. cbn. destruct (EraseFromTier id DRAM st1). by eexists.
Qed.

Lemma alone_erase_all id s : alone (erase_prog id) s (Erase id (sh_store s)).
Proof.
  unfold erase_prog, Erase.
  eapply alone_pair; [apply alone_erase|]. intros s1 E1 _. destruct (EraseFromTier id HBM _) as [f1 st1].
  cbn [fst snd] in *. subst st1. eapply alone_pair; [apply alone_erase|]. intros s2 E2 _.
  destruct (EraseFromTier id DRAM _) as [f2 st2]. cbn [fst snd] in *. subst st2.
  eapply alone_pair; [apply alone_erase|]. intros s3 E3 _. destruct (EraseFromTier id SSD _) as [f3 st3].
  cbn [fst snd] in *. subst st3. by eexists.
Qed.

Lemma alone_snapshot o t s : alone (snapshot_prog o t) s (Snapshot o t (sh_store s), sh_store s).
Proof.
  exists (sh_erased s). unfold snapshot_prog, Snapshot. destruct s as [st er out].
  cbn [pbind perform call run exec mbind option_bind sh_store sh_erased sh_out].
  by destruct (match t with HBM => _ | DRAM => _ | SSD => _ end).
Qed.
End alone.
