(* ===== verification/NodeThreads.v ===== *)
(** * The operations of a node on its store, at the granularity of the locks

    The request handlers (cache.cpp) and the eviction thread (eviction.cpp) call
    the tiered store from many threads at once.  Their bodies are programs over
    the actions of [StoreThreads]; alone they are [Lookup], [Insert] and
    [RunPassForTier].  Every operation ends after a bounded number of actions,
    whatever the other threads do. *)
From S2P Require Import Prelude Types TierStore BlockStore SsdBlockStore TieredStore Routing.
From S2P Require Import Eviction Membership Replication Cache Threads StoreThreads.

Section programs.
Context {M D : Type} `{TierStore M} `{TierStore D}.
Open Scope prog_scope.

(** ** The eviction pass *)

(** The local variables of the walk. *)
Record Walk : Type := mkWalk {
  wk_blocks : list BlockMeta;
  wk_hand : nat;
  wk_freed : Z;
  wk_evicted : list BlockId
}.

Definition victim_prog (tier : Tier) (meta : BlockMeta) : prog (Act M D) Z :=
  let! demoted := (if bool_decide (tier = SSD) then Ret false else demote_prog (m_id meta)) in
  if demoted then Ret (m_size_bytes meta) else erase_prog (m_id meta).

Definition walk_step (tier : Tier) (w : Walk) : prog (Act M D) Walk :=
  let hand := if (length (wk_blocks w) <=? wk_hand w)%nat then 0%nat else wk_hand w in
  let meta := wk_blocks w !!! hand in
  if m_visited meta
  then
    let! _ := perform (AClear (m_id meta)) in
    Ret (mkWalk (<[hand := set_visited false meta]> (wk_blocks w)) (S hand) (wk_freed w) (wk_evicted w))
  else
    let! removed := victim_prog tier meta in
    Ret (mkWalk (wk_blocks w) (S hand) (wk_freed w +₆₄ removed) (wk_evicted w ++ [m_id meta])).

Fixpoint walk_prog (tier : Tier) (need : Z) (fuel : nat) (w : Walk) : prog (Act M D) Walk :=
  match fuel with
  | O => Ret w
  | S fuel =>
      if wk_freed w <? need then let! w' := walk_step tier w in walk_prog tier need fuel w' else Ret w
  end.

(** The hand and the stubs belong to the evictor. *)
Definition pass_prog (cfg : EvictionConfig) (has_metrics : bool) (peers : Peers) (local_node_id : string)
    (o : SnapOrder M D) (tier : Tier) (e : EvictorState) :
    prog (Act M D) (PassResult * list PassEffect * EvictorState) :=
  let! cap := perform (ACapacity tier) in
  let! used := perform (AUsed tier) in
  let eff1 := if has_metrics && (cap >? 0) then [RecordTierUsage tier used cap] else [] in
  if (cap =? 0) || (used =? 0) then Ret (no_pass, eff1, e)
  else
    let high := (cap *₆₄ high_watermark_pct cfg) / 100 in
    let low := (cap *₆₄ low_watermark_pct cfg) / 100 in
    if used <=? high then Ret (no_pass, eff1, e)
    else
      let! blocks := snapshot_prog o tier in
      match blocks with
      | [] => Ret (no_pass, eff1, e)
      | _ =>
          let need := used -₆₄ low in
          let! w := walk_prog tier need (length blocks * 2) (mkWalk blocks (hand_of tier e) 0 []) in
          let evicted := wk_evicted w in
          let n := length evicted in
          let e1 := set_hand tier (wk_hand w) e in
          let eff2 := if has_metrics && (0 <? n)%nat then [RecordEvictionPass n (wk_freed w)] else [] in
          let broadcast := broadcast_evictions cfg && (0 <? n)%nat in
          let '(eff3, e2) :=
            match broadcast, peers with
            | true, Some (addresses, epoch) =>
                match addresses with
                | [] => ([], e1)
                | _ => BroadcastEvictionsToPeers addresses local_node_id epoch evicted e1
                end
            | _, _ => ([], e1)
            end in
          Ret (mkPassResult (if bool_decide (tier = HBM) then n else 0)
                 (if bool_decide (tier = DRAM) then n else 0)
                 (if bool_decide (tier = SSD) then n else 0)
                 (wk_freed w) (if broadcast then n else 0),
               eff1 ++ eff2 ++ eff3, e2)
      end.

(** ** The request handlers *)

(** One id of [Lookup]; the ring does not change during the request. *)
Definition lookup_one_prog (cfg : TieredStoreConfig) (has_hbm : bool) (r : Router) (node_id : string)
    (id : BlockId) : prog (Act M D) Entry :=
  let! got := get_prog cfg has_hbm id in
  Ret (match got with
       | Some g => mkEntry id LocalHit None (gr_tier_found g) (gr_data g)
       | None =>
           let route := Route id r in
           if negb (String.eqb (primary route) "") && negb (String.eqb (primary route) node_id)
           then mkEntry id RemoteHit (Some (primary route)) DRAM []
           else mkEntry id Miss None DRAM []
       end).

Fixpoint lookup_prog (cfg : TieredStoreConfig) (has_hbm : bool) (r : Router) (node_id : string)
    (ids : list BlockId) (res : LookupResult) : prog (Act M D) LookupResult :=
  match ids with
  | [] => Ret res
  | id :: ids =>
      let! e := lookup_one_prog cfg has_hbm r node_id id in
      lookup_prog cfg has_hbm r node_id ids
        (mkLookupResult (lr_entries res ++ [e])
           (if is_hit e then lr_hit_count res +₃₂ 1 else lr_hit_count res)
           (if is_hit e then lr_miss_count res else lr_miss_count res +₃₂ 1))
  end.

(** Three counters, read one after the other. *)
Definition total_used_prog : prog (Act M D) Z :=
  let! h := perform (AUsed HBM) in
  let! d := perform (AUsed DRAM) in
  let! s := perform (AUsed SSD) in
  Ret (h +₆₄ d +₆₄ s).

Fixpoint insert_prog (blocks : list KvBlock) (accepted : Z) : prog (Act M D) Z :=
  match blocks with
  | [] => Ret accepted
  | blk :: blocks =>
      let! before := total_used_prog in
      let! landed := put_prog blk (kv_tier blk) in
      match landed with
      | None => insert_prog blocks accepted
      | Some _ =>
          let! after := total_used_prog in
          if after >? before
          then let! _ := perform (AReplicate blk) in insert_prog blocks (accepted +₃₂ 1)
          else insert_prog blocks accepted
      end
  end.
End programs.

(** ** Alone *)

Section alone.
Context {M D : Type} `{TierStore M} `{TierStore D}.
Implicit Types (s : Shared M D) (st : Tiered M D).

Lemma alone_victim t meta s : alone (victim_prog t meta) s (evict_victim t meta (sh_store s)).
Proof.
  unfold victim_prog, evict_victim. destruct (bool_decide (t = SSD)).
  - eapply alone_pair; [apply alone_ret|]. intros s1 E1 _. cbn [fst snd] in *. rewrite <- E1. apply alone_erase_all.
  - eapply alone_pair; [apply alone_demote|]. intros s1 E1 _.
    destruct (Demote (m_id meta) (sh_store s)) as [[] st1]; cbn [fst snd] in *; subst st1;
      [apply alone_ret|apply alone_erase_all].
Qed.

(** The walk of the sequential pass, without the store. *)
Definition walk_of (v : Sieve M D) : Walk := mkWalk (sv_blocks v) (sv_hand v) (sv_freed v) (sv_evicted v).

Lemma alone_walk t need fuel (v : Sieve M D) s :
  sh_store s = sv_store v →
  alone (walk_prog t need fuel (walk_of v)) s
    (walk_of (sieve_loop t need fuel v), sv_store (sieve_loop t need fuel v)).
Proof.
  revert v s. induction fuel as [|fuel IH]; intros v s E; cbn [walk_prog sieve_loop].
  - rewrite <- E. apply alone_ret.
  - cbn [walk_of wk_freed]. destruct (sv_freed v <? need); [|rewrite <- E; apply alone_ret].
    apply alone_bind with (walk_of (sieve_step t v)) (sv_store (sieve_step t v)); [|intros s1 E1 _; by apply IH].
    unfold walk_step, sieve_step. cbn [walk_of wk_blocks wk_hand wk_freed wk_evicted].
    destruct (m_visited _).
    + exists (sh_erased s). cbn. by rewrite E.
    + eapply alone_pair; [apply alone_victim|]. intros s1 E1 _. rewrite E in *.
      destruct (evict_victim t _ (sv_store v)) as [n st1]. cbn [fst snd sv_store] in *. subst st1. apply alone_ret.
Qed.

Lemma alone_same {R} (a : Act M D R) r s : exec R a s = Some (r, s) → alone (perform a) s (r, sh_store s).
Proof. intros E. exists (sh_erased s). cbn. rewrite E. by destruct s. Qed.

Lemma alone_pass cfg mt peers local o t e s :
  alone (pass_prog cfg mt peers local o t e) s (RunPassForTier cfg mt peers local o t e (sh_store s)).
Proof.
  unfold pass_prog, RunPassForTier.
  eapply alone_bind; [by apply alone_same|]. intros s1 E1 _.
  eapply alone_bind; [by apply alone_same|]. intros s2 E2 _. rewrite E1 in *. rewrite <- E2. clear s1 E1 E2.
  destruct (_ || _); [apply alone_ret|]. destruct (_ <=? _); [apply alone_ret|].
  eapply alone_bind; [apply alone_snapshot|]. intros s1 E1 _.
  destruct (Snapshot o t (sh_store s2)) as [|m ms] eqn:Es; [rewrite <- E1; apply alone_ret|].
  set (v0 := mkSieve (sh_store s2) (m :: ms) (hand_of t e) 0 []).
  eapply alone_bind; [apply (alone_walk t _ _ v0 s1 E1)|]. intros s3 E3 _.
  cbn [walk_of wk_evicted wk_hand wk_freed]. match goal with |- context [let '(_, _) := ?x in _] => destruct x end.
  rewrite <- E3. apply alone_ret.
Qed.

End alone.

Section requests.
Implicit Types s : Shared BlockStore SsdBlockStore.

Lemma lookup_one_store r local id (st : TieredStore) : (lookup_one r local id st).2 = (TieredStore.Get id st).2.
Proof. unfold lookup_one. destruct (TieredStore.Get id st) as [[g|] st']; [done|]. by destruct (negb _ && negb _). Qed.

Lemma alone_lookup cfg has_hbm r local ids res s :
  fixed (sh_store s) = (cfg, has_hbm) →
  alone (lookup_prog cfg has_hbm r local ids res) s (fold_left (lookup_step r local) ids (res, sh_store s)).
Proof.
  revert res s. induction ids as [|id ids IH]; intros res s Hf; cbn [lookup_prog fold_left]; [apply alone_ret|].
  apply alone_bind with (lookup_one r local id (sh_store s)).1 (lookup_one r local id (sh_store s)).2.
  - unfold lookup_one_prog, lookup_one. pose proof (alone_get id cfg has_hbm s Hf) as Hg.
    eapply alone_pair; [exact Hg|]. intros s1 E1 _. destruct (TieredStore.Get id (sh_store s)) as [got st1].
    cbn [fst snd] in *. subst st1. destruct got; [apply alone_ret|]. destruct (negb _ && negb _); apply alone_ret.
  - intros s1 E1 _. unfold lookup_step at 2. destruct (lookup_one r local id (sh_store s)) as [e st1] eqn:E.
    cbn [fst snd] in *. subst st1. apply IH. rewrite <- Hf.
    rewrite <- (alone_fixed _ _ _ (alone_get id cfg has_hbm s Hf)), <- lookup_one_store with (r := r) (local := local).
    by rewrite E.
Qed.

Lemma alone_total_used s : alone total_used_prog s (total_used (sh_store s), sh_store s).
Proof. exists (sh_erased s). by destruct s. Qed.

(** What the replicator makes of the blocks that it is handed. *)
Definition replicated (local : string) (r : Router) (bs : list KvBlock) (p : ReplicatorPoolState) :
    ReplicatorPoolState :=
  fold_left (λ p b, (ReplicateOut true local (Some r) b p).2) bs p.

(** The blocks of an insert that are handed over change nothing in the store. *)
Lemma run_insert blocks n c s :
  sh_store s = lc_store c →
  ∃ g out, let '(n', c') := fold_left insert_step blocks (n, c) in
    run exec (insert_prog blocks n) s = Some (n', mkShared (lc_store c') g (sh_out s ++ out)) ∧
    lc_pool c' = replicated (cc_node_id (lc_cfg c)) (lc_router c) out (lc_pool c).
Proof.
  revert n c s. induction blocks as [|b blocks IH]; intros n c s E; cbn [fold_left insert_prog].
  - exists (sh_erased s), []. rewrite app_nil_r, <- E. by destruct s.
  - destruct (alone_total_used s) as [g1 R1]. cbn [fst snd] in R1. rewrite E in R1.
    set (s1 := mkShared (lc_store c) g1 (sh_out s)) in *.
    destruct (alone_put_chain b (fallthrough (kv_tier b)) s1) as [g2 R2]. cbn [sh_store sh_out s1] in R2.
    unfold insert_step at 2. unfold TieredStore.Put, put_prog.
    destruct (put_chain b (fallthrough (kv_tier b)) (lc_store c)) as [landed st'] eqn:Ep. cbn [fst snd] in R2.
    set (s2 := mkShared st' g2 (sh_out s)) in *.
    rewrite run_bind. rewrite R1. cbn [mbind option_bind]. rewrite run_bind. rewrite R2.
    cbn [mbind option_bind]. destruct landed as [t|]; [|apply (IH n (with_store c st') s2 eq_refl)].
    destruct (alone_total_used s2) as [g3 R3]. cbn [fst snd sh_store sh_out s2] in R3.
    rewrite run_bind. rewrite R3. cbn [mbind option_bind].
    destruct (total_used st' >? total_used (lc_store c)).
    + cbn [pbind perform call run exec mbind option_bind sh_store sh_erased sh_out].
      set (c1 := with_pool _ _).
      destruct (IH (n +₃₂ 1) c1 (mkShared st' g3 (sh_out s ++ [b])) eq_refl) as (g & out & Hr).
      exists g, (b :: out). destruct (fold_left insert_step blocks (n +₃₂ 1, c1)) as [n' c'].
      cbn [sh_out] in Hr. rewrite <- app_assoc in Hr. exact Hr.
    + apply (IH n (with_store c st') (mkShared st' g3 (sh_out s)) eq_refl).
Qed.
End requests.
