(* ===== verification/Interleaving.v ===== *)
(** * Every interleaving of the operations on the store

    Threads that look up, insert, demote, erase and evict take turns at the
    granularity of the locks.  The theorems hold for every schedule: what is
    read is right, blocks that only move one way are kept, requests to a server
    without a GPU tier never read freed memory, and every operation ends.  The
    concrete schedules at the end show what the code does not promise. *)
From S2P Require Import Prelude Types TierStore BlockStore SsdBlockStore TieredStore Routing.
From S2P Require Import Eviction Membership Replication Cache Threads StoreThreads NodeThreads.

Section operations.
Context {M D : Type} `{TierStore M} `{TierStore D}.

Inductive Op : Type :=
| OGet (id : BlockId)
| OPut (b : KvBlock) (hint : Tier)
| ODemote (id : BlockId)
| OErase (id : BlockId)
| OLookup (r : Router) (node_id : string) (ids : list BlockId)
| OInsert (blocks : list KvBlock)
| OEvict (cfg : EvictionConfig) (mt : bool) (peers : Peers) (local : string) (o : SnapOrder M D)
    (t : Tier) (e : EvictorState).

Inductive Reply : Type :=
| RGet (g : option GetResult)
| RPut (t : option Tier)
| RDemote (ok : bool)
| RErase (n : Z)
| RLookup (res : LookupResult)
| RInsert (accepted : Z)
| REvict (res : PassResult * list PassEffect * EvictorState).

Open Scope prog_scope.

Definition op_prog (cfg : TieredStoreConfig) (has_hbm : bool) (o : Op) : prog (Act M D) Reply :=
  match o with
  | OGet id => let! g := get_prog cfg has_hbm id in Ret (RGet g)
  | OPut b hint => let! t := put_prog b hint in Ret (RPut t)
  | ODemote id => let! ok := demote_prog id in Ret (RDemote ok)
  | OErase id => let! n := erase_prog id in Ret (RErase n)
  | OLookup r node_id ids =>
      let! res := lookup_prog cfg has_hbm r node_id ids (mkLookupResult [] 0 0) in Ret (RLookup res)
  | OInsert blocks => let! n := insert_prog blocks 0 in Ret (RInsert n)
  | OEvict ecfg mt peers local o t e =>
      let! res := pass_prog ecfg mt peers local o t e in Ret (REvict res)
  end.
End operations.
Arguments Op M D {_ _}.

(** ** What a schedule is about *)

Inductive Direction : Type := Up | Down.

(** The tier to which blocks move. *)
Definition better (d : Direction) (t' t : Tier) : Prop :=
  match d with Up => Tier_to_Z t' < Tier_to_Z t | Down => Tier_to_Z t < Tier_to_Z t' end.

(** [md_dir]: blocks move only this way, and none is erased otherwise;
    [md_lent]: nothing is erased from a memory tier. *)
Record Mode : Type := mkMode { md_dir : option Direction; md_lent : bool }.

Section safety.
Context {M D : Type} `{TierStoreSpec M} `{TierStoreSpec D}.
Context (payload : BlockId → bytes) (cfg : TieredStoreConfig) (has_hbm : bool) (cap : Tier → Z).
Implicit Types s : Shared M D.

Definition has (t : Tier) (id : BlockId) s : Prop := is_Some (tier_contents t (sh_store s) !! id).

(** What a tier may hold under an identity. *)
Definition proper (id : BlockId) (d : bytes) : Prop :=
  d = payload id ∧ d ≠ [] ∧ BlockId_wf id ∧ size_of d < 2 ^ 63.

(** The tiers are well formed and hold right payloads. *)
Record good s : Prop := {
  gd_ok : tiers_ok (sh_store s);
  gd_blocks t id d : tier_contents t (sh_store s) !! id = Some d → proper id d;
  gd_fixed : fixed (sh_store s) = (cfg, has_hbm);
  gd_cap t : capacity_bytes t (sh_store s) = cap t
}.

(** A block that a tier holds stays there or is in a better one. *)
Definition kept (d : Direction) s s' : Prop :=
  ∀ id t, has t id s → ∃ t', (t' = t ∨ better d t' t) ∧ has t' id s'.

Definition lent_kept s s' : Prop := ∀ t id, t ≠ SSD → erased t id s' = erased t id s.

Section mode.
Context (md : Mode).

Definition related s s' : Prop :=
  (∀ d, md_dir md = Some d → kept d s s') ∧ (md_lent md = true → lent_kept s s').

#[export] Instance related_preorder : PreOrder related.
Proof.
  split.
  - intros s. split; [intros d _ id t Ht; eauto|done].
  - intros s1 s2 s3 [A1 B1] [A2 B2]. split.
    + intros d Hd id t (t' & Hb & Ht')%(A1 d Hd). apply (A2 d Hd) in Ht' as (t'' & Hb' & Ht'').
      exists t''. split; [|done]. unfold better in *. destruct d; destruct Hb, Hb'; subst; auto; right; lia.
    + intros Hl t id Ht. by rewrite (B2 Hl), (B1 Hl).
Qed.

(** When an action is allowed. *)
Definition allowed (R : Type) (a : Act M D R) s : Prop :=
  match a with
  | APut b _ => block_ok payload b
  | AErase id t =>
      (∀ d, md_dir md = Some d → ∃ t', better d t' t ∧ has t' id s) ∧ (md_lent md = true → t = SSD)
  | ARead sp => md_lent md = true → sp_erased sp = erased (sp_tier sp) (sp_id sp) s
  | _ => True
  end.

Lemma has_put b t s st' t' id :
  put_effect b t (sh_store s) st' → has t' id s → has t' id (with_st s st').
Proof.
  intros He [d Hd]. unfold has. cbn. rewrite (pe_contents _ _ _ _ He t'). case_decide; [subst t'|by exists d].
  destruct (decide (kv_id b = id)) as [<-|Hne]; [rewrite contents_put_lookup; eauto|].
  rewrite contents_put_lookup_ne by done. eauto.
Qed.

Lemma good_same s s' :
  good s → sh_store s' = sh_store s → good s'.
Proof. intros [] E. split; rewrite E; done. Qed.

Lemma good_books s c v : good s → good (with_st s (with_books (sh_store s) c v)).
Proof. intros [[] Hb Hf Hc]. split; [by split|exact Hb|exact Hf|exact Hc]. Qed.

Lemma related_books s c v : related s (with_st s (with_books (sh_store s) c v)).
Proof. split; [|done]. intros d _ id t Ht. exists t. split; [by left|]. by destruct t. Qed.

Lemma put_good b t s r s' :
  good s → block_ok payload b → exec _ (APut b t) s = Some (r, s') → good s' ∧ related s s'.
Proof.
  intros Hg (Hw & Hne & Hd) E. cbn in E. destruct (PutToTier b t (sh_store s)) as [[] st'] eqn:Ep; simplify_eq.
  - pose proof (PutToTier_true b t _ _ (gd_ok s Hg) Hw Ep) as He. split; [split|split].
    + apply He.
    + cbn. intros t' id d. rewrite (pe_contents _ _ _ _ He t'). case_decide; [subst t'|apply (gd_blocks s Hg)].
      unfold contents_put. case_match; [apply (gd_blocks s Hg)|].
      intros [[<- <-]|[_ ?]]%lookup_insert_Some; [|by eapply (gd_blocks s Hg)]. by destruct Hw.
    + cbn. pose proof (PutToTier_fixed b t (sh_store s)) as Hf. rewrite Ep in Hf. cbn in Hf. rewrite Hf. apply Hg.
    + intros t'. cbn. rewrite (sf_capacity _ _ (pe_frame _ _ _ _ He)). apply Hg.
    + intros d _ id t' Ht. exists t'. split; [by left|by eapply has_put].
    + done.
  - pose proof (PutToTier_false b t _ _ (gd_ok s Hg) Ep) as ->. split; [by eapply good_same|].
    split; [|done]. intros d _ id t' Ht. exists t'. auto.
Qed.

Lemma erase_good id t s r s' :
  good s → allowed _ (AErase id t) s → exec _ (AErase id t) s = Some (r, s') → good s' ∧ related s s'.
Proof.
  intros Hg [Hd Hl] E. cbn in E. unfold erase_node in E.
  destruct (EraseFromTier id t (sh_store s)) as [n st'] eqn:Ep. simplify_eq.
  pose proof (EraseFromTier_effect id t _ _ _ (gd_ok s Hg) Ep) as He. split; [split|split].
  - apply He.
  - cbn. intros t' x d. rewrite (ee_contents _ _ _ _ _ He t'). case_decide; [subst t'|apply (gd_blocks s Hg)].
    intros [_ Hx]%lookup_delete_Some. by apply (gd_blocks s Hg) in Hx.
  - cbn. pose proof (EraseFromTier_fixed id t (sh_store s)) as Hf. rewrite Ep in Hf. cbn in Hf. rewrite Hf. apply Hg.
  - intros t'. cbn. rewrite (sf_capacity _ _ (ee_frame _ _ _ _ _ He)). apply Hg.
  - assert (∀ t' x, (t', x) ≠ (t, id) → has t' x s → has t' x (mkShared st'
      (match tier_get id t (sh_store s) with
       | Some _ => <[(t, id):=S (erased t id s)]> (sh_erased s) | None => sh_erased s end) (sh_out s))) as Hh.
    { intros t' x Hne [d' Hx]. unfold has. cbn. rewrite (ee_contents _ _ _ _ _ He t').
      case_decide; [subst t'|by exists d']. rewrite lookup_delete_ne by congruence. by exists d'. }
    intros d Hdir x t' Hx. destruct (decide ((t', x) = (t, id))) as [[= -> ->]|Hne].
    + destruct (Hd d Hdir) as (t2 & Hb & Ht2). exists t2. split; [by right|]. apply Hh; [|done].
      intros [= ->]. unfold better in Hb. destruct d; lia.
    + exists t'. split; [by left|by apply Hh].
  - intros Hlent t' x Ht'. specialize (Hl Hlent). subst t. unfold erased. cbn.
    case_match; [|done]. by rewrite lookup_insert_ne by congruence.
Qed.

Lemma exec_good R (a : Act M D R) s r s' :
  good s → allowed R a s → exec R a s = Some (r, s') → good s' ∧ related s s'.
Proof.
  intros Hg Ha E. destruct a; try (cbn in E; simplify_eq; split; [done|reflexivity]).
  - by eapply put_good.
  - by eapply erase_good.
  - cbn in E. case_match; simplify_eq. split; [done|reflexivity].
  - cbn in E. simplify_eq. split; [by apply good_books|apply related_books].
  - cbn in E. simplify_eq. split; [by apply good_books|apply related_books].
  - cbn in E. simplify_eq. split; [by apply good_books|apply related_books].
  - cbn in E. simplify_eq. split; [by apply good_books|apply related_books].
  - cbn in E. simplify_eq. split; [by eapply good_same|]. split; [|done].
    intros d _ x t Ht. exists t. auto.
Qed.

(** ** The programs in company *)

Local Notation secure := (safe exec good related allowed).

Lemma secure_bind {A B} (Q : B → Shared M D → Prop) (P : A → Shared M D → Prop) p (f : A → prog (Act M D) B) s :
  secure P p s → (∀ a s1, related s s1 → good s1 → P a s1 → secure Q (f a) s1) → secure Q (pbind p f) s.
Proof.
  intros Hp Hf. apply safe_bind; [apply _|]. eapply safe_mono; [apply _|apply exec_good|exact Hp|done].
Qed.

Lemma secure_ret {A} (Q : A → Shared M D → Prop) a s :
  (∀ s1, related s s1 → good s1 → Q a s1) → secure Q (Ret a) s.
Proof. done. Qed.

(** Actions that change nothing and need nothing. *)
Lemma secure_free {R B} (Q : B → Shared M D → Prop) (a : Act M D R) (f : R → prog (Act M D) B) s :
  (∀ s1, allowed R a s1) → (∀ r s1, good s1 → secure Q (f r) s1) → secure Q (pbind (perform a) f) s.
Proof.
  intros Ha Hf s1 Hr Hg. split; [apply Ha|]. intros r s2 E.
  destruct (exec_good R a s1 r s2 Hg (Ha s1) E). by apply Hf.
Qed.

Lemma tier_get_proper id t s d : good s → tier_get id t (sh_store s) = Some d → proper id d ∧ has t id s.
Proof.
  intros Hg E. rewrite tier_get_contents in E by apply Hg. split; [by eapply (gd_blocks s Hg)|by exists d].
Qed.

Lemma tier_get_hbm id s d : good s → tier_get id HBM (sh_store s) = Some d → has_hbm = true.
Proof.
  intros Hg E. pose proof (gd_fixed s Hg) as Hf. unfold fixed, hbm_exists in Hf. unfold tier_get in E.
  by destruct (t_hbm (sh_store s)); simplify_eq.
Qed.

Definition seen (id : BlockId) (t : Tier) (d : bytes) : Prop := proper id d ∧ (t = HBM → has_hbm = true).

Lemma secure_lent id t s :
  t ≠ SSD → secure (λ x _, ∀ d, x = Some d → seen id t d) (read_lent id t) s.
Proof.
  intros Ht s1 Hr Hg. split; [done|]. intros r s2 E. cbn in E. simplify_eq.
  destruct (tier_get id t (sh_store s2)) as [d|] eqn:E; cbn [fmap option_fmap option_map pbind]; [|done].
  intros s3 Hr3 Hg3. split; [intros Hl; symmetry; by apply Hr3|].
  intros r s4 E4. cbn in E4. case_match; simplify_eq. intros s5 _ _ d' [= ->]. split.
  - by destruct (tier_get_proper _ _ _ _ Hg E).
  - intros ->. exact (tier_get_hbm _ _ _ Hg E).
Qed.

Definition found_ok (id : BlockId) (r : Tier * bytes) : Prop :=
  match r.2 with [] => r.1 = SSD | _ => seen id r.1 r.2 end.

Lemma secure_probe id s : secure (λ r _, found_ok id r) (probe_prog id) s.
Proof.
  assert (∀ t d, seen id t d → found_ok id (t, d)) as Hseen.
  { intros t d Hs. unfold found_ok. cbn. destruct d; [|done]. by destruct Hs as [(_ & ? & _) _]. }
  eapply secure_bind; [by apply (secure_lent id HBM)|]. intros x s1 _ _ Hx. cbn beta in Hx.
  set (r := match x with Some d => (HBM, d) | None => (SSD, []) end).
  assert (found_ok id r) as Hr by (unfold r; destruct x; [by apply Hseen, Hx|done]). clearbody r. clear x Hx.
  apply secure_bind with (λ r' _, found_ok id r').
  - destruct (bytes_empty r.2); [|by apply secure_ret].
    eapply secure_bind; [by apply (secure_lent id DRAM)|]. intros x s2 _ _ Hx.
    apply secure_ret. intros _ _ _. destruct x; [by apply Hseen, Hx|done].
  - clear r Hr. intros r s2 _ _ Hr. destruct (bytes_empty r.2); [|by apply secure_ret].
    intros s3 _ Hg3. split; [done|]. intros x s4 E. cbn in E. simplify_eq. apply secure_ret. intros _ _ _.
    destruct (tier_get id SSD (sh_store s4)) as [d|] eqn:E; [|done]. apply Hseen. split; [|done].
    by destruct (tier_get_proper _ _ _ _ Hg3 E).
Qed.

(** When promotions are allowed. *)
Definition get_ok : Prop :=
  (md_dir md = Some Down → enable_promotion cfg = false) ∧ (md_lent md = true → has_hbm = false).

Lemma put_has b t s s' : good s → block_ok payload b → exec _ (APut b t) s = Some (true, s') → has t (kv_id b) s'.
Proof.
  intros Hg (Hw & _) E. cbn in E. destruct (PutToTier b t (sh_store s)) as [[] st'] eqn:Ep; simplify_eq.
  pose proof (PutToTier_true b t _ _ (gd_ok s Hg) Hw Ep) as He. unfold has. cbn.
  rewrite (pe_contents _ _ _ _ He t), decide_True by done. rewrite contents_put_lookup. eauto.
Qed.

(** A block that was put into a tier may be erased from a worse one. *)
Lemma move_allowed id from to s s' :
  has to id s → related s s' → (∀ d, md_dir md = Some d → better d to from) → (md_lent md = true → from = SSD) →
  allowed _ (AErase id from) s'.
Proof.
  intros Hh [Hk _] Hb Hl. split; [|done]. intros d Hd. destruct (Hk d Hd id to Hh) as (t' & Ht' & Hh').
  exists t'. split; [|done]. specialize (Hb d Hd). unfold better in *. destruct Ht' as [->|?]; [done|]. destruct d; lia.
Qed.

Lemma proper_block id d t : proper id d → block_ok payload (mkKvBlock id d t 0).
Proof. intros (-> & ? & ? & ?). split_and!; [by split|done|done]. Qed.

(** Put, then erase from the worse tier. *)
Lemma secure_move {B} (Q : B → Shared M D → Prop) id d from to (yes no : prog (Act M D) B) s :
  proper id d → (∀ d, md_dir md = Some d → better d to from) → (md_lent md = true → from = SSD) →
  (∀ s1, good s1 → secure Q yes s1) → (∀ s1, good s1 → secure Q no s1) →
  secure Q (pbind (perform (APut (mkKvBlock id d to 0) to))
    (λ ok : bool, if ok then pbind (perform (AErase id from)) (λ _, yes) else no)) s.
Proof.
  intros Hp Hb Hl Hy Hn s1 Hr Hg. pose proof (proper_block id d to Hp) as Hbl. split; [done|]. intros ok s2 E.
  destruct (exec_good _ _ _ _ _ Hg (Hbl : allowed _ (APut _ to) s1) E) as [Hg2 _].
  destruct ok; [|by apply Hn]. pose proof (put_has _ _ _ _ Hg Hbl E) as Hh.
  intros s3 Hr3 Hg3. assert (allowed _ (AErase id from) s3) as Ha by (by eapply move_allowed). split; [done|].
  intros n s4 E4. destruct (exec_good _ _ _ _ _ Hg3 Ha E4) as [Hg4 _]. by apply Hy.
Qed.

Lemma secure_promote id found bs count s :
  get_ok → seen id found bs → secure (λ _ _, True) (promote_prog cfg has_hbm id found bs count) s.
Proof.
  intros [Hd Hl] [Hp _]. unfold promote_prog.
  destruct (enable_promotion cfg) eqn:Een; cbn [andb]; [|done]. destruct (_ >=? _); cbn [andb]; [|done].
  case_bool_decide as Hf; cbn [negb]; [done|]. case_bool_decide as Ht; [done|].
  apply secure_move; [done| | |done|done].
  - intros [] Hdir; [|by specialize (Hd Hdir)]. unfold better, target_of in *. by destruct found, has_hbm.
  - intros Hlent. specialize (Hl Hlent). unfold target_of in Ht. rewrite Hl in Ht. by destruct found.
Qed.

Lemma secure_get id s :
  get_ok → secure (λ g _, ∀ x, g = Some x → gr_data x = payload id) (get_prog cfg has_hbm id) s.
Proof.
  intros Hok. eapply secure_bind; [apply secure_probe|]. intros [found bs] s1 _ _ Hf. cbn [fst snd].
  destruct (bytes_empty bs && bool_decide (found = SSD)) eqn:E; [done|].
  assert (seen id found bs) as Hs.
  { unfold found_ok in Hf. cbn in Hf. destruct bs; [|done]. cbn in E. by case_bool_decide. }
  apply secure_free; [done|]. intros count s2 _.
  eapply secure_bind; [by apply secure_promote|]. intros pr s3 _ _ _. apply secure_ret. intros _ _ _ x [= <-].
  by destruct Hs as [[] _].
Qed.

(** The block is somewhere, unless the mode promises nothing. *)
Definition stays (id : BlockId) s : Prop := md_dir md ≠ None → ∃ t, has t id s.

Lemma has_stays t id s s' : has t id s → related s s' → stays id s'.
Proof.
  intros Hh [Hk _] Hd. destruct (md_dir md) as [d|]; [|done]. destruct (Hk d eq_refl id t Hh) as (t' & _ & ?). eauto.
Qed.

Lemma secure_put b hint s :
  block_ok payload b → secure (λ r s, ∀ t, r = Some t → stays (kv_id b) s) (put_prog b hint) s.
Proof.
  intros Hb. unfold put_prog. generalize (fallthrough hint) as row. intros row. revert s.
  induction row as [|t row IH]; intros s; [done|]. cbn [put_chain_prog]. intros s1 _ Hg. split; [done|].
  intros ok s2 E. destruct ok.
  - apply secure_ret. intros s3 Hr3 _ t' [= <-]. eapply has_stays; [|exact Hr3]. by eapply put_has.
  - case_bool_decide; [done|apply IH].
Qed.

(** When demotions are allowed. *)
Definition demote_ok : Prop := md_dir md ≠ Some Up ∧ md_lent md = false.

Lemma secure_demote id s : demote_ok → secure (λ _ _, True) (demote_prog id) s.
Proof.
  intros [Hd Hl].
  assert (∀ t t', Tier_to_Z t < Tier_to_Z t' → ∀ d, md_dir md = Some d → better d t' t) as Hdown.
  { intros t t' Hlt [] E; [done|exact Hlt]. }
  assert (∀ A t (Q : A → Shared M D → Prop) sp (f : bytes → prog (Act M D) A) s,
    proper id (sp_bytes sp) → (∀ s1, good s1 → secure Q (f (sp_bytes sp)) s1) → t = sp_tier sp →
    secure Q (pbind (perform (ARead sp)) f) s) as Hread.
  { intros A t Q sp f s0 Hp Hf _ s1 _ Hg. split; [intros ?; congruence|]. intros r s2 E. cbn in E.
    case_match; simplify_eq. by apply Hf. }
  intros s1 _ Hg. split; [done|]. intros h s2 E. cbn in E. simplify_eq.
  destruct (tier_get id HBM (sh_store s2)) as [d|] eqn:E; cbn [fmap option_fmap option_map].
  - destruct (tier_get_proper _ _ _ _ Hg E) as [Hp _]. eapply Hread; [done|intros s3 Hg3|done].
    cbn [sp_bytes]. apply (secure_move _ id d HBM DRAM); [done|by apply Hdown|congruence|done|].
    intros s4 Hg4. eapply Hread; [done|intros s5 Hg5|done].
    apply (secure_move _ id d HBM SSD); [done|by apply Hdown|congruence|done|done].
  - intros s3 _ Hg3. split; [done|]. intros m s4 E4. cbn in E4. simplify_eq.
    destruct (tier_get id DRAM (sh_store s4)) as [d|] eqn:E4; cbn [fmap option_fmap option_map]; [|done].
    destruct (tier_get_proper _ _ _ _ Hg3 E4) as [Hp _]. eapply Hread; [done|intros s5 Hg5|done].
    apply (secure_move _ id d DRAM SSD); [done|by apply Hdown|congruence|done|done].
Qed.

(** When everything is allowed. *)
Definition any_ok : Prop := md_dir md = None ∧ md_lent md = false.

Lemma secure_erase id s : any_ok → secure (λ _ _, True) (erase_prog id) s.
Proof.
  intros [Hd Hl].
  assert (∀ t s1, allowed _ (AErase id t) s1) as Ha by (intros t s1; split; congruence).
  unfold erase_prog. do 4 (apply secure_free; [done|]; intros ???). done.
Qed.

Lemma secure_walk t need fuel w s : any_ok → secure (λ _ _, True) (walk_prog t need fuel w) s.
Proof.
  intros Hok. assert (demote_ok) as Hdok by (destruct Hok as [E ?]; split; [by rewrite E|done]).
  revert w s. induction fuel as [|fuel IH]; intros w s; [done|]. cbn [walk_prog]. destruct (_ <? _); [|done].
  apply secure_bind with (λ _ _, True); [|intros; apply IH].
  unfold walk_step. destruct (m_visited _); [by apply secure_free|].
  apply secure_bind with (λ _ _, True); [|done]. unfold victim_prog.
  apply secure_bind with (λ _ _, True); [case_bool_decide; [done|by apply secure_demote]|].
  intros [] ?? _ _; [done|by apply secure_erase].
Qed.

Lemma secure_pass ecfg mt peers local o t e s :
  any_ok → secure (λ _ _, True) (pass_prog ecfg mt peers local o t e) s.
Proof.
  intros Hok. unfold pass_prog. apply secure_free; [done|]. intros cp ? _. apply secure_free; [done|]. intros used ? _.
  destruct (_ || _); [done|]. destruct (_ <=? _); [done|].
  apply secure_bind with (λ _ _, True).
  { unfold snapshot_prog. apply secure_free; [done|]. intros [|m ms] ? _; [done|]. by apply secure_free. }
  intros [|m ms] ?? _ _; [done|]. apply secure_bind with (λ _ _, True); [by apply secure_walk|].
  intros w ?? _ _. by match goal with |- context [let '(_, _) := ?x in _] => destruct x end.
Qed.

(** One entry for each id, and every local hit with its payload. *)
Definition entries_ok (ids : list BlockId) (es : list Entry) : Prop :=
  Forall2 (λ id e, en_id e = id ∧ (en_where e = LocalHit → en_local_data e = payload id)) ids es.

Lemma secure_lookup r local ids0 ids res s :
  get_ok → entries_ok ids0 (lr_entries res) →
  secure (λ res' _, entries_ok (ids0 ++ ids) (lr_entries res')) (lookup_prog cfg has_hbm r local ids res) s.
Proof.
  intros Hok. revert ids0 res s. induction ids as [|id ids IH]; intros ids0 res s Hes; cbn [lookup_prog].
  { apply secure_ret. by rewrite app_nil_r. }
  apply secure_bind with (λ e _, en_id e = id ∧ (en_where e = LocalHit → en_local_data e = payload id)).
  - eapply secure_bind; [by apply secure_get|]. intros g s1 _ _ Hg. apply secure_ret. intros _ _ _.
    destruct g; [split; [done|intros _; by apply Hg]|]. cbn zeta. by destruct (negb _ && negb _).
  - intros e s1 _ _ He. rewrite (cons_middle id ids0 ids), app_assoc. apply IH. cbn. apply Forall2_app; [done|].
    by constructor.
Qed.

Lemma secure_insert blocks n s :
  Forall (block_ok payload) blocks → 0 ≤ n → n + size_of blocks < 2 ^ 32 →
  secure (λ n' _, n ≤ n' ≤ n + size_of blocks) (insert_prog blocks n) s.
Proof.
  unfold size_of. intros Hb. revert n s. induction Hb as [|b blocks Hb _ IH]; intros n s Hn0 Hn; cbn [insert_prog].
  { apply secure_ret. intros _ _ _. cbn. lia. }
  cbn [length] in *.
  assert (∀ A (Q : A → Shared M D → Prop) (f : Z → prog (Act M D) A) s,
    (∀ u s1, good s1 → secure Q (f u) s1) → secure Q (pbind total_used_prog f) s) as Htotal.
  { intros A Q f s0 Hf. apply secure_bind with (λ _ _, True); [|intros; by apply Hf].
    unfold total_used_prog. do 3 (apply secure_free; [done|]; intros ???). done. }
  assert (∀ s, secure (λ n' _, n ≤ n' ≤ n + Z.of_nat (S (length blocks))) (insert_prog blocks n) s) as Hskip.
  { intros s1. eapply safe_mono; [apply _|apply exec_good|apply IH; lia|]. cbn. lia. }
  apply Htotal. intros before s1 _.
  eapply secure_bind; [by apply secure_put|]. intros [t|] s2 _ _ _; [|apply Hskip].
  apply Htotal. intros after s3 _. destruct (_ >? _); [|apply Hskip].
  apply secure_free; [done|]. intros _ s4 _. assert (n +₃₂ 1 = n + 1) as Hn1 by (apply u32_small; lia).
  rewrite Hn1. eapply safe_mono; [apply _|apply exec_good|apply IH; lia|]. cbn. lia.
Qed.

Definition op_ok (o : Op M D) : Prop :=
  match o with
  | OGet _ | OLookup _ _ _ => get_ok
  | OPut b _ => block_ok payload b
  | OInsert blocks => Forall (block_ok payload) blocks ∧ size_of blocks < 2 ^ 32
  | ODemote _ => demote_ok
  | OErase _ | OEvict _ _ _ _ _ _ _ => any_ok
  end.

(** What the answer to an operation must be. *)
Definition reply_ok (o : Op M D) (a : Reply) s : Prop :=
  match o, a with
  | OGet id, RGet g => ∀ x, g = Some x → gr_data x = payload id
  | OPut b _, RPut t => is_Some t → stays (kv_id b) s
  | OLookup _ _ ids, RLookup res => entries_ok ids (lr_entries res)
  | OInsert blocks, RInsert n => 0 ≤ n ≤ size_of blocks
  | ODemote _, RDemote _ | OErase _, RErase _ | OEvict _ _ _ _ _ _ _, REvict _ => True
  | _, _ => False
  end.

Lemma op_secure o s : op_ok o → good s → secure (reply_ok o) (op_prog cfg has_hbm o) s.
Proof.
  intros Hok _. destruct o as [id|b hint|id|id|r local ids|blocks|ecfg mt peers local o t e]; cbn [op_ok op_prog] in *.
  - eapply secure_bind; [by apply secure_get|]. intros g s1 _ _ Hg. by apply secure_ret.
  - eapply secure_bind; [by apply secure_put|]. intros t s1 _ Hg Hs. apply secure_ret.
    intros s2 Hr _ [u ->] Hd. destruct (Hs u eq_refl Hd) as [t' Ht']. by eapply (has_stays t').
  - eapply secure_bind; [by apply secure_demote|]. done.
  - eapply secure_bind; [by apply secure_erase|]. done.
  - eapply secure_bind; [apply (secure_lookup r local []); [done|constructor]|]. intros res s1 _ _ Hr.
    by apply secure_ret.
  - destruct Hok as [Hb Hn]. eapply secure_bind; [by apply secure_insert|]. intros n s1 _ _ Hr. by apply secure_ret.
  - eapply secure_bind; [by apply secure_pass|]. done.
Qed.

(** What every schedule of allowed operations gives. *)
Lemma schedule_good ts s c :
  good s → (∀ o, Spawn o ∈ ts → op_ok o) → turns exec (op_prog cfg has_hbm) (mkConfig s []) ts = Some c →
  good (cf_state c) ∧ related s (cf_state c) ∧ ∀ o a, answered c o a → reply_ok o a (cf_state c).
Proof.
  intros Hg Hop E. eapply (schedule_ok exec (op_prog cfg has_hbm) good related allowed exec_good op_ok reply_ok);
    [apply op_secure|done|done|done].
Qed.
End mode.

(** ** The theorems *)

(** Blocks that a tier holds are resident. *)
Lemma has_resident t id s : has t id s → resident id (sh_store s).
Proof. intros Hh. apply resident_tier. by exists t. Qed.

(** C3 (every interleaving is safe): whatever lookups, inserts, demotions, erases
    and eviction passes run at once, and however their steps interleave, as long
    as no lent bytes are read after they were freed: the tiers stay well formed
    and within their capacity, hold only right payloads, every answered read
    gives the payload of its block or none, and every lookup has one entry for
    each id, in order, with the payload of every local hit. *)
Theorem interleaving_safe ts s c :
  good s → (∀ o, Spawn o ∈ ts → op_ok (mkMode None false) o) →
  turns exec (op_prog cfg has_hbm) (mkConfig s []) ts = Some c →
  tiers_ok (sh_store (cf_state c)) ∧
  (∀ t, used_bytes t (sh_store (cf_state c)) ≤ cap t) ∧
  (∀ t id d, tier_contents t (sh_store (cf_state c)) !! id = Some d → d = payload id) ∧
  (∀ id g, answered c (OGet id) (RGet (Some g)) → gr_data g = payload id) ∧
  (∀ r local ids res, answered c (OLookup r local ids) (RLookup res) → entries_ok ids (lr_entries res)) ∧
  (∀ blocks n, answered c (OInsert blocks) (RInsert n) → 0 ≤ n ≤ size_of blocks).
Proof.
  intros Hg Hop E. destruct (schedule_good (mkMode None false) ts s c Hg Hop E) as (Hg' & _ & Ha). split_and!.
  - apply Hg'.
  - intros t. rewrite <- (gd_cap _ Hg' t). apply used_capacity, Hg'.
  - intros t id d Hd. by apply (gd_blocks _ Hg') in Hd as [].
  - intros id g Hr. by apply (Ha _ _ Hr).
  - intros r local ids res Hr. by apply (Ha _ _ Hr).
  - intros blocks n Hr. by apply (Ha _ _ Hr).
Qed.

(** C13 (moves in one direction lose nothing): while no block is erased or evicted
    and blocks move in one direction only, towards the faster tiers (lookups
    with promotion) or towards the slower ones (demotions, with lookups that do
    not promote), and as long as no thread reads a span that was freed, no
    interleaving loses a block, not even one that several threads move at once;
    and a block whose insertion was answered is there. *)
Theorem one_way_keeps d ts s c :
  good s → (∀ o, Spawn o ∈ ts → op_ok (mkMode (Some d) false) o) →
  turns exec (op_prog cfg has_hbm) (mkConfig s []) ts = Some c →
  (∀ id, resident id (sh_store s) → resident id (sh_store (cf_state c))) ∧
  (∀ b hint t, answered c (OPut b hint) (RPut (Some t)) → resident (kv_id b) (sh_store (cf_state c))).
Proof.
  intros Hg Hop E. destruct (schedule_good (mkMode (Some d) false) ts s c Hg Hop E) as (Hg' & [Hk _] & Ha). split.
  - intros id [t Ht]%resident_tier. destruct (Hk d eq_refl id t Ht) as (t' & _ & Ht'). by eapply has_resident.
  - intros b hint t Hr. destruct (Ha _ _ Hr ltac:(eauto) ltac:(done)) as [t' Ht']. by eapply has_resident.
Qed.

(** Lookups and insertions. *)
Definition request (o : Op M D) : Prop :=
  match o with
  | OGet _ | OLookup _ _ _ => True
  | OPut b _ => block_ok payload b
  | OInsert blocks => Forall (block_ok payload) blocks ∧ size_of blocks < 2 ^ 32
  | ODemote _ | OErase _ | OEvict _ _ _ _ _ _ _ => False
  end.

(** C14 (requests are free of races): on a server without a GPU tier, as [main]
    configures it, and without eviction, no interleaving of lookups and inserts
    reads lent bytes after they were freed, and none loses a block. *)
Theorem requests_defined ts s :
  has_hbm = false → good s → (∀ o, Spawn o ∈ ts → request o) →
  ∃ c, turns exec (op_prog cfg has_hbm) (mkConfig s []) ts = Some c ∧
    (∀ id, resident id (sh_store s) → resident id (sh_store (cf_state c))) ∧
    (∀ b hint t, answered c (OPut b hint) (RPut (Some t)) → resident (kv_id b) (sh_store (cf_state c))) ∧
    (∀ id g, answered c (OGet id) (RGet (Some g)) → gr_data g = payload id).
Proof.
  intros Hh Hg Hreq. set (md := mkMode (Some Up) true).
  assert (∀ o, Spawn o ∈ ts → op_ok md o) as Hop.
  { intros o Ho. specialize (Hreq o Ho). assert (get_ok md) by (by split). by destruct o. }
  destruct (schedule_defined exec (op_prog cfg has_hbm) good (related md) (allowed md) (exec_good md)
    (op_ok md) (reply_ok md) (op_secure md) ts (mkConfig s [])) as [c E]; [|split; [done|by intros ?? ?%not_elem_of_nil]|done|].
  { intros R act s1 _ Ha. destruct act; try (cbn; by eexists).
    - cbn. destruct (PutToTier b t (sh_store s1)). by eexists.
    - cbn in *. rewrite (Ha eq_refl), Nat.eqb_refl. by eexists. }
  exists c. split; [done|]. destruct (schedule_good md ts s c Hg Hop E) as (Hg' & [Hk _] & Ha). split_and!.
  - intros id [t Ht]%resident_tier. destruct (Hk Up eq_refl id t Ht) as (t' & _ & Ht'). by eapply has_resident.
  - intros b hint t Hr. destruct (Ha _ _ Hr ltac:(eauto) ltac:(done)) as [t' Ht']. by eapply has_resident.
  - intros id g Hr. by apply (Ha _ _ Hr).
Qed.

(** ** Every operation ends *)

(** The answers that a well-formed store gives. *)
Definition possible (R : Type) (act : Act M D R) (r : R) : Prop :=
  ∃ s s', good s ∧ exec R act s = Some (r, s').

(** How many actions an operation needs at most; a block has at least one byte. *)
Definition action_bound (o : Op M D) : nat :=
  match o with
  | OGet _ => 8
  | OPut _ _ => 3
  | ODemote _ => 6
  | OErase _ => 4
  | OLookup _ _ ids => 8 * length ids
  | OInsert blocks => 10 * length blocks
  | OEvict _ _ _ _ _ t _ => 4 + 20 * Z.to_nat (cap t)
  end.

Ltac bounded :=
  repeat match goal with
  | |- within _ _ (Ret _) => exact I
  | |- within _ _ (if ?b then _ else _) => destruct b
  | |- within _ _ (match ?x with Some _ => _ | None => _ end) => destruct x
  | |- within _ (S _) (pbind (perform _) _) => apply within_call; intros ? _
  | |- within _ (S _) (pbind (call _) _) => apply within_call; intros ? _
  end.

Lemma within_lent id t : within possible 2 (read_lent id t).
Proof. unfold read_lent. bounded. Qed.

Lemma within_get id : within possible 8 (get_prog cfg has_hbm id).
Proof.
  apply (within_bind possible 5 3).
  - unfold probe_prog. apply (within_bind possible 2 3); [apply within_lent|]. intros x. cbn zeta.
    apply (within_bind possible 2 1); [bounded; apply (within_bind possible 2 0); [apply within_lent|done]|].
    intros r. bounded.
  - intros r. bounded. apply (within_bind possible 2 0); [|done]. unfold promote_prog. cbn zeta. bounded.
Qed.

Lemma within_put b hint : within possible 3 (put_prog b hint).
Proof. unfold put_prog. destruct hint; cbn [fallthrough put_chain_prog]; bounded. Qed.

Lemma within_demote id : within possible 6 (demote_prog id).
Proof. unfold demote_prog. bounded. Qed.

Lemma within_erase id : within possible 4 (erase_prog id).
Proof. unfold erase_prog. bounded. Qed.

Lemma within_walk t need fuel w : within possible (10 * fuel) (walk_prog t need fuel w).
Proof.
  revert w. induction fuel as [|fuel IH]; intros w; [exact I|]. cbn [walk_prog]. bounded.
  replace (10 * S fuel)%nat with (10 + 10 * fuel)%nat by lia. apply within_bind; [|intros; apply IH].
  unfold walk_step. cbn zeta. bounded. apply (within_bind possible 10 0); [|done].
  apply (within_bind possible 6 4); [bounded; apply within_demote|]. intros []; [exact I|apply within_erase].
Qed.

Lemma within_lookup r local ids res : within possible (8 * length ids) (lookup_prog cfg has_hbm r local ids res).
Proof.
  revert res. induction ids as [|id ids IH]; intros res; [exact I|]. cbn [lookup_prog length].
  replace (8 * S (length ids))%nat with (8 + 8 * length ids)%nat by lia. apply within_bind; [|intros; apply IH].
  apply (within_bind possible 8 0); [apply within_get|done].
Qed.

Lemma within_insert blocks n : within possible (10 * length blocks) (insert_prog blocks n).
Proof.
  revert n. induction blocks as [|b blocks IH]; intros n; [exact I|]. cbn [insert_prog length].
  replace (10 * S (length blocks))%nat with (3 + (3 + (3 + (1 + 10 * length blocks))))%nat by lia.
  assert (within possible 3 total_used_prog) as Ht by (unfold total_used_prog; bounded).
  apply within_bind; [done|]. intros before. apply within_bind; [apply within_put|]. intros [t|].
  - apply within_bind; [done|]. intros after. destruct (_ >? _).
    + apply within_call. intros _ _. apply IH.
    + eapply within_le; [apply IH|lia].
  - eapply within_le; [apply IH|lia].
Qed.

(** A tier holds at most as many blocks as it has bytes. *)
Lemma listed_bound o t l : possible _ (AList o t) l → (length l ≤ Z.to_nat (cap t))%nat.
Proof.
  assert (∀ l, Forall (λ z, 1 ≤ z) l → Z.of_nat (length l) ≤ zsum l) as Hsum by (induction 1; unfold zsum in *; simpl in *; lia).
  assert (∀ S `{TierStoreSpec S} ord (x : S), ts_inv x → (∀ id d, ts_contents x !! id = Some d → d ≠ []) →
    Z.of_nat (length (ts_snapshot ord x)) ≤ ts_capacity x) as Hone.
  { intros S HS HSp ord x Hx Hne. rewrite <- (length_fmap m_size_bytes). etrans; [apply Hsum|].
    - apply Forall_fmap, Forall_forall. intros m Hm. destruct (ts_snapshot_elem ord x m Hx Hm) as (d & Hd & Hs).
      cbn. rewrite Hs. apply Hne, size_of_pos in Hd. lia.
    - rewrite ts_snapshot_sizes by done. by apply ts_used_le_capacity. }
  intros (s & s' & Hg & E). cbn in E. simplify_eq. destruct (gd_ok _ Hg) as [Hh Hd Hs].
  pose proof (gd_cap _ Hg t) as Hc. pose proof (λ id d h, proj1 (proj2 (gd_blocks _ Hg t id d h))) as Hb.
  destruct t; cbn in Hc, Hb |- *.
  - destruct (t_hbm (sh_store s')) as [x|]; cbn in *; [|lia]. specialize (Hone M _ _ (so_mem o) x (Hh x eq_refl) Hb). lia.
  - destruct (t_dram (sh_store s')) as [x|]; cbn in *; [|lia]. specialize (Hone M _ _ (so_mem o) x (Hd x eq_refl) Hb). lia.
  - destruct (t_ssd (sh_store s')) as [x|]; cbn in *; [|lia]. specialize (Hone D _ _ (so_disk o) x (Hs x eq_refl) Hb). lia.
Qed.

Lemma within_pass ecfg mt peers local o t e :
  within possible (4 + 20 * Z.to_nat (cap t)) (pass_prog ecfg mt peers local o t e).
Proof.
  unfold pass_prog. cbn [Nat.add]. apply within_call. intros cp _. apply within_call. intros used _.
  cbn zeta. bounded. unfold snapshot_prog. cbn [pbind perform call]. intros l Hl%listed_bound. destruct l as [|m l]; [exact I|].
  cbn [pbind perform call]. intros v _. cbn [fmap list_fmap].
  set (l' := _ :: _). assert (length l' = length (m :: l)) as El by (unfold l'; cbn; by rewrite length_fmap).
  rewrite <- El in Hl. clearbody l'. replace (20 * Z.to_nat (cap t))%nat with (20 * Z.to_nat (cap t) + 0)%nat by lia.
  apply within_bind.
  - eapply within_le; [apply within_walk|]. cbn in Hl |- *. lia.
  - intros w. by match goal with |- context [let '(_, _) := ?x in _] => destruct x end.
Qed.

Lemma within_op o : within possible (action_bound o) (op_prog cfg has_hbm o).
Proof.
  assert (∀ A n (p : prog (Act M D) A) (f : A → Reply), within possible n p → within possible n (pbind p (λ a, Ret (f a)))) as Hr.
  { intros A n p f Hp. rewrite <- (Nat.add_0_r n). by apply within_bind. }
  destruct o; cbn [op_prog action_bound]; apply Hr.
  - apply within_get.
  - apply within_put.
  - apply within_demote.
  - apply within_erase.
  - apply within_lookup.
  - apply within_insert.
  - apply within_pass.
Qed.

(** C15 (every operation ends): however the other threads interleave, as long as
    no thread reads a freed span, an operation has its answer after a number of
    its own turns that depends only on its arguments and the capacity of the tier:
    8 for a lookup of one block, 3 for an insertion, 6 for a demotion, 4 for an
    erase, and for an eviction pass 4 and 20 for each byte of capacity. *)
Theorem operations_end ts ts' s c c' i o :
  good s → (∀ o, Spawn o ∈ ts ++ ts' → op_ok (mkMode None false) o) →
  turns exec (op_prog cfg has_hbm) (mkConfig s []) ts = Some c →
  cf_threads c !! i = Some (o, op_prog cfg has_hbm o) →
  turns exec (op_prog cfg has_hbm) c ts' = Some c' → (action_bound o ≤ own_turns i ts')%nat →
  ∃ a, cf_threads c' !! i = Some (o, Ret a).
Proof.
  intros Hg Hop E Hi E' Hn. set (md := mkMode None false) in *.
  set (cok := config_ok exec good (related md) (allowed md) (reply_ok md) (Op := Op M D)).
  assert (cok c) as Hc.
  { eapply (turns_ok exec (op_prog cfg has_hbm) good (related md) (allowed md) (exec_good md) (op_ok md)
      (reply_ok md) (op_secure md) ts (mkConfig s [])); [split; [done|by intros ?? ?%not_elem_of_nil]| |done].
    intros o' Ho'. apply Hop. apply elem_of_app. by left. }
  eapply (own_turns_finish exec (op_prog cfg has_hbm) possible cok); [| |exact Hc|exact E'|exact Hi|apply within_op|exact Hn].
  - intros c1 t c2 Hc1 Ht Et. eapply (sched_turn_ok exec (op_prog cfg has_hbm) good (related md) (allowed md)
      (exec_good md) (op_ok md) (reply_ok md) (op_secure md)); [exact Hc1| |exact Et].
    intros o' ->. apply Hop. apply elem_of_app. by right.
  - intros c1 R act r st' Hc1 Ee. exists (cf_state c1), st'. split; [apply Hc1|done].
Qed.
End safety.

(** ** A single thread *)

(** What the sequential definitions say of an operation. *)
Definition op_alone (c : LetheCache) (o : Op BlockStore SsdBlockStore) : Reply * LetheCache :=
  match o with
  | OGet id => let '(g, st) := TieredStore.Get id (lc_store c) in (RGet g, with_store c st)
  | OPut b hint => let '(t, st) := TieredStore.Put b hint (lc_store c) in (RPut t, with_store c st)
  | ODemote id => let '(ok, st) := Demote id (lc_store c) in (RDemote ok, with_store c st)
  | OErase id => let '(n, st) := TieredStore.Erase id (lc_store c) in (RErase n, with_store c st)
  | OLookup _ _ ids => let '(res, c') := Lookup ids c in (RLookup res, c')
  | OInsert blocks => let '(n, c') := Insert blocks c in (RInsert n, c')
  | OEvict ecfg mt peers local o t e =>
      let '(res, st) := RunPassForTier ecfg mt peers local o t e (lc_store c) in (REvict res, with_store c st)
  end.

(** A lookup uses the node's own ring and name. *)
Definition asks (c : LetheCache) (o : Op BlockStore SsdBlockStore) : Prop :=
  match o with
  | OLookup r node_id _ => r = lc_router c ∧ node_id = cc_node_id (lc_cfg c)
  | _ => True
  end.

Lemma run_alone c o er :
  asks c o →
  ∃ er' out,
    run exec (op_prog (t_cfg (lc_store c)) (hbm_exists (lc_store c)) o) (mkShared (lc_store c) er []) =
      Some ((op_alone c o).1, mkShared (lc_store (op_alone c o).2) er' out) ∧
    lc_pool (op_alone c o).2 = replicated (cc_node_id (lc_cfg c)) (lc_router c) out (lc_pool c).
Proof.
  set (s := mkShared (lc_store c) er []). intros Ha.
  assert (∀ A (p : prog _ A) (f : A → Reply) a st, alone p s (a, st) →
    ∃ er', run exec (pbind p (λ a, Ret (f a))) s = Some (f a, mkShared st er' [])) as Hr.
  { intros A p f a st [g E]. exists g. by rewrite run_bind, E. }
  destruct o as [id|b hint|id|id|r node_id ids|blocks|ecfg mt peers local o t e]; cbn [op_prog op_alone].
  - pose proof (alone_get id _ _ s eq_refl) as Hx. cbn [s sh_store] in Hx.
    destruct (TieredStore.Get id (lc_store c)) as [g st]. apply (Hr _ _ RGet) in Hx as [er' Hx]. by exists er', [].
  - pose proof (alone_put_chain b (fallthrough hint) s) as Hx. cbn [s sh_store] in Hx. unfold put_prog, TieredStore.Put.
    destruct (put_chain b (fallthrough hint) (lc_store c)) as [x st]. apply (Hr _ _ RPut) in Hx as [er' Hx]. by exists er', [].
  - pose proof (alone_demote id s) as Hx. cbn [s sh_store] in Hx.
    destruct (Demote id (lc_store c)) as [x st]. apply (Hr _ _ RDemote) in Hx as [er' Hx]. by exists er', [].
  - pose proof (alone_erase_all id s) as Hx. cbn [s sh_store] in Hx.
    destruct (TieredStore.Erase id (lc_store c)) as [x st]. apply (Hr _ _ RErase) in Hx as [er' Hx]. by exists er', [].
  - destruct Ha as [-> ->].
    pose proof (alone_lookup _ _ (lc_router c) (cc_node_id (lc_cfg c)) ids (mkLookupResult [] 0 0) s eq_refl) as Hx.
    cbn [s sh_store] in Hx. unfold Lookup. destruct (fold_left _ ids _) as [x st].
    apply (Hr _ _ RLookup) in Hx as [er' Hx]. by exists er', [].
  - destruct (run_insert blocks 0 c s eq_refl) as (g & out & Hx). unfold Insert.
    destruct (fold_left insert_step blocks (0, c)) as [n c']. destruct Hx as [Hx Hp].
    exists g, out. split; [|exact Hp]. rewrite run_bind, Hx. reflexivity.
  - pose proof (alone_pass ecfg mt peers local o t e s) as Hx. cbn [s sh_store] in Hx.
    destruct (RunPassForTier ecfg mt peers local o t e (lc_store c)) as [x st].
    apply (Hr _ _ REvict) in Hx as [er' Hx]. by exists er', [].
Qed.

(** An operation that runs alone leaves the store and the replicator's queue as
    its sequential definition does. *)
Lemma operations_alone c o er :
  asks c o →
  ∃ n er' out,
    turns exec (op_prog (t_cfg (lc_store c)) (hbm_exists (lc_store c))) (mkConfig (mkShared (lc_store c) er []) [])
      (Spawn o :: replicate n (Step 0)) =
      Some (mkConfig (mkShared (lc_store (op_alone c o).2) er' out) [(o, Ret (op_alone c o).1)]) ∧
    lc_pool (op_alone c o).2 = replicated (cc_node_id (lc_cfg c)) (lc_router c) out (lc_pool c).
Proof.
  intros Ha. destruct (run_alone c o er Ha) as (er' & out & Hr & Hp).
  destruct (turns_alone exec (op_prog (t_cfg (lc_store c)) (hbm_exists (lc_store c))) o _ _ _ _ Hr) as [n Hn].
  exists n, er', out. split; [exact Hn|exact Hp].
Qed.

(** *** Operations one after the other *)








(** ** Concrete schedules *)

(** No GPU tier, four DRAM blocks of one byte, four disk slots, promotion on the
    first access. *)
Definition race_cfg : TieredStoreConfig := mkTieredStoreConfig 0 4 264 "/tmp" true 1 66.

Definition race_store : TieredStore :=
  mkTiered race_cfg (t_hbm wit_evict0) (t_dram wit_evict0) (t_ssd wit_evict0) ∅ ∅.

Definition race_start (hint : Tier) (xs : list byte) : Shared BlockStore SsdBlockStore :=
  mkShared (put_all hint xs race_store) ∅ [].

Definition race_run (s : Shared BlockStore SsdBlockStore) (ts : list Turn) : option (Config (St := Shared BlockStore SsdBlockStore)) :=
  turns exec (op_prog race_cfg false) (mkConfig s []) ts.

(** A schedule as the numbers of the threads that act. *)
Definition by_turns {O} (ops : list O) (steps : list nat) : list (Turn (Op := O)) := (Spawn <$> ops) ++ (Step <$> steps).

Lemma race_store_good payload :
  good payload race_cfg false (λ t, TieredStore.capacity_bytes t race_store) (mkShared race_store ∅ []).
Proof.
  destruct wit_evict0_spec as [[Ht _ _ _ _ _] Hc]. split; [|intros t id d Hd|by vm_compute|done].
  - by destruct Ht.
  - exfalso. assert (tier_contents t wit_evict0 !! id = Some d) as Hd' by (by destruct t).
    rewrite (proj1 (contents_lookup_None id wit_evict0)) in Hd'; [done|]. by rewrite Hc, lookup_empty.
Qed.

Definition race_block (hint : Tier) (x : byte) : KvBlock := mkKvBlock (block_id_of_byte x) [x] hint 0.

Lemma race_block_ok hint x :
  x = Byte.x01 ∨ x = Byte.x02 → block_ok wit_epayload (race_block hint x).
Proof. by intros [-> | ->]; (split; [split|split]). Qed.

Abbreviation race_id := (block_id_of_byte Byte.x01).

Lemma by_turns_ops {O} (P : O → Prop) ops steps : Forall P ops → ∀ o, Spawn o ∈ by_turns ops steps → P o.
Proof.
  intros HP o. unfold by_turns. rewrite elem_of_app, !list_elem_of_fmap. intros [(o' & [= ->] & Ho)|(n & [=] & _)].
  by eapply Forall_forall.
Qed.

Lemma by_turns_started {O} (ops : list O) steps : started (by_turns ops steps) = ops.
Proof.
  unfold by_turns. induction ops as [|o ops IH]; cbn; [|by f_equal].
  induction steps as [|n steps IH]; [done|exact IH].
Qed.

(** What a thread of a schedule answers, computed. *)
Definition race_reply (s : Shared BlockStore SsdBlockStore) ts (i : nat) : option Reply :=
  race_run s ts ≫= reply_at i.

Lemma race_reply_lookup s ops steps i o a :
  race_reply s (by_turns ops steps) i = Some a → ops !! i = Some o →
  ∃ c, race_run s (by_turns ops steps) = Some c ∧ cf_threads c !! i = Some (o, Ret a).
Proof.
  unfold race_reply. destruct (race_run s (by_turns ops steps)) as [c|] eqn:E; [|done].
  cbn. intros Ha Ho. exists c. split; [done|]. apply reply_at_lookup; [|done].
  rewrite (turns_started _ _ _ _ _ E), by_turns_started. exact Ho.
Qed.

Ltac each_op :=
  repeat (apply Forall_cons; split; [first [by apply race_block_ok; left|by split|exact I]|]); apply Forall_nil; exact I.

(** A block goes to DRAM, is read and demoted. *)
Definition wit_mixed : list (Turn (Op := Op BlockStore SsdBlockStore)) :=
  by_turns [OPut (race_block DRAM Byte.x01) DRAM; OGet race_id; ODemote race_id]
    [0; 2; 1; 2; 1; 1; 2; 2; 1; 2]%nat.

Lemma interleaving_safe_witness :
  ∃ c, race_run (mkShared race_store ∅ []) wit_mixed = Some c ∧
    cf_threads c !! 1%nat = Some (OGet race_id, Ret (RGet (Some (mkGetResult [Byte.x01] DRAM false)))) ∧
    tiers_ok (sh_store (cf_state c)) ∧
    (∀ g, answered c (OGet race_id) (RGet (Some g)) → gr_data g = [Byte.x01]).
Proof.
  assert (∀ o, Spawn o ∈ wit_mixed → op_ok wit_epayload race_cfg false (mkMode None false) o) as Hop.
  { apply by_turns_ops. each_op. }
  assert (race_reply (mkShared race_store ∅ []) wit_mixed 1 = Some (RGet (Some (mkGetResult [Byte.x01] DRAM false))))
    as Hc by (vm_compute; reflexivity).
  destruct (race_reply_lookup _ _ _ _ _ _ Hc eq_refl) as (c & E & Hi). exists c. split; [exact E|].
  destruct (interleaving_safe wit_epayload race_cfg false _ wit_mixed _ c (race_store_good _) Hop E)
    as (Hok & _ & _ & Hg & _).
  split_and!; [exact Hi|exact Hok|exact (Hg race_id)].
Defined.

(** Two lookups find the block on the disk and promote it at once. *)
Definition wit_promoters : list (Turn (Op := Op BlockStore SsdBlockStore)) :=
  by_turns [OPut (race_block SSD Byte.x01) SSD; OGet race_id; OGet race_id]
    [0; 1; 1; 2; 2; 1; 2; 1; 2; 1; 2; 1; 2]%nat.

Lemma one_way_keeps_witness :
  race_reply (mkShared race_store ∅ []) wit_promoters 2 = Some (RGet (Some (mkGetResult [Byte.x01] SSD true))) ∧
  ∃ c, race_run (mkShared race_store ∅ []) wit_promoters = Some c ∧ resident race_id (sh_store (cf_state c)).
Proof.
  split; [vm_compute; reflexivity|].
  assert (∀ o, Spawn o ∈ wit_promoters → op_ok wit_epayload race_cfg false (mkMode (Some Up) false) o) as Hop.
  { apply by_turns_ops. each_op. }
  assert (race_reply (mkShared race_store ∅ []) wit_promoters 0 = Some (RPut (Some SSD))) as Hc
    by (vm_compute; reflexivity).
  destruct (race_reply_lookup _ _ _ _ _ _ Hc eq_refl) as (c & E & Hi). exists c. split; [exact E|].
  destruct (one_way_keeps wit_epayload race_cfg false _ Up wit_promoters _ c (race_store_good _) Hop E) as [_ Hp].
  apply (Hp (race_block SSD Byte.x01) SSD SSD). exact (list_elem_of_lookup_2 _ _ _ Hi).
Defined.

Lemma requests_defined_witness :
  ∃ c, race_run (mkShared race_store ∅ []) wit_promoters = Some c ∧
    (∀ b hint t, answered c (OPut b hint) (RPut (Some t)) → resident (kv_id b) (sh_store (cf_state c))).
Proof.
  destruct (requests_defined wit_epayload race_cfg false _ wit_promoters _ eq_refl (race_store_good _))
    as (c & E & _ & Hp & _); [apply by_turns_ops; each_op|].
  exists c. split; [exact E|exact Hp].
Defined.

(** The second lookup of the schedule, from the moment it starts. *)
Lemma operations_end_witness :
  ∃ c c' a, race_run (mkShared race_store ∅ []) (take 3 wit_promoters) = Some c ∧
    turns exec (op_prog race_cfg false) c (drop 3 wit_promoters ++ replicate 8 (Step 2)) = Some c' ∧
    cf_threads c' !! 2%nat = Some (OGet race_id, Ret a).
Proof.
  assert (match race_run (mkShared race_store ∅ []) (take 3 wit_promoters) with
          | Some c => match turns exec (op_prog race_cfg false) c (drop 3 wit_promoters ++ replicate 8 (Step 2)) with
                      | Some _ => true | None => false end
          | None => false end = true) as Hd by (by vm_compute).
  destruct (race_run (mkShared race_store ∅ []) (take 3 wit_promoters)) as [c|] eqn:E; [|discriminate Hd].
  destruct (turns exec _ c _) as [c'|] eqn:E'; [|discriminate Hd].
  assert (cf_threads c !! 2%nat = Some (OGet race_id, op_prog race_cfg false (OGet race_id))) as Hi.
  { cbn [wit_promoters by_turns take fmap list_fmap app] in E. unfold race_run in E.
    cbn [turns turn mbind option_bind cf_threads cf_state app] in E. injection E as <-. reflexivity. }
  destruct (operations_end wit_epayload race_cfg false _ (take 3 wit_promoters)
    (drop 3 wit_promoters ++ replicate 8 (Step 2)) _ c c' 2%nat (OGet race_id) (race_store_good _)) as [a Ha];
    [| exact E | exact Hi | exact E' | cbn; lia |].
  { intros o. rewrite app_assoc, take_drop. rewrite elem_of_app. intros [Ho|Ho].
    - revert o Ho. apply by_turns_ops. each_op.
    - apply elem_of_replicate in Ho as [[=] _]. }
  exists c, c', a. split_and!; [done|exact E'|exact Ha].
Defined.
