(* ===== verification/Races.v ===== *)
(** * Schedules that the locks allow

    Concrete schedules of two threads on a store without a GPU tier.  Each shows
    a promise of the sequential operations that does not survive interleaving;
    [Interleaving] has the promises that do. *)
From S2P Require Import Prelude Types TierStore BlockStore SsdBlockStore TieredStore Routing.
From S2P Require Import Eviction Membership Replication Cache Threads StoreThreads NodeThreads Interleaving.

(** The tiers that hold a block after a schedule; [None] when the schedule
    reaches undefined behaviour. *)
Definition held (s : Shared BlockStore SsdBlockStore) ts (id : BlockId) : option (list Tier) :=
  c ← race_run s ts;
  Some (filter (λ t, is_Some (tier_get id t (sh_store (cf_state c)))) [HBM; DRAM; SSD]).

(** The blocks handed to the replicator. *)
Definition handed (s : Shared BlockStore SsdBlockStore) ts : option (list BlockId) :=
  c ← race_run s ts; Some (kv_id <$> sh_out (cf_state c)).

Definition counted (s : Shared BlockStore SsdBlockStore) ts (id : BlockId) : option Z :=
  c ← race_run s ts; t_access_counts (sh_store (cf_state c)) !! id.

Abbreviation other_id := (block_id_of_byte Byte.x02).

(** ** A promotion and a demotion that cross *)

(** The lookup has put the block into DRAM; the demotion finds it there, and its
    put on the disk succeeds because the old copy is still there.  Then each
    erases the copy that it moved away from. *)
Definition cross_steps : list nat := [0; 0; 0; 0; 0; 1; 1; 1; 1; 0; 1]%nat.

(** C21 (a promotion and a demotion that cross lose the block): a lookup that
    promotes a block from the disk and a demotion of it both succeed, no call
    erases the block and both tiers have room, and no tier holds it at the
    end.  One after the other, in either order, the two leave it in one tier. *)
Theorem promote_demote_race :
  let s := race_start SSD [Byte.x01] in
  let ops := [OGet race_id; ODemote race_id] in
  held s [] race_id = Some [SSD] ∧
  race_reply s (by_turns ops cross_steps) 0 = Some (RGet (Some (mkGetResult [Byte.x01] SSD true))) ∧
  race_reply s (by_turns ops cross_steps) 1 = Some (RDemote true) ∧
  held s (by_turns ops cross_steps) race_id = Some [] ∧
  held s (by_turns ops (replicate 6 0 ++ replicate 5 1)%nat) race_id = Some [SSD] ∧
  held s (by_turns ops (replicate 5 1 ++ replicate 6 0)%nat) race_id = Some [DRAM].
Proof. split_and!; vm_compute; reflexivity. Qed.

(** ** Bytes that are read after their block is gone *)

(** C22 (a lookup reads freed memory): the DRAM tier lends its bytes to a lookup
    and releases its lock; a demotion by the evictor erases the block; the
    lookup then copies from the erased block.  Up to that copy the schedule is
    defined and the block is resident. *)
Theorem span_use_after_free :
  let s := race_start DRAM [Byte.x01] in
  let ops := [OGet race_id; ODemote race_id] in
  let before := [0; 0; 1; 1; 1; 1; 1]%nat in
  race_reply s (by_turns ops before) 1 = Some (RDemote true) ∧
  held s (by_turns ops before) race_id = Some [SSD] ∧
  held s (by_turns ops (before ++ [0%nat])) race_id = None.
Proof. split_and!; vm_compute; reflexivity. Qed.

(** ** An insert that counts bytes while others erase and insert *)

(** The accepted count is not local: [Insert] tells a new block from a known
    one by the bytes that all tiers hold before and after.  When another thread
    erases a block of the same size in between, a new block is stored but
    neither counted nor handed to the replicator; when another thread stores a
    block in between, a known block is counted and handed over. *)
Theorem insert_race :
  let s := race_start DRAM [Byte.x01] in
  let missed := by_turns [OInsert [race_block DRAM Byte.x02]; OErase race_id] [0; 0; 0; 1; 1; 0; 0; 0; 0; 1; 1]%nat in
  let counted_twice := by_turns [OInsert [race_block DRAM Byte.x01]; OPut (race_block DRAM Byte.x02) DRAM]
    [0; 0; 0; 1; 0; 0; 0; 0; 0]%nat in
  (race_reply s missed 0 = Some (RInsert 0) ∧ held s missed other_id = Some [DRAM] ∧ handed s missed = Some []) ∧
  (race_reply s counted_twice 0 = Some (RInsert 1) ∧ held s [] race_id = Some [DRAM] ∧
   handed s counted_twice = Some [race_id]).
Proof. split_and!; vm_compute; reflexivity. Qed.

(** ** A block that moves past a reader *)

Definition passed_steps : list nat := [0; 0; 1; 1; 1; 1; 1; 1; 0]%nat.

(** A lookup misses a block that some tier holds at every moment: it looks in DRAM
    before the block arrives there and on the disk after it has left. *)
Theorem lookup_race :
  let s := race_start SSD [Byte.x01] in
  let ops := [OGet race_id; OGet race_id] in
  race_reply s (by_turns ops passed_steps) 0 = Some (RGet None) ∧
  ∀ n, ∃ t ts, held s (by_turns ops (take n passed_steps)) race_id = Some (t :: ts).
Proof.
  split; [vm_compute; reflexivity|]. intros n.
  do 10 (destruct n as [|n]; [by (do 2 eexists; vm_compute; reflexivity)|]).
  replace (take _ passed_steps) with passed_steps by done. do 2 eexists. vm_compute. reflexivity.
Qed.

(** ** A block that is erased while it is read *)

(** An erase that runs between a lookup's read and its bookkeeping leaves a
    counter without a block; between the read and the promotion, it leaves the
    block. *)
Theorem erase_race :
  let stale := by_turns [OGet race_id; OErase race_id] [0; 0; 0; 1; 1; 1; 1; 0]%nat in
  let revived := by_turns [OGet race_id; OErase race_id] [0; 0; 0; 0; 1; 1; 1; 1; 0; 0]%nat in
  (race_reply (race_start DRAM [Byte.x01]) stale 1 = Some (RErase 1) ∧
   held (race_start DRAM [Byte.x01]) stale race_id = Some [] ∧
   counted (race_start DRAM [Byte.x01]) stale race_id = Some 1) ∧
  (race_reply (race_start SSD [Byte.x01]) revived 1 = Some (RErase 1) ∧
   held (race_start SSD [Byte.x01]) revived race_id = Some [DRAM]).
Proof. split_and!; vm_compute; reflexivity. Qed.
