(* ===== verification/ReplicatorThreads.v ===== *)
(** * The threads of the replicator (replication.cpp)

    Request threads push to the queue, four workers take from it and send, the
    sweep thread and the thread that reports a membership change drain a
    re-replication round, and the destructor stops them.  The queue has one
    lock; a round is drained under another, which is held across many uses of
    the first: the room in the queue is checked in one critical section and the
    pushes are made in a later one, with a lookup in the store in between.

    The thread that reports a membership change owes a first drain when it has
    installed a round, and it is joined before the replicator is destroyed.

    An event is one critical section, one send or one update of a counter.  An
    event that is not enabled waits: [rstep] is then [None]. *)
From S2P Require Import Prelude Types TierStore BlockStore SsdBlockStore TieredStore Routing Replication.

(** A worker takes a task under the lock; it counts the attempt, sends, and
    counts a failure without it. *)
Inductive WorkerPc : Type :=
| Waiting | Taken (t : ReplicateTask) | Sending (t : ReplicateTask) | Failing | Gone.

#[export] Instance WorkerPc_gone_dec (w : WorkerPc) : Decision (w = Gone).
Proof. destruct w; by (left + right). Defined.

(** Where the holder of [rerep_mu] is in the loop of [DrainReReplication]. *)
Inductive DrainPc : Type :=
| Head (dispatched : nat)
| Routed (dispatched : nat) (id : BlockId) (targets : list string)
| Checked (dispatched : nat) (id : BlockId) (targets : list string)
| Fetched (dispatched : nat) (id : BlockId) (targets : list string) (blk : KvBlock).

Inductive SweepPc : Type := Asleep | Ready | Inside | Left.

(** The thread in [TriggerReReplication]: not there, between the installation of
    the round and its own drain, or in that drain. *)
Inductive TriggerPc : Type := Idle | Owes | Draining.

(** What became of an id of the round. *)
Inductive Outcome : Type := NoTargets | Missing | Pushed (tasks : list ReplicateTask).

(** What happened so far: tasks put on the queue, tasks taken from it, sends
    with their result, the ids that the round is done with, and the rings since
    the round was installed, the current one last. *)
Record Log : Type := mkLog {
  lg_pushed : list ReplicateTask;
  lg_popped : list ReplicateTask;
  lg_sent : list (ReplicateTask * bool);
  lg_done : list (BlockId * Outcome);
  lg_rings : list Router
}.

Record RState : Type := mkRState {
  rs_pool : ReplicatorPoolState;
  rs_router : Router;
  rs_workers : list WorkerPc;
  rs_sweep : SweepPc;
  rs_trigger : TriggerPc;
  rs_drain : option DrainPc;
  rs_log : Log
}.

Inductive Event : Type :=
| EReplicate (peer : string) (b : KvBlock)
| EPop (i : nat)
| ECount (i : nat)
| ESent (i : nat) (ok : bool)
| EFail (i : nat)
| EExit (i : nat)
| ETrigger (round : list BlockId) (now : Z)
| EKick
| ERing (r : Router)
| EWake
| EEnter
| EDrain (got : option GetResult)
| EStop.

Definition new_rstate (r : Router) : RState :=
  mkRState new_pool r (replicate kReplicationWorkers Waiting) Asleep Idle None (mkLog [] [] [] [] [r]).

Section machine.
Context (local : string) (has_transport : bool).
Implicit Types s : RState.

Definition with_rpool s p : RState :=
  mkRState p (rs_router s) (rs_workers s) (rs_sweep s) (rs_trigger s) (rs_drain s) (rs_log s).

Definition with_worker s (i : nat) (w : WorkerPc) (p : ReplicatorPoolState) (l : Log) : RState :=
  mkRState p (rs_router s) (<[i := w]> (rs_workers s)) (rs_sweep s) (rs_trigger s) (rs_drain s) l.

Definition with_drain s (d : DrainPc) (p : ReplicatorPoolState) (l : Log) : RState :=
  mkRState p (rs_router s) (rs_workers s) (rs_sweep s) (rs_trigger s) (Some d) l.

Definition log_push (l : Log) (ts : list ReplicateTask) : Log :=
  mkLog (lg_pushed l ++ ts) (lg_popped l) (lg_sent l) (lg_done l) (lg_rings l).
Definition log_done (l : Log) (id : BlockId) (o : Outcome) : Log :=
  mkLog (lg_pushed l) (lg_popped l) (lg_sent l) (lg_done l ++ [(id, o)]) (lg_rings l).
Definition log_pop (l : Log) (t : ReplicateTask) : Log :=
  mkLog (lg_pushed l) (lg_popped l ++ [t]) (lg_sent l) (lg_done l) (lg_rings l).
Definition log_sent (l : Log) (t : ReplicateTask) (ok : bool) : Log :=
  mkLog (lg_pushed l) (lg_popped l) (lg_sent l ++ [(t, ok)]) (lg_done l) (lg_rings l).
Definition log_ring (l : Log) (r : Router) : Log :=
  mkLog (lg_pushed l) (lg_popped l) (lg_sent l) (lg_done l) (lg_rings l ++ [r]).
Definition log_round (l : Log) (r : Router) : Log :=
  mkLog (lg_pushed l) (lg_popped l) (lg_sent l) [] [r].

(** The counters of a worker: an atomic add each. *)
Definition count_attempt (p : ReplicatorPoolState) : ReplicatorPoolState :=
  mkPool (rp_queue p) (rp_running p) (rp_overflow_drops p) (rp_replicate_attempts p +₆₄ 1) (rp_replicate_failures p)
    (rp_rerep_round p) (rp_rerep_cursor p) (rp_rerep_active p) (rp_rerep_start p).
Definition count_failure (p : ReplicatorPoolState) : ReplicatorPoolState :=
  mkPool (rp_queue p) (rp_running p) (rp_overflow_drops p) (rp_replicate_attempts p)
    (rp_replicate_failures p +₆₄ 1) (rp_rerep_round p) (rp_rerep_cursor p) (rp_rerep_active p) (rp_rerep_start p).

Definition worker_at s (i : nat) : option WorkerPc := rs_workers s !! i.

Definition pop_front (i : nat) s : option RState :=
  match worker_at s i, rp_queue (rs_pool s) with
  | Some Waiting, t :: q => Some (with_worker s i (Taken t) (with_queue (rs_pool s) q) (log_pop (rs_log s) t))
  | _, _ => None
  end.

Definition count_task (i : nat) s : option RState :=
  match worker_at s i with
  | Some (Taken t) => Some (with_worker s i (Sending t) (count_attempt (rs_pool s)) (rs_log s))
  | _ => None
  end.

Definition finish_send (i : nat) (ok : bool) s : option RState :=
  match worker_at s i with
  | Some (Sending t) =>
      let sent := has_transport && ok in
      Some (with_worker s i (if sent then Waiting else Failing) (rs_pool s) (log_sent (rs_log s) t sent))
  | _ => None
  end.

Definition count_failed (i : nat) s : option RState :=
  match worker_at s i with
  | Some Failing => Some (with_worker s i Waiting (count_failure (rs_pool s)) (rs_log s))
  | _ => None
  end.

Definition leave_loop (i : nat) s : option RState :=
  match worker_at s i with
  | Some Waiting =>
      if worker_exits (rs_pool s) then Some (with_worker s i Gone (rs_pool s) (rs_log s)) else None
  | _ => None
  end.

(** The end of [DrainReReplication]: the round is over when the cursor is at its
    end; the lock is released; the sweep thread, if it is the one, sleeps, and
    else the triggering thread returns. *)
Definition release s : RState :=
  let p := rs_pool s in
  mkRState (if (length (rp_rerep_round p) <=? rp_rerep_cursor p)%nat then with_active p false else p)
    (rs_router s) (rs_workers s) (match rs_sweep s with Inside => Asleep | w => w end)
    (match rs_trigger s with Draining => Idle | t => t end) None (rs_log s).

Definition advance_cursor (p : ReplicatorPoolState) : ReplicatorPoolState := with_cursor p (S (rp_rerep_cursor p)).

(** One critical section of the loop; [got] is what the store answers. *)
Definition drain_step (got : option GetResult) (d : DrainPc) s : RState :=
  let p := rs_pool s in
  match d with
  | Head n =>
      if (n <? kReReplicationBatch)%nat
      then match rp_rerep_round p !! rp_rerep_cursor p with
           | None => release s
           | Some id =>
               match push_targets local (rs_router s) id with
               | [] => with_drain s (Head n) (advance_cursor p) (log_done (rs_log s) id NoTargets)
               | targets => with_drain s (Routed n id targets) p (rs_log s)
               end
           end
      else release s
  | Routed n id targets =>
      if (kReplicationQueueMax <? length (rp_queue p) + length targets)%nat then release s
      else with_drain s (Checked n id targets) p (rs_log s)
  | Checked n id targets =>
      match got with
      | None => with_drain s (Head n) (advance_cursor p) (log_done (rs_log s) id Missing)
      | Some g => with_drain s (Fetched n id targets (mkKvBlock id (gr_data g) (gr_tier_found g) 0)) p (rs_log s)
      end
  | Fetched n id targets blk =>
      let tasks := (λ t, mkReplicateTask t blk) <$> targets in
      with_drain s (Head (S n)) (advance_cursor (with_queue p (rp_queue p ++ tasks)))
        (log_done (log_push (rs_log s) tasks) id (Pushed tasks))
  end.

(** The server has stopped its requests, and the membership its thread, before
    the replicator is destroyed; so the stop finds no thread in
    [TriggerReReplication], and after it only the workers and the sweep thread are
    left.  Only the thread of the membership calls [TriggerReReplication] with
    lost peers, so there is one such call at a time. *)
Definition rstep (e : Event) s : option RState :=
  let p := rs_pool s in
  match e with
  | EReplicate peer b =>
      if rp_running p
      then Some (mkRState (enqueue_or_drop b p peer) (rs_router s) (rs_workers s) (rs_sweep s) (rs_trigger s) (rs_drain s)
                   (if (kReplicationQueueMax <=? length (rp_queue p))%nat then rs_log s
                    else log_push (rs_log s) [mkReplicateTask peer b]))
      else None
  | EPop i => pop_front i s
  | ECount i => count_task i s
  | ESent i ok => finish_send i ok s
  | EFail i => count_failed i s
  | EExit i => leave_loop i s
  | ETrigger round now =>
      match rs_trigger s, rs_drain s with
      | Idle, None =>
          if has_transport && rp_running p
          then Some (mkRState (with_round p round now) (rs_router s) (rs_workers s) (rs_sweep s) Owes None
                       (log_round (rs_log s) (rs_router s)))
          else None
      | _, _ => None
      end
  | EKick =>
      match rs_trigger s, rs_drain s with
      | Owes, None =>
          Some (if rp_rerep_active p
                then mkRState p (rs_router s) (rs_workers s) (rs_sweep s) Draining (Some (Head 0)) (rs_log s)
                else mkRState p (rs_router s) (rs_workers s) (rs_sweep s) Idle None (rs_log s))
      | _, _ => None
      end
  | ERing r =>
      if rp_running p
      then Some (mkRState p r (rs_workers s) (rs_sweep s) (rs_trigger s) (rs_drain s) (log_ring (rs_log s) r))
      else None
  | EWake =>
      match rs_sweep s with
      | Asleep =>
          Some (mkRState p (rs_router s) (rs_workers s) (if rp_running p then Ready else Left) (rs_trigger s)
                  (rs_drain s) (rs_log s))
      | _ => None
      end
  | EEnter =>
      match rs_sweep s, rs_drain s with
      | Ready, None =>
          Some (if rp_rerep_active p
                then mkRState p (rs_router s) (rs_workers s) Inside (rs_trigger s) (Some (Head 0)) (rs_log s)
                else mkRState p (rs_router s) (rs_workers s) Asleep (rs_trigger s) None (rs_log s))
      | _, _ => None
      end
  | EDrain got => match rs_drain s with Some d => Some (drain_step got d s) | None => None end
  | EStop =>
      match rs_trigger s with
      | Idle => if rp_running p then Some (with_rpool s (stop_pool p)) else None
      | _ => None
      end
  end.

Fixpoint rsteps (es : list Event) s : option RState :=
  match es with
  | [] => Some s
  | e :: es => s' ← rstep e s; rsteps es s'
  end.
End machine.

(** The replication factor bounds the peers of a route. *)
Definition fanout (r : Router) : nat := Nat.max 1 (r_replication_factor r).

(** ** Reachable states *)

Section reachable.
Context (local : string) (has_transport : bool) (payload : BlockId → bytes) (kept : BlockId → Prop) (K : nat).
Implicit Types s : RState.

(** The answers of the environment: the store gives a block's own payload
    (what [Interleaving] proves of lookups), it has the blocks of [kept] (those
    that nothing evicts meanwhile), and a new ring keeps the replication
    factor. *)
Definition answers_ok (e : Event) s : Prop :=
  match e with
  | EDrain got =>
      match rs_drain s with
      | Some (Checked _ id _) => match got with Some g => gr_data g = payload id | None => ¬ kept id end
      | _ => True
      end
  | ERing r => (fanout r ≤ K)%nat
  | _ => True
  end.

Inductive reachable (s0 : RState) : RState → Prop :=
| reach_start : reachable s0 s0
| reach_next s e s' : reachable s0 s → answers_ok e s → rstep local has_transport e s = Some s' → reachable s0 s'.

(** The answers along a run. *)
Fixpoint run_answers (es : list Event) s : Prop :=
  match es with
  | [] => True
  | e :: es => answers_ok e s ∧ ∀ s', rstep local has_transport e s = Some s' → run_answers es s'
  end.

Lemma rsteps_reachable s0 es s s' :
  reachable s0 s → run_answers es s → rsteps local has_transport es s = Some s' → reachable s0 s'.
Proof.
  revert s. induction es as [|e es IH]; intros s Hs; cbn [rsteps run_answers]; [by intros _ [= <-]|].
  intros [Ha Hes]. destruct (rstep local has_transport e s) as [s1|] eqn:E; [|done]. cbn [mbind option_bind].
  apply IH; [by eapply reach_next|by apply Hes].
Qed.

Definition in_hand (w : WorkerPc) : list ReplicateTask :=
  match w with Taken t | Sending t => [t] | _ => [] end.

Definition hands s : list ReplicateTask := concat (in_hand <$> rs_workers s).

(** Workers that have not counted their task yet, or not its failure. *)
Definition uncounted (w : WorkerPc) : nat := match w with Taken _ => 1 | _ => 0 end.
Definition unfailed (w : WorkerPc) : nat := match w with Failing => 1 | _ => 0 end.
Definition pending_of (f : WorkerPc → nat) s : nat := sum_list_with f (rs_workers s).

(** The peers other than the node itself that own the block under a ring. *)
Definition other_owners (ring : Router) (id : BlockId) (peers : list string) : Prop :=
  ∀ p, p ≠ "" → p ∈ peers ↔ p ∈ owners (Route id ring) ∧ p ≠ local.

(** What the end of a block's turn in a round means: under some ring that was
    installed while the round was on, the block has no other owner, or it was
    pushed to exactly its other owners with its payload; or the store had lost
    it. *)
Definition outcome_ok (l : Log) (id : BlockId) (o : Outcome) : Prop :=
  match o with
  | NoTargets => ∃ ring, ring ∈ lg_rings l ∧ other_owners ring id []
  | Missing => ¬ kept id
  | Pushed tasks =>
      (∃ ring, ring ∈ lg_rings l ∧ other_owners ring id (rt_peer_id <$> tasks)) ∧
      ∀ t, t ∈ tasks → kv_id (rt_block t) = id ∧ kv_data (rt_block t) = payload id ∧ t ∈ lg_pushed l
  end.

Definition at_cursor (p : ReplicatorPoolState) (l : Log) (id : BlockId) (targets : list string) : Prop :=
  rp_rerep_round p !! rp_rerep_cursor p = Some id ∧ (length targets ≤ K)%nat ∧
  ∃ ring, ring ∈ lg_rings l ∧ other_owners ring id targets.

Definition pc_ok (p : ReplicatorPoolState) (l : Log) (d : DrainPc) : Prop :=
  match d with
  | Head _ => True
  | Routed _ id targets => at_cursor p l id targets
  | Checked _ id targets => at_cursor p l id targets ∧ (length (rp_queue p) ≤ kReplicationQueueMax)%nat
  | Fetched _ id targets blk =>
      at_cursor p l id targets ∧ (length (rp_queue p) ≤ kReplicationQueueMax)%nat ∧
      kv_id blk = id ∧ kv_data blk = payload id
  end.

Record queue_ok s : Prop := {
  qo_fifo : lg_pushed (rs_log s) = lg_popped (rs_log s) ++ rp_queue (rs_pool s);
  qo_hands : lg_popped (rs_log s) ≡ₚ hands s ++ (lg_sent (rs_log s)).*1;
  qo_bound : (length (rp_queue (rs_pool s)) ≤ kReplicationQueueMax + K)%nat;
  qo_attempts : rp_replicate_attempts (rs_pool s) =
    u64 (Z.of_nat (length (lg_popped (rs_log s))) - Z.of_nat (pending_of uncounted s));
  qo_failures : rp_replicate_failures (rs_pool s) =
    u64 (Z.of_nat (length (filter (λ x, x.2 = false) (lg_sent (rs_log s)))) - Z.of_nat (pending_of unfailed s));
  qo_workers : length (rs_workers s) = kReplicationWorkers;
  qo_running : rp_running (rs_pool s) = true → Gone ∉ rs_workers s
}.

Record round_covered s : Prop := {
  rc_done : (lg_done (rs_log s)).*1 = take (rp_rerep_cursor (rs_pool s)) (rp_rerep_round (rs_pool s));
  rc_cursor : (rp_rerep_cursor (rs_pool s) ≤ length (rp_rerep_round (rs_pool s)))%nat;
  rc_active : rp_rerep_active (rs_pool s) = false → rp_rerep_cursor (rs_pool s) = length (rp_rerep_round (rs_pool s));
  rc_outcome id o : (id, o) ∈ lg_done (rs_log s) → outcome_ok (rs_log s) id o;
  rc_pc d : rs_drain s = Some d → pc_ok (rs_pool s) (rs_log s) d;
  rc_inside : rs_sweep s = Inside → is_Some (rs_drain s);
  rc_ring : (fanout (rs_router s) ≤ K)%nat;
  rc_current : rs_router s ∈ lg_rings (rs_log s);
  rc_stopped : rp_running (rs_pool s) = false → rs_trigger s = Idle
}.

Lemma hands_insert s i w0 w :
  rs_workers s !! i = Some w0 →
  concat (in_hand <$> <[i := w]> (rs_workers s)) ++ in_hand w0 ≡ₚ hands s ++ in_hand w.
Proof.
  unfold hands. generalize (rs_workers s) as l. intros l. revert i. induction l as [|x l IH]; intros [|i]; cbn; try done.
  - intros [= ->]. rewrite (Permutation_app_comm _ (in_hand w0)), <- app_assoc. f_equiv. apply Permutation_app_comm.
  - intros Hi. rewrite <- !app_assoc. by rewrite (IH i Hi).
Qed.

Lemma perm_balance {A} (P P' a b S S' H H' : list A) :
  H' ++ a ≡ₚ H ++ b → P ≡ₚ H ++ S → P' ++ a ++ S ≡ₚ P ++ b ++ S' → P' ≡ₚ H' ++ S'.
Proof.
  intros Hh Hp Hb. apply (Permutation_app_inv_r (a ++ S)). rewrite Hb, Hp.
  trans ((H ++ b) ++ S' ++ S); [|rewrite <- Hh].
  - rewrite <- !app_assoc. f_equiv. rewrite (Permutation_app_comm S), <- app_assoc. done.
  - rewrite <- !app_assoc. f_equiv. rewrite !app_assoc. f_equiv. apply Permutation_app_comm.
Qed.

Lemma pending_insert f (l : list WorkerPc) i w0 w :
  l !! i = Some w0 → (sum_list_with f (<[i := w]> l) + f w0 = sum_list_with f l + f w)%nat.
Proof.
  revert i. induction l as [|x l IH]; intros [|i]; try done.
  - intros [= ->]. cbn [insert list_insert sum_list_with]. lia.
  - intros Hi%IH. change (<[S i := w]> (x :: l)) with (x :: <[i := w]> l). cbn [sum_list_with]. lia.
Qed.

Lemma push_targets_owners ring id : other_owners ring id (push_targets local ring id).
Proof. intros p Hp. by apply elem_of_push_targets. Qed.

Lemma push_targets_K s id : (fanout (rs_router s) ≤ K)%nat → (length (push_targets local (rs_router s) id) ≤ K)%nat.
Proof.
  unfold fanout. intros HK. pose proof (push_targets_length local (rs_router s) id). pose proof (Route_owners_length id (rs_router s)). lia.
Qed.

Lemma u64_count (n m : Z) : m = n + 1 → u64 n +₆₄ 1 = u64 m.
Proof. intros ->. unfold u64. by rewrite Zplus_mod_idemp_l. Qed.

(** ** The queue and the workers *)

Lemma queue_ok_push s tasks p' r w tr d l' :
  queue_ok s → rp_queue p' = rp_queue (rs_pool s) ++ tasks →
  (length (rp_queue p') ≤ kReplicationQueueMax + K)%nat →
  rp_replicate_attempts p' = rp_replicate_attempts (rs_pool s) →
  rp_replicate_failures p' = rp_replicate_failures (rs_pool s) →
  (rp_running p' = true → rp_running (rs_pool s) = true) →
  lg_pushed l' = lg_pushed (rs_log s) ++ tasks → lg_popped l' = lg_popped (rs_log s) →
  lg_sent l' = lg_sent (rs_log s) →
  queue_ok (mkRState p' r (rs_workers s) w tr d l').
Proof.
  intros [H1 H2 H3 H4 H5 H6 H7] Eq Hb Ea Ef Hr E1 E2 E3. split; cbn; rewrite ?E1, ?E2, ?E3, ?Ea, ?Ef; try done.
  - by rewrite H1, Eq, app_assoc.
  - auto.
Qed.

Lemma queue_ok_same s p' r w tr d l' :
  queue_ok s → rp_queue p' = rp_queue (rs_pool s) →
  rp_replicate_attempts p' = rp_replicate_attempts (rs_pool s) →
  rp_replicate_failures p' = rp_replicate_failures (rs_pool s) →
  (rp_running p' = true → rp_running (rs_pool s) = true) →
  lg_pushed l' = lg_pushed (rs_log s) → lg_popped l' = lg_popped (rs_log s) →
  lg_sent l' = lg_sent (rs_log s) →
  queue_ok (mkRState p' r (rs_workers s) w tr d l').
Proof.
  intros Hq Eq Ea Ef Hr E1 E2 E3. apply (queue_ok_push s []); rewrite ?app_nil_r; try done.
  rewrite Eq. apply Hq.
Qed.

(** A worker moves on; what it takes and what it has sent balance. *)
Lemma queue_ok_worker s i w0 w p' l' :
  queue_ok s → rs_workers s !! i = Some w0 →
  lg_pushed l' = lg_popped l' ++ rp_queue p' →
  lg_popped l' ++ in_hand w0 ++ (lg_sent (rs_log s)).*1 ≡ₚ lg_popped (rs_log s) ++ in_hand w ++ (lg_sent l').*1 →
  (length (rp_queue p') ≤ length (rp_queue (rs_pool s)))%nat →
  rp_replicate_attempts p' =
    u64 (Z.of_nat (length (lg_popped l')) - (Z.of_nat (pending_of uncounted s) + Z.of_nat (uncounted w) - Z.of_nat (uncounted w0))) →
  rp_replicate_failures p' =
    u64 (Z.of_nat (length (filter (λ x, x.2 = false) (lg_sent l'))) -
         (Z.of_nat (pending_of unfailed s) + Z.of_nat (unfailed w) - Z.of_nat (unfailed w0))) →
  (rp_running p' = true → rp_running (rs_pool s) = true ∧ w ≠ Gone) →
  queue_ok (with_worker s i w p' l').
Proof.
  intros [H1 H2 H3 H4 H5 H6 H7] Ei Hf Hp Hb Ha Hfl Hr.
  assert (∀ f, Z.of_nat (pending_of f (with_worker s i w p' l')) =
    Z.of_nat (pending_of f s) + Z.of_nat (f w) - Z.of_nat (f w0)) as Hpend.
  { intros f. unfold pending_of. cbn [with_worker rs_workers]. pose proof (pending_insert f _ i w0 w Ei). lia. }
  split; cbn [with_worker rs_pool rs_log]; rewrite ?Hpend; try done.
  - by eapply perm_balance; [apply (hands_insert s i w0 w Ei)|apply H2|].
  - lia.
  - cbn [with_worker rs_workers]. by rewrite length_insert.
  - cbn [with_worker rs_workers]. intros [Hrun Hw]%Hr (j & Hj)%list_elem_of_lookup.
    apply list_lookup_insert_Some in Hj as [(_ & -> & _)|[_ Hj]]; [done|]. eapply (H7 Hrun), list_elem_of_lookup_2, Hj.
Qed.

Lemma queue_ok_pop i s s' : queue_ok s → pop_front i s = Some s' → queue_ok s'.
Proof.
  intros Hq. unfold pop_front, worker_at. destruct (rs_workers s !! i) as [[| | | |]|] eqn:Ei; try done.
  destruct (rp_queue (rs_pool s)) as [|t q] eqn:Eq; [done|]. intros [= <-].
  eapply queue_ok_worker; try done; cbn [with_queue log_pop rp_queue lg_pushed lg_popped lg_sent in_hand app
    uncounted unfailed rp_replicate_attempts rp_replicate_failures].
  - by rewrite (qo_fifo s Hq), Eq, <- app_assoc.
  - by rewrite <- app_assoc.
  - rewrite Eq. cbn [length]. lia.
  - rewrite (qo_attempts s Hq), length_app. cbn [length]. f_equal. lia.
  - rewrite (qo_failures s Hq). f_equal. lia.
Qed.

Lemma queue_ok_count i s s' : queue_ok s → count_task i s = Some s' → queue_ok s'.
Proof.
  intros Hq. unfold count_task, worker_at. destruct (rs_workers s !! i) as [[| | | |]|] eqn:Ei; try done.
  intros [= <-]. eapply queue_ok_worker; try done; cbn [count_attempt rp_queue in_hand
    uncounted unfailed rp_replicate_attempts rp_replicate_failures].
  - apply Hq.
  - rewrite (qo_attempts s Hq). apply u64_count. lia.
  - rewrite (qo_failures s Hq). f_equal. lia.
Qed.

Lemma queue_ok_sent i ok s s' : queue_ok s → finish_send has_transport i ok s = Some s' → queue_ok s'.
Proof.
  intros Hq. unfold finish_send, worker_at. destruct (rs_workers s !! i) as [[| |t| |]|] eqn:Ei; try done.
  cbn zeta. generalize (has_transport && ok) as sent. intros sent [= <-].
  eapply queue_ok_worker; try done; cbn [log_sent rp_queue lg_pushed lg_popped lg_sent in_hand].
  - apply Hq.
  - rewrite fmap_app. f_equiv. rewrite Permutation_app_comm. by destruct sent.
  - rewrite (qo_attempts s Hq). f_equal. destruct sent; cbn [uncounted]; lia.
  - assert (length (filter (λ x : ReplicateTask * bool, x.2 = false) [(t, sent)]) =
      unfailed (if sent then Waiting else Failing)) as E by (by destruct sent).
    rewrite (qo_failures s Hq), filter_app, length_app, E. f_equal. cbn [unfailed]. lia.
  - by destruct sent.
Qed.

Lemma queue_ok_fail i s s' : queue_ok s → count_failed i s = Some s' → queue_ok s'.
Proof.
  intros Hq. unfold count_failed, worker_at. destruct (rs_workers s !! i) as [[| | | |]|] eqn:Ei; try done.
  intros [= <-]. eapply queue_ok_worker; try done; cbn [count_failure rp_queue in_hand
    uncounted unfailed rp_replicate_attempts rp_replicate_failures].
  - apply Hq.
  - rewrite (qo_attempts s Hq). f_equal. lia.
  - rewrite (qo_failures s Hq). apply u64_count. lia.
Qed.

Lemma queue_ok_exit i s s' : queue_ok s → leave_loop i s = Some s' → queue_ok s'.
Proof.
  intros Hq. unfold leave_loop, worker_at, worker_exits. destruct (rs_workers s !! i) as [[| | | |]|] eqn:Ei; try done.
  destruct (rp_queue (rs_pool s)); [|done]. destruct (rp_running (rs_pool s)) eqn:Er; [done|].
  intros [= <-]. eapply queue_ok_worker; try done; cbn [in_hand uncounted unfailed].
  - apply Hq.
  - rewrite (qo_attempts s Hq). f_equal. lia.
  - rewrite (qo_failures s Hq). f_equal. lia.
  - by rewrite Er.
Qed.

(** ** The round *)

(** What later entries of the log leave true. *)
Definition log_le (l l' : Log) : Prop :=
  (∀ t, t ∈ lg_pushed l → t ∈ lg_pushed l') ∧ (∀ ring, ring ∈ lg_rings l → ring ∈ lg_rings l').

Lemma log_le_refl l l' : lg_pushed l' = lg_pushed l → lg_rings l' = lg_rings l → log_le l l'.
Proof. unfold log_le. by intros -> ->. Qed.

Lemma log_le_push l ts : log_le l (log_push l ts).
Proof. split; [|done]. intros t Ht. apply elem_of_app. by left. Qed.

Lemma outcome_mono l l' id o : log_le l l' → outcome_ok l id o → outcome_ok l' id o.
Proof.
  intros [Hp Hr]. destruct o as [| |tasks]; [|done|]; intros Ho.
  - destruct Ho as (ring & Hin & Ho). exists ring. auto.
  - destruct Ho as [(ring & Hin & Ho) Ht]. split; [exists ring; auto|]. intros t (?&?&?)%Ht. auto.
Qed.

Lemma pc_ok_same p p' l l' d :
  pc_ok p l d → rp_rerep_round p' = rp_rerep_round p → rp_rerep_cursor p' = rp_rerep_cursor p → log_le l l' →
  ((length (rp_queue p) ≤ kReplicationQueueMax)%nat → (length (rp_queue p') ≤ kReplicationQueueMax)%nat) →
  pc_ok p' l' d.
Proof. intros H Er Ec [_ Hl] Hq. destruct d; cbn in *; unfold at_cursor in *; rewrite ?Er, ?Ec; naive_solver. Qed.

Lemma round_same s p' r' ws w tr d l' :
  round_covered s → rp_rerep_round p' = rp_rerep_round (rs_pool s) →
  rp_rerep_cursor p' = rp_rerep_cursor (rs_pool s) → rp_rerep_active p' = rp_rerep_active (rs_pool s) →
  ((length (rp_queue (rs_pool s)) ≤ kReplicationQueueMax)%nat → (length (rp_queue p') ≤ kReplicationQueueMax)%nat) →
  log_le (rs_log s) l' → lg_done l' = lg_done (rs_log s) →
  (d = rs_drain s ∨ ∀ x, d = Some x → ∃ n, x = Head n) → (w = Inside → is_Some d) →
  (r' = rs_router s ∨ (fanout r' ≤ K)%nat ∧ r' ∈ lg_rings l') →
  (rp_running p' = false → tr = Idle) →
  round_covered (mkRState p' r' ws w tr d l').
Proof.
  intros [H1 H2 H3 H4 H5 H6 H7 H8 H9] Er Ec Ea Hq Hl Ed Hd Hw Hr Ht. split; cbn; rewrite ?Er, ?Ec, ?Ea, ?Ed; try done.
  - intros id o Hin. by eapply outcome_mono, H4.
  - intros x Hx. destruct Hd as [->|Hd]; [|by destruct (Hd x Hx) as [n ->]].
    by eapply pc_ok_same; [apply H5|..].
  - by destruct Hr as [->|[]].
  - destruct Hr as [->|[]]; [by apply Hl|done].
Qed.

(** A worker moves: the round and its log stay. *)
Lemma round_worker s i w p' l' :
  round_covered s → rp_rerep_round p' = rp_rerep_round (rs_pool s) →
  rp_rerep_cursor p' = rp_rerep_cursor (rs_pool s) → rp_rerep_active p' = rp_rerep_active (rs_pool s) →
  (length (rp_queue p') ≤ length (rp_queue (rs_pool s)))%nat → rp_running p' = rp_running (rs_pool s) →
  log_le (rs_log s) l' → lg_done l' = lg_done (rs_log s) →
  round_covered (with_worker s i w p' l').
Proof.
  intros Hr Er Ec Ea Hq Hrun Hl Ed. apply (round_same s); try done; [lia|by left|apply Hr|by left|].
  rewrite Hrun. apply Hr.
Qed.

(** The loop is done with the id at the cursor. *)
Lemma round_advance s n p' l' id o :
  round_covered s → rp_rerep_round (rs_pool s) !! rp_rerep_cursor (rs_pool s) = Some id →
  rp_rerep_round p' = rp_rerep_round (rs_pool s) → rp_rerep_cursor p' = S (rp_rerep_cursor (rs_pool s)) →
  rp_rerep_active p' = rp_rerep_active (rs_pool s) → rp_running p' = rp_running (rs_pool s) → is_Some (rs_drain s) →
  log_le (rs_log s) l' → lg_done l' = lg_done (rs_log s) ++ [(id, o)] → outcome_ok l' id o →
  round_covered (with_drain s (Head n) p' l').
Proof.
  intros [H1 H2 H3 H4 H5 H6 H7 H8 H9] Hid Er Ec Ea Hrun Hd Hl El Ho. split; cbn; rewrite ?Er, ?Ec, ?Ea, ?El, ?Hrun; try done.
  - rewrite fmap_app, H1. cbn. symmetry. by apply take_S_r.
  - apply lookup_lt_Some in Hid. lia.
  - intros Hact%H3. apply lookup_lt_Some in Hid. lia.
  - intros id' o'. rewrite elem_of_app, list_elem_of_singleton. intros [Hin|[= -> ->]]; [|done].
    by eapply outcome_mono, H4.
  - by intros d [= <-].
  - by apply Hl.
Qed.

(** The loop moves on to another point of the same id. *)
Lemma round_pc s d d' :
  round_covered s → rs_drain s = Some d → pc_ok (rs_pool s) (rs_log s) d' →
  round_covered (with_drain s d' (rs_pool s) (rs_log s)).
Proof. intros [] Hd Hpc. split; cbn; try done. by intros x [= <-]. Qed.

Lemma round_release s : round_covered s → round_covered (release s).
Proof.
  intros [H1 H2 H3 H4 H5 H6 H7 H8 H9]. unfold release. split; cbn; try done.
  - by destruct (_ <=? _)%nat.
  - by destruct (_ <=? _)%nat.
  - destruct (_ <=? _)%nat eqn:E; cbn; [|done]. intros _. apply Nat.leb_le in E. lia.
  - by destruct (rs_sweep s).
  - intros Hrun. rewrite H9; [done|]. by destruct (_ <=? _)%nat.
Qed.

Lemma round_drain got d s :
  round_covered s → rs_drain s = Some d → answers_ok (EDrain got) s → round_covered (drain_step local got d s).
Proof.
  intros Hr Hd Hg. pose proof (rc_pc s Hr d Hd) as Hpc. assert (is_Some (rs_drain s)) as Hs by eauto.
  destruct d as [n|n id targets|n id targets|n id targets blk]; cbn [drain_step pc_ok] in *.
  - destruct (_ <? _)%nat; [|by apply round_release].
    destruct (rp_rerep_round (rs_pool s) !! rp_rerep_cursor (rs_pool s)) as [id|] eqn:Eid; [|by apply round_release].
    pose proof (push_targets_K s id (rc_ring s Hr)) as HK. pose proof (push_targets_owners (rs_router s) id) as Ho.
    pose proof (rc_current s Hr) as Hc. destruct (push_targets local (rs_router s) id) as [|t ts]; cbn zeta.
    + eapply round_advance; try done. by exists (rs_router s).
    + eapply round_pc; try done. cbn [pc_ok]. split_and!; try done. by exists (rs_router s).
  - destruct (_ <? _)%nat eqn:El; [by apply round_release|]. apply Nat.ltb_ge in El.
    eapply round_pc; try done. cbn [pc_ok]. split; [done|lia].
  - destruct Hpc as [Hat Hq]. cbn in Hg. rewrite Hd in Hg. destruct got as [g|].
    + by eapply round_pc.
    + eapply round_advance; try done. apply Hat.
  - destruct Hpc as (Hat & Hq & Hb & Hdata). destruct Hat as (Hid & HK & ring & Hring & Hown).
    eapply round_advance; try done; [apply log_le_push|].
    split.
    + exists ring. split; [done|]. rewrite <- list_fmap_compose. by rewrite (list_fmap_id targets : (rt_peer_id ∘ λ t, mkReplicateTask t blk) <$> targets = targets).
    + intros t Ht. cbn [log_done log_push lg_pushed]. rewrite elem_of_app. split_and!; [..|by right];
        by apply list_elem_of_fmap in Ht as (x & -> & _).
Qed.

Lemma queue_drain got d s :
  queue_ok s → round_covered s → rs_drain s = Some d → queue_ok (drain_step local got d s).
Proof.
  intros Hq Hr Hd. pose proof (rc_pc s Hr d Hd) as Hpc.
  assert (queue_ok (release s)) as Hrel by (apply queue_ok_same; try done; by destruct (_ <=? _)%nat).
  destruct d as [n|n id targets|n id targets|n id targets blk]; cbn [drain_step pc_ok] in *.
  - destruct (_ <? _)%nat; [|done]. destruct (rp_rerep_round (rs_pool s) !! _); [|done].
    destruct (push_targets local (rs_router s) _); by apply queue_ok_same.
  - destruct (_ <? _)%nat; [done|by apply queue_ok_same].
  - destruct got; by apply queue_ok_same.
  - destruct Hpc as ((Hid & HK & _) & Hqb & Hb & Hdata). eapply queue_ok_push; try done.
    cbn [advance_cursor with_cursor with_queue rp_queue]. rewrite length_app, length_fmap. lia.
Qed.

Definition rstate_ok s : Prop := queue_ok s ∧ round_covered s.

(** The steps of the replicator's threads outside the drain and the workers. *)
Lemma rstep_ok_env e s s' :
  (match e with EReplicate _ _ | ETrigger _ _ | EKick | ERing _ | EWake | EEnter | EStop => True | _ => False end) →
  rstate_ok s → answers_ok e s → rstep local has_transport e s = Some s' → rstate_ok s'.
Proof.
  intros He [Hq Hr] Ha. pose proof (rc_stopped s Hr) as Hst. pose proof (rc_inside s Hr) as Hin.
  destruct e as [peer b| | | | | |round now| |r| | | |]; try done; cbn [rstep].
  - destruct (rp_running (rs_pool s)) eqn:Erun; [|done]. unfold enqueue_or_drop.
    destruct (_ <=? _)%nat eqn:El; intros [= <-].
    + split; [by apply queue_ok_same|apply (round_same s); auto using log_le_refl]. cbn. by rewrite Erun.
    + apply Nat.leb_gt in El. split.
      * eapply queue_ok_push; try done. cbn [with_queue rp_queue]. rewrite length_app. cbn [length]. lia.
      * apply (round_same s); auto using log_le_push; cbn [with_queue rp_queue rp_running]; [|by rewrite Erun].
        rewrite length_app. cbn [length]. lia.
  - destruct (rs_trigger s); try done. destruct (rs_drain s) eqn:Ed; [done|].
    destruct (has_transport && _) eqn:Erun; [|done]. apply andb_true_iff in Erun as [_ Erun]. intros [= <-].
    split; [by apply queue_ok_same|]. destruct Hr. split; cbn; try done; try (by rewrite Erun).
    + lia.
    + by destruct round.
    + by intros id o ?%not_elem_of_nil.
    + by left.
  - destruct (rs_trigger s); try done. destruct (rs_drain s) eqn:Ed; [done|]. intros [= <-].
    destruct (rp_rerep_active (rs_pool s)); (split; [by apply queue_ok_same|]);
      apply (round_same s); auto using log_le_refl.
    + right. intros x [= <-]. by eexists.
    + by intros ?%Hst.
  - destruct (rp_running (rs_pool s)) eqn:Erun; [|done]. intros [= <-]. split; [by apply queue_ok_same|].
    apply (round_same s); auto; [|right|by rewrite Erun].
    + split; [done|]. intros ring Hring. apply elem_of_app. by left.
    + split; [done|]. apply elem_of_app. right. by left.
  - destruct (rs_sweep s) eqn:Es; try done. intros [= <-]. split; [by apply queue_ok_same|].
    apply (round_same s); auto using log_le_refl. by destruct (rp_running _).
  - destruct (rs_sweep s) eqn:Es; try done. destruct (rs_drain s) eqn:Ed; [done|]. intros [= <-].
    destruct (rp_rerep_active (rs_pool s)); (split; [by apply queue_ok_same|]);
      apply (round_same s); auto using log_le_refl; try done.
    right. intros x [= <-]. by eexists.
  - destruct (rs_trigger s) eqn:Et; try done. destruct (rp_running (rs_pool s)) eqn:Erun; [|done]. intros [= <-].
    split; [by apply queue_ok_same|]. apply (round_same s); auto using log_le_refl.
Qed.

Lemma rstep_ok e s s' :
  rstate_ok s → answers_ok e s → rstep local has_transport e s = Some s' → rstate_ok s'.
Proof.
  intros Hok Ha E. destruct e as [peer b|i|i|i ok|i|i|round now| |r| | |got|];
    try (refine (rstep_ok_env _ s s' _ Hok Ha E); exact I); cbn [rstep] in E; destruct Hok as [Hq Hr].
  - split; [by eapply queue_ok_pop|]. unfold pop_front in E. destruct (worker_at s i) as [[| | | |]|]; try done.
    destruct (rp_queue (rs_pool s)) as [|t q] eqn:Eq; [done|]. injection E as <-.
    apply round_worker; try done. rewrite Eq. cbn [with_queue rp_queue length]. lia.
  - split; [by eapply queue_ok_count|]. unfold count_task in E. destruct (worker_at s i) as [[| | | |]|]; try done.
    injection E as <-. by apply round_worker.
  - split; [by eapply queue_ok_sent|]. unfold finish_send in E. destruct (worker_at s i) as [[| | | |]|]; try done.
    injection E as <-. by apply round_worker.
  - split; [by eapply queue_ok_fail|]. unfold count_failed in E. destruct (worker_at s i) as [[| | | |]|]; try done.
    injection E as <-. by apply round_worker.
  - split; [by eapply queue_ok_exit|]. unfold leave_loop in E. destruct (worker_at s i) as [[| | | |]|]; try done.
    destruct (worker_exits _); [|done]. injection E as <-. by apply round_worker.
  - destruct (rs_drain s) as [d|] eqn:Ed; [|done]. injection E as <-. split; [by apply queue_drain|by apply round_drain].
Qed.

Lemma reachable_ok s0 s : rstate_ok s0 → reachable s0 s → rstate_ok s.
Proof. intros H0. induction 1 as [|s e s' _ IH Ha E]; [done|]. by eapply rstep_ok. Qed.

Lemma new_rstate_ok r : (fanout r ≤ K)%nat → rstate_ok (new_rstate r).
Proof.
  intros HK. split; split; cbn; try done; try lia.
  - intros _. rewrite !not_elem_of_cons. split_and!; try done. by intros ?%not_elem_of_nil.
  - by intros id o ?%not_elem_of_nil.
  - by left.
Qed.

(** ** Shutdown *)

(** The joins of the destructor have returned. *)
Definition joined s : Prop := Forall (λ w, w = Gone) (rs_workers s) ∧ rs_sweep s = Left.

Definition worker_work (w : WorkerPc) : nat :=
  match w with Waiting => 1 | Failing => 2 | Sending _ => 3 | Taken _ => 4 | Gone => 0 end.
Definition pc_work (d : option DrainPc) : nat :=
  match d with
  | None => 0
  | Some (Head _) => 4
  | Some (Routed _ _ _) => 3
  | Some (Checked _ _ _) => 2
  | Some (Fetched _ _ _ _) => 1
  end.
Definition sweep_work (w : SweepPc) : nat := match w with Left => 0 | Asleep => 1 | Inside => 2 | Ready => 8 end.

(** What is left to do after the stop. *)
Definition work s : nat :=
  pending_of worker_work s + 4 * length (rp_queue (rs_pool s)) +
  (4 * K + 5) * (length (rp_rerep_round (rs_pool s)) - rp_rerep_cursor (rs_pool s)) +
  pc_work (rs_drain s) + sweep_work (rs_sweep s).

Lemma work_release s d : rs_drain s = Some d → (work (release s) < work s)%nat.
Proof.
  intros Hd. unfold work, pending_of, release. cbn [rs_pool rs_workers rs_drain rs_sweep]. rewrite Hd.
  destruct (_ <=? _)%nat; cbn [with_active rp_queue rp_rerep_round rp_rerep_cursor];
    destruct d, (rs_sweep s); cbn [pc_work sweep_work]; lia.
Qed.

Lemma work_drain got d s :
  round_covered s → rs_drain s = Some d → (work (drain_step local got d s) < work s)%nat.
Proof.
  intros Hr Hd. pose proof (rc_pc s Hr d Hd) as Hpc. pose proof (work_release s d Hd) as Hrel.
  assert (∀ id, rp_rerep_round (rs_pool s) !! rp_rerep_cursor (rs_pool s) = Some id →
    rp_rerep_cursor (rs_pool s) < length (rp_rerep_round (rs_pool s)))%nat as Hlt by (intros id; apply lookup_lt_Some).
  destruct d as [n|n id targets|n id targets|n id targets blk]; cbn [drain_step pc_ok] in *.
  - destruct (_ <? _)%nat; [|done].
    destruct (rp_rerep_round (rs_pool s) !! rp_rerep_cursor (rs_pool s)) as [id|]; [|done]. specialize (Hlt id eq_refl).
    destruct (push_targets local (rs_router s) id); cbn zeta; unfold work, pending_of; rewrite Hd; cbn; nia.
  - destruct (_ <? _)%nat; [done|]. unfold work, pending_of. rewrite Hd. cbn. lia.
  - destruct Hpc as [(Hid & _) _]. specialize (Hlt id Hid). destruct got; unfold work, pending_of; rewrite Hd; cbn; nia.
  - destruct Hpc as [(Hid & HK & _) _]. specialize (Hlt id Hid). unfold work, pending_of. rewrite Hd. cbn.
    rewrite length_app, length_fmap. nia.
Qed.

Lemma work_worker s i w0 w p' l' :
  rs_workers s !! i = Some w0 → rp_rerep_round p' = rp_rerep_round (rs_pool s) →
  rp_rerep_cursor p' = rp_rerep_cursor (rs_pool s) →
  (worker_work w + 4 * length (rp_queue p') < worker_work w0 + 4 * length (rp_queue (rs_pool s)))%nat →
  (work (with_worker s i w p' l') < work s)%nat.
Proof.
  intros Ei Er Ec Hw. unfold work, pending_of. cbn [with_worker rs_pool rs_workers rs_drain rs_sweep]. rewrite Er, Ec.
  pose proof (pending_insert worker_work _ i w0 w Ei). lia.
Qed.

Lemma rstep_work_worker e s s' :
  (match e with EPop _ | ECount _ | ESent _ _ | EFail _ | EExit _ => True | _ => False end) →
  rstep local has_transport e s = Some s' →
  (work s' < work s)%nat ∧ rp_running (rs_pool s') = rp_running (rs_pool s).
Proof.
  intros He. destruct e as [|i|i|i ok|i|i| | | | | | |]; try done; cbn [rstep];
    unfold pop_front, count_task, finish_send, count_failed, leave_loop, worker_at;
    destruct (rs_workers s !! i) as [[| | | |]|] eqn:Ei; try done.
  - destruct (rp_queue (rs_pool s)) as [|t q] eqn:Eq; [done|]. intros [= <-]. split; [|done].
    eapply work_worker; try done. rewrite Eq. cbn [with_queue rp_queue length worker_work]. lia.
  - intros [= <-]. split; [|done]. eapply work_worker; try done. cbn [count_attempt rp_queue worker_work]. lia.
  - intros [= <-]. split; [|done]. eapply work_worker; try done. destruct (_ && _); cbn [worker_work]; lia.
  - intros [= <-]. split; [|done]. eapply work_worker; try done. cbn [count_failure rp_queue worker_work]. lia.
  - destruct (worker_exits _); [|done]. intros [= <-]. split; [|done]. eapply work_worker; try done. cbn [worker_work]. lia.
Qed.

Lemma rstep_work e s s' :
  rstate_ok s → rp_running (rs_pool s) = false → rstep local has_transport e s = Some s' →
  (work s' < work s)%nat ∧ rp_running (rs_pool s') = false.
Proof.
  intros [Hq Hr] Hrun E. pose proof (rc_stopped s Hr Hrun) as Ht.
  destruct e as [peer b|i|i|i ok|i|i|round now| |r| | |got|];
    try (rewrite <- Hrun; refine (rstep_work_worker _ s s' _ E); exact I); cbn [rstep] in E; rewrite ?Hrun, ?Ht, ?andb_false_r in E; try done.
  - by destruct (rs_drain s).
  - destruct (rs_sweep s) eqn:Es; try done. injection E as <-. split; [|done]. unfold work, pending_of. rewrite Es. cbn. lia.
  - destruct (rs_sweep s) eqn:Es; try done. destruct (rs_drain s) eqn:Ed; [done|]. injection E as <-.
    destruct (rp_rerep_active (rs_pool s)); (split; [|done]); unfold work, pending_of; rewrite Es, Ed; cbn; lia.
  - destruct (rs_drain s) as [d|] eqn:Ed; [|done]. injection E as <-. split; [by apply work_drain|].
    destruct d as [n| | |]; cbn [drain_step]; unfold release; repeat case_match; done.
Qed.

(** A worker that has not left can act once the queue is closed. *)
Lemma worker_enabled s i w :
  rp_running (rs_pool s) = false → rs_workers s !! i = Some w → w ≠ Gone →
  ∃ e s', answers_ok e s ∧ rstep local has_transport e s = Some s'.
Proof.
  intros Hrun Hi Hw. destruct w as [|t|t| |]; [..|done].
  - destruct (rp_queue (rs_pool s)) as [|t q] eqn:Eq.
    + exists (EExit i). eexists. split; [done|]. cbn. unfold leave_loop, worker_at, worker_exits. by rewrite Hi, Eq, Hrun.
    + exists (EPop i). eexists. split; [done|]. cbn. unfold pop_front, worker_at. by rewrite Hi, Eq.
  - exists (ECount i). eexists. split; [done|]. cbn. unfold count_task, worker_at. by rewrite Hi.
  - exists (ESent i true). eexists. split; [done|]. cbn. unfold finish_send, worker_at. by rewrite Hi.
  - exists (EFail i). eexists. split; [done|]. cbn. unfold count_failed, worker_at. by rewrite Hi.
Qed.

(** The store has an answer for every id. *)
Lemma drain_enabled s d :
  rs_drain s = Some d → ∃ e s', answers_ok e s ∧ rstep local has_transport e s = Some s'.
Proof.
  intros Hd. exists (EDrain (match d with Checked _ id _ => Some (mkGetResult (payload id) DRAM false) | _ => None end)).
  eexists. split; cbn; rewrite Hd; [by destruct d|reflexivity].
Qed.

Lemma shutdown_enabled s :
  rstate_ok s → rp_running (rs_pool s) = false →
  joined s ∨ ∃ e s', answers_ok e s ∧ rstep local has_transport e s = Some s'.
Proof.
  intros [Hq Hr] Hrun. destruct (rs_drain s) as [d|] eqn:Ed; [right; by eapply drain_enabled|].
  destruct (decide (Forall (λ w, w = Gone) (rs_workers s))) as [Hg|Hg].
  - destruct (rs_sweep s) eqn:Es; [right; exists EWake|right; exists EEnter| |by left].
    + eexists. split; [done|]. cbn. by rewrite Es.
    + eexists. split; [done|]. cbn. by rewrite Es, Ed.
    + destruct (rc_inside s Hr Es) as [d Hd]. congruence.
  - right. apply not_Forall_Exists, Exists_exists in Hg as (w & (i & Hi)%list_elem_of_lookup & Hw); [|apply _].
    by eapply worker_enabled.
Qed.
End reachable.

(** ** What every run promises *)

(** C4 (no push is lost or duplicated): in every run of request threads, workers,
    sweep and membership changes, the tasks leave the queue in the order in which
    they were pushed; each one that left is in the hands of one worker or its send
    was finished exactly once; the two counters, which a worker updates after it
    has released the lock, lag behind the tasks taken and the sends that failed by
    exactly the workers that are between the two; and the queue exceeds its bound
    by at most one block's pushes. *)
Theorem replicator_threads_safe local has_transport payload kept r s :
  reachable local has_transport payload kept (fanout r) (new_rstate r) s →
  lg_pushed (rs_log s) = lg_popped (rs_log s) ++ rp_queue (rs_pool s) ∧
  lg_popped (rs_log s) ≡ₚ hands s ++ (lg_sent (rs_log s)).*1 ∧
  (length (rp_queue (rs_pool s)) ≤ kReplicationQueueMax + fanout r)%nat ∧
  rp_replicate_attempts (rs_pool s) =
    u64 (Z.of_nat (length (lg_popped (rs_log s))) - Z.of_nat (pending_of uncounted s)) ∧
  rp_replicate_failures (rs_pool s) =
    u64 (Z.of_nat (length (filter (λ x, x.2 = false) (lg_sent (rs_log s)))) - Z.of_nat (pending_of unfailed s)).
Proof.
  intros Hs. destruct (reachable_ok _ _ _ _ _ _ _ (new_rstate_ok local payload kept (fanout r) r (le_n _)) Hs) as [[] _].
  done.
Qed.

(** C17 (a round covers its blocks): whatever the other threads do, once the
    re-replication round is over, each of its blocks that the store did not lose
    meanwhile was put on the queue, with its own payload, for exactly the owners
    other than the node itself under one of the rings that were in force since the
    round was installed; none was dropped because the queue was full. *)
Theorem rereplication_round_covers local has_transport payload kept r s id :
  reachable local has_transport payload kept (fanout r) (new_rstate r) s →
  rp_rerep_active (rs_pool s) = false → id ∈ rp_rerep_round (rs_pool s) → kept id →
  ∃ ring (tasks : list ReplicateTask), ring ∈ lg_rings (rs_log s) ∧
    (∀ p, p ≠ "" → p ∈ rt_peer_id <$> tasks ↔ p ∈ owners (Route id ring) ∧ p ≠ local) ∧
    ∀ t, t ∈ tasks → kv_id (rt_block t) = id ∧ kv_data (rt_block t) = payload id ∧ t ∈ lg_pushed (rs_log s).
Proof.
  intros Hs Ha Hid Hk.
  destruct (reachable_ok _ _ _ _ _ _ _ (new_rstate_ok local payload kept (fanout r) r (le_n _)) Hs) as [_ Hr].
  pose proof (rc_done _ _ _ _ _ Hr) as H1. rewrite (rc_active _ _ _ _ _ Hr Ha), take_ge in H1 by done. rewrite <- H1 in Hid.
  apply list_elem_of_fmap in Hid as ([id' o] & -> & Ho). apply (rc_outcome _ _ _ _ _ Hr) in Ho. cbn in Hk.
  destruct o as [| |tasks]; [|done|].
  - destruct Ho as (ring & Hin & Ho). exists ring, []. split_and!; [done|exact Ho|]. by intros t ?%not_elem_of_nil.
  - destruct Ho as [(ring & Hin & Ho) Ht]. by exists ring, tasks.
Qed.

(** C18 (the destructor returns): after the stop every run is finite, with an
    explicit bound on its length, and as long as a thread is left one of them can
    act, so the destructor's joins return. *)
Theorem replicator_shutdown_ends local has_transport payload kept r s :
  reachable local has_transport payload kept (fanout r) (new_rstate r) s →
  rp_running (rs_pool s) = false →
  (∀ es s', run_answers local has_transport payload kept (fanout r) es s → rsteps local has_transport es s = Some s' →
     (length es ≤ work (fanout r) s)%nat) ∧
  (joined s ∨ ∃ e s', answers_ok payload kept (fanout r) e s ∧ rstep local has_transport e s = Some s').
Proof.
  intros Hs Hrun. assert (rstate_ok local payload kept (fanout r) s) as Hok.
  { exact (reachable_ok _ _ _ _ _ _ _ (new_rstate_ok local payload kept (fanout r) r (le_n _)) Hs). }
  split; [|by apply shutdown_enabled]. intros es. clear Hs.
  revert s Hok Hrun. induction es as [|e es IH]; intros s Hok Hrun s'; cbn [rsteps length run_answers]; [lia|].
  intros [Ha Hes]. destruct (rstep local has_transport e s) as [s1|] eqn:E; [|done]. cbn [mbind option_bind]. intros E'.
  destruct (rstep_work _ _ _ _ _ _ _ _ Hok Hrun E) as [Hlt Hrun1].
  assert (rstate_ok local payload kept (fanout r) s1) as Hok1 by (eapply rstep_ok; [exact Hok|exact Ha|exact E]).
  specialize (IH s1 Hok1 Hrun1 s' (Hes s1 eq_refl) E'). lia.
Qed.

(** After the stop nothing more is pushed. *)
Record quiet (pushed : list ReplicateTask) (s : RState) : Prop := {
  qu_running : rp_running (rs_pool s) = false;
  qu_drain : rs_drain s = None;
  qu_sweep : rs_sweep s = Asleep ∨ rs_sweep s = Left;
  qu_gone : Gone ∈ rs_workers s → rp_queue (rs_pool s) = [];
  qu_pushed : lg_pushed (rs_log s) = pushed;
  qu_trigger : rs_trigger s = Idle
}.

Lemma rstep_quiet local has_transport pushed e s s' :
  quiet pushed s → rstep local has_transport e s = Some s' → quiet pushed s'.
Proof.
  assert (∀ (l : list WorkerPc) i w, Gone ∈ <[i := w]> l → w ≠ Gone → Gone ∈ l) as Hg.
  { intros l i w (j & Hj)%list_elem_of_lookup Hw.
    apply list_lookup_insert_Some in Hj as [(_ & -> & _)|[_ Hj]]; [done|by eapply list_elem_of_lookup_2]. }
  intros [H1 H2 H3 H4 H5 H6]. destruct e as [peer b|i|i|i ok|i|i|round now| |r| | |got|]; cbn [rstep];
    rewrite ?H1, ?H2, ?H6, ?andb_false_r; try done;
    unfold pop_front, count_task, finish_send, count_failed, leave_loop, worker_at;
    try destruct (rs_workers s !! i) as [[| | | |]|]; try done.
  - destruct (rp_queue (rs_pool s)) as [|t q]; [done|]. intros [= <-]. split; cbn; try done.
    intros Hin%Hg; [|done]. by specialize (H4 Hin).
  - intros [= <-]. split; cbn; try done. by intros Hin%Hg; [apply H4|].
  - intros [= <-]. split; cbn; try done. intros Hin%Hg; [by apply H4|]. by destruct (_ && _).
  - intros [= <-]. split; cbn; try done. by intros Hin%Hg; [apply H4|].
  - unfold worker_exits. destruct (rp_queue (rs_pool s)) eqn:Eq; [|done]. rewrite H1. intros [= <-]. by split.
  - destruct (rs_sweep s); try done. intros [= <-]. split; cbn; auto.
  - destruct H3 as [-> | ->]; done.
Qed.

Lemma rsteps_quiet local has_transport payload kept K pushed es s s' :
  run_answers local has_transport payload kept K es s → quiet pushed s → rstate_ok local payload kept K s →
  rsteps local has_transport es s = Some s' → quiet pushed s' ∧ rstate_ok local payload kept K s'.
Proof.
  revert s. induction es as [|e es IH]; intros s; cbn [rsteps run_answers]; [by intros _ ?? [= <-]|]. intros [Ha Hes] Hq Hok.
  destruct (rstep local has_transport e s) as [s2|] eqn:E; [|done]. cbn [mbind option_bind].
  apply IH; [by apply Hes|by eapply rstep_quiet|]. by eapply rstep_ok.
Qed.

(** C19 (shutdown sends what is queued): when the replicator is destroyed while
    no round is being drained and the sweep thread sleeps, the workers take every
    task that was queued before they leave: for each push exactly one send was
    made, and finished with success or with failure. *)
Theorem replicator_shutdown_sends local has_transport payload kept r s es s' :
  reachable local has_transport payload kept (fanout r) (new_rstate r) s →
  rs_drain s = None → rs_sweep s = Asleep →
  run_answers local has_transport payload kept (fanout r) (EStop :: es) s →
  rsteps local has_transport (EStop :: es) s = Some s' → joined s' →
  rp_queue (rs_pool s') = [] ∧ lg_pushed (rs_log s') = lg_pushed (rs_log s) ∧
  lg_pushed (rs_log s') ≡ₚ (lg_sent (rs_log s')).*1.
Proof.
  intros Hs Hd Hsw Ha E [Hj _].
  pose proof (reachable_ok _ _ _ _ _ _ _ (new_rstate_ok local payload kept (fanout r) r (le_n _)) Hs) as Hok.
  cbn [rsteps run_answers] in E, Ha. destruct (rstep local has_transport EStop s) as [s1|] eqn:E1; [|done].
  cbn [mbind option_bind] in E. destruct Ha as [Ha1 Ha].
  pose proof (rstep_ok _ _ _ _ _ _ _ _ Hok Ha1 E1) as Hok1.
  assert (quiet (lg_pushed (rs_log s)) s1) as Hq1.
  { cbn [rstep] in E1. destruct (rs_trigger s) eqn:Et; try done. destruct (rp_running (rs_pool s)) eqn:Erun; [|done].
    injection E1 as <-. split; cbn; auto. intros Hg. by destruct (qo_running _ _ (proj1 Hok) Erun). }
  destruct (rsteps_quiet _ _ _ _ _ _ _ _ _ (Ha _ eq_refl) Hq1 Hok1 E) as [[Hr _ _ Hg Hp _] [[H1 H2 _ _ _ H6 _] _]].
  assert (rp_queue (rs_pool s') = []) as Hnil.
  { apply Hg. destruct (rs_workers s') as [|w ws]; [done|]. apply Forall_cons in Hj as [-> _]. by left. }
  split_and!; [done|done|]. rewrite H1, Hnil, app_nil_r, H2.
  replace (hands s') with (@nil ReplicateTask); [done|]. unfold hands.
  clear -Hj. induction Hj as [|w ws -> _ IH]; [done|exact IH].
Qed.

(** ** A thread that runs alone *)

Section sequential.
Context {M D : Type} `{TierStore M} `{TierStore D} (local : string) (has_transport has_metrics : bool).
Implicit Types (s : RState) (st : Tiered M D).

(** The state in which a drain leaves the pool. *)
Definition settled (p : ReplicatorPoolState) : ReplicatorPoolState :=
  if (length (rp_rerep_round p) <=? rp_rerep_cursor p)%nat then with_active p false else p.

Lemma drain_alone fuel n s st :
  rs_drain s = Some (Head n) → fuel = (length (rp_rerep_round (rs_pool s)) - rp_rerep_cursor (rs_pool s))%nat →
  ∃ es s', rsteps local has_transport es s = Some s' ∧ rs_drain s' = None ∧
    rs_pool s' = settled (drain_loop local (rs_router s) fuel n (rs_pool s) st).1.
Proof.
  assert (∀ d s, rs_drain s = Some d → rstep local has_transport (EDrain None) s = Some (drain_step local None d s)) as Hs1.
  { intros d s' Hd. cbn. by rewrite Hd. }
  assert (∀ n s, rs_drain s = Some (Head n) → drain_step local None (Head n) s = release s →
    ∃ es s', rsteps local has_transport es s = Some s' ∧ rs_drain s' = None ∧ rs_pool s' = settled (rs_pool s)) as Hrel.
  { intros m s' Hd E. exists [EDrain None], (release s'). cbn [rsteps]. by rewrite (Hs1 _ _ Hd), E. }
  revert n s st. induction fuel as [|fuel IH]; intros n s st Hd Hf; cbn [drain_loop fst].
  { apply (Hrel n s Hd). cbn [drain_step]. rewrite lookup_ge_None_2 by lia. by destruct (_ <? _)%nat. }
  destruct (n <? kReReplicationBatch)%nat eqn:En; [|apply (Hrel n s Hd); cbn [drain_step]; by rewrite En].
  destruct (rp_rerep_round (rs_pool s) !! rp_rerep_cursor (rs_pool s)) as [id|] eqn:Eid;
    [|apply (Hrel n s Hd); cbn [drain_step]; by rewrite En, Eid].
  pose proof (Hs1 (Head n) s Hd) as E1. cbn [drain_step] in E1. rewrite En, Eid in E1.
  destruct (push_targets local (rs_router s) id) as [|t ts]; cbn zeta in *.
  { destruct (IH n (with_drain s (Head n) (advance_cursor (rs_pool s)) (log_done (rs_log s) id NoTargets)) st eq_refl)
      as (es & s' & Es & Hn & Hp); [cbn; lia|].
    exists (EDrain None :: es), s'. cbn [rsteps]. rewrite E1. exact (conj Es (conj Hn Hp)). }
  set (targets := t :: ts) in *. set (s1 := with_drain s (Routed n id targets) _ _) in E1.
  pose proof (Hs1 (Routed n id targets) s1 eq_refl) as E2. cbn [drain_step s1 with_drain rs_pool] in E2.
  destruct (_ <? _)%nat eqn:Eroom in |- *; fold targets; rewrite Eroom in E2.
  { exists [EDrain None; EDrain None], (release s1). cbn [rsteps]. by rewrite E1; cbn [mbind option_bind]; rewrite E2. }
  set (s2 := with_drain s1 (Checked n id targets) _ _) in E2.
  destruct (Get id st) as [[g|] st'] eqn:Eg.
  - set (blk := mkKvBlock id (gr_data g) (gr_tier_found g) 0).
    destruct (IH (S n) (drain_step local None (Fetched n id targets blk) (with_drain s2 (Fetched n id targets blk) (rs_pool s2) (rs_log s2))) st')
      as (es & s' & Es & Hn & Hp); [reflexivity|cbn; lia|].
    exists (EDrain None :: EDrain None :: EDrain (Some g) :: EDrain None :: es), s'. cbn [rsteps].
    rewrite E1. cbn [mbind option_bind]. rewrite E2. exact (conj Es (conj Hn Hp)).
  - destruct (IH n (drain_step local None (Checked n id targets) s2) st') as (es & s' & Es & Hn & Hp); [reflexivity|cbn; lia|].
    exists (EDrain None :: EDrain None :: EDrain None :: es), s'. cbn [rsteps].
    rewrite E1. cbn [mbind option_bind]. rewrite E2. exact (conj Es (conj Hn Hp)).
Qed.

(** The threads alone: a first drain that no other thread interrupts leaves the
    pool as [DrainReReplication] does, and a worker that takes and sends a task
    leaves it as [worker_step] does. *)
Theorem replicator_alone s st now i ok :
  rs_trigger s = Owes → rp_rerep_active (rs_pool s) = true → rs_drain s = None →
  rs_workers s !! i = Some Waiting → rp_queue (rs_pool s) ≠ [] →
  (∃ es s', rsteps local has_transport (EKick :: es) s = Some s' ∧ rs_drain s' = None ∧
     rs_pool s' = (DrainReReplication local (rs_router s) has_metrics now (rs_pool s) st).1.2) ∧
  (∃ s', rsteps local has_transport
           ([EPop i; ECount i; ESent i ok] ++ if has_transport && ok then [] else [EFail i]) s = Some s' ∧
     rs_pool s' = (worker_step has_transport has_metrics ok (rs_pool s)).2).
Proof.
  intros Htr Hact Hd Hi Hq. split.
  - destruct (drain_alone (length (rp_rerep_round (rs_pool s)) - rp_rerep_cursor (rs_pool s)) 0
      (mkRState (rs_pool s) (rs_router s) (rs_workers s) (rs_sweep s) Draining (Some (Head 0)) (rs_log s)) st eq_refl eq_refl)
      as (es & s' & Es & Hn & Hp).
    exists es, s'. cbn [rsteps rstep]. rewrite Htr, Hd, Hact. split; [exact Es|]. split; [exact Hn|].
    rewrite Hp. unfold DrainReReplication, settled. rewrite Hact. cbn [negb rs_pool rs_router].
    destruct (drain_loop _ _ _ _ _ _) as [p1 st1]. cbn [fst]. by destruct (_ <=? _)%nat.
  - assert (∀ (l : list WorkerPc) w, (i < length l)%nat → <[i := w]> l !! i = Some w) as Hl.
    { intros l w. apply list_lookup_insert_eq. }
    pose proof (lookup_lt_Some _ _ _ Hi) as Hlt. unfold worker_step.
    destruct (rp_queue (rs_pool s)) as [|t q] eqn:Eq; [done|].
    destruct (has_transport && ok) eqn:Eok; eexists; cbn [rsteps rstep app];
      unfold pop_front, worker_at; rewrite Hi, Eq; cbn [mbind option_bind];
      unfold count_task, worker_at; cbn [with_worker rs_workers]; rewrite Hl by done; cbn [mbind option_bind];
      unfold finish_send, worker_at; cbn [with_worker rs_workers]; rewrite Hl by (by rewrite length_insert);
      cbn [mbind option_bind]; rewrite Eok; [done|]. cbn [rsteps rstep].
    unfold count_failed, worker_at. cbn [with_worker rs_workers]. by rewrite Hl by (by rewrite !length_insert).
Qed.
End sequential.

(** ** Concrete runs *)

Definition wit_task : KvBlock := mkKvBlock (block_id_of_byte Byte.x01) [Byte.x01] DRAM 0.
Definition wit_other : KvBlock := mkKvBlock (block_id_of_byte Byte.x02) [Byte.x01] DRAM 0.

Definition wit_payload (id : BlockId) : bytes := [Byte.x01].
Definition wit_kept (id : BlockId) : Prop := True.

Definition wit_got : option GetResult := Some (mkGetResult [Byte.x01] DRAM false).

(** A worker's turn with a task, which is sent or not. *)
Definition wit_turn (i : nat) (ok : bool) : list Event :=
  [EPop i; ECount i; ESent i ok] ++ if ok then [] else [EFail i].

(** A request pushes a block; the thread that reports the loss of a peer installs
    a round and drains it while a worker sends; the second send fails. *)
Definition wit_busy : list Event :=
  [EReplicate "b" wit_task; ETrigger [kv_id wit_task] 0; EPop 0; EKick; EDrain None; ECount 0; ESent 0 true;
   EDrain None; EDrain wit_got; EWake; EDrain None; EDrain None] ++ wit_turn 2 false.

Definition wit_stop : list Event := [EReplicate "b" wit_task; EPop 1; EReplicate "c" wit_task].

Definition wit_join : list Event :=
  [EStop; EWake; EPop 0; EExit 3; ECount 1; ECount 0; ESent 1 true; ESent 0 false; EExit 1; EFail 0; EExit 0; EExit 2].

(** The store has every block and the ring stays, along a run. *)
Fixpoint plain_run (es : list Event) (s : RState) : bool :=
  match es with
  | [] => true
  | e :: es =>
      match e with
      | ERing _ => false
      | EDrain got =>
          match rs_drain s, got with
          | Some (Checked _ _ _), Some g => bool_decide (gr_data g = [Byte.x01])
          | Some (Checked _ _ _), None => false
          | _, _ => true
          end
      | _ => true
      end &&
      match rstep "a" true e s with Some s' => plain_run es s' | None => true end
  end.

Lemma plain_answers K es s : plain_run es s = true → run_answers "a" true wit_payload wit_kept K es s.
Proof.
  revert s. induction es as [|e es IH]; intros s; [done|]. cbn [plain_run run_answers]. intros [He Hes]%andb_true_iff.
  split; [|intros s' E; apply IH; by rewrite E in Hes]. destruct e as [| | | | | | | | | | |got|]; try done. cbn.
  destruct (rs_drain s) as [[| | |]|]; try done. destruct got; [|done]. by apply bool_decide_eq_true in He.
Qed.

Lemma plain_run_app es1 es2 s s1 :
  plain_run (es1 ++ es2) s = true → rsteps "a" true es1 s = Some s1 → plain_run es2 s1 = true.
Proof.
  revert s. induction es1 as [|e es1 IH]; intros s; cbn [app rsteps]; [by intros ? [= <-]|]. cbn [plain_run].
  intros [_ H]%andb_true_iff. destruct (rstep "a" true e s) as [s2|]; [|done]. exact (IH s2 H).
Qed.

Definition rrun (es : list Event) : option RState := rsteps "a" true es (new_rstate wit_ring).

Lemma wit_reachable es s :
  plain_run es (new_rstate wit_ring) = true → rrun es = Some s →
  reachable "a" true wit_payload wit_kept (fanout wit_ring) (new_rstate wit_ring) s.
Proof. intros Hp E. eapply rsteps_reachable; [apply reach_start|by apply plain_answers|exact E]. Qed.

(** A part of the state that a run ends in, computed. *)
Lemma rrun_view {A} (f : RState → A) es a : f <$> rrun es = Some a → ∃ s, rrun es = Some s ∧ f s = a.
Proof. destruct (rrun es) as [s|]; [|done]. intros [= H]. by exists s. Qed.

Lemma rrun_app es1 es2 : rrun (es1 ++ es2) = s1 ← rrun es1; rsteps "a" true es2 s1.
Proof.
  unfold rrun. generalize (new_rstate wit_ring) as s. induction es1 as [|e es1 IH]; intros s; [done|].
  cbn [app rsteps]. destruct (rstep "a" true e s); [apply IH|done].
Qed.

Lemma replicator_threads_safe_witness :
  ∃ s, rrun wit_busy = Some s ∧ rp_replicate_attempts (rs_pool s) = 2 ∧ length (lg_popped (rs_log s)) = 2%nat ∧
    lg_pushed (rs_log s) = lg_popped (rs_log s) ++ rp_queue (rs_pool s).
Proof.
  destruct (rrun_view (λ s, (length (lg_popped (rs_log s)), pending_of uncounted s)) wit_busy (2%nat, 0%nat))
    as (s & E & [= Hp Hu]); [vm_compute; reflexivity|].
  destruct (replicator_threads_safe "a" true wit_payload wit_kept wit_ring s (wit_reachable wit_busy s eq_refl E))
    as (H1 & _ & _ & H4 & _).
  exists s. split; [exact E|]. split; [rewrite H4, Hp, Hu; reflexivity|]. split; [exact Hp|exact H1].
Defined.

Lemma rereplication_round_covers_witness :
  ∃ s ring (tasks : list ReplicateTask), rrun wit_busy = Some s ∧ ring ∈ lg_rings (rs_log s) ∧ "b" ∈ owners (Route (kv_id wit_task) wit_ring) ∧
    lg_rings (rs_log s) = [wit_ring] ∧ (∀ t, t ∈ tasks → t ∈ lg_pushed (rs_log s)) ∧ "b" ∈ rt_peer_id <$> tasks.
Proof.
  destruct (rrun_view (λ s, (rp_rerep_active (rs_pool s), rp_rerep_round (rs_pool s), lg_rings (rs_log s))) wit_busy
    (false, [kv_id wit_task], [wit_ring])) as (s & E & [= Ha Hr Hl]); [vm_compute; reflexivity|].
  destruct (rereplication_round_covers "a" true wit_payload wit_kept wit_ring s (kv_id wit_task)
    (wit_reachable wit_busy s eq_refl E) Ha) as (ring & tasks & Hring & Hown & Ht); [rewrite Hr; left|exact I|].
  assert ("b" ∈ owners (Route (kv_id wit_task) wit_ring)) as Hb
    by exact (bool_decide_eq_true_1 ("b" ∈ owners (Route (kv_id wit_task) wit_ring)) eq_refl).
  exists s, ring, tasks. split; [exact E|]. split; [exact Hring|]. split; [exact Hb|]. split; [exact Hl|].
  split; [intros t Hin; exact (proj2 (proj2 (Ht t Hin)))|].
  apply Hown; [discriminate|]. rewrite Hl in Hring. apply list_elem_of_singleton in Hring as ->. split; [exact Hb|discriminate].
Defined.

Lemma replicator_shutdown_ends_witness :
  ∃ s, rrun (wit_stop ++ [EStop]) = Some s ∧
    ∀ es s', run_answers "a" true wit_payload wit_kept (fanout wit_ring) es s → rsteps "a" true es s = Some s' →
      (length es ≤ work (fanout wit_ring) s)%nat.
Proof.
  destruct (rrun_view (λ s, rp_running (rs_pool s)) (wit_stop ++ [EStop]) false) as (s & E & Hr); [vm_compute; reflexivity|].
  exists s. split; [exact E|].
  exact (proj1 (replicator_shutdown_ends "a" true wit_payload wit_kept wit_ring s
    (wit_reachable (wit_stop ++ [EStop]) s eq_refl E) Hr)).
Defined.

Lemma replicator_shutdown_sends_witness :
  ∃ s, rrun (wit_stop ++ wit_join) = Some s ∧ length (lg_sent (rs_log s)) = 2%nat ∧
    lg_pushed (rs_log s) ≡ₚ (lg_sent (rs_log s)).*1.
Proof.
  destruct (rrun_view (λ s, (rs_drain s, rs_sweep s)) wit_stop (None, Asleep)) as (s & E & [= Hd Hs]); [vm_compute; reflexivity|].
  destruct (rrun_view (λ s, (rs_workers s, rs_sweep s, length (lg_sent (rs_log s)))) (wit_stop ++ wit_join)
    (replicate 4 Gone, Left, 2%nat)) as (s' & E' & [= Hw Hl Hn]); [vm_compute; reflexivity|].
  exists s'. split; [exact E'|]. split; [exact Hn|].
  rewrite rrun_app, E in E'. cbn [mbind option_bind] in E'.
  apply (replicator_shutdown_sends "a" true wit_payload wit_kept wit_ring s (tail wit_join) s'
    (wit_reachable wit_stop s eq_refl E) Hd Hs);
    [apply plain_answers; exact (plain_run_app wit_stop wit_join (new_rstate wit_ring) s eq_refl E)|exact E'|].
  split; [rewrite Hw; repeat constructor|exact Hl].
Defined.

(** ** Runs that the two locks allow *)

(** Requests have filled the queue when a round is installed, so the first drain
    stops at once; a worker sends one task; the sweep finds room, reads the block,
    and the stop comes.  The workers send what is queued and leave; then the sweep
    pushes. *)
Definition race_run : list Event :=
  replicate kReplicationQueueMax (EReplicate "b" wit_other) ++
  [ETrigger [kv_id wit_task] 0; EKick; EDrain None; EDrain None] ++ wit_turn 0 true ++
  [EWake; EEnter; EDrain None; EDrain None; EDrain wit_got; EStop] ++
  concat (replicate 1023 (wit_turn 0 true)) ++
  [EExit 0; EExit 1; EExit 2; EExit 3; EDrain None; EDrain None; EWake].

(** C23 (the destructor leaves a push behind): the destructor joins the workers
    before the sweep thread.  A sweep that is past its check of the queue when
    the stop comes pushes after the last worker has left; the round then counts
    as complete, the joins have returned, and the push is on the queue for
    ever, while every other one was sent. *)
Theorem shutdown_race :
  plain_run race_run (new_rstate wit_ring) = true ∧
  ∃ s, rrun race_run = Some s ∧ joined s ∧ rp_queue (rs_pool s) = [mkReplicateTask "b" wit_task] ∧
    lg_sent (rs_log s) = replicate kReplicationQueueMax (mkReplicateTask "b" wit_other, true) ∧
    rp_rerep_active (rs_pool s) = false.
Proof.
  split; [vm_compute; reflexivity|].
  destruct (rrun_view (λ s, (rs_workers s, rs_sweep s, rp_queue (rs_pool s), lg_sent (rs_log s), rp_rerep_active (rs_pool s)))
    race_run (replicate 4 Gone, Left, [mkReplicateTask "b" wit_task],
      replicate kReplicationQueueMax (mkReplicateTask "b" wit_other, true), false)) as (s & E & H);
    [vm_compute; reflexivity|].
  exists s. apply pair_eq in H as [[[[Hw Hl]%pair_eq Hq]%pair_eq Hn]%pair_eq Ha].
  split_and!; [exact E|split; [rewrite Hw; repeat constructor|exact Hl]|exact Hq|exact Hn|exact Ha].
Qed.

(** The sweep checks the queue when it holds one task less than its bound; a
    request fills it before the sweep pushes. *)
Theorem queue_overshoot :
  (λ s, length (rp_queue (rs_pool s))) <$>
    rrun (replicate 1023 (EReplicate "b" wit_task) ++
          [ETrigger [kv_id wit_task] 0; EKick; EDrain None; EDrain None; EReplicate "b" wit_task; EDrain wit_got; EDrain None]) =
  Some (S kReplicationQueueMax).
Proof. vm_compute. reflexivity. Qed.

Lemma replicator_alone_witness :
  ∃ s es s', rrun [EReplicate "b" wit_task; ETrigger [kv_id wit_task] 0] = Some s ∧
    rsteps "a" true (EKick :: es) s = Some s' ∧
    rs_pool s' = (DrainReReplication "a" (rs_router s) true 0 (rs_pool s) wit_tiered2).1.2.
Proof.
  destruct (rrun_view (λ s, (rs_trigger s, rp_rerep_active (rs_pool s), rs_drain s, rs_workers s, rp_queue (rs_pool s)))
    [EReplicate "b" wit_task; ETrigger [kv_id wit_task] 0]
    (Owes, true, None, replicate 4 Waiting, [mkReplicateTask "b" wit_task])) as (s & E & [= Hr Ha Hd Hw Hq]);
    [vm_compute; reflexivity|].
  destruct (replicator_alone "a" true true s wit_tiered2 0 0 true Hr Ha Hd) as [(es & s' & Es & _ & Hp) _];
    [rewrite Hw; reflexivity|rewrite Hq; discriminate|].
  exists s, es, s'. split_and!; [exact E|exact Es|exact Hp].
Defined.
