(* ===== verification/Telemetry.v ===== *)
(** * Telemetry

    The calls into the metrics object that the handlers and the threads of a
    node make (cache.cpp, membership.cpp, replication.cpp, eviction.cpp),
    threaded through the node's state machine.  [recorded] lists the calls of
    one step in order; a metered node is a node with its counters.  How long a
    request took is an argument of the step. *)
From S2P Require Import Prelude Types Double Metrics TierStore BlockStore SsdBlockStore TieredStore Routing.
From S2P Require Import Eviction Membership Replication Cache.

(** The metrics calls of the replicator.  The recovery time is cast to whole
    milliseconds; [latency] is the time of one send. *)
Definition repl_event (latency : Z) (e : ReplEffect) : list MetricEvent :=
  match e with
  | Replication.RecordUnderReplicated n => [Metrics.RecordUnderReplicated (Z.of_nat n)]
  | Replication.RecordFailoverRecovery elapsed => [Metrics.RecordFailoverRecovery (Z.quot elapsed 1000000)]
  | Replication.RecordStreamBytes n => [Metrics.RecordStreamBytes n latency]
  | TransportSend _ _ _ _ => []
  end.
Definition repl_events (latency : Z) (effs : list ReplEffect) : list MetricEvent :=
  concat (repl_event latency <$> effs).

(** Those of an eviction pass. *)
Definition pass_event (e : PassEffect) : list MetricEvent :=
  match e with
  | Eviction.RecordTierUsage t used cap => [Metrics.RecordTierUsage t used cap]
  | Eviction.RecordEvictionPass blocks freed => [Metrics.RecordEvictionPass (Z.of_nat blocks) freed]
  | EvictBroadcast _ _ => []
  end.
Definition pass_events (effs : list PassEffect) : list MetricEvent := concat (pass_event <$> effs).

Section telemetry.
Context (blake3_full : bytes → Hash256).

(** Those of a membership change, in the order of its effects on the node. *)
Fixpoint member_events (ch : Choices) (effs : list MemberEffect) (c : LetheCache) : list MetricEvent :=
  match effs with
  | [] => []
  | e :: effs =>
      (match e with
       | Membership.RecordEpoch n => [Metrics.RecordEpoch n]
       | RouterSetPeers _ => []
       | Membership.TriggerReReplication lost =>
           repl_events 0 (TriggerReReplication (cc_node_id (lc_cfg c)) (lc_router c) (lc_has_metrics c)
             (ch_orders ch) (ch_now ch) (ch_now' ch) lost (lc_pool c) (lc_store c)).1.1
       end) ++ member_events ch effs (apply_effect blake3_full ch c e)
  end.

Definition recorded (c : LetheCache) (e : NodeEvent) (latency : Z) : list MetricEvent :=
  match e with
  | NLookup ids =>
      let res := (Lookup ids c).1 in
      if lc_has_metrics c then [RecordLookup (lr_hit_count res) (lr_miss_count res) latency] else []
  | NInsert blocks => if lc_has_metrics c then [RecordInsert (Insert blocks c).1 latency] else []
  | NFetch _ | NIngest _ _ _ | NEvictBroadcast _ _ => []
  | NHeartbeat ch it it' now p =>
      let '(_, effs, m) := Membership.OnHeartbeat it it' now p (lc_membership c) in
      member_events ch effs (with_membership c m)
  | NTick ch o reply now1 now2 =>
      let '(effs, m) := HeartbeatTick o reply now1 now2 (lc_membership c) in
      member_events ch effs (with_membership c m)
  | NSweep now =>
      repl_events 0 (DrainReReplication (cc_node_id (lc_cfg c)) (lc_router c) (lc_has_metrics c) now
        (lc_pool c) (lc_store c)).1.1
  | NWorker ok => repl_events latency (worker_step true (lc_has_metrics c) ok (lc_pool c)).1
  | NEvict o it t => pass_events (evict_tick o it t c).1
  end.

(** A step of a metered node. *)
Definition metered_step (n : LetheCache * Metrics) (e : NodeEvent * Z) : LetheCache * Metrics :=
  (node_step blake3_full n.1 e.1, fold_left record (recorded n.1 e.1 e.2) n.2).
End telemetry.

(** ** Gauges *)

(** How a list of calls changes the epoch gauge, the deficit gauge and the
    count of successful sends. *)
Definition epoch_after (g : Z) (evs : list MetricEvent) : Z :=
  fold_left (λ g e, match e with Metrics.RecordEpoch n => to_long_long n | _ => g end) evs g.
Definition deficit_after (g : Z) (evs : list MetricEvent) : Z :=
  fold_left (λ g e, match e with Metrics.RecordUnderReplicated n => to_long_long n | _ => g end) evs g.
Definition sent_after (g : Z) (evs : list MetricEvent) : Z :=
  fold_left (λ g e, match e with Metrics.RecordStreamBytes _ _ => g +₆₄ 1 | _ => g end) evs g.

Lemma record_gauges evs m :
  mx_cluster_epoch (fold_left record evs m) = epoch_after (mx_cluster_epoch m) evs ∧
  mx_replicas_under_target (fold_left record evs m) = deficit_after (mx_replicas_under_target m) evs ∧
  mx_req_stream_ok (fold_left record evs m) = sent_after (mx_req_stream_ok m) evs.
Proof.
  revert m. induction evs as [|e evs IH]; intros m; [done|]. cbn [fold_left].
  destruct (IH (record m e)) as (-> & -> & ->). destruct m as [], e; split_and!; reflexivity.
Qed.

(** The candidates of a round that are still to be dispatched. *)
Definition deficit (s : ReplicatorPoolState) : Z :=
  to_long_long (Z.of_nat (length (rp_rerep_round s) - rp_rerep_cursor s)).

(** The sends that succeeded, by the replicator's own counters. *)
Definition sends_ok (s : ReplicatorPoolState) : Z := u64 (rp_replicate_attempts s - rp_replicate_failures s).

(** What only the sweep and the workers change. *)
Definition same_progress (s s' : ReplicatorPoolState) : Prop :=
  rp_rerep_round s' = rp_rerep_round s ∧ rp_rerep_cursor s' = rp_rerep_cursor s ∧ sends_ok s' = sends_ok s.

(** *** The sweep *)

Section sweep.
Context (local : string) (r : Router).

Lemma drain_loop_sends fuel dispatched s (st : TieredStore) :
  sends_ok (drain_loop local r fuel dispatched s st).1 = sends_ok s.
Proof.
  revert dispatched s st. induction fuel as [|fuel IH]; intros dispatched s st; [done|]. cbn [drain_loop].
  destruct (dispatched <? kReReplicationBatch)%nat; [|done].
  destruct (rp_rerep_round s !! rp_rerep_cursor s) as [id|]; [|done].
  destruct (push_targets local r id) as [|p ps]; [by rewrite IH|].
  destruct (kReplicationQueueMax <? _)%nat; [done|].
  destruct (TieredStore.Get id st) as [[g|] st']; by rewrite IH.
Qed.

Lemma drain_gauges now s (st : TieredStore) :
  inv st → round_ok s →
  let '(eff, s', _) := DrainReReplication local r true now s st in
  (∀ g, deficit_after g (repl_events 0 eff) = if rp_rerep_active s then deficit s' else g) ∧
  (rp_rerep_active s = false → s' = s) ∧ sends_ok s' = sends_ok s ∧
  (∀ g, epoch_after g (repl_events 0 eff) = g) ∧ (∀ g, sent_after g (repl_events 0 eff) = g).
Proof.
  intros Hi [Hc _]. unfold DrainReReplication. destruct (rp_rerep_active s) eqn:Ea; cbn [negb]; [|done].
  pose proof (drain_loop_sends (length (rp_rerep_round s) - rp_rerep_cursor s) 0 s st) as Hs.
  destruct (drain_loop local r _ 0 s st) as [s1 st1]. cbn [fst] in Hs.
  destruct (length (rp_rerep_round s1) <=? rp_rerep_cursor s1)%nat eqn:E; split_and!; try done.
  intros g. unfold deficit. cbn. apply Nat.leb_le in E.
  by replace (length (rp_rerep_round s1) - rp_rerep_cursor s1)%nat with 0%nat by lia.
Qed.

Lemma trigger_gauges o now now' lost s (st : TieredStore) :
  inv st → round_ok s →
  let '(eff, s', _) := TriggerReReplication local r true o now now' lost s st in
  (∀ g, g = deficit s → deficit_after g (repl_events 0 eff) = deficit s') ∧ sends_ok s' = sends_ok s ∧
  (∀ g, epoch_after g (repl_events 0 eff) = g) ∧ (∀ g, sent_after g (repl_events 0 eff) = g).
Proof.
  intros Hi Hr. unfold TriggerReReplication. destruct lost as [|p lost]; [by split_and!|].
  set (s1 := with_round s (candidates local r o st) now).
  assert (round_ok s1) as Hr1 by (split; simpl; [lia|by destruct (candidates local r o st)]).
  pose proof (drain_gauges now' s1 st Hi Hr1) as Hd.
  destruct (DrainReReplication local r true now' s1 st) as [[eff s'] st'].
  destruct Hd as (H1 & H2 & H3 & H4 & H5). cbn [app repl_events fmap list_fmap concat repl_event].
  split_and!; [|done|exact H4|exact H5].
  intros g _. unfold deficit_after in *. cbn [fold_left]. rewrite H1.
  destruct (rp_rerep_active s1); [done|]. rewrite (H2 eq_refl). unfold deficit, s1. cbn.
  by rewrite Nat.sub_0_r.
Qed.
End sweep.

(** *** Inserts and workers *)

Lemma enqueue_progress block peers s : same_progress s (fold_left (enqueue_or_drop block) peers s).
Proof.
  revert s. induction peers as [|p peers IH]; intros s; [done|]. cbn [fold_left].
  destruct (IH (enqueue_or_drop block s p)) as (H1 & H2 & H3).
  unfold enqueue_or_drop in *. destruct (_ <=? _)%nat; by split_and!.
Qed.

Lemma insert_progress blocks n c :
  same_progress (lc_pool c) (lc_pool (fold_left insert_step blocks (n, c)).2).
Proof.
  revert n c. induction blocks as [|b blocks IH]; intros n c; [done|]. cbn [fold_left].
  assert (same_progress (lc_pool c) (lc_pool (insert_step (n, c) b).2)) as (H1 & H2 & H3).
  { unfold insert_step. destruct (TieredStore.Put b (kv_tier b) (lc_store c)) as [[t|] st']; [|done].
    destruct (_ >? _); [|done]. apply enqueue_progress. }
  destruct (insert_step (n, c) b) as [n1 c1]. cbn [snd] in *. destruct (IH n1 c1) as (H4 & H5 & H6).
  split_and!; congruence.
Qed.

(** The parts of a node that a request leaves alone. *)
Lemma insert_wiring blocks n c :
  lc_has_metrics (fold_left insert_step blocks (n, c)).2 = lc_has_metrics c ∧
  lc_membership (fold_left insert_step blocks (n, c)).2 = lc_membership c.
Proof.
  revert n c. induction blocks as [|b blocks IH]; intros n c; [done|]. cbn [fold_left].
  assert (lc_has_metrics (insert_step (n, c) b).2 = lc_has_metrics c ∧
          lc_membership (insert_step (n, c) b).2 = lc_membership c) as [<- <-].
  { unfold insert_step. destruct (TieredStore.Put b (kv_tier b) (lc_store c)) as [[t|] st']; [|done].
    by destruct (_ >? _). }
  destruct (insert_step (n, c) b) as [n1 c1]. apply IH.
Qed.

Lemma worker_gauges ok latency s :
  let '(eff, s') := worker_step true true ok s in
  sent_after (sends_ok s) (repl_events latency eff) = sends_ok s' ∧
  rp_rerep_round s' = rp_rerep_round s ∧ rp_rerep_cursor s' = rp_rerep_cursor s ∧
  (∀ g, deficit_after g (repl_events latency eff) = g) ∧ (∀ g, epoch_after g (repl_events latency eff) = g).
Proof.
  unfold worker_step. destruct (rp_queue s) as [|t q]; [done|].
  destruct ok; cbn [andb]; split_and!; try done; cbn; unfold sends_ok, u64; cbn.
  - rewrite Zminus_mod_idemp_l, Zplus_mod_idemp_l. f_equal. lia.
  - rewrite Zminus_mod_idemp_l, Zminus_mod_idemp_r. f_equal. lia.
Qed.

(** *** Membership *)

Definition last_epoch (e0 : Z) (effs : list MemberEffect) : Z :=
  fold_left (λ e x, match x with Membership.RecordEpoch n => n | _ => e end) effs e0.

Lemma last_epoch_app e0 l1 l2 : last_epoch e0 (l1 ++ l2) = last_epoch (last_epoch e0 l1) l2.
Proof. apply fold_left_app. Qed.

(** A handler that changes the epoch records it. *)
Record announces (m : Membership) (effs : list MemberEffect) (m' : Membership) : Prop := {
  an_metrics : mb_has_metrics m' = mb_has_metrics m;
  an_epoch : mb_has_metrics m = true → last_epoch (mb_epoch m) effs = mb_epoch m'
}.

Lemma announces_nil m m' :
  mb_has_metrics m' = mb_has_metrics m → mb_epoch m' = mb_epoch m → announces m [] m'.
Proof. intros H1 H2. split; [done|]. intros _. by rewrite H2. Qed.

Lemma announces_app m1 e1 m2 e2 m3 : announces m1 e1 m2 → announces m2 e2 m3 → announces m1 (e1 ++ e2) m3.
Proof.
  intros [M1 E1] [M2 E2]. split; [congruence|]. intros H. rewrite last_epoch_app, E1 by done.
  apply E2. congruence.
Qed.

Lemma change_announces it lost m :
  announces m (OnMembershipChange it lost m).1 (OnMembershipChange it lost m).2.
Proof.
  split; [done|]. intros Hm. unfold OnMembershipChange. cbn [fst snd with_epoch mb_has_metrics mb_epoch mb_has_router mb_has_replicator].
  rewrite Hm. by destruct (mb_has_router m), (mb_has_replicator m && _).
Qed.

Lemma heartbeat_announces it it' now p m :
  let '(_, effs, m') := Membership.OnHeartbeat it it' now p m in announces m effs m'.
Proof.
  unfold Membership.OnHeartbeat. cbn zeta. destruct (negb _); [|by apply announces_nil].
  set (m1 := Membership.with_peers _ _). pose proof (change_announces it' [] m1) as [H1 H2].
  destruct (OnMembershipChange it' [] m1) as [effs m2]. by split.
Qed.

Lemma tick_announces o reply now1 now2 m :
  announces m (HeartbeatTick o reply now1 now2 m).1 (HeartbeatTick o reply now1 now2 m).2.
Proof.
  unfold HeartbeatTick.
  assert (announces m (SendHeartbeatsToAllPeers (to_targets o) (to_resurrect o) reply now1 m).1
    (SendHeartbeatsToAllPeers (to_targets o) (to_resurrect o) reply now1 m).2) as Hsend.
  { unfold SendHeartbeatsToAllPeers. destruct (filter _ (heartbeat_targets _ m)).*1; [by apply announces_nil|].
    destruct (fold_left _ _ _) as [ps [|q res]]; [by apply announces_nil|].
    destruct (change_announces (to_resurrect o) [] (Membership.with_peers m ps)) as [H1 H2]. by split. }
  destruct (SendHeartbeatsToAllPeers _ _ _ _ m) as [eff1 m1]. cbn [fst snd] in Hsend.
  unfold EvaluateSuspicions. set (m2 := Membership.with_peers m1 _).
  destruct (filter _ _).*1 as [|l lost].
  - cbn [fst snd]. destruct Hsend as [H1 H2]. by split.
  - destruct (change_announces (to_change o) (l :: lost) m2) as [H1 H2].
    destruct (OnMembershipChange (to_change o) (l :: lost) m2) as [eff2 m3]. cbn [fst snd] in *.
    apply (announces_app m eff1 m1); [done|]. by split.
Qed.

Section node.
Context (payload : BlockId → bytes) (blake3_full : bytes → Hash256).

Lemma member_gauges ch effs c :
  lc_has_metrics c = true → inv (lc_store c) → pool_ok (lc_pool c) →
  let c' := apply_effects blake3_full ch effs c in
  let evs := member_events blake3_full ch effs c in
  lc_has_metrics c' = true ∧
  (∀ e, epoch_after (to_long_long e) evs = to_long_long (last_epoch e effs)) ∧
  (∀ g, g = deficit (lc_pool c) → deficit_after g evs = deficit (lc_pool c')) ∧
  sends_ok (lc_pool c') = sends_ok (lc_pool c) ∧ (∀ g, sent_after g evs = g).
Proof.
  revert c. induction effs as [|e effs IH]; intros c Hm Hi Hp; cbn zeta.
  { by split_and!. }
  set (c1 := apply_effect blake3_full ch c e).
  destruct (apply_effects_ok blake3_full ch [e] c Hi Hp) as (Hi1 & _ & Hp1 & _).
  change (apply_effects blake3_full ch [e] c) with c1 in Hi1, Hp1.
  assert (lc_has_metrics c1 = true) as Hm1.
  { unfold c1. destruct e; try done. cbn [apply_effect]. by destruct (TriggerReReplication _ _ _ _ _ _ _ _ _) as [[??]?]. }
  destruct (IH c1 Hm1 Hi1 Hp1) as (I1 & I2 & I3 & I4 & I5). cbn zeta in *.
  change (apply_effects blake3_full ch (e :: effs) c) with (apply_effects blake3_full ch effs c1).
  cbn [member_events]. fold c1. unfold epoch_after, deficit_after, sent_after in *.
  setoid_rewrite fold_left_app.
  destruct e as [n|ids|lost].
  - split_and!; [done|intros e0; exact (I2 n)|exact I3|exact I4|exact I5].
  - split_and!; [done|exact I2|exact I3|exact I4|exact I5].
  - pose proof (trigger_gauges (cc_node_id (lc_cfg c)) (lc_router c) (ch_orders ch) (ch_now ch) (ch_now' ch)
      lost (lc_pool c) (lc_store c) Hi (proj2 Hp)) as Ht.
    subst c1. cbn [apply_effect] in *. rewrite Hm in *.
    destruct (TriggerReReplication _ _ _ _ _ _ _ _ _) as [[eff s'] st'].
    destruct Ht as (T1 & T2 & T3 & T4). cbn [fst] in *. cbn [lc_pool with_pool with_store] in *.
    unfold epoch_after, deficit_after, sent_after in *.
    split_and!; [done| | | |].
    + intros e. rewrite T3. apply I2.
    + intros g Hg. apply I3. by apply T1.
    + by rewrite I4.
    + intros g. by rewrite T4, I5.
Qed.

(** The gauges agree with the state that they describe. *)
Record telemetry_ok (c : LetheCache) (m : Metrics) : Prop := {
  tl_metrics : lc_has_metrics c = true;
  tl_member : mb_has_metrics (lc_membership c) = true;
  tl_epoch : mx_cluster_epoch m = to_long_long (mb_epoch (lc_membership c));
  tl_deficit : mx_replicas_under_target m = deficit (lc_pool c);
  tl_sent : mx_req_stream_ok m = sends_ok (lc_pool c)
}.

(** A step whose calls touch none of the three. *)
Lemma telemetry_quiet c c' m evs :
  telemetry_ok c m → lc_has_metrics c' = lc_has_metrics c → lc_membership c' = lc_membership c →
  same_progress (lc_pool c) (lc_pool c') →
  Forall (λ e, match e with
    | Metrics.RecordEpoch _ | Metrics.RecordUnderReplicated _ | Metrics.RecordStreamBytes _ _ => False
    | _ => True end) evs →
  telemetry_ok c' (fold_left record evs m).
Proof.
  intros [H1 H2 H3 H4 H5] Em Eb (E1 & E2 & E3) Hq.
  assert (∀ g, epoch_after g evs = g ∧ deficit_after g evs = g ∧ sent_after g evs = g) as Hg.
  { clear -Hq. induction Hq as [|e evs He _ IH]; intros g; [done|].
    unfold epoch_after, deficit_after, sent_after. cbn [fold_left]. destruct e; try done; apply IH. }
  destruct (record_gauges evs m) as (G1 & G2 & G3).
  split; rewrite ?Em, ?Eb, ?G1, ?G2, ?G3; rewrite ?(proj1 (Hg _)), ?(proj1 (proj2 (Hg _))), ?(proj2 (proj2 (Hg _)));
    try done.
  - rewrite H4. unfold deficit. by rewrite E1, E2.
  - by rewrite H5, E3.
Qed.

(** A membership handler with its effects. *)
Lemma telemetry_member c m m' effs ch :
  node_ok payload c → telemetry_ok c m → announces (lc_membership c) effs m' →
  telemetry_ok (apply_effects blake3_full ch effs (with_membership c m'))
    (fold_left record (member_events blake3_full ch effs (with_membership c m')) m).
Proof.
  intros Hok [H1 H2 H3 H4 H5] [A1 A2].
  destruct (member_gauges ch effs (with_membership c m') H1 (no_store _ c Hok) (no_pool _ c Hok))
    as (G1 & G2 & G3 & G4 & G5).
  destruct (apply_effects_ok blake3_full ch effs (with_membership c m') (no_store _ c Hok) (no_pool _ c Hok))
    as (_ & _ & _ & Hmem & _).
  destruct (record_gauges (member_events blake3_full ch effs (with_membership c m')) m) as (R1 & R2 & R3).
  cbn zeta in *. cbn [lc_membership with_membership lc_pool] in *.
  split; rewrite ?Hmem, ?R1, ?R2, ?R3; try done.
  - congruence.
  - rewrite H3, G2. by rewrite A2.
  - by apply G3.
  - by rewrite G5, G4.
Qed.

Lemma pass_events_quiet cfg mt peers local o t e (st : TieredStore) :
  Forall (λ e, match e with
    | Metrics.RecordEpoch _ | Metrics.RecordUnderReplicated _ | Metrics.RecordStreamBytes _ _ => False
    | _ => True end) (pass_events (RunPassForTier cfg mt peers local o t e st).1.1.2).
Proof.
  unfold pass_events. generalize (RunPassForTier cfg mt peers local o t e st).1.1.2. intros effs.
  induction effs as [|x effs IH]; [constructor|]. cbn. apply Forall_app. split; [|done].
  destruct x; repeat constructor.
Qed.

Lemma telemetry_step c m e latency :
  node_ok payload c → telemetry_ok c m →
  telemetry_ok (node_step blake3_full c e) (fold_left record (recorded blake3_full c e latency) m).
Proof.
  intros Hok Ht.
  destruct e as [ids|blocks|id|id d pur|ch it it' now p|ch o reply now1 now2|now|ok|o it t|ev src];
    cbn [node_step recorded].
  - rewrite (tl_metrics c m Ht). unfold Lookup. destruct (fold_left _ ids _) as [res st'].
    apply (telemetry_quiet c); try done. repeat constructor.
  - rewrite (tl_metrics c m Ht). unfold Insert. destruct (insert_wiring blocks 0 c) as [W1 W2].
    apply (telemetry_quiet c); try done; [apply insert_progress|repeat constructor].
  - unfold FetchLocal. destruct (TieredStore.Get id (lc_store c)) as [got st'].
    by apply (telemetry_quiet c _ _ []).
  - by apply (telemetry_quiet c _ _ []).
  - unfold OnHeartbeat. pose proof (heartbeat_announces it it' now p (lc_membership c)) as Ha.
    destruct (Membership.OnHeartbeat _ _ _ _ _) as [[rep effs] m']. by apply telemetry_member.
  - unfold heartbeat_tick. pose proof (tick_announces o reply now1 now2 (lc_membership c)) as Ha.
    destruct (HeartbeatTick _ _ _ _ _) as [effs m']. by apply telemetry_member.
  - unfold sweep_tick. rewrite (tl_metrics c m Ht).
    pose proof (drain_gauges (cc_node_id (lc_cfg c)) (lc_router c) now (lc_pool c) (lc_store c)
      (no_store _ c Hok) (proj2 (no_pool _ c Hok))) as Hd.
    destruct (DrainReReplication _ _ _ _ _ _) as [[eff s'] st']. destruct Hd as (D1 & D2 & D3 & D4 & D5).
    destruct (record_gauges (repl_events 0 eff) m) as (R1 & R2 & R3), Ht as [H1 H2 H3 H4 H5].
    cbn [fst]. split; rewrite ?R1, ?R2, ?R3, ?D1, ?D4, ?D5; try done.
    + rewrite H4. destruct (rp_rerep_active (lc_pool c)); [done|]. by rewrite (D2 eq_refl).
    + by rewrite H5, <- D3.
  - unfold worker_tick. rewrite (tl_metrics c m Ht). pose proof (worker_gauges ok latency (lc_pool c)) as Hw.
    destruct (worker_step true true ok (lc_pool c)) as [eff s']. destruct Hw as (W1 & W2 & W3 & W4 & W5).
    destruct (record_gauges (repl_events latency eff) m) as (R1 & R2 & R3), Ht as [H1 H2 H3 H4 H5].
    cbn [fst snd]. split; rewrite ?R1, ?R2, ?R3, ?W4, ?W5; try done.
    + rewrite H4. unfold deficit. cbn [lc_pool with_pool]. by rewrite W2, W3.
    + by rewrite H5.
  - unfold evict_tick. pose proof (pass_events_quiet (lc_evict_cfg c) (lc_has_metrics c)
      (Some (AllPeerAddresses it (lc_membership c), Epoch (lc_membership c))) (cc_node_id (lc_cfg c)) o t
      (lc_evictor c) (lc_store c)) as Hq.
    destruct (RunPassForTier _ _ _ _ _ _ _ _) as [[[res effs] ev] st']. cbn [fst snd] in *.
    by apply (telemetry_quiet c).
  - by apply (telemetry_quiet c _ _ []).
Qed.

(** C32 (telemetry): in every run of a node the exported gauges describe its
    state: the cluster epoch is the membership epoch, the count of blocks below
    their replication target is the number of candidates that the current
    re-replication round has not dispatched, and the count of streamed blocks
    is the number of sends that the replicator attempted and that did not
    fail. *)
Theorem telemetry_gauges c m evs :
  node_ok payload c → telemetry_ok c m → run_ok payload blake3_full c evs.*1 →
  let '(c', m') := fold_left (metered_step blake3_full) evs (c, m) in
  c' = fold_left (node_step blake3_full) evs.*1 c ∧
  mx_cluster_epoch m' = to_long_long (mb_epoch (lc_membership c')) ∧
  mx_replicas_under_target m' =
    to_long_long (Z.of_nat (length (rp_rerep_round (lc_pool c')) - rp_rerep_cursor (lc_pool c'))) ∧
  mx_req_stream_ok m' = u64 (rp_replicate_attempts (lc_pool c') - rp_replicate_failures (lc_pool c')).
Proof.
  revert c m. induction evs as [|[e l] evs IH]; intros c m Hok Ht Hr.
  - destruct Ht. by split_and!.
  - destruct Hr as [He Hr]. cbn [fold_left fmap list_fmap fst]. unfold metered_step at 2. cbn [fst snd].
    apply IH; [by apply node_step_ok|by apply telemetry_step|done].
Qed.

(** ** Counters *)

(** A counter [f] to which every call adds [g], modulo [2^64]. *)
Definition counts (f : Metrics → Z) (g : MetricEvent → Z) : Prop :=
  ∀ m e, f (record m e) = f m +₆₄ g e ∨ g e = 0 ∧ f (record m e) = f m.

Lemma counts_fold f g evs m :
  counts f g → 0 ≤ f m < 2 ^ 64 → f (fold_left record evs m) = u64 (f m + zsum (g <$> evs)).
Proof.
  intros Hc. revert m. induction evs as [|e evs IH]; intros m Hm.
  - cbn. rewrite Z.add_0_r. symmetry. by apply u64_small.
  - cbn [fold_left fmap list_fmap zsum foldr]. fold (zsum (g <$> evs)). destruct (Hc m e) as [E|[Eg E]].
    + rewrite IH by (rewrite E; apply u64_range). rewrite E. unfold u64.
      rewrite Zplus_mod_idemp_l. f_equal. lia.
    + rewrite IH by (by rewrite E). rewrite E, Eg. done.
Qed.

Definition ev_hits (e : MetricEvent) : Z := match e with RecordLookup h _ _ => h | _ => 0 end.
Definition ev_misses (e : MetricEvent) : Z := match e with RecordLookup _ m _ => m | _ => 0 end.
Definition ev_accepted (e : MetricEvent) : Z := match e with RecordInsert a _ => a | _ => 0 end.
Definition ev_evicted (e : MetricEvent) : Z := match e with Metrics.RecordEvictionPass n _ => n | _ => 0 end.
Definition ev_freed (e : MetricEvent) : Z := match e with Metrics.RecordEvictionPass _ n => n | _ => 0 end.

Lemma counters_count :
  counts mx_req_lookup_hit ev_hits ∧ counts mx_req_lookup_miss ev_misses ∧
  counts mx_req_insert_ok ev_accepted ∧ counts mx_eviction_blocks_total ev_evicted ∧
  counts mx_eviction_bytes_freed_total ev_freed.
Proof. split_and!; intros [] []; cbn; auto. Qed.

(** Calls of the threads that are not evictions. *)
Definition background (e : MetricEvent) : Prop :=
  match e with
  | RecordLookup _ _ _ | RecordInsert _ _ | Metrics.RecordEvictionPass _ _ => False
  | _ => True
  end.

Lemma repl_background latency effs : Forall background (repl_events latency effs).
Proof.
  induction effs as [|e effs IH]; [constructor|]. cbn. apply Forall_app. split; [|done].
  destruct e; repeat constructor.
Qed.

Lemma member_background ch effs c : Forall background (member_events blake3_full ch effs c).
Proof.
  revert c. induction effs as [|e effs IH]; intros c; [constructor|]. cbn [member_events].
  apply Forall_app. split; [|apply IH]. destruct e; [repeat constructor..|apply repl_background].
Qed.

Lemma background_sum evs :
  Forall background evs →
  zsum (ev_hits <$> evs) = 0 ∧ zsum (ev_misses <$> evs) = 0 ∧ zsum (ev_accepted <$> evs) = 0 ∧
  zsum (ev_evicted <$> evs) = 0 ∧ zsum (ev_freed <$> evs) = 0.
Proof.
  induction 1 as [|e evs He _ (H1 & H2 & H3 & H4 & H5)]; [done|]. cbn.
  by destruct e; try done; split_and!.
Qed.

(** What a step reported to its caller. *)
Definition step_hits (c : LetheCache) (e : NodeEvent) : Z :=
  match e with NLookup ids => lr_hit_count (Lookup ids c).1 | _ => 0 end.
Definition step_misses (c : LetheCache) (e : NodeEvent) : Z :=
  match e with NLookup ids => lr_miss_count (Lookup ids c).1 | _ => 0 end.
Definition step_accepted (c : LetheCache) (e : NodeEvent) : Z :=
  match e with NInsert blocks => (Insert blocks c).1 | _ => 0 end.
Definition step_pass (c : LetheCache) (e : NodeEvent) : PassResult :=
  match e with
  | NEvict o it t =>
      (RunPassForTier (lc_evict_cfg c) (lc_has_metrics c)
        (Some (AllPeerAddresses it (lc_membership c), Epoch (lc_membership c)))
        (cc_node_id (lc_cfg c)) o t (lc_evictor c) (lc_store c)).1.1.1
  | _ => no_pass
  end.
Definition step_evicted (c : LetheCache) (e : NodeEvent) : Z :=
  let r := step_pass c e in Z.of_nat (hbm_evicted r + dram_evicted r + ssd_evicted r).
Definition step_freed (c : LetheCache) (e : NodeEvent) : Z := bytes_freed (step_pass c e).

Fixpoint run_total (f : LetheCache → NodeEvent → Z) (c : LetheCache) (evs : list NodeEvent) : Z :=
  match evs with
  | [] => 0
  | e :: evs => f c e + run_total f (node_step blake3_full c e) evs
  end.

(** A pass that evicts nothing frees nothing. *)
Lemma sieve_loop_idle t need fuel (s : Sieve BlockStore SsdBlockStore) :
  sv_evicted (sieve_loop t need fuel s) = [] → sv_freed (sieve_loop t need fuel s) = sv_freed s.
Proof.
  revert s. induction fuel as [|fuel IH]; intros s; [done|]. cbn [sieve_loop].
  destruct (sv_freed s <? need); [|done]. intros He. rewrite (IH _ He).
  unfold sieve_step in *. destruct (m_visited _); [done|]. destruct (evict_victim _ _ _) as [rem st'].
  exfalso. assert (∀ fuel (s : Sieve BlockStore SsdBlockStore), sv_evicted s ≠ [] → sv_evicted (sieve_loop t need fuel s) ≠ []) as Hne.
  { clear. induction fuel as [|fuel IH]; intros s Hs; [done|]. cbn [sieve_loop].
    destruct (_ <? _); [|done]. apply IH. unfold sieve_step. destruct (m_visited _); [done|].
    destruct (evict_victim _ _ _). cbn. by destruct (sv_evicted s). }
  revert He. apply (Hne fuel). cbn. by destruct (sv_evicted s).
Qed.

Lemma pass_sums cfg peers local o t e (st : TieredStore) :
  let '(res, effs, _, _) := RunPassForTier cfg true peers local o t e st in
  zsum (ev_evicted <$> pass_events effs) = Z.of_nat (hbm_evicted res + dram_evicted res + ssd_evicted res) ∧
  zsum (ev_freed <$> pass_events effs) = bytes_freed res ∧
  zsum (ev_hits <$> pass_events effs) = 0 ∧ zsum (ev_misses <$> pass_events effs) = 0 ∧
  zsum (ev_accepted <$> pass_events effs) = 0.
Proof.
  unfold RunPassForTier. cbn [andb]. set (eff1 := if capacity_bytes t st >? 0 then _ else _).
  assert (∀ effs, pass_events (eff1 ++ effs) = pass_events eff1 ++ pass_events effs) as Happ.
  { intros effs. unfold pass_events. by rewrite fmap_app, concat_app. }
  assert (Forall background (pass_events eff1)) as Hb1 by (unfold eff1; destruct (_ >? _); repeat constructor).
  destruct (background_sum _ Hb1) as (B1 & B2 & B3 & B4 & B5).
  destruct ((capacity_bytes t st =? 0) || (used_bytes t st =? 0)); [by split_and!|].
  destruct (used_bytes t st <=? _); [by split_and!|].
  destruct (Snapshot o t st) as [|b bs] eqn:Es; [by split_and!|]. rewrite <- Es.
  set (s := sieve_loop _ _ _ _).
  assert (∀ addresses ep, Forall background (pass_events
    ((λ a, EvictBroadcast a (mkEvictBroadcastRequest local ep (sv_evicted s))) <$> addresses))) as Hb3.
  { intros addresses ep. unfold pass_events. induction addresses as [|x xs IHx]; [constructor|exact IHx]. }
  assert (∀ eff3 bb, Forall background (pass_events eff3) →
    let effs := eff1 ++ (if (0 <? length (sv_evicted s))%nat
       then [Eviction.RecordEvictionPass (length (sv_evicted s)) (sv_freed s)] else []) ++ eff3 in
    let res := mkPassResult (if bool_decide (t = HBM) then length (sv_evicted s) else 0)
       (if bool_decide (t = DRAM) then length (sv_evicted s) else 0)
       (if bool_decide (t = SSD) then length (sv_evicted s) else 0) (sv_freed s) bb in
    zsum (ev_evicted <$> pass_events effs) = Z.of_nat (hbm_evicted res + dram_evicted res + ssd_evicted res) ∧
    zsum (ev_freed <$> pass_events effs) = bytes_freed res ∧
    zsum (ev_hits <$> pass_events effs) = 0 ∧ zsum (ev_misses <$> pass_events effs) = 0 ∧
    zsum (ev_accepted <$> pass_events effs) = 0) as Hfin.
  { intros eff3 bb He3. cbn zeta. destruct (background_sum _ He3) as (C1 & C2 & C3 & C4 & C5).
    unfold pass_events in *. rewrite !fmap_app, !concat_app, !fmap_app, !zsum_app, B1, B2, B3, B4, B5, C1, C2, C3, C4, C5.
    cbn [hbm_evicted dram_evicted ssd_evicted bytes_freed].
    assert ((if bool_decide (t = HBM) then length (sv_evicted s) else 0) +
      (if bool_decide (t = DRAM) then length (sv_evicted s) else 0) +
      (if bool_decide (t = SSD) then length (sv_evicted s) else 0) = length (sv_evicted s))%nat as -> by (destruct t; repeat case_bool_decide; (done || lia)).
    destruct (0 <? length (sv_evicted s))%nat eqn:En; cbn; [split_and!; try done; lia|].
    apply Nat.ltb_ge in En. assert (sv_evicted s = []) as Enil by (by destruct (sv_evicted s); [|cbn in En; lia]).
    rewrite Enil. cbn. split_and!; try done. symmetry. exact (sieve_loop_idle t _ _ _ Enil). }
  destruct (broadcast_evictions cfg && _), peers as [[[|a l] ep]|]; cbn [BroadcastEvictionsToPeers]; apply Hfin;
    try constructor. apply Hb3.
Qed.

(** What the calls of one step add up to. *)
Lemma recorded_sums c e latency :
  lc_has_metrics c = true →
  let evs := recorded blake3_full c e latency in
  zsum (ev_hits <$> evs) = step_hits c e ∧ zsum (ev_misses <$> evs) = step_misses c e ∧
  zsum (ev_accepted <$> evs) = step_accepted c e ∧ zsum (ev_evicted <$> evs) = step_evicted c e ∧
  zsum (ev_freed <$> evs) = step_freed c e.
Proof.
  intros Hm. cbn zeta.
  assert (∀ evs, Forall background evs → match e with NLookup _ | NInsert _ | NEvict _ _ _ => False | _ => True end →
    zsum (ev_hits <$> evs) = step_hits c e ∧ zsum (ev_misses <$> evs) = step_misses c e ∧
    zsum (ev_accepted <$> evs) = step_accepted c e ∧ zsum (ev_evicted <$> evs) = step_evicted c e ∧
    zsum (ev_freed <$> evs) = step_freed c e) as Hback.
  { intros evs Hb He. destruct (background_sum evs Hb) as (-> & -> & -> & -> & ->). by destruct e. }
  destruct e as [ids|blocks|id|id d pur|ch it it' now p|ch o reply now1 now2|now|ok|o it t|ev src];
    cbn [recorded].
  - rewrite Hm. cbn. unfold step_evicted, step_freed. cbn. split_and!; try done; lia.
  - rewrite Hm. cbn. unfold step_evicted, step_freed. cbn. split_and!; try done; lia.
  - by apply Hback.
  - by apply Hback.
  - destruct (Membership.OnHeartbeat _ _ _ _ _) as [[rep effs] m']. by apply Hback; [apply member_background|].
  - destruct (HeartbeatTick _ _ _ _ _) as [effs m']. by apply Hback; [apply member_background|].
  - by apply Hback; [apply repl_background|].
  - by apply Hback; [apply repl_background|].
  - clear Hback. unfold step_evicted, step_freed, evict_tick. cbn [step_pass]. rewrite Hm.
    pose proof (pass_sums (lc_evict_cfg c)
      (Some (AllPeerAddresses it (lc_membership c), Epoch (lc_membership c))) (cc_node_id (lc_cfg c)) o t
      (lc_evictor c) (lc_store c)) as Hp.
    destruct (RunPassForTier _ _ _ _ _ _ _ _) as [[[res effs] ev] st']. by destruct Hp as (? & ? & ? & ? & ?).
  - by apply Hback.
Qed.

Lemma node_step_metrics c e : node_ok payload c → lc_has_metrics (node_step blake3_full c e) = lc_has_metrics c.
Proof.
  intros Hok.
  assert (∀ ch effs c, lc_has_metrics (apply_effects blake3_full ch effs c) = lc_has_metrics c) as He.
  { intros ch effs. induction effs as [|x effs IH]; intros c0; [done|]. unfold apply_effects in *. cbn [fold_left].
    rewrite IH. destruct x; try done. cbn. by destruct (TriggerReReplication _ _ _ _ _ _ _ _ _) as [[??]?]. }
  destruct e as [ids|blocks|id|id d pur|ch it it' now p|ch o reply now1 now2|now|ok|o it t|ev src];
    cbn [node_step]; try done.
  - unfold Lookup. by destruct (fold_left _ ids _).
  - apply insert_wiring.
  - unfold FetchLocal. by destruct (TieredStore.Get _ _).
  - unfold OnHeartbeat. destruct (Membership.OnHeartbeat _ _ _ _ _) as [[??]?]. cbn [snd]. by rewrite He.
  - unfold heartbeat_tick. destruct (HeartbeatTick _ _ _ _ _) as [??]. by rewrite He.
  - unfold sweep_tick. by destruct (DrainReReplication _ _ _ _ _ _) as [[??]?].
  - unfold evict_tick. by destruct (RunPassForTier _ _ _ _ _ _ _ _) as [[[??]?]?].
Qed.

Lemma run_counter f g step c m evs :
  counts f g → 0 ≤ f m < 2 ^ 64 →
  (∀ c e l, lc_has_metrics c = true → zsum (g <$> recorded blake3_full c e l) = step c e) →
  node_ok payload c → lc_has_metrics c = true → run_ok payload blake3_full c evs.*1 →
  f (fold_left (metered_step blake3_full) evs (c, m)).2 = u64 (f m + run_total step c evs.*1).
Proof.
  intros Hc Hm Hs. revert c m Hm. induction evs as [|[e l] evs IH]; intros c m Hm Hok Hhm Hr.
  - cbn. rewrite Z.add_0_r. symmetry. by apply u64_small.
  - destruct Hr as [He Hr]. cbn [fold_left fmap list_fmap fst run_total]. unfold metered_step at 2. cbn [fst snd].
    pose proof (counts_fold f g (recorded blake3_full c e l) m Hc Hm) as Ef.
    rewrite IH; [|rewrite Ef; apply u64_range|by apply node_step_ok|by rewrite node_step_metrics|done].
    rewrite Ef, (Hs c e l Hhm). unfold u64. rewrite Zplus_mod_idemp_l. f_equal. lia.
Qed.

(** The identities that a step was asked to look up. *)
Definition step_asked (c : LetheCache) (e : NodeEvent) : Z :=
  match e with NLookup ids => size_of ids | _ => 0 end.

Lemma hits_and_misses c evs :
  node_ok payload c → run_ok payload blake3_full c evs →
  Forall (λ e, match e with NLookup ids => size_of ids < 2 ^ 32 | _ => True end) evs →
  run_total step_hits c evs + run_total step_misses c evs = run_total step_asked c evs.
Proof.
  revert c. induction evs as [|e evs IH]; intros c Hok Hr Hl; [done|]. destruct Hr as [He Hr].
  apply Forall_cons in Hl as [Hl Hls]. cbn [run_total].
  specialize (IH _ (node_step_ok payload blake3_full c e Hok He) Hr Hls).
  assert (step_hits c e + step_misses c e = step_asked c e); [|lia].
  destruct e; try done. cbn [step_hits step_misses step_asked]. unfold Lookup.
  pose proof (lookup_loop (lc_router c) (cc_node_id (lc_cfg c)) ids (mkLookupResult [] 0 0) (lc_store c)
    (no_store _ c Hok)) as Hk.
  destruct (fold_left _ ids _) as [res st']. destruct Hk as (_ & _ & Hobs & Hcnt).
  cbn [lr_entries lr_hit_count lr_miss_count fmap list_fmap app length hits filter] in Hobs, Hcnt.
  cbn [fst]. destruct Hcnt as [-> ->]; [done|done|exact Hl|].
  assert (length (lr_entries res) = length ids) as Hn by (by rewrite <- (length_fmap observed), Hobs, length_fmap).
  assert (hits (lr_entries res) ≤ length (lr_entries res))%nat by apply length_filter. unfold size_of. lia.
Qed.

(** Counters: in every run of a node the exported request and eviction
    counters are, modulo [2^64], the sums of what the handlers reported to
    their callers: hits and misses of the lookups (together every identity that
    was asked for), accepted blocks of the inserts, blocks and bytes of the
    eviction passes. *)
Theorem telemetry_counters c evs :
  node_ok payload c → lc_has_metrics c = true → run_ok payload blake3_full c evs.*1 →
  Forall (λ e, match e with NLookup ids => size_of ids < 2 ^ 32 | _ => True end) evs.*1 →
  let m := (fold_left (metered_step blake3_full) evs (c, new_metrics)).2 in
  mx_req_lookup_hit m = u64 (run_total step_hits c evs.*1) ∧
  mx_req_lookup_hit m +₆₄ mx_req_lookup_miss m = u64 (run_total step_asked c evs.*1) ∧
  mx_req_insert_ok m = u64 (run_total step_accepted c evs.*1) ∧
  mx_eviction_blocks_total m = u64 (run_total step_evicted c evs.*1) ∧
  mx_eviction_bytes_freed_total m = u64 (run_total step_freed c evs.*1).
Proof.
  intros Hok Hm Hr Hl. cbn zeta. destruct counters_count as (C1 & C2 & C3 & C4 & C5).
  rewrite !(run_counter _ _ _ c new_metrics evs C1 ltac:(done) (λ c e l H, proj1 (recorded_sums c e l H)) Hok Hm Hr).
  rewrite (run_counter _ _ _ c new_metrics evs C2 ltac:(done)
    (λ c e l H, proj1 (proj2 (recorded_sums c e l H))) Hok Hm Hr).
  rewrite (run_counter _ _ _ c new_metrics evs C3 ltac:(done)
    (λ c e l H, proj1 (proj2 (proj2 (recorded_sums c e l H)))) Hok Hm Hr).
  rewrite (run_counter _ _ _ c new_metrics evs C4 ltac:(done)
    (λ c e l H, proj1 (proj2 (proj2 (proj2 (recorded_sums c e l H))))) Hok Hm Hr).
  rewrite (run_counter _ _ _ c new_metrics evs C5 ltac:(done)
    (λ c e l H, proj2 (proj2 (proj2 (proj2 (recorded_sums c e l H))))) Hok Hm Hr).
  split_and!; try done. cbn [new_metrics mx_req_lookup_hit mx_req_lookup_miss]. rewrite !Z.add_0_l.
  unfold u64. rewrite <- Zplus_mod. f_equal. by apply hits_and_misses.
Qed.
End node.

(** ** A concrete run *)

Definition wit_metered : list (NodeEvent * Z) := (λ e, (e, 40000)) <$> wit_events.

Lemma wit_telemetry_ok : telemetry_ok wit_node new_metrics.
Proof. split; by vm_compute. Qed.

Lemma wit_metered_run : run_ok wit_payload wit_blake3 wit_node wit_metered.*1.
Proof.
  split_and!; try done.
  - apply Forall_cons; split; [apply wit_on_ok|]. apply Forall_singleton. by split_and!; [split|..].
  - apply (bool_decide_unpack _). by vm_compute.
Qed.

Lemma telemetry_gauges_witness :
  let '(c, m) := fold_left (metered_step wit_blake3) wit_metered (wit_node, new_metrics) in
  mx_cluster_epoch m = to_long_long (mb_epoch (lc_membership c)) ∧ mx_cluster_epoch m = 1.
Proof.
  pose proof (telemetry_gauges wit_payload wit_blake3 wit_node new_metrics wit_metered wit_node_ok
    wit_telemetry_ok wit_metered_run) as H.
  assert (mx_cluster_epoch (fold_left (metered_step wit_blake3) wit_metered (wit_node, new_metrics)).2 = 1) as E
    by (vm_compute; reflexivity).
  destruct (fold_left (metered_step wit_blake3) wit_metered (wit_node, new_metrics)) as [c m].
  destruct H as (_ & H & _). split; [exact H|exact E].
Defined.

Lemma telemetry_counters_witness :
  let m := (fold_left (metered_step wit_blake3) wit_metered (wit_node, new_metrics)).2 in
  mx_req_lookup_hit m +₆₄ mx_req_lookup_miss m = 2 ∧ mx_req_insert_ok m = 2.
Proof.
  destruct (telemetry_counters wit_payload wit_blake3 wit_node wit_metered wit_node_ok eq_refl wit_metered_run)
    as (_ & H2 & H3 & _).
  - repeat constructor; by vm_compute.
  - cbn zeta. rewrite H2, H3. split; vm_compute; reflexivity.
Defined.
