(* ===== verification/Rpc.v ===== *)
(** * The gRPC server shim (main.cpp)

    The conversion between protocol messages and the facade, the service
    handlers, the peer list of the command line and the configuration that
    [main] builds.  Messages are records with the fields of proto/lethe.proto
    that the handlers read or write; a [bytes] field is a list of bytes, a
    [uint32] field a value below [2^32]. *)
From Stdlib Require Import Ascii.
From S2P Require Import Prelude Types Text TierStore BlockStore SsdBlockStore TieredStore Routing.
From S2P Require Import Eviction Membership Replication Cache.

(** ** Messages *)

Record PbBlockId : Type := mkPbBlockId {
  pb_hash : bytes;
  pb_layer : Z;
  pb_head_group : Z;
  pb_model_id : Z
}.

Record PbHit : Type := mkPbHit { hit_id : PbBlockId; hit_source_node : string; hit_tier : Z }.
Record LookupResponse : Type := mkLookupResponse {
  resp_hits : list PbHit;
  resp_misses : list PbBlockId
}.

Record PbBlock : Type := mkPbBlock { blk_id : PbBlockId; blk_kv_data : bytes; blk_tier_hint : Z }.
Record InsertResponse : Type := mkInsertResponse { accepted_count : Z; rejected_count : Z }.

Record FetchResponse : Type := mkFetchResponse {
  fr_id : PbBlockId;
  fr_kv_data : bytes;
  fr_found : bool;
  fr_tier : Z
}.

(** The purpose field is an open enumeration: any 32-bit value may arrive. *)
Record BlockChunk : Type := mkBlockChunk { ck_id : PbBlockId; ck_payload : bytes; ck_purpose : Z }.
Record StreamAck : Type := mkStreamAck { received_count : Z; ack_total_bytes : Z }.

Record HeartbeatResponse : Type := mkHeartbeatResponse {
  hb_alive_peers : list PeerStatus;
  hb_cluster_epoch : Z
}.

(** ** Identities on the wire *)

(** The digest is cut or padded with zero bytes to its 32 bytes. *)
Definition BlockIdFromProto (src : PbBlockId) : BlockId :=
  mkBlockId (vec_resize 32 (pb_hash src)) (pb_layer src) (pb_head_group src) (pb_model_id src).

Definition BlockIdToProto (src : BlockId) : PbBlockId :=
  mkPbBlockId (vec_to_list (b_hash src)) (b_layer src) (b_head_group src) (b_model_id src).

(** ** Handlers *)

(** The response of one entry: a hit or a miss. *)
Definition pb_entry (node_id : string) (e : Entry) : PbHit + PbBlockId :=
  match en_where e with
  | LocalHit => inl (mkPbHit (BlockIdToProto (en_id e)) node_id (Tier_to_Z (en_tier e)))
  | RemoteHit =>
      inl (mkPbHit (BlockIdToProto (en_id e)) (default "" (en_remote_node e)) (Tier_to_Z (en_tier e)))
  | Miss => inr (BlockIdToProto (en_id e))
  end.

Definition add_entry (node_id : string) (resp : LookupResponse) (e : Entry) : LookupResponse :=
  match pb_entry node_id e with
  | inl h => mkLookupResponse (resp_hits resp ++ [h]) (resp_misses resp)
  | inr m => mkLookupResponse (resp_hits resp) (resp_misses resp ++ [m])
  end.

Definition rpc_Lookup (block_ids : list PbBlockId) (c : LetheCache) : LookupResponse * LetheCache :=
  let '(result, c') := Lookup (BlockIdFromProto <$> block_ids) c in
  (fold_left (add_entry (cc_node_id (lc_cfg c))) (lr_entries result) (mkLookupResponse [] []), c').

(** An out-of-range hint means DRAM. *)
Definition tier_of_hint (raw_hint : Z) : Tier := default DRAM (Tier_of_Z raw_hint).

Definition block_of_proto (b : PbBlock) : KvBlock :=
  mkKvBlock (BlockIdFromProto (blk_id b)) (blk_kv_data b) (tier_of_hint (blk_tier_hint b)) 0.

Definition rpc_Insert (blocks : list PbBlock) (c : LetheCache) : InsertResponse * LetheCache :=
  let '(accepted, c') := Insert (block_of_proto <$> blocks) c in
  (mkInsertResponse accepted (u32 (u32 (size_of blocks) - accepted)), c').

Definition rpc_Fetch (req_id : PbBlockId) (c : LetheCache) : FetchResponse * LetheCache :=
  let id := BlockIdFromProto req_id in
  let '(got, c') := FetchLocal id c in
  (match got with
   | Some f => mkFetchResponse (BlockIdToProto id) (lf_data f) true (Tier_to_Z (lf_tier f))
   | None => mkFetchResponse (BlockIdToProto id) [] false 0
   end, c').

Definition purpose_of_proto (p : Z) : StreamPurpose :=
  if p =? 0 then ReplicationPush else if p =? 1 then ReadRepair
  else if p =? 2 then Promotion else ReplicationPush.

(** One message of the client stream. *)
Definition stream_step (acc : StreamAck * LetheCache) (chunk : BlockChunk) : StreamAck * LetheCache :=
  let '(ack, c) := acc in
  (mkStreamAck (received_count ack +₃₂ 1) (ack_total_bytes ack +₆₄ size_of (ck_payload chunk)),
   IngestStreamedBlock (BlockIdFromProto (ck_id chunk)) (ck_payload chunk)
     (purpose_of_proto (ck_purpose chunk)) c).

Definition rpc_StreamBlocks (chunks : list BlockChunk) (c : LetheCache) : StreamAck * LetheCache :=
  fold_left stream_step chunks (mkStreamAck 0 0, c).

Definition rpc_Heartbeat (blake3_full : bytes → Hash256) (ch : Choices) (it it' : Iteration string PeerInfo)
    (now : Z) (node_id : string) (c : LetheCache) : HeartbeatResponse * LetheCache :=
  let '(reply, c') := OnHeartbeat blake3_full ch it it' now node_id c in
  (mkHeartbeatResponse (alive_peers reply) (Types.cluster_epoch reply), c').

Definition rpc_EvictBroadcast (evicted : list PbBlockId) (source_node : string) (c : LetheCache) :
    bool * LetheCache :=
  (true, OnEvictBroadcast (BlockIdFromProto <$> evicted) source_node c).

(** ** The command line *)

Definition parse_peer (local_node_id item : string) : option StaticPeer :=
  if String.eqb item "" then None
  else match cut_at "@" item with
       | None => None
       | Some (node_id, address) =>
           if String.eqb node_id local_node_id then None else Some (mkStaticPeer node_id address)
       end.

Definition ParsePeerList (spec local_node_id : string) : list StaticPeer :=
  if String.eqb spec "" then []
  else omap (parse_peer local_node_id) (split_on "," spec).

(** The options after the two positional arguments; the last one wins. *)
Fixpoint peers_option (args : list string) (acc : string) : string :=
  match args with
  | [] => acc
  | a :: rest =>
      if String.eqb a "--peers"
      then match rest with
           | [] => acc   (* no value: not an option, nor does it start with --peers= *)
           | v :: rest => peers_option rest v
           end
      else if String.prefix "--peers=" a then peers_option rest (String.substring 8 (String.length a - 8) a)
      else peers_option rest acc
  end.

(** A set and nonzero variable replaces the default. *)
Definition env_bytes (var : option string) (dflt : Z) : Z :=
  match var with
  | Some s => let v := strtoull s in if v =? 0 then dflt else v
  | None => dflt
  end.

(** The configuration: the arguments after the program name and the two
    environment variables. *)
Definition main_config (args : list string) (dram_env ssd_env : option string) : CacheConfig :=
  let node_id := default "node0" (head args) in
  mkCacheConfig node_id (ParsePeerList (peers_option (drop 2 args) "") node_id)
    0 (env_bytes dram_env (2 ^ 30)) (env_bytes ssd_env (256 * 2 ^ 20))
    ("/tmp/lethe-" +:+ node_id +:+ "/ssd") 2 128 90 75.

(** ** Identities *)

Ltac proto_fields :=
  cbn [b_hash b_layer b_head_group b_model_id pb_hash pb_layer pb_head_group pb_model_id].

Lemma BlockIdFromProto_ToProto id : BlockIdFromProto (BlockIdToProto id) = id.
Proof.
  destruct id as [h l g m]. unfold BlockIdFromProto, BlockIdToProto. proto_fields.
  by rewrite vec_resize_to_list.
Qed.

Lemma BlockIdToProto_FromProto p :
  BlockIdToProto (BlockIdFromProto p) = p ↔ length (pb_hash p) = 32%nat.
Proof.
  destruct p as [h l g m]. unfold BlockIdFromProto, BlockIdToProto. proto_fields.
  rewrite vec_to_list_resize. split.
  - intros [= E]. rewrite <- E. apply length_resize.
  - intros E. f_equal. by apply resize_all_alt.
Qed.

(** ** Requests *)

Lemma rpc_Fetch_spec p c :
  inv (lc_store c) →
  let '(fr, c') := rpc_Fetch p c in
  contents (lc_store c) !! BlockIdFromProto p = (if fr_found fr then Some (fr_kv_data fr) else None) ∧
  inv (lc_store c') ∧ contents (lc_store c') = contents (lc_store c).
Proof.
  intros Hi. unfold rpc_Fetch, FetchLocal.
  destruct (Get_effect (BlockIdFromProto p) (lc_store c) Hi) as (Hi' & Hc & Hg).
  destruct (TieredStore.Get (BlockIdFromProto p) (lc_store c)) as [[g|] st']; by split_and!.
Qed.

(** The entries of the response, in the order of the lookup. *)
Lemma add_entries node_id es resp h :
  h ∈ resp_hits (fold_left (add_entry node_id) es resp) →
  h ∈ resp_hits resp ∨ ∃ e, e ∈ es ∧ pb_entry node_id e = inl h.
Proof.
  revert resp. induction es as [|e es IH]; intros resp Hh; [by left|]. cbn [fold_left] in Hh.
  apply IH in Hh as [Hh|(e' & He & Hp)].
  - unfold add_entry in Hh. destruct (pb_entry node_id e) as [h'|m'] eqn:E; [|by left].
    cbn [resp_hits] in Hh. apply elem_of_app in Hh as [|Hh%list_elem_of_singleton]; [by left|].
    subst. right. exists e. split; [by left|done].
  - right. exists e'. split; [by right|done].
Qed.

Lemma add_entries_count node_id es resp :
  (length (resp_hits (fold_left (add_entry node_id) es resp)) +
   length (resp_misses (fold_left (add_entry node_id) es resp)) =
   length (resp_hits resp) + length (resp_misses resp) + length es)%nat.
Proof.
  revert resp. induction es as [|e es IH]; intros resp; [simpl; lia|]. cbn [fold_left]. rewrite IH.
  unfold add_entry. destruct (pb_entry node_id e); cbn [resp_hits resp_misses length]; rewrite length_app; simpl; lia.
Qed.

(** A hit can be fetched: a lookup answers every requested id as a hit or
    as a miss, and each hit that names this node as its source is answered by
    a fetch of the returned identity with the payload of the block. *)
Theorem rpc_hit_fetchable payload ids c :
  node_ok payload c →
  let '(resp, c') := rpc_Lookup ids c in
  (length (resp_hits resp) + length (resp_misses resp) = length ids)%nat ∧
  ∀ h, h ∈ resp_hits resp → hit_source_node h = cc_node_id (lc_cfg c) →
    let fr := (rpc_Fetch (hit_id h) c').1 in
    fr_found fr = true ∧ fr_kv_data fr = payload (BlockIdFromProto (hit_id h)) ∧
    fr_id fr = hit_id h.
Proof.
  intros Hok. unfold rpc_Lookup, Lookup.
  pose proof (lookup_loop (lc_router c) (cc_node_id (lc_cfg c)) (BlockIdFromProto <$> ids)
    (mkLookupResult [] 0 0) (lc_store c) (no_store _ c Hok)) as Hl.
  destruct (fold_left (lookup_step _ _) _ _) as [res st']. destruct Hl as (Hi & Hc & Hobs & _).
  cbn [lr_entries fmap list_fmap app] in Hobs. split.
  { rewrite add_entries_count. simpl. rewrite <- (length_fmap observed (lr_entries res)), Hobs, !length_fmap. lia. }
  intros h Hh Hsrc. apply add_entries in Hh as [Hh|(e & He & Hp)]; [by apply not_elem_of_nil in Hh|].
  assert (observed e ∈ observed <$> lr_entries res) as Hin by (apply list_elem_of_fmap; eauto).
  rewrite Hobs in Hin. apply list_elem_of_fmap in Hin as (id & Hexp & _).
  unfold observed, expected in Hexp. unfold pb_entry in Hp.
  destruct (contents (lc_store c) !! id) as [d|] eqn:Ed.
  - injection Hexp as Hid Hw _ _. rewrite Hw in Hp. injection Hp as <-. cbn [hit_id]. rewrite Hid.
    pose proof (rpc_Fetch_spec (BlockIdToProto id) (with_store c st') Hi) as Hf.
    destruct (rpc_Fetch _ (with_store c st')) as [fr c2] eqn:Ef. destruct Hf as (Hf & _). cbn [fst].
    rewrite BlockIdFromProto_ToProto in *. cbn [lc_store with_store] in Hf. rewrite Hc, Ed in Hf.
    destruct (fr_found fr) eqn:Ef2; [|done]. injection Hf as ->.
    split_and!; [done|by apply (no_addressed _ c Hok)|].
    unfold rpc_Fetch in Ef. destruct (FetchLocal _ _) as [[f|] c3]; injection Ef as <- _;
      by rewrite BlockIdFromProto_ToProto.
  - case_decide as Hd; injection Hexp as Hid Hw Hr _; rewrite Hw in Hp; [|done].
    injection Hp as <-. cbn [hit_source_node] in Hsrc. rewrite Hr in Hsrc. simpl in Hsrc. by destruct Hd.
Qed.

(** What a client may send: a payload that belongs to its identity, with
    fields in the ranges of the protocol. *)
Definition pb_block_ok (payload : BlockId → bytes) (b : PbBlock) : Prop :=
  block_ok payload (block_of_proto b).

(** C27 (insert and fetch): the two counts of the response add up to the number
    of blocks; whatever a later fetch finds is the payload of the requested
    identity, everything that was found before is still found, and when
    nothing was rejected every inserted block is found. *)
Theorem rpc_insert_fetch payload blocks c :
  node_ok payload c → Forall (pb_block_ok payload) blocks → size_of blocks < 2 ^ 32 →
  let '(resp, c') := rpc_Insert blocks c in
  accepted_count resp + rejected_count resp = size_of blocks ∧ 0 ≤ rejected_count resp ∧
  node_ok payload c' ∧
  (∀ p, let fr := (rpc_Fetch p c').1 in
     (fr_found fr = true → fr_kv_data fr = payload (BlockIdFromProto p)) ∧
     (fr_found (rpc_Fetch p c).1 = true → fr_found fr = true)) ∧
  (rejected_count resp = 0 → ∀ b, b ∈ blocks → fr_found (rpc_Fetch (blk_id b) c').1 = true).
Proof.
  intros Hok Hb Hlen. unfold rpc_Insert, size_of in *.
  assert (Forall (block_ok payload) (block_of_proto <$> blocks)) as Hb' by (by apply Forall_fmap).
  pose proof (insert_loop payload _ 0 c (no_store _ c Hok) (no_addressed _ c Hok) Hb') as Hl.
  pose proof (insert_loop_full payload _ 0 c (no_store _ c Hok) (no_addressed _ c Hok) Hb' ltac:(lia)) as Hf.
  pose proof (insert_node_ok payload _ c Hok Hb') as Hok'.
  rewrite length_fmap in *. unfold Insert in *. specialize (Hf ltac:(lia)).
  destruct (fold_left insert_step _ (0, c)) as [n c']. cbn [snd] in Hok'.
  destruct Hl as (Hi & Ha & _ & Hids & Hn). specialize (Hn ltac:(lia) ltac:(lia)).
  cbn [accepted_count rejected_count].
  rewrite (u32_small (Z.of_nat (length blocks))), u32_small by lia.
  assert (∀ p, contents (lc_store c') !! BlockIdFromProto p =
    if fr_found (rpc_Fetch p c').1 then Some (fr_kv_data (rpc_Fetch p c').1) else None) as Hfetch.
  { intros p. pose proof (rpc_Fetch_spec p c' Hi) as Hp. destruct (rpc_Fetch p c'). by destruct Hp. }
  split_and!; [lia|lia|done| |].
  - intros p. specialize (Hfetch p). split.
    + intros Hfound. rewrite Hfound in Hfetch. by apply Ha.
    + intros Hbefore. pose proof (rpc_Fetch_spec p c (no_store _ c Hok)) as Hp.
      destruct (rpc_Fetch p c) as [fr0 c0]. cbn [fst] in Hbefore. rewrite Hbefore in Hp. destruct Hp as [Hp _].
      destruct (Hids (BlockIdFromProto p)) as [E|(? & _)]; [|congruence].
      rewrite E, Hp in Hfetch. by destruct (fr_found (rpc_Fetch p c').1).
  - intros Hrej b Hin. specialize (Hfetch (blk_id b)).
    assert (contents (lc_store c') !! BlockIdFromProto (blk_id b) = Some (kv_data (block_of_proto b))) as Hx.
    { apply (Hf ltac:(lia) (block_of_proto b)). apply list_elem_of_fmap. eauto. }
    rewrite Hx in Hfetch. by destruct (fr_found (rpc_Fetch (blk_id b) c').1).
Qed.

(** ** The peer list *)

(** The text form of the list. *)
Definition print_peer (p : StaticPeer) : string := sp_node_id p +:+ "@" +:+ sp_address p.
Definition print_peers (ps : list StaticPeer) : string := String.concat "," (print_peer <$> ps).

(** Names and addresses without the separators. *)
Definition printable (p : StaticPeer) : bool :=
  lacks "," (sp_node_id p) && lacks "@" (sp_node_id p) && lacks "," (sp_address p).

Lemma parse_print_peer local p :
  printable p = true →
  parse_peer local (print_peer p) = if String.eqb (sp_node_id p) local then None else Some p.
Proof.
  intros Hp. unfold printable in Hp. unfold parse_peer, print_peer.
  change ("@" +:+ sp_address p) with (String "@" (sp_address p)).
  destruct (String.eqb_spec (sp_node_id p +:+ String "@" (sp_address p)) "") as [E|_].
  - by destruct (sp_node_id p).
  - rewrite cut_at_app by (apply andb_true_iff in Hp as [Hp _]; by apply andb_true_iff in Hp as [_ ?]).
    by destruct p.
Qed.

Lemma ParsePeerList_print ps local :
  Forall (λ p, printable p = true) ps →
  ParsePeerList (print_peers ps) local = filter (λ p, sp_node_id p ≠ local) ps.
Proof.
  intros Hps. unfold ParsePeerList. destruct (String.eqb_spec (print_peers ps) "") as [E|Hne].
  { destruct ps as [|p ps]; [done|]. exfalso. unfold print_peers in E. rewrite fmap_cons in E.
    unfold print_peer in E. destruct p as [[|a x] y], ps; discriminate E. }
  unfold print_peers in *. change "," with (String "," "").
  rewrite split_on_concat.
  - clear Hne. induction Hps as [|p ps Hp Hps IH]; [done|]. rewrite fmap_cons, filter_cons. simpl.
    rewrite parse_print_peer by done. destruct (String.eqb_spec (sp_node_id p) local).
    + rewrite decide_False by tauto. exact IH.
    + rewrite decide_True by done. f_equal. exact IH.
  - intros E. by rewrite E in Hne.
  - apply Forall_fmap. eapply Forall_impl; [exact Hps|]. intros p Hp. unfold printable in Hp. simpl.
    apply andb_true_iff in Hp as [Hp Ha]. apply andb_true_iff in Hp as [Hi _].
    unfold print_peer. rewrite lacks_app, Hi. simpl. exact Ha.
Qed.

(** The budgets that the environment may set. *)
Definition budgets_ok (dram ssd : option string) : Prop :=
  env_bytes dram (2 ^ 30) ≤ 2 ^ 62 ∧ 65536 ≤ env_bytes ssd (256 * 2 ^ 20) ≤ 2 ^ 62.

Lemma env_bytes_nonneg var dflt : 0 ≤ dflt → 0 ≤ env_bytes var dflt.
Proof.
  intros Hd. unfold env_bytes. destruct var as [s|]; [|done]. case_match; [done|].
  unfold strtoull. destruct (match skip_spaces s with | "" => _ | _ => _ end) as [neg x].
  pose proof (digits_nonneg x 0). repeat case_match; [lia|apply u64_range|lia].
Qed.

(** The other nodes of a printed cluster, and what the built node is then. *)
Lemma printed_seeds node port ps dram ssd :
  Forall (λ p, printable p = true) ps → NoDup (sp_node_id <$> ps) →
  let cfg := main_config [node; port; "--peers"; print_peers ps] dram ssd in
  cc_seed_peers cfg = filter (λ p, sp_node_id p ≠ node) ps ∧
  NoDup (cc_node_id cfg :: (sp_node_id <$> cc_seed_peers cfg)).
Proof.
  intros Hps Hnd cfg.
  assert (cc_seed_peers cfg = filter (λ p, sp_node_id p ≠ node) ps) as Hseeds
    by (by apply ParsePeerList_print).
  split; [done|]. rewrite Hseeds. change (cc_node_id cfg) with node. apply NoDup_cons. split.
  { intros (p & -> & [Hp _]%list_elem_of_filter)%list_elem_of_fmap. done. }
  clear - Hnd. induction ps as [|p ps IH]; [done|].
  rewrite fmap_cons, NoDup_cons in Hnd. destruct Hnd as [Hp Hnd]. rewrite filter_cons.
  case_decide; [|by apply IH]. rewrite fmap_cons, NoDup_cons. split; [|by apply IH].
  contradict Hp. apply list_elem_of_fmap in Hp as (q & -> & [_ Hq]%list_elem_of_filter).
  apply list_elem_of_fmap. eauto.
Qed.

(** The budgets of the environment are ones that the store accepts. *)
Lemma budgets_config args dram ssd :
  budgets_ok dram ssd →
  let cfg := store_config (main_config args dram ssd) in
  config_ok cfg ∧ open_args (ssd_bytes cfg) (cfg_ssd_slot_bytes cfg).
Proof.
  intros [Hdram Hssd]. pose proof (env_bytes_nonneg dram (2 ^ 30) ltac:(lia)).
  split; [split; simpl; lia|split; [by vm_compute|by vm_compute|simpl; lia]].
Qed.

(** C37 (server start): the first start of a server with the printed list of the
    cluster's nodes, itself included or not, builds a well-formed node that
    holds nothing: the parser gives back the other nodes, self is dropped, and
    the ring holds exactly the cluster. *)
Theorem server_start payload blake3_full node port ps dram ssd sort mt now :
  Forall (λ p, printable p = true) ps → NoDup (sp_node_id <$> ps) → budgets_ok dram ssd →
  let cfg := main_config [node; port; "--peers"; print_peers ps] dram ssd in
  cc_seed_peers cfg = filter (λ p, sp_node_id p ≠ node) ps ∧
  ∃ c, make_cache blake3_full sys_ok [] sort mt now cfg = inr c ∧ node_ok payload c ∧
    contents (lc_store c) = ∅ ∧
    ∀ x, x ∈ r_peers (lc_router c) ↔ x = node ∨ x ∈ sp_node_id <$> ps.
Proof.
  intros Hps Hnd Hb cfg. destruct (printed_seeds node port ps dram ssd Hps Hnd) as [Hseeds Hdis].
  fold cfg in Hseeds, Hdis.
  destruct (budgets_config [node; port; "--peers"; print_peers ps] dram ssd Hb) as [Hcfg Ha].
  destruct (make_store_fresh sys_ok (store_config cfg)) as (st & Hst & Hi & Hc); try done.
  split; [done|]. eexists. split; [unfold make_cache; rewrite Hst; reflexivity|].
  split_and!; [|exact Hc|].
  - apply built_cache_ok; [done|rewrite Hc; intros id d; by rewrite lookup_empty|exact Hdis].
  - apply NoDup_cons in Hdis as [Hself _].
    intros x. cbn. rewrite ring_peers_distinct by exact Hself. change (cc_node_id cfg) with node.
    rewrite Hseeds, elem_of_cons. split; (intros [->|Hx]; [by left|]).
    + right. apply list_elem_of_fmap in Hx as (p & -> & [_ Hp]%list_elem_of_filter).
      apply list_elem_of_fmap. eauto.
    + destruct (decide (x = node)) as [->|Hne]; [by left|right].
      apply list_elem_of_fmap in Hx as (p & -> & Hp). apply list_elem_of_fmap. exists p.
      split; [done|]. by apply list_elem_of_filter.
Qed.

(** ** Concrete requests *)

Definition wit_pb (t : Z) : PbBlock :=
  mkPbBlock (BlockIdToProto (kv_id SsdBlockStore.wit_block)) (kv_data SsdBlockStore.wit_block) t.

Lemma wit_pb_ok t : pb_block_ok wit_payload (wit_pb t).
Proof.
  unfold pb_block_ok, block_of_proto, wit_pb. cbn [blk_id blk_kv_data blk_tier_hint].
  rewrite BlockIdFromProto_ToProto. split_and!; [|done|by vm_compute].
  destruct wit_block_wf as [H1 H2 _]. by split.
Qed.

Lemma rpc_insert_fetch_witness :
  let '(resp, c') := rpc_Insert [wit_pb 1; wit_pb 7] wit_node in
  accepted_count resp = 1 ∧ accepted_count resp + rejected_count resp = 2 ∧ node_ok wit_payload c'.
Proof.
  assert (accepted_count (rpc_Insert [wit_pb 1; wit_pb 7] wit_node).1 = 1) as Hone by (by vm_compute).
  pose proof (rpc_insert_fetch wit_payload [wit_pb 1; wit_pb 7] wit_node wit_node_ok
    ltac:(apply Forall_cons; split; [apply wit_pb_ok|apply Forall_singleton, wit_pb_ok]) ltac:(done)) as H.
  destruct (rpc_Insert [wit_pb 1; wit_pb 7] wit_node) as [resp c']. destruct H as (Hsum & _ & Hok & _).
  split; [exact Hone|]. split; [exact Hsum|exact Hok].
Defined.

Lemma rpc_hit_fetchable_witness :
  let c := (rpc_Insert [wit_pb 2] wit_node).2 in
  let '(resp, c') := rpc_Lookup [blk_id (wit_pb 2); BlockIdToProto wit_bid] c in
  (length (resp_hits resp) + length (resp_misses resp) = 2)%nat ∧
  hit_source_node <$> resp_hits resp = ["a"; "b"].
Proof.
  intros c. assert (node_ok wit_payload c) as Hok.
  { unfold c, rpc_Insert. pose proof (insert_node_ok wit_payload [block_of_proto (wit_pb 2)] wit_node wit_node_ok
      ltac:(apply Forall_singleton, wit_pb_ok)) as H.
    cbn [fmap list_fmap]. by destruct (Insert [block_of_proto (wit_pb 2)] wit_node) as [n c1]. }
  assert (hit_source_node <$> resp_hits (rpc_Lookup [blk_id (wit_pb 2); BlockIdToProto wit_bid] c).1 =
          ["a"; "b"]) as Hsrc by (by vm_compute).
  pose proof (rpc_hit_fetchable wit_payload [blk_id (wit_pb 2); BlockIdToProto wit_bid] c Hok) as H.
  destruct (rpc_Lookup _ c) as [resp c']. destruct H as [Hn _]. split; [exact Hn|exact Hsrc].
Defined.

(** The whole cluster on the command line, and one disk slot. *)
Definition wit_cluster : list StaticPeer :=
  [mkStaticPeer "a" "h:0"; mkStaticPeer "b" "h:1"; mkStaticPeer "c" "h:2"].

Lemma server_start_witness :
  print_peers wit_cluster = "a@h:0,b@h:1,c@h:2" ∧
  ∃ c, make_cache wit_blake3 sys_ok [] merge_sorter true 0
         (main_config ["a"; "50051"; "--peers"; "a@h:0,b@h:1,c@h:2"] None (Some "65536")) = inr c ∧
       node_ok wit_payload c ∧ ∀ x, x ∈ r_peers (lc_router c) ↔ x = "a" ∨ x ∈ ["a"; "b"; "c"].
Proof.
  split; [reflexivity|].
  destruct (server_start wit_payload wit_blake3 "a" "50051" wit_cluster None (Some "65536") merge_sorter true 0)
    as (_ & c & Hm & Hok & _ & Hr).
  - by repeat constructor.
  - apply (bool_decide_unpack _). vm_compute. exact I.
  - by vm_compute.
  - exists c. split_and!; [exact Hm|exact Hok|exact Hr].
Defined.

Example strtoull_cases : strtoull " 4096k" = 4096 ∧ strtoull "-1" = 2 ^ 64 - 1 ∧ strtoull "x" = 0.
Proof. by vm_compute. Qed.
