(* ===== verification/Server.v ===== *)
(** * The server process (main.cpp)

    A run of [main] from the command line to the exit code: the port and the
    configuration, the cache, its start, the requests and thread turns until a
    signal arrives, and the shutdown.  An exception that nothing catches ends
    the process.  What the process leaves behind is its data file. *)
From S2P Require Import Prelude Types Text TierStore BlockStore SsdBlockStore TieredStore Routing.
From S2P Require Import Eviction Membership Replication Cache Rpc.

(** ** The process *)

(** The port argument; [std::stoi] throws when there is no number. *)
Definition main_port (args : list string) : option Z :=
  match args !! 1%nat with
  | None => Some 50051
  | Some s => p ← stoi s; Some (p mod 2 ^ 16)
  end.

(** What happens while the server runs: a call of one of its handlers, or a
    turn of one of the node's threads. *)
Inductive Call : Type :=
| CLookup (block_ids : list PbBlockId)
| CInsert (blocks : list PbBlock)
| CFetch (id : PbBlockId)
| CStream (chunks : list BlockChunk)
| CHeartbeat (ch : Choices) (it it' : Iteration string PeerInfo) (now : Z) (node_id : string)
| CEvictBroadcast (evicted : list PbBlockId) (source : string)
| CTick (ch : Choices) (o : TickOrder) (reply : string → string → bool) (now1 now2 : Z)
| CSweep (now : Z)
| CWorker (ok : bool)
| CEvict (o : SnapOrder BlockStore SsdBlockStore) (it : Iteration string PeerInfo) (t : Tier).

Inductive Exit : Type := Uncaught | Return (code : Z) (c : LetheCache).

Section process.
Context (blake3_full : bytes → Hash256).

Definition serve_call (c : LetheCache) (call : Call) : LetheCache :=
  match call with
  | CLookup ids => (rpc_Lookup ids c).2
  | CInsert blocks => (rpc_Insert blocks c).2
  | CFetch id => (rpc_Fetch id c).2
  | CStream chunks => (rpc_StreamBlocks chunks c).2
  | CHeartbeat ch it it' now n => (rpc_Heartbeat blake3_full ch it it' now n c).2
  | CEvictBroadcast ev src => (rpc_EvictBroadcast ev src c).2
  | CTick ch o reply now1 now2 => heartbeat_tick blake3_full ch o reply now1 now2 c
  | CSweep now => sweep_tick now c
  | CWorker ok => worker_tick ok c
  | CEvict o it t => (evict_tick o it t c).2
  end.

(** [bound] says whether the gRPC server got its port. *)
Definition main (sys : SysCalls) (file : bytes) (sort : Sorter) (has_metrics : bool) (now : Z)
    (args : list string) (dram_env ssd_env : option string) (bound : bool) (calls : list Call) : Exit :=
  match main_port args with
  | None => Uncaught
  | Some _ =>
      match make_cache blake3_full sys file sort has_metrics now (main_config args dram_env ssd_env) with
      | inl _ => Uncaught
      | inr c =>
          let c := Cache.Start c in
          if negb bound then Return 1 (Cache.Shutdown c)
          else Return 0 (Cache.Shutdown (fold_left serve_call calls c))
      end
  end.

(** The data file that the node leaves. *)
Definition left_file (c : LetheCache) : bytes :=
  match t_ssd (lc_store c) with Some s => file_bytes s | None => [] end.

(** ** Calls as events of the node *)

Definition call_events (call : Call) : list NodeEvent :=
  match call with
  | CLookup ids => [NLookup (BlockIdFromProto <$> ids)]
  | CInsert blocks => [NInsert (block_of_proto <$> blocks)]
  | CFetch id => [NFetch (BlockIdFromProto id)]
  | CStream chunks =>
      (λ k, NIngest (BlockIdFromProto (ck_id k)) (ck_payload k) (purpose_of_proto (ck_purpose k))) <$> chunks
  | CHeartbeat ch it it' now n => [NHeartbeat ch it it' now n]
  | CEvictBroadcast ev src => [NEvictBroadcast (BlockIdFromProto <$> ev) src]
  | CTick ch o reply now1 now2 => [NTick ch o reply now1 now2]
  | CSweep now => [NSweep now]
  | CWorker ok => [NWorker ok]
  | CEvict o it t => [NEvict o it t]
  end.

Lemma serve_stream chunks ack c :
  (fold_left stream_step chunks (ack, c)).2 =
  fold_left (node_step blake3_full) (call_events (CStream chunks)) c.
Proof. revert ack c. induction chunks as [|k chunks IH]; intros ack c; [done|]. cbn in *. by rewrite IH. Qed.

Lemma serve_call_events c call :
  serve_call c call = fold_left (node_step blake3_full) (call_events call) c.
Proof.
  destruct call; try done; cbn [serve_call call_events fold_left node_step].
  - unfold rpc_Lookup. by destruct (Lookup _ c).
  - unfold rpc_Insert. by destruct (Insert _ c).
  - unfold rpc_Fetch. by destruct (FetchLocal _ c).
  - apply serve_stream.
  - unfold rpc_Heartbeat. by destruct (OnHeartbeat _ _ _ _ _ _ _).
Qed.

Lemma serve_calls_events calls c :
  fold_left serve_call calls c = fold_left (node_step blake3_full) (concat (call_events <$> calls)) c.
Proof.
  revert c. induction calls as [|call calls IH]; intros c; [done|].
  cbn [fold_left fmap list_fmap concat]. by rewrite fold_left_app, <- serve_call_events, IH.
Qed.

(** ** The geometry of the data file never changes *)

Definition geometry (st : TieredStore) : option (Z * Z) :=
  (λ s, (ssd_capacity_bytes s, ssd_slot_bytes s)) <$> t_ssd st.

Lemma ssd_put_geometry b s :
  ssd_capacity_bytes (SsdBlockStore.Put b s).2 = ssd_capacity_bytes s ∧
  ssd_slot_bytes (SsdBlockStore.Put b s).2 = ssd_slot_bytes s.
Proof.
  unfold SsdBlockStore.Put, AllocSlot. destruct (_ >? _); [done|]. destruct (ssd_index s !! _); [done|].
  destruct (last (ssd_free_slots s)); [done|]. by destruct (_ <? _)%nat.
Qed.

Lemma put_geometry b t st r st' : PutToTier b t st = (r, st') → geometry st' = geometry st.
Proof.
  unfold PutToTier, geometry. intros E. destruct t.
  - destruct (t_hbm st) as [h|]; [|by simplify_eq]. destruct (ts_put b h). by simplify_eq.
  - destruct (t_dram st) as [d|]; [|by simplify_eq]. destruct (ts_put b d). by simplify_eq.
  - destruct (t_ssd st) as [s|] eqn:Es; [|simplify_eq; by rewrite Es].
    destruct (ssd_put_geometry b s) as [H1 H2].
    change (ts_put b s) with (SsdBlockStore.Put b s) in E. destruct (SsdBlockStore.Put b s) as [r' s'].
    simplify_eq. cbn in *. by rewrite H1, H2.
Qed.

Lemma erase_geometry id t st n st' : EraseFromTier id t st = (n, st') → geometry st' = geometry st.
Proof.
  unfold EraseFromTier, geometry. intros E. destruct t.
  - destruct (t_hbm st) as [h|]; [|by simplify_eq]. destruct (ts_erase id h). by simplify_eq.
  - destruct (t_dram st) as [d|]; [|by simplify_eq]. destruct (ts_erase id d). by simplify_eq.
  - destruct (t_ssd st) as [s|] eqn:Es; [|simplify_eq; by rewrite Es]. cbn in E.
    unfold SsdBlockStore.Erase in E. destruct (ssd_index s !! id); by simplify_eq.
Qed.

Lemma books_geometry st a v : geometry (with_books st a v) = geometry st.
Proof. done. Qed.

(** Follow the store through the calls of an operation. *)
Ltac follow :=
  repeat case_match; simplify_eq; rewrite ?books_geometry;
  repeat match goal with
  | H : PutToTier _ _ _ = _ |- _ => apply put_geometry in H
  | |- context [(EraseFromTier ?i ?t ?s).2] =>
      let E := fresh in destruct (EraseFromTier i t s) eqn:E; cbn [snd]; apply erase_geometry in E
  | H : EraseFromTier _ _ _ = _ |- _ => apply erase_geometry in H
  end; try congruence.

Lemma promote_geometry id t d n st r st' : promote id t d n st = (r, st') → geometry st' = geometry st.
Proof. unfold promote. intros E. follow. Qed.

Lemma get_geometry id st r st' : Get id st = (r, st') → geometry st' = geometry st.
Proof.
  unfold Get. intros E. follow;
    match goal with H : promote _ _ _ _ _ = _ |- _ => apply promote_geometry in H; by rewrite H end.
Qed.

Lemma chain_geometry b row st r st' : put_chain b row st = (r, st') → geometry st' = geometry st.
Proof.
  revert st. induction row as [|t row IH]; intros st E; cbn [put_chain] in E; [by simplify_eq|].
  follow. apply IH in E. congruence.
Qed.

Lemma demote_geometry id st r st' : Demote id st = (r, st') → geometry st' = geometry st.
Proof. unfold Demote. intros E. follow. Qed.

Lemma erase_all_geometry id st n st' : Erase id st = (n, st') → geometry st' = geometry st.
Proof. unfold Erase. intros E. follow. Qed.

Lemma sieve_geometry t need fuel (s : Sieve BlockStore SsdBlockStore) :
  geometry (sv_store (sieve_loop t need fuel s)) = geometry (sv_store s).
Proof.
  revert s. induction fuel as [|fuel IH]; intros s; [done|]. cbn [sieve_loop].
  destruct (_ <? _); [|done]. rewrite IH. unfold sieve_step.
  destruct (m_visited _); [done|].
  destruct (evict_victim t _ (sv_store s)) as [n st'] eqn:E. cbn [sv_store]. unfold evict_victim in E.
  destruct (bool_decide (t = SSD)); [by apply erase_all_geometry in E|].
  destruct (Demote _ _) as [[] st1] eqn:Ed; apply demote_geometry in Ed; [by simplify_eq|].
  apply erase_all_geometry in E. congruence.
Qed.

Lemma pass_geometry cfg mt peers local o t e (st : TieredStore) :
  geometry (RunPassForTier cfg mt peers local o t e st).2 = geometry st.
Proof.
  unfold RunPassForTier. destruct (_ || _); [done|]. destruct (_ <=? _); [done|].
  destruct (Snapshot o t st); [done|].
  match goal with |- context [let '(_, _) := ?x in _] => destruct x end. apply sieve_geometry.
Qed.

Lemma drain_loop_geometry local r fuel n s (st : TieredStore) :
  geometry (drain_loop local r fuel n s st).2 = geometry st.
Proof.
  revert n s st. induction fuel as [|fuel IH]; intros n s st; [done|]. cbn [drain_loop].
  repeat (case_match; try done).
  all: match goal with H : Get _ _ = _ |- _ => apply get_geometry in H end.
  all: by rewrite IH.
Qed.

Lemma drain_geometry local r mt now s (st : TieredStore) :
  geometry (DrainReReplication local r mt now s st).2 = geometry st.
Proof.
  unfold DrainReReplication. destruct (negb _); [done|].
  match goal with |- context [drain_loop _ _ ?f ?n s st] =>
    pose proof (drain_loop_geometry local r f n s st); destruct (drain_loop local r f n s st) end.
  by destruct (_ <=? _)%nat.
Qed.

Lemma effects_geometry ch effs c :
  geometry (lc_store (apply_effects blake3_full ch effs c)) = geometry (lc_store c).
Proof.
  unfold apply_effects. revert c. induction effs as [|e effs IH]; intros c; [done|].
  cbn [fold_left]. rewrite IH. destruct e as [|ids|lost]; [done..|]. cbn [apply_effect].
  unfold TriggerReReplication. destruct lost; [by destruct c|].
  match goal with |- context [DrainReReplication ?a ?b ?d ?e ?f ?g] =>
    pose proof (drain_geometry a b d e f g); by destruct (DrainReReplication a b d e f g) as [[??]?] end.
Qed.

Lemma lookup_geometry r local ids (acc : LookupResult * TieredStore) :
  geometry (fold_left (lookup_step r local) ids acc).2 = geometry acc.2.
Proof.
  revert acc. induction ids as [|id ids IH]; intros [res st]; [done|]. cbn [fold_left]. rewrite IH.
  unfold lookup_step, lookup_one. destruct (Get id st) as [got st'] eqn:E. apply get_geometry in E.
  destruct got; [done|]. by destruct (negb _ && negb _).
Qed.

Lemma insert_geometry blocks acc :
  geometry (lc_store (fold_left insert_step blocks acc).2) = geometry (lc_store acc.2).
Proof.
  revert acc. induction blocks as [|b blocks IH]; intros [n c]; [done|]. cbn [fold_left]. rewrite IH.
  unfold insert_step. destruct (TieredStore.Put b _ (lc_store c)) as [t st'] eqn:E.
  apply chain_geometry in E. destruct t; [|done]. by destruct (_ >? _).
Qed.

Lemma node_step_geometry c e : geometry (lc_store (node_step blake3_full c e)) = geometry (lc_store c).
Proof.
  destruct e; cbn [node_step].
  - unfold Lookup. pose proof (lookup_geometry (lc_router c) (cc_node_id (lc_cfg c)) ids
      (mkLookupResult [] 0 0, lc_store c)) as H. by destruct (fold_left _ ids _).
  - apply insert_geometry.
  - unfold FetchLocal. destruct (Get id (lc_store c)) eqn:E. by apply get_geometry in E.
  - unfold IngestStreamedBlock, TieredStore.Put. cbn [lc_store with_store].
    destruct (put_chain _ _ _) as [o st'] eqn:E. by apply chain_geometry in E.
  - unfold OnHeartbeat. destruct (Membership.OnHeartbeat _ _ _ _ _) as [[??] m]. cbn [snd]. by rewrite effects_geometry.
  - unfold heartbeat_tick. destruct (HeartbeatTick _ _ _ _ _) as [effs m]. by rewrite effects_geometry.
  - unfold sweep_tick. match goal with |- context [DrainReReplication ?a ?b ?d ?e ?f ?g] =>
      pose proof (drain_geometry a b d e f g); by destruct (DrainReReplication a b d e f g) as [[??]?] end.
  - done.
  - unfold evict_tick. pose proof (pass_geometry (lc_evict_cfg c) (lc_has_metrics c)
      (Some (AllPeerAddresses it (lc_membership c), Epoch (lc_membership c))) (cc_node_id (lc_cfg c)) o t
      (lc_evictor c) (lc_store c)) as H. by destruct (RunPassForTier _ _ _ _ _ _ _ _) as [[[??]?]?].
  - done.
Qed.

Lemma run_geometry evs c :
  geometry (lc_store (fold_left (node_step blake3_full) evs c)) = geometry (lc_store c).
Proof.
  revert c. induction evs as [|e evs IH]; intros c; [done|]. cbn [fold_left].
  by rewrite IH, node_step_geometry.
Qed.

Lemma make_store_geometry sys file cfg st :
  0 < ssd_bytes cfg → ssd_path cfg ≠ "" → make_store sys file cfg = inr st →
  geometry st = Some (ssd_bytes cfg, cfg_ssd_slot_bytes cfg).
Proof.
  intros Hpos Hpath. unfold make_store. rewrite (proj2 (Z.gtb_lt _ _)) by lia.
  rewrite (proj2 (String.eqb_neq _ _) Hpath). cbn [andb negb].
  destruct (open_store sys file _ _) as [|s] eqn:E; [done|]. intros [= <-]. unfold geometry. cbn.
  unfold open_store in E. repeat case_match; simplify_eq. unfold RebuildIndexFromMmap.
  by repeat case_match.
Qed.

(** ** A run of the process *)

Section lifecycle.
Context (payload : BlockId → bytes).

Lemma run_node_ok evs c :
  node_ok payload c → run_ok payload blake3_full c evs →
  node_ok payload (fold_left (node_step blake3_full) evs c).
Proof.
  revert c. induction evs as [|e evs IH]; intros c Hok Hr; [done|]. destruct Hr as [He Hr].
  cbn [fold_left]. apply IH; [|done]. by apply node_step_ok.
Qed.

Lemma start_ok c : node_ok payload c → node_ok payload (Cache.Start c).
Proof. intros [? ? ? ? ? ? ?]. unfold Cache.Start. destruct (lc_running c); by split. Qed.

Lemma shutdown_ok c : node_ok payload c → node_ok payload (Cache.Shutdown c).
Proof. intros [? ? ? ? ? ? ?]. unfold Cache.Shutdown. destruct (lc_running c); by split. Qed.

Lemma shutdown_store c : lc_store (Cache.Shutdown c) = lc_store c ∧ lc_running (Cache.Shutdown c) = false.
Proof. unfold Cache.Shutdown. by destruct (lc_running c) eqn:E. Qed.

Lemma start_store c : lc_store (Cache.Start c) = lc_store c.
Proof. unfold Cache.Start. by destruct (lc_running c). Qed.

(** C5 (process restart): a server started with the printed list of its cluster
    answers any sequence of requests and thread turns (the blocks nonempty and
    named after their bytes, heartbeats from peers that it knows), and ends with
    code 0, stopped and well formed.  A server started again with the same command
    line on the data file that the first one left is well formed and serves
    exactly the blocks that the disk tier of the first one held. *)
Theorem process_restart node port ps dram ssd sort mt now sort' mt' now' calls :
  Forall (λ p, printable p = true) ps → NoDup (sp_node_id <$> ps) → budgets_ok dram ssd →
  is_Some (stoi port) →
  let args := [node; port; "--peers"; print_peers ps] in
  (∀ c, make_cache blake3_full sys_ok [] sort mt now (main_config args dram ssd) = inr c →
        run_ok payload blake3_full (Cache.Start c) (concat (call_events <$> calls))) →
  ∃ c c', main sys_ok [] sort mt now args dram ssd true calls = Return 0 c ∧
    node_ok payload c ∧ lc_running c = false ∧
    make_cache blake3_full sys_ok (left_file c) sort' mt' now' (main_config args dram ssd) = inr c' ∧
    node_ok payload c' ∧
    (∀ id, lf_data <$> (FetchLocal id c').1 = tier_contents SSD (lc_store c) !! id).
Proof.
  intros Hps Hnd Hb [pn Hport] args Hrun.
  destruct (printed_seeds node port ps dram ssd Hps Hnd) as [_ Hdis]. fold args in Hdis.
  destruct (budgets_config args dram ssd Hb) as [Hcfg Ha].
  set (cfg := main_config args dram ssd) in *.
  destruct (make_store_fresh sys_ok (store_config cfg)) as (st & Hst & Hi & Hc); try done.
  assert (0 < ssd_bytes (store_config cfg)) as Hpos by (destruct Ha as [? _ ?]; lia).
  pose proof (make_store_geometry _ _ _ _ Hpos ltac:(done) Hst) as Hgeo.
  assert (make_cache blake3_full sys_ok [] sort mt now cfg =
          inr (built_cache blake3_full sort mt now cfg st)) as Hmk by (unfold make_cache; by rewrite Hst).
  set (c0 := built_cache blake3_full sort mt now cfg st) in *.
  assert (node_ok payload c0) as Hok0.
  { apply built_cache_ok; [done|rewrite Hc; intros id d; by rewrite lookup_empty|exact Hdis]. }
  set (c1 := fold_left (node_step blake3_full) (concat (call_events <$> calls)) (Cache.Start c0)).
  assert (node_ok payload c1) as Hok1 by (apply run_node_ok; [by apply start_ok|by apply Hrun]).
  assert (geometry (lc_store c1) = geometry st) as Hg1
    by (unfold c1; by rewrite run_geometry, start_store).
  rewrite Hgeo in Hg1. unfold geometry in Hg1.
  destruct (t_ssd (lc_store c1)) as [s|] eqn:Es; [|done]. cbn in Hg1. injection Hg1 as Hcap Hslot.
  destruct (shutdown_store c1) as [Hss Hsr].
  destruct (tiered_restart sys_ok (store_config cfg) (lc_store c1) s (no_store _ _ Hok1) Es Hcfg
    (eq_sym Hcap) (eq_sym Hslot) ltac:(done) eq_refl eq_refl eq_refl) as (st' & Hst' & Hi' & Hc' & Hget).
  exists (Cache.Shutdown c1). eexists. split_and!.
  - unfold main, main_port. cbn [args lookup list_lookup]. rewrite Hport. cbn [mbind option_bind].
    fold cfg. rewrite Hmk. cbn [negb]. by rewrite serve_calls_events.
  - by apply shutdown_ok.
  - exact Hsr.
  - unfold make_cache, left_file. rewrite Hss, Es, Hst'. reflexivity.
  - apply built_cache_ok; [done| |exact Hdis]. rewrite Hc'. intros id d Hd.
    apply (no_addressed _ _ Hok1). apply contents_lookup_Some; [apply Hok1|by exists SSD].
  - intros id. rewrite Hss, <- Hget. unfold FetchLocal. cbn [built_cache lc_store].
    by destruct (TieredStore.Get id st') as [[g|] st''].
Qed.
End lifecycle.
End process.

(** ** A concrete run *)

(** A block goes to the disk, is looked up, and the evictor of DRAM runs. *)
Definition wit_calls : list Call :=
  [CInsert [wit_pb 2]; CLookup [blk_id (wit_pb 2)]; CEvict std_order std_iteration DRAM].

Lemma process_restart_witness :
  ∃ c c', main wit_blake3 sys_ok [] merge_sorter true 0 ["a"; "50051"; "--peers"; "a@h:0,b@h:1,c@h:2"]
            None (Some "65536") true wit_calls = Return 0 c ∧
    make_cache wit_blake3 sys_ok (left_file c) merge_sorter true 9
      (main_config ["a"; "50051"; "--peers"; "a@h:0,b@h:1,c@h:2"] None (Some "65536")) = inr c' ∧
    (∀ id, lf_data <$> (FetchLocal id c').1 = tier_contents SSD (lc_store c) !! id).
Proof.
  destruct (process_restart wit_blake3 wit_payload "a" "50051" wit_cluster None (Some "65536")
    merge_sorter true 0 merge_sorter true 9 wit_calls) as (c & c' & H1 & _ & _ & H2 & _ & H3).
  - by repeat constructor.
  - apply (bool_decide_unpack _). vm_compute. exact I.
  - by vm_compute.
  - by exists 50051.
  - intros c _. cbn [wit_calls fmap list_fmap concat call_events app run_ok node_event_ok].
    split_and!; try exact I. apply Forall_singleton. apply wit_pb_ok.
  - exists c, c'. split_and!; [exact H1|exact H2|exact H3].
Defined.
