(* ===== verification/GrpcTransport.v ===== *)
(** * The gRPC block transport (kv_transport.hpp, grpc_stream_transport.cpp)

    The table of connections and the two block operations.  Both run their
    call inside [Send] and [Fetch] and return a ready future, so each is a
    function here.  What a call does on the other side is a parameter: the
    world [W] that it may change and the response, [None] for a status that is
    not OK (a lost response may leave the world changed). *)
From S2P Require Import Prelude Types TierStore BlockStore SsdBlockStore TieredStore Routing.
From S2P Require Import Eviction Membership Replication Cache Rpc.

(** [unordered_map] from peer to stub; the address stands for the stub. *)
Abbreviation Connections := (gmap string string).

Definition stub_for (conns : Connections) (peer_id : string) : option string := conns !! peer_id.

Definition Disconnect (peer_id : string) (conns : Connections) : Connections := delete peer_id conns.

Definition TransportShutdown (conns : Connections) : Connections := ∅.

(** The replicator's two forwarding calls; without a transport they do nothing. *)
Definition EnsurePeerClient (has_transport : bool) (peer_id address : string) (conns : Connections) : Connections :=
  if has_transport then connect conns (mkStaticPeer peer_id address) else conns.
Definition DropPeerClient (has_transport : bool) (peer_id : string) (conns : Connections) : Connections :=
  if has_transport then Disconnect peer_id conns else conns.

Section calls.
Context {W : Type}.
Context (call_insert : string → list PbBlock → W → option InsertResponse * W).
Context (call_fetch : string → PbBlockId → W → option FetchResponse * W).

(** The request of a push: one block with the DRAM hint. *)
Definition push_request (id : BlockId) (data : bytes) : list PbBlock :=
  [mkPbBlock (BlockIdToProto id) data (Tier_to_Z DRAM)].

Definition Send (conns : Connections) (peer_id : string) (id : BlockId) (purpose : StreamPurpose)
    (data : bytes) (w : W) : bool * W :=
  match stub_for conns peer_id with
  | None => (false, w)
  | Some address =>
      let '(resp, w') := call_insert address (push_request id data) w in
      (match resp with Some r => accepted_count r >? 0 | None => false end, w')
  end.

Definition Fetch (conns : Connections) (peer_id : string) (id : BlockId) (w : W) : option KvBlock * W :=
  match stub_for conns peer_id with
  | None => (None, w)
  | Some address =>
      let '(resp, w') := call_fetch address (BlockIdToProto id) w in
      (match resp with
       | Some r => if fr_found r then Some (mkKvBlock (BlockIdFromProto (fr_id r)) (fr_kv_data r) DRAM 0)
                   else None
       | None => None
       end, w')
  end.
End calls.

(** ** A call that reaches the peer *)

(** The world is the peer's node and both calls are answered by its handlers. *)
Definition serve_insert (address : string) (blocks : list PbBlock) (c : LetheCache) :
    option InsertResponse * LetheCache :=
  let '(resp, c') := rpc_Insert blocks c in (Some resp, c').

Definition serve_fetch (address : string) (id : PbBlockId) (c : LetheCache) :
    option FetchResponse * LetheCache :=
  let '(resp, c') := rpc_Fetch id c in (Some resp, c').

(** The block that the peer's handler builds from a push. *)
Definition pushed (id : BlockId) (data : bytes) : KvBlock := mkKvBlock id data DRAM 0.

Lemma push_request_block id data : block_of_proto <$> push_request id data = [pushed id data].
Proof.
  unfold push_request, block_of_proto, pushed. cbn [fmap list_fmap blk_id blk_kv_data blk_tier_hint].
  by rewrite BlockIdFromProto_ToProto.
Qed.

Lemma rpc_Insert_push id data c :
  rpc_Insert (push_request id data) c =
  (mkInsertResponse (insert_step (0, c) (pushed id data)).1 (u32 (1 - (insert_step (0, c) (pushed id data)).1)),
   (insert_step (0, c) (pushed id data)).2).
Proof.
  unfold rpc_Insert. rewrite push_request_block. unfold Insert. cbn [fold_left].
  destruct (insert_step (0, c) (pushed id data)) as [n c']. done.
Qed.

(** A push of a block that DRAM holds lands there. *)
Lemma Put_in_dram b (st : TieredStore) :
  is_Some (tier_contents DRAM st !! kv_id b) → (TieredStore.Put b DRAM st).1 = Some DRAM.
Proof.
  unfold TieredStore.Put. cbn [tier_contents fallthrough put_chain PutToTier].
  destruct (t_dram st) as [d|]; cbn [from_option].
  - change (ts_put b d) with (BlockStore.Put b d). change (ts_contents d) with (BlockStore.contents d).
    intros Hd. destruct (bs_blocks d !! kv_id b) as [kv|] eqn:Hkv.
    + by rewrite (bs_Put_present b d kv Hkv).
    + apply bs_contents_lookup_None in Hkv. rewrite Hkv in Hd. by destruct Hd.
  - intros [x Hx]. by rewrite lookup_empty in Hx.
Qed.

Lemma Fetch_served conns peer addr id c :
  inv (lc_store c) → conns !! peer = Some addr →
  (Fetch serve_fetch conns peer id c).1 = pushed id <$> contents (lc_store c) !! id.
Proof.
  intros Hi Hconn. unfold Fetch, stub_for, serve_fetch. rewrite Hconn.
  pose proof (rpc_Fetch_spec (BlockIdToProto id) c Hi) as Hf.
  destruct (rpc_Fetch (BlockIdToProto id) c) as [fr c'] eqn:E. destruct Hf as [Hf _].
  rewrite BlockIdFromProto_ToProto in Hf. rewrite Hf. cbn [fst].
  destruct (fr_found fr) eqn:Ef; [|done]. unfold pushed. cbn [fmap option_fmap option_map].
  do 2 f_equal. unfold rpc_Fetch in E. destruct (FetchLocal _ _) as [[f|] c2]; injection E as <- _;
    cbn [fr_id]; by rewrite !BlockIdFromProto_ToProto.
Qed.

(** Push and pull: a push to a connected peer never removes or alters a
    payload there; when it succeeds the peer holds the block, and a push of a
    block that the peer's DRAM already holds reports failure.  A pull returns
    the block exactly when the peer holds it, with the requested identity and
    its payload. *)
Theorem grpc_push_pull payload conns peer addr id c :
  node_ok payload c → block_ok payload (pushed id (payload id)) → conns !! peer = Some addr →
  (let '(ok, c') := Send serve_insert conns peer id ReplicationPush (payload id) c in
   (ok = true → contents (lc_store c') !! id = Some (payload id)) ∧
   contents (lc_store c) ⊆ contents (lc_store c') ∧
   (is_Some (tier_contents DRAM (lc_store c) !! id) → ok = false)) ∧
  (∀ b, (Fetch serve_fetch conns peer id c).1 = Some b ↔
        b = pushed id (payload id) ∧ is_Some (contents (lc_store c) !! id)).
Proof.
  intros Hok Hb Hconn. split.
  - unfold Send, stub_for, serve_insert. rewrite Hconn, rpc_Insert_push. cbn [accepted_count].
    pose proof (insert_step_effect payload 0 c (pushed id (payload id)) (no_store _ c Hok)
      (no_addressed _ c Hok) Hb) as Hs.
    pose proof (Put_in_dram (pushed id (payload id)) (lc_store c)) as Hdram.
    destruct (insert_step (0, c) (pushed id (payload id))) as [n c']. cbn [fst snd].
    destruct Hs as (Hi & _ & _ & Hm). cbn [kv_tier kv_id kv_data pushed] in Hm, Hdram.
    change (mkKvBlock id (payload id) DRAM 0) with (pushed id (payload id)) in Hm.
    destruct (TieredStore.Put (pushed id (payload id)) DRAM (lc_store c)) as [[t|] st'].
    + destruct Hm as (-> & Hc & Hm). rewrite Hc. split_and!.
      * intros _. by rewrite lookup_insert_eq.
      * apply map_subseteq_spec. intros x d Hd. apply lookup_insert_Some.
        destruct (decide (id = x)) as [<-|]; [left|by right]. split; [done|].
        symmetry. by apply (no_addressed _ c Hok).
      * intros Hd. specialize (Hdram Hd). injection Hdram as ->.
        rewrite bool_decide_false in Hm by (intros E; rewrite E in Hd; by destruct Hd). by destruct Hm as [-> _].
    + destruct Hm as (-> & _ & ->). by split_and!.
  - intros b. rewrite (Fetch_served _ _ addr) by (done || apply Hok). rewrite fmap_Some. split.
    + intros (d & Hd & ->). split; [by rewrite (no_addressed _ c Hok _ _ Hd)|by eexists].
    + intros (-> & d & Hd). exists d. split; [done|]. by rewrite (no_addressed _ c Hok _ _ Hd).
Qed.

(** A push that the peer accepts, and the same push again. *)
Lemma grpc_push_pull_witness :
  let conns := connect ∅ (mkStaticPeer "a" "h:0") in
  let '(ok, c') := Send serve_insert conns "a" (kv_id wit_block2) ReplicationPush (kv_data wit_block2) wit_node in
  contents (lc_store wit_node) ⊆ contents (lc_store c') ∧ ok = true ∧
  (Send serve_insert conns "a" (kv_id wit_block2) ReplicationPush (kv_data wit_block2) c').1 = false.
Proof.
  intros conns.
  pose proof (grpc_push_pull wit_payload conns "a" "h:0" (kv_id wit_block2) wit_node wit_node_ok
    ltac:(by split_and!; [split|..]) eq_refl) as [Hp _].
  change (wit_payload (kv_id wit_block2)) with (kv_data wit_block2) in Hp.
  assert (let '(ok, c') := Send serve_insert conns "a" (kv_id wit_block2) ReplicationPush (kv_data wit_block2) wit_node in
    (ok, (Send serve_insert conns "a" (kv_id wit_block2) ReplicationPush (kv_data wit_block2) c').1) =
    (true, false)) as He by (vm_compute; reflexivity).
  destruct (Send serve_insert conns "a" (kv_id wit_block2) _ (kv_data wit_block2) wit_node) as [ok c'].
  destruct Hp as (_ & Hsub & _). injection He as -> He. split_and!; [exact Hsub|done|exact He].
Defined.
