(* ===== verification/TransportThreads.v ===== *)
(** * The gRPC transport under threads (grpc_stream_transport.cpp)

    The table of peers has a lock, but [stub_for] returns a raw pointer that is
    used after the lock is released: the table owns the stubs, and removing an
    entry frees the stub under a call that is about to use it.  Each entry gets
    a number when it is made, so that a pointer to a freed stub can be told from
    one to its successor; using a freed one is undefined. *)
From S2P Require Import Prelude Types TierStore BlockStore SsdBlockStore TieredStore Routing.
From S2P Require Import Eviction Membership Replication Cache Threads Rpc GrpcTransport.

(** What [stub_for] returns. *)
Record Stub : Type := mkStub { sb_peer : string; sb_address : string; sb_object : nat }.

(** The table, the number of the next entry, and the world behind the calls. *)
Record Link (W : Type) : Type := mkLink {
  lk_peers : gmap string (string * nat);
  lk_next : nat;
  lk_world : W
}.
Arguments mkLink {_}. Arguments lk_peers {_}. Arguments lk_next {_}. Arguments lk_world {_}.

Inductive LinkAct : Type → Type :=
| LConnect (peer_id address : string) : LinkAct unit
| LDisconnect (peer_id : string) : LinkAct unit
| LClear : LinkAct unit
| LStub (peer_id : string) : LinkAct (option Stub)
| LInsert (sb : Stub) (blocks : list PbBlock) : LinkAct (option InsertResponse)
| LFetch (sb : Stub) (id : PbBlockId) : LinkAct (option FetchResponse).

(** What the threads of a node ask of the transport. *)
Inductive LinkOp : Type :=
| TConnect (peer_id address : string)
| TDisconnect (peer_id : string)
| TShutdown
| TSend (peer_id : string) (id : BlockId) (data : bytes)
| TFetch (peer_id : string) (id : BlockId).

Inductive LinkReply : Type := TDone | TSent (ok : bool) | TGot (b : option KvBlock).

Section link.
Context {W : Type}.
Context (call_insert : string → list PbBlock → W → option InsertResponse * W).
Context (call_fetch : string → PbBlockId → W → option FetchResponse * W).
Implicit Types l : Link W.

(** The stub has not been freed. *)
Definition live (sb : Stub) l : bool :=
  bool_decide (lk_peers l !! sb_peer sb = Some (sb_address sb, sb_object sb)).

Definition with_world l (w : W) : Link W := mkLink (lk_peers l) (lk_next l) w.

Definition link_connect (peer_id address : string) l : Link W :=
  match lk_peers l !! peer_id with
  | Some _ => l
  | None => mkLink (<[peer_id := (address, lk_next l)]> (lk_peers l)) (S (lk_next l)) (lk_world l)
  end.

Definition link_exec (R : Type) (a : LinkAct R) l : option (R * Link W) :=
  match a in LinkAct R return option (R * Link W) with
  | LConnect p address => Some (tt, link_connect p address l)
  | LDisconnect p => Some (tt, mkLink (delete p (lk_peers l)) (lk_next l) (lk_world l))
  | LClear => Some (tt, mkLink ∅ (lk_next l) (lk_world l))
  | LStub p => Some ((λ x, mkStub p x.1 x.2) <$> lk_peers l !! p, l)
  | LInsert sb blocks =>
      if live sb l
      then let '(resp, w) := call_insert (sb_address sb) blocks (lk_world l) in Some (resp, with_world l w)
      else None
  | LFetch sb id =>
      if live sb l
      then let '(resp, w) := call_fetch (sb_address sb) id (lk_world l) in Some (resp, with_world l w)
      else None
  end.

Open Scope prog_scope.

Definition send_prog (peer_id : string) (id : BlockId) (data : bytes) : prog LinkAct bool :=
  let! stub := call (LStub peer_id) in
  match stub with
  | None => Ret false
  | Some sb =>
      let! resp := call (LInsert sb (push_request id data)) in
      Ret (match resp with Some r => accepted_count r >? 0 | None => false end)
  end.

Definition fetch_prog (peer_id : string) (id : BlockId) : prog LinkAct (option KvBlock) :=
  let! stub := call (LStub peer_id) in
  match stub with
  | None => Ret None
  | Some sb =>
      let! resp := call (LFetch sb (BlockIdToProto id)) in
      Ret (match resp with
           | Some r => if fr_found r then Some (mkKvBlock (BlockIdFromProto (fr_id r)) (fr_kv_data r) DRAM 0) else None
           | None => None
           end)
  end.

Definition link_prog (o : LinkOp) : prog LinkAct LinkReply :=
  match o with
  | TConnect p address => let! _ := call (LConnect p address) in Ret TDone
  | TDisconnect p => let! _ := call (LDisconnect p) in Ret TDone
  | TShutdown => let! _ := call LClear in Ret TDone
  | TSend p id data => let! ok := send_prog p id data in Ret (TSent ok)
  | TFetch p id => let! b := fetch_prog p id in Ret (TGot b)
  end.

(** ** Alone *)

(** The table of the sequential transport. *)
Definition conns l : gmap string string := fst <$> lk_peers l.

Lemma stub_for_conns p l : stub_for (conns l) p = fst <$> lk_peers l !! p.
Proof. unfold stub_for, conns. by rewrite lookup_fmap. Qed.

Lemma live_stub p x l : lk_peers l !! p = Some x → live (mkStub p x.1 x.2) l = true.
Proof. intros E. apply bool_decide_eq_true. cbn. by rewrite E, <- surjective_pairing. Qed.

(** What the sequential definitions say of an operation. *)
Definition link_alone (o : LinkOp) l : LinkReply * gmap string string * W :=
  match o with
  | TConnect p address => (TDone, connect (conns l) (mkStaticPeer p address), lk_world l)
  | TDisconnect p => (TDone, Disconnect p (conns l), lk_world l)
  | TShutdown => (TDone, TransportShutdown (conns l), lk_world l)
  | TSend p id data =>
      let '(ok, w) := Send call_insert (conns l) p id ReplicationPush data (lk_world l) in (TSent ok, conns l, w)
  | TFetch p id => let '(b, w) := Fetch call_fetch (conns l) p id (lk_world l) in (TGot b, conns l, w)
  end.

(** Alone, an operation answers as the sequential transport does and leaves its
    table and world. *)
Theorem transport_alone o l :
  ∃ n l', turns link_exec link_prog (mkConfig l []) (Spawn o :: replicate n (Step 0)) =
      Some (mkConfig l' [(o, Ret (link_alone o l).1.1)]) ∧
    conns l' = (link_alone o l).1.2 ∧ lk_world l' = (link_alone o l).2.
Proof.
  assert (∃ l', run link_exec (link_prog o) l = Some ((link_alone o l).1.1, l') ∧
    conns l' = (link_alone o l).1.2 ∧ lk_world l' = (link_alone o l).2) as (l' & Hr & Hl).
  { destruct o as [p address|p| |p id data|p id]; cbn [link_prog link_alone].
    - eexists. split; [reflexivity|]. cbn. unfold link_connect, connect. cbn [sp_node_id sp_address].
      unfold conns. rewrite lookup_fmap. destruct (lk_peers l !! p) eqn:E; cbn; rewrite ?E; [done|].
      split; [|done]. cbn. by rewrite fmap_insert.
    - eexists. split; [reflexivity|]. split; [|done]. unfold conns, Disconnect. cbn. by rewrite fmap_delete.
    - eexists. split; [reflexivity|]. split; [|done]. unfold conns. cbn. by rewrite fmap_empty.
    - unfold send_prog, Send. rewrite stub_for_conns. cbn. destruct (lk_peers l !! p) as [x|] eqn:E; cbn; [|by eexists].
      rewrite live_stub by done. destruct (call_insert x.1 _ _) as [resp w]. by eexists.
    - unfold fetch_prog, Fetch. rewrite stub_for_conns. cbn. destruct (lk_peers l !! p) as [x|] eqn:E; cbn; [|by eexists].
      rewrite live_stub by done. destruct (call_fetch x.1 _ _) as [resp w]. by eexists. }
  destruct (turns_alone link_exec link_prog o _ _ _ _ Hr) as [n Hn]. exists n, l'. split; [exact Hn|exact Hl].
Qed.

(** ** Every schedule *)

(** Nothing removes a peer. *)
Definition keeps_peers (o : LinkOp) : Prop :=
  match o with TDisconnect _ | TShutdown => False | _ => True end.

Definition grows l l' : Prop := ∀ p x, lk_peers l !! p = Some x → lk_peers l' !! p = Some x.

#[export] Instance grows_preorder : PreOrder grows.
Proof. split; [by intros l p x|intros l1 l2 l3 H1 H2 p x H; by apply H2, H1]. Qed.

Definition link_pre (R : Type) (a : LinkAct R) l : Prop :=
  match a with
  | LDisconnect _ | LClear => False
  | LInsert sb _ | LFetch sb _ => live sb l = true
  | _ => True
  end.

Lemma link_guarantee R (a : LinkAct R) l r l' :
  True → link_pre R a l → link_exec R a l = Some (r, l') → True ∧ grows l l'.
Proof.
  intros _ Hp E. split; [done|].
  destruct a as [p address|p| |p|sb blocks|sb id]; cbn in Hp, E; try done.
  - injection E as _ <-. unfold link_connect. intros q x Hx. destruct (lk_peers l !! p) eqn:Ep; [done|]. cbn.
    rewrite lookup_insert_ne; [done|congruence].
  - injection E as _ <-. by intros q x.
  - rewrite Hp in E. destruct (call_insert _ _ _). injection E as _ <-. by intros q x.
  - rewrite Hp in E. destruct (call_fetch _ _ _). injection E as _ <-. by intros q x.
Qed.

Lemma live_grows sb l l' : grows l l' → live sb l = true → live sb l' = true.
Proof. unfold live. rewrite !bool_decide_eq_true. intros Hg. apply Hg. Qed.

Lemma link_spawned o l : keeps_peers o → True → safe link_exec (λ _, True) grows link_pre (λ _ _, True) (link_prog o) l.
Proof.
  intros Ho _. assert (∀ p x l1 l2, grows l1 l2 → lk_peers l1 !! p = Some x → live (mkStub p x.1 x.2) l2 = true) as Hl.
  { intros p x l1 l2 Hg Hx. eapply live_grows; [exact Hg|]. by apply live_stub. }
  destruct o as [p address| | |p id data|p id]; try done.
  - intros l1 _ _. split; [done|]. intros r l2 E. cbn in E. injection E as <- <-.
    destruct (lk_peers l1 !! p) as [x|] eqn:Ex; [|by intros l3 _ _]. intros l3 H3 _.
    split; [exact (Hl p x l1 l3 H3 Ex)|]. by intros r l4 _ l5 _ _.
  - intros l1 _ _. split; [done|]. intros r l2 E. cbn in E. injection E as <- <-.
    destruct (lk_peers l1 !! p) as [x|] eqn:Ex; [|by intros l3 _ _]. intros l3 H3 _.
    split; [exact (Hl p x l1 l3 H3 Ex)|]. by intros r l4 _ l5 _ _.
Qed.

(** Pushes, pulls and connects in any interleaving never use a freed stub, and
    every peer stays connected. *)
Theorem transport_defined ts l :
  (∀ o, Spawn o ∈ ts → keeps_peers o) →
  ∃ c, turns link_exec link_prog (mkConfig l []) ts = Some c ∧ grows l (cf_state c).
Proof.
  intros Hop.
  assert (config_ok link_exec (λ _, True) grows link_pre (λ _ _ _, True) (mkConfig l [] : Config (Op := LinkOp) (Reply := LinkReply))) as Hc.
  { split; [done|]. by intros o p ?%not_elem_of_nil. }
  assert (is_Some (turns link_exec link_prog (mkConfig l []) ts)) as [c E].
  { apply (schedule_defined link_exec link_prog (λ _, True) grows link_pre link_guarantee keeps_peers (λ _ _ _, True));
      [intros o l1; apply link_spawned| |exact Hc|exact Hop].
    intros R a l1 _ Hp. destruct a as [p address|p| |p|sb blocks|sb id]; cbn in Hp |- *; try done; rewrite Hp.
    - destruct (call_insert _ _ _). by eexists.
    - destruct (call_fetch _ _ _). by eexists. }
  exists c. split; [done|].
  apply (turns_ok link_exec link_prog (λ _, True) grows link_pre link_guarantee keeps_peers (λ _ _ _, True))
    with (ts := ts) (c := mkConfig l []); [intros o l1; apply link_spawned|done|done|done].
Qed.

(** ** Shutdown *)

(** The sends of the workers, one after the other. *)
Fixpoint send_all (cs : gmap string string) (tasks : list ReplicateTask) (w : W) : list bool * W :=
  match tasks with
  | [] => ([], w)
  | t :: tasks =>
      let b := rt_block t in
      let '(ok, w1) := Send call_insert cs (rt_peer_id t) (kv_id b) ReplicationPush (kv_data b) w in
      let '(oks, w2) := send_all cs tasks w1 in (ok :: oks, w2)
  end.

(** The facade shuts the transport down before the replicator's destructor
    drains the queue: every push that is still queued fails, and no peer is
    contacted. *)
Theorem shutdown_discards_queue cs tasks w :
  send_all (TransportShutdown cs) tasks w = (replicate (length tasks) false, w).
Proof.
  revert w. induction tasks as [|t tasks IH]; intros w; [done|]. cbn [send_all length replicate].
  unfold Send, stub_for, TransportShutdown. rewrite lookup_empty. unfold TransportShutdown in IH. by rewrite IH.
Qed.
End link.

(** ** A worker that sends while the node shuts down *)

Definition wit_accept (address : string) (blocks : list PbBlock) (w : unit) : option InsertResponse * unit :=
  (Some (mkInsertResponse 1 0), w).
Definition wit_nothing (address : string) (id : PbBlockId) (w : unit) : option FetchResponse * unit := (None, w).

Definition link_run (ops : list LinkOp) (steps : list nat) : option (Config (St := Link unit)) :=
  turns (link_exec wit_accept wit_nothing) link_prog (mkConfig (mkLink ∅ 0 tt) [])
    ((Spawn <$> ops) ++ (Step <$> steps)).

(** A worker has looked up the stub of its peer; [LetheCache::Shutdown] clears
    the table while the worker is still running (the destructor of the
    replicator joins it later); the worker then calls through the freed stub.
    Had the shutdown waited for the call, the push would have been
    acknowledged. *)
Theorem transport_shutdown_race :
  let ops := [TConnect "b" "h:1"; TSend "b" (block_id_of_byte Byte.x01) [Byte.x01]; TShutdown] in
  (link_run ops [0; 1; 2]%nat ≫= reply_at 2) = Some TDone ∧
  link_run ops [0; 1; 2; 1]%nat = None ∧
  (link_run ops [0; 1; 1; 2]%nat ≫= reply_at 1) = Some (TSent true).
Proof. split_and!; vm_compute; reflexivity. Qed.
