(* ===== verification/Cluster.v ===== *)
(** * Several nodes

    Nodes with their replication queues, joined by the gRPC transport: a push
    runs the insert handler of the peer, which may queue further pushes.  The
    membership does not change here; requests, reads and pushes interleave in
    any order. *)
From S2P Require Import Prelude Types TierStore BlockStore SsdBlockStore TieredStore Routing.
From S2P Require Import Eviction Membership Replication Cache Rpc GrpcTransport.

Abbreviation Cluster := (gmap string LetheCache).

Section cluster.
Context (payload : BlockId → bytes).

(** The node whose server listens on an address. *)
Context (listening : string → option string).

(** What becomes of one call: it is answered, it does not reach the peer, or the
    peer handles it and the answer does not come back in time. *)
Inductive Net : Type := Answered | Lost | Unanswered.

(** An insert call over the network. *)
Definition call_insert (net : Net) (address : string) (blocks : list PbBlock) (cl : Cluster) :
    option InsertResponse * Cluster :=
  match net, listening address with
  | Lost, _ | _, None => (None, cl)
  | _, Some n =>
      match cl !! n with
      | None => (None, cl)
      | Some c =>
          let '(resp, c') := rpc_Insert blocks c in
          (match net with Answered => Some resp | _ => None end, <[n := c']> cl)
      end
  end.

(** A worker of node [n] takes the front of its queue and sends it. *)
Definition worker_push (net : Net) (n : string) (cl : Cluster) : Cluster :=
  match cl !! n with
  | None => cl
  | Some c =>
      match rp_queue (lc_pool c) with
      | [] => cl
      | t :: _ =>
          let '(ok, cl') := Send (call_insert net) (lc_connections c) (rt_peer_id t) (kv_id (rt_block t))
                              ReplicationPush (kv_data (rt_block t)) cl in
          alter (worker_tick ok) n cl'
      end
  end.

(** The queue of [c] has room for the pushes of block [id]. *)
Definition roomy (c : LetheCache) (id : BlockId) : Prop :=
  (length (rp_queue (lc_pool c)) + length (replicas (Route id (lc_router c))) ≤ kReplicationQueueMax)%nat.

(** The front of the queue of [n] reaches its peer, which has room for it. *)
Definition delivers (n : string) (cl : Cluster) : Prop :=
  ∃ c t q addr cp, cl !! n = Some c ∧ rp_queue (lc_pool c) = t :: q ∧
    lc_connections c !! rt_peer_id t = Some addr ∧ listening addr = Some (rt_peer_id t) ∧
    cl !! rt_peer_id t = Some cp ∧ roomy cp (kv_id (rt_block t)) ∧
    is_Some (TieredStore.Put (pushed (kv_id (rt_block t)) (kv_data (rt_block t))) DRAM (lc_store cp)).1.

(** Steps of a cluster without losses: [Insert] handles its blocks one by one,
    so each block is a step of its own. *)
Inductive cluster_step (cl : Cluster) : Cluster → Prop :=
| cs_insert n c b :
    cl !! n = Some c → block_ok payload b → roomy c (kv_id b) →
    cluster_step cl (<[n := (insert_step (0, c) b).2]> cl)
| cs_lookup n c ids : cl !! n = Some c → cluster_step cl (<[n := (Lookup ids c).2]> cl)
| cs_fetch n c p : cl !! n = Some c → cluster_step cl (<[n := (rpc_Fetch p c).2]> cl)
| cs_push net n : net ≠ Lost → delivers n cl → cluster_step cl (worker_push net n cl).

(** ** The invariant *)

Definition pending (c : LetheCache) (p : string) (id : BlockId) : Prop :=
  ∃ t, t ∈ rp_queue (lc_pool c) ∧ rt_peer_id t = p ∧ kv_id (rt_block t) = id.

Definition has (c : LetheCache) (id : BlockId) : Prop := is_Some (contents (lc_store c) !! id).

Definition holds (cl : Cluster) (p : string) (id : BlockId) : Prop := ∃ c, cl !! p = Some c ∧ has c id.

(** Each replica of a held block has it or is about to be sent it. *)
Definition covered (cl : Cluster) : Prop :=
  ∀ n c id p, cl !! n = Some c → has c id → p ∈ replicas (Route id (lc_router c)) → p ≠ n →
    holds cl p id ∨ pending c p id.

Record node_good (n : string) (c : LetheCache) : Prop := {
  ng_ok : node_ok payload c;
  ng_name : cc_node_id (lc_cfg c) = n;
  ng_tasks : Forall (λ t, rt_peer_id t ≠ n ∧ block_ok payload (rt_block t)) (rp_queue (lc_pool c))
}.

Definition cluster_ok (cl : Cluster) : Prop :=
  (∀ n c, cl !! n = Some c → node_good n c) ∧ covered cl.

Lemma insert_step_connections n c b : lc_connections (insert_step (n, c) b).2 = lc_connections c.
Proof.
  unfold insert_step. destruct (TieredStore.Put b (kv_tier b) (lc_store c)) as [[t|] st']; [|done].
  by destruct (_ >? _).
Qed.

(** The pushes that an accepted block queues, when they all fit. *)
Lemma ReplicateOut_room c b :
  roomy c (kv_id b) → (length (rp_queue (lc_pool c)) ≤ kReplicationQueueMax)%nat →
  rp_queue (ReplicateOut true (cc_node_id (lc_cfg c)) (Some (lc_router c)) b (lc_pool c)).2 =
  rp_queue (lc_pool c) ++
    ((λ p, mkReplicateTask p b) <$>
       filter (λ p, p ≠ cc_node_id (lc_cfg c)) (replicas (Route (kv_id b) (lc_router c)))).
Proof.
  intros Hroom Hq. unfold ReplicateOut. cbn [snd].
  destruct (enqueue_all b (filter (λ p, p ≠ cc_node_id (lc_cfg c)) (replicas (Route (kv_id b) (lc_router c))))
    (lc_pool c) Hq) as [-> _].
  unfold roomy in Hroom. rewrite take_ge; [done|].
  pose proof (length_filter (λ p, p ≠ cc_node_id (lc_cfg c)) (replicas (Route (kv_id b) (lc_router c)))). lia.
Qed.
(** The tasks that one block adds to the queue, and what the node then holds. *)
Lemma insert_step_delta n b c :
  node_good n c → block_ok payload b → roomy c (kv_id b) →
  let c' := (insert_step (0, c) b).2 in
  ∃ new, rp_queue (lc_pool c') = rp_queue (lc_pool c) ++ new ∧
    Forall (λ t, rt_peer_id t ≠ n ∧ rt_block t = b ∧
                 rt_peer_id t ∈ replicas (Route (kv_id b) (lc_router c)) ∧ has c' (kv_id b)) new ∧
    (contents (lc_store c) !! kv_id b = None → has c' (kv_id b) →
     ∀ p, p ∈ replicas (Route (kv_id b) (lc_router c)) → p ≠ n → mkReplicateTask p b ∈ new) ∧
    contents (lc_store c') = match (TieredStore.Put b (kv_tier b) (lc_store c)).1 with
      | Some _ => <[kv_id b := kv_data b]> (contents (lc_store c))
      | None => contents (lc_store c)
      end.
Proof.
  intros [Hok Hn _] Hb Hroom. unfold has.
  pose proof (insert_step_effect payload 0 c b (no_store _ c Hok) (no_addressed _ c Hok) Hb) as Hs.
  destruct (insert_step (0, c) b) as [k c']. cbn [snd]. destruct Hs as (_ & _ & _ & Hm).
  destruct (TieredStore.Put b (kv_tier b) (lc_store c)) as [[t|] st']; cbn [fst].
  - destruct Hm as (-> & Hc & Hm). destruct (bool_decide _) eqn:E; destruct Hm as [_ ->].
    + eexists. rewrite ReplicateOut_room by (done || apply Hok). split; [reflexivity|].
      rewrite Hn. split_and!; [| |done].
      * apply Forall_fmap, Forall_forall. intros p [Hp Hin]%list_elem_of_filter. split_and!; [done..|].
        rewrite Hc, lookup_insert_eq. by eexists.
      * intros _ _ p Hp Hpn. apply list_elem_of_fmap. exists p. split; [done|]. by apply list_elem_of_filter.
    + exists []. rewrite app_nil_r. split_and!; [done|by constructor| |done].
      intros Hnone. apply bool_decide_eq_false in E. destruct E. by apply contents_lookup_None.
  - destruct Hm as (_ & -> & Est). exists []. rewrite app_nil_r, Est. split_and!; [done|by constructor| |done].
    intros Hnone [d Hd]. congruence.
Qed.

(** What inserting one block does to a node. *)
Record inserted (n : string) (b : KvBlock) (c c' : LetheCache) : Prop := {
  is_good : node_good n c';
  is_router : lc_router c' = lc_router c;
  is_keeps id : has c id → has c' id;
  is_new id : has c' id → has c id ∨
    id = kv_id b ∧ ∀ p, p ∈ replicas (Route id (lc_router c)) → p ≠ n → pending c' p id;
  is_pending p id : pending c p id → pending c' p id;
  is_landed : is_Some (TieredStore.Put b (kv_tier b) (lc_store c)).1 → has c' (kv_id b);
  is_queue t : t ∈ rp_queue (lc_pool c') → t ∈ rp_queue (lc_pool c) ∨
    rt_block t = b ∧ has c' (kv_id b) ∧ rt_peer_id t ∈ replicas (Route (kv_id b) (lc_router c));
  is_round : rp_rerep_round (lc_pool c') = rp_rerep_round (lc_pool c) ∧
    rp_rerep_cursor (lc_pool c') = rp_rerep_cursor (lc_pool c)
}.

(** Queueing a block does not touch the round. *)
Lemma insert_step_round k c b :
  let c' := (insert_step (k, c) b).2 in
  rp_rerep_round (lc_pool c') = rp_rerep_round (lc_pool c) ∧
  rp_rerep_cursor (lc_pool c') = rp_rerep_cursor (lc_pool c).
Proof.
  unfold insert_step. destruct (TieredStore.Put b (kv_tier b) (lc_store c)) as [[t|] st']; [|done].
  destruct (_ >? _); [|done]. unfold ReplicateOut. cbn [snd lc_pool with_pool with_store].
  generalize (filter (λ p, p ≠ cc_node_id (lc_cfg c)) (replicas (Route (kv_id b) (lc_router c)))) as l.
  intros l. generalize (lc_pool c) as s. induction l as [|p l IH]; intros s; [done|]. cbn [fold_left].
  destruct (IH (enqueue_or_drop b s p)) as [-> ->]. unfold enqueue_or_drop. by destruct (_ <=? _)%nat.
Qed.

Lemma insert_one n b c :
  node_good n c → block_ok payload b → roomy c (kv_id b) → inserted n b c (insert_step (0, c) b).2.
Proof.
  intros Hg Hb Hroom. destruct (insert_step_delta n b c Hg Hb Hroom) as (new & Hq & Hnew & Hall & Hc).
  destruct Hg as [Hok Hn Ht].
  pose proof (insert_step_effect payload 0 c b (no_store _ c Hok) (no_addressed _ c Hok) Hb) as Hs.
  assert (node_ok payload (insert_step (0, c) b).2) as Hok'.
  { apply (insert_node_ok payload [b] c Hok). by apply Forall_singleton. }
  pose proof (insert_step_round 0 c b) as Hround.
  destruct (insert_step (0, c) b) as [k c']. cbn [snd] in *.
  destruct Hs as (_ & _ & [Ecfg Erouter _] & _). unfold pending. split.
  - split; [done|by rewrite Ecfg|]. rewrite Hq. apply Forall_app. split; [done|].
    eapply Forall_impl; [exact Hnew|]. by intros t (? & -> & _).
  - done.
  - intros id. unfold has. rewrite Hc. destruct (TieredStore.Put _ _ _).1; [|done].
    rewrite lookup_insert_is_Some'. auto.
  - intros id Hid. destruct (contents (lc_store c) !! id) as [d|] eqn:E; [left; by eexists|right].
    assert (id = kv_id b) as ->.
    { unfold has in Hid. rewrite Hc in Hid. destruct (TieredStore.Put _ _ _).1; [|rewrite E in Hid; by destruct Hid].
      apply lookup_insert_is_Some' in Hid as [|Hid]; [done|]. rewrite E in Hid. by destruct Hid. }
    split; [done|]. intros p Hp Hpn. exists (mkReplicateTask p b). rewrite Hq.
    split; [|done]. apply elem_of_app. right. by apply Hall.
  - intros p id (t & Hin & Hp & Hid). exists t. rewrite Hq. split; [|done]. apply elem_of_app. by left.
  - intros [t Ht']. unfold has. rewrite Hc, Ht', lookup_insert_eq. by eexists.
  - intros t. rewrite Hq. intros [|Ht']%elem_of_app; [by left|right].
    rewrite Forall_forall in Hnew. by destruct (Hnew t Ht') as (_ & -> & ? & ?).
  - exact Hround.
Qed.

(** Replacing a node by one that keeps its blocks, accounts for its new ones
    and drops a push only when the peer has the block. *)
Lemma cluster_ok_update cl n c c' :
  cluster_ok cl → cl !! n = Some c → node_good n c' → lc_router c' = lc_router c →
  (∀ id, has c id → has c' id) →
  (∀ id p, has c' id → p ∈ replicas (Route id (lc_router c)) → p ≠ n → has c id ∨ pending c' p id) →
  (∀ p id, pending c p id → p ≠ n → pending c' p id ∨ holds cl p id) →
  cluster_ok (<[n := c']> cl).
Proof.
  intros [Hgood Hcov] Hn Hg Hr Hkeep Hnew Hpend.
  assert (∀ p id, holds cl p id → holds (<[n := c']> cl) p id) as Hholds.
  { intros p id (x & Hx & Hid). destruct (decide (n = p)) as [<-|Hne].
    - exists c'. rewrite lookup_insert_eq. split; [done|]. apply Hkeep. by simplify_eq.
    - exists x. by rewrite lookup_insert_ne. }
  split.
  - intros m x [[<- <-]|[_ Hx]]%lookup_insert_Some; [done|by apply Hgood].
  - intros m x id p [[<- <-]|[Hne Hx]]%lookup_insert_Some Hid Hp Hpm.
    + rewrite Hr in Hp. destruct (Hnew id p Hid Hp Hpm) as [Hold|]; [|by right].
      destruct (Hcov n c id p Hn Hold Hp Hpm) as [|Hq]; [left; by apply Hholds|].
      destruct (Hpend p id Hq Hpm); [by right|left; by apply Hholds].
    + destruct (Hcov m x id p Hx Hid Hp Hpm); [left; by apply Hholds|by right].
Qed.

Lemma cluster_ok_inserted cl n c b :
  cluster_ok cl → cl !! n = Some c → block_ok payload b → roomy c (kv_id b) →
  cluster_ok (<[n := (insert_step (0, c) b).2]> cl).
Proof.
  intros Hok Hn Hb Hroom. pose proof (insert_one n b c (proj1 Hok n c Hn) Hb Hroom) as [Hg Hr Hk Hnew Hp _ _ _].
  apply (cluster_ok_update cl n c); try done.
  - intros id p Hid Hp' Hpn. destruct (Hnew id Hid) as [|[-> Hall]]; [by left|right; by apply Hall].
  - intros p id Hpend _. left. by apply Hp.
Qed.

(** A read changes neither what a node holds nor its queue. *)
Lemma cluster_ok_read cl n c st' :
  cluster_ok cl → cl !! n = Some c → inv st' → contents st' = contents (lc_store c) →
  cluster_ok (<[n := with_store c st']> cl).
Proof.
  intros Hok Hn Hi Hc. destruct (proj1 Hok n c Hn) as [Hnode Hname Htasks].
  apply (cluster_ok_update cl n c); try done; unfold has, pending; cbn [lc_store with_store lc_pool lc_router];
    rewrite ?Hc; auto.
  split; [by apply node_ok_store_same|done|done].
Qed.
Lemma pushed_ok b : block_ok payload b → block_ok payload (pushed (kv_id b) (kv_data b)).
Proof. intros ([Hsize Hid _] & Hne & Hd). split_and!; [by split|done|done]. Qed.

(** A delivered push, as the peer's insert followed by the end of the task. *)
Lemma worker_push_delivered net n c t q addr cp cl :
  net ≠ Lost → cl !! n = Some c → rp_queue (lc_pool c) = t :: q →
  lc_connections c !! rt_peer_id t = Some addr → listening addr = Some (rt_peer_id t) →
  cl !! rt_peer_id t = Some cp → rt_peer_id t ≠ n →
  ∃ ok, worker_push net n cl =
    <[n := worker_tick ok c]>
      (<[rt_peer_id t := (insert_step (0, cp) (pushed (kv_id (rt_block t)) (kv_data (rt_block t)))).2]> cl).
Proof.
  intros Hnet Hn Hq Hconn Hl Hp Hne. unfold worker_push, Send, stub_for, call_insert.
  rewrite Hn, Hq, Hconn, Hl, Hp, rpc_Insert_push.
  destruct net; [| done |]; cbn [accepted_count]; eexists; apply map_eq; intros m; destruct (decide (n = m)) as [<-|Hnm];
    [rewrite lookup_alter_eq, lookup_insert_ne, lookup_insert_eq by done; by rewrite Hn
    |by rewrite lookup_alter_ne, (lookup_insert_ne _ n) by done|..].
  - rewrite lookup_alter_eq, lookup_insert_ne, lookup_insert_eq by done. by rewrite Hn.
  - by rewrite lookup_alter_ne, (lookup_insert_ne _ n) by done.
Qed.

Lemma cluster_ok_popped cl n c t q ok :
  cluster_ok cl → cl !! n = Some c → rp_queue (lc_pool c) = t :: q →
  holds cl (rt_peer_id t) (kv_id (rt_block t)) →
  cluster_ok (<[n := worker_tick ok c]> cl).
Proof.
  intros Hok Hn Hq Hh. destruct (proj1 Hok n c Hn) as [Hnode Hname Htasks].
  assert (rp_queue (lc_pool (worker_tick ok c)) = q) as Hq'.
  { unfold worker_tick, worker_step. cbn [lc_pool with_pool]. by rewrite Hq. }
  apply (cluster_ok_update cl n c); try done.
  - split; [apply node_ok_pool; [done|apply worker_pool_ok, Hnode]|done|].
    rewrite Hq'. rewrite Hq in Htasks. by apply Forall_cons in Htasks as [_ ?].
  - intros id p Hid _ _. by left.
  - intros p id (t' & Hin & Hp & Hid) _. rewrite Hq in Hin. apply elem_of_cons in Hin as [->|Hin].
    + right. by subst.
    + left. exists t'. by rewrite Hq'.
Qed.

Lemma cluster_ok_push cl net n : net ≠ Lost → cluster_ok cl → delivers n cl → cluster_ok (worker_push net n cl).
Proof.
  intros Hnet Hok (c & t & q & addr & cp & Hn & Hq & Hconn & Hl & Hp & Hroom & Hland).
  pose proof (ng_tasks _ _ (proj1 Hok n c Hn)) as Ht. rewrite Hq in Ht. apply Forall_cons in Ht as [[Hne Hb] _].
  destruct (worker_push_delivered net n c t q addr cp cl) as [ok ->]; try done.
  pose proof (insert_one _ _ _ (proj1 Hok _ _ Hp) (pushed_ok _ Hb) Hroom) as Hins.
  apply (cluster_ok_popped _ n c t q).
  - apply cluster_ok_inserted; try done. by apply pushed_ok.
  - by rewrite lookup_insert_ne.
  - done.
  - eexists. rewrite lookup_insert_eq. split; [done|]. by apply (is_landed _ _ _ _ Hins).
Qed.

Lemma cluster_step_ok cl cl' : cluster_ok cl → cluster_step cl cl' → cluster_ok cl'.
Proof.
  intros Hok Hs. destruct Hs as [n c b Hn Hb Hroom|n c ids Hn|n c p Hn|net n Hnet Hd].
  - by apply cluster_ok_inserted.
  - destruct (proj1 Hok n c Hn) as [Hnode _ _]. unfold Lookup.
    pose proof (lookup_loop (lc_router c) (cc_node_id (lc_cfg c)) ids (mkLookupResult [] 0 0) (lc_store c)
      (no_store _ c Hnode)) as Hl.
    destruct (fold_left _ ids _) as [res st']. destruct Hl as (? & ? & _). by apply cluster_ok_read.
  - destruct (proj1 Hok n c Hn) as [Hnode _ _]. unfold rpc_Fetch, FetchLocal.
    destruct (Get_effect (BlockIdFromProto p) (lc_store c) (no_store _ c Hnode)) as (? & ? & _).
    destruct (TieredStore.Get (BlockIdFromProto p) (lc_store c)) as [[g|] st']; by apply cluster_ok_read.
  - by apply cluster_ok_push.
Qed.

(** C1 (replication): in a cluster whose pushes all reach their peer, which has
    room for them, and whether or not the answer comes back, inserts of nonempty
    blocks, reads and pushes in any order lead to a state in which, once every
    queue is empty, each block that any node holds is held with the right bytes
    by every replica of its route.  To take a push from the queue and to send it
    is one step. *)
Theorem cluster_replicates cl cl' :
  cluster_ok cl → rtc cluster_step cl cl' →
  (∀ n c, cl' !! n = Some c → rp_queue (lc_pool c) = []) →
  ∀ n c id d p, cl' !! n = Some c → contents (lc_store c) !! id = Some d →
    p ∈ replicas (Route id (lc_router c)) → p ≠ n →
    d = payload id ∧ ∃ cp, cl' !! p = Some cp ∧ contents (lc_store cp) !! id = Some d.
Proof.
  intros Hok Hsteps Hidle. assert (cluster_ok cl') as [Hgood Hcov].
  { clear Hidle. induction Hsteps as [|x y z Hxy _ IH]; [done|]. apply IH. by eapply cluster_step_ok. }
  intros n c id d p Hn Hd Hp Hpn.
  assert (d = payload id) as -> by (by apply (no_addressed _ _ (ng_ok _ _ (Hgood n c Hn)))).
  split; [done|]. destruct (Hcov n c id p Hn ltac:(by eexists) Hp Hpn) as [(cp & Hcp & d' & Hd')|(t & Ht & _)].
  - exists cp. split; [done|]. rewrite Hd'. f_equal.
    by apply (no_addressed _ _ (ng_ok _ _ (Hgood p cp Hcp))).
  - rewrite (Hidle n c Hn) in Ht. by apply not_elem_of_nil in Ht.
Qed.
(** ** Push traffic dies out *)

Section traffic.
(** Every identity in play, and a bound on the replicas of a block. *)
Context (U : gset BlockId) (K : nat).

Definition copies (c : LetheCache) : Z :=
  Z.of_nat (size (tier_contents HBM (lc_store c)) + size (tier_contents DRAM (lc_store c)) +
            size (tier_contents SSD (lc_store c))).

(** The pushes that a node may still cause: those queued, and [K] for each
    copy that it does not hold yet. *)
Definition weight (c : LetheCache) : Z :=
  Z.of_nat (length (rp_queue (lc_pool c))) + Z.of_nat K * (3 * Z.of_nat (size U) - copies c).

Record in_play (c : LetheCache) : Prop := {
  ip_held t id : is_Some (tier_contents t (lc_store c) !! id) → id ∈ U;
  ip_tasks : Forall (λ t, kv_id (rt_block t) ∈ U) (rp_queue (lc_pool c));
  ip_replicas id : (length (replicas (Route id (lc_router c))) ≤ K)%nat
}.

Definition traffic_ok (cl : Cluster) : Prop :=
  ∀ n c, cl !! n = Some c → node_good n c ∧ in_play c.

Lemma weight_nonneg c : in_play c → 0 ≤ weight c.
Proof.
  intros [Hh _ _]. unfold weight, copies.
  assert (∀ t, (size (tier_contents t (lc_store c)) ≤ size U)%nat) as Hsz.
  { intros t. rewrite <- (size_dom (D := gset BlockId)). apply subseteq_size. intros id Hid%elem_of_dom.
    by apply (Hh t). }
  pose proof (Hsz HBM). pose proof (Hsz DRAM). pose proof (Hsz SSD). nia.
Qed.

(** The tiers after one block, tier by tier. *)
Lemma insert_step_tiers c b :
  node_ok payload c → block_ok payload b →
  let c' := (insert_step (0, c) b).2 in
  (∀ t id, is_Some (tier_contents t (lc_store c') !! id) →
     is_Some (tier_contents t (lc_store c) !! id) ∨ id = kv_id b) ∧
  (copies c' = copies c ∧ lc_pool c' = lc_pool c ∨
   copies c' = copies c + 1 ∧
   lc_pool c' = (ReplicateOut true (cc_node_id (lc_cfg c)) (Some (lc_router c)) b (lc_pool c)).2).
Proof.
  intros Hok Hb.
  pose proof (insert_step_effect payload 0 c b (no_store _ c Hok) (no_addressed _ c Hok) Hb) as Hs.
  assert (agrees b (contents (lc_store c))) as Hag.
  { intros d Hd. destruct Hb as (_ & _ & ->). by apply (no_addressed _ c Hok). }
  pose proof (Put_effect b (kv_tier b) (lc_store c) (no_store _ c Hok) (proj1 Hb) (proj1 (proj2 Hb)) Hag) as Hput.
  destruct (insert_step (0, c) b) as [k c']. cbn [snd]. destruct Hs as (_ & _ & _ & Hm).
  destruct (TieredStore.Put b (kv_tier b) (lc_store c)) as [[t|] st'].
  2:{ destruct Hm as (_ & Hp & Est). unfold copies. rewrite Est. split; [by left|by left]. }
  destruct Hput as (_ & _ & _ & _ & Hpt), Hm as (Est & _ & Hm).
  destruct (PutToTier_true b t _ _ (inv_tiers _ (no_store _ c Hok)) (proj1 Hb) Hpt) as [_ _ Htc _].
  rewrite <- Est in Htc. unfold contents_put in Htc.
  destruct (tier_contents t (lc_store c) !! kv_id b) as [d|] eqn:E.
  - rewrite bool_decide_false in Hm by done. destruct Hm as [_ Hp].
    assert (∀ t', tier_contents t' (lc_store c') = tier_contents t' (lc_store c)) as Hsame.
    { intros t'. rewrite Htc. case_decide; by subst. }
    unfold copies. rewrite !Hsame. split; [intros ??; rewrite Hsame; by left|by left].
  - rewrite bool_decide_true in Hm by done. destruct Hm as [_ Hp]. split.
    + intros t' id. rewrite Htc. case_decide as Hd; [subst t'|by left].
      rewrite lookup_insert_is_Some'. intros [<-|]; [by right|by left].
    + right. split; [|done]. unfold copies. rewrite !Htc.
      destruct t; repeat case_decide; try done; rewrite map_size_insert_None by done; lia.
Qed.

Lemma ReplicateOut_growth c b :
  pool_ok (lc_pool c) → in_play c →
  ∃ new, rp_queue (ReplicateOut true (cc_node_id (lc_cfg c)) (Some (lc_router c)) b (lc_pool c)).2 =
    rp_queue (lc_pool c) ++ new ∧ (length new ≤ K)%nat ∧
    Forall (λ t, rt_peer_id t ≠ cc_node_id (lc_cfg c) ∧ rt_block t = b) new.
Proof.
  intros [Hq _] [_ _ Hr]. unfold ReplicateOut. cbn [snd].
  set (peers := filter (λ p, p ≠ cc_node_id (lc_cfg c)) (replicas (Route (kv_id b) (lc_router c)))).
  destruct (enqueue_all b peers (lc_pool c) Hq) as [-> _]. eexists. split; [reflexivity|]. split.
  - rewrite length_fmap, length_take. specialize (Hr (kv_id b)).
    assert (length peers ≤ length (replicas (Route (kv_id b) (lc_router c))))%nat by apply length_filter. lia.
  - apply Forall_fmap, Forall_forall. intros p (i & Hp%list_elem_of_lookup_2 & _)%elem_of_take.
    by apply list_elem_of_filter in Hp as [? _].
Qed.

(** An insert does not raise the weight. *)
Lemma insert_step_weight n c b :
  node_good n c → in_play c → block_ok payload b → kv_id b ∈ U →
  let c' := (insert_step (0, c) b).2 in node_good n c' ∧ in_play c' ∧ weight c' ≤ weight c ∧
  ∃ new, rp_queue (lc_pool c') = rp_queue (lc_pool c) ++ new.
Proof.
  intros [Hok Hn Ht] Hplay Hb HU.
  destruct (insert_step_tiers c b Hok Hb) as [Hheld Hcases].
  assert (node_ok payload (insert_step (0, c) b).2) as Hok'.
  { apply (insert_node_ok payload [b] c Hok). by apply Forall_singleton. }
  pose proof (insert_step_effect payload 0 c b (no_store _ c Hok) (no_addressed _ c Hok) Hb) as Hs.
  destruct (insert_step (0, c) b) as [k c']. cbn [snd] in *. destruct Hs as (_ & _ & [Ecfg Erouter _] & _).
  assert (∃ new, rp_queue (lc_pool c') = rp_queue (lc_pool c) ++ new ∧
    Forall (λ t, rt_peer_id t ≠ n ∧ rt_block t = b) new ∧
    Z.of_nat (length new) ≤ Z.of_nat K * (copies c' - copies c)) as (new & Hq & Hnew & Hlen).
  { destruct Hcases as [[-> ->]|[-> ->]].
    - exists []. rewrite app_nil_r. split_and!; [done|by constructor|simpl; lia].
    - destruct (ReplicateOut_growth c b (no_pool _ c Hok) Hplay) as (new & -> & Hl & Hf).
      exists new. rewrite Hn in Hf. split_and!; [done|done|lia]. }
  destruct Hplay as [Hh Htasks Hr]. split_and!.
  - split; [done|by rewrite Ecfg|]. rewrite Hq. apply Forall_app. split; [done|].
    eapply Forall_impl; [exact Hnew|]. by intros t [? ->].
  - split.
    + intros t id Hid. destruct (Hheld t id Hid) as [Hid'| ->]; [by apply (Hh t)|done].
    + rewrite Hq. apply Forall_app. split; [done|]. eapply Forall_impl; [exact Hnew|]. by intros t [_ ->].
    + intros id. rewrite Erouter. apply Hr.
  - unfold weight. rewrite Hq, length_app. lia.
  - by exists new.
Qed.

Definition total_weight (cl : Cluster) : Z := msum weight cl.

Lemma traffic_ok_insert cl n c' :
  traffic_ok cl → node_good n c' → in_play c' → traffic_ok (<[n := c']> cl).
Proof. intros Ht Hg Hp m x [[<- <-]|[_ Hx]]%lookup_insert_Some; [done|by apply Ht]. Qed.

Lemma call_insert_state net addr blocks cl :
  (call_insert net addr blocks cl).2 = cl ∨
  ∃ p cp, cl !! p = Some cp ∧ (call_insert net addr blocks cl).2 = <[p := (rpc_Insert blocks cp).2]> cl.
Proof.
  unfold call_insert. destruct net; [|by left|]; (destruct (listening addr) as [p|]; [|by left]);
    (destruct (cl !! p) as [cp|] eqn:Hp; [|by left]); right; exists p, cp;
    by destruct (rpc_Insert blocks cp).
Qed.

(** The call of a push, whether it arrives or not. *)
Lemma call_insert_weight net addr b cl :
  traffic_ok cl → block_ok payload b → kv_id b ∈ U →
  let cl1 := (call_insert net addr (push_request (kv_id b) (kv_data b)) cl).2 in
  traffic_ok cl1 ∧ total_weight cl1 ≤ total_weight cl ∧
  ∀ n c, cl !! n = Some c → ∃ c1 new, cl1 !! n = Some c1 ∧
    rp_queue (lc_pool c1) = rp_queue (lc_pool c) ++ new.
Proof.
  intros Ht Hb HU cl1. unfold cl1.
  assert (traffic_ok cl ∧ total_weight cl ≤ total_weight cl ∧ ∀ n c, cl !! n = Some c →
    ∃ c1 new, cl !! n = Some c1 ∧ rp_queue (lc_pool c1) = rp_queue (lc_pool c) ++ new) as Hsame.
  { split_and!; [done|done|]. intros n c Hn. exists c, []. by rewrite app_nil_r. }
  destruct (call_insert_state net addr (push_request (kv_id b) (kv_data b)) cl) as [->|(p & cp & Hp & ->)]; [done|].
  rewrite rpc_Insert_push. cbn [snd]. destruct (Ht p cp Hp) as [Hg Hplay].
  destruct (insert_step_weight p cp (pushed (kv_id b) (kv_data b)) Hg Hplay (pushed_ok b Hb) HU)
    as (Hg' & Hplay' & Hw & new & Hq).
  split_and!.
  - by apply traffic_ok_insert.
  - unfold total_weight. rewrite (msum_update weight cl p cp) by done. lia.
  - intros n c Hn. destruct (decide (p = n)) as [<-|Hne].
    + simplify_eq. rewrite lookup_insert_eq. eauto.
    + rewrite lookup_insert_ne by done. exists c, []. by rewrite app_nil_r.
Qed.

Lemma worker_tick_weight ok n c t q :
  node_good n c → in_play c → rp_queue (lc_pool c) = t :: q →
  node_good n (worker_tick ok c) ∧ in_play (worker_tick ok c) ∧ weight (worker_tick ok c) = weight c - 1.
Proof.
  intros [Hok Hn Ht] [Hh Htasks Hr] Hq.
  assert (rp_queue (lc_pool (worker_tick ok c)) = q) as Hq'.
  { unfold worker_tick, worker_step. cbn [lc_pool with_pool]. by rewrite Hq. }
  rewrite Hq in Ht, Htasks. apply Forall_cons in Ht as [_ Ht]. apply Forall_cons in Htasks as [_ Htasks].
  split_and!.
  - split; [apply node_ok_pool; [done|apply worker_pool_ok, Hok]|done|by rewrite Hq'].
  - split; [exact Hh|by rewrite Hq'|exact Hr].
  - unfold weight. rewrite Hq', Hq. change (copies (worker_tick ok c)) with (copies c). simpl. lia.
Qed.

(** A worker of some node handles a task. *)
Definition pushes (cl cl' : Cluster) : Prop :=
  ∃ net n c t q, cl !! n = Some c ∧ rp_queue (lc_pool c) = t :: q ∧ cl' = worker_push net n cl.

Lemma pushes_weight cl cl' :
  traffic_ok cl → pushes cl cl' → traffic_ok cl' ∧ total_weight cl' ≤ total_weight cl - 1.
Proof.
  intros Ht (net & n & c & t & q & Hn & Hq & ->). destruct (Ht n c Hn) as [Hg Hplay].
  pose proof (ng_tasks _ _ Hg) as Hb. pose proof (ip_tasks _ Hplay) as HU. rewrite Hq in Hb, HU.
  apply Forall_cons in Hb as [[_ Hb] _]. apply Forall_cons in HU as [HU _].
  unfold worker_push, Send. rewrite Hn, Hq.
  assert (∀ ok cl1 c1 new, traffic_ok cl1 → total_weight cl1 ≤ total_weight cl → cl1 !! n = Some c1 →
    rp_queue (lc_pool c1) = (t :: q) ++ new →
    traffic_ok (alter (worker_tick ok) n cl1) ∧
    total_weight (alter (worker_tick ok) n cl1) ≤ total_weight cl - 1) as Hpop.
  { intros ok cl1 c1 new Ht1 Hw1 Hn1 Hq1. destruct (Ht1 n c1 Hn1) as [Hg1 Hp1].
    destruct (worker_tick_weight ok n c1 t (q ++ new) Hg1 Hp1 Hq1) as (Hg2 & Hp2 & Hw2).
    replace (alter (worker_tick ok) n cl1) with (<[n := worker_tick ok c1]> cl1).
    2:{ rewrite <- (insert_id cl1 n c1 Hn1) at 2. by rewrite alter_insert_eq. }
    split; [by apply traffic_ok_insert|]. unfold total_weight in *.
    rewrite (msum_update weight cl1 n c1) by done. lia. }
  destruct (stub_for (lc_connections c) (rt_peer_id t)) as [addr|].
  - destruct (call_insert_weight net addr (rt_block t) cl Ht Hb HU) as (Ht1 & Hw1 & Hn1).
    destruct (Hn1 n c Hn) as (c1 & new & Hc1 & Hq1). rewrite Hq in Hq1.
    destruct (call_insert net addr _ cl) as [resp cl1]. by eapply Hpop.
  - apply (Hpop false cl c []); [done|done|done|]. by rewrite app_nil_r.
Qed.

(** C25 (push traffic dies out): although a push that a peer accepts makes the
    peer push in turn, the workers of the whole cluster handle at most as many
    tasks as are queued plus, for each node, the replication factor times the
    copies of known blocks that the node does not hold yet, whatever order the
    tasks run in and whichever calls or answers are lost, each one on its own;
    nothing is evicted meanwhile. *)
Theorem cluster_traffic_bounded k cl cl' :
  traffic_ok cl → nsteps pushes k cl cl' → Z.of_nat k ≤ total_weight cl.
Proof.
  intros Ht Hs. revert Ht. induction Hs as [cl|k x y z Hxy _ IH]; intros Ht.
  - apply msum_nonneg_in. intros n c Hn. by apply weight_nonneg, (Ht n c Hn).
  - destruct (pushes_weight x y Ht Hxy) as [Ht' Hw]. specialize (IH Ht'). lia.
Qed.
End traffic.
End cluster.

(** ** Three nodes *)

Definition wit_members : list StaticPeer :=
  [mkStaticPeer "a" "h:0"; mkStaticPeer "b" "h:1"; mkStaticPeer "c" "h:2"].

Definition wit_listening (addr : string) : option string :=
  sp_node_id <$> head (filter (λ p, sp_address p = addr) wit_members).

(** A fresh node of the cluster. *)
Definition wit_member_node (n : string) : LetheCache :=
  built_cache wit_blake3 merge_sorter true 0
    (mkCacheConfig n (filter (λ p, sp_node_id p ≠ n) wit_members) 8 2 132 "/tmp" 2 2 90 70) wit_tiered.

Definition wit_cluster0 : Cluster :=
  <["a" := wit_member_node "a"]> (<["b" := wit_member_node "b"]> (<["c" := wit_member_node "c"]> ∅)).

Definition wit_task : KvBlock := wit_on DRAM.

(** A client inserts a block at [a], whose worker then sends it to [b]. *)
Definition wit_a1 : LetheCache := (insert_step (0, wit_member_node "a") wit_task).2.
Definition wit_cluster1 : Cluster := <["a" := wit_a1]> wit_cluster0.
Definition wit_b1 : LetheCache := (insert_step (0, wit_member_node "b") (pushed (kv_id wit_task) (kv_data wit_task))).2.

Lemma wit_member_good n :
  n ∈ ["a"; "b"; "c"] → node_good wit_payload n (wit_member_node n) ∧ contents (lc_store (wit_member_node n)) = ∅.
Proof.
  destruct wit_tiered_spec as (_ & Hi & Hc). intros Hn. split; [|done]. split; [|done|by constructor].
  apply built_cache_ok; [done|by apply wit_empty_addressed|].
  repeat (apply elem_of_cons in Hn as [->|Hn]; [apply (bool_decide_unpack _); vm_compute; exact I|]).
  by apply not_elem_of_nil in Hn.
Qed.

(** Every node of the fresh cluster. *)
Lemma wit_cluster0_nodes n c :
  wit_cluster0 !! n = Some c → n ∈ ["a"; "b"; "c"] ∧ c = wit_member_node n.
Proof.
  unfold wit_cluster0. rewrite !lookup_insert_Some.
  intros [[<- <-]|[_ [[<- <-]|[_ [[<- <-]|[_ Hx]]]]]]; [| | |by rewrite lookup_empty in Hx];
    (split; [|done]); apply (bool_decide_unpack _); vm_compute; exact I.
Qed.

Lemma wit_cluster0_ok : cluster_ok wit_payload wit_cluster0.
Proof.
  split.
  - intros n c [Hn ->]%wit_cluster0_nodes. by apply wit_member_good.
  - intros n c id p [Hn ->]%wit_cluster0_nodes [d Hd].
    destruct (wit_member_good n Hn) as [_ Hc]. rewrite Hc, lookup_empty in Hd. done.
Qed.

Lemma wit_queue_a : rp_queue (lc_pool wit_a1) = [mkReplicateTask "b" wit_task].
Proof. vm_compute. reflexivity. Qed.

Lemma wit_lookups :
  wit_cluster0 !! "a" = Some (wit_member_node "a") ∧ wit_cluster1 !! "a" = Some wit_a1 ∧
  wit_cluster1 !! "b" = Some (wit_member_node "b").
Proof.
  unfold wit_cluster1, wit_cluster0. rewrite !lookup_insert_eq, lookup_insert_ne by done.
  rewrite lookup_insert_ne by done. by rewrite lookup_insert_eq.
Qed.

(** The state after the push. *)
Lemma wit_pushed :
  ∃ ok, worker_push wit_listening Answered "a" wit_cluster1 = <["a" := worker_tick ok wit_a1]> (<["b" := wit_b1]> wit_cluster1).
Proof.
  destruct wit_lookups as (_ & Ha & Hb).
  exact (worker_push_delivered wit_listening Answered "a" wit_a1 (mkReplicateTask "b" wit_task) [] "h:1" (wit_member_node "b")
    wit_cluster1 ltac:(done) Ha wit_queue_a ltac:(by vm_compute) eq_refl Hb ltac:(done)).
Qed.

Lemma wit_delivers : delivers wit_listening "a" wit_cluster1.
Proof.
  destruct wit_lookups as (_ & Ha & Hb).
  exists wit_a1, (mkReplicateTask "b" wit_task), [], "h:1", (wit_member_node "b").
  split_and!; [exact Ha|exact wit_queue_a|by vm_compute|by vm_compute|exact Hb| |].
  - apply Nat.leb_le. vm_compute. reflexivity.
  - assert ((TieredStore.Put (pushed (kv_id wit_task) (kv_data wit_task)) DRAM
      (lc_store (wit_member_node "b"))).1 = Some DRAM) as E by (vm_compute; reflexivity).
    exists DRAM. exact E.
Qed.

Lemma wit_steps :
  rtc (cluster_step wit_payload wit_listening) wit_cluster0 (worker_push wit_listening Answered "a" wit_cluster1).
Proof.
  destruct wit_lookups as (Ha & _ & _). eapply rtc_l; [|apply rtc_once, cs_push; [done|apply wit_delivers]].
  apply (cs_insert wit_payload wit_listening wit_cluster0 "a" (wit_member_node "a") wit_task Ha (wit_on_ok DRAM)).
  apply Nat.leb_le. vm_compute. reflexivity.
Qed.

Lemma wit_idle ok n c :
  (<["a" := worker_tick ok wit_a1]> (<["b" := wit_b1]> wit_cluster1)) !! n = Some c → rp_queue (lc_pool c) = [].
Proof.
  intros [[_ <-]|[Ha Hx]]%lookup_insert_Some.
  { unfold worker_tick, worker_step. cbn [lc_pool with_pool]. by rewrite wit_queue_a. }
  apply lookup_insert_Some in Hx as [[_ <-]|[_ Hx]]; [vm_compute; reflexivity|].
  unfold wit_cluster1 in Hx. rewrite lookup_insert_ne in Hx by done.
  by apply wit_cluster0_nodes in Hx as [_ ->].
Qed.

Lemma cluster_replicates_witness :
  ∃ cb, worker_push wit_listening Answered "a" wit_cluster1 !! "b" = Some cb ∧
    contents (lc_store cb) !! kv_id wit_task = Some (kv_data wit_task).
Proof.
  pose proof wit_steps as Hs. destruct wit_pushed as [ok Hpush]. rewrite Hpush in *.
  destruct (cluster_replicates wit_payload wit_listening wit_cluster0 _ wit_cluster0_ok Hs) with
    (n := "a") (c := worker_tick ok wit_a1) (id := kv_id wit_task) (d := kv_data wit_task) (p := "b")
    as (_ & cb & Hb & Hc).
  - apply wit_idle.
  - apply lookup_insert_eq.
  - destruct ok; by vm_compute.
  - apply (bool_decide_unpack _). destruct ok; vm_compute; exact I.
  - done.
  - exists cb. split; [exact Hb|exact Hc].
Defined.

(** One push, within the bound. *)
Definition wit_U : gset BlockId := {[ kv_id wit_task ]}.

Lemma wit_in_play n : n ∈ ["a"; "b"; "c"] → in_play wit_U 2 (wit_member_node n).
Proof.
  intros Hn. destruct (wit_member_good n Hn) as [_ Hc]. split.
  - intros t id Hs. rewrite (proj1 (contents_lookup_None id _)) in Hs; [by destruct Hs|].
    by rewrite Hc, lookup_empty.
  - by constructor.
  - intros id. pose proof (Route_owners_length id (lc_router (wit_member_node n))) as Hl.
    change (r_replication_factor (lc_router (wit_member_node n))) with 2%nat in Hl.
    unfold owners in Hl. cbn [length] in Hl. lia.
Qed.

Lemma wit_traffic : traffic_ok wit_payload wit_U 2 wit_cluster1.
Proof.
  assert ("a" ∈ ["a"; "b"; "c"]) as Ha by (by left).
  destruct (insert_step_weight wit_payload wit_U 2 "a" (wit_member_node "a") wit_task
    (proj1 (wit_member_good "a" Ha)) (wit_in_play "a" Ha) (wit_on_ok DRAM)) as (Hg & Hp & _).
  { by apply elem_of_singleton. }
  apply traffic_ok_insert; [|done|done].
  intros n c [Hn ->]%wit_cluster0_nodes. split; [by apply wit_member_good|by apply wit_in_play].
Qed.

Lemma cluster_traffic_bounded_witness :
  nsteps (pushes wit_listening) 1 wit_cluster1 (worker_push wit_listening Answered "a" wit_cluster1) ∧
  1 ≤ total_weight wit_U 2 wit_cluster1.
Proof.
  assert (nsteps (pushes wit_listening) 1 wit_cluster1 (worker_push wit_listening Answered "a" wit_cluster1)) as Hs.
  { apply nsteps_once. destruct wit_lookups as (_ & Ha & _).
    exists Answered, "a", wit_a1, (mkReplicateTask "b" wit_task), []. split_and!; [exact Ha|exact wit_queue_a|done]. }
  split; [exact Hs|].
  exact (cluster_traffic_bounded wit_payload wit_listening wit_U 2 1 _ _ wit_traffic Hs).
Defined.
