(* ===== verification/Failover.v ===== *)
(** * Losing a node

    A cluster in which a node has failed: every survivor takes the lost peer
    out of its ring and starts a round of re-replication, as a membership
    change does, and then requests, pushes and ticks of the sweep threads
    interleave in any order.  While blocks are still to be pushed, some node
    holds each of them and has the push queued or the block ahead of the cursor
    of its round. *)
From S2P Require Import Prelude Types TierStore BlockStore SsdBlockStore TieredStore Routing.
From S2P Require Import Eviction Membership Replication Cache Rpc GrpcTransport Cluster.

Section failover.
Context (payload : BlockId → bytes) (listening : string → option string).

(** The route on which the survivors agree. *)
Context (route : BlockId → RouteResult).

Inductive failover_step (cl : Cluster) : Cluster → Prop :=
| fo_insert n c b :
    cl !! n = Some c → block_ok payload b → roomy c (kv_id b) → primary (Route (kv_id b) (lc_router c)) = n →
    failover_step cl (<[n := (insert_step (0, c) b).2]> cl)
| fo_lookup n c ids : cl !! n = Some c → failover_step cl (<[n := (Lookup ids c).2]> cl)
| fo_fetch n c p : cl !! n = Some c → failover_step cl (<[n := (rpc_Fetch p c).2]> cl)
| fo_push net n : net ≠ Lost → delivers listening n cl → failover_step cl (worker_push listening net n cl)
| fo_sweep n c now : cl !! n = Some c → failover_step cl (<[n := sweep_tick now c]> cl).

(** ** The invariant *)

(** What is left of the round of a node. *)
Definition unswept (c : LetheCache) : list BlockId :=
  drop (rp_rerep_cursor (lc_pool c)) (rp_rerep_round (lc_pool c)).

(** The node holds the block and is going to send it to [p]. *)
Definition sends (n : string) (c : LetheCache) (p : string) (id : BlockId) : Prop :=
  has c id ∧ (pending c p id ∨ id ∈ unswept c ∧ p ≠ n).

Definition promised (cl : Cluster) (p : string) (id : BlockId) : Prop :=
  holds cl p id ∨ ∃ n c, cl !! n = Some c ∧ sends n c p id.

Definition id_ok (id : BlockId) : Prop := BlockId_wf id ∧ payload id ≠ [] ∧ size_of (payload id) < 2 ^ 63.

Record failover_ok (S : BlockId → Prop) (cl : Cluster) : Prop := {
  fk_good n c : cl !! n = Some c → node_good payload n c;
  fk_route n c id : cl !! n = Some c → Route id (lc_router c) = route id;
  fk_ids n c id : cl !! n = Some c → has c id → id_ok id;
  fk_queue n c t : cl !! n = Some c → t ∈ rp_queue (lc_pool c) →
    has c (kv_id (rt_block t)) ∧ n ∈ owners (route (kv_id (rt_block t))) ∧
    rt_peer_id t ∈ owners (route (kv_id (rt_block t)));
  fk_round n c id : cl !! n = Some c → id ∈ unswept c → n ∈ owners (route id);
  fk_covered n c id p : cl !! n = Some c → has c id → n ∈ owners (route id) → p ∈ owners (route id) → p ≠ "" →
    promised cl p id;
  fk_kept id : S id → ∃ n c, cl !! n = Some c ∧ has c id ∧ n ∈ owners (route id)
}.

(** Replacing a node by one that keeps its blocks, accounts for its new ones,
    and gives a push up only when the peer has the block. *)
Lemma failover_update S cl n c c' :
  failover_ok S cl → cl !! n = Some c → node_good payload n c' → lc_router c' = lc_router c →
  (∀ id, has c id → has c' id) →
  (∀ id, has c' id → has c id ∨ id_ok id ∧
     ∀ p, n ∈ owners (route id) → p ∈ owners (route id) → p ≠ "" → p = n ∨ pending c' p id ∨ promised cl p id) →
  (∀ t, t ∈ rp_queue (lc_pool c') → t ∈ rp_queue (lc_pool c) ∨
     has c' (kv_id (rt_block t)) ∧ n ∈ owners (route (kv_id (rt_block t))) ∧
     rt_peer_id t ∈ owners (route (kv_id (rt_block t)))) →
  (∀ id, id ∈ unswept c' → id ∈ unswept c) →
  (∀ p id, p ∈ owners (route id) → p ≠ "" → sends n c p id → sends n c' p id ∨ holds cl p id) →
  failover_ok S (<[n := c']> cl).
Proof.
  intros [Hgood Hroute Hids Hqueue Hround Hcov Hkept] Hn Hg Hr Hkeep Hnew Hq Hun Hs.
  assert (∀ p id, holds cl p id → holds (<[n := c']> cl) p id) as Hholds.
  { intros p id (x & Hx & Hid). destruct (decide (n = p)) as [<-|Hne].
    - exists c'. rewrite lookup_insert_eq. split; [done|]. apply Hkeep. by simplify_eq.
    - exists x. by rewrite lookup_insert_ne. }
  assert (∀ p id, p ∈ owners (route id) → p ≠ "" → promised cl p id → promised (<[n := c']> cl) p id) as Hprom.
  { intros p id Hp Hpe [Hh|(m & x & Hx & Hsend)]; [left; by apply Hholds|].
    destruct (decide (n = m)) as [<-|Hne].
    - assert (x = c) as -> by congruence. destruct (Hs p id Hp Hpe Hsend); [right|left; by apply Hholds].
      exists n, c'. by rewrite lookup_insert_eq.
    - right. exists m, x. by rewrite lookup_insert_ne. }
  split.
  - intros m x [[<- <-]|[_ Hx]]%lookup_insert_Some; [done|by apply Hgood].
  - intros m x id [[<- <-]|[_ Hx]]%lookup_insert_Some; [rewrite Hr; by apply (Hroute n)|by apply (Hroute m)].
  - intros m x id [[<- <-]|[_ Hx]]%lookup_insert_Some Hid; [|by apply (Hids m x)].
    destruct (Hnew id Hid) as [Hold|[? _]]; [by apply (Hids n c)|done].
  - intros m x t [[<- <-]|[_ Hx]]%lookup_insert_Some Ht; [|by apply (Hqueue m x)].
    destruct (Hq t Ht) as [Hold|]; [|done]. destruct (Hqueue n c t Hn Hold) as (? & ? & ?). auto.
  - intros m x id [[<- <-]|[_ Hx]]%lookup_insert_Some Hid; [by apply (Hround n c id Hn), Hun|by apply (Hround m x)].
  - intros m x id p [[<- <-]|[Hne Hx]]%lookup_insert_Some Hid Hm Hp Hpe.
    + destruct (Hnew id Hid) as [Hold|[_ Hall]]; [apply Hprom; [done|done|]; by apply (Hcov n c)|].
      destruct (Hall p Hm Hp Hpe) as [->|[Hpend|Hpr]]; [| |by apply Hprom].
      * left. exists c'. by rewrite lookup_insert_eq.
      * right. exists n, c'. rewrite lookup_insert_eq. split; [done|]. split; [done|by left].
    + apply Hprom; [done|done|]. by apply (Hcov m x).
  - intros id HS. destruct (Hkept id HS) as (m & x & Hx & Hid & Hm). destruct (decide (n = m)) as [<-|Hne].
    + exists n, c'. rewrite lookup_insert_eq. split_and!; [done| |done]. apply Hkeep. by simplify_eq.
    + exists m, x. by rewrite lookup_insert_ne.
Qed.

(** ** Requests and pushes *)

Lemma id_ok_block b : block_ok payload b → id_ok (kv_id b).
Proof. intros ([Hsize Hid _] & Hne & Hd). unfold id_ok. rewrite <- Hd. done. Qed.

(** A block that reaches an owner whose primary is accounted for. *)
Lemma failover_inserted S cl n c b :
  failover_ok S cl → cl !! n = Some c → block_ok payload b → roomy c (kv_id b) →
  n ∈ owners (route (kv_id b)) →
  (primary (route (kv_id b)) ≠ "" → primary (route (kv_id b)) = n ∨ promised cl (primary (route (kv_id b))) (kv_id b)) →
  failover_ok S (<[n := (insert_step (0, c) b).2]> cl).
Proof.
  intros Hok Hn Hb Hroom Hown Hprim.
  destruct (insert_one payload n b c (fk_good _ _ Hok n c Hn) Hb Hroom) as [Hg Hr Hk Hnew Hp _ Hq [Hrd Hcur]].
  pose proof (fk_route _ _ Hok n c (kv_id b) Hn) as Hroute.
  apply (failover_update S cl n c); try done.
  - intros id Hid. destruct (Hnew id Hid) as [|[-> Hall]]; [by left|right]. split; [by apply id_ok_block|].
    intros p _ Hpo Hpe. unfold owners in Hpo. apply elem_of_cons in Hpo as [->|Hpo].
    + destruct (Hprim Hpe) as [->|Hpr]; [by left|by right; right].
    + destruct (decide (p = n)) as [|Hne]; [by left|right; left]. apply Hall; [|done]. by rewrite Hroute.
  - intros t Ht. destruct (Hq t Ht) as [|(-> & Hh & Hrep)]; [by left|right]. split_and!; [done|done|].
    rewrite Hroute in Hrep. by apply elem_of_cons; right.
  - intros id. unfold unswept. by rewrite Hrd, Hcur.
  - intros p id _ _ [Hh [Hpend|Hun]]; left; (split; [by apply Hk|]); [left; by apply Hp|right].
    unfold unswept. by rewrite Hrd, Hcur.
Qed.

Lemma failover_read S cl n c st' :
  failover_ok S cl → cl !! n = Some c → inv st' → contents st' = contents (lc_store c) →
  failover_ok S (<[n := with_store c st']> cl).
Proof.
  intros Hok Hn Hi Hc. destruct (fk_good _ _ Hok n c Hn) as [Hnode Hname Htasks].
  apply (failover_update S cl n c); try done; unfold sends, has, pending, unswept;
    cbn [lc_store with_store lc_pool lc_router]; rewrite ?Hc; auto.
  split; [by apply node_ok_store_same|done|done].
Qed.

Lemma failover_popped S cl n c t q ok :
  failover_ok S cl → cl !! n = Some c → rp_queue (lc_pool c) = t :: q →
  holds cl (rt_peer_id t) (kv_id (rt_block t)) →
  failover_ok S (<[n := worker_tick ok c]> cl).
Proof.
  intros Hok Hn Hq Hh. destruct (fk_good _ _ Hok n c Hn) as [Hnode Hname Htasks].
  assert (rp_queue (lc_pool (worker_tick ok c)) = q ∧ unswept (worker_tick ok c) = unswept c) as [Hq' Hun].
  { unfold unswept, worker_tick, worker_step. cbn [lc_pool with_pool]. by rewrite Hq. }
  apply (failover_update S cl n c); try done.
  - split; [apply node_ok_pool; [done|apply worker_pool_ok, Hnode]|done|].
    rewrite Hq'. rewrite Hq in Htasks. by apply Forall_cons in Htasks as [_ ?].
  - intros id Hid. by left.
  - rewrite Hq', Hq. intros t' Ht'. left. by right.
  - by rewrite Hun.
  - intros p id _ _ [Hid [(t' & Hin & Hp & Hi)|Hu]]; [|left; split; [done|right; by rewrite Hun]].
    rewrite Hq in Hin. apply elem_of_cons in Hin as [->|Hin]; [right; by subst|].
    left. split; [done|]. left. exists t'. by rewrite Hq'.
Qed.

Lemma failover_push S cl net n :
  net ≠ Lost → failover_ok S cl → delivers listening n cl → failover_ok S (worker_push listening net n cl).
Proof.
  intros Hnet Hok (c & t & q & addr & cp & Hn & Hq & Hconn & Hl & Hp & Hroom & Hland).
  pose proof (ng_tasks _ _ _ (fk_good _ _ Hok n c Hn)) as Ht. rewrite Hq in Ht.
  apply Forall_cons in Ht as [[Hne Hb] _].
  destruct (fk_queue _ _ Hok n c t Hn) as (Hhas & Hno & Hpo); [rewrite Hq; by left|].
  destruct (worker_push_delivered listening net n c t q addr cp cl) as [ok ->]; try done.
  pose proof (insert_one payload _ _ _ (fk_good _ _ Hok _ _ Hp) (pushed_ok payload _ Hb) Hroom) as Hins.
  apply (failover_popped _ _ n c t q).
  - apply failover_inserted; try done; [by apply pushed_ok|]. cbn [pushed kv_id].
    intros Hpe. right. apply (fk_covered _ _ Hok n c); [done|done|done|by left|done].
  - by rewrite lookup_insert_ne.
  - done.
  - eexists. rewrite lookup_insert_eq. split; [done|]. by apply (is_landed _ _ _ _ _ Hins).
Qed.

(** ** The sweep *)

(** A tick takes blocks off the round and queues all their pushes. *)
Lemma sweep_tick_spec c n now :
  node_good payload n c → (∀ id, id ∈ unswept c → has c id → id_ok id) →
  let c' := sweep_tick now c in
  node_good payload n c' ∧ lc_router c' = lc_router c ∧ contents (lc_store c') = contents (lc_store c) ∧
  (∀ id, id ∈ unswept c' → id ∈ unswept c) ∧
  (∀ t, t ∈ rp_queue (lc_pool c') → t ∈ rp_queue (lc_pool c) ∨
     kv_id (rt_block t) ∈ unswept c ∧ has c (kv_id (rt_block t)) ∧
     rt_peer_id t ∈ push_targets n (lc_router c) (kv_id (rt_block t))) ∧
  (∀ t, t ∈ rp_queue (lc_pool c) → t ∈ rp_queue (lc_pool c')) ∧
  (∀ p id, id ∈ unswept c → has c id → p ∈ push_targets n (lc_router c) id → id ∈ unswept c' ∨ pending c' p id).
Proof.
  intros [Hok Hname Htasks] Hids c'.
  destruct (DrainReReplication_spec (cc_node_id (lc_cfg c)) (lc_router c) (lc_has_metrics c) now (lc_pool c)
    (lc_store c) (no_store _ c Hok) (proj2 (no_pool _ c Hok))) as (k & eff & s' & st' & E & Hro & Hr & Hdr).
  destruct (DrainReReplication_appends (cc_node_id (lc_cfg c)) (lc_router c) (lc_has_metrics c) now (lc_pool c)
    (lc_store c)) as (new & Hq & Hep).
  rewrite E in Hq. cbn [fst snd] in Hq. rewrite Hname in *.
  assert (c' = with_store (with_pool c s') st') as Hc' by (unfold c', sweep_tick; by rewrite Hname, E).
  destruct Hdr as [_ Hcur _ Hi Hcont Hkeys Hb _]. cbn [rp_queue rp_rerep_cursor with_active] in *.
  rewrite Hq, fmap_app in Hkeys. apply app_inv_head in Hkeys.
  assert (unswept c = take k (unswept c) ++ unswept c') as Hun.
  { rewrite Hc'. unfold unswept at 3. cbn [lc_pool with_pool with_store]. rewrite Hr, Hcur. unfold unswept.
    by rewrite <- drop_drop, take_drop. }
  assert (∀ t, t ∈ new → kv_id (rt_block t) ∈ unswept c ∧ rt_peer_id t ∈ push_targets n (lc_router c) (kv_id (rt_block t)) ∧
    contents (lc_store c) !! kv_id (rt_block t) = Some (kv_data (rt_block t))) as Hnew.
  { intros t Ht. assert (task_key t ∈ task_key <$> new) as Hk by (by apply list_elem_of_fmap_2).
    rewrite Hkeys in Hk. apply list_elem_of_In, in_concat in Hk as (l & Hl & Hk).
    apply list_elem_of_In, list_elem_of_fmap in Hl as (id & -> & Hid). apply list_elem_of_In in Hk.
    unfold Replication.pushes in Hk. destruct (contents (lc_store c) !! id) as [d|] eqn:Hd; [|by apply not_elem_of_nil in Hk].
    apply list_elem_of_fmap in Hk as (p & [= Hp Hi' Hd'] & Hpt). rewrite Hi', Hd', Hp.
    split_and!; [|done|done]. rewrite Hun. apply elem_of_app. by left. }
  assert (rp_queue (lc_pool c') = rp_queue (lc_pool c) ++ new ∧ contents (lc_store c') = contents (lc_store c) ∧
    lc_router c' = lc_router c ∧ cc_node_id (lc_cfg c') = n ∧ node_ok payload c') as (Hq' & Hst' & Hrt & Hn' & Hok').
  { rewrite Hc'. cbn. split_and!; [done|done|done|done|].
    apply node_ok_store_same; [apply node_ok_pool; [done|]|done|done]. split; [apply Hb, Hok|done]. }
  split_and!; [|done|done| | | |].
  - split; [done|done|]. rewrite Hq'. apply Forall_app. split; [done|]. apply Forall_forall. intros t Ht.
    destruct (Hnew t Ht) as (Hin & Hpt & Hd). unfold push_targets in Hpt.
    pose proof (proj1 (Forall_forall _ _) Hep t Ht) as He.
    assert (rt_peer_id t ≠ n) as Hne.
    { apply elem_of_app in Hpt as [Hpt|Hpt]; [|by apply list_elem_of_filter in Hpt as [? _]].
      destruct (String.eqb_spec (primary (Route (kv_id (rt_block t)) (lc_router c))) n) as [|Hne];
        [rewrite andb_false_r in Hpt; by apply not_elem_of_nil in Hpt|].
      destruct (negb _); [|by apply not_elem_of_nil in Hpt]. apply list_elem_of_singleton in Hpt. congruence. }
    destruct (Hids _ Hin ltac:(by eexists)) as (Hw & Hpe & Hsz).
    pose proof (no_addressed _ c Hok _ _ Hd) as Hpay. split; [done|]. unfold block_ok. rewrite Hpay.
    split_and!; [split; [by rewrite Hpay|done|by rewrite He]|done|done].
  - intros id Hid. rewrite Hun. apply elem_of_app. by right.
  - intros t. rewrite Hq'. intros [|Ht]%elem_of_app; [by left|right].
    destruct (Hnew t Ht) as (? & ? & ?). split_and!; [done|by eexists|done].
  - intros t Ht. rewrite Hq'. apply elem_of_app. by left.
  - intros p id Hid [d Hd] Hp. rewrite Hun in Hid. apply elem_of_app in Hid as [Hid|]; [right|by left].
    assert ((p, id, d) ∈ task_key <$> new) as Hk.
    { rewrite Hkeys. apply list_elem_of_In, in_concat. exists (Replication.pushes n (lc_router c) (contents (lc_store c)) id).
      split; apply list_elem_of_In; [by apply list_elem_of_fmap_2|]. unfold Replication.pushes. rewrite Hd.
      apply list_elem_of_fmap. by exists p. }
    apply list_elem_of_fmap in Hk as (t & [= Hp' Hi' _] & Ht). exists t. rewrite Hq'.
    split_and!; [apply elem_of_app; by right|done|done].
Qed.

Lemma push_targets_sound n r id p : p ∈ push_targets n r id → p ∈ owners (Route id r) ∧ p ≠ n.
Proof.
  unfold push_targets, owners. rewrite elem_of_app, elem_of_cons, list_elem_of_filter.
  destruct (String.eqb_spec (primary (Route id r)) n); [rewrite andb_false_r|rewrite andb_true_r; destruct (negb _)];
    rewrite ?list_elem_of_singleton, ?elem_of_nil; intuition congruence.
Qed.

Lemma failover_sweep S cl n c now :
  failover_ok S cl → cl !! n = Some c → failover_ok S (<[n := sweep_tick now c]> cl).
Proof.
  intros Hok Hn. destruct (sweep_tick_spec c n now (fk_good _ _ Hok n c Hn)) as (Hg & Hr & Hc & Hun & Hq & Hq' & Hs).
  { intros id _ Hid. by apply (fk_ids _ _ Hok n c). }
  pose proof (λ id, fk_route _ _ Hok n c id Hn) as Hroute.
  apply (failover_update S cl n c); try done; unfold has in *; rewrite ?Hc; auto.
  - intros t Ht. destruct (Hq t Ht) as [|(Hin & Hid & Hp)]; [by left|right]. apply push_targets_sound in Hp as [Hp _].
    rewrite Hroute in Hp. split_and!; [done|by apply (fk_round _ _ Hok n c)|done].
  - intros p id Hp Hpe [Hid [(t & Ht & Htp)|[Hin Hpn]]]; left; unfold sends, has; rewrite Hc; (split; [done|]).
    + left. exists t. auto.
    + destruct (Hs p id Hin Hid) as [|]; [|by right|by left].
      apply elem_of_push_targets; [done|]. by rewrite Hroute.
Qed.

Lemma failover_step_ok S cl cl' : failover_ok S cl → failover_step cl cl' → failover_ok S cl'.
Proof.
  intros Hok Hs. destruct Hs as [n c b Hn Hb Hroom Hprim|n c ids Hn|n c p Hn|net n Hnet Hd|n c now Hn].
  - pose proof (fk_route _ _ Hok n c (kv_id b) Hn) as Hroute. rewrite Hroute in Hprim.
    apply failover_inserted; try done; [by apply elem_of_cons; left|by left].
  - destruct (fk_good _ _ Hok n c Hn) as [Hnode _ _]. unfold Lookup.
    pose proof (lookup_loop (lc_router c) (cc_node_id (lc_cfg c)) ids (mkLookupResult [] 0 0) (lc_store c)
      (no_store _ c Hnode)) as Hl.
    destruct (fold_left _ ids _) as [res st']. destruct Hl as (? & ? & _). by apply failover_read.
  - destruct (fk_good _ _ Hok n c Hn) as [Hnode _ _]. unfold rpc_Fetch, FetchLocal.
    destruct (Get_effect (BlockIdFromProto p) (lc_store c) (no_store _ c Hnode)) as (? & ? & _).
    destruct (TieredStore.Get (BlockIdFromProto p) (lc_store c)) as [[g|] st']; by apply failover_read.
  - by apply failover_push.
  - by apply failover_sweep.
Qed.

(** ** At rest *)

(** Nothing is queued and no round is active. *)
Definition at_rest (cl : Cluster) : Prop :=
  ∀ n c, cl !! n = Some c → rp_queue (lc_pool c) = [] ∧ rp_rerep_active (lc_pool c) = false.

Lemma failover_rest S cl cl' :
  failover_ok S cl → rtc failover_step cl cl' → at_rest cl' →
  ∀ id p, S id → p ∈ owners (route id) → p ≠ "" →
  ∃ c, cl' !! p = Some c ∧ contents (lc_store c) !! id = Some (payload id).
Proof.
  intros Hok Hsteps Hrest id p HS Hp Hpe. assert (failover_ok S cl') as Hok'.
  { clear Hrest. induction Hsteps as [|x y z Hxy _ IH]; [done|]. apply IH. by eapply failover_step_ok. }
  destruct (fk_kept _ _ Hok' id HS) as (n & c & Hn & Hid & Hno).
  destruct (fk_covered _ _ Hok' n c id p Hn Hid Hno Hp Hpe) as [(cp & Hcp & d & Hd)|(m & x & Hx & _ & Hsend)].
  - exists cp. split; [done|]. rewrite Hd. f_equal. by apply (no_addressed _ _ (ng_ok _ _ _ (fk_good _ _ Hok' p cp Hcp))).
  - destruct (Hrest m x Hx) as [Hq Ha]. destruct Hsend as [(t & Ht & _)|[Hun _]].
    + rewrite Hq in Ht. by apply not_elem_of_nil in Ht.
    + destruct (no_pool _ _ (ng_ok _ _ _ (fk_good _ _ Hok' m x Hx))) as [_ [Hle Hact]].
      rewrite Ha in Hact. symmetry in Hact. apply negb_false_iff, Nat.leb_le in Hact.
      unfold unswept in Hun. rewrite drop_ge in Hun by done. by apply not_elem_of_nil in Hun.
Qed.

(** ** The loss of a node *)

Context (blake3_full : bytes → Hash256).

(** The last section of a turn of the heartbeat loop that declares peers dead. *)
Definition tick_sent (o : TickOrder) (reply : string → string → bool) (now1 : Z) (m : Membership) : Membership :=
  (SendHeartbeatsToAllPeers (to_targets o) (to_resurrect o) reply now1 m).2.
Definition tick_lost (o : TickOrder) (reply : string → string → bool) (now1 now2 : Z) (m : Membership) : list string :=
  (EvaluateSuspicions (to_evaluate o) now2 (tick_sent o reply now1 m)).1.
Definition tick_known (o : TickOrder) (reply : string → string → bool) (now1 now2 : Z) (m : Membership) : Membership :=
  (EvaluateSuspicions (to_evaluate o) now2 (tick_sent o reply now1 m)).2.

(** The node with a new ring and a new round, before the first tick of its
    sweep. *)
Definition rerouted (ch : Choices) (m : Membership) (r : Router) (c : LetheCache) : LetheCache :=
  with_pool (with_router (with_membership c m) r)
    (with_round (lc_pool c) (candidates (cc_node_id (lc_cfg c)) r (ch_orders ch) (lc_store c)) (ch_now ch)).

(** The effects of answers alone: at most a new ring. *)
Lemma sent_effects ch it it' reply now m c :
  mb_has_router m = true →
  let '(eff, m') := SendHeartbeatsToAllPeers it it' reply now m in
  ∃ r, apply_effects blake3_full ch eff c = with_router c r ∧
    ∀ sort ids, SetPeers blake3_full sort ids r = SetPeers blake3_full sort ids (lc_router c).
Proof.
  intros Hr. unfold SendHeartbeatsToAllPeers.
  assert (∃ r, c = with_router c r ∧
    ∀ sort ids, SetPeers blake3_full sort ids r = SetPeers blake3_full sort ids (lc_router c)) as Hsame.
  { exists (lc_router c). by destruct c. }
  destruct (filter _ (heartbeat_targets it m)).*1; [done|]. destruct (fold_left _ _ _) as [ps [|q res]]; [done|].
  unfold OnMembershipChange, apply_effects. cbn -[alive_ids]. rewrite Hr, andb_false_r, app_nil_r.
  eexists. destruct (mb_has_metrics m); (split; [done|]); done.
Qed.

(** A turn that declares peers dead is the new ring, a new round, and a first
    tick of the sweep. *)
Lemma heartbeat_tick_loses ch o reply now1 now2 c :
  node_ok payload c → mb_has_replicator (lc_membership c) = true →
  let m2 := tick_known o reply now1 now2 (lc_membership c) in
  let lost := tick_lost o reply now1 now2 (lc_membership c) in
  lost ≠ [] →
  heartbeat_tick blake3_full ch o reply now1 now2 c =
  sweep_tick (ch_now' ch) (rerouted ch (OnMembershipChange (to_change o) lost m2).2
    (SetPeers blake3_full (ch_sort ch) (mb_local_node_id m2 :: alive_ids (to_change o) m2) (lc_router c)) c).
Proof.
  intros Hok Hrep m2 lost Hlost. unfold heartbeat_tick, HeartbeatTick.
  destruct (SendHeartbeatsToAllPeers _ _ reply now1 (lc_membership c)) as [eff1 m1] eqn:E1.
  destruct (Send_spec _ _ _ _ _ _ _ _ E1 (no_self _ c Hok) (no_wired _ c Hok) (no_ring _ c Hok)) as (Hn1 & _).
  pose proof (EvaluateSuspicions_node (to_evaluate o) now2 m1) as Hn2.
  unfold m2, lost, tick_known, tick_lost, tick_sent in *. rewrite E1 in *. cbn [snd] in *. clear m2 lost.
  destruct (EvaluateSuspicions (to_evaluate o) now2 m1) as [lost m2] eqn:E2. cbn [fst snd] in *.
  pose proof (same_node_trans _ _ _ Hn1 Hn2) as Hn12. destruct lost as [|l lost]; [done|].
  pose proof (sent_effects ch (to_targets o) (to_resurrect o) reply now1 (lc_membership c)
    (with_membership c (OnMembershipChange (to_change o) (l :: lost) m2).2) (no_wired _ c Hok)) as Hs.
  rewrite E1 in Hs. destruct Hs as (r & Hs & Hsp).
  destruct (OnMembershipChange (to_change o) (l :: lost) m2) as [eff2 m3] eqn:E3. cbn [snd] in *.
  unfold apply_effects in *. rewrite fold_left_app, Hs.
  unfold OnMembershipChange in E3. injection E3 as <- <-. cbn -[alive_ids sweep_tick fold_left].
  rewrite (sn_router _ _ Hn12), (no_wired _ c Hok), (sn_replicator _ _ Hn12), Hrep.
  destruct (mb_has_metrics m2); cbn -[alive_ids DrainReReplication candidates SetPeers];
    unfold sweep_tick, rerouted; cbn -[alive_ids DrainReReplication candidates SetPeers];
    rewrite (Hsp (ch_sort ch)); cbn [lc_router with_membership];
    by destruct (DrainReReplication _ _ _ _ _ _) as [[eff s'] st'].
Qed.

(** What a survivor is after it noticed the loss. *)
Record noticed (n : string) (r' : Router) (c c' : LetheCache) : Prop := {
  nt_good : node_good payload n c';
  nt_contents : contents (lc_store c') = contents (lc_store c);
  nt_router : lc_router c' = r';
  nt_queue t : t ∈ rp_queue (lc_pool c') → t ∈ rp_queue (lc_pool c) ∨
    has c (kv_id (rt_block t)) ∧ n ∈ owners (Route (kv_id (rt_block t)) r') ∧
    rt_peer_id t ∈ owners (Route (kv_id (rt_block t)) r');
  nt_round id : id ∈ unswept c' → n ∈ owners (Route id r');
  nt_sends p id : has c id → n ∈ owners (Route id r') → p ∈ owners (Route id r') →
    p ≠ "" → p ≠ n → sends n c' p id
}.

Lemma rerouted_ok ch m r' n c :
  node_good payload n c → (∀ id, has c id → id_ok id) →
  same_node (lc_membership c) m → 0 ≤ mb_epoch m < 2 ^ 64 → ring_ok m (r_peers r') →
  noticed n r' c (sweep_tick (ch_now' ch) (rerouted ch m r' c)).
Proof.
  intros [Hok Hname Htasks] Hids Hsn Hep Hring. set (c1 := rerouted ch m r' c).
  assert (node_good payload n c1) as Hg1.
  { split; [|done|done]. destruct Hok as [H1 H2 H3 H4 H5 H6 [H7 H8]]. unfold c1, rerouted.
    split; cbn -[candidates];
      [done|done|exact (same_node_self_absent _ _ Hsn H3)|by rewrite (sn_router _ _ Hsn)|done|done|].
    split; [done|]. split; cbn -[candidates]; [lia|]. by destruct (candidates _ _ _ _). }
  destruct (sweep_tick_spec c1 n (ch_now' ch) Hg1) as (Hg & Hr & Hc & Hun & Hq & Hq' & Hs).
  { intros id _ Hid. by apply Hids. }
  assert (∀ id, id ∈ unswept c1 ↔ has c id ∧ n ∈ owners (Route id r')) as Hun1.
  { intros id. unfold unswept. cbn [c1 rerouted lc_pool with_pool rp_rerep_cursor rp_rerep_round with_round].
    rewrite Hname, drop_0. apply (elem_of_candidates n r' (ch_orders ch) (lc_store c) id), (no_store _ c Hok). }
  split; [done|done|done| | |].
  - intros t Ht. destruct (Hq t Ht) as [|(Hin & Hh & Hp)]; [by left|right]. apply Hun1 in Hin as [? ?].
    split_and!; [done|done|]. by apply push_targets_sound in Hp as [? _].
  - intros id Hid%Hun. by apply Hun1.
  - intros p id Hid Hno Hp Hpe Hpn. split; [unfold has; by rewrite Hc|].
    destruct (Hs p id) as [|]; [by apply Hun1|done|by apply elem_of_push_targets|by right|by left].
Qed.

(** A turn of the heartbeat loop of each survivor. *)
Record Turn : Type := mkTurn {
  tu_ch : Choices;
  tu_order : TickOrder;
  tu_reply : string → string → bool;
  tu_now1 : Z;
  tu_now2 : Z
}.

Definition take_turn (t : Turn) (c : LetheCache) : LetheCache :=
  heartbeat_tick blake3_full (tu_ch t) (tu_order t) (tu_reply t) (tu_now1 t) (tu_now2 t) c.

(** What the survivor then knows, and its ring. *)
Definition turn_lost (t : Turn) (c : LetheCache) : list string :=
  tick_lost (tu_order t) (tu_reply t) (tu_now1 t) (tu_now2 t) (lc_membership c).
Definition turn_known (t : Turn) (c : LetheCache) : Membership :=
  tick_known (tu_order t) (tu_reply t) (tu_now1 t) (tu_now2 t) (lc_membership c).
Definition turn_ring (t : Turn) (c : LetheCache) : Router :=
  SetPeers blake3_full (ch_sort (tu_ch t))
    (mb_local_node_id (turn_known t c) :: alive_ids (to_change (tu_order t)) (turn_known t c)) (lc_router c).

Lemma turn_ok t n c :
  node_good payload n c → (∀ id, has c id → id_ok id) → mb_has_replicator (lc_membership c) = true →
  turn_lost t c ≠ [] → noticed n (turn_ring t c) c (take_turn t c).
Proof.
  intros Hg Hids Hrep Hlost. pose proof (ng_ok _ _ _ Hg) as Hok. unfold take_turn.
  rewrite heartbeat_tick_loses by done. apply rerouted_ok; [done|done| |apply change_epoch|].
  all: unfold turn_lost, turn_ring, turn_known, tick_known, tick_lost, tick_sent in *.
  all: destruct (SendHeartbeatsToAllPeers _ _ _ _ _) as [eff1 m1] eqn:E1; cbn [snd] in *.
  all: destruct (Send_spec _ _ _ _ _ _ _ _ E1 (no_self _ c Hok) (no_wired _ c Hok) (no_ring _ c Hok)) as (Hn1 & _).
  all: pose proof (EvaluateSuspicions_node (to_evaluate (tu_order t)) (tu_now2 t) m1) as Hn2.
  all: pose proof (same_node_trans _ _ _ Hn1 Hn2) as Hn12.
  - eapply same_node_trans; [exact Hn12|apply OnMembershipChange_node].
  - destruct (EvaluateSuspicions (to_evaluate (tu_order t)) (tu_now2 t) m1) as [lost m2]. cbn [fst snd] in *.
    pose proof (OnMembershipChange_spec (to_change (tu_order t)) lost m2 []
      (same_node_self_absent _ _ Hn12 (no_self _ c Hok)) ltac:(by rewrite (sn_router _ _ Hn12); apply Hok)) as Hs.
    destruct (OnMembershipChange _ _ _) as [eff m3] eqn:E3. destruct Hs as [Hring _]. cbn [snd].
    replace (r_peers _) with (ring_after [] eff); [done|].
    unfold OnMembershipChange in E3. injection E3 as <- _. cbn -[alive_ids].
    rewrite (sn_router _ _ Hn12), (no_wired _ c Hok). unfold ring_after.
    destruct (mb_has_metrics _), (mb_has_replicator _ && _); done.
Qed.

Definition lose (f : string) (turn : string → Turn) (cl : Cluster) : Cluster :=
  map_imap (λ n c, Some (take_turn (turn n) c)) (delete f cl).

Lemma lookup_lose f turn cl n c' :
  lose f turn cl !! n = Some c' ↔ n ≠ f ∧ ∃ c, cl !! n = Some c ∧ c' = take_turn (turn n) c.
Proof.
  unfold lose. rewrite map_lookup_imap, bind_Some. split.
  - intros (c & [Hne Hc]%lookup_delete_Some & [= <-]). split; [done|]. by exists c.
  - intros (Hne & c & Hc & ->). exists c. split; [|done]. by apply lookup_delete_Some.
Qed.

(** The survivors of a cluster at rest, once they agree on the new route. *)
Lemma lose_ok S f turn cl :
  (∀ n c, cl !! n = Some c → n ≠ f → node_good payload n c ∧ rp_queue (lc_pool c) = [] ∧
     (∀ id, has c id → id_ok id) ∧ noticed n (turn_ring (turn n) c) c (take_turn (turn n) c) ∧
     ∀ id, Route id (turn_ring (turn n) c) = route id) →
  (∀ id, S id → ∃ n c, n ≠ f ∧ cl !! n = Some c ∧ has c id ∧ n ∈ owners (route id)) →
  failover_ok S (lose f turn cl).
Proof.
  intros Hcl HS.
  assert (∀ n c', lose f turn cl !! n = Some c' → ∃ c r', n ≠ f ∧ cl !! n = Some c ∧
    noticed n r' c c' ∧ (∀ id, Route id r' = route id)) as Hl.
  { intros n c' (Hne & c & Hn & ->)%lookup_lose. destruct (Hcl n c Hn Hne) as (_ & _ & _ & Hnt & Hr).
    by exists c, (turn_ring (turn n) c). }
  split.
  - intros n c' (c & r' & _ & _ & Hnt & _)%Hl. apply Hnt.
  - intros n c' id (c & r' & _ & _ & Hnt & Hr)%Hl. by rewrite (nt_router _ _ _ _ Hnt).
  - intros n c' id Hn' Hid. destruct (Hl n c' Hn') as (c & r' & Hne' & Hn & Hnt & _).
    apply (Hcl n c Hn Hne'). unfold has in *. by rewrite <- (nt_contents _ _ _ _ Hnt).
  - intros n c' t Hn' Ht. destruct (Hl n c' Hn') as (c & r' & Hne' & Hn & Hnt & Hr).
    destruct (nt_queue _ _ _ _ Hnt t Ht) as [Hold|(H1 & H2 & H3)].
    { destruct (Hcl n c Hn Hne') as (_ & Hq & _). rewrite Hq in Hold. by apply not_elem_of_nil in Hold. }
    rewrite Hr in H2, H3. unfold has in *. by rewrite (nt_contents _ _ _ _ Hnt).
  - intros n c' id (c & r' & _ & _ & Hnt & Hr)%Hl Hid. rewrite <- Hr. by apply (nt_round _ _ _ _ Hnt).
  - intros n c' id p Hn' Hid Hno Hp Hpe. destruct (decide (p = n)) as [->|Hne]; [left; by exists c'|right].
    destruct (Hl n c' Hn') as (c & r' & Hne' & Hn & Hnt & Hr). exists n, c'. split; [done|].
    apply (nt_sends _ _ _ _ Hnt); rewrite ?Hr; try done. unfold has in *. by rewrite <- (nt_contents _ _ _ _ Hnt).
  - intros id (n & c & Hne & Hn & Hid & Hno)%HS. destruct (Hcl n c Hn Hne) as (_ & _ & _ & Hnt & _).
    exists n, (take_turn (turn n) c). split_and!; [apply lookup_lose; by eauto| |done].
    unfold has. by rewrite (nt_contents _ _ _ _ Hnt).
Qed.
End failover.

(** ** Recovery *)

Section recovery.
Context (payload : BlockId → bytes) (listening : string → option string) (blake3_full : bytes → Hash256).
Context (v R : nat) (ps : list string).

(** A ring of the configured peers, whatever the sort and the order. *)
Definition ring_of (qs : list string) (r : Router) : Prop :=
  r_vnodes_per_peer r = v ∧ r_replication_factor r = R ∧
  ∃ sort qs' r0, qs' ≡ₚ qs ∧ r = SetPeers blake3_full sort qs' r0.

(** The route of a node that knows the peers [qs]. *)
Definition route_of (qs : list string) (id : BlockId) : RouteResult :=
  Route id (SetPeers blake3_full merge_sorter qs (make_router "" v R)).

Lemma owners_inj (a b : RouteResult) : owners a = owners b → a = b.
Proof. destruct a, b. by intros [= -> ->]. Qed.

Lemma owners_ring qs id :
  (0 < v)%nat → qs ≠ [] →
  owners (route_of qs id) = take (Nat.max 1 R) (preference id (SetPeers blake3_full merge_sorter qs (make_router "" v R))).
Proof. intros Hv Hq. unfold route_of. by rewrite SetPeers_owners. Qed.

Lemma ring_of_route qs r id :
  (0 < v)%nat → qs ≠ [] → no_collision blake3_full v qs → ring_of qs r → Route id r = route_of qs id.
Proof.
  intros Hv Hq Hnc (Ev & ER & sort & qs' & r0 & Hp & ->). cbn in Ev, ER. apply owners_inj.
  assert (qs' ≠ []) as Hq' by (intros ->; by apply Permutation_nil_l in Hp).
  rewrite owners_ring, SetPeers_owners by (done || by rewrite Ev). rewrite ER. f_equal. symmetry.
  by apply preference_perm.
Qed.

Definition others (f : string) : list string := filter (λ q, q ≠ f) ps.

(** An owner that survives stays an owner. *)
Lemma owner_survives f q id :
  (0 < v)%nat → ps ≠ [] → no_collision blake3_full v ps → others f ≠ [] →
  q ∈ owners (route_of ps id) → q ≠ f → q ∈ owners (route_of (others f) id).
Proof.
  intros Hv Hps Hnc Ho Hq Hne. rewrite owners_ring in Hq |- * by done.
  unfold others. rewrite (preference_remove _ merge_sorter) by done.
  destruct (take_filter_prefix f (Nat.max 1 R)
    (preference id (SetPeers blake3_full merge_sorter ps (make_router "" v R)))) as [tl ->].
  apply elem_of_app. left. by apply list_elem_of_filter.
Qed.

Lemma owners_count qs id :
  (0 < v)%nat → qs ≠ [] → NoDup qs →
  NoDup (owners (route_of qs id)) ∧ length (owners (route_of qs id)) = Nat.min (Nat.max 1 R) (length qs) ∧
  ∀ p, p ∈ owners (route_of qs id) → p ∈ qs.
Proof.
  intros Hv Hq Hnd. rewrite owners_ring by done.
  pose proof (SetPeers_preference_perm blake3_full merge_sorter qs (make_router "" v R) id Hv Hnd) as Hp.
  split_and!.
  - eapply sublist_NoDup; [|apply sublist_take]. apply distinct_NoDup.
  - rewrite length_take, Hp. done.
  - intros p (i & Hi & _)%elem_of_take. apply list_elem_of_lookup_2 in Hi. by rewrite Hp in Hi.
Qed.

(** With two owners one of them survives. *)
Lemma some_owner_survives f id :
  (0 < v)%nat → NoDup ps → (2 ≤ R)%nat → (2 ≤ length ps)%nat →
  ∃ q, q ∈ owners (route_of ps id) ∧ q ≠ f.
Proof.
  intros Hv Hnd HR Hl. destruct (owners_count ps id Hv ltac:(by destruct ps; simpl in Hl; [lia|]) Hnd) as (Ho & Hlen & _).
  destruct (owners (route_of ps id)) as [|a [|b rest]]; simpl in Hlen; [lia|lia|].
  destruct (decide (a = f)) as [->|]; [|exists a; split; [by left|done]].
  exists b. split; [by right; left|]. intros ->. apply NoDup_cons in Ho as [Ho _]. apply Ho. by left.
Qed.

(** A member of the cluster at rest, fully configured. *)
Record member (n : string) (c : LetheCache) : Prop := {
  me_good : node_good payload n c;
  me_queue : rp_queue (lc_pool c) = [];
  me_ids id : has c id → id_ok payload id;
  me_replicator : mb_has_replicator (lc_membership c) = true;
  me_local : mb_local_node_id (lc_membership c) = n;
  me_ring : ring_of ps (lc_router c);
  me_known p : is_Some (mb_peers (lc_membership c) !! p) ↔ p ∈ ps ∧ p ≠ n
}.

(** In this turn of its heartbeat loop every peer but [f] answers, and [f], which
    was seen before, has been silent for too long. *)
Record misses (f : string) (t : Turn) (m : Membership) : Prop := {
  mi_others p i : mb_peers m !! p = Some i → p ≠ f → responds (tu_reply t) m p i;
  mi_silent i : mb_peers m !! f = Some i → ¬ responds (tu_reply t) m f i ∧ silent (tu_now2 t) m f i;
  mi_clock : tu_now2 t - tu_now1 t ≤ dead_after (mb_cfg m)
}.

(** Such a turn loses [f] and keeps everybody else. *)
Lemma misses_alive f t n c :
  member n c → f ∈ ps → n ≠ f → misses f t (lc_membership c) →
  turn_lost t c ≠ [] ∧ mb_local_node_id (turn_known t c) = n ∧
  ∀ p, p ∈ alive_set (turn_known t c) ↔ p ∈ ps ∧ p ≠ f ∧ p ≠ n.
Proof.
  intros [Hg _ _ _ Hloc _ Hknown] Hf Hne [Hothers Hsilent Hclock]. pose proof (ng_ok _ _ _ Hg) as Hok.
  unfold turn_lost, turn_known, tick_lost, tick_known, tick_sent. set (m := lc_membership c) in *.
  destruct (SendHeartbeatsToAllPeers _ _ _ _ m) as [eff1 m1] eqn:E1. cbn [snd].
  destruct (Send_spec _ _ _ _ _ _ _ _ E1 (no_self _ c Hok) (no_wired _ c Hok) (no_ring _ c Hok)) as (Hn1 & _ & _ & Hp).
  assert (∀ p, p ∈ (EvaluateSuspicions (to_evaluate (tu_order t)) (tu_now2 t) m1).1 ↔ p = f) as Hlost.
  { intros p. rewrite elem_of_lost. unfold silent. rewrite (sn_cfg _ _ Hn1), (sn_local _ _ Hn1). split.
    - intros (j & Hj & Hs). destruct (decide (p = f)) as [|Hpf]; [done|exfalso].
      destruct (proj1 (sn_known _ _ Hn1 p)) as [i Hi]; [by eexists|].
      rewrite (proj1 (Hp p i Hi) (Hothers p i Hi Hpf)) in Hj. injection Hj as <-. cbn in Hs. lia.
    - intros ->. destruct (proj2 (Hknown f)) as [i Hi]; [by split|]. destruct (Hsilent i Hi) as [Hr Hs].
      exists i. split; [by apply (proj2 (Hp f i Hi))|done]. }
  split_and!.
  - intros E. assert (f ∈ @nil string) as Hx by (rewrite <- E; by apply Hlost). by apply not_elem_of_nil in Hx.
  - rewrite (sn_local _ _ (EvaluateSuspicions_node (to_evaluate (tu_order t)) (tu_now2 t) m1)).
    by rewrite (sn_local _ _ Hn1).
  - intros p. rewrite EvaluateSuspicions_alive, Hlost, elem_of_alive_set. split.
    + intros [(j & Hj & _) Hpf]. destruct (proj1 (Hknown p)) as [? ?]; [|done].
      apply (sn_known _ _ Hn1). by eexists.
    + intros (Hpp & Hpf & Hpn). split; [|done]. destruct (proj2 (Hknown p)) as [i Hi]; [done|].
      rewrite (proj1 (Hp p i Hi) (Hothers p i Hi Hpf)). by eexists.
Qed.

Lemma survivor_ring f t n c :
  member n c → n ∈ ps → f ∈ ps → n ≠ f → NoDup ps → misses f t (lc_membership c) →
  ring_of (others f) (turn_ring blake3_full t c).
Proof.
  intros Hm Hn Hf Hne Hnd Hmiss. destruct (misses_alive f t n c Hm Hf Hne Hmiss) as (_ & Hloc & Hal).
  destruct (me_ring _ _ Hm) as (Ev & ER & _). split_and!; [done|done|].
  eexists _, _, _. split; [|done]. rewrite Hloc. apply NoDup_Permutation.
  - apply NoDup_cons. split; [|apply NoDup_fst_filter_iter]. rewrite elem_of_alive_ids, Hal. tauto.
  - by apply NoDup_filter.
  - intros p. rewrite elem_of_cons, elem_of_alive_ids, Hal. unfold others. rewrite list_elem_of_filter.
    destruct (decide (p = n)) as [->|]; tauto.
Qed.

(** C2 (recovery from the loss of a node): take a cluster at rest of at least two
    nodes with a replication factor of at least two, in which every block that
    any node holds is held by all its owners, and let one node fail.  Once the
    heartbeat loops of the survivors have declared it dead, requests, pushes and
    ticks of the sweep threads follow in whatever order, where blocks are inserted
    at their primary and every push reaches its peer, which has room for it and
    for the pushes that follow from it (no worker sends a lost push again).  When
    the cluster is at rest again, every block that was held before the loss is
    held with its payload by all its owners under the new ring, which are as many
    distinct survivors as the replication factor asks for or as are left. *)
Theorem cluster_recovers f turn cl cl' :
  (0 < v)%nat → (2 ≤ R)%nat → NoDup ps → (2 ≤ length ps)%nat → "" ∉ ps → no_collision blake3_full v ps →
  f ∈ ps → (∀ n, is_Some (cl !! n) ↔ n ∈ ps) → (∀ n c, cl !! n = Some c → member n c) →
  (∀ n c, cl !! n = Some c → n ≠ f → misses f (turn n) (lc_membership c)) →
  (∀ n c id p, cl !! n = Some c → has c id → p ∈ owners (route_of ps id) → holds cl p id) →
  rtc (failover_step payload listening) (lose blake3_full f turn cl) cl' → at_rest cl' →
  ∀ n c id, cl !! n = Some c → has c id →
    (∀ p, p ∈ owners (route_of (others f) id) →
       p ≠ f ∧ ∃ cp, cl' !! p = Some cp ∧ contents (lc_store cp) !! id = Some (payload id)) ∧
    NoDup (owners (route_of (others f) id)) ∧
    length (owners (route_of (others f) id)) = Nat.min R (length ps - 1).
Proof.
  intros Hv HR Hnd Hlen Hpe Hnc Hf Hdom Hmem Hmiss Hfull Hsteps Hrest n c id Hn Hid.
  assert (length (others f) = (length ps - 1)%nat) as Hol by (by apply length_filter_ne).
  assert (others f ≠ []) as Hone by (intros E; rewrite E in Hol; simpl in Hol; lia).
  assert (ps ≠ []) as Hpne by (intros E; rewrite E in Hlen; simpl in Hlen; lia).
  assert (NoDup (others f)) as Hond by (by apply NoDup_filter).
  destruct (owners_count (others f) id Hv Hone Hond) as (Hno & Hlo & Hin).
  assert (no_collision blake3_full v (others f)) as Hnc'.
  { unfold others. by apply no_collision_filter. }
  split; [|split; [done|]]; [|rewrite Hlo, Hol; lia]. intros p Hp.
  assert (p ∈ ps ∧ p ≠ f) as [Hpp Hpf] by (apply Hin in Hp; unfold others in Hp; apply list_elem_of_filter in Hp; tauto).
  split; [done|].
  set (S := λ id, ∃ n c, cl !! n = Some c ∧ has c id).
  apply (failover_rest payload listening (route_of (others f)) S (lose blake3_full f turn cl)); try done.
  - apply lose_ok.
    + intros m x Hx Hne. pose proof (Hmem m x Hx) as Hm.
      destruct (misses_alive f (turn m) m x Hm Hf Hne (Hmiss m x Hx Hne)) as (Hlost & _).
      split_and!; [apply Hm|apply Hm|apply Hm|apply turn_ok; (done || apply Hm)|].
      intros i. apply ring_of_route; [done|done|done|].
      apply (survivor_ring f _ m); try done; [apply Hdom; by eexists|by apply Hmiss].
    + intros i (m & x & Hx & Hi). destruct (some_owner_survives f i Hv Hnd HR Hlen) as (q & Hq & Hqf).
      destruct (Hfull m x i q Hx Hi Hq) as (y & Hy & Hyi). exists q, y. split_and!; [done..|].
      by apply owner_survives.
  - by exists n, c.
  - by intros ->.
Qed.
End recovery.

(** ** Three nodes of which one fails *)

(** The block is on its owners [a] and [b]; every node has heard from the
    others; then [a] falls silent. *)
Definition wit_base (n : string) : LetheCache :=
  if String.eqb n "a" then worker_tick true wit_a1 else if String.eqb n "b" then wit_b1 else wit_member_node n.

Definition wit_seen (n : string) : LetheCache :=
  heartbeat_tick wit_blake3 wit_choices wit_orders (λ _ _, true) 10 10 (wit_base n).

Definition wit_full : Cluster := <["a" := wit_seen "a"]> (<["b" := wit_seen "b"]> (<["c" := wit_seen "c"]> ∅)).

Definition wit_turn : Turn :=
  mkTurn wit_choices wit_orders (λ p _, negb (String.eqb p "a")) 10000000000 10000000000.

Lemma wit_names n (P : string → Prop) : n ∈ ["a"; "b"; "c"] → P "a" → P "b" → P "c" → P n.
Proof.
  intros Hn Ha Hb Hc. apply elem_of_cons in Hn as [->|Hn]; [done|]. apply elem_of_cons in Hn as [->|Hn]; [done|].
  by apply list_elem_of_singleton in Hn as ->.
Qed.

Lemma wit_full_nodes n c : wit_full !! n = Some c ↔ n ∈ ["a"; "b"; "c"] ∧ c = wit_seen n.
Proof.
  unfold wit_full. split.
  - rewrite !lookup_insert_Some. intros [[<- <-]|[_ [[<- <-]|[_ [[<- <-]|[_ Hx]]]]]]; [| | |by rewrite lookup_empty in Hx];
      (split; [|done]); apply (bool_decide_unpack _); vm_compute; exact I.
  - intros [Hn ->]. revert n Hn.
    assert (∀ n, n ∈ ["a"; "b"; "c"] → wit_full !! n = Some (wit_seen n)) as H; [|exact H].
    intros n Hn. apply (wit_names n (λ n, wit_full !! n = Some (wit_seen n)) Hn); unfold wit_full.
    + apply lookup_insert_eq.
    + rewrite lookup_insert_ne by done. apply lookup_insert_eq.
    + rewrite !lookup_insert_ne by done. apply lookup_insert_eq.
Qed.

Lemma worker_good payload ok n c : node_good payload n c → node_good payload n (worker_tick ok c).
Proof.
  intros [Hok Hname Ht]. split; [apply node_ok_pool; [done|apply worker_pool_ok, Hok]|done|].
  unfold worker_tick, worker_step. cbn [lc_pool with_pool]. destruct (rp_queue (lc_pool c)) as [|t q] eqn:E;
    cbn [snd rp_queue]; [by rewrite E|]. by apply Forall_cons in Ht as [_ ?].
Qed.

Lemma wit_inserted n b :
  n ∈ ["a"; "b"; "c"] → block_ok wit_payload b → roomy (wit_member_node n) (kv_id b) →
  node_good wit_payload n (insert_step (0, wit_member_node n) b).2 ∧
  ∀ id, has (insert_step (0, wit_member_node n) b).2 id → id = kv_id b.
Proof.
  intros Hn Hb Hr. destruct (wit_member_good n Hn) as [Hg Hc].
  destruct (insert_one wit_payload n b (wit_member_node n) Hg Hb Hr) as [Hg' _ _ Hnew _ _ _ _]. split; [done|].
  intros id Hid. destruct (Hnew id Hid) as [[d Hd]|[-> _]]; [|done]. rewrite Hc, lookup_empty in Hd. done.
Qed.

Lemma wit_base_spec n :
  n ∈ ["a"; "b"; "c"] →
  node_good wit_payload n (wit_base n) ∧ ∀ id, has (wit_base n) id → id = kv_id wit_task.
Proof.
  intros Hn. apply (wit_names n (λ n, node_good wit_payload n (wit_base n) ∧ ∀ id, has (wit_base n) id → id = kv_id wit_task) Hn).
  - destruct (wit_inserted "a" wit_task) as [Hg Hi]; [by left|apply wit_on_ok|apply Nat.leb_le; by vm_compute|].
    split; [by apply worker_good|exact Hi].
  - destruct (wit_inserted "b" (pushed (kv_id wit_task) (kv_data wit_task))) as [Hg Hi];
      [by right; left|by apply pushed_ok, wit_on_ok|apply Nat.leb_le; by vm_compute|]. split; [exact Hg|exact Hi].
  - destruct (wit_member_good "c") as [Hg Hc]; [by right; right; left|]. split; [exact Hg|].
    intros id [d Hd]. change (wit_base "c") with (wit_member_node "c") in Hd. rewrite Hc, lookup_empty in Hd. done.
Qed.

Lemma wit_known n :
  n ∈ ["a"; "b"; "c"] →
  ∀ p, p ∈ (map_to_list (mb_peers (lc_membership (wit_seen n)))).*1 ↔ p ∈ ["a"; "b"; "c"] ∧ p ≠ n.
Proof.
  intros Hn. apply (wit_names n (λ n, ∀ p, p ∈ (map_to_list (mb_peers (lc_membership (wit_seen n)))).*1 ↔
    p ∈ ["a"; "b"; "c"] ∧ p ≠ n) Hn); intros p.
  - replace ((map_to_list _).*1) with ["c"; "b"] by (vm_compute; reflexivity). set_solver.
  - replace ((map_to_list _).*1) with ["c"; "a"] by (vm_compute; reflexivity). set_solver.
  - replace ((map_to_list _).*1) with ["a"; "b"] by (vm_compute; reflexivity). set_solver.
Qed.

Lemma known_list (m : gmap string PeerInfo) p : is_Some (m !! p) ↔ p ∈ (map_to_list m).*1.
Proof.
  rewrite list_elem_of_fmap. split.
  - intros [i Hi]. exists (p, i). split; [done|]. by apply elem_of_map_to_list.
  - intros ([q i] & -> & Hq%elem_of_map_to_list). by eexists.
Qed.

Lemma wit_seen_holds n id : n ∈ ["a"; "b"; "c"] → has (wit_seen n) id → id = kv_id wit_task.
Proof.
  intros Hn Hid. destruct (wit_base_spec n Hn) as [Hg Hids]. apply Hids. unfold has, wit_seen, heartbeat_tick in *.
  destruct (HeartbeatTick _ _ _ _ _) as [effs m].
  destruct (apply_effects_ok wit_blake3 wit_choices effs (with_membership (wit_base n) m)
    (no_store _ _ (ng_ok _ _ _ Hg)) (no_pool _ _ (ng_ok _ _ _ Hg))) as (_ & Hc & _). by rewrite Hc in Hid.
Qed.

Lemma wit_seen_fields n :
  n ∈ ["a"; "b"; "c"] →
  rp_queue (lc_pool (wit_seen n)) = [] ∧ cc_node_id (lc_cfg (wit_seen n)) = n ∧
  mb_has_replicator (lc_membership (wit_seen n)) = true ∧ mb_local_node_id (lc_membership (wit_seen n)) = n ∧
  lc_router (wit_seen n) = SetPeers wit_blake3 merge_sorter (n :: filter (λ p, p ≠ n) ["a"; "b"; "c"])
    (make_router n 2 2).
Proof.
  intros Hn. split_and!.
  - apply (wit_names n (λ n, rp_queue (lc_pool (wit_seen n)) = []) Hn); vm_compute; reflexivity.
  - apply (wit_names n (λ n, cc_node_id (lc_cfg (wit_seen n)) = n) Hn); vm_compute; reflexivity.
  - apply (wit_names n (λ n, mb_has_replicator (lc_membership (wit_seen n)) = true) Hn); vm_compute; reflexivity.
  - apply (wit_names n (λ n, mb_local_node_id (lc_membership (wit_seen n)) = n) Hn); vm_compute; reflexivity.
  - apply (wit_names n (λ n, lc_router (wit_seen n) = SetPeers wit_blake3 merge_sorter
      (n :: filter (λ p, p ≠ n) ["a"; "b"; "c"]) (make_router n 2 2)) Hn); vm_compute; reflexivity.
Qed.

Lemma wit_seen_member n : n ∈ ["a"; "b"; "c"] → member wit_payload wit_blake3 2 2 ["a"; "b"; "c"] n (wit_seen n).
Proof.
  intros Hn. destruct (wit_base_spec n Hn) as [Hg _].
  destruct (wit_seen_fields n Hn) as (H1 & H2 & H3 & H4 & H5).
  split.
  - split; [|done|by rewrite H1].
    exact (node_step_ok wit_payload wit_blake3 (wit_base n) (NTick wit_choices wit_orders (λ _ _, true) 10 10)
      (ng_ok _ _ _ Hg) I).
  - done.
  - intros id ->%(wit_seen_holds n id Hn). apply id_ok_block, (wit_on_ok DRAM).
  - done.
  - done.
  - rewrite H5. split_and!; [done|done|]. eexists _, _, _. split; [|reflexivity].
    apply (wit_names n (λ n, n :: filter (λ p, p ≠ n) ["a"; "b"; "c"] ≡ₚ ["a"; "b"; "c"]) Hn);
      [done|apply perm_swap|apply (Permutation_cons_append ["a"; "b"] "c")].
  - intros p. rewrite known_list. by apply wit_known.
Qed.

Lemma wit_misses n :
  n ∈ ["b"; "c"] → misses "a" wit_turn (lc_membership (wit_seen n)).
Proof.
  intros Hn. assert (n = "b" ∨ n = "c") as Hcases by set_solver. clear Hn.
  assert (Forall (λ x, (x.1 ≠ "a" → x.1 ≠ n ∧ pi_address x.2 ≠ "" ∧ tu_reply wit_turn x.1 (pi_address x.2) = true) ∧
      (x.1 = "a" → pi_alive x.2 = true ∧ pi_ever_seen x.2 = true ∧ pi_last_seen x.2 = 10))
    (map_to_list (mb_peers (lc_membership (wit_seen n)))) ∧
    mb_local_node_id (lc_membership (wit_seen n)) = n ∧ dead_after (mb_cfg (lc_membership (wit_seen n))) = 3000000000)
    as (Hall & Hloc & Hdead).
  { destruct Hcases as [->| ->]; (split; [|by vm_compute]); apply (bool_decide_unpack _); vm_compute; exact I. }
  rewrite Forall_forall in Hall. split.
  - intros p i Hi Hp. destruct (Hall (p, i)) as [H _]; [by apply elem_of_map_to_list|].
    unfold responds. rewrite Hloc. by apply H.
  - intros i Hi. destruct (Hall ("a", i)) as [_ H]; [by apply elem_of_map_to_list|].
    destruct (H eq_refl) as (Ha & He & Hs). cbn [snd] in *. split; [by intros (_ & _ & Hr)|].
    unfold silent. rewrite Hloc, Hdead, Hs. split_and!; [destruct Hcases; by subst|done|done|by vm_compute].
  - rewrite Hdead. by vm_compute.
Qed.

(** The survivors after their turns, and after the one push that follows. *)
Definition wit_lost : Cluster := lose wit_blake3 "a" (λ _, wit_turn) wit_full.
Definition wit_b2 : LetheCache := take_turn wit_blake3 wit_turn (wit_seen "b").
Definition wit_c2 : LetheCache := take_turn wit_blake3 wit_turn (wit_seen "c").

Lemma wit_lost_nodes n c :
  wit_lost !! n = Some c ↔ n = "b" ∧ c = wit_b2 ∨ n = "c" ∧ c = wit_c2.
Proof.
  unfold wit_lost. rewrite lookup_lose. split.
  - intros (Hne & x & [Hn ->]%wit_full_nodes & ->). apply elem_of_cons in Hn as [->|Hn]; [done|].
    apply elem_of_cons in Hn as [->|Hn]; [by left|]. apply list_elem_of_singleton in Hn as ->. by right.
  - intros [[-> ->]|[-> ->]]; (split; [done|]).
    + exists (wit_seen "b"). split; [|reflexivity]. apply wit_full_nodes. split; [by right; left|done].
    + exists (wit_seen "c"). split; [|reflexivity]. apply wit_full_nodes. split; [by right; right; left|done].
Qed.

Lemma wit_queue_b2 :
  rp_queue (lc_pool wit_b2) = [mkReplicateTask "c" (pushed (kv_id wit_task) (kv_data wit_task))].
Proof. vm_compute. reflexivity. Qed.

Lemma wit_delivers2 : delivers wit_listening "b" wit_lost.
Proof.
  exists wit_b2, (mkReplicateTask "c" (pushed (kv_id wit_task) (kv_data wit_task))), [], "h:2", wit_c2.
  split_and!; [apply wit_lost_nodes; by left|exact wit_queue_b2|by vm_compute|by vm_compute|
    apply wit_lost_nodes; by right|apply Nat.leb_le; vm_compute; reflexivity|].
  assert ((TieredStore.Put (pushed (kv_id wit_task) (kv_data wit_task)) DRAM (lc_store wit_c2)).1 = Some DRAM) as E
    by (vm_compute; reflexivity).
  exists DRAM. exact E.
Qed.

Definition wit_c3 : LetheCache := (insert_step (0, wit_c2) (pushed (kv_id wit_task) (kv_data wit_task))).2.

Lemma wit_pushed2 :
  ∃ ok, worker_push wit_listening Answered "b" wit_lost = <["b" := worker_tick ok wit_b2]> (<["c" := wit_c3]> wit_lost).
Proof.
  exact (worker_push_delivered wit_listening Answered "b" wit_b2 (mkReplicateTask "c" (pushed (kv_id wit_task) (kv_data wit_task)))
    [] "h:2" wit_c2 wit_lost ltac:(done) (proj2 (wit_lost_nodes _ _) (or_introl (conj eq_refl eq_refl))) wit_queue_b2 ltac:(by vm_compute)
    eq_refl (proj2 (wit_lost_nodes _ _) (or_intror (conj eq_refl eq_refl))) ltac:(done)).
Qed.

Lemma wit_at_rest : at_rest (worker_push wit_listening Answered "b" wit_lost).
Proof.
  destruct wit_pushed2 as [ok ->]. intros n c [[_ <-]|[Hne Hx]]%lookup_insert_Some.
  { destruct ok; by vm_compute. }
  apply lookup_insert_Some in Hx as [[_ <-]|[Hne' Hx]]; [by vm_compute|].
  apply wit_lost_nodes in Hx as [[-> _]|[-> _]]; done.
Qed.

Lemma cluster_recovers_witness :
  ∃ cc, worker_push wit_listening Answered "b" wit_lost !! "c" = Some cc ∧
    contents (lc_store cc) !! kv_id wit_task = Some (kv_data wit_task).
Proof.
  assert (∀ n, n ∈ ["a"; "b"] → has (wit_seen n) (kv_id wit_task)) as Hhas.
  { intros n Hn. assert (n = "a" ∨ n = "b") as [->| ->] by set_solver; vm_compute; by eexists. }
  destruct (cluster_recovers wit_payload wit_listening wit_blake3 2 2 ["a"; "b"; "c"] "a" (λ _, wit_turn) wit_full
    (worker_push wit_listening Answered "b" wit_lost)) with (n := "b") (c := wit_seen "b") (id := kv_id wit_task) as [H _].
  - lia.
  - lia.
  - apply (bool_decide_unpack _); vm_compute; exact I.
  - simpl. lia.
  - apply (bool_decide_unpack _); vm_compute; exact I.
  - apply (bool_decide_unpack _); vm_compute; exact I.
  - by left.
  - intros n. split.
    + intros [c [Hn _]%wit_full_nodes]. exact Hn.
    + intros Hn. exists (wit_seen n). by apply wit_full_nodes.
  - intros n c [Hn ->]%wit_full_nodes. by apply wit_seen_member.
  - intros n c [Hn ->]%wit_full_nodes Hne. apply wit_misses. set_solver.
  - intros n c id p [Hn ->]%wit_full_nodes Hid Hp.
    apply (wit_seen_holds n id Hn) in Hid as ->. exists (wit_seen p). assert (p ∈ ["a"; "b"]) as Hp2.
    { replace (owners (route_of wit_blake3 2 2 ["a"; "b"; "c"] (kv_id wit_task))) with ["a"; "b"] in Hp
        by (vm_compute; reflexivity). exact Hp. }
    split; [|by apply Hhas]. apply wit_full_nodes. split; [|reflexivity].
    apply elem_of_cons in Hp2 as [->|Hp2]; [by left|]. apply list_elem_of_singleton in Hp2 as ->. by right; left.
  - apply rtc_once, fo_push; [done|apply wit_delivers2].
  - exact wit_at_rest.
  - apply wit_full_nodes. split; [by right; left|done].
  - apply Hhas. by right; left.
  - destruct (H "c") as [_ Hc]; [|exact Hc]. apply (bool_decide_unpack _); vm_compute; exact I.
Defined.
