(* ===== verification/Ibverbs.v ===== *)
(** * The RDMA block transport (ibverbs_transport.cpp)

    The wire header, the ring of registered send buffers with its work-request
    numbers and pending promises, the lazily dialled connections, and the
    receive handler.  What the verbs library answers (whether a dial or a
    posted send succeeds, which completions arrive while a sender waits) is an
    argument.  A promise is a number; [rd_resolved] lists the values that were
    set, in order. *)
From Stdlib Require Import Ascii.
From S2P Require Import Prelude Types Text SsdLayout Cache Rpc GrpcTransport.

(** ** Constants and wire format *)

Definition kMagic : Z := 0x4C455448.
Definition kMsgBlockPush : Z := 1.
Definition kMaxSendBuffers : nat := 8.
Definition kSendAttempts : nat := 2000.

Record MsgHeader : Type := mkMsgHeader {
  mh_magic : Z;
  mh_type : Z;
  mh_purpose : Z;
  mh_payload_len : Z;
  mh_hash : Hash256;
  mh_layer : Z;
  mh_head_group : Z;
  mh_model_id : Z
}.

(** [sizeof] of the packed structure. *)
Definition kHeaderBytes : nat := 60.

Definition encode_msg (h : MsgHeader) : bytes :=
  le_encode 4 (mh_magic h) ++ le_encode 4 (mh_type h) ++ le_encode 4 (mh_purpose h) ++
  le_encode 4 (mh_payload_len h) ++ vec_to_list (mh_hash h) ++ le_encode 4 (mh_layer h) ++
  le_encode 4 (mh_head_group h) ++ le_encode 4 (mh_model_id h).

Definition decode_msg (bs : bytes) : MsgHeader := {|
  mh_magic := le_decode (field 0 4 bs);
  mh_type := le_decode (field 4 4 bs);
  mh_purpose := le_decode (field 8 4 bs);
  mh_payload_len := le_decode (field 12 4 bs);
  mh_hash := vec_resize 32 (field 16 32 bs);
  mh_layer := le_decode (field 48 4 bs);
  mh_head_group := le_decode (field 52 4 bs);
  mh_model_id := le_decode (field 56 4 bs)
|}.

Definition purpose_to_Z (p : StreamPurpose) : Z :=
  match p with ReplicationPush => 0 | ReadRepair => 1 | Promotion => 2 end.

Definition push_header (id : BlockId) (purpose : StreamPurpose) (data : bytes) : MsgHeader :=
  mkMsgHeader kMagic kMsgBlockPush (purpose_to_Z purpose) (u32 (size_of data)) (b_hash id)
    (b_layer id) (b_head_group id) (b_model_id id).

(** Header and payload copied to the front of a registered buffer. *)
Definition stage (id : BlockId) (purpose : StreamPurpose) (data mem : bytes) : bytes :=
  encode_msg (push_header id purpose data) ++ data ++ drop (kHeaderBytes + length data) mem.

(** What the receiver hands on: identity, payload, and the purpose cast to the
    8-bit enumeration. *)
Definition HandleRecv (mem : bytes) (byte_len : Z) : option (BlockId * bytes * Z) :=
  if byte_len <? Z.of_nat kHeaderBytes then None
  else
    let h := decode_msg mem in
    if negb (mh_magic h =? kMagic) || negb (mh_type h =? kMsgBlockPush) then None
    else if Z.of_nat kHeaderBytes + mh_payload_len h >? byte_len then None
    else Some (mkBlockId (mh_hash h) (mh_layer h) (mh_head_group h) (mh_model_id h),
               take (Z.to_nat (mh_payload_len h)) (drop kHeaderBytes mem), u8 (mh_purpose h)).

(** The callback that the facade installs: the block is inserted as the gRPC
    handler would insert it. *)
Definition on_receive (id : BlockId) (data : bytes) (c : LetheCache) : LetheCache :=
  (Insert [mkKvBlock id data DRAM 0] c).2.

Definition receive (mem : bytes) (byte_len : Z) (c : LetheCache) : LetheCache :=
  match HandleRecv mem byte_len with
  | Some (id, data, _) => on_receive id data c
  | None => c
  end.

(** ** The peer table of the environment *)

(** One token; a malformed one is skipped, a bad port is an exception. *)
Definition parse_endpoint (acc : option (gmap string (string * Z))) (tok : string) :
    option (gmap string (string * Z)) :=
  out ← acc;
  match cut_at "@" tok with
  | None => Some out
  | Some (id, rest) =>
      match cut_last ":" rest with
      | None => Some out
      | Some (ip, port) => p ← stoi port; Some (<[id := (ip, p mod 2 ^ 16)]> out)
      end
  end.

Definition ParsePeerEnv (raw : option string) : option (gmap string (string * Z)) :=
  match raw with
  | None => Some ∅
  | Some s => fold_left parse_endpoint (split_on "," s) (Some ∅)
  end.

(** ** The send ring of a connection *)

Record Conn : Type := mkConn {
  cn_send_bufs : list bytes;
  cn_free_send : list nat;
  cn_pending : gmap Z nat;   (* wr_id to promise *)
  cn_next_wr : Z             (* std::uint64_t *)
}.

(** [SetupOutbound]. *)
Definition new_conn (msg_bytes : Z) : Conn :=
  mkConn (replicate kMaxSendBuffers (replicate (kHeaderBytes + Z.to_nat msg_bytes) Byte.x00))
    (seq 0 kMaxSendBuffers) ∅ 1.

(** The buffer index in the low sixteen bits of a work-request number. *)
Definition wr_buf (wr : Z) : nat := Z.to_nat (Z.land wr 0xffff).

(** Taking a free buffer under the lock. *)
Definition acquire (pr : nat) (c : Conn) : option (nat * Z * Conn) :=
  match last (cn_free_send c) with
  | None => None
  | Some buf =>
      let wr := Z.lor (u64 (Z.shiftl (cn_next_wr c) 16)) (Z.land (Z.of_nat buf) 0xffff) in
      Some (buf, wr, mkConn (cn_send_bufs c) (removelast (cn_free_send c))
                       (<[wr := pr]> (cn_pending c)) (cn_next_wr c +₆₄ 1))
  end.

(** One completion in [PollOutbound]: the promise that it resolves. *)
Definition complete (wr : Z) (c : Conn) : option nat * Conn :=
  match cn_pending c !! wr with
  | None => (None, c)
  | Some pr => (Some pr, mkConn (cn_send_bufs c) (cn_free_send c ++ [wr_buf wr])
                           (delete wr (cn_pending c)) (cn_next_wr c))
  end.

(** A send that could not be posted. *)
Definition unpost (buf : nat) (wr : Z) (c : Conn) : Conn :=
  mkConn (cn_send_bufs c) (cn_free_send c ++ [buf]) (delete wr (cn_pending c)) (cn_next_wr c).

Definition write_buf (buf : nat) (f : bytes → bytes) (c : Conn) : Conn :=
  mkConn (alter f buf (cn_send_bufs c)) (cn_free_send c) (cn_pending c) (cn_next_wr c).

(** ** The transport *)

Record Rdma : Type := mkRdma {
  rd_msg_bytes : Z;
  rd_peers : gmap string (string * Z);
  rd_outbound : gmap string Conn;
  rd_grpc : Connections;
  rd_stop : bool;
  rd_next_promise : nat;
  rd_resolved : list (nat * bool);
  rd_posted : Z;
  rd_done_ok : Z;
  rd_done_err : Z;
  rd_drop_noconn : Z;
  rd_drop_bp : Z
}.

Definition make_rdma (msg_bytes : Z) (peers : gmap string (string * Z)) : Rdma :=
  mkRdma msg_bytes peers ∅ ∅ false 0 [] 0 0 0 0 0.

(** The constructor: endpoints and buffer size from the environment, the size
    one MiB unless a nonzero number is set; a bad port is an exception. *)
Definition rdma_of_env (peers msg_bytes : option string) : option Rdma :=
  ps ← ParsePeerEnv peers; Some (make_rdma (env_bytes msg_bytes (2 ^ 20)) ps).

Definition with_outbound (st : Rdma) (o : gmap string Conn) : Rdma :=
  mkRdma (rd_msg_bytes st) (rd_peers st) o (rd_grpc st) (rd_stop st) (rd_next_promise st) (rd_resolved st)
    (rd_posted st) (rd_done_ok st) (rd_done_err st) (rd_drop_noconn st) (rd_drop_bp st).
Definition with_grpc (st : Rdma) (g : Connections) : Rdma :=
  mkRdma (rd_msg_bytes st) (rd_peers st) (rd_outbound st) g (rd_stop st) (rd_next_promise st) (rd_resolved st)
    (rd_posted st) (rd_done_ok st) (rd_done_err st) (rd_drop_noconn st) (rd_drop_bp st).
Definition set_stop (st : Rdma) : Rdma :=
  mkRdma (rd_msg_bytes st) (rd_peers st) (rd_outbound st) (rd_grpc st) true (rd_next_promise st) (rd_resolved st)
    (rd_posted st) (rd_done_ok st) (rd_done_err st) (rd_drop_noconn st) (rd_drop_bp st).
Definition resolve (pr : nat) (b : bool) (st : Rdma) : Rdma :=
  mkRdma (rd_msg_bytes st) (rd_peers st) (rd_outbound st) (rd_grpc st) (rd_stop st) (rd_next_promise st)
    (rd_resolved st ++ [(pr, b)])
    (rd_posted st) (rd_done_ok st) (rd_done_err st) (rd_drop_noconn st) (rd_drop_bp st).
Definition new_promise (st : Rdma) : nat * Rdma :=
  (rd_next_promise st,
   mkRdma (rd_msg_bytes st) (rd_peers st) (rd_outbound st) (rd_grpc st) (rd_stop st) (S (rd_next_promise st))
     (rd_resolved st)
     (rd_posted st) (rd_done_ok st) (rd_done_err st) (rd_drop_noconn st) (rd_drop_bp st)).

(** The diagnostic counters. *)
Inductive Counter : Type := Posted | DoneOk | DoneErr | DropNoconn | DropBp.

Definition count (k : Counter) (st : Rdma) : Rdma :=
  mkRdma (rd_msg_bytes st) (rd_peers st) (rd_outbound st) (rd_grpc st) (rd_stop st) (rd_next_promise st) (rd_resolved st)
    (match k with Posted => rd_posted st +₆₄ 1 | _ => rd_posted st end)
    (match k with DoneOk => rd_done_ok st +₆₄ 1 | _ => rd_done_ok st end)
    (match k with DoneErr => rd_done_err st +₆₄ 1 | _ => rd_done_err st end)
    (match k with DropNoconn => rd_drop_noconn st +₆₄ 1 | _ => rd_drop_noconn st end)
    (match k with DropBp => rd_drop_bp st +₆₄ 1 | _ => rd_drop_bp st end).

(** One completion on the queue of a connected peer. *)
Definition poll_one (peer : string) (st : Rdma) (wc : Z * bool) : Rdma :=
  match rd_outbound st !! peer with
  | None => st
  | Some c =>
      let '(pr, c') := complete wc.1 c in
      let st1 := with_outbound st (<[peer := c']> (rd_outbound st)) in
      let st2 := match pr with Some p => resolve p wc.2 st1 | None => st1 end in
      count (if wc.2 then DoneOk else DoneErr) st2
  end.

Definition PollOutbound (peer : string) (wcs : list (Z * bool)) (st : Rdma) : Rdma :=
  fold_left (poll_one peer) wcs st.

(** The connection to a peer, dialled on the first use.  [dial] is whether the
    dial, which [RdmaReceive] models with its failures, returned a connection;
    its buffers are then registered. *)
Definition EnsureOutbound (dial : bool) (peer : string) (st : Rdma) : bool * Rdma :=
  match rd_outbound st !! peer with
  | Some _ => (true, st)
  | None =>
      match rd_peers st !! peer with
      | None => (false, st)
      | Some _ =>
          if dial then (true, with_outbound st (<[peer := new_conn (rd_msg_bytes st)]> (rd_outbound st)))
          else (false, st)
      end
  end.

(** Waiting for a buffer: between two attempts the poller handles the
    completions that [waits] lists. *)
Fixpoint acquire_loop (attempts : nat) (waits : list (list (Z * bool))) (pr : nat) (peer : string)
    (st : Rdma) : option (nat * Z) * Rdma :=
  match attempts with
  | O => (None, st)
  | S attempts =>
      match rd_outbound st !! peer ≫= acquire pr with
      | Some (buf, wr, c) => (Some (buf, wr), with_outbound st (<[peer := c]> (rd_outbound st)))
      | None => acquire_loop attempts (tail waits) pr peer (PollOutbound peer (default [] (head waits)) st)
      end
  end.

(** [Send]: the promise of its future and the state.  [posted] is the answer
    of [ibv_post_send]. *)
Definition Send (dial posted : bool) (waits : list (list (Z * bool))) (peer : string) (id : BlockId)
    (purpose : StreamPurpose) (data : bytes) (st : Rdma) : nat * Rdma :=
  let '(pr, st) := new_promise st in
  if Z.of_nat kHeaderBytes + size_of data >? Z.of_nat kHeaderBytes + rd_msg_bytes st
  then (pr, resolve pr false st)
  else
    let '(connected, st) := EnsureOutbound dial peer st in
    if negb connected then (pr, resolve pr false (count DropNoconn st))
    else
      match acquire_loop kSendAttempts waits pr peer st with
      | (None, st) => (pr, resolve pr false (count DropBp st))
      | (Some (buf, wr), st) =>
          let st := with_outbound st (alter (write_buf buf (stage id purpose data)) peer (rd_outbound st)) in
          if posted then (pr, count Posted st)
          else (pr, resolve pr false (with_outbound st (alter (unpost buf wr) peer (rd_outbound st))))
      end.

(** Only the gRPC side connects at once. *)
Definition Connect (peer address : string) (st : Rdma) : Rdma :=
  with_grpc st (connect (rd_grpc st) (mkStaticPeer peer address)).

(** The pending promises of a dropped connection are abandoned: their futures
    report a broken promise. *)
Definition Disconnect (peer : string) (st : Rdma) : Rdma :=
  with_outbound (with_grpc st (GrpcTransport.Disconnect peer (rd_grpc st))) (delete peer (rd_outbound st)).

(** The first call drops every connection; later ones return at once. *)
Definition Shutdown (st : Rdma) : Rdma :=
  if rd_stop st then st
  else with_outbound (with_grpc (set_stop st) (TransportShutdown (rd_grpc st))) ∅.

(** ** The wire format *)

Record msg_wf (h : MsgHeader) : Prop := {
  mw_magic : 0 ≤ mh_magic h < 2 ^ 32;
  mw_type : 0 ≤ mh_type h < 2 ^ 32;
  mw_purpose : 0 ≤ mh_purpose h < 2 ^ 32;
  mw_len : 0 ≤ mh_payload_len h < 2 ^ 32;
  mw_layer : 0 ≤ mh_layer h < 2 ^ 32;
  mw_head_group : 0 ≤ mh_head_group h < 2 ^ 32;
  mw_model_id : 0 ≤ mh_model_id h < 2 ^ 32
}.

Lemma length_encode_msg h : length (encode_msg h) = kHeaderBytes.
Proof. unfold encode_msg. rewrite !length_app, !length_le_encode, !length_vec_to_list. done. Qed.

#[local] Opaque le_encode vec_to_list.

Lemma decode_encode_msg h rest : msg_wf h → decode_msg (encode_msg h ++ rest) = h.
Proof.
  intros [H1 H2 H3 H4 H5 H6 H7]. destruct h as [a b c d e f g i].
  cbn in H1, H2, H3, H4, H5, H6, H7.
  unfold decode_msg, encode_msg; cbn [mh_magic mh_type mh_purpose mh_payload_len mh_hash mh_layer
    mh_head_group mh_model_id].
  rewrite <- !app_assoc. f_equal.
  all: read_field; first [apply le_decode_encode; assumption|apply vec_resize_to_list].
Qed.

Lemma push_header_wf id purpose data : BlockId_wf id → msg_wf (push_header id purpose data).
Proof.
  intros (H1 & H2 & H3). split; cbn; [unfold kMagic; lia|unfold kMsgBlockPush; lia| |apply u32_range|done|done|done].
  destruct purpose; simpl; lia.
Qed.

(** The bytes of a push on the wire. *)
Definition wire_of (id : BlockId) (purpose : StreamPurpose) (data : bytes) : bytes :=
  encode_msg (push_header id purpose data) ++ data.

Lemma length_wire_of id purpose data : length (wire_of id purpose data) = (kHeaderBytes + length data)%nat.
Proof. unfold wire_of. by rewrite length_app, length_encode_msg. Qed.

Lemma take_stage id purpose data mem :
  take (kHeaderBytes + length data) (stage id purpose data mem) = wire_of id purpose data.
Proof.
  unfold stage. rewrite app_assoc, take_app_length'; [done|]. by rewrite length_app, length_encode_msg.
Qed.

(** What the receiver makes of a message of which [k] bytes arrived. *)
Lemma HandleRecv_wire id purpose data junk k :
  BlockId_wf id → size_of data < 2 ^ 32 →
  HandleRecv (wire_of id purpose data ++ junk) k =
    if k <? Z.of_nat kHeaderBytes + size_of data then None else Some (id, data, purpose_to_Z purpose).
Proof.
  intros Hid Hlen. pose proof (size_of_nonneg data). unfold HandleRecv, wire_of.
  rewrite <- !app_assoc, decode_encode_msg by (by apply push_header_wf).
  rewrite drop_app_length' by (by rewrite length_encode_msg). cbn [push_header mh_magic mh_type
    mh_payload_len mh_hash mh_layer mh_head_group mh_model_id mh_purpose].
  rewrite (u32_small (size_of data)) by lia. rewrite !Z.eqb_refl. cbn [negb orb].
  unfold size_of in *. rewrite Nat2Z.id, take_app_length, u8_small by (destruct purpose; simpl; lia).
  destruct (k <? Z.of_nat kHeaderBytes) eqn:E1; [by replace (k <? _) with true by lia|].
  rewrite Z.gtb_ltb. destruct (k <? _); [done|]. by destruct id.
Qed.

(** C38 (RDMA wire format): whatever was in the send and receive buffers before,
    the message that a send stages is parsed by the receiver to the same
    identity, payload and purpose, so that it changes the receiving node
    exactly as the same push over gRPC; a receive of fewer bytes than were sent
    is rejected. *)
Theorem ibverbs_wire_roundtrip id purpose data mem junk c :
  BlockId_wf id → size_of data < 2 ^ 32 →
  let wire := take (kHeaderBytes + length data) (stage id purpose data mem) in
  size_of wire = Z.of_nat kHeaderBytes + size_of data ∧
  HandleRecv (wire ++ junk) (size_of wire) = Some (id, data, purpose_to_Z purpose) ∧
  receive (wire ++ junk) (size_of wire) c = (rpc_Insert (push_request id data) c).2 ∧
  ∀ k, k < size_of wire → HandleRecv (wire ++ junk) k = None.
Proof.
  intros Hid Hlen wire. unfold wire. rewrite take_stage.
  assert (size_of (wire_of id purpose data) = Z.of_nat kHeaderBytes + size_of data) as Hsz.
  { unfold size_of. rewrite length_wire_of. lia. }
  split; [done|]. rewrite Hsz, HandleRecv_wire, Z.ltb_irrefl by done. split_and!; [done| |].
  - unfold receive. rewrite HandleRecv_wire, Z.ltb_irrefl by done. by rewrite rpc_Insert_push.
  - intros k Hk. rewrite HandleRecv_wire by done. by replace (k <? _) with true by lia.
Qed.

(** ** The send ring *)

Lemma wr_id_sum next buf :
  0 ≤ next < 2 ^ 48 → 0 ≤ buf < 2 ^ 16 →
  Z.lor (u64 (Z.shiftl next 16)) (Z.land buf 0xffff) = next * 65536 + buf.
Proof.
  intros Hn Hb. rewrite Z.shiftl_mul_pow2 by lia. rewrite u64_small by lia.
  change 0xffff with (Z.ones 16). rewrite Z.land_ones, (Z.mod_small buf) by lia.
  pose proof (Z.add_lor_land (next * 2 ^ 16) buf) as H.
  assert (Z.land (next * 2 ^ 16) buf = 0) as Hz.
  { rewrite <- (Z.mod_small buf (2 ^ 16)), <- Z.land_ones by lia.
    rewrite (Z.land_comm buf), Z.land_assoc, Z.land_ones, Z.mod_mul by lia. done. }
  lia.
Qed.

Lemma wr_buf_sum k b : 0 ≤ k → 0 ≤ b < 2 ^ 16 → wr_buf (k * 65536 + b) = Z.to_nat b.
Proof.
  intros Hk Hb. unfold wr_buf. change 0xffff with (Z.ones 16). rewrite Z.land_ones by lia.
  rewrite Z.add_comm, Z.mod_add, Z.mod_small by lia. done.
Qed.

(** The buffers with a send in flight. *)
Definition in_flight (c : Conn) : list nat := wr_buf <$> (map_to_list (cn_pending c)).*1.

Record conn_ok (c : Conn) : Prop := {
  co_partition : cn_free_send c ++ in_flight c ≡ₚ seq 0 kMaxSendBuffers;
  co_wr wr pr : cn_pending c !! wr = Some pr →
    ∃ k b, wr = k * 65536 + b ∧ 1 ≤ k < cn_next_wr c ∧ 0 ≤ b < 8;
  co_next : 1 ≤ cn_next_wr c
}.

Lemma new_conn_ok msg_bytes : conn_ok (new_conn msg_bytes).
Proof.
  split.
  - unfold in_flight. simpl. by rewrite map_to_list_empty.
  - intros wr pr. simpl. by rewrite lookup_empty.
  - simpl. lia.
Qed.

Lemma last_removelast {A} (l : list A) x : last l = Some x → l = removelast l ++ [x].
Proof.
  intros H. destruct l as [|y l _] using rev_ind; [done|].
  rewrite last_snoc in H. injection H as ->. by rewrite removelast_last.
Qed.

Lemma acquire_ok pr c buf wr c' :
  conn_ok c → cn_next_wr c < 2 ^ 48 - 1 → acquire pr c = Some (buf, wr, c') →
  conn_ok c' ∧ cn_pending c !! wr = None ∧ cn_pending c' = <[wr := pr]> (cn_pending c) ∧
  wr_buf wr = buf ∧ cn_next_wr c' = cn_next_wr c + 1.
Proof.
  intros [Hp Hwr Hn] Hlt. unfold acquire. destruct (last (cn_free_send c)) as [b|] eqn:E; [|done].
  apply last_removelast in E.
  assert (b < 8)%nat as Hb.
  { assert (b ∈ seq 0 kMaxSendBuffers) as Hin.
    { rewrite <- Hp, E. rewrite <- app_assoc. apply elem_of_app. right. by left. }
    apply elem_of_seq in Hin. unfold kMaxSendBuffers in Hin. lia. }
  rewrite wr_id_sum by lia. intros [= <- <- <-].
  assert (cn_pending c !! (cn_next_wr c * 65536 + Z.of_nat b) = None) as Hnone.
  { destruct (cn_pending c !! _) as [x|] eqn:Ex; [|done]. destruct (Hwr _ _ Ex) as (k & b' & ? & ? & ?). lia. }
  assert (wr_buf (cn_next_wr c * 65536 + Z.of_nat b) = b) as Hbuf.
  { rewrite wr_buf_sum by lia. lia. }
  assert (u64 (cn_next_wr c + 1) = cn_next_wr c + 1) as Hnext by (apply u64_small; lia).
  split_and!; [|done|done|done|exact Hnext]. split; cbn [cn_free_send cn_pending cn_next_wr].
  - rewrite <- Hp. trans ((removelast (cn_free_send c) ++ [b]) ++ in_flight c); [|by rewrite <- E].
    unfold in_flight. cbn [cn_pending].
    rewrite map_to_list_insert, !fmap_cons by done. cbn [fst]. rewrite Hbuf. by rewrite <- app_assoc.
  - intros wr x [[<- <-]|[_ Hx]]%lookup_insert_Some.
    + exists (cn_next_wr c), (Z.of_nat b). rewrite Hnext. lia.
    + destruct (Hwr _ _ Hx) as (k & b' & ? & ? & ?). exists k, b'. rewrite Hnext. lia.
  - rewrite Hnext. lia.
Qed.

Lemma complete_ok wr c pr :
  conn_ok c → cn_pending c !! wr = Some pr →
  conn_ok (complete wr c).2 ∧ (complete wr c).1 = Some pr ∧
  cn_pending (complete wr c).2 = delete wr (cn_pending c) ∧ cn_next_wr (complete wr c).2 = cn_next_wr c.
Proof.
  intros [Hp Hwr Hn] E. unfold complete. rewrite E. cbn [fst snd].
  split_and!; [|done|done|done]. split; cbn [cn_free_send cn_pending cn_next_wr].
  - rewrite <- Hp. unfold in_flight. cbn [cn_pending].
    rewrite <- (map_to_list_delete (cn_pending c) wr pr E), !fmap_cons. by rewrite <- app_assoc.
  - intros wr' x [_ Hx]%lookup_delete_Some. by apply (Hwr wr' x).
  - done.
Qed.

(** ** Promises *)

Definition pending_at (st : Rdma) (peer : string) (wr : Z) (pr : nat) : Prop :=
  ∃ c, rd_outbound st !! peer = Some c ∧ cn_pending c !! wr = Some pr.

(** Every connection's ring is partitioned into free buffers and buffers in
    flight; a promise is resolved at most once, not while a send that carries
    it is in flight, and it is carried by at most one send. *)
Record rdma_ok (B : Z) (st : Rdma) : Prop := {
  ro_conns peer c : rd_outbound st !! peer = Some c →
    conn_ok c ∧ cn_next_wr c ≤ B;
  ro_once : NoDup (rd_resolved st).*1;
  ro_resolved pr : pr ∈ (rd_resolved st).*1 → (pr < rd_next_promise st)%nat;
  ro_pending peer wr pr : pending_at st peer wr pr →
    (pr < rd_next_promise st)%nat ∧ pr ∉ (rd_resolved st).*1;
  ro_unique p1 w1 p2 w2 pr :
    pending_at st p1 w1 pr → pending_at st p2 w2 pr → p1 = p2 ∧ w1 = w2
}.

(** A promise that was created and neither sent nor resolved. *)
Definition unused (st : Rdma) (pr : nat) : Prop :=
  (pr < rd_next_promise st)%nat ∧ pr ∉ (rd_resolved st).*1 ∧ ∀ peer wr, ¬ pending_at st peer wr pr.

Lemma no_conns msg_bytes peers p c : rd_outbound (make_rdma msg_bytes peers) !! p ≠ Some c.
Proof. unfold make_rdma. cbn [rd_outbound]. by rewrite lookup_empty. Qed.

Lemma make_rdma_ok msg_bytes peers : rdma_ok 1 (make_rdma msg_bytes peers).
Proof.
  split; cbn.
  - intros peer c. by rewrite lookup_empty.
  - constructor.
  - intros pr H. by apply not_elem_of_nil in H.
  - intros peer wr pr (c & Hc & _). by apply no_conns in Hc.
  - intros p1 w1 p2 w2 pr (c & Hc & _). by apply no_conns in Hc.
Qed.

Lemma rdma_ok_mono B B' st : rdma_ok B st → B ≤ B' → rdma_ok B' st.
Proof. intros [H1 H2 H3 H4 H5] HB. split; try done. intros p c Hc. destruct (H1 p c Hc). split; [done|lia]. Qed.

Lemma count_ok B k st : rdma_ok B st → rdma_ok B (count k st).
Proof. intros []. by split. Qed.

Lemma with_grpc_ok B g st : rdma_ok B st → rdma_ok B (with_grpc st g).
Proof. intros []. by split. Qed.

Lemma set_stop_ok B st : rdma_ok B st → rdma_ok B (set_stop st).
Proof. intros []. by split. Qed.

Lemma resolve_ok B pr b st : rdma_ok B st → unused st pr → rdma_ok B (resolve pr b st).
Proof.
  intros [H1 H2 H3 H4 H5] (Hlt & Hnin & Hnp). split; cbn [rd_outbound rd_next_promise rd_resolved resolve];
    rewrite ?fmap_app; cbn [fmap list_fmap fst].
  - done.
  - apply NoDup_app. split; [done|]. split; [|apply NoDup_singleton].
    intros x Hx ->%list_elem_of_singleton. done.
  - intros x [Hx|Hx%list_elem_of_singleton]%elem_of_app; [by apply H3|by subst].
  - intros peer wr x Hx. destruct (H4 peer wr x Hx) as [? Hn]. split; [done|].
    intros [?|E%list_elem_of_singleton]%elem_of_app; [done|]. subst. by apply (Hnp peer wr).
  - done.
Qed.

Lemma new_promise_ok B st : rdma_ok B st → let '(pr, st') := new_promise st in rdma_ok B st' ∧ unused st' pr.
Proof.
  intros [H1 H2 H3 H4 H5]. split.
  - split; cbn [rd_outbound rd_next_promise rd_resolved].
    + done.
    + done.
    + intros x Hx. specialize (H3 x Hx). lia.
    + intros peer wr x Hx. destruct (H4 peer wr x Hx). split; [lia|done].
    + done.
  - split_and!; cbn [rd_outbound rd_next_promise rd_resolved].
    + lia.
    + intros Hx%H3. lia.
    + intros peer wr Hx. destruct (H4 peer wr _ Hx). lia.
Qed.

Lemma pending_at_conn st peer c' p w x :
  pending_at (with_outbound st (<[peer := c']> (rd_outbound st))) p w x ↔
  p = peer ∧ cn_pending c' !! w = Some x ∨ p ≠ peer ∧ pending_at st p w x.
Proof.
  unfold pending_at. cbn [rd_outbound with_outbound]. split.
  - intros (y & [[<- <-]|[Hne Hy]]%lookup_insert_Some & Hx); [by left|right]. split; [done|by exists y].
  - intros [[-> Hx]|[Hne (y & Hy & Hx)]].
    + exists c'. by rewrite lookup_insert_eq.
    + exists y. by rewrite lookup_insert_ne.
Qed.

(** Replacing a connection by one with a subset of its pending sends. *)
Lemma with_conn_ok B st peer c c' :
  rdma_ok B st → rd_outbound st !! peer = Some c → conn_ok c' → cn_next_wr c' = cn_next_wr c →
  cn_pending c' ⊆ cn_pending c → rdma_ok B (with_outbound st (<[peer := c']> (rd_outbound st))).
Proof.
  intros [H1 H2 H3 H4 H5] Hc Hok Hn Hsub.
  assert (∀ p w x, pending_at (with_outbound st (<[peer := c']> (rd_outbound st))) p w x → pending_at st p w x) as Hp.
  { intros p w x [[-> Hx]|[_ Hx]]%pending_at_conn; [|done].
    exists c. split; [done|]. by eapply lookup_weaken. }
  split; cbn [rd_outbound with_outbound rd_next_promise rd_resolved].
  - intros p x [[<- <-]|[_ Hx]]%lookup_insert_Some; [|by apply (H1 p)].
    split; [done|]. rewrite Hn. by apply (H1 peer).
  - done.
  - done.
  - intros p w x Hx. by apply (H4 p w), Hp.
  - intros p1 w1 p2 w2 x Hx1%Hp Hx2%Hp. by apply (H5 _ _ _ _ x).
Qed.

Lemma unused_with_conn st peer c c' pr :
  unused st pr → rd_outbound st !! peer = Some c → cn_pending c' ⊆ cn_pending c →
  unused (with_outbound st (<[peer := c']> (rd_outbound st))) pr.
Proof.
  intros (Hlt & Hnin & Hnp) Hc Hsub. split_and!; [done|done|].
  intros p w [[-> Hx]|[_ Hx]]%pending_at_conn.
  - apply (Hnp peer w). exists c. split; [done|]. by eapply lookup_weaken.
  - by apply (Hnp p w).
Qed.

(** Completions. *)
Lemma poll_one_ok B peer st wc :
  rdma_ok B st →
  rdma_ok B (poll_one peer st wc) ∧ (∀ pr, unused st pr → unused (poll_one peer st wc) pr) ∧
  rd_next_promise (poll_one peer st wc) = rd_next_promise st.
Proof.
  intros Hok. unfold poll_one. destruct (rd_outbound st !! peer) as [c|] eqn:Hc; [|done].
  destruct (ro_conns B st Hok peer c Hc) as [Hcok _].
  destruct (cn_pending c !! wc.1) as [x|] eqn:Hx.
  - destruct (complete_ok wc.1 c x Hcok Hx) as (Hok' & Hpr & Hpend & Hnext).
    destruct (complete wc.1 c) as [o c']. cbn [fst snd] in *. subst o.
    assert (cn_pending c' ⊆ cn_pending c) as Hsub by (rewrite Hpend; apply delete_subseteq).
    pose proof (with_conn_ok B st peer c c' Hok Hc Hok' Hnext Hsub) as H1.
    assert (unused (with_outbound st (<[peer := c']> (rd_outbound st))) x) as H3.
    { destruct (ro_pending B st Hok peer wc.1 x) as [Hlt Hn]; [by exists c|]. split_and!; [done|done|].
      intros p w [[-> Hw]|[Hne Hw]]%pending_at_conn.
      - rewrite Hpend in Hw. apply lookup_delete_Some in Hw as [Hw1 Hw2].
        destruct (ro_unique B st Hok peer wc.1 peer w x) as [_ E]; [by exists c|by exists c|done].
      - destruct (ro_unique B st Hok peer wc.1 p w x) as [E _]; [by exists c|done|]. by subst. }
    split_and!; [by apply count_ok, resolve_ok| |done]. intros pr Hu.
    assert (pr ≠ x) as Hne.
    { intros ->. destruct Hu as (_ & _ & Hnp). apply (Hnp peer wc.1). by exists c. }
    pose proof (unused_with_conn st peer c c' pr Hu Hc Hsub) as H2. destruct H2 as (Ha & Hb & Hd). split_and!; [exact Ha| |exact Hd].
    cbn. rewrite fmap_app. cbn. intros [?|E%list_elem_of_singleton]%elem_of_app; done.
  - unfold complete. rewrite Hx.
    split_and!; [apply count_ok, (with_conn_ok B st peer c); done| |done].
    intros pr Hu. by apply (unused_with_conn st peer c c).
Qed.

Lemma PollOutbound_ok B peer wcs st :
  rdma_ok B st →
  rdma_ok B (PollOutbound peer wcs st) ∧ (∀ pr, unused st pr → unused (PollOutbound peer wcs st) pr) ∧
  rd_next_promise (PollOutbound peer wcs st) = rd_next_promise st.
Proof.
  unfold PollOutbound. revert st. induction wcs as [|wc wcs IH]; intros st Hok; [done|].
  cbn [fold_left]. destruct (poll_one_ok B peer st wc Hok) as (H1 & H2 & H3).
  destruct (IH _ H1) as (? & ? & E). split_and!; [done|by auto|congruence].
Qed.

(** Dialling. *)
Lemma EnsureOutbound_ok B dial peer st :
  1 ≤ B → rdma_ok B st →
  let '(connected, st') := EnsureOutbound dial peer st in
  rdma_ok B st' ∧ (∀ pr, unused st pr → unused st' pr) ∧ rd_next_promise st' = rd_next_promise st ∧
  (connected = true → is_Some (rd_outbound st' !! peer)).
Proof.
  intros HB Hok. unfold EnsureOutbound. destruct (rd_outbound st !! peer) as [c|] eqn:Hc.
  { split_and!; [done|done|done|]. intros _. rewrite Hc. by eexists. }
  destruct (rd_peers st !! peer) as [ep|]; [destruct dial|]; [|done..].
  assert (∀ p w x, pending_at (with_outbound st (<[peer := new_conn (rd_msg_bytes st)]> (rd_outbound st))) p w x →
    pending_at st p w x) as Hp.
  { intros p w x [[_ Hx]|[_ Hx]]%pending_at_conn; [|done]. simpl in Hx. by rewrite lookup_empty in Hx. }
  destruct Hok as [H1 H2 H3 H4 H5]. split_and!; [|  |done|].
  - split; cbn [rd_outbound with_outbound rd_next_promise rd_resolved].
    + intros p x [[<- <-]|[_ Hx]]%lookup_insert_Some; [|by apply (H1 p)].
      split; [apply new_conn_ok|simpl; lia].
    + done.
    + done.
    + intros p w x Hx. by apply (H4 p w), Hp.
    + intros p1 w1 p2 w2 x Hx1%Hp Hx2%Hp. by apply (H5 _ _ _ _ x).
  - intros pr (Ha & Hb & Hd). split_and!; [done|done|]. intros p w Hx%Hp. by apply (Hd p w).
  - intros _. cbn [rd_outbound with_outbound]. rewrite lookup_insert_eq. by eexists.
Qed.

(** Waiting for a buffer ends with the promise in flight on a buffer of its
    own, or unused. *)
Lemma acquire_loop_ok B attempts waits pr peer st :
  rdma_ok B st → unused st pr → B < 2 ^ 48 - 1 →
  let '(got, st') := acquire_loop attempts waits pr peer st in
  rdma_ok (B + 1) st' ∧ rd_next_promise st' = rd_next_promise st ∧
  match got with
  | Some (buf, wr) => pending_at st' peer wr pr ∧ wr_buf wr = buf
  | None => unused st' pr
  end.
Proof.
  revert waits st. induction attempts as [|attempts IH]; intros waits st Hok Hu Hlt.
  { split; [apply (rdma_ok_mono B); [done|lia]|]. done. }
  cbn [acquire_loop]. destruct (rd_outbound st !! peer ≫= acquire pr) as [[[buf wr] c']|] eqn:E.
  2:{ destruct (PollOutbound_ok B peer (default [] (head waits)) st Hok) as (H1 & H2 & H3).
      specialize (IH (tail waits) _ H1 (H2 _ Hu) Hlt). by rewrite H3 in IH. }
  apply bind_Some in E as (c & Hc & Hacq).
  destruct (ro_conns B st Hok peer c Hc) as [Hcok Hnext].
  destruct (acquire_ok pr c buf wr c' Hcok ltac:(lia) Hacq) as (Hcok' & Hnone & Hpend & Hbuf & Hn').
  destruct Hok as [H1 H2 H3 H4 H5], Hu as (Hltp & Hnin & Hnp). split; [|split; [done|]].
  - split; cbn [rd_outbound with_outbound rd_next_promise rd_resolved].
    + intros p x [[<- <-]|[_ Hx]]%lookup_insert_Some; [split; [done|lia]|].
      destruct (H1 p x Hx). split; [done|lia].
    + done.
    + done.
    + intros p w x [[-> Hx]|[_ Hx]]%pending_at_conn; [|by apply (H4 p w)].
      rewrite Hpend in Hx. apply lookup_insert_Some in Hx as [[_ <-]|[_ Hx]]; [done|].
      apply (H4 peer w). by exists c.
    + assert (∀ p w, pending_at (with_outbound st (<[peer := c']> (rd_outbound st))) p w pr → p = peer ∧ w = wr) as Hpr.
      { intros p w [[-> Hx]|[_ Hx]]%pending_at_conn; [|by destruct (Hnp p w)]. split; [done|].
        rewrite Hpend in Hx. apply lookup_insert_Some in Hx as [[-> _]|[_ Hx]]; [done|].
        destruct (Hnp peer w). by exists c. }
      assert (∀ p w x, x ≠ pr → pending_at (with_outbound st (<[peer := c']> (rd_outbound st))) p w x → pending_at st p w x) as Hold.
      { intros p w x Hne [[-> Hx]|[_ Hx]]%pending_at_conn; [|done].
        rewrite Hpend in Hx. apply lookup_insert_Some in Hx as [[_ <-]|[_ Hx]]; [done|]. by exists c. }
      intros p1 w1 p2 w2 x Hx1 Hx2. destruct (decide (x = pr)) as [->|Hne].
      * destruct (Hpr _ _ Hx1) as [-> ->], (Hpr _ _ Hx2) as [-> ->]. done.
      * apply (H5 _ _ _ _ x); by apply Hold.
  - split; [|done]. exists c'. cbn [rd_outbound with_outbound]. rewrite lookup_insert_eq.
    split; [done|]. by rewrite Hpend, lookup_insert_eq.
Qed.

Lemma alter_conn (o : gmap string Conn) peer c f : o !! peer = Some c → alter f peer o = <[peer := f c]> o.
Proof. intros Hc. rewrite <- (insert_id o peer c Hc) at 1. by rewrite alter_insert_eq. Qed.

(** Taking a promise out of flight leaves it unused. *)
Lemma unpost_ok B st peer wr pr :
  rdma_ok B st → pending_at st peer wr pr →
  let st' := with_outbound st (alter (unpost (wr_buf wr) wr) peer (rd_outbound st)) in
  rdma_ok B st' ∧ unused st' pr.
Proof.
  intros Hok (c & Hc & Hp). cbn. rewrite (alter_conn _ _ c) by done.
  destruct (ro_conns B st Hok peer c Hc) as [Hcok _].
  destruct (complete_ok wr c pr Hcok Hp) as (Hok' & _ & Hpend & Hnext).
  assert ((complete wr c).2 = unpost (wr_buf wr) wr c) as E by (unfold complete; by rewrite Hp).
  rewrite E in *. split.
  - apply (with_conn_ok B st peer c); [done..|]. rewrite Hpend. apply delete_subseteq.
  - destruct (ro_pending B st Hok peer wr pr) as [Hlt Hn]; [by exists c|]. split_and!; [done|done|].
    intros p w [[-> Hw]|[Hne Hw]]%pending_at_conn.
    + rewrite Hpend in Hw. apply lookup_delete_Some in Hw as [Hw1 Hw2].
      destruct (ro_unique B st Hok peer wr peer w pr) as [_ ?]; [by exists c|by exists c|done].
    + destruct (ro_unique B st Hok peer wr p w pr) as [? _]; [by exists c|done|]. by subst.
Qed.

(** Writing into a buffer touches nothing else. *)
Lemma write_ok B st peer wr pr buf f :
  rdma_ok B st → pending_at st peer wr pr →
  let st' := with_outbound st (alter (write_buf buf f) peer (rd_outbound st)) in
  rdma_ok B st' ∧ pending_at st' peer wr pr.
Proof.
  intros Hok (c & Hc & Hp). cbn. rewrite (alter_conn _ _ c) by done. split.
  - destruct (ro_conns B st Hok peer c Hc) as [[H1 H2 H3] _].
    apply (with_conn_ok B st peer c); [done|done|by split|done|done].
  - apply pending_at_conn. by left.
Qed.

Lemma Send_ok B dial posted waits peer id purpose data st :
  rdma_ok B st → 1 ≤ B < 2 ^ 48 - 1 →
  rdma_ok (B + 1) (Send dial posted waits peer id purpose data st).2.
Proof.
  intros Hok HB. unfold Send. pose proof (new_promise_ok B st Hok) as Hnew.
  destruct (new_promise st) as [pr st1]. destruct Hnew as [H1 Hu1].
  assert (∀ st', rdma_ok B st' → rdma_ok (B + 1) st') as Hmono.
  { intros st' H. apply (rdma_ok_mono B); [done|lia]. }
  case_match; [by apply Hmono, resolve_ok|].
  pose proof (EnsureOutbound_ok B dial peer st1 ltac:(lia) H1) as He.
  destruct (EnsureOutbound dial peer st1) as [connected st2]. destruct He as (H2 & Hu2 & _ & _).
  destruct connected; cbn [negb]; [|by apply Hmono, resolve_ok; [apply count_ok|apply Hu2]].
  pose proof (acquire_loop_ok B kSendAttempts waits pr peer st2 H2 (Hu2 _ Hu1) ltac:(lia)) as Ha.
  destruct (acquire_loop kSendAttempts waits pr peer st2) as [[[buf wr]|] st3]; destruct Ha as (H3 & _ & Hp).
  - destruct Hp as [Hp <-].
    destruct (write_ok (B + 1) st3 peer wr pr (wr_buf wr) (stage id purpose data) H3 Hp) as [H4 Hp4].
    destruct posted; [by apply count_ok|].
    destruct (unpost_ok (B + 1) _ peer wr pr H4 Hp4) as [H5 Hu5]. by apply resolve_ok.
  - apply resolve_ok; [by apply count_ok|done].
Qed.

(** ** Runs *)

Inductive RdmaEvent : Type :=
| RSend (dial posted : bool) (waits : list (list (Z * bool))) (peer : string) (id : BlockId)
    (purpose : StreamPurpose) (data : bytes)
| RPoll (peer : string) (wcs : list (Z * bool))
| RConnect (peer address : string)
| RDisconnect (peer : string)
| RShutdown.

Definition rdma_step (st : Rdma) (e : RdmaEvent) : Rdma :=
  match e with
  | RSend dial posted waits peer id purpose data => (Send dial posted waits peer id purpose data st).2
  | RPoll peer wcs => PollOutbound peer wcs st
  | RConnect peer address => Connect peer address st
  | RDisconnect peer => Disconnect peer st
  | RShutdown => Shutdown st
  end.

(** Dropping connections. *)
Lemma fewer_conns_ok B st o : rdma_ok B st → o ⊆ rd_outbound st → rdma_ok B (with_outbound st o).
Proof.
  intros [H1 H2 H3 H4 H5] Hsub.
  assert (∀ p w x, pending_at (with_outbound st o) p w x → pending_at st p w x) as Hp.
  { intros p w x (c & Hc & Hx). exists c. split; [|done]. by eapply lookup_weaken. }
  split; cbn [rd_outbound with_outbound rd_next_promise rd_resolved].
  - intros p c Hc. apply (H1 p). by eapply lookup_weaken.
  - done.
  - done.
  - intros p w x Hx. by apply (H4 p w), Hp.
  - intros p1 w1 p2 w2 x Hx1%Hp Hx2%Hp. by apply (H5 _ _ _ _ x).
Qed.

Lemma rdma_step_ok B st e : rdma_ok B st → 1 ≤ B < 2 ^ 48 - 1 → rdma_ok (B + 1) (rdma_step st e).
Proof.
  intros Hok HB. destruct e as [dial posted waits peer id purpose data|peer wcs|peer addr|peer|];
    cbn [rdma_step]; [by apply Send_ok|apply (rdma_ok_mono B); [|lia]..].
  - by apply PollOutbound_ok.
  - by apply with_grpc_ok.
  - apply fewer_conns_ok; [by apply with_grpc_ok|apply delete_subseteq].
  - unfold Shutdown. destruct (rd_stop st); [done|].
    apply fewer_conns_ok; [by apply with_grpc_ok, set_stop_ok|apply map_empty_subseteq].
Qed.

(** The send ring: in every run of sends, completions, connects, disconnects
    and shutdowns, each connection's buffers are split into free ones and ones
    with a send in flight, so that no two sends share a buffer and none is
    lost; and no promise is set twice or set while its send is in flight. *)
Theorem ibverbs_send_ring msg_bytes peers evs :
  Z.of_nat (length evs) < 2 ^ 47 →
  let st := fold_left rdma_step evs (make_rdma msg_bytes peers) in
  (∀ peer c, rd_outbound st !! peer = Some c → cn_free_send c ++ in_flight c ≡ₚ seq 0 kMaxSendBuffers) ∧
  NoDup (rd_resolved st).*1 ∧
  (∀ peer wr pr, pending_at st peer wr pr → pr ∉ (rd_resolved st).*1) ∧
  (∀ p1 w1 p2 w2 pr, pending_at st p1 w1 pr → pending_at st p2 w2 pr → p1 = p2 ∧ w1 = w2).
Proof.
  intros Hlen st.
  assert (∀ B st0, rdma_ok B st0 → 1 ≤ B → B + Z.of_nat (length evs) < 2 ^ 48 - 1 →
    ∃ B', rdma_ok B' (fold_left rdma_step evs st0)) as Hrun.
  { clear. induction evs as [|e evs IH]; intros B st0 Hok H1 H2; [by exists B|]. cbn [fold_left length] in *.
    apply (IH (B + 1)); [apply rdma_step_ok; [done|lia]|lia|lia]. }
  destruct (Hrun 1 _ (make_rdma_ok msg_bytes peers) ltac:(lia) ltac:(lia)) as [B [H1 H2 H3 H4 H5]].
  split_and!; [|done| |done].
  - intros peer c Hc. apply co_partition, (H1 peer c Hc).
  - intros peer wr pr Hp. by apply (H4 peer wr pr).
Qed.

(** ** Concrete runs *)

Lemma ibverbs_wire_roundtrip_witness :
  let wire := take (kHeaderBytes + 2) (stage Routing.wit_bid ReadRepair [Byte.x0a; Byte.x0b] []) in
  HandleRecv (wire ++ [Byte.xff]) (size_of wire) = Some (Routing.wit_bid, [Byte.x0a; Byte.x0b], 1) ∧
  HandleRecv wire 61 = None.
Proof.
  destruct (ibverbs_wire_roundtrip Routing.wit_bid ReadRepair [Byte.x0a; Byte.x0b] [] [Byte.xff] wit_node)
    as (_ & Hr & _ & _); [by vm_compute|done|]. split; [exact Hr|by vm_compute].
Defined.

Example ParsePeerEnv_cases :
  (ParsePeerEnv (Some "b@10.0.0.2:7471,bad,c@10.0.0.3:65537,") ≫= (.!! "c")) = Some ("10.0.0.3", 1) ∧
  ParsePeerEnv (Some "b@10.0.0.2:x") = None.
Proof. split; by vm_compute. Qed.

(** Two sends to a peer, the completion of the first and one that cannot be
    posted. *)
Definition wit_send (posted : bool) : RdmaEvent :=
  RSend true posted [] "b" Routing.wit_bid ReplicationPush [Byte.x01].

Definition wit_run : list RdmaEvent :=
  [wit_send true; wit_send true; RPoll "b" [(65536 + 7, true)]; wit_send false].

Lemma ibverbs_send_ring_witness :
  let st := fold_left rdma_step wit_run (make_rdma 16 {["b" := ("10.0.0.2", 7471)]}) in
  NoDup (rd_resolved st).*1 ∧ rd_resolved st = [(0%nat, true); (2%nat, false)] ∧
  cn_free_send <$> rd_outbound st !! "b" = Some [0; 1; 2; 3; 4; 5; 7]%nat.
Proof.
  destruct (ibverbs_send_ring 16 {["b" := ("10.0.0.2", 7471)]} wit_run) as (_ & Hnd & _); [done|].
  split; [exact Hnd|]. split; by vm_compute.
Defined.
