(* ===== verification/RdmaReceive.v ===== *)
(** * Receiving and connecting over RDMA (ibverbs_transport.cpp)

    The receive side of the transport: the registered receive buffers, the
    receive queue of an accepted connection, the poller that hands messages on
    and posts their buffers again, the listener, and the handshakes.  What the
    verbs library answers is an argument: the key of a registered buffer or
    none, whether a call succeeds, which events and completions it reports.
    A null memory region that is dereferenced ends the process; the functions
    that can reach one return [None] for it.

    [Pipe] puts a dialled and an accepted connection together with what a
    reliable connection between them does: a posted send is transmitted in
    order, from the send buffer as it is at that moment, into the oldest posted
    receive buffer, and waits while there is none. *)
From Stdlib Require Import Ascii.
From S2P Require Import Prelude Types Text SsdLayout Cache Rpc GrpcTransport Ibverbs.

Definition kMaxRecvBuffers : nat := 16.
Definition kPollBatch : nat := 16.

(** ** Buffers *)

Record RegBuf : Type := mkRegBuf { rb_mem : bytes; rb_mr : option Z }.

Definition MsgCap (msg_bytes : Z) : nat := kHeaderBytes + Z.to_nat msg_bytes.

(** A failed registration is only reported. *)
Definition MakeBuf (msg_bytes : Z) (reg : option Z) : RegBuf :=
  mkRegBuf (replicate (MsgCap msg_bytes) Byte.x00) reg.

(** An accepted connection: its buffers, the receive requests on its queue
    pair (number, length and key of each, oldest first) and its stop flag. *)
Record RecvWr : Type := mkRecvWr { rw_id : nat; rw_length : Z; rw_lkey : Z }.

Record InConn : Type := mkInConn {
  ic_bufs : list RegBuf;
  ic_rq : list RecvWr;
  ic_stop : bool
}.

Definition with_rq (c : InConn) (q : list RecvWr) : InConn := mkInConn (ic_bufs c) q (ic_stop c).

(** [posted] is the answer of [ibv_post_recv]. *)
Definition PostRecv (posted : bool) (idx : nat) (c : InConn) : option (bool * InConn) :=
  b ← ic_bufs c !! idx;
  lkey ← rb_mr b;
  Some (if posted then (true, with_rq c (ic_rq c ++ [mkRecvWr idx (u32 (size_of (rb_mem b))) lkey]))
        else (false, c)).

(** One round of the loop that sets an accepted connection up. *)
Definition setup_one (msg_bytes : Z) (c : option InConn) (a : nat * (option Z * bool)) : option InConn :=
  c ← c;
  snd <$> PostRecv a.2.2 a.1 (mkInConn (ic_bufs c ++ [MakeBuf msg_bytes a.2.1]) (ic_rq c) (ic_stop c)).

(** [answers] are the registration and the post of each buffer. *)
Definition SetupInbound (msg_bytes : Z) (answers : nat → option Z * bool) (c : InConn) : option InConn :=
  fold_left (setup_one msg_bytes) ((λ i, (i, answers i)) <$> seq 0 kMaxRecvBuffers) (Some c).

(** ** The poller *)

(** A completion: its request, status, opcode and length, and what
    [ibv_post_recv] answers when its buffer is posted again. *)
Record RecvWc : Type := mkRecvWc {
  wc_id : nat;
  wc_ok : bool;
  wc_recv : bool;
  wc_len : Z;
  wc_repost : bool
}.

(** The state that the poller changes: the connection, the counter of received
    messages and the calls of [on_receive], in order. *)
Record Recv : Type := mkRecv {
  rv_conn : InConn;
  rv_count : Z;
  rv_got : list (BlockId * bytes * Z)
}.

Definition handle (mem : bytes) (len : Z) (s : Recv) : Recv :=
  match HandleRecv mem len with
  | Some m => mkRecv (rv_conn s) (rv_count s +₆₄ 1) (rv_got s ++ [m])
  | None => s
  end.

Definition poll_in_one (s : option Recv) (w : RecvWc) : option Recv :=
  s ← s;
  if negb (wc_ok w) then Some s
  else if negb (wc_recv w) then Some s
  else
    b ← ic_bufs (rv_conn s) !! wc_id w;
    let s := handle (rb_mem b) (wc_len w) s in
    '(_, c) ← PostRecv (wc_repost w) (wc_id w) (rv_conn s);
    Some (mkRecv c (rv_count s) (rv_got s)).

(** The loop, over what successive polls return; a negative count ends it, as
    does the stop flag that is read before each poll. *)
Fixpoint PollInbound (polls : list (bool * option (list RecvWc))) (s : Recv) : option Recv :=
  match polls with
  | [] => Some s
  | (true, _) :: _ => Some s
  | (false, None) :: _ => Some s
  | (false, Some wcs) :: rest =>
      s' ← fold_left poll_in_one (take kPollBatch wcs) (Some s);
      PollInbound rest s'
  end.

(** ** Connecting *)

(** What the verbs library has allocated. *)
Inductive Resource : Type := EventChannel | CmId | Pd | Cq | Qp.

#[export] Instance Resource_eq_dec : EqDecision Resource.
Proof. solve_decision. Defined.

Record QpAnswers : Type := mkQpAnswers { qa_pd : bool; qa_cq : bool; qa_qp : bool }.

(** Success, and what was allocated: a later failure releases nothing. *)
Definition MakeQp (a : QpAnswers) : bool * list Resource :=
  if negb (qa_pd a) then (false, [])
  else if negb (qa_cq a) then (false, [Pd])
  else if negb (qa_qp a) then (false, [Pd; Cq])
  else (true, [Pd; Cq; Qp]).

Inductive CmEvent : Type := AddrResolved | RouteResolved | Established | OtherEvent.

#[export] Instance CmEvent_eq_dec : EqDecision CmEvent.
Proof. solve_decision. Defined.

(** The event that arrives, [None] when none can be read. *)
Definition await (want : CmEvent) (ev : option CmEvent) : bool := bool_decide (ev = Some want).

Record DialAnswers : Type := mkDialAnswers {
  da_channel : bool;
  da_create_id : bool;
  da_resolve_addr : bool;
  da_event1 : option CmEvent;
  da_resolve_route : bool;
  da_event2 : option CmEvent;
  da_qp : QpAnswers;
  da_connect : bool;
  da_event3 : option CmEvent
}.

(** The connection, and what stays allocated when [Dial] returns.  Once the
    connection has its poller, a failure of the handshake destroys it with the
    thread still joinable, which ends the process: [None]. *)
Definition Dial (msg_bytes : Z) (a : DialAnswers) : option (option Conn * list Resource) :=
  if negb (da_channel a) then Some (None, [])
  else if negb (da_create_id a) then Some (None, [])
  else if negb (da_resolve_addr a) then Some (None, [EventChannel; CmId])
  else if negb (await AddrResolved (da_event1 a)) then Some (None, [EventChannel; CmId])
  else if negb (da_resolve_route a) then Some (None, [EventChannel; CmId])
  else if negb (await RouteResolved (da_event2 a)) then Some (None, [EventChannel; CmId])
  else
    let '(made, res) := MakeQp (da_qp a) in
    let held := EventChannel :: CmId :: res in
    if negb made then Some (None, held)
    else
      let c := new_conn msg_bytes in
      if negb (da_connect a) then None
      else if negb (await Established (da_event3 a)) then None
      else Some (Some c, held).

(** What [Disconnect] and [Shutdown] release of a connection. *)
Definition teardown (held : list Resource) : list Resource :=
  filter (λ r, r ≠ Qp ∧ r ≠ Cq ∧ r ≠ Pd) held.

(** ** The listener *)

(** A connection request with the answers that setting it up meets, a
    disconnection with the connection that the identifier's context names, or
    another event. *)
Inductive ListenEvent : Type :=
| ConnectRequest (qp : QpAnswers) (bufs : nat → option Z * bool) (accepted : bool)
| Disconnected (context : option nat)
| OtherListenEvent.

Definition stop_conn (c : InConn) : InConn := mkInConn (ic_bufs c) (ic_rq c) true.

(** A connection whose acceptance failed is kept all the same. *)
Definition listen_one (msg_bytes : Z) (inbound : list InConn) (e : ListenEvent) : option (list InConn) :=
  match e with
  | ConnectRequest qp bufs _ =>
      if (MakeQp qp).1 then
        c ← SetupInbound msg_bytes bufs (mkInConn [] [] false);
        Some (inbound ++ [c])
      else Some inbound
  | Disconnected (Some i) => Some (alter stop_conn i inbound)
  | Disconnected None => Some inbound
  | OtherListenEvent => Some inbound
  end.

(** The loop, over the stop flag and the event that each round reads; [None]
    when the channel is closed. *)
Fixpoint ListenLoop (msg_bytes : Z) (events : list (bool * option ListenEvent)) (inbound : list InConn) :
    option (list InConn) :=
  match events with
  | [] => Some inbound
  | (true, _) :: _ => Some inbound
  | (false, None) :: _ => Some inbound
  | (false, Some e) :: rest => inbound' ← listen_one msg_bytes inbound e; ListenLoop msg_bytes rest inbound'
  end.

(** ** The whole transport *)

Record Listener : Type := mkListener {
  li_ip : string;
  li_port : Z;
  li_channel : bool;
  li_id : bool;
  li_thread : bool
}.

Record Transport : Type := mkTransport {
  tr_out : Rdma;
  tr_listener : Listener;
  tr_inbound : list InConn
}.

(** The endpoint to listen on; a bad port is an exception. *)
Definition listen_of_env (l : option string) : option Listener :=
  match l with
  | None => Some (mkListener "" 0 false false false)
  | Some s =>
      match cut_last ":" s with
      | None => Some (mkListener "" 0 false false false)
      | Some (ip, port) => p ← stoi port; Some (mkListener ip (p mod 2 ^ 16) false false false)
      end
  end.

Definition IbverbsTransport (listen peers msg_bytes : option string) : option Transport :=
  li ← listen_of_env listen; out ← rdma_of_env peers msg_bytes; Some (mkTransport out li []).

(** [a] answers the channel, the identifier, the bind and the listen call. *)
Definition Start (a : bool * bool * bool * bool) (t : Transport) : Transport :=
  let '(channel, id, bound, listening) := a in
  let li := tr_listener t in
  let set ch i th := mkTransport (tr_out t) (mkListener (li_ip li) (li_port li) ch i th) (tr_inbound t) in
  if bool_decide (li_ip li = ""%string) || (li_port li =? 0) then t
  else if negb channel then set false (li_id li) (li_thread li)
  else if negb id then set true false (li_thread li)
  else if negb bound then set true true (li_thread li)
  else if negb listening then set true true (li_thread li)
  else set true true true.

Definition TransportShutdown (t : Transport) : Transport :=
  if rd_stop (tr_out t) then t
  else
    let li := tr_listener t in
    mkTransport (Ibverbs.Shutdown (tr_out t)) (mkListener (li_ip li) (li_port li) false false false) [].

(** A pull goes over gRPC. *)
Definition RdmaFetch {W} (call_fetch : string → PbBlockId → W → option FetchResponse * W) (t : Transport)
    (peer_id : string) (id : BlockId) (w : W) : option KvBlock * W :=
  GrpcTransport.Fetch call_fetch (rd_grpc (tr_out t)) peer_id id w.

(** ** A connection end to end *)

(** A push: the promise of its send, identity, purpose and payload. *)
Record Push : Type := mkPush { pu_promise : nat; pu_id : BlockId; pu_purpose : StreamPurpose; pu_data : bytes }.

(** What [on_receive] is called with for it. *)
Definition received (m : Push) : BlockId * bytes * Z := (pu_id m, pu_data m, purpose_to_Z (pu_purpose m)).

Record Pipe : Type := mkPipe {
  pp_conn : Conn;              (* the dialled end *)
  pp_sq : list (Z * nat);      (* its send queue: request and length *)
  pp_acked : list Z;           (* transmitted, completion not polled *)
  pp_recv : Recv;              (* the accepted end *)
  pp_cq : list (nat * Z);      (* its completions that were not polled *)
  pp_sent : list Push;         (* the pushes that were posted *)
  pp_resolved : list nat       (* the promises that completions resolved *)
}.

Inductive PipeEvent : Type :=
| PSend (m : Push)
| PTransmit
| PSendDone
| PReceive.

(** [Send] on the established connection: the size check, one attempt to take
    a buffer, the copy and the post. *)
Definition pipe_send (msg_bytes : Z) (m : Push) (p : Pipe) : Pipe :=
  if Z.of_nat kHeaderBytes + size_of (pu_data m) >? Z.of_nat (MsgCap msg_bytes) then p
  else match acquire (pu_promise m) (pp_conn p) with
  | None => p
  | Some (buf, wr, c) =>
      mkPipe (write_buf buf (stage (pu_id m) (pu_purpose m) (pu_data m)) c)
        (pp_sq p ++ [(wr, (kHeaderBytes + length (pu_data m))%nat)]) (pp_acked p) (pp_recv p) (pp_cq p)
        (pp_sent p ++ [m]) (pp_resolved p)
  end.

(** [msg] written to the front of receive buffer [idx]. *)
Definition land (idx : nat) (msg : bytes) (c : InConn) : InConn :=
  mkInConn (alter (λ b, mkRegBuf (msg ++ drop (length msg) (rb_mem b)) (rb_mr b)) idx (ic_bufs c))
    (tail (ic_rq c)) (ic_stop c).

Definition pipe_transmit (p : Pipe) : Pipe :=
  match pp_sq p, ic_rq (rv_conn (pp_recv p)) with
  | (wr, len) :: sq, rw :: _ =>
      match cn_send_bufs (pp_conn p) !! wr_buf wr with
      | None => p
      | Some mem =>
          if Z.of_nat len >? rw_length rw then p
          else
            let r := pp_recv p in
            mkPipe (pp_conn p) sq (pp_acked p ++ [wr])
              (mkRecv (land (rw_id rw) (take len mem) (rv_conn r)) (rv_count r) (rv_got r))
              (pp_cq p ++ [(rw_id rw, Z.of_nat len)]) (pp_sent p) (pp_resolved p)
      end
  | _, _ => p
  end.

(** The sender's poller takes the oldest completion. *)
Definition pipe_send_done (p : Pipe) : Pipe :=
  match pp_acked p with
  | [] => p
  | wr :: acked =>
      let '(pr, c) := complete wr (pp_conn p) in
      mkPipe c (pp_sq p) acked (pp_recv p) (pp_cq p) (pp_sent p)
        (pp_resolved p ++ option_list pr)
  end.

(** The receiver's poller takes the oldest completion. *)
Definition pipe_receive (p : Pipe) : option Pipe :=
  match pp_cq p with
  | [] => Some p
  | (idx, len) :: cq =>
      r ← poll_in_one (Some (pp_recv p)) (mkRecvWc idx true true len true);
      Some (mkPipe (pp_conn p) (pp_sq p) (pp_acked p) r cq (pp_sent p) (pp_resolved p))
  end.

Definition pipe_step (msg_bytes : Z) (p : option Pipe) (e : PipeEvent) : option Pipe :=
  p ← p;
  match e with
  | PSend m => Some (pipe_send msg_bytes m p)
  | PTransmit => Some (pipe_transmit p)
  | PSendDone => Some (pipe_send_done p)
  | PReceive => pipe_receive p
  end.

(** A connection that was just established, every buffer registered. *)
Definition new_pipe (msg_bytes : Z) (keys : nat → Z) : option Pipe :=
  c ← SetupInbound msg_bytes (λ i, (Some (keys i), true)) (mkInConn [] [] false);
  Some (mkPipe (new_conn msg_bytes) [] [] (mkRecv c 0 []) [] [] []).

Definition pipe_run (msg_bytes : Z) (keys : nat → Z) (evs : list PipeEvent) : option Pipe :=
  fold_left (pipe_step msg_bytes) evs (new_pipe msg_bytes keys).

(** ** Setting a connection up *)

Lemma SetupInbound_registered msg_bytes keys :
  SetupInbound msg_bytes (λ i, (Some (keys i), true)) (mkInConn [] [] false) =
  Some (mkInConn ((λ i, MakeBuf msg_bytes (Some (keys i))) <$> seq 0 kMaxRecvBuffers)
          ((λ i, mkRecvWr i (u32 (Z.of_nat (MsgCap msg_bytes))) (keys i)) <$> seq 0 kMaxRecvBuffers) false).
Proof.
  unfold SetupInbound. generalize kMaxRecvBuffers as n. induction n as [|n IH]; [done|].
  rewrite seq_S, !fmap_app, fold_left_app, IH. cbn [fold_left fmap list_fmap].
  unfold setup_one, PostRecv. cbn [mbind option_bind ic_bufs ic_rq ic_stop fst snd].
  rewrite lookup_app_r by (by rewrite length_fmap, length_seq).
  rewrite length_fmap, length_seq, Nat.add_0_l, Nat.sub_diag.
  cbn [lookup list_lookup nth_error MakeBuf rb_mr rb_mem mbind option_bind]. unfold size_of.
  by rewrite length_replicate.
Qed.

(** A buffer whose registration failed ends the process when it is posted. *)
Lemma SetupInbound_unregistered msg_bytes answers :
  (answers 0%nat).1 = None → SetupInbound msg_bytes answers (mkInConn [] [] false) = None.
Proof.
  intros H. assert (∀ l, fold_left (setup_one msg_bytes) l None = None) as Hnone.
  { intros l. by induction l. }
  unfold SetupInbound. rewrite <- (Hnone ((λ i, (i, answers i)) <$> seq 1 15)).
  cbn [seq fmap list_fmap fold_left kMaxRecvBuffers]. do 15 f_equal.
  unfold setup_one, PostRecv. cbn [mbind option_bind ic_bufs ic_rq ic_stop fst snd]. by rewrite H.
Qed.

Lemma await_true want ev : await want ev ↔ ev = Some want.
Proof. apply bool_decide_spec. Qed.

(** The calls and events up to the one that starts the poller. *)
Definition reaches_peer (a : DialAnswers) : Prop :=
  da_channel a ∧ da_create_id a ∧ da_resolve_addr a ∧ da_event1 a = Some AddrResolved ∧
  da_resolve_route a ∧ da_event2 a = Some RouteResolved ∧ (MakeQp (da_qp a)).1.

Ltac dial_cases a :=
  rewrite <- ?await_true; unfold reaches_peer, Dial; rewrite <- ?await_true;
  destruct a as [ch cid ra e1 rr e2 qp co e3];
  cbn [da_channel da_create_id da_resolve_addr da_event1 da_resolve_route da_event2 da_qp da_connect da_event3];
  destruct (MakeQp qp) as [made res]; cbn [fst];
  destruct ch, cid, ra, (await AddrResolved e1), rr, (await RouteResolved e2), made, co, (await Established e3).

(** A dial gives a fresh send ring exactly when every call and event of the
    handshake is the one it waits for. *)
Lemma Dial_success mb a c :
  fst <$> Dial mb a = Some (Some c) ↔
  c = new_conn mb ∧ reaches_peer a ∧ da_connect a ∧ da_event3 a = Some Established.
Proof. dial_cases a; cbn; split; intros; destruct_and?; simplify_eq; done. Qed.

(** A peer that is reached and then refuses, or does not answer, ends the
    process of the node that dials. *)
Lemma Dial_refused_terminates mb a :
  reaches_peer a → (da_connect a = false ∨ da_event3 a ≠ Some Established) → Dial mb a = None.
Proof.
  intros Hr Hf. assert (da_connect a = false ∨ ¬ await Established (da_event3 a)) as Hf'.
  { rewrite await_true. naive_solver. }
  clear Hf. revert Hr Hf'. dial_cases a; cbn; intros; destruct_and?; naive_solver.
Qed.

(** Once its identifier exists, a dial that returns keeps it and its event
    channel, and closing the connection releases neither. *)
Lemma Dial_leaks mb a c held :
  da_channel a = true → da_create_id a = true → Dial mb a = Some (c, held) →
  teardown held = [EventChannel; CmId].
Proof.
  intros H1 H2. unfold Dial, MakeQp. rewrite H1, H2. cbn [negb].
  repeat case_match; intros; simplify_eq; try done.
Qed.

(** ** The invariant of a connection *)

Definition push_wf (m : Push) : Prop := BlockId_wf (pu_id m) ∧ size_of (pu_data m) < 2 ^ 32.

Definition wire (m : Push) : bytes := wire_of (pu_id m) (pu_purpose m) (pu_data m).

Lemma length_wire m : length (wire m) = (kHeaderBytes + length (pu_data m))%nat.
Proof. apply length_wire_of. Qed.

Definition fits (cap : nat) (m : Push) : Prop := push_wf m ∧ (length (wire m) ≤ cap)%nat.

(** A send request waits with its message staged in its buffer. *)
Definition queued (c : Conn) (q : Z * nat) (m : Push) : Prop :=
  cn_pending c !! q.1 = Some (pu_promise m) ∧
  ∃ mem, cn_send_bufs c !! wr_buf q.1 = Some mem ∧ take q.2 mem = wire m ∧ q.2 = length (wire m).

Definition acked (c : Conn) (wr : Z) (m : Push) : Prop := cn_pending c !! wr = Some (pu_promise m).

(** A completion waits with its message in the receive buffer. *)
Definition arrived (c : InConn) (q : nat * Z) (m : Push) : Prop :=
  q.2 = size_of (wire m) ∧ ∃ b junk, ic_bufs c !! q.1 = Some b ∧ rb_mem b = wire m ++ junk.

Record in_ok (cap : nat) (c : InConn) : Prop := {
  io_bufs i b : ic_bufs c !! i = Some b → length (rb_mem b) = cap ∧ is_Some (rb_mr b);
  io_length : length (ic_bufs c) = kMaxRecvBuffers;
  io_rq rw : rw ∈ ic_rq c → rw_length rw = Z.of_nat cap
}.

(** The pushes that were posted, split by how far the receiver is (handed on,
    arrived, queued) and by how far the sender is (resolved, transmitted,
    queued). *)
Record pipe_ok (cap : nat) (B : Z) (p : Pipe) (mg mc ms mr ma : list Push) : Prop := {
  po_conn : conn_ok (pp_conn p) ∧ cn_next_wr (pp_conn p) ≤ B;
  po_ring : length (cn_send_bufs (pp_conn p)) = kMaxSendBuffers;
  po_in : in_ok cap (rv_conn (pp_recv p));
  po_ids : (rw_id <$> ic_rq (rv_conn (pp_recv p))) ++ (pp_cq p).*1 ≡ₚ seq 0 kMaxRecvBuffers;
  po_wrs : NoDup ((pp_sq p).*1 ++ pp_acked p);
  po_sq : Forall2 (queued (pp_conn p)) (pp_sq p) ms;
  po_acked : Forall2 (acked (pp_conn p)) (pp_acked p) ma;
  po_cq : Forall2 (arrived (rv_conn (pp_recv p))) (pp_cq p) mc;
  po_got : rv_got (pp_recv p) = received <$> mg;
  po_resolved : pp_resolved p = pu_promise <$> mr;
  po_sent : pp_sent p = mg ++ mc ++ ms;
  po_sent' : pp_sent p = mr ++ ma ++ ms;
  po_wf : Forall (fits cap) (pp_sent p)
}.

(** Pending sends have buffers of their own. *)
Lemma pending_bufs c w1 w2 p1 p2 :
  conn_ok c → cn_pending c !! w1 = Some p1 → cn_pending c !! w2 = Some p2 → wr_buf w1 = wr_buf w2 → w1 = w2.
Proof.
  intros [Hp _ _] H1 H2 E.
  assert (NoDup (in_flight c)) as Hnd.
  { pose proof (NoDup_seq 0 kMaxSendBuffers) as H. rewrite <- Hp in H. by apply NoDup_app in H as (_ & _ & ?). }
  unfold in_flight in Hnd. destruct (decide (w1 = w2)) as [|Hne]; [done|exfalso].
  rewrite <- (map_to_list_delete (cn_pending c) w1 p1 H1), !fmap_cons in Hnd.
  apply NoDup_cons in Hnd as [Hn _]. apply Hn. cbn [fst]. rewrite E.
  apply list_elem_of_fmap. exists w2. split; [done|]. apply list_elem_of_fmap. exists (w2, p2).
  split; [done|]. apply elem_of_map_to_list. by rewrite lookup_delete_ne.
Qed.

Lemma buf_in_ring c wr pr : conn_ok c → cn_pending c !! wr = Some pr → (wr_buf wr < kMaxSendBuffers)%nat.
Proof.
  intros [_ Hwr _] H. destruct (Hwr _ _ H) as (k & b & -> & Hk & Hb). rewrite wr_buf_sum by lia.
  unfold kMaxSendBuffers. lia.
Qed.

(** ** Every step keeps it *)

Lemma pipe_ok_mono cap B B' p mg mc ms mr ma :
  B ≤ B' → pipe_ok cap B p mg mc ms mr ma → pipe_ok cap B' p mg mc ms mr ma.
Proof. intros HB [[H1 H2]]. split; try done. split; [done|lia]. Qed.

Lemma queued_write c c' buf f q m :
  queued c q m → cn_send_bufs c' = alter f buf (cn_send_bufs c) → wr_buf q.1 ≠ buf →
  cn_pending c ⊆ cn_pending c' → queued c' q m.
Proof.
  intros (Hp & mem & Hm & Ht & Hl) Hb Hne Hsub. split; [by eapply lookup_weaken|].
  exists mem. by rewrite Hb, list_lookup_alter_ne.
Qed.

Lemma pipe_send_ok B mb m p mg mc ms mr ma :
  pipe_ok (MsgCap mb) B p mg mc ms mr ma → push_wf m → B < 2 ^ 48 - 1 →
  ∃ ms', pipe_ok (MsgCap mb) (B + 1) (pipe_send mb m p) mg mc ms' mr ma.
Proof.
  intros Hok Hm HB. unfold pipe_send.
  destruct (Z.of_nat kHeaderBytes + size_of (pu_data m) >? Z.of_nat (MsgCap mb)) eqn:Hfit; [exists ms; apply (pipe_ok_mono _ B); [lia|done]|].
  destruct (acquire (pu_promise m) (pp_conn p)) as [[[buf wr] c]|] eqn:Ha;
    [|exists ms; apply (pipe_ok_mono _ B); [lia|done]].
  exists (ms ++ [m]). destruct Hok as [[Hc Hn] Hring Hin Hids Hwrs Hsq Hacked Hcq Hgot Hres Hs Hs' Hwf].
  destruct (acquire_ok _ _ _ _ _ Hc ltac:(lia) Ha) as (Hc' & Hnone & Hpend & Hbuf & Hnext).
  assert (cn_send_bufs c = cn_send_bufs (pp_conn p)) as Hbufs.
  { unfold acquire in Ha. case_match; [|done]. injection Ha as <- <- <-. done. }
  assert (cn_pending (pp_conn p) ⊆ cn_pending c) as Hsub by (rewrite Hpend; by apply insert_subseteq).
  assert (∀ w x, cn_pending (pp_conn p) !! w = Some x → w ≠ wr) as Hfresh by (intros w x Hw ->; congruence).
  split; cbn [pp_conn pp_sq pp_acked pp_recv pp_cq pp_sent pp_resolved write_buf]; try done.
  - split; [destruct Hc'; by split|]. cbn [cn_next_wr write_buf]. lia.
  - cbn [cn_send_bufs write_buf]. rewrite length_alter. congruence.
  - rewrite fmap_app, <- app_assoc. apply NoDup_app in Hwrs as (H1 & H2 & H3).
    assert (∀ w, w ∈ (pp_sq p).*1 → w ≠ wr) as Hf1.
    { intros w (q & -> & Hq)%list_elem_of_fmap. apply list_elem_of_lookup_1 in Hq as [i Hi].
      destruct (Forall2_lookup_l _ _ _ _ _ Hsq Hi) as (m' & _ & [Hp _]). by eapply Hfresh. }
    assert (wr ∉ pp_acked p) as Hf2.
    { intros Hw. apply list_elem_of_lookup_1 in Hw as [i Hi].
      destruct (Forall2_lookup_l _ _ _ _ _ Hacked Hi) as (m' & _ & Hp). by eapply Hfresh. }
    apply NoDup_app. split; [done|]. split; [|by apply NoDup_cons].
    intros w Hw [->|Hw']%elem_of_cons; [by apply (Hf1 wr)|by apply (H2 w)].
  - apply Forall2_app; [|apply Forall2_cons; split; [|constructor]].
    + eapply Forall2_impl; [exact Hsq|]. intros q m' Hq.
      eapply queued_write; [exact Hq|by rewrite <- Hbufs| |exact Hsub].
      intros E. destruct Hq as [Hp _]. apply (Hfresh _ _ Hp).
      eapply (pending_bufs c); [done|by eapply lookup_weaken|by rewrite Hpend, lookup_insert_eq|congruence].
    + split; cbn [fst snd cn_pending write_buf]; [by rewrite Hpend, lookup_insert_eq|].
      assert (wr_buf wr < length (cn_send_bufs c))%nat as Hlt.
      { rewrite Hbufs, Hring. eapply (buf_in_ring c); [done|by rewrite Hpend, lookup_insert_eq]. }
      apply lookup_lt_is_Some in Hlt as [mem Hmem].
      exists (stage (pu_id m) (pu_purpose m) (pu_data m) mem). cbn [cn_send_bufs write_buf].
      rewrite Hbuf in *. rewrite list_lookup_alter_eq, Hmem. split_and!; [done|apply take_stage|by rewrite length_wire].
  - eapply Forall2_impl; [exact Hacked|]. intros w m' Hw. by eapply lookup_weaken.
  - by rewrite Hs, <- !app_assoc.
  - by rewrite Hs', <- !app_assoc.
  - apply Forall_app. split; [done|]. constructor; [|constructor]. split; [done|].
    rewrite length_wire. unfold size_of in Hfit. lia.
Qed.

Lemma pipe_transmit_ok cap B p mg mc ms mr ma :
  pipe_ok cap B p mg mc ms mr ma →
  ∃ mc' ms' ma', pipe_ok cap B (pipe_transmit p) mg mc' ms' mr ma'.
Proof.
  intros Hok. unfold pipe_transmit.
  destruct (pp_sq p) as [|[wr len] sq] eqn:Esq; [by eexists _, _, _|].
  destruct (ic_rq (rv_conn (pp_recv p))) as [|rw rq] eqn:Erq; [by eexists _, _, _|].
  destruct (cn_send_bufs (pp_conn p) !! wr_buf wr) as [mem|] eqn:Emem; [|by eexists _, _, _].
  case_match; [by eexists _, _, _|].
  destruct Hok as [Hc Hring [Hin1 Hin2 Hin3] Hids Hwrs Hsq Hacked Hcq Hgot Hres Hs Hs' Hwf].
  rewrite Esq in *. rewrite Erq in *. rewrite fmap_cons in *.
  apply Forall2_cons_inv_l in Hsq as (m & ms' & [Hp (mem' & Hmem' & Ht & Hl)] & Hsq & ->).
  cbn [fst snd] in *. assert (mem' = mem) as -> by congruence.
  assert (rw_id rw ∉ (pp_cq p).*1) as Hfresh.
  { pose proof (NoDup_seq 0 kMaxRecvBuffers) as Hnd. rewrite <- Hids in Hnd. cbn [app] in Hnd.
    apply NoDup_cons in Hnd as [Hnd _]. intros Hx. apply Hnd. apply elem_of_app. by right. }
  assert (rw_id rw < length (ic_bufs (rv_conn (pp_recv p))))%nat as Hlt.
  { rewrite Hin2. assert (rw_id rw ∈ seq 0 kMaxRecvBuffers) as Hx by (rewrite <- Hids; by left).
    apply elem_of_seq in Hx. lia. }
  apply lookup_lt_is_Some in Hlt as [b Hb].
  assert (length (wire m) ≤ cap)%nat as Hfit by (specialize (Hin3 rw ltac:(by left)); lia).
  exists (mc ++ [m]), ms', (ma ++ [m]).
  split; cbn [pp_conn pp_sq pp_acked pp_recv pp_cq pp_sent pp_resolved rv_conn rv_got land ic_rq ic_bufs]; try done.
  - split; cbn [ic_bufs ic_rq land].
    + intros i x Hx. destruct (decide (i = rw_id rw)) as [->|Hne].
      * rewrite list_lookup_alter_eq, Hb in Hx. cbn in Hx. injection Hx as <-. destruct (Hin1 _ _ Hb) as [Hlen Hmr].
        cbn [rb_mem rb_mr]. rewrite Ht, length_app, length_drop, Hlen. split; [lia|done].
      * rewrite list_lookup_alter_ne in Hx by done. by apply (Hin1 i).
    + by rewrite length_alter.
    + rewrite Erq. intros x Hx. apply Hin3. by right.
  - rewrite Erq. cbn [tail]. rewrite fmap_app. cbn [fmap list_fmap fst]. rewrite <- Hids. cbn [app].
    by rewrite app_assoc, <- Permutation_cons_append.
  - cbn [fmap list_fmap app] in Hwrs. apply NoDup_cons in Hwrs as [H1 H2].
    rewrite app_assoc, <- Permutation_cons_append. by apply NoDup_cons.
  - apply Forall2_app; [done|]. by constructor.
  - apply Forall2_app; [|apply Forall2_cons; split; [|constructor]].
    + eapply Forall2_impl; [|intros q m' Hq; exact Hq].
      apply Forall2_same_length_lookup_2; [by eapply Forall2_length|]. intros i q m' Hq Hm'.
      destruct (Forall2_lookup_lr _ _ _ _ _ _ Hcq Hq Hm') as (Hl' & b' & junk & Hb' & Hmem).
      split; [done|]. exists b', junk. split; [|done]. cbn [ic_bufs land]. rewrite list_lookup_alter_ne; [done|].
      intros E. apply Hfresh. rewrite E. apply list_elem_of_fmap. exists q. split; [done|].
      by eapply list_elem_of_lookup_2.
    + split; cbn [fst snd]; [by rewrite Hl|].
      eexists _, (drop (length (wire m)) (rb_mem b)). cbn [land ic_bufs].
      rewrite list_lookup_alter_eq, Hb. split; [done|]. cbn [rb_mem]. by rewrite Ht.
  - by rewrite Hs, <- !app_assoc.
  - by rewrite Hs', <- !app_assoc.
Qed.

Lemma pipe_send_done_ok cap B p mg mc ms mr ma :
  pipe_ok cap B p mg mc ms mr ma → ∃ mr' ma', pipe_ok cap B (pipe_send_done p) mg mc ms mr' ma'.
Proof.
  intros Hok. unfold pipe_send_done. destruct (pp_acked p) as [|wr rest] eqn:Ea; [by eexists _, _|].
  destruct Hok as [[Hc Hn] Hring Hin Hids Hwrs Hsq Hacked Hcq Hgot Hres Hs Hs' Hwf].
  rewrite Ea in *. apply Forall2_cons_inv_l in Hacked as (m & ma' & Hp & Hacked & ->).
  destruct (complete_ok wr (pp_conn p) _ Hc Hp) as (Hc' & Hpr & Hpend & Hnext).
  assert (cn_send_bufs (complete wr (pp_conn p)).2 = cn_send_bufs (pp_conn p)) as Hbufs.
  { unfold complete. by rewrite Hp. }
  destruct (complete wr (pp_conn p)) as [o c]. cbn [fst snd] in *. subst o.
  assert (NoDup (wr :: (pp_sq p).*1 ++ rest)) as Hnd by (by rewrite Permutation_middle).
  apply NoDup_cons in Hnd as [Hfresh Hnd].
  exists (mr ++ [m]), ma'.
  split; cbn [pp_conn pp_sq pp_acked pp_recv pp_cq pp_sent pp_resolved option_list]; try done.
  - split; [done|lia].
  - congruence.
  - apply Forall2_same_length_lookup_2; [by eapply Forall2_length|]. intros i q m' Hq Hm'.
    destruct (Forall2_lookup_lr _ _ _ _ _ _ Hsq Hq Hm') as (Hp' & mem & Hrest).
    split; [|exists mem; by rewrite Hbufs]. rewrite Hpend, lookup_delete_ne; [done|].
    intros ->. apply Hfresh, elem_of_app. left. apply list_elem_of_fmap. exists q. split; [done|].
    by eapply list_elem_of_lookup_2.
  - apply Forall2_same_length_lookup_2; [by eapply Forall2_length|]. intros i w m' Hw Hm'.
    unfold acked. rewrite Hpend, lookup_delete_ne; [by apply (Forall2_lookup_lr _ _ _ _ _ _ Hacked Hw Hm')|].
    intros ->. apply Hfresh, elem_of_app. right. by eapply list_elem_of_lookup_2.
  - by rewrite Hres, fmap_app.
  - by rewrite Hs', <- !app_assoc.
Qed.

(** One message handed on and its buffer posted again. *)
Lemma poll_in_arrived cap r m idx len :
  in_ok cap (rv_conn r) → push_wf m → arrived (rv_conn r) (idx, len) m →
  ∃ rw, poll_in_one (Some r) (mkRecvWc idx true true len true) =
    Some (mkRecv (with_rq (rv_conn r) (ic_rq (rv_conn r) ++ [rw])) (rv_count r +₆₄ 1) (rv_got r ++ [received m])) ∧
    rw_id rw = idx ∧ rw_length rw = u32 (Z.of_nat cap).
Proof.
  intros Hin [Hid Hsz] (Hl & b & junk & Hb & Hmem). cbn [fst snd] in *. subst len.
  destruct (io_bufs _ _ Hin _ _ Hb) as [Hlen [k Hk]].
  assert (HandleRecv (rb_mem b) (size_of (wire m)) = Some (received m)) as Hh.
  { rewrite Hmem. unfold wire. rewrite HandleRecv_wire by done. unfold size_of at 1. rewrite length_wire_of.
    unfold size_of. by rewrite Nat2Z.inj_add, Z.ltb_irrefl. }
  exists (mkRecvWr idx (u32 (Z.of_nat cap)) k). split; [|done].
  unfold poll_in_one, handle, PostRecv. cbn [mbind option_bind wc_ok wc_recv wc_id wc_len wc_repost negb].
  rewrite Hb. cbn [mbind option_bind]. rewrite Hh. cbn [rv_conn rv_count rv_got]. rewrite Hb.
  cbn [mbind option_bind]. rewrite Hk. cbn [mbind option_bind]. unfold size_of. by rewrite Hlen.
Qed.

Lemma pipe_receive_ok cap B p mg mc ms mr ma :
  Z.of_nat cap < 2 ^ 32 → pipe_ok cap B p mg mc ms mr ma →
  ∃ p' mg' mc', pipe_receive p = Some p' ∧ pipe_ok cap B p' mg' mc' ms mr ma.
Proof.
  intros Hcap Hok. unfold pipe_receive. destruct (pp_cq p) as [|[idx len] cq] eqn:Ecq; [by eexists _, _, _|].
  destruct Hok as [Hc Hring Hin Hids Hwrs Hsq Hacked Hcq Hgot Hres Hs Hs' Hwf].
  rewrite Ecq in *. apply Forall2_cons_inv_l in Hcq as (m & mc' & Harr & Hcq & ->).
  assert (push_wf m) as Hm.
  { rewrite Hs in Hwf. apply Forall_app in Hwf as [_ Hwf]. by apply Forall_cons in Hwf as [[? _] _]. }
  destruct (poll_in_arrived cap (pp_recv p) m idx len Hin Hm Harr) as (rw & -> & Hid & Hrl).
  eexists _, (mg ++ [m]), mc'. split; [done|].
  split; cbn [pp_conn pp_sq pp_acked pp_recv pp_cq pp_sent pp_resolved rv_conn rv_got with_rq ic_rq]; try done.
  - destruct Hin as [H1 H2 H3]. split; cbn [ic_bufs ic_rq with_rq]; [done|done|].
    intros x [Hx|Hx%list_elem_of_singleton]%elem_of_app; [by apply H3|]. subst x. rewrite Hrl. apply u32_small. lia.
  - rewrite fmap_app, <- app_assoc. cbn [fmap list_fmap app]. by rewrite Hid.
  - by rewrite Hgot, fmap_app.
  - by rewrite Hs, <- !app_assoc.
Qed.

Definition event_wf (e : PipeEvent) : Prop := match e with PSend m => push_wf m | _ => True end.

Lemma pipe_step_ok B mb p e mg mc ms mr ma :
  Z.of_nat (MsgCap mb) < 2 ^ 32 → B < 2 ^ 48 - 1 → event_wf e → pipe_ok (MsgCap mb) B p mg mc ms mr ma →
  ∃ p' mg' mc' ms' mr' ma', pipe_step mb (Some p) e = Some p' ∧ pipe_ok (MsgCap mb) (B + 1) p' mg' mc' ms' mr' ma'.
Proof.
  intros Hcap HB He Hok. assert (B ≤ B + 1) as Hle by lia.
  destruct e as [m| | |]; cbn [pipe_step mbind option_bind].
  - destruct (pipe_send_ok B mb m p _ _ _ _ _ Hok He HB) as (ms' & H). by eexists _, _, _, _, _, _.
  - destruct (pipe_transmit_ok _ _ _ _ _ _ _ _ Hok) as (mc' & ms' & ma' & H).
    eexists _, _, _, _, _, _. split; [done|]. by eapply pipe_ok_mono.
  - destruct (pipe_send_done_ok _ _ _ _ _ _ _ _ Hok) as (mr' & ma' & H).
    eexists _, _, _, _, _, _. split; [done|]. by eapply pipe_ok_mono.
  - destruct (pipe_receive_ok _ _ _ _ _ _ _ _ Hcap Hok) as (p' & mg' & mc' & -> & H).
    eexists _, _, _, _, _, _. split; [done|]. by eapply pipe_ok_mono.
Qed.

Lemma new_pipe_ok mb keys :
  0 ≤ mb → Z.of_nat (MsgCap mb) < 2 ^ 32 →
  ∃ p, new_pipe mb keys = Some p ∧ pipe_ok (MsgCap mb) 1 p [] [] [] [] [].
Proof.
  intros Hmb Hcap. unfold new_pipe. rewrite SetupInbound_registered. eexists. split; [done|].
  split; cbn [pp_conn pp_sq pp_acked pp_recv pp_cq pp_sent pp_resolved rv_conn rv_got ic_rq ic_bufs]; try done.
  - split; cbn [ic_bufs ic_rq].
    + intros i b. rewrite list_lookup_fmap. destruct (seq 0 kMaxRecvBuffers !! i); [|done].
      intros [= <-]. cbn [MakeBuf rb_mem rb_mr]. rewrite length_replicate. split; [done|by eexists].
    + by rewrite length_fmap, length_seq.
    + intros rw (i & -> & _)%list_elem_of_fmap. cbn [rw_length]. apply u32_small. lia.
  - constructor.
Qed.

Lemma pipe_fold_ok mb evs B p mg mc ms mr ma :
  Z.of_nat (MsgCap mb) < 2 ^ 32 → B + Z.of_nat (length evs) < 2 ^ 48 - 1 → Forall event_wf evs →
  pipe_ok (MsgCap mb) B p mg mc ms mr ma →
  ∃ p' mg' mc' ms' mr' ma', fold_left (pipe_step mb) evs (Some p) = Some p' ∧
    pipe_ok (MsgCap mb) (B + Z.of_nat (length evs)) p' mg' mc' ms' mr' ma'.
Proof.
  intros Hcap. revert B p mg mc ms mr ma. induction evs as [|e evs IH]; intros B p mg mc ms mr ma HB Hwf Hok.
  { eexists _, _, _, _, _, _. split; [done|]. by rewrite Z.add_0_r. }
  apply Forall_cons in Hwf as [He Hwf]. cbn [length fold_left] in *.
  destruct (pipe_step_ok B mb p e _ _ _ _ _ Hcap ltac:(lia) He Hok)
    as (p1 & mg1 & mc1 & ms1 & mr1 & ma1 & -> & Hok1).
  destruct (IH (B + 1) p1 _ _ _ _ _ ltac:(lia) Hwf Hok1) as (p2 & mg2 & mc2 & ms2 & mr2 & ma2 & -> & Hok2).
  eexists _, _, _, _, _, _. split; [done|]. by replace (B + Z.of_nat (S (length evs))) with (B + 1 + Z.of_nat (length evs)) by lia.
Qed.

Lemma pipe_run_ok mb keys evs :
  0 ≤ mb → Z.of_nat kHeaderBytes + mb < 2 ^ 32 → Z.of_nat (length evs) < 2 ^ 47 → Forall event_wf evs →
  ∃ p B mg mc ms mr ma, pipe_run mb keys evs = Some p ∧ pipe_ok (MsgCap mb) B p mg mc ms mr ma.
Proof.
  intros Hmb Hcap0 Hlen Hwf. assert (Z.of_nat (MsgCap mb) < 2 ^ 32) as Hcap by (unfold MsgCap; lia).
  destruct (new_pipe_ok mb keys Hmb Hcap) as (p0 & E0 & Hok0). unfold pipe_run. rewrite E0.
  destruct (pipe_fold_ok mb evs 1 p0 _ _ _ _ _ Hcap ltac:(lia) Hwf Hok0) as (p & mg & mc & ms & mr & ma & E & Hok).
  exists p, (1 + Z.of_nat (length evs)), mg, mc, ms, mr, ma. split; [exact E|exact Hok].
Qed.

(** ** Draining *)

(** What the network and the receiver do when they are left to run. *)
Definition drain (p : Pipe) : list PipeEvent :=
  replicate (length (pp_cq p)) PReceive ++ concat (replicate (length (pp_sq p)) [PTransmit; PReceive]).

Lemma pipe_receive_next p p' q cq :
  pp_cq p = q :: cq → pipe_receive p = Some p' →
  pp_cq p' = cq ∧ pp_sq p' = pp_sq p ∧ pp_sent p' = pp_sent p.
Proof.
  intros Hq. unfold pipe_receive. rewrite Hq. destruct q as [idx len].
  destruct (poll_in_one _ _) as [r|]; [|done]. by intros [= <-].
Qed.

(** With every receive buffer posted, the oldest send goes out. *)
Lemma pipe_transmit_next cap B p mg mc ms mr ma q sq :
  pipe_ok cap B p mg mc ms mr ma → pp_cq p = [] → pp_sq p = q :: sq →
  ∃ x, pp_cq (pipe_transmit p) = [x] ∧ pp_sq (pipe_transmit p) = sq ∧
    pp_sent (pipe_transmit p) = pp_sent p.
Proof.
  intros [_ _ Hin Hids _ Hsq _ _ _ _ Hs _ Hwf] Hcq Hq. unfold pipe_transmit. rewrite Hq, Hcq in *.
  destruct (ic_rq (rv_conn (pp_recv p))) as [|rw rq] eqn:Erq.
  { cbn in Hids. apply Permutation_nil_l in Hids. done. }
  destruct q as [wr len]. apply Forall2_cons_inv_l in Hsq as (m & ms' & [_ (mem & Hmem & _ & Hl)] & _ & ->).
  cbn [fst snd] in *. rewrite Hmem.
  assert (fits cap m) as [_ Hfit].
  { rewrite Hs in Hwf. apply Forall_app in Hwf as [_ Hwf]. apply Forall_app in Hwf as [_ Hwf].
    by apply Forall_cons in Hwf as [? _]. }
  assert (rw_length rw = Z.of_nat cap) as Hrl by (apply (io_rq _ _ Hin); rewrite Erq; by left).
  replace (Z.of_nat len >? rw_length rw) with false by lia. by eexists.
Qed.

Lemma drain_completions mb B n p mg mc ms mr ma :
  Z.of_nat (MsgCap mb) < 2 ^ 32 → pipe_ok (MsgCap mb) B p mg mc ms mr ma → length (pp_cq p) = n →
  ∃ p' mg' mc', fold_left (pipe_step mb) (replicate n PReceive) (Some p) = Some p' ∧
    pipe_ok (MsgCap mb) B p' mg' mc' ms mr ma ∧ pp_cq p' = [] ∧ pp_sq p' = pp_sq p ∧ pp_sent p' = pp_sent p.
Proof.
  intros Hcap. revert p mg mc. induction n as [|n IH]; intros p mg mc Hok Hn.
  { apply nil_length_inv in Hn. by eexists _, _, _. }
  destruct (pp_cq p) as [|q cq] eqn:Hq; [done|]. injection Hn as Hn.
  destruct (pipe_receive_ok _ _ _ _ _ _ _ _ Hcap Hok) as (p1 & mg1 & mc1 & E & Hok1).
  destruct (pipe_receive_next p p1 q cq Hq E) as (H1 & H2 & H3).
  destruct (IH p1 mg1 mc1 Hok1 ltac:(by rewrite H1)) as (p2 & mg2 & mc2 & E2 & Hok2 & H4 & H5 & H6).
  eexists p2, mg2, mc2. cbn [replicate fold_left pipe_step mbind option_bind]. rewrite E, E2.
  split_and!; [done|done|done|congruence|congruence].
Qed.

Lemma drain_sends mb B n p mg mc ms mr ma :
  Z.of_nat (MsgCap mb) < 2 ^ 32 → pipe_ok (MsgCap mb) B p mg mc ms mr ma → pp_cq p = [] → length (pp_sq p) = n →
  ∃ p' mg' mc' ms' mr' ma',
    fold_left (pipe_step mb) (concat (replicate n [PTransmit; PReceive])) (Some p) = Some p' ∧
    pipe_ok (MsgCap mb) B p' mg' mc' ms' mr' ma' ∧ pp_cq p' = [] ∧ pp_sq p' = [] ∧ pp_sent p' = pp_sent p.
Proof.
  intros Hcap. revert p mg mc ms mr ma. induction n as [|n IH]; intros p mg mc ms mr ma Hok Hcq Hn.
  { apply nil_length_inv in Hn. by eexists _, _, _, _, _, _. }
  destruct (pp_sq p) as [|q sq] eqn:Hq; [done|]. injection Hn as Hn.
  destruct (pipe_transmit_next _ _ _ _ _ _ _ _ q sq Hok Hcq Hq) as (x & H1 & H2 & H3).
  destruct (pipe_transmit_ok _ _ _ _ _ _ _ _ Hok) as (mc1 & ms1 & ma1 & Hok1).
  destruct (pipe_receive_ok _ _ _ _ _ _ _ _ Hcap Hok1) as (p2 & mg2 & mc2 & E & Hok2).
  destruct (pipe_receive_next _ p2 x [] H1 E) as (H4 & H5 & H6).
  destruct (IH p2 _ _ _ _ _ Hok2 H4 ltac:(by rewrite H5, H2))
    as (p3 & mg3 & mc3 & ms3 & mr3 & ma3 & E3 & Hok3 & H7 & H8 & H9).
  eexists p3, mg3, mc3, ms3, mr3, ma3. cbn [replicate concat app fold_left pipe_step mbind option_bind].
  rewrite E, E3. split_and!; [done..|congruence].
Qed.

Lemma drain_all mb B p mg mc ms mr ma :
  Z.of_nat (MsgCap mb) < 2 ^ 32 → pipe_ok (MsgCap mb) B p mg mc ms mr ma →
  ∃ p', fold_left (pipe_step mb) (drain p) (Some p) = Some p' ∧ pp_sent p' = pp_sent p ∧
    rv_got (pp_recv p') = received <$> pp_sent p.
Proof.
  intros Hcap Hok.
  destruct (drain_completions mb B _ p _ _ _ _ _ Hcap Hok eq_refl) as (p1 & mg1 & mc1 & E1 & Hok1 & H1 & H2 & H3).
  destruct (drain_sends mb B _ p1 _ _ _ _ _ Hcap Hok1 H1 eq_refl)
    as (p2 & mg2 & mc2 & ms2 & mr2 & ma2 & E2 & Hok2 & H4 & H5 & H6).
  exists p2. unfold drain. rewrite fold_left_app, E1, <- H2, E2.
  split_and!; [done|congruence|]. destruct Hok2 as [_ _ _ _ _ Hsq _ Hcq Hgot _ Hs _ _].
  rewrite H4 in Hcq. rewrite H5 in Hsq. apply Forall2_nil_inv_l in Hcq, Hsq. subst mc2 ms2.
  rewrite Hgot, <- H3, <- H6, Hs. by rewrite !app_nil_r.
Qed.

(** C30 (RDMA connection, end to end): over a connection whose work requests
    complete with success and whose receive buffers are posted again, whatever the
    order in which sends are posted, transmitted, completed and received, no
    message is lost, duplicated, reordered or overwritten in a buffer.  The
    receiver hands on exactly the first pushes that were posted, identity, payload
    and purpose unchanged; the others have arrived or wait in the send queue, and
    are all handed on once the connection drains; every receive buffer is either
    posted or waits to be read; futures resolve in the order of the sends, and
    only for messages that reached the receiver's memory. *)
Theorem rdma_pipe_fifo mb keys evs :
  0 ≤ mb → Z.of_nat kHeaderBytes + mb < 2 ^ 32 → Z.of_nat (length evs) < 2 ^ 47 → Forall event_wf evs →
  ∃ p, pipe_run mb keys evs = Some p ∧
    let got := rv_got (pp_recv p) in
    got = received <$> take (length got) (pp_sent p) ∧
    length (pp_sent p) = (length got + length (pp_cq p) + length (pp_sq p))%nat ∧
    (rw_id <$> ic_rq (rv_conn (pp_recv p))) ++ (pp_cq p).*1 ≡ₚ seq 0 kMaxRecvBuffers ∧
    pp_resolved p = pu_promise <$> take (length (pp_resolved p)) (pp_sent p) ∧
    (length (pp_resolved p) ≤ length got + length (pp_cq p))%nat ∧
    ∃ p', fold_left (pipe_step mb) (drain p) (Some p) = Some p' ∧ rv_got (pp_recv p') = received <$> pp_sent p.
Proof.
  intros Hmb Hcap0 Hlen Hwf. assert (Z.of_nat (MsgCap mb) < 2 ^ 32) as Hcap by (unfold MsgCap; lia).
  destruct (pipe_run_ok mb keys evs Hmb Hcap0 Hlen Hwf) as (p & B & mg & mc & ms & mr & ma & E & Hok).
  exists p. split; [done|]. destruct (drain_all _ _ _ _ _ _ _ _ Hcap Hok) as (p' & Ep' & _ & Hdrain).
  destruct Hok as [_ _ _ Hids _ Hsq Hacked Hcq Hgot Hres Hs Hs' _].
  apply Forall2_length in Hsq, Hacked, Hcq. cbn zeta.
  assert (length mg + length mc = length mr + length ma)%nat as Hsplit.
  { pose proof (f_equal length Hs) as H1. pose proof (f_equal length Hs') as H2. rewrite !length_app in H1, H2. lia. }
  split_and!; [| |exact Hids| | |exists p'; split; [exact Ep'|exact Hdrain]].
  - rewrite Hgot, length_fmap, Hs, take_app_length. done.
  - rewrite Hs, Hgot, !length_app, length_fmap. lia.
  - rewrite Hres, length_fmap, Hs', take_app_length. done.
  - rewrite Hres, Hgot, !length_fmap. lia.
Qed.

Lemma acquire_loop_now attempts waits pr peer st c buf wr c' :
  attempts ≠ 0%nat → rd_outbound st !! peer = Some c → acquire pr c = Some (buf, wr, c') →
  acquire_loop attempts waits pr peer st =
    (Some (buf, wr), with_outbound st (<[peer := c']> (rd_outbound st))).
Proof.
  intros Hn Hc Ha. destruct attempts as [|n]; [done|]. cbn [acquire_loop]. rewrite Hc.
  cbn [mbind option_bind]. by rewrite Ha.
Qed.

(** [Send] on a connected peer with a free buffer is [pipe_send] on its
    connection. *)
Lemma Send_pipe dial waits peer id purpose data st p buf wr c :
  rd_outbound st !! peer = Some (pp_conn p) → 0 ≤ rd_msg_bytes st →
  size_of data ≤ rd_msg_bytes st → acquire (rd_next_promise st) (pp_conn p) = Some (buf, wr, c) →
  rd_outbound (Send dial true waits peer id purpose data st).2 !! peer =
    Some (pp_conn (pipe_send (rd_msg_bytes st) (mkPush (rd_next_promise st) id purpose data) p)) ∧
  (Send dial true waits peer id purpose data st).1 = rd_next_promise st.
Proof.
  intros Hc H0 Hsz Ha. unfold Send, new_promise, EnsureOutbound, pipe_send, MsgCap.
  cbn [rd_msg_bytes rd_outbound pu_data pu_promise pu_id pu_purpose].
  rewrite Nat2Z.inj_add, Z2Nat.id by done.
  replace (Z.of_nat kHeaderBytes + size_of data >? Z.of_nat kHeaderBytes + rd_msg_bytes st) with false by lia.
  rewrite Hc. cbn [negb].
  erewrite acquire_loop_now; [|done|exact Hc|exact Ha]. cbn [with_outbound rd_outbound count snd fst].
  rewrite lookup_alter_eq, lookup_insert_eq. by rewrite Ha.
Qed.

(** ** Concrete runs *)

Definition wit_push (n : nat) (b : byte) : Push := mkPush n Routing.wit_bid ReadRepair [b].

(** Two sends; the first is received before the second is transmitted. *)
Definition wit_pipe : list PipeEvent :=
  [PSend (wit_push 0 Byte.x0a); PSend (wit_push 1 Byte.x0b); PTransmit; PReceive; PSendDone; PTransmit].

Lemma rdma_pipe_fifo_witness :
  ∃ p, pipe_run 4 (λ i, Z.of_nat i) wit_pipe = Some p ∧
    rv_got (pp_recv p) = received <$> [wit_push 0 Byte.x0a] ∧
    length (pp_cq p) = 1%nat ∧ pp_resolved p = [0%nat] ∧
    ∃ p', fold_left (pipe_step 4) (drain p) (Some p) = Some p' ∧
      rv_got (pp_recv p') = received <$> [wit_push 0 Byte.x0a; wit_push 1 Byte.x0b].
Proof.
  destruct (rdma_pipe_fifo 4 (λ i, Z.of_nat i) wit_pipe) as (p & Hp & _ & _ & _ & _ & _ & p' & Hd & Hg);
    [done|done|done|repeat constructor; by vm_compute|].
  exists p. assert (rv_got (pp_recv p) = received <$> [wit_push 0 Byte.x0a] ∧ length (pp_cq p) = 1%nat ∧
    pp_resolved p = [0%nat] ∧ pp_sent p = [wit_push 0 Byte.x0a; wit_push 1 Byte.x0b]) as (H1 & H2 & H3 & H4).
  { vm_compute in Hp. injection Hp as <-. by vm_compute. }
  split_and!; [exact Hp|exact H1|exact H2|exact H3|]. exists p'. split; [exact Hd|]. by rewrite <- H4.
Defined.

(** A transport set up from the environment that listens and is shut down. *)
Example transport_lifecycle :
  match IbverbsTransport (Some "10.0.0.1:7471") (Some "b@10.0.0.2:7471") None with
  | Some t =>
      li_port (tr_listener t) = 7471 ∧ li_thread (tr_listener (Start (true, true, true, true) t)) = true ∧
      li_id (tr_listener (Start (true, true, false, true) t)) = true ∧
      li_thread (tr_listener (TransportShutdown (Start (true, true, true, true) t))) = false
  | None => False
  end.
Proof. by vm_compute. Qed.
