(* ===== verification/KvTransport.v ===== *)
(** * The transport interface (kv_transport.hpp, cache.cpp)

    What the cache node asks of a block transport, as a class with its two
    implementations, and the choice between them that the facade makes.  The
    laws are what the interface's comments promise; what is proved of a client
    (read repair) is proved against them, for any transport. *)
From S2P Require Import Prelude Types TierStore BlockStore SsdBlockStore TieredStore Routing.
From S2P Require Import Eviction Membership Replication Cache Rpc GrpcTransport Ibverbs RdmaReceive.

Record RdmaConfig : Type := mkRdmaConfig {
  rc_device_name : string;
  rc_port : Z;
  rc_listen_port : Z;
  rc_send_buffer_bytes : Z;
  rc_recv_buffer_bytes : Z;
  rc_max_inflight_per_peer : Z
}.

Definition default_RdmaConfig : RdmaConfig := mkRdmaConfig "" 1 50052 (16 * 2 ^ 20) (64 * 2 ^ 20) 16.

(** What the verbs library answers during a call; gRPC ignores it. *)
Record VerbsAnswers : Type := mkVerbsAnswers {
  va_start : bool * bool * bool * bool;
  va_dial : bool;
  va_posted : bool;
  va_waits : list (list (Z * bool))
}.

(** The future of a send: ready, or a promise that completions resolve. *)
Inductive Future : Type := Ready (b : bool) | Promised (pr : nat).

Class KvTransport (T : Type) : Type := {
  kt_Start : VerbsAnswers → T → T;
  kt_Shutdown : T → T;
  kt_Connect : string → string → T → T;
  kt_Disconnect : string → T → T;
  kt_Send {W} : (string → list PbBlock → W → option InsertResponse * W) →
    VerbsAnswers → string → BlockId → StreamPurpose → bytes → T → W → Future * T * W;
  kt_Fetch {W} : (string → PbBlockId → W → option FetchResponse * W) →
    T → string → BlockId → W → option KvBlock * W
}.

(** What a pull makes of the response of a peer. *)
Definition fetched (resp : option FetchResponse) : option KvBlock :=
  match resp with
  | Some r => if fr_found r then Some (mkKvBlock (BlockIdFromProto (fr_id r)) (fr_kv_data r) DRAM 0) else None
  | None => None
  end.

(** Connecting is idempotent; a pull from a connected peer is a call to the
    address it was connected with, one from another peer finds nothing, and
    peers do not interfere. *)
Class KvTransportSpec (T : Type) `{KvTransport T} : Prop := {
  kt_connect_again p a a' (t : T) : kt_Connect p a' (kt_Connect p a t) = kt_Connect p a t;
  kt_fetch_connected {W} (call : string → PbBlockId → W → option FetchResponse * W) p a (t : T) id w :
    kt_Fetch call (kt_Connect p a (kt_Disconnect p t)) p id w =
      let '(resp, w') := call a (BlockIdToProto id) w in (fetched resp, w');
  kt_fetch_disconnected {W} (call : string → PbBlockId → W → option FetchResponse * W) p (t : T) id w :
    kt_Fetch call (kt_Disconnect p t) p id w = (None, w);
  kt_fetch_connect_other {W} (call : string → PbBlockId → W → option FetchResponse * W) p q a (t : T) id w :
    p ≠ q → kt_Fetch call (kt_Connect p a t) q id w = kt_Fetch call t q id w;
  kt_fetch_disconnect_other {W} (call : string → PbBlockId → W → option FetchResponse * W) p q (t : T) id w :
    p ≠ q → kt_Fetch call (kt_Disconnect p t) q id w = kt_Fetch call t q id w
}.

(** ** The implementations *)

Record GrpcStreamTransport : Type := mkGrpc { gt_peers : Connections }.

#[export] Instance grpc_transport : KvTransport GrpcStreamTransport := {
  kt_Start _ t := t;
  kt_Shutdown t := mkGrpc (GrpcTransport.TransportShutdown (gt_peers t));
  kt_Connect p a t := mkGrpc (connect (gt_peers t) (mkStaticPeer p a));
  kt_Disconnect p t := mkGrpc (GrpcTransport.Disconnect p (gt_peers t));
  kt_Send _ call _ p id purpose data t w :=
    let '(ok, w') := GrpcTransport.Send call (gt_peers t) p id purpose data w in (Ready ok, t, w');
  kt_Fetch _ call t p id w := GrpcTransport.Fetch call (gt_peers t) p id w
}.

#[export] Instance rdma_transport : KvTransport Transport := {
  kt_Start a t := Start (va_start a) t;
  kt_Shutdown := RdmaReceive.TransportShutdown;
  kt_Connect p a t := mkTransport (Ibverbs.Connect p a (tr_out t)) (tr_listener t) (tr_inbound t);
  kt_Disconnect p t := mkTransport (Ibverbs.Disconnect p (tr_out t)) (tr_listener t) (tr_inbound t);
  kt_Send _ _ a p id purpose data t w :=
    let '(pr, out) := Ibverbs.Send (va_dial a) (va_posted a) (va_waits a) p id purpose data (tr_out t) in
    (Promised pr, mkTransport out (tr_listener t) (tr_inbound t), w);
  kt_Fetch _ call t p id w := RdmaFetch call t p id w
}.

(** The facade owns one of them, behind the interface. *)
Inductive AnyTransport : Type := OverGrpc (t : GrpcStreamTransport) | OverRdma (t : Transport).

#[export] Instance any_transport : KvTransport AnyTransport := {
  kt_Start a t := match t with OverGrpc t => OverGrpc (kt_Start a t) | OverRdma t => OverRdma (kt_Start a t) end;
  kt_Shutdown t := match t with OverGrpc t => OverGrpc (kt_Shutdown t) | OverRdma t => OverRdma (kt_Shutdown t) end;
  kt_Connect p a t :=
    match t with OverGrpc t => OverGrpc (kt_Connect p a t) | OverRdma t => OverRdma (kt_Connect p a t) end;
  kt_Disconnect p t :=
    match t with OverGrpc t => OverGrpc (kt_Disconnect p t) | OverRdma t => OverRdma (kt_Disconnect p t) end;
  kt_Send _ call a p id purpose data t w :=
    match t with
    | OverGrpc t => let '(f, t', w') := kt_Send call a p id purpose data t w in (f, OverGrpc t', w')
    | OverRdma t => let '(f, t', w') := kt_Send call a p id purpose data t w in (f, OverRdma t', w')
    end;
  kt_Fetch _ call t p id w :=
    match t with OverGrpc t => kt_Fetch call t p id w | OverRdma t => kt_Fetch call t p id w end
}.

(** The environment of the process, as far as the transports read it. *)
Record TransportEnv : Type := mkTransportEnv {
  te_use_rdma : option string;
  te_listen : option string;
  te_peers : option string;
  te_msg_bytes : option string
}.

(** The constructor's choice: RDMA when the binary has it and the variable is
    set; [None] is the exception of a bad port.  Then the transport is started
    and connected to the seed peers. *)
Definition choose_transport (enable_rdma : bool) (env : TransportEnv) : option AnyTransport :=
  if enable_rdma && bool_decide (is_Some (te_use_rdma env))
  then OverRdma <$> IbverbsTransport (te_listen env) (te_peers env) (te_msg_bytes env)
  else Some (OverGrpc (mkGrpc ∅)).

Definition connect_seeds {T} `{KvTransport T} (cfg : CacheConfig) (t : T) : T :=
  fold_left (λ t p, kt_Connect (sp_node_id p) (sp_address p) t)
    (filter (λ p, sp_node_id p ≠ cc_node_id cfg) (cc_seed_peers cfg)) t.

Definition open_transport (enable_rdma : bool) (env : TransportEnv) (answers : VerbsAnswers) (cfg : CacheConfig) :
    option AnyTransport :=
  t ← choose_transport enable_rdma env; Some (connect_seeds cfg (kt_Start answers t)).

(** The table of stubs that answers pulls. *)
Definition stubs (t : AnyTransport) : Connections :=
  match t with OverGrpc t => gt_peers t | OverRdma t => rd_grpc (tr_out t) end.

(** ** The laws *)

Lemma connect_again p a a' (conns : Connections) :
  connect (connect conns (mkStaticPeer p a)) (mkStaticPeer p a') = connect conns (mkStaticPeer p a).
Proof.
  unfold connect at 1. cbn [sp_node_id]. destruct (conns !! p) eqn:E; unfold connect; cbn; rewrite E; [by rewrite E|].
  by rewrite lookup_insert_eq.
Qed.

Lemma lookup_connect_ne p q a (conns : Connections) :
  p ≠ q → connect conns (mkStaticPeer p a) !! q = conns !! q.
Proof. intros H. unfold connect. cbn. destruct (conns !! p); [done|]. by rewrite lookup_insert_ne. Qed.

Lemma lookup_connect_new p a (conns : Connections) :
  connect (delete p conns) (mkStaticPeer p a) !! p = Some a.
Proof. unfold connect. cbn. by rewrite lookup_delete_eq, lookup_insert_eq. Qed.

Section fetch_laws.
Context {W : Type} (call : string → PbBlockId → W → option FetchResponse * W).

Lemma Fetch_spec (conns : Connections) p id w :
  GrpcTransport.Fetch call conns p id w =
  match conns !! p with
  | None => (None, w)
  | Some a => let '(resp, w') := call a (BlockIdToProto id) w in (fetched resp, w')
  end.
Proof. done. Qed.

Lemma Fetch_same (conns conns' : Connections) p id w :
  conns' !! p = conns !! p → GrpcTransport.Fetch call conns' p id w = GrpcTransport.Fetch call conns p id w.
Proof. intros E. by rewrite !Fetch_spec, E. Qed.
End fetch_laws.

#[export] Instance any_transport_spec : KvTransportSpec AnyTransport.
Proof.
  split.
  - intros p a a' [[conns]|[out li inb]]; cbn; unfold Connect; cbn; [|unfold with_grpc; cbn]; by rewrite connect_again.
  - intros W call p a [[conns]|[out li inb]] id w; cbn; unfold RdmaFetch; cbn;
      by rewrite Fetch_spec, lookup_connect_new.
  - intros W call p [[conns]|[out li inb]] id w; cbn; unfold RdmaFetch, Ibverbs.Disconnect, GrpcTransport.Disconnect; cbn;
      by rewrite Fetch_spec, lookup_delete_eq.
  - intros W call p q a [[conns]|[out li inb]] id w Hne; cbn; unfold RdmaFetch; cbn;
      apply Fetch_same; by apply lookup_connect_ne.
  - intros W call p q [[conns]|[out li inb]] id w Hne; cbn; unfold RdmaFetch; cbn;
      apply Fetch_same; by apply lookup_delete_ne.
Qed.

(** ** Read repair over any transport *)

Section read_repair.
Context {T : Type} `{KvTransportSpec T}.

(** The nodes that listen, by address, and what a pull finds there. *)
Definition call_fetch (address : string) (id : PbBlockId) (w : gmap string LetheCache) :
    option FetchResponse * gmap string LetheCache :=
  match w !! address with
  | None => (None, w)
  | Some c => let '(resp, c') := rpc_Fetch id c in (Some resp, <[address := c']> w)
  end.

(** The transport as [FetchFromAny] sees it: every pull is made on its own. *)
Definition pull (t : T) (id : BlockId) (w : gmap string LetheCache) (peer : string) : option KvBlock :=
  (kt_Fetch call_fetch t peer id w).1.

(** Connecting a list of peers. *)
Definition connect_all (peers : list (string * string)) (t : T) : T :=
  fold_left (λ t p, kt_Connect p.1 p.2 (kt_Disconnect p.1 t)) peers t.

Lemma pull_connect_all peers t id w p :
  p ∉ peers.*1 → pull (connect_all peers t) id w p = pull t id w p.
Proof.
  revert t. induction peers as [|[q a] peers IH]; intros t Hp; [done|].
  cbn [connect_all fold_left fst snd fmap list_fmap] in *. apply not_elem_of_cons in Hp as [Hne Hp].
  rewrite IH by done. unfold pull. rewrite kt_fetch_connect_other, kt_fetch_disconnect_other by done. done.
Qed.

Lemma pull_connected peers t id w p a :
  NoDup peers.*1 → (p, a) ∈ peers →
  pull (connect_all peers t) id w p = fetched (call_fetch a (BlockIdToProto id) w).1.
Proof.
  revert t. induction peers as [|[q b] peers IH]; intros t Hnd Hp; [by apply not_elem_of_nil in Hp|].
  cbn [connect_all fold_left fst snd fmap list_fmap] in *. apply NoDup_cons in Hnd as [Hq Hnd].
  apply elem_of_cons in Hp as [[= -> ->]|Hp]; [|by apply IH].
  rewrite pull_connect_all by done. unfold pull. rewrite kt_fetch_connected. by destruct (call_fetch _ _ _).
Qed.

(** What a node answers to a pull. *)
Lemma call_fetch_answer a id (w : gmap string LetheCache) :
  (∀ x c, w !! x = Some c → inv (lc_store c)) →
  fetched (call_fetch a (BlockIdToProto id) w).1 =
  c ← w !! a; pushed id <$> contents (lc_store c) !! id.
Proof.
  intros Hi. unfold call_fetch. destruct (w !! a) as [c|] eqn:E; [|done]. cbn [mbind option_bind].
  rewrite <- (Fetch_served {["x" := "y"]} "x" "y") by (eauto || done).
  unfold Fetch, stub_for, serve_fetch. rewrite lookup_singleton_eq.
  by destruct (rpc_Fetch (BlockIdToProto id) c).
Qed.

(** Read repair: over any transport that keeps the interface's promises,
    with any assignment of addresses to peers and nodes of one payload function
    behind them, a fetch from several peers returns only the requested block
    with its payload, held by one of the asked peers; and it returns it if one
    of them holds it, whatever the others answer and in whatever order the
    answers come in before the last poll. *)
Theorem read_repair_over_transport payload peers t id w passes n :
  NoDup peers.*1 → (∀ a c, w !! a = Some c → node_ok payload c) → (length peers ≤ n)%nat →
  let answer := pull (connect_all peers t) id w in
  let holder p a := (p, a) ∈ peers ∧ ∃ c, w !! a = Some c ∧ is_Some (contents (lc_store c) !! id) in
  (∀ b, FetchFromAny answer true passes peers.*1 = Some b → b = pushed id (payload id) ∧ ∃ p a, holder p a) ∧
  ((∃ p a, holder p a) →
   FetchFromAny answer true (passes ++ [replicate n true]) peers.*1 = Some (pushed id (payload id))).
Proof.
  intros Hnd Hok Hn answer holder.
  assert (∀ p a, (p, a) ∈ peers → answer p = c ← w !! a; pushed id <$> contents (lc_store c) !! id) as Hans.
  { intros p a Hp. unfold answer. rewrite (pull_connected _ _ _ _ _ a) by done.
    apply call_fetch_answer. intros x c Hc. apply (Hok x c Hc). }
  assert (∀ p b, p ∈ peers.*1 → answer p = Some b → b = pushed id (payload id) ∧ ∃ a, holder p a) as Hsound.
  { intros p b ([q a] & -> & Hp)%list_elem_of_fmap Hb. cbn [fst] in *. rewrite (Hans q a Hp) in Hb.
    apply bind_Some in Hb as (c & Hc & Hb). apply fmap_Some in Hb as (d & Hd & ->).
    split; [by rewrite (no_addressed _ c (Hok a c Hc) _ _ Hd)|]. exists a. split; [done|]. exists c. eauto. }
  assert (∀ ps b, FetchFromAny answer true ps peers.*1 = Some b → b = pushed id (payload id) ∧ ∃ p a, holder p a) as Hall.
  { intros ps b Hb. destruct (fetch_from_any_spec answer ps n peers.*1) as [Hs _]; [by rewrite length_fmap|].
    destruct (Hs b Hb) as (p & Hp & Ha). destruct (Hsound p b Hp Ha) as (-> & a & Hh). split; [done|]. eauto. }
  split; [apply Hall|]. intros (p & a & Hp & c & Hc & d & Hd).
  destruct (fetch_from_any_spec answer passes n peers.*1) as [_ Hc']; [by rewrite length_fmap|].
  destruct Hc' as [b Hb].
  { exists p. split; [by apply list_elem_of_fmap_2' with (p, a)|]. rewrite (Hans p a Hp), Hc. cbn. rewrite Hd. by eexists. }
  rewrite Hb. f_equal. by apply (Hall _ _ Hb).
Qed.
End read_repair.

(** ** RDMA against gRPC *)

(** The receiving node after the calls of its callback. *)
Definition deliver (got : list (BlockId * bytes * Z)) (c : LetheCache) : LetheCache :=
  fold_left (λ c m, on_receive m.1.1 m.1.2 c) got c.

(** The same pushes as gRPC sends to the node, one after the other. *)
Definition grpc_pushes (t : GrpcStreamTransport) (peer : string) (ms : list Push) (c : LetheCache) : LetheCache :=
  fold_left (λ c m, (kt_Send serve_insert (mkVerbsAnswers (true, true, true, true) true true []) peer
                       (pu_id m) (pu_purpose m) (pu_data m) t c).2) ms c.

Lemma deliver_received t peer addr ms c :
  gt_peers t !! peer = Some addr → deliver (received <$> ms) c = grpc_pushes t peer ms c.
Proof.
  intros Hp. revert c. induction ms as [|m ms IH]; intros c; [done|].
  cbn [deliver grpc_pushes fmap list_fmap fold_left] in *. rewrite IH. unfold grpc_pushes. f_equal.
  cbn. unfold GrpcTransport.Send, stub_for, serve_insert, on_receive. rewrite Hp, rpc_Insert_push. done.
Qed.

(** C31 (RDMA refines gRPC): at every moment of a run of a connection, the
    receiving node is in the state that a prefix of the posted pushes would
    have left it in had they been sent over gRPC one after the other, and once
    the connection drains, in the state that all of them would have. *)
Theorem rdma_refines_grpc mb keys evs t peer addr c :
  0 ≤ mb → Z.of_nat kHeaderBytes + mb < 2 ^ 32 → Z.of_nat (length evs) < 2 ^ 47 → Forall event_wf evs →
  gt_peers t !! peer = Some addr →
  ∃ p p', pipe_run mb keys evs = Some p ∧ fold_left (pipe_step mb) (drain p) (Some p) = Some p' ∧
    deliver (rv_got (pp_recv p)) c = grpc_pushes t peer (take (length (rv_got (pp_recv p))) (pp_sent p)) c ∧
    deliver (rv_got (pp_recv p')) c = grpc_pushes t peer (pp_sent p) c.
Proof.
  intros Hmb Hcap Hlen Hwf Ht.
  destruct (pipe_run_ok mb keys evs Hmb Hcap Hlen Hwf) as (p & B & mg & mc & ms & mr & ma & E & Hok).
  destruct (drain_all mb B p mg mc ms mr ma) as (p' & Ep' & _ & Hg); [unfold MsgCap; lia|done|].
  exists p, p'. split; [exact E|]. split; [exact Ep'|]. rewrite Hg, (po_got _ _ _ _ _ _ _ _ Hok), length_fmap.
  rewrite (po_sent _ _ _ _ _ _ _ _ Hok) at 1. rewrite take_app_length. split; by apply deliver_received with addr.
Qed.

(** ** Concrete runs *)

Definition wit_env (use : option string) : TransportEnv :=
  mkTransportEnv use (Some "10.0.0.1:7471") (Some "b@10.0.0.2:7471") None.

(** The variable selects RDMA only in a binary that has it. *)
Example choose_transport_cases :
  (match choose_transport true (wit_env (Some "1")) with Some (OverRdma _) => true | _ => false end) = true ∧
  (match choose_transport false (wit_env (Some "1")) with Some (OverGrpc _) => true | _ => false end) = true ∧
  (match choose_transport true (wit_env None) with Some (OverGrpc _) => true | _ => false end) = true.
Proof. by vm_compute. Qed.

(** Of two peers one holds the block and nobody listens at the other's
    address; the first poll finds only the empty answer. *)
Definition wit_holder : LetheCache := (Insert [wit_on DRAM] wit_node).2.

Definition wit_peer_list : list (string * string) := [("a", "h:0"); ("z", "h:9")].

Lemma read_repair_over_transport_witness :
  FetchFromAny (pull (connect_all wit_peer_list (OverGrpc (mkGrpc ∅))) (kv_id (wit_on DRAM)) {["h:0" := wit_holder]})
    true ([[false; true]] ++ [[true; true]]) ["a"; "z"] =
  Some (pushed (kv_id (wit_on DRAM)) (wit_payload (kv_id (wit_on DRAM)))).
Proof.
  destruct (read_repair_over_transport wit_payload wit_peer_list (OverGrpc (mkGrpc ∅)) (kv_id (wit_on DRAM))
    {["h:0" := wit_holder]} [[false; true]] 2) as [_ H]; [by apply (bool_decide_unpack _); vm_compute| |done|apply H].
  - intros a c [_ <-]%lookup_singleton_Some. apply insert_node_ok; [apply wit_node_ok|].
    apply Forall_singleton, wit_on_ok.
  - exists "a", "h:0". split; [by left|]. exists wit_holder. split; [apply lookup_singleton_eq|].
    by vm_compute; eexists.
Defined.

(** The connection of [wit_pipe] against the same two pushes over gRPC. *)
Lemma rdma_refines_grpc_witness :
  let t := mkGrpc {["a" := "h:0"]} in
  ∃ p p', pipe_run 4 (λ i, Z.of_nat i) wit_pipe = Some p ∧
    deliver (rv_got (pp_recv p')) wit_node =
      grpc_pushes t "a" [wit_push 0 Byte.x0a; wit_push 1 Byte.x0b] wit_node.
Proof.
  intros t. destruct (rdma_refines_grpc 4 (λ i, Z.of_nat i) wit_pipe t "a" "h:0" wit_node)
    as (p & p' & Hp & Hd & _ & H); [done|done|done|repeat constructor; by vm_compute|by vm_compute|].
  exists p, p'. split; [exact Hp|]. assert (pp_sent p = [wit_push 0 Byte.x0a; wit_push 1 Byte.x0b]) as E.
  { vm_compute in Hp. injection Hp as <-. by vm_compute. }
  rewrite <- E. exact H.
Defined.
