(* ===== verification/RdmaThreads.v ===== *)
(** * The RDMA transport under threads (ibverbs_transport.cpp)

    Concurrent sends, the pollers of the connections, the device that reads the
    posted buffers, and the calls that drop connections.  A sender dials under
    [dial_mu] after a second look at the table, keeps the raw pointer that the
    table gave it, takes a buffer under the lock of the connection, writes the
    message with no lock held and posts it.  A pointer is the number that the
    connection got when it was published; to use one whose connection was
    dropped is undefined, as is a write past the end of a buffer.  The
    destruction of a connection whose poller still runs ends the process, and so
    does a dial that is refused after its poller was started.

    An event is one critical section, one library call or one write between
    them.  The verbs library is the environment: it answers dials and posts, it
    reads a posted buffer at any time until the completion, and it completes
    only what was posted. *)
From S2P Require Import Prelude Types Rpc GrpcTransport Ibverbs.

Record Job : Type := mkJob {
  jb_peer : string;
  jb_id : BlockId;
  jb_purpose : StreamPurpose;
  jb_data : bytes
}.

Definition job_wire (j : Job) : bytes := wire_of (jb_id j) (jb_purpose j) (jb_data j).
Definition job_fits (j : Job) (msg_bytes : Z) : bool :=
  negb (Z.of_nat kHeaderBytes + size_of (jb_data j) >? Z.of_nat kHeaderBytes + msg_bytes).

(** Where a call of [Send] is: the promise, the pointer, the attempts left, the
    buffer and the work request. *)
Inductive SendPc : Type :=
| Begin
| WantDial (pr : nat)
| Recheck (pr : nat)
| Dialing (pr : nat)
| Publishing (pr : nat)
| Acquiring (pr o tries : nat)
| Staging (pr o buf : nat) (wr : Z)
| Posting (pr o buf : nat) (wr : Z)
| Unposting (pr o buf : nat) (wr : Z)
| Sent (pr : nat)
| Failed (pr : nat).

(** The transport of [Ibverbs], the numbers of its connections, the holder of
    [dial_mu], the posted work requests with their length and promise, the
    bytes that the device has read for each promise, and the senders. *)
Record RT : Type := mkRT {
  rt_rdma : Rdma;
  rt_ids : gmap string nat;
  rt_next : nat;
  rt_dial : option nat;
  rt_posted : gmap (string * Z) (nat * nat);
  rt_wire : list (nat * bytes);
  rt_threads : list (Job * SendPc)
}.

Definition new_rt (msg_bytes : Z) (peers : gmap string (string * Z)) : RT :=
  mkRT (make_rdma msg_bytes peers) ∅ 0 None ∅ [] [].

(** An event may have to wait, may be undefined, and may end the process
    ([std::terminate]). *)
Inductive Outcome : Type := Next (s : RT) | Blocked | Undefined | Terminates.

(** What the library answers to a dial or a post: success, or failure; a dial
    may also fail after the queue pair and the poller of the connection exist. *)
Inductive Answer : Type := Yes | No | Refused.

Inductive RtEvent : Type :=
| ESpawn (j : Job)
| EStep (i : nat) (answer : Answer)
| EPoll (peer : string) (wr : Z) (ok : bool)
| ERead (peer : string) (wr : Z)
| EDisconnect (peer : string)
| EShutdown.

(** Thread [i] of [s] is at [pc], and the transport is [st]. *)
Definition moved (s : RT) (i : nat) (j : Job) (pc : SendPc) (dial : option nat) (st : Rdma) : RT :=
  mkRT st (rt_ids s) (rt_next s) dial (rt_posted s) (rt_wire s) (<[i := (j, pc)]> (rt_threads s)).

Definition deref (s : RT) (peer : string) (o : nat) : option Conn :=
  if bool_decide (rt_ids s !! peer = Some o) then rd_outbound (rt_rdma s) !! peer else None.

Definition put_conn (st : Rdma) (peer : string) (c : Conn) : Rdma :=
  with_outbound st (<[peer := c]> (rd_outbound st)).

(** The first look at the table. *)
Definition step_begin (s : RT) (i : nat) (j : Job) : Outcome :=
  let '(pr, st) := new_promise (rt_rdma s) in
  if job_fits j (rd_msg_bytes st)
  then match rt_ids s !! jb_peer j with
       | Some o => Next (moved s i j (Acquiring pr o kSendAttempts) (rt_dial s) st)
       | None => Next (moved s i j (WantDial pr) (rt_dial s) st)
       end
  else Next (moved s i j (Failed pr) (rt_dial s) (resolve pr false st)).

Definition step_lock (s : RT) (i : nat) (j : Job) (pr : nat) : Outcome :=
  match rt_dial s with
  | None => Next (moved s i j (Recheck pr) (Some i) (rt_rdma s))
  | Some _ => Blocked
  end.

(** No connection: the lock of the dial is released on the way out. *)
Definition no_connection (s : RT) (i : nat) (j : Job) (pr : nat) : Outcome :=
  Next (moved s i j (Failed pr) None (resolve pr false (count DropNoconn (rt_rdma s)))).

Definition step_recheck (s : RT) (i : nat) (j : Job) (pr : nat) : Outcome :=
  match rt_ids s !! jb_peer j with
  | Some o => Next (moved s i j (Acquiring pr o kSendAttempts) None (rt_rdma s))
  | None =>
      match rd_peers (rt_rdma s) !! jb_peer j with
      | Some _ => Next (moved s i j (Dialing pr) (rt_dial s) (rt_rdma s))
      | None => no_connection s i j pr
      end
  end.

(** A refused dial destroys the connection with its poller running. *)
Definition step_dial (s : RT) (i : nat) (j : Job) (pr : nat) (answer : Answer) : Outcome :=
  match answer with
  | Yes => Next (moved s i j (Publishing pr) (rt_dial s) (rt_rdma s))
  | No => no_connection s i j pr
  | Refused => Terminates
  end.

(** A connection that [emplace] refuses is destroyed with its poller running. *)
Definition step_publish (s : RT) (i : nat) (j : Job) (pr : nat) : Outcome :=
  match rt_ids s !! jb_peer j with
  | Some _ => Terminates
  | None =>
      let s' := moved s i j (Acquiring pr (rt_next s) kSendAttempts) None
                  (put_conn (rt_rdma s) (jb_peer j) (new_conn (rd_msg_bytes (rt_rdma s)))) in
      Next (mkRT (rt_rdma s') (<[jb_peer j := rt_next s]> (rt_ids s)) (S (rt_next s)) (rt_dial s') (rt_posted s')
              (rt_wire s') (rt_threads s'))
  end.

Definition step_acquire (s : RT) (i : nat) (j : Job) (pr o tries : nat) : Outcome :=
  match tries with
  | O => Next (moved s i j (Failed pr) (rt_dial s) (resolve pr false (count DropBp (rt_rdma s))))
  | S tries =>
      match deref s (jb_peer j) o with
      | None => Undefined
      | Some c =>
          match acquire pr c with
          | Some (buf, wr, c) =>
              Next (moved s i j (Staging pr o buf wr) (rt_dial s) (put_conn (rt_rdma s) (jb_peer j) c))
          | None => Next (moved s i j (Acquiring pr o tries) (rt_dial s) (rt_rdma s))
          end
      end
  end.

(** The message is copied into the registered memory. *)
Definition step_stage (s : RT) (i : nat) (j : Job) (pr o buf : nat) (wr : Z) : Outcome :=
  match deref s (jb_peer j) o with
  | None => Undefined
  | Some c =>
      match cn_send_bufs c !! buf with
      | None => Undefined
      | Some mem =>
          if (kHeaderBytes + length (jb_data j) <=? length mem)%nat
          then Next (moved s i j (Posting pr o buf wr) (rt_dial s)
                       (put_conn (rt_rdma s) (jb_peer j)
                          (write_buf buf (stage (jb_id j) (jb_purpose j) (jb_data j)) c)))
          else Undefined
      end
  end.

Definition step_post (s : RT) (i : nat) (j : Job) (pr o buf : nat) (wr : Z) (answer : Answer) : Outcome :=
  match deref s (jb_peer j) o with
  | None => Undefined
  | Some _ =>
      match answer with
      | Yes =>
          let s' := moved s i j (Sent pr) (rt_dial s) (count Posted (rt_rdma s)) in
          Next (mkRT (rt_rdma s') (rt_ids s') (rt_next s') (rt_dial s')
                  (<[(jb_peer j, wr) := ((kHeaderBytes + length (jb_data j))%nat, pr)]> (rt_posted s))
                  (rt_wire s') (rt_threads s'))
      | _ => Next (moved s i j (Unposting pr o buf wr) (rt_dial s) (rt_rdma s))
      end
  end.

Definition step_unpost (s : RT) (i : nat) (j : Job) (pr o buf : nat) (wr : Z) : Outcome :=
  match deref s (jb_peer j) o with
  | None => Undefined
  | Some c =>
      Next (moved s i j (Failed pr) (rt_dial s) (resolve pr false (put_conn (rt_rdma s) (jb_peer j) (unpost buf wr c))))
  end.

Definition send_step (s : RT) (i : nat) (j : Job) (pc : SendPc) (answer : Answer) : Outcome :=
  match pc with
  | Begin => step_begin s i j
  | WantDial pr => step_lock s i j pr
  | Recheck pr => step_recheck s i j pr
  | Dialing pr => step_dial s i j pr answer
  | Publishing pr => step_publish s i j pr
  | Acquiring pr o tries => step_acquire s i j pr o tries
  | Staging pr o buf wr => step_stage s i j pr o buf wr
  | Posting pr o buf wr => step_post s i j pr o buf wr answer
  | Unposting pr o buf wr => step_unpost s i j pr o buf wr
  | Sent _ | Failed _ => Blocked
  end.

(** A completion of a posted request, as the poller handles it. *)
Definition poll_step (s : RT) (peer : string) (wr : Z) (ok : bool) : Outcome :=
  match rt_posted s !! (peer, wr) with
  | None => Blocked
  | Some _ =>
      Next (mkRT (poll_one peer (rt_rdma s) (wr, ok)) (rt_ids s) (rt_next s) (rt_dial s)
              (delete (peer, wr) (rt_posted s)) (rt_wire s) (rt_threads s))
  end.

(** The device reads the buffer of a posted request. *)
Definition read_step (s : RT) (peer : string) (wr : Z) : Outcome :=
  match rt_posted s !! (peer, wr) with
  | None => Blocked
  | Some (len, pr) =>
      match rd_outbound (rt_rdma s) !! peer ≫= (λ c, cn_send_bufs c !! wr_buf wr) with
      | None => Undefined
      | Some mem =>
          Next (mkRT (rt_rdma s) (rt_ids s) (rt_next s) (rt_dial s) (rt_posted s) (rt_wire s ++ [(pr, take len mem)])
                  (rt_threads s))
      end
  end.

(** Dropping connections takes their posted requests with them. *)
Definition disconnect_step (s : RT) (peer : string) : Outcome :=
  Next (mkRT (Disconnect peer (rt_rdma s)) (delete peer (rt_ids s)) (rt_next s) (rt_dial s)
          (filter (λ x, x.1.1 ≠ peer) (rt_posted s)) (rt_wire s) (rt_threads s)).

Definition shutdown_step (s : RT) : Outcome :=
  if rd_stop (rt_rdma s) then Next s
  else Next (mkRT (Shutdown (rt_rdma s)) ∅ (rt_next s) (rt_dial s) ∅ (rt_wire s) (rt_threads s)).

Definition rt_step (s : RT) (e : RtEvent) : Outcome :=
  match e with
  | ESpawn j =>
      Next (mkRT (rt_rdma s) (rt_ids s) (rt_next s) (rt_dial s) (rt_posted s) (rt_wire s) (rt_threads s ++ [(j, Begin)]))
  | EStep i answer =>
      match rt_threads s !! i with
      | Some (j, pc) => send_step s i j pc answer
      | None => Blocked
      end
  | EPoll peer wr ok => poll_step s peer wr ok
  | ERead peer wr => read_step s peer wr
  | EDisconnect peer => disconnect_step s peer
  | EShutdown => shutdown_step s
  end.

(** An event that has to wait does not happen; [None] is undefined.  The result
    is the last state and whether the process is alive. *)
Fixpoint rt_run (s : RT) (es : list RtEvent) : option (RT * bool) :=
  match es with
  | [] => Some (s, true)
  | e :: es =>
      match rt_step s e with
      | Next s' => rt_run s' es
      | Blocked => rt_run s es
      | Undefined => None
      | Terminates => Some (s, false)
      end
  end.

(** The destructor: the second [Shutdown] returns at once, and a connection
    that is left is destroyed with its poller running. *)
Definition rt_destroy (s : RT) : option RT :=
  match shutdown_step s with
  | Next s' => if bool_decide (rd_outbound (rt_rdma s') = ∅) then Some s' else None
  | _ => None
  end.

(** ** The invariant *)

Definition pc_promise (pc : SendPc) : option nat :=
  match pc with
  | Begin => None
  | WantDial pr | Recheck pr | Dialing pr | Publishing pr | Acquiring pr _ _
  | Staging pr _ _ _ | Posting pr _ _ _ | Unposting pr _ _ _ | Sent pr | Failed pr => Some pr
  end.

(** The pointer that a sender will still use. *)
Definition pc_pointer (pc : SendPc) : option nat :=
  match pc with
  | Acquiring _ o _ | Staging _ o _ _ | Posting _ o _ _ | Unposting _ o _ _ => Some o
  | _ => None
  end.

Definition pc_dialing (pc : SendPc) : bool :=
  match pc with Recheck _ | Dialing _ | Publishing _ => true | _ => false end.

(** The holder of [dial_mu] has seen that the peer is not in the table. *)
Definition pc_undialled (pc : SendPc) : bool :=
  match pc with Dialing _ | Publishing _ => true | _ => false end.

Definition buffer (st : Rdma) (peer : string) (b : nat) : option bytes :=
  rd_outbound st !! peer ≫= λ c, cn_send_bufs c !! b.

(** The message of a job is in the buffer of a work request. *)
Definition staged (st : Rdma) (j : Job) (wr : Z) : Prop :=
  ∃ mem, buffer st (jb_peer j) (wr_buf wr) = Some mem ∧
    take (kHeaderBytes + length (jb_data j)) mem = job_wire j.

(** The sender has the buffer of its work request to itself. *)
Definition owns (s : RT) (j : Job) (pr o buf : nat) (wr : Z) : Prop :=
  rt_ids s !! jb_peer j = Some o ∧ pending_at (rt_rdma s) (jb_peer j) wr pr ∧ wr_buf wr = buf ∧
  rt_posted s !! (jb_peer j, wr) = None.

Definition pc_ok (s : RT) (j : Job) (pc : SendPc) : Prop :=
  match pc with
  | Begin => True
  | WantDial pr | Recheck pr | Dialing pr | Publishing pr =>
      job_fits j (rd_msg_bytes (rt_rdma s)) = true ∧ unused (rt_rdma s) pr
  | Acquiring pr o _ =>
      job_fits j (rd_msg_bytes (rt_rdma s)) = true ∧ unused (rt_rdma s) pr ∧ rt_ids s !! jb_peer j = Some o
  | Staging pr o buf wr => job_fits j (rd_msg_bytes (rt_rdma s)) = true ∧ owns s j pr o buf wr
  | Unposting pr o buf wr => owns s j pr o buf wr
  | Posting pr o buf wr => owns s j pr o buf wr ∧ staged (rt_rdma s) j wr
  | Sent pr =>
      (∃ wr, rt_posted s !! (jb_peer j, wr) = Some ((kHeaderBytes + length (jb_data j))%nat, pr)) ∨
      (∃ ok, (pr, ok) ∈ rd_resolved (rt_rdma s)) ∨ unused (rt_rdma s) pr
  | Failed pr => (pr, false) ∈ rd_resolved (rt_rdma s)
  end.

Record rt_ok (B : Z) (s : RT) : Prop := {
  ok_rdma : rdma_ok B (rt_rdma s);
  ok_ids p : is_Some (rt_ids s !! p) ↔ is_Some (rd_outbound (rt_rdma s) !! p);
  ok_bufs p c : rd_outbound (rt_rdma s) !! p = Some c →
    length (cn_send_bufs c) = kMaxSendBuffers ∧
    Forall (λ m, length m = (kHeaderBytes + Z.to_nat (rd_msg_bytes (rt_rdma s)))%nat) (cn_send_bufs c);
  ok_threads i j pc : rt_threads s !! i = Some (j, pc) → pc_ok s j pc;
  ok_promises i1 j1 pc1 i2 j2 pc2 pr :
    rt_threads s !! i1 = Some (j1, pc1) → rt_threads s !! i2 = Some (j2, pc2) →
    pc_promise pc1 = Some pr → pc_promise pc2 = Some pr → i1 = i2;
  ok_dial i j pc : rt_threads s !! i = Some (j, pc) → pc_dialing pc = true ↔ rt_dial s = Some i;
  ok_holder i : rt_dial s = Some i → is_Some (rt_threads s !! i);
  ok_undialled i j pc : rt_threads s !! i = Some (j, pc) → pc_undialled pc = true →
    rt_ids s !! jb_peer j = None ∧ is_Some (rd_peers (rt_rdma s) !! jb_peer j);
  ok_posted p w len pr : rt_posted s !! (p, w) = Some (len, pr) →
    pending_at (rt_rdma s) p w pr ∧
    ∃ i j, rt_threads s !! i = Some (j, Sent pr) ∧ jb_peer j = p ∧
      len = (kHeaderBytes + length (jb_data j))%nat ∧ staged (rt_rdma s) j w;
  ok_wire pr bs : (pr, bs) ∈ rt_wire s → ∃ i j, rt_threads s !! i = Some (j, Sent pr) ∧ bs = job_wire j
}.

Lemma new_rt_ok msg_bytes peers : rt_ok 1 (new_rt msg_bytes peers).
Proof.
  split; cbn [new_rt rt_rdma rt_ids rt_threads rt_posted rt_wire rt_dial].
  - apply make_rdma_ok.
  - intros p. unfold make_rdma. cbn [rd_outbound]. by rewrite !lookup_empty.
  - intros p c Hc. by apply no_conns in Hc.
  - intros i j pc H. by rewrite lookup_nil in H.
  - intros i1 j1 pc1 i2 j2 pc2 pr H. by rewrite lookup_nil in H.
  - intros i j pc H. by rewrite lookup_nil in H.
  - done.
  - intros i j pc H. by rewrite lookup_nil in H.
  - intros p w len pr H. by rewrite lookup_empty in H.
  - intros pr bs H. by apply not_elem_of_nil in H.
Qed.

(** ** What a step leaves alone *)

(** The promises in [P] keep their state and their buffers. *)
Record frame (P : nat → Prop) (st st' : Rdma) : Prop := {
  fr_msg : rd_msg_bytes st' = rd_msg_bytes st;
  fr_peers : rd_peers st' = rd_peers st;
  fr_unused q : P q → unused st q → unused st' q;
  fr_resolved x : x ∈ rd_resolved st → x ∈ rd_resolved st';
  fr_pending q p w : P q → pending_at st p w q →
    pending_at st' p w q ∧ buffer st' p (wr_buf w) = buffer st p (wr_buf w)
}.

#[export] Instance frame_preorder P : PreOrder (frame P).
Proof.
  split.
  - intros st. split; [done..|]. by split.
  - intros s1 s2 s3 [a1 b1 c1 d1 e1] [a2 b2 c2 d2 e2]. split; [congruence|congruence|eauto|eauto|].
    intros q p w Hq Hp. destruct (e1 q p w Hq Hp) as [Hp2 E2]. destruct (e2 q p w Hq Hp2) as [Hp3 E3].
    split; [done|congruence].
Qed.

Lemma frame_count P k st : frame P st (count k st).
Proof. split; [done..|]. by split. Qed.

Lemma frame_new_promise P st : frame P st (new_promise st).2.
Proof.
  split; [done|done| |done|by split]. intros q _ (Hlt & Hr & Hp). split_and!; [|done|done].
  cbn [new_promise snd rd_next_promise]. lia.
Qed.

Lemma frame_resolve pr b st : frame (λ q, q ≠ pr) st (resolve pr b st).
Proof.
  split; [done|done| | |by split].
  - intros q Hq (Hlt & Hr & Hp). split_and!; [done| |done]. cbn [resolve rd_resolved]. rewrite fmap_app. cbn.
    intros [?|?%list_elem_of_singleton]%elem_of_app; done.
  - intros x Hx. cbn [resolve rd_resolved]. apply elem_of_app. by left.
Qed.

(** Replacing a connection by one with the same buffers under the promises of
    [P] and without new sends for them. *)
Lemma frame_put_conn (P : nat → Prop) st peer c c' :
  rd_outbound st !! peer = Some c →
  (∀ q w, P q → cn_pending c' !! w = Some q ↔ cn_pending c !! w = Some q) →
  (∀ q w, P q → cn_pending c !! w = Some q → cn_send_bufs c' !! wr_buf w = cn_send_bufs c !! wr_buf w) →
  frame P st (put_conn st peer c').
Proof.
  intros Hc Hp Hb. split; [done|done| |done|].
  - intros q Hq (Hlt & Hr & Hn). split_and!; [done|done|]. intros p w [[-> Hx]|[_ Hx]]%pending_at_conn; [|by apply (Hn p w)].
    apply (Hn peer w). exists c. split; [done|]. by apply Hp.
  - intros q p w Hq (y & Hy & Hx). unfold buffer, put_conn. cbn [rd_outbound with_outbound]. destruct (decide (p = peer)) as [->|Hne].
    + rewrite Hc in Hy. injection Hy as <-. rewrite lookup_insert_eq, Hc. cbn. split; [|by apply (Hb q)].
      apply pending_at_conn. left. split; [done|]. by apply Hp.
    + rewrite lookup_insert_ne by done. split; [|done]. apply pending_at_conn. right. split; [done|]. by exists y.
Qed.

(** A connection for a peer that had none. *)
Lemma frame_new_conn P st peer msg :
  rd_outbound st !! peer = None → frame P st (put_conn st peer (new_conn msg)).
Proof.
  intros Hc. split; [done|done| |done|].
  - intros q _ (Hlt & Hr & Hn). split_and!; [done|done|]. intros p w [[_ Hx]|[_ Hx]]%pending_at_conn; [|by apply (Hn p w)].
    cbn in Hx. by rewrite lookup_empty in Hx.
  - intros q p w _ (y & Hy & Hx). assert (p ≠ peer) as Hne by congruence.
    unfold buffer, put_conn. cbn [rd_outbound with_outbound].
    rewrite lookup_insert_ne by done. split; [|done]. apply pending_at_conn. right. split; [done|]. by exists y.
Qed.

Lemma unused_lt st pr : unused st pr → (pr < rd_next_promise st)%nat.
Proof. by intros []. Qed.

Lemma resolved_lt B st pr b : rdma_ok B st → (pr, b) ∈ rd_resolved st → (pr < rd_next_promise st)%nat.
Proof. intros Hok H. apply (ro_resolved B st Hok), list_elem_of_fmap. by exists (pr, b). Qed.

Lemma thread_promise_lt B s i j pc pr :
  rt_ok B s → rt_threads s !! i = Some (j, pc) → pc_promise pc = Some pr → (pr < rd_next_promise (rt_rdma s))%nat.
Proof.
  intros Hok Hi Hpr. pose proof (ok_threads B s Hok i j pc Hi) as Hpc. pose proof (ok_rdma B s Hok) as Hr.
  assert (∀ p w, pending_at (rt_rdma s) p w pr → (pr < rd_next_promise (rt_rdma s))%nat) as Hpend
    by (intros p w H; by apply (ro_pending B _ Hr p w)).
  destruct pc as [|q|q|q|q|q o k|q o b w|q o b w|q o b w|q|q]; cbn in Hpr, Hpc; simplify_eq.
  1-4: by apply unused_lt, Hpc.
  - by apply unused_lt, Hpc.
  - destruct Hpc as (_ & _ & H & _). by eapply Hpend.
  - destruct Hpc as ((_ & H & _) & _). by eapply Hpend.
  - destruct Hpc as (_ & H & _). by eapply Hpend.
  - destruct Hpc as [(w & H)|[(b & H)|H]]; [|by eapply resolved_lt|by apply unused_lt].
    destruct (ok_posted B s Hok _ _ _ _ H) as [H1 _]. by eapply Hpend.
  - by eapply resolved_lt.
Qed.

Lemma staged_frame P st st' j wr pr :
  frame P st st' → P pr → pending_at st (jb_peer j) wr pr → staged st j wr → staged st' j wr.
Proof.
  intros Hf HP Hp (mem & Hm & Ht). destruct (fr_pending P st st' Hf pr _ _ HP Hp) as [_ E].
  exists mem. by rewrite E.
Qed.

(** A sender whose promise and connection are left alone. *)
Lemma pc_ok_frame P B s s' j pc :
  rt_ok B s → pc_ok s j pc → frame P (rt_rdma s) (rt_rdma s') → (∀ q, pc_promise pc = Some q → P q) →
  (is_Some (pc_pointer pc) → rt_ids s' !! jb_peer j = rt_ids s !! jb_peer j) →
  (∀ p w q, P q → pending_at (rt_rdma s) p w q → rt_posted s' !! (p, w) = rt_posted s !! (p, w)) →
  pc_ok s' j pc.
Proof.
  intros Hok Hpc Hf HP Hid Hpo. pose proof (fr_msg _ _ _ Hf) as Em. pose proof (fr_unused _ _ _ Hf) as Hu.
  assert (∀ pr o buf wr, P pr → rt_ids s' !! jb_peer j = rt_ids s !! jb_peer j → owns s j pr o buf wr → owns s' j pr o buf wr) as Hown.
  { intros pr o buf wr Hq Ei (H1 & H2 & H3 & H4). destruct (fr_pending _ _ _ Hf pr _ _ Hq H2) as [H2' _].
    split_and!; [congruence|done|done|]. by rewrite (Hpo _ _ pr). }
  destruct pc as [|q|q|q|q|q o k|q o b w|q o b w|q o b w|q|q]; cbn in *;
    try (specialize (HP q eq_refl)); rewrite ?Em.
  - done.
  - destruct Hpc. eauto.
  - destruct Hpc. eauto.
  - destruct Hpc. eauto.
  - destruct Hpc. eauto.
  - destruct Hpc as (? & ? & ?). rewrite Hid by (by eexists). eauto.
  - destruct Hpc. split; [done|]. apply Hown; [done|apply Hid; by eexists|done].
  - destruct Hpc as [Ho Hs]. split; [apply Hown; [done|apply Hid; by eexists|done]|].
    eapply staged_frame; [done|exact HP| |done]. apply Ho.
  - apply Hown; [done|apply Hid; by eexists|done].
  - destruct Hpc as [(w & H)|[(b & H)|H]].
    + left. exists w. rewrite (Hpo _ _ q); [done|done|]. by apply (ok_posted B s Hok _ _ _ _ H).
    + right. left. exists b. by apply (fr_resolved _ _ _ Hf).
    + right. right. by apply Hu.
  - by apply (fr_resolved _ _ _ Hf).
Qed.

(** The pointer of a sender is the current connection of its peer. *)
Lemma pc_ok_pointer s j pc o : pc_ok s j pc → pc_pointer pc = Some o → rt_ids s !! jb_peer j = Some o.
Proof. unfold pc_ok, owns. destruct pc; cbn [pc_pointer]; intros H E; try done; injection E as <-; tauto. Qed.

(** A request that is posted and whose sender is left alone. *)
Definition posted_ok (s : RT) (p : string) (w : Z) (len pr : nat) : Prop :=
  pending_at (rt_rdma s) p w pr ∧
  ∃ i j, rt_threads s !! i = Some (j, Sent pr) ∧ jb_peer j = p ∧
    len = (kHeaderBytes + length (jb_data j))%nat ∧ staged (rt_rdma s) j w.

Lemma posted_ok_frame P s s' p w len q :
  posted_ok s p w len q → frame P (rt_rdma s) (rt_rdma s') → P q →
  (∀ i j, rt_threads s !! i = Some (j, Sent q) → rt_threads s' !! i = Some (j, Sent q)) →
  posted_ok s' p w len q.
Proof.
  intros [Hp (i & j & Hi & <- & -> & Hs)] Hf HP Ht. destruct (fr_pending _ _ _ Hf q _ _ HP Hp) as [Hp' _].
  split; [done|]. exists i, j. split_and!; [by apply Ht|done|done|]. by eapply staged_frame.
Qed.

Lemma pending_at_fun st p w q1 q2 : pending_at st p w q1 → pending_at st p w q2 → q1 = q2.
Proof. intros (c1 & H1 & H2) (c2 & H3 & H4). congruence. Qed.

(** One step of the sender [i], which has or takes the promise [pr]: what the
    step did to the transport leaves every other promise alone. *)
Section one_step.
Context (B B' : Z) (s : RT) (i : nat) (j : Job) (pc pc' : SendPc) (pr : nat).
Context (st' : Rdma) (ids' : gmap string nat) (next' : nat) (dial' : option nat) (po' : gmap (string * Z) (nat * nat)).
Let s' : RT := mkRT st' ids' next' dial' po' (rt_wire s) (<[i := (j, pc')]> (rt_threads s)).
Hypothesis Hok : rt_ok B s.
Hypothesis Hi : rt_threads s !! i = Some (j, pc).
Hypothesis Hpr : pc_promise pc = Some pr ∨ pc_promise pc = None ∧ pr = rd_next_promise (rt_rdma s).
Hypothesis Hlive : ∀ q, pc ≠ Sent q.
Hypothesis Hpr' : pc_promise pc' = Some pr.
Hypothesis Hrdma : rdma_ok B' st'.
Hypothesis Hids : ∀ p, is_Some (ids' !! p) ↔ is_Some (rd_outbound st' !! p).
Hypothesis Hbufs : ∀ p c, rd_outbound st' !! p = Some c → length (cn_send_bufs c) = kMaxSendBuffers ∧
  Forall (λ m, length m = (kHeaderBytes + Z.to_nat (rd_msg_bytes st'))%nat) (cn_send_bufs c).
Hypothesis Hframe : frame (λ q, q ≠ pr) (rt_rdma s) st'.
Hypothesis Hgrow : ∀ p o, rt_ids s !! p = Some o → ids' !! p = Some o.
Hypothesis Hsame : ids' = rt_ids s ∨ rt_dial s = Some i.
Hypothesis Hothers : ∀ k, k ≠ i → dial' = Some k ↔ rt_dial s = Some k.
Hypothesis Hdial : pc_dialing pc' = true ↔ dial' = Some i.
Hypothesis Hund : pc_undialled pc' = true → ids' !! jb_peer j = None ∧ is_Some (rd_peers st' !! jb_peer j).
Hypothesis Hpost : po' = rt_posted s ∨ pc' = Sent pr ∧ ∃ w,
  po' = <[(jb_peer j, w) := ((kHeaderBytes + length (jb_data j))%nat, pr)]> (rt_posted s) ∧
  pending_at st' (jb_peer j) w pr ∧ staged st' j w.
Hypothesis Hpc' : pc_ok s' j pc'.

Lemma other_promise k j1 pc1 q :
  rt_threads s !! k = Some (j1, pc1) → k ≠ i → pc_promise pc1 = Some q → q ≠ pr.
Proof.
  intros Hk Hne Hq ->. destruct Hpr as [Hp|[_ ->]].
  - destruct Hne. by eapply (ok_promises B s Hok k j1 pc1 i j pc pr).
  - pose proof (thread_promise_lt B s k j1 pc1 _ Hok Hk Hq). lia.
Qed.

Lemma sent_other k j1 q : rt_threads s !! k = Some (j1, Sent q) → k ≠ i ∧ q ≠ pr.
Proof.
  intros Hk. assert (k ≠ i) as Hne. { intros ->. rewrite Hi in Hk. injection Hk as _ ->. by apply (Hlive q). }
  split; [done|]. by eapply (other_promise k j1 (Sent q)).
Qed.

Lemma thread_after k j1 pc1 :
  rt_threads s' !! k = Some (j1, pc1) → k = i ∧ j1 = j ∧ pc1 = pc' ∨ k ≠ i ∧ rt_threads s !! k = Some (j1, pc1).
Proof. cbn. intros [(-> & [= -> ->] & _)|[Hne H]]%list_lookup_insert_Some; [by left|right]. split; [congruence|done]. Qed.

Lemma thread_self : rt_threads s' !! i = Some (j, pc').
Proof. cbn. apply list_lookup_insert_eq. by eapply lookup_lt_Some. Qed.

Lemma thread_kept k x : k ≠ i → rt_threads s !! k = x → rt_threads s' !! k = x.
Proof. intros Hne Hk. cbn. by rewrite list_lookup_insert_ne by congruence. Qed.

Lemma posted_kept p w q :
  q ≠ pr → pending_at (rt_rdma s) p w q → rt_posted s' !! (p, w) = rt_posted s !! (p, w).
Proof.
  intros Hq Hp. cbn. destruct Hpost as [->|(_ & w' & -> & Hp' & _)]; [done|].
  apply lookup_insert_ne. intros [= <- <-].
  destruct (fr_pending _ _ _ Hframe q _ _ Hq Hp) as [Hp1 _]. destruct Hq. by eapply pending_at_fun.
Qed.

Lemma one_step_ok : rt_ok B' s'.
Proof.
  split; cbn [rt_rdma rt_ids rt_posted rt_wire rt_dial].
  - exact Hrdma.
  - exact Hids.
  - exact Hbufs.
  - intros k j1 pc1 [(-> & -> & ->)|[Hne Hk]]%thread_after; [exact Hpc'|].
    eapply (pc_ok_frame (λ q, q ≠ pr) B s); [done|by eapply ok_threads|done| | |].
    + intros q Hq. by eapply other_promise.
    + intros [o Ho]. pose proof (pc_ok_pointer s j1 pc1 o (ok_threads B s Hok k j1 pc1 Hk) Ho) as Hid.
      cbn. by rewrite Hid, (Hgrow _ _ Hid).
    + intros p w q. apply posted_kept.
  - intros k1 j1 pc1 k2 j2 pc2 q [(-> & -> & ->)|[Hn1 H1]]%thread_after [(-> & -> & ->)|[Hn2 H2]]%thread_after Hq1 Hq2.
    + done.
    + destruct (other_promise k2 j2 pc2 q H2 Hn2 Hq2). congruence.
    + destruct (other_promise k1 j1 pc1 q H1 Hn1 Hq1). congruence.
    + by eapply (ok_promises B s Hok k1 j1 pc1 k2 j2 pc2).
  - intros k j1 pc1 [(-> & -> & ->)|[Hne Hk]]%thread_after; [exact Hdial|].
    change (rt_dial s') with dial'. rewrite Hothers by done. by apply (ok_dial B s Hok k j1).
  - intros k Hk. destruct (decide (k = i)) as [->|Hne]; [rewrite thread_self; by eexists|].
    rewrite (thread_kept k _ Hne eq_refl). apply (ok_holder B s Hok). by apply Hothers.
  - intros k j1 pc1 [(-> & -> & ->)|[Hne Hk]]%thread_after Hu; [by apply Hund|].
    destruct (ok_undialled B s Hok k j1 pc1 Hk Hu) as [H1 H2]. cbn. rewrite (fr_peers _ _ _ Hframe). split; [|done].
    destruct Hsame as [->|Hd]; [done|]. destruct Hne.
    assert (rt_dial s = Some k) as Hd' by (apply (ok_dial B s Hok k j1 pc1 Hk); by destruct pc1). congruence.
  - intros p w len q Hx. change (posted_ok s' p w len q).
    assert (∀ len q, rt_posted s !! (p, w) = Some (len, q) → posted_ok s' p w len q) as Hold.
    { intros len1 q1 H1. pose proof (ok_posted B s Hok p w len1 q1 H1) as Hp1.
      pose proof Hp1 as [_ (k & j1 & Hk & _)]. apply sent_other in Hk as [_ Hq1].
      apply (posted_ok_frame (λ q, q ≠ pr) s); [done|done|done|].
      intros k' j' Hk'. destruct (sent_other k' j' q1 Hk') as [Hne _]. by apply thread_kept. }
    cbn in Hx. destruct Hpost as [E|(E1 & w' & E2 & Hp' & Hs')]; [rewrite E in Hx; by apply Hold|]. rewrite E2 in Hx.
    apply lookup_insert_Some in Hx as [[[= <- <-] [= <- <-]]|[_ Hx]]; [|by apply Hold].
    split; [done|]. exists i, j. split_and!; [rewrite thread_self; by rewrite E1|done|done|done].
  - intros q bs (k & j1 & Hk & ->)%(ok_wire B s Hok). exists k, j1. split; [|done].
    destruct (sent_other k j1 q Hk). by apply thread_kept.
Qed.
End one_step.

(** The lock of the dial is kept as it is, taken, or released. *)
Definition dial_move (s : RT) (i : nat) (pc pc' : SendPc) (dial' : option nat) : Prop :=
  dial' = rt_dial s ∧ pc_dialing pc' = pc_dialing pc ∨
  rt_dial s = None ∧ dial' = Some i ∧ pc_dialing pc' = true ∨
  rt_dial s = Some i ∧ dial' = None ∧ pc_dialing pc' = false.

Lemma dial_move_others s i pc pc' dial' :
  dial_move s i pc pc' dial' → ∀ k, k ≠ i → dial' = Some k ↔ rt_dial s = Some k.
Proof. intros [[-> _]|[(-> & -> & _)|(-> & -> & _)]] k Hk; split; congruence. Qed.

Lemma dial_move_self B s i j pc pc' dial' :
  rt_ok B s → rt_threads s !! i = Some (j, pc) → dial_move s i pc pc' dial' → pc_dialing pc' = true ↔ dial' = Some i.
Proof.
  intros Hok Hi [[-> ->]|[(_ & -> & ->)|(_ & -> & ->)]]; [by apply (ok_dial B s Hok i j)|done|done].
Qed.

(** A step that keeps the table of connections and the posted requests. *)
Lemma moved_ok B B' s i j pc pc' pr dial' st' :
  rt_ok B s → rt_threads s !! i = Some (j, pc) →
  pc_promise pc = Some pr ∨ pc_promise pc = None ∧ pr = rd_next_promise (rt_rdma s) →
  (∀ q, pc ≠ Sent q) → pc_promise pc' = Some pr → rdma_ok B' st' → frame (λ q, q ≠ pr) (rt_rdma s) st' →
  (∀ p, is_Some (rd_outbound st' !! p) ↔ is_Some (rd_outbound (rt_rdma s) !! p)) →
  (∀ p c, rd_outbound st' !! p = Some c → length (cn_send_bufs c) = kMaxSendBuffers ∧
    Forall (λ m, length m = (kHeaderBytes + Z.to_nat (rd_msg_bytes st'))%nat) (cn_send_bufs c)) →
  dial_move s i pc pc' dial' →
  (pc_undialled pc' = true → rt_ids s !! jb_peer j = None ∧ is_Some (rd_peers (rt_rdma s) !! jb_peer j)) →
  pc_ok (moved s i j pc' dial' st') j pc' → rt_ok B' (moved s i j pc' dial' st').
Proof.
  intros Hok Hi Hpr Hl Hpr' Hr Hf Ho Hb Hd Hu Hpc. eapply (one_step_ok B B' s i j pc pc' pr); try done.
  - intros p. rewrite Ho. apply (ok_ids B s Hok).
  - by left.
  - by eapply dial_move_others.
  - by eapply dial_move_self.
  - by rewrite (fr_peers _ _ _ Hf).
  - by left.
Qed.

(** A step that does not touch the connections. *)
Lemma moved_same_ok B B' s i j pc pc' pr dial' st' :
  rt_ok B s → rt_threads s !! i = Some (j, pc) →
  pc_promise pc = Some pr ∨ pc_promise pc = None ∧ pr = rd_next_promise (rt_rdma s) →
  (∀ q, pc ≠ Sent q) → pc_promise pc' = Some pr → rdma_ok B' st' → frame (λ q, q ≠ pr) (rt_rdma s) st' →
  rd_outbound st' = rd_outbound (rt_rdma s) → dial_move s i pc pc' dial' →
  (pc_undialled pc' = true → rt_ids s !! jb_peer j = None ∧ is_Some (rd_peers (rt_rdma s) !! jb_peer j)) →
  pc_ok (moved s i j pc' dial' st') j pc' → rt_ok B' (moved s i j pc' dial' st').
Proof.
  intros Hok Hi Hpr Hl Hpr' Hr Hf Ho Hd Hu Hpc. eapply (moved_ok B B' s i j pc pc' pr); try done.
  - intros p. by rewrite Ho.
  - intros p c. rewrite Ho, (fr_msg _ _ _ Hf). apply (ok_bufs B s Hok).
Qed.

Lemma in_resolved pr b st : (pr, b) ∈ rd_resolved (resolve pr b st).
Proof. cbn. apply elem_of_app. right. by left. Qed.

Ltac same_dial := left; split; reflexivity.

Lemma step_begin_ok B s i j s' :
  rt_ok B s → rt_threads s !! i = Some (j, Begin) → step_begin s i j = Next s' → rt_ok B s'.
Proof.
  intros Hok Hi. unfold step_begin. pose proof (new_promise_ok B (rt_rdma s) (ok_rdma B s Hok)) as Hnew.
  pose proof (frame_new_promise (λ q, q ≠ rd_next_promise (rt_rdma s)) (rt_rdma s)) as Hf.
  unfold new_promise in *. cbn [snd] in Hf. destruct Hnew as [Hr Hu].
  match type of Hr with rdma_ok _ ?x => set (st1 := x) in * end. change (rd_msg_bytes st1) with (rd_msg_bytes (rt_rdma s)).
  destruct (job_fits j (rd_msg_bytes (rt_rdma s))) eqn:Efit; [destruct (rt_ids s !! jb_peer j) as [o|] eqn:Eo|]; intros [= <-].
  - eapply (moved_same_ok B B s i j Begin); [done|done|by right|done|done|done|done|done|same_dial|done|]. by cbn.
  - eapply (moved_same_ok B B s i j Begin); [done|done|by right|done|done|done|done|done|same_dial|done|]. by cbn.
  - eapply (moved_same_ok B B s i j Begin); [done|done|by right|done|done|by apply resolve_ok| |done|same_dial|done|].
    + etrans; [exact Hf|apply frame_resolve].
    + apply in_resolved.
Qed.

Lemma no_connection_ok B s i j pc pr s' :
  rt_ok B s → rt_threads s !! i = Some (j, pc) → pc_promise pc = Some pr → pc_dialing pc = true →
  unused (rt_rdma s) pr → no_connection s i j pr = Next s' → rt_ok B s'.
Proof.
  intros Hok Hi Hpr Hd Hu [= <-].
  eapply (moved_same_ok B B s i j pc (Failed pr) pr); [done|done|by left|by intros q ->|done| | |done| |done|].
  - apply resolve_ok; [by apply count_ok, Hok|done].
  - etrans; [apply frame_count|apply frame_resolve].
  - right. right. split; [|done]. by apply (ok_dial B s Hok i j pc Hi).
  - apply in_resolved.
Qed.

Lemma step_lock_ok B s i j pr s' :
  rt_ok B s → rt_threads s !! i = Some (j, WantDial pr) → step_lock s i j pr = Next s' → rt_ok B s'.
Proof.
  intros Hok Hi. unfold step_lock. destruct (rt_dial s) as [k|] eqn:Ed; [done|]. intros [= <-].
  eapply (moved_same_ok B B s i j (WantDial pr)); [done|done|by left|done|done|apply Hok|done|done| |done|].
  - right. left. by rewrite Ed.
  - by apply (ok_threads B s Hok i j (WantDial pr)).
Qed.

Lemma step_recheck_ok B s i j pr s' :
  rt_ok B s → rt_threads s !! i = Some (j, Recheck pr) → step_recheck s i j pr = Next s' → rt_ok B s'.
Proof.
  intros Hok Hi. unfold step_recheck. pose proof (ok_threads B s Hok _ _ _ Hi) as [Hfit Hu].
  destruct (rt_ids s !! jb_peer j) as [o|] eqn:Eo; [|destruct (rd_peers (rt_rdma s) !! jb_peer j) as [ep|] eqn:Ep].
  - intros [= <-]. eapply (moved_same_ok B B s i j (Recheck pr)); [done|done|by left|done|done|apply Hok|done|done| |done|by cbn].
    right. right. split; [|done]. by apply (ok_dial B s Hok i j _ Hi).
  - intros [= <-]. eapply (moved_same_ok B B s i j (Recheck pr)); [done|done|by left|done|done|apply Hok|done|done|same_dial| |by cbn].
    intros _. split; [done|by eexists].
  - by apply (no_connection_ok B s i j (Recheck pr)).
Qed.

Lemma step_dial_ok B s i j pr answer s' :
  rt_ok B s → rt_threads s !! i = Some (j, Dialing pr) → step_dial s i j pr answer = Next s' → rt_ok B s'.
Proof.
  intros Hok Hi. unfold step_dial. pose proof (ok_threads B s Hok _ _ _ Hi) as [Hfit Hu].
  destruct answer; [intros [= <-]|by apply (no_connection_ok B s i j (Dialing pr))|done].
  eapply (moved_same_ok B B s i j (Dialing pr)); [done|done|by left|done|done|apply Hok|done|done|same_dial| |by cbn].
  intros _. by apply (ok_undialled B s Hok i j _ Hi).
Qed.

Lemma no_id_no_conn B s p : rt_ok B s → rt_ids s !! p = None → rd_outbound (rt_rdma s) !! p = None.
Proof.
  intros Hok H. apply eq_None_not_Some. intros Hc%(ok_ids B s Hok). rewrite H in Hc. by destruct Hc.
Qed.

Lemma new_conn_bufs msg :
  length (cn_send_bufs (new_conn msg)) = kMaxSendBuffers ∧
  Forall (λ m, length m = (kHeaderBytes + Z.to_nat msg)%nat) (cn_send_bufs (new_conn msg)).
Proof.
  unfold new_conn. cbn [cn_send_bufs]. split; [apply length_replicate|]. apply Forall_replicate. apply length_replicate.
Qed.

(** Under the lock of the dial nobody else can have published the peer. *)
Lemma step_publish_ok B s i j pr :
  1 ≤ B → rt_ok B s → rt_threads s !! i = Some (j, Publishing pr) →
  ∃ s', step_publish s i j pr = Next s' ∧ rt_ok B s'.
Proof.
  intros HB Hok Hi. unfold step_publish. destruct (ok_undialled B s Hok i j _ Hi eq_refl) as [Hn Hp]. rewrite Hn.
  eexists. split; [reflexivity|]. pose proof (ok_threads B s Hok _ _ _ Hi) as [Hfit Hu].
  assert (rt_dial s = Some i) as Hd by (by apply (ok_dial B s Hok i j _ Hi)).
  pose proof (no_id_no_conn B s _ Hok Hn) as Hc.
  pose proof (EnsureOutbound_ok B true (jb_peer j) (rt_rdma s) HB (ok_rdma B s Hok)) as He.
  unfold EnsureOutbound in He. rewrite Hc in He. destruct Hp as [ep Hp]. rewrite Hp in He. destruct He as (Hr & Hu' & _ & _).
  pose proof (frame_new_conn (λ q, q ≠ pr) (rt_rdma s) (jb_peer j) (rd_msg_bytes (rt_rdma s)) Hc) as Hf.
  eapply (one_step_ok B B s i j (Publishing pr)); [done|done|by left|done|done|exact Hr| | |exact Hf| | | | |done|by left|].
  - intros p. unfold put_conn. cbn [rd_outbound with_outbound moved rt_rdma]. destruct (decide (p = jb_peer j)) as [->|Hne].
    + rewrite !lookup_insert_eq. split; intros _; by eexists.
    + rewrite !lookup_insert_ne by done. apply (ok_ids B s Hok).
  - intros p c. unfold put_conn. cbn [rd_outbound with_outbound moved rt_rdma].
    intros [[<- <-]|[_ Hx]]%lookup_insert_Some; [apply new_conn_bufs|by apply (ok_bufs B s Hok p)].
  - intros p o Ho. rewrite lookup_insert_ne; [done|congruence].
  - by right.
  - intros k Hk. cbn. split; congruence.
  - by cbn.
  - cbn. split_and!; [done|by apply Hu'|by rewrite lookup_insert_eq].
Qed.

Lemma deref_live B s j o :
  rt_ok B s → rt_ids s !! jb_peer j = Some o →
  ∃ c, deref s (jb_peer j) o = Some c ∧ rd_outbound (rt_rdma s) !! jb_peer j = Some c.
Proof.
  intros Hok Ho. destruct (proj1 (ok_ids B s Hok (jb_peer j))) as [c Hc]; [by eexists|].
  exists c. unfold deref. by rewrite bool_decide_true.
Qed.

(** Replacing a connection by one with buffers of the same size. *)
Lemma put_conn_shape B s p c c' :
  rt_ok B s → rd_outbound (rt_rdma s) !! p = Some c → length <$> cn_send_bufs c' = length <$> cn_send_bufs c →
  (∀ q, is_Some (rd_outbound (put_conn (rt_rdma s) p c') !! q) ↔ is_Some (rd_outbound (rt_rdma s) !! q)) ∧
  (∀ q y, rd_outbound (put_conn (rt_rdma s) p c') !! q = Some y → length (cn_send_bufs y) = kMaxSendBuffers ∧
    Forall (λ m, length m = (kHeaderBytes + Z.to_nat (rd_msg_bytes (rt_rdma s)))%nat) (cn_send_bufs y)).
Proof.
  intros Hok Hc El. unfold put_conn. cbn [rd_outbound with_outbound]. split.
  - intros q. destruct (decide (q = p)) as [->|Hne]; [|by rewrite lookup_insert_ne].
    rewrite lookup_insert_eq, Hc. split; intros _; by eexists.
  - intros q y [[<- <-]|[_ Hx]]%lookup_insert_Some; [|by apply (ok_bufs B s Hok q)].
    destruct (ok_bufs B s Hok p c Hc) as [H1 H2]. split.
    + apply (f_equal length) in El. rewrite !length_fmap in El. congruence.
    + set (n := (kHeaderBytes + Z.to_nat (rd_msg_bytes (rt_rdma s)))%nat) in *.
      change (Forall ((λ k, k = n) ∘ length) (cn_send_bufs c')). rewrite <- Forall_fmap, El, Forall_fmap. exact H2.
Qed.

(** Taking a buffer. *)
Lemma step_acquire_ok B s i j pr o tries :
  1 ≤ B < 2 ^ 48 - 1 → rt_ok B s → rt_threads s !! i = Some (j, Acquiring pr o tries) →
  ∃ s', step_acquire s i j pr o tries = Next s' ∧ rt_ok (B + 1) s'.
Proof.
  intros HB Hok Hi. unfold step_acquire. pose proof (ok_threads B s Hok _ _ _ Hi) as (Hfit & Hu & Ho).
  pose proof (ok_rdma B s Hok) as Hr.
  destruct tries as [|tries].
  { eexists. split; [reflexivity|].
    eapply (moved_same_ok B (B + 1) s i j (Acquiring pr o 0)); [done|done|by left|done|done| | |done|same_dial|done|].
    - apply (rdma_ok_mono B); [|lia]. apply resolve_ok; [by apply count_ok|done].
    - etrans; [apply frame_count|apply frame_resolve].
    - apply in_resolved. }
  destruct (deref_live B s j o Hok Ho) as (c & Hd & Hc). rewrite Hd.
  destruct (ro_conns B _ Hr _ c Hc) as [Hcok Hnext].
  destruct (acquire pr c) as [[[buf wr] c']|] eqn:Ea; eexists; (split; [reflexivity|]).
  2:{ eapply (moved_same_ok B (B + 1) s i j (Acquiring pr o (S tries))); [done|done|by left|done|done| |done|done|same_dial|done|done].
      apply (rdma_ok_mono B); [done|lia]. }
  destruct (acquire_ok pr c buf wr c' Hcok ltac:(lia) Ea) as (Hcok' & Hnone & Hpend & Hbuf & Hn').
  assert (cn_send_bufs c' = cn_send_bufs c) as Eb.
  { unfold acquire in Ea. destruct (last _); [|done]. by injection Ea as _ _ <-. }
  pose proof (acquire_loop_ok B 1 [] pr (jb_peer j) (rt_rdma s) Hr Hu ltac:(lia)) as Hl.
  cbn [acquire_loop] in Hl. rewrite Hc in Hl. cbn [mbind option_bind] in Hl. rewrite Ea in Hl.
  destruct Hl as (Hr' & _ & Hp' & _).
  assert (frame (λ q, q ≠ pr) (rt_rdma s) (put_conn (rt_rdma s) (jb_peer j) c')) as Hf.
  { apply (frame_put_conn _ _ _ c); [done| |by intros; rewrite Eb]. intros q w Hq. rewrite Hpend.
    rewrite lookup_insert_Some. split; [by intros [[_ ?]|[_ ?]]|]. intros Hx. right. split; [congruence|done]. }
  destruct (put_conn_shape B s (jb_peer j) c c' Hok Hc ltac:(by rewrite Eb)) as [Hs1 Hs2].
  eapply (moved_ok B (B + 1) s i j (Acquiring pr o (S tries))); [done|done|by left|done|done|exact Hr'|exact Hf|exact Hs1|exact Hs2|same_dial|done|].
  cbn. split; [done|]. split_and!; [done|exact Hp'|done|]. cbn.
  destruct (rt_posted s !! (jb_peer j, wr)) as [[len q]|] eqn:Eq; [|done].
  destruct (ok_posted B s Hok _ _ _ _ Eq) as [(y & Hy & Hx) _]. congruence.
Qed.

(** ** The buffer of a work request *)

Lemma in_flight_lookup c w q : cn_pending c !! w = Some q → ∃ k, (map_to_list (cn_pending c)).*1 !! k = Some w.
Proof.
  intros H. apply list_elem_of_lookup, list_elem_of_fmap. exists (w, q). split; [done|]. by apply elem_of_map_to_list.
Qed.

(** Two sends in flight have different buffers. *)
Lemma in_flight_inj c w1 q1 w2 q2 :
  conn_ok c → cn_pending c !! w1 = Some q1 → cn_pending c !! w2 = Some q2 → wr_buf w1 = wr_buf w2 → w1 = w2.
Proof.
  intros Hc H1 H2 E. destruct (in_flight_lookup c w1 q1 H1) as [k1 Hk1], (in_flight_lookup c w2 q2 H2) as [k2 Hk2].
  assert (NoDup (in_flight c)) as Hnd.
  { eapply (NoDup_app (cn_free_send c)). rewrite (co_partition c Hc). apply NoDup_seq. }
  assert (k1 = k2) as ->; [|congruence].
  eapply (NoDup_lookup _ _ _ (wr_buf w1) Hnd); unfold in_flight; rewrite list_lookup_fmap; [by rewrite Hk1|by rewrite Hk2, E].
Qed.

Lemma in_flight_lt c w q : conn_ok c → cn_pending c !! w = Some q → (wr_buf w < kMaxSendBuffers)%nat.
Proof.
  intros Hc H. assert (wr_buf w ∈ seq 0 kMaxSendBuffers) as Hin; [|apply elem_of_seq in Hin; lia].
  rewrite <- (co_partition c Hc). apply elem_of_app. right. destruct (in_flight_lookup c w q H) as [k Hk].
  apply list_elem_of_lookup. exists k. unfold in_flight. by rewrite list_lookup_fmap, Hk.
Qed.

Lemma job_fits_length j msg : job_fits j msg = true → (length (jb_data j) ≤ Z.to_nat msg)%nat.
Proof. unfold job_fits, size_of. rewrite negb_true_iff, Z.gtb_ltb, Z.ltb_ge. lia. Qed.

Lemma length_stage id p data mem :
  (kHeaderBytes + length data ≤ length mem)%nat → length (stage id p data mem) = length mem.
Proof. intros H. unfold stage. rewrite !length_app, length_encode_msg, length_drop. lia. Qed.

(** The message goes into a buffer that is large enough and that nobody else
    reads or writes. *)
Lemma step_stage_ok B s i j pr o buf wr :
  rt_ok B s → rt_threads s !! i = Some (j, Staging pr o buf wr) →
  ∃ s', step_stage s i j pr o buf wr = Next s' ∧ rt_ok B s'.
Proof.
  intros Hok Hi. unfold step_stage. pose proof (ok_threads B s Hok _ _ _ Hi) as (Hfit & Ho & Hp & Hb & Hpo).
  destruct (deref_live B s j o Hok Ho) as (c & Hd & Hc). rewrite Hd.
  pose proof Hp as (c1 & Hc1 & Hx). rewrite Hc in Hc1. injection Hc1 as <-.
  destruct (ro_conns B _ (ok_rdma B s Hok) _ c Hc) as [Hcok _].
  destruct (ok_bufs B s Hok _ c Hc) as [Hl Hm].
  destruct (lookup_lt_is_Some_2 (cn_send_bufs c) buf) as [mem Hmem].
  { rewrite Hl, <- Hb. by eapply in_flight_lt. }
  rewrite Hmem. rewrite Forall_lookup in Hm. pose proof (Hm buf mem Hmem) as Hlen. cbn beta in Hlen.
  apply job_fits_length in Hfit. assert (kHeaderBytes + length (jb_data j) ≤ length mem)%nat as Hle by (rewrite Hlen; lia).
  rewrite (proj2 (Nat.leb_le _ _) Hle). eexists. split; [reflexivity|].
  set (c' := write_buf buf (stage (jb_id j) (jb_purpose j) (jb_data j)) c).
  destruct (write_ok B (rt_rdma s) (jb_peer j) wr pr buf (stage (jb_id j) (jb_purpose j) (jb_data j)) (ok_rdma B s Hok) Hp) as [Hr' Hp'].
  rewrite (alter_conn _ _ c) in Hr', Hp' by done.
  destruct (put_conn_shape B s (jb_peer j) c c' Hok Hc) as [Hs1 Hs2].
  { apply list_eq. intros k. unfold c', write_buf. cbn [cn_send_bufs]. rewrite !list_lookup_fmap.
    destruct (decide (k = buf)) as [->|Hne]; [|by rewrite list_lookup_alter_ne].
    rewrite list_lookup_alter_eq, Hmem. cbn [fmap option_fmap option_map]. by rewrite length_stage. }
  eapply (moved_ok B B s i j (Staging pr o buf wr)); [done|done|by left|done|done|exact Hr'| |exact Hs1|exact Hs2|same_dial|done|].
  - apply (frame_put_conn _ _ _ c); [done|done|]. intros q w Hq Hw. cbn [c' write_buf cn_send_bufs].
    apply list_lookup_alter_ne. intros E. destruct Hq. assert (w = wr) as ->; [|congruence].
    eapply in_flight_inj; [done|done|done|congruence].
  - cbn. split; [by split_and!|]. exists (stage (jb_id j) (jb_purpose j) (jb_data j) mem). split; [|apply take_stage].
    unfold buffer, put_conn. cbn [rd_outbound with_outbound]. rewrite lookup_insert_eq. cbn.
    rewrite Hb, list_lookup_alter_eq, Hmem. done.
Qed.

Lemma step_post_ok B s i j pr o buf wr answer :
  rt_ok B s → rt_threads s !! i = Some (j, Posting pr o buf wr) →
  ∃ s', step_post s i j pr o buf wr answer = Next s' ∧ rt_ok B s'.
Proof.
  intros Hok Hi. unfold step_post. pose proof (ok_threads B s Hok _ _ _ Hi) as [Hown Hst].
  pose proof Hown as (Ho & Hp & Hb & Hpo). destruct (deref_live B s j o Hok Ho) as (c & Hd & Hc). rewrite Hd.
  destruct answer; eexists; (split; [reflexivity|]).
  - eapply (one_step_ok B B s i j (Posting pr o buf wr) (Sent pr) pr);
      [done|done|by left|done|done|by apply count_ok, Hok|apply Hok|apply Hok|apply frame_count|done|by left|done| |done| |].
    + apply (ok_dial B s Hok i j _ Hi).
    + right. split; [done|]. exists wr. done.
    + left. exists wr. apply lookup_insert_eq.
  - eapply (moved_same_ok B B s i j (Posting pr o buf wr)); [done|done|by left|done|done|apply Hok|done|done|same_dial|done|done].
  - eapply (moved_same_ok B B s i j (Posting pr o buf wr)); [done|done|by left|done|done|apply Hok|done|done|same_dial|done|done].
Qed.

Lemma step_unpost_ok B s i j pr o buf wr :
  rt_ok B s → rt_threads s !! i = Some (j, Unposting pr o buf wr) →
  ∃ s', step_unpost s i j pr o buf wr = Next s' ∧ rt_ok B s'.
Proof.
  intros Hok Hi. unfold step_unpost. pose proof (ok_threads B s Hok _ _ _ Hi) as (Ho & Hp & <- & Hpo).
  destruct (deref_live B s j o Hok Ho) as (c & Hd & Hc). rewrite Hd. eexists. split; [reflexivity|].
  destruct (unpost_ok B (rt_rdma s) (jb_peer j) wr pr (ok_rdma B s Hok) Hp) as [Hr' Hu'].
  rewrite (alter_conn _ _ c) in Hr', Hu' by done.
  destruct (put_conn_shape B s (jb_peer j) c (unpost (wr_buf wr) wr c) Hok Hc eq_refl) as [Hs1 Hs2].
  pose proof Hp as (c1 & Hc1 & Hx). rewrite Hc in Hc1. injection Hc1 as <-.
  eapply (moved_ok B B s i j (Unposting pr o (wr_buf wr) wr));
    [done|done|by left|done|done|by apply resolve_ok| |exact Hs1|exact Hs2|same_dial|done|apply in_resolved].
  etrans; [|apply frame_resolve]. apply (frame_put_conn _ _ _ c); [done| |done].
  intros q w Hq. cbn [unpost cn_pending]. rewrite lookup_delete_Some. split; [by intros []|].
  intros Hw. split; [|done]. intros <-. congruence.
Qed.

(** ** The events *)

Lemma send_step_ok B s i j pc answer :
  1 ≤ B < 2 ^ 48 - 1 → rt_ok B s → rt_threads s !! i = Some (j, pc) →
  match send_step s i j pc answer with
  | Next s' => rt_ok (B + 1) s' | Blocked => True | Undefined => False | Terminates => answer = Refused
  end.
Proof.
  intros HB Hok Hi.
  assert (∀ s', rt_ok B s' → rt_ok (B + 1) s') as Hmono.
  { intros s' []. split; try done. apply (rdma_ok_mono B); [done|lia]. }
  destruct pc as [|pr|pr|pr|pr|pr o tries|pr o buf wr|pr o buf wr|pr o buf wr|pr|pr]; cbn [send_step]; try done.
  - destruct (step_begin s i j) eqn:E; [by eapply Hmono, step_begin_ok|done|..];
      unfold step_begin in E; destruct (new_promise _); by repeat case_match.
  - destruct (step_lock s i j pr) eqn:E; [by eapply Hmono, step_lock_ok|done|..];
      unfold step_lock in E; by repeat case_match.
  - destruct (step_recheck s i j pr) eqn:E; [by eapply Hmono, step_recheck_ok|done|..];
      unfold step_recheck in E; by repeat case_match.
  - destruct (step_dial s i j pr answer) eqn:E; [by eapply Hmono, step_dial_ok|done|..];
      unfold step_dial in E; by repeat case_match.
  - destruct (step_publish_ok B s i j pr ltac:(lia) Hok Hi) as (s' & -> & H). by apply Hmono.
  - by destruct (step_acquire_ok B s i j pr o tries HB Hok Hi) as (s' & -> & H).
  - destruct (step_stage_ok B s i j pr o buf wr Hok Hi) as (s' & -> & H). by apply Hmono.
  - destruct (step_post_ok B s i j pr o buf wr answer Hok Hi) as (s' & -> & H). by apply Hmono.
  - destruct (step_unpost_ok B s i j pr o buf wr Hok Hi) as (s' & -> & H). by apply Hmono.
Qed.

Lemma poll_one_pending p w q ok st c :
  rd_outbound st !! p = Some c → cn_pending c !! w = Some q →
  poll_one p st (w, ok) = count (if ok then DoneOk else DoneErr) (resolve q ok (put_conn st p (unpost (wr_buf w) w c))).
Proof. intros Hc Hx. unfold poll_one, complete. rewrite Hc. cbn [fst snd]. by rewrite Hx. Qed.

(** A completion resolves the promise of the send and frees its buffer. *)
Lemma poll_step_ok B s p w ok s' : rt_ok B s → poll_step s p w ok = Next s' → rt_ok B s'.
Proof.
  intros Hok. unfold poll_step. destruct (rt_posted s !! (p, w)) as [[len q]|] eqn:Epo; [|done]. intros [= <-].
  destruct (ok_posted B s Hok p w len q Epo) as [Hp (i & j & Hi & Hj & -> & Hst)].
  pose proof Hp as (c & Hc & Hx). destruct (poll_one_ok B p (rt_rdma s) (w, ok) (ok_rdma B s Hok)) as (Hr' & _ & _).
  rewrite (poll_one_pending p w q ok _ c Hc Hx) in *.
  set (st1 := put_conn (rt_rdma s) p (unpost (wr_buf w) w c)) in *.
  set (s' := mkRT _ _ _ _ _ _ _).
  destruct (put_conn_shape B s p c (unpost (wr_buf w) w c) Hok Hc eq_refl) as [Hs1 Hs2].
  assert (frame (λ r, r ≠ q) (rt_rdma s) (rt_rdma s')) as Hf.
  { etrans; [|etrans; [apply (frame_resolve q ok)|apply frame_count]]. apply (frame_put_conn _ _ _ c); [done| |done].
    intros r v Hr. cbn [unpost cn_pending]. rewrite lookup_delete_Some. split; [by intros []|].
    intros Hv. split; [|done]. intros <-. congruence. }
  assert (∀ p1 w1 r, r ≠ q → pending_at (rt_rdma s) p1 w1 r → rt_posted s' !! (p1, w1) = rt_posted s !! (p1, w1)) as Hpo.
  { intros p1 w1 r Hr Hp1. cbn. apply lookup_delete_ne. intros [= <- <-]. destruct Hr. by eapply pending_at_fun. }
  split; cbn [rt_rdma rt_ids rt_threads rt_posted rt_wire rt_dial s'].
  - exact Hr'.
  - intros p1. rewrite (ok_ids B s Hok). symmetry. apply Hs1.
  - exact Hs2.
  - intros k j1 pc1 Hk. destruct (decide (k = i)) as [->|Hne].
    + rewrite Hi in Hk. injection Hk as <- <-. right. left. exists ok. apply in_resolved.
    + apply (pc_ok_frame (λ r, r ≠ q) B s); [done|by eapply ok_threads|exact Hf| |done|exact Hpo].
      intros r Hr ->. destruct Hne. by eapply (ok_promises B s Hok k j1 pc1 i j (Sent q)).
  - apply (ok_promises B s Hok).
  - apply (ok_dial B s Hok).
  - apply (ok_holder B s Hok).
  - apply (ok_undialled B s Hok).
  - intros p1 w1 len1 r [Hne Hr]%lookup_delete_Some.
    pose proof (ok_posted B s Hok p1 w1 len1 r Hr) as Hold. destruct (decide (r = q)) as [->|Hrq].
    + destruct Hne. destruct (ro_unique B _ (ok_rdma B s Hok) p w p1 w1 q Hp (proj1 Hold)) as [-> ->]. done.
    + by apply (posted_ok_frame (λ r, r ≠ q) s s' p1 w1 len1 r).
  - apply (ok_wire B s Hok).
Qed.

(** What the device reads is the message of the sender. *)
Lemma read_step_ok B s p w :
  rt_ok B s → match read_step s p w with Next s' => rt_ok B s' | Blocked => True | _ => False end.
Proof.
  intros Hok. unfold read_step. destruct (rt_posted s !! (p, w)) as [[len q]|] eqn:Epo; [|done].
  destruct (ok_posted B s Hok p w len q Epo) as [Hp (i & j & Hi & Hj & Hlen & mem & Hm & Ht)].
  unfold buffer in Hm. rewrite Hj in Hm. rewrite Hm.
  split; cbn [rt_rdma rt_ids rt_threads rt_posted rt_wire rt_dial]; try apply Hok.
  intros r bs [Hr|[= -> ->]%list_elem_of_singleton]%elem_of_app; [by apply (ok_wire B s Hok)|].
  exists i, j. rewrite Hlen, Ht. done.
Qed.

Lemma spawn_ok B s j :
  rt_ok B s →
  rt_ok B (mkRT (rt_rdma s) (rt_ids s) (rt_next s) (rt_dial s) (rt_posted s) (rt_wire s) (rt_threads s ++ [(j, Begin)])).
Proof.
  intros Hok.
  assert (∀ k j1 pc1, (rt_threads s ++ [(j, Begin)]) !! k = Some (j1, pc1) →
    rt_threads s !! k = Some (j1, pc1) ∨ k = length (rt_threads s) ∧ j1 = j ∧ pc1 = Begin) as Hk.
  { intros k j1 pc1 [H|[Hl H]]%lookup_app_Some; [by left|right].
    apply list_lookup_singleton_Some in H as [H [= <- <-]]. split; [lia|done]. }
  assert (∀ k x, rt_threads s !! k = Some x → (rt_threads s ++ [(j, Begin)]) !! k = Some x) as Hold
    by (intros k x; apply lookup_app_l_Some).
  split; cbn [rt_rdma rt_ids rt_threads rt_posted rt_wire rt_dial]; try apply Hok.
  - intros k j1 pc1 [H|(_ & -> & ->)]%Hk; [by apply (ok_threads B s Hok k)|done].
  - intros k1 j1 pc1 k2 j2 pc2 pr [H1|(_ & -> & ->)]%Hk [H2|(_ & -> & ->)]%Hk; cbn; try done.
    by apply (ok_promises B s Hok k1 j1 pc1 k2 j2 pc2).
  - intros k j1 pc1 [H|(-> & -> & ->)]%Hk; [by apply (ok_dial B s Hok k j1)|]. split; [done|].
    intros [x Hx]%(ok_holder B s Hok). apply lookup_lt_Some in Hx. lia.
  - intros k [x Hx]%(ok_holder B s Hok). exists x. by apply Hold.
  - intros k j1 pc1 [H|(_ & -> & ->)]%Hk; [by apply (ok_undialled B s Hok k j1)|done].
  - intros p w len pr H. destruct (ok_posted B s Hok p w len pr H) as [Hp (i & j1 & Hi & Hr)].
    split; [done|]. exists i, j1. split; [by apply Hold|done].
  - intros pr bs (i & j1 & Hi & Hr)%(ok_wire B s Hok). exists i, j1. split; [by apply Hold|done].
Qed.

(** ** Dropping connections *)

Section drop.
Context (B : Z) (s : RT) (K : string → Prop) {Kdec : ∀ p, Decision (K p)}.
Context (st' : Rdma) (ids' : gmap string nat) (po' : gmap (string * Z) (nat * nat)).
Let s' : RT := mkRT st' ids' (rt_next s) (rt_dial s) po' (rt_wire s) (rt_threads s).
Hypothesis Hok : rt_ok B s.
Hypothesis Hr : rdma_ok B st'.
Hypothesis Hsame : rd_msg_bytes st' = rd_msg_bytes (rt_rdma s) ∧ rd_peers st' = rd_peers (rt_rdma s) ∧
  rd_next_promise st' = rd_next_promise (rt_rdma s) ∧ rd_resolved st' = rd_resolved (rt_rdma s).
Hypothesis Hout : ∀ p, rd_outbound st' !! p = if decide (K p) then rd_outbound (rt_rdma s) !! p else None.
Hypothesis Hids : ∀ p, ids' !! p = if decide (K p) then rt_ids s !! p else None.
Hypothesis Hpo : ∀ p w, po' !! (p, w) = if decide (K p) then rt_posted s !! (p, w) else None.
(** Nobody is about to use a connection that goes. *)
Hypothesis Hidle : ∀ i j pc, rt_threads s !! i = Some (j, pc) → is_Some (pc_pointer pc) → K (jb_peer j).

Definition stays (q : nat) : Prop := ∀ p w, pending_at (rt_rdma s) p w q → K p.

Lemma pending_after p w q : pending_at st' p w q ↔ K p ∧ pending_at (rt_rdma s) p w q.
Proof.
  unfold pending_at. rewrite Hout. destruct (decide (K p)) as [Hk|Hk]; [by split; [|intros []]|].
  split; [by intros (c & ? & _)|by intros []].
Qed.

Lemma unused_after q : (q < rd_next_promise (rt_rdma s))%nat → q ∉ (rd_resolved (rt_rdma s)).*1 →
  (∀ p w, pending_at (rt_rdma s) p w q → ¬ K p) → unused st' q.
Proof.
  destruct Hsame as (_ & _ & E1 & E2). intros Hlt Hn Hp. unfold unused. rewrite E1, E2. split_and!; [done|done|].
  intros p w [Hk H]%pending_after. by apply (Hp p w).
Qed.

Lemma frame_drop : frame stays (rt_rdma s) st'.
Proof.
  destruct Hsame as (E1 & E2 & E3 & E4). split; [done|done| |by rewrite E4|].
  - intros q _ (Hlt & Hn & Hp). apply unused_after; [done|done|]. intros p w H. by destruct (Hp p w).
  - intros q p w Hq H. pose proof (Hq p w H) as Hk. split; [by apply pending_after|].
    unfold buffer. rewrite Hout. by rewrite decide_True.
Qed.

(** A promise that goes with its connection belongs to a finished send. *)
Lemma stays_unless_sent i j pc q :
  rt_threads s !! i = Some (j, pc) → pc_promise pc = Some q → (∀ r, pc ≠ Sent r) → stays q.
Proof.
  intros Hi Hq Hns p w Hp. pose proof (ok_threads B s Hok i j pc Hi) as Hpc. pose proof (ok_rdma B s Hok) as Hrd.
  assert (∀ wr, pending_at (rt_rdma s) (jb_peer j) wr q → is_Some (pc_pointer pc) → K p) as Hown.
  { intros wr Hw Hpt. destruct (ro_unique B _ Hrd p w (jb_peer j) wr q Hp Hw) as [-> _]. by eapply Hidle. }
  destruct pc as [|r|r|r|r|r o k|r o b v|r o b v|r o b v|r|r]; cbn in Hq, Hpc; try done; injection Hq as ->.
  1-4: destruct Hpc as [_ (_ & _ & Hn)]; by destruct (Hn p w).
  - destruct Hpc as (_ & (_ & _ & Hn) & _). by destruct (Hn p w).
  - destruct Hpc as (_ & _ & Hv & _). apply (Hown v Hv). by eexists.
  - destruct Hpc as ((_ & Hv & _) & _). apply (Hown v Hv). by eexists.
  - destruct Hpc as (_ & Hv & _). apply (Hown v Hv). by eexists.
  - by destruct (Hns q).
  - destruct (ro_pending B _ Hrd p w q Hp) as [_ Hn]. destruct Hn. apply list_elem_of_fmap. by exists (q, false).
Qed.

Lemma sent_after j q : pc_ok s j (Sent q) → pc_ok s' j (Sent q).
Proof.
  destruct Hsame as (_ & _ & E3 & E4). cbn. intros [(w & H)|[(b & H)|(Hlt & Hn & Hp)]].
  - destruct (ok_posted B s Hok _ _ _ _ H) as [Hpd _]. destruct (decide (K (jb_peer j))) as [Hk|Hk].
    + left. exists w. by rewrite Hpo, decide_True.
    + right. right. destruct (ro_pending B _ (ok_rdma B s Hok) _ _ _ Hpd) as [Hlt Hn]. apply unused_after; [done|done|].
      intros p v Hv. by destruct (ro_unique B _ (ok_rdma B s Hok) _ _ _ _ q Hpd Hv) as [<- _].
  - right. left. exists b. by rewrite E4.
  - right. right. apply unused_after; [done|done|]. intros p w H. by destruct (Hp p w).
Qed.

Lemma drop_ok : rt_ok B s'.
Proof.
  destruct Hsame as (E1 & E2 & E3 & E4). pose proof frame_drop as Hf.
  split; cbn [rt_rdma rt_ids rt_threads rt_posted rt_wire rt_dial s'].
  - exact Hr.
  - intros p. rewrite Hids, Hout. destruct (decide (K p)); [apply (ok_ids B s Hok)|done].
  - intros p c. rewrite Hout, E1. destruct (decide (K p)); [apply (ok_bufs B s Hok)|done].
  - intros i j pc Hi. pose proof (ok_threads B s Hok i j pc Hi) as Hpc.
    assert ((∃ q, pc = Sent q) ∨ ∀ q, pc ≠ Sent q) as [[q ->]|Hns] by (destruct pc; eauto); [by apply sent_after|].
    apply (pc_ok_frame stays B s); [done|done|done| | |].
    + intros q Hq. by eapply stays_unless_sent.
    + intros Hp. cbn. rewrite Hids, decide_True; [done|by eapply Hidle].
    + intros p w q Hq H. cbn. rewrite Hpo, decide_True; [done|by eapply Hq].
  - apply (ok_promises B s Hok).
  - apply (ok_dial B s Hok).
  - apply (ok_holder B s Hok).
  - intros i j pc Hi Hu. rewrite Hids, E2. destruct (ok_undialled B s Hok i j pc Hi Hu). by case_decide.
  - intros p w len q. rewrite Hpo. destruct (decide (K p)) as [Hk|]; [|done]. intros H.
    pose proof (ok_posted B s Hok p w len q H) as Hp.
    apply (posted_ok_frame stays s s'); [done|done| |done]. intros p1 w1 H1.
    by destruct (ro_unique B _ (ok_rdma B s Hok) _ _ _ _ q (proj1 Hp) H1) as [<- _].
  - apply (ok_wire B s Hok).
Qed.
End drop.

Definition holds_pointer (pc : SendPc) : bool := match pc_pointer pc with Some _ => true | None => false end.

(** A connection is dropped while no sender is about to use it. *)
Definition idle_drop (s : RT) (e : RtEvent) : bool :=
  match e with
  | EDisconnect p => forallb (λ x, negb (holds_pointer x.2 && bool_decide (jb_peer x.1 = p))) (rt_threads s)
  | EShutdown => rd_stop (rt_rdma s) || forallb (λ x, negb (holds_pointer x.2)) (rt_threads s)
  | _ => true
  end.

Fixpoint drops_idle (s : RT) (es : list RtEvent) : bool :=
  match es with
  | [] => true
  | e :: es =>
      idle_drop s e &&
      match rt_step s e with
      | Next s' => drops_idle s' es
      | Blocked => drops_idle s es
      | Undefined | Terminates => true
      end
  end.

Lemma idle_thread f s i j pc :
  forallb f (rt_threads s) = true → rt_threads s !! i = Some (j, pc) → f (j, pc) = true.
Proof. rewrite forallb_forall. intros H Hi. by apply H, list_elem_of_In, list_elem_of_lookup_2 with i. Qed.

Lemma disconnect_step_ok B s p :
  rt_ok B s → idle_drop s (EDisconnect p) = true → ∃ s', disconnect_step s p = Next s' ∧ rt_ok B s'.
Proof.
  intros Hok Hidle. eexists. split; [reflexivity|]. apply (drop_ok B s (λ q, q ≠ p)); [done| |done| | | |].
  - apply fewer_conns_ok; [by apply with_grpc_ok, Hok|apply delete_subseteq].
  - intros q. unfold Disconnect. cbn [rd_outbound with_outbound with_grpc]. case_decide as Hq.
    + by rewrite lookup_delete_ne.
    + subst q. apply lookup_delete_eq.
  - intros q. case_decide as Hq; [by rewrite lookup_delete_ne|]. subst q. apply lookup_delete_eq.
  - intros q w. case_decide as Hq.
    + destruct (rt_posted s !! (q, w)) as [x|] eqn:E.
      * apply map_lookup_filter_Some. done.
      * apply map_lookup_filter_None. by left.
    + apply map_lookup_filter_None. right. intros x _ Hn. by apply Hn.
  - intros i j pc Hi [o Ho] E. pose proof (idle_thread _ s i j pc Hidle Hi) as H. unfold holds_pointer in H. cbn in H.
    rewrite Ho in H. rewrite bool_decide_true in H; done.
Qed.

Lemma shutdown_step_ok B s :
  rt_ok B s → idle_drop s EShutdown = true → ∃ s', shutdown_step s = Next s' ∧ rt_ok B s'.
Proof.
  intros Hok. unfold shutdown_step, idle_drop. destruct (rd_stop (rt_rdma s)) eqn:Es; cbn [orb]; intros Hidle; [by eexists|].
  eexists. split; [reflexivity|]. unfold Shutdown. rewrite Es.
  apply (drop_ok B s (λ _, False)); [done| |done| | | |].
  - apply fewer_conns_ok; [by apply with_grpc_ok, set_stop_ok, Hok|apply map_empty_subseteq].
  - intros q. apply lookup_empty.
  - intros q. apply lookup_empty.
  - intros q w. apply lookup_empty.
  - intros i j pc Hi [o Ho]. pose proof (idle_thread _ s i j pc Hidle Hi) as H. unfold holds_pointer in H. cbn in H.
    by rewrite Ho in H.
Qed.

Lemma rt_ok_le B B' s : rt_ok B s → B ≤ B' → rt_ok B' s.
Proof. intros [] Hle. split; try done. by apply (rdma_ok_mono B). Qed.

Lemma rt_ok_mono B s : rt_ok B s → rt_ok (B + 1) s.
Proof. intros H. apply (rt_ok_le B); [done|lia]. Qed.

Lemma rt_step_ok B s e :
  1 ≤ B < 2 ^ 48 - 1 → rt_ok B s → idle_drop s e = true →
  match rt_step s e with
  | Next s' => rt_ok (B + 1) s' | Blocked => True | Undefined => False | Terminates => ∃ i, e = EStep i Refused
  end.
Proof.
  intros HB Hok Hidle. destruct e as [j|i answer|p w ok|p w|p|]; cbn [rt_step].
  - by apply rt_ok_mono, spawn_ok.
  - destruct (rt_threads s !! i) as [[j pc]|] eqn:Hi; [|done].
    pose proof (send_step_ok B s i j pc answer HB Hok Hi) as H. destruct (send_step _ _ _ _ _); try done. exists i. by f_equal.
  - destruct (poll_step s p w ok) eqn:E; [by eapply rt_ok_mono, poll_step_ok|done|..];
      unfold poll_step in E; by case_match.
  - pose proof (read_step_ok B s p w Hok) as H. destruct (read_step s p w); [by apply rt_ok_mono|done|done|done].
  - destruct (disconnect_step_ok B s p Hok Hidle) as (s' & -> & H). by apply rt_ok_mono.
  - destruct (shutdown_step_ok B s Hok Hidle) as (s' & -> & H). by apply rt_ok_mono.
Qed.

Lemma rt_run_ok B s es :
  1 ≤ B → B + Z.of_nat (length es) < 2 ^ 48 - 1 → rt_ok B s → drops_idle s es = true →
  ∃ s' alive, rt_run s es = Some (s', alive) ∧ rt_ok (B + Z.of_nat (length es)) s' ∧
    (alive = false → ∃ i, EStep i Refused ∈ es).
Proof.
  revert B s. induction es as [|e es IH]; intros B s HB Hlen Hok; cbn [rt_run drops_idle length] in *.
  - intros _. exists s, true. by rewrite Z.add_0_r.
  - intros [Hi Hd]%andb_true_iff. pose proof (rt_step_ok B s e ltac:(lia) Hok Hi) as H.
    replace (B + Z.of_nat (S (length es))) with (B + 1 + Z.of_nat (length es)) in * by lia.
    assert (∀ s1, rt_ok (B + 1) s1 → drops_idle s1 es = true →
      ∃ s' alive, rt_run s1 es = Some (s', alive) ∧ rt_ok (B + 1 + Z.of_nat (length es)) s' ∧
        (alive = false → ∃ i, EStep i Refused ∈ e :: es)) as Hgo.
    { intros s1 Hok1 Hd1. destruct (IH (B + 1) s1 ltac:(lia) ltac:(lia) Hok1 Hd1) as (s' & alive & E & Hok' & Ha).
      exists s', alive. split_and!; [done|done|]. intros [i Hin]%Ha. exists i. by right. }
    destruct (rt_step s e) as [s1| | |]; [by apply Hgo|by apply Hgo; [apply rt_ok_mono|]|done|].
    destruct H as [i ->]. exists s, false. split_and!; [done| |intros _; exists i; by left].
    apply (rt_ok_le B); [done|lia].
Qed.


(** ** Every send ends *)

(** An upper bound of the steps that a sender has still to make. *)
Definition pc_left (pc : SendPc) : nat :=
  match pc with
  | Begin => kSendAttempts + 9
  | WantDial _ => kSendAttempts + 8
  | Recheck _ => kSendAttempts + 7
  | Dialing _ => kSendAttempts + 6
  | Publishing _ => kSendAttempts + 5
  | Acquiring _ _ tries => tries + 4
  | Staging _ _ _ _ => 3
  | Posting _ _ _ _ => 2
  | Unposting _ _ _ _ => 1
  | Sent _ | Failed _ => 0
  end.

Definition steps_left (s : RT) : nat := sum_list_with (λ x, pc_left x.2) (rt_threads s).

Lemma send_step_left s i j pc answer s' :
  rt_threads s !! i = Some (j, pc) → send_step s i j pc answer = Next s' →
  ∃ pc', rt_threads s' = <[i := (j, pc')]> (rt_threads s) ∧ (pc_left pc' < pc_left pc)%nat.
Proof.
  intros Hi.
  destruct pc as [|pr|pr|pr|pr|pr o tries|pr o buf wr|pr o buf wr|pr o buf wr|pr|pr]; cbn [send_step]; intros E;
    unfold step_begin, step_lock, step_recheck, step_dial, step_publish, step_acquire, step_stage, step_post, step_unpost, no_connection in E;
    repeat (case_match; try done); simplify_eq; eexists; (split; [reflexivity|]); cbn [pc_left]; lia.
Qed.

Lemma steps_left_insert s i x y :
  rt_threads s !! i = Some x → (pc_left y.2 < pc_left x.2)%nat →
  (sum_list_with (λ x, pc_left x.2) (<[i := y]> (rt_threads s)) < steps_left s)%nat.
Proof.
  intros Hi Hlt. unfold steps_left. rewrite <- (take_drop_middle (rt_threads s) i x Hi) at 2.
  rewrite (insert_take_drop (rt_threads s) i y) by (by eapply lookup_lt_Some).
  rewrite !sum_list_with_app. cbn [sum_list_with]. lia.
Qed.

(** The steps that the senders of a run make, waiting aside. *)
Fixpoint steps_made (s : RT) (es : list RtEvent) : nat :=
  match es with
  | [] => 0
  | e :: es =>
      match rt_step s e with
      | Next s' => (match e with EStep _ _ => 1 | _ => 0 end + steps_made s' es)%nat
      | Blocked => steps_made s es
      | Undefined | Terminates => 0
      end
  end.

Definition spawns (es : list RtEvent) : nat := sum_list_with (λ e, match e with ESpawn _ => 1 | _ => 0 end)%nat es.

Lemma rt_step_left s e s' :
  rt_step s e = Next s' →
  (match e with EStep _ _ => 1 | _ => 0 end + steps_left s' ≤
   steps_left s + match e with ESpawn _ => 1 | _ => 0 end * (kSendAttempts + 9))%nat.
Proof.
  unfold steps_left. destruct e as [j|i answer|p w ok|p w|p|]; cbn [rt_step]; intros E.
  - injection E as <-. cbn [rt_threads]. rewrite sum_list_with_app. cbn [sum_list_with snd pc_left]. lia.
  - destruct (rt_threads s !! i) as [[j pc]|] eqn:Hi; [|done].
    destruct (send_step_left s i j pc answer s' Hi E) as (pc' & -> & Hlt).
    pose proof (steps_left_insert s i (j, pc) (j, pc') Hi Hlt) as H. unfold steps_left in H. lia.
  - unfold poll_step in E. case_match; [|done]. injection E as <-. cbn [rt_threads]. lia.
  - unfold read_step in E. repeat case_match; try done. injection E as <-. cbn [rt_threads]. lia.
  - injection E as <-. cbn [rt_threads]. lia.
  - unfold shutdown_step in E. case_match; injection E as <-; cbn [rt_threads]; lia.
Qed.

Lemma steps_made_bound s es :
  (steps_made s es ≤ steps_left s + spawns es * (kSendAttempts + 9))%nat.
Proof.
  unfold spawns. revert s. induction es as [|e es IH]; intros s; cbn [steps_made sum_list_with]; [lia|].
  destruct (rt_step s e) as [s'| | |] eqn:E; [|specialize (IH s); lia|lia|lia].
  specialize (IH s'). pose proof (rt_step_left s e s' E). lia.
Qed.

Definition send_over (pc : SendPc) : bool := match pc with Sent _ | Failed _ => true | _ => false end.

(** Only the lock of the dial makes a sender wait, and its holder does not wait. *)
Lemma some_sender_steps B s :
  rt_ok B s → Forall (λ x, send_over x.2 = true) (rt_threads s) ∨
  ∃ i, ∀ answer, rt_step s (EStep i answer) ≠ Blocked.
Proof.
  intros Hok.
  assert (∀ i j pc, rt_threads s !! i = Some (j, pc) → send_over pc = false → (∀ pr, pc ≠ WantDial pr) →
    ∀ answer, rt_step s (EStep i answer) ≠ Blocked) as Hgo.
  { intros i j pc Hi Ho Hw answer. cbn [rt_step]. rewrite Hi.
    destruct pc as [|pr|pr|pr|pr|pr o tries|pr o buf wr|pr o buf wr|pr o buf wr|pr|pr]; cbn [send_step]; try done;
      unfold step_begin, step_recheck, step_dial, step_publish, step_acquire, step_stage, step_post, step_unpost, no_connection;
      [| by destruct (Hw pr)|..]; repeat case_match; done. }
  destruct (decide (Forall (λ x, send_over x.2 = true) (rt_threads s))) as [Hf|Hf]; [by left|right].
  apply not_Forall_Exists, Exists_exists in Hf as ([j pc] & (i & Hi)%list_elem_of_lookup & Ho); [|apply _].
  apply not_true_is_false in Ho. cbn in Ho.
  assert ((∃ pr, pc = WantDial pr) ∨ ∀ pr, pc ≠ WantDial pr) as [[pr ->]|Hw] by (destruct pc; eauto).
  2:{ exists i. by apply (Hgo i j pc). }
  destruct (rt_dial s) as [k|] eqn:Ed.
  - destruct (ok_holder B s Hok k Ed) as [[j1 pc1] Hk]. exists k.
    pose proof (proj2 (ok_dial B s Hok k j1 pc1 Hk) Ed) as Hd. apply (Hgo k j1 pc1); [done|by destruct pc1|by intros q ->].
  - exists i. intros answer. cbn [rt_step]. rewrite Hi. cbn [send_step]. unfold step_lock. by rewrite Ed.
Qed.

(** The senders of a run make at most 2009 steps each, and as long as one of
    them is not over some sender does not have to wait. *)
Theorem rdma_senders_end msg_bytes peers es :
  drops_idle (new_rt msg_bytes peers) es = true → Z.of_nat (length es) < 2 ^ 48 - 2 →
  (steps_made (new_rt msg_bytes peers) es ≤ spawns es * (kSendAttempts + 9))%nat ∧
  ∃ s alive, rt_run (new_rt msg_bytes peers) es = Some (s, alive) ∧
    (Forall (λ x, send_over x.2 = true) (rt_threads s) ∨ ∃ i, ∀ answer, rt_step s (EStep i answer) ≠ Blocked).
Proof.
  intros Hd Hlen. split; [apply (steps_made_bound (new_rt msg_bytes peers) es)|].
  destruct (rt_run_ok 1 _ es ltac:(lia) ltac:(lia) (new_rt_ok msg_bytes peers) Hd) as (s & alive & -> & Hok & _).
  exists s, alive. split; [done|]. by eapply some_sender_steps.
Qed.

(** ** A send that runs alone *)

(** Steps of sender [i] only. *)
Definition reaches (i : nat) (s s' : RT) : Prop :=
  ∃ es, Forall (λ e, ∃ answer, e = EStep i answer) es ∧ rt_run s es = Some (s', true).

Lemma reaches_refl i s : reaches i s s.
Proof. by exists []. Qed.

Lemma reaches_step i answer s s1 s' : rt_step s (EStep i answer) = Next s1 → reaches i s1 s' → reaches i s s'.
Proof.
  intros E (es & Hes & Hr). exists (EStep i answer :: es). split; [constructor; eauto|]. cbn [rt_run]. by rewrite E.
Qed.

Lemma moved_lookup s i j pc dial st x :
  rt_threads s !! i = Some x → rt_threads (moved s i j pc dial st) !! i = Some (j, pc).
Proof. intros H. cbn. apply list_lookup_insert_eq. by eapply lookup_lt_Some. Qed.

Lemma step_at s i j pc answer :
  rt_threads s !! i = Some (j, pc) → rt_step s (EStep i answer) = send_step s i j pc answer.
Proof. intros H. cbn [rt_step]. by rewrite H. Qed.

(** How a send that has just been given a connection ends. *)
Definition after_connect (posted : bool) (j : Job) (pr : nat) (st : Rdma) : SendPc * Rdma :=
  match acquire_loop kSendAttempts [] pr (jb_peer j) st with
  | (None, st) => (Failed pr, resolve pr false (count DropBp st))
  | (Some (buf, wr), st) =>
      let st := with_outbound st (alter (write_buf buf (stage (jb_id j) (jb_purpose j) (jb_data j))) (jb_peer j) (rd_outbound st)) in
      if posted then (Sent pr, count Posted st)
      else (Failed pr, resolve pr false (with_outbound st (alter (unpost buf wr) (jb_peer j) (rd_outbound st))))
  end.

Lemma acquire_loop_full tries pr peer st c :
  rd_outbound st !! peer = Some c → acquire pr c = None → acquire_loop tries [] pr peer st = (None, st).
Proof.
  intros Hc Ha. induction tries as [|tries IH]; [done|]. cbn [acquire_loop]. rewrite Hc. cbn [mbind option_bind].
  rewrite Ha. exact IH.
Qed.

Lemma acquire_loop_first tries pr peer st c buf wr c' :
  rd_outbound st !! peer = Some c → acquire pr c = Some (buf, wr, c') →
  acquire_loop (S tries) [] pr peer st = (Some (buf, wr), put_conn st peer c').
Proof. intros Hc Ha. cbn [acquire_loop]. rewrite Hc. cbn [mbind option_bind]. by rewrite Ha. Qed.

(** With the ring full and no completion, every attempt fails. *)
Lemma alone_full s i j pr o tries c :
  rt_threads s !! i = Some (j, Acquiring pr o tries) → deref s (jb_peer j) o = Some c → acquire pr c = None →
  ∃ s', reaches i s s' ∧ rt_rdma s' = resolve pr false (count DropBp (rt_rdma s)) ∧
    rt_threads s' = <[i := (j, Failed pr)]> (rt_threads s).
Proof.
  revert s. induction tries as [|tries IH]; intros s Hi Hd Ha.
  - exists (moved s i j (Failed pr) (rt_dial s) (resolve pr false (count DropBp (rt_rdma s)))). split; [|done].
    eapply (reaches_step i Yes); [rewrite (step_at s i _ _ _ Hi); reflexivity|apply reaches_refl].
  - set (s1 := moved s i j (Acquiring pr o tries) (rt_dial s) (rt_rdma s)).
    destruct (IH s1) as (s' & Hr & E1 & E2); [by eapply moved_lookup|done|done|].
    exists s'. split_and!; [|done|rewrite E2; cbn; by rewrite list_insert_insert_eq].
    eapply (reaches_step i Yes); [|exact Hr]. rewrite (step_at s i _ _ _ Hi). cbn [send_step step_acquire]. by rewrite Hd, Ha.
Qed.

Lemma alone_connected B s i j pr o posted :
  1 ≤ B < 2 ^ 48 - 1 → rt_ok B s → rt_threads s !! i = Some (j, Acquiring pr o kSendAttempts) →
  ∃ s', reaches i s s' ∧ rt_rdma s' = (after_connect posted j pr (rt_rdma s)).2 ∧
    rt_threads s' = <[i := (j, (after_connect posted j pr (rt_rdma s)).1)]> (rt_threads s).
Proof.
  intros HB Hok Hi. pose proof (ok_threads B s Hok _ _ _ Hi) as (Hfit & Hu & Ho).
  destruct (deref_live B s j o Hok Ho) as (c & Hd & Hc). unfold after_connect.
  destruct (acquire pr c) as [[[buf wr] c1]|] eqn:Ea.
  2:{ rewrite (acquire_loop_full kSendAttempts pr _ _ c Hc Ea). by apply (alone_full s i j pr o kSendAttempts c). }
  destruct (step_acquire_ok B s i j pr o kSendAttempts HB Hok Hi) as (s1 & E1 & Hok1).
  assert (s1 = moved s i j (Staging pr o buf wr) (rt_dial s) (put_conn (rt_rdma s) (jb_peer j) c1)) as Es1.
  { revert E1. change kSendAttempts with (S 1999). unfold step_acquire. rewrite Hd, Ea. by intros [= <-]. }
  assert (acquire_loop kSendAttempts [] pr (jb_peer j) (rt_rdma s) = (Some (buf, wr), put_conn (rt_rdma s) (jb_peer j) c1)) as ->.
  { exact (acquire_loop_first 1999 pr (jb_peer j) (rt_rdma s) c buf wr c1 Hc Ea). }
  assert (rt_threads s1 !! i = Some (j, Staging pr o buf wr)) as Hi1 by (subst s1; by eapply moved_lookup).
  assert (rd_outbound (rt_rdma s1) !! jb_peer j = Some c1) as Hc1 by (subst s1; apply lookup_insert_eq).
  assert (deref s1 (jb_peer j) o = Some c1) as Hd1 by (unfold deref; rewrite bool_decide_true by (by subst s1); done).
  set (c2 := write_buf buf (stage (jb_id j) (jb_purpose j) (jb_data j)) c1).
  destruct (step_stage_ok (B + 1) s1 i j pr o buf wr Hok1 Hi1) as (s2 & E2 & Hok2).
  assert (s2 = moved s1 i j (Posting pr o buf wr) (rt_dial s1) (put_conn (rt_rdma s1) (jb_peer j) c2)) as Es2.
  { revert E2. unfold step_stage. rewrite Hd1. repeat (case_match; try done). by intros [= <-]. }
  assert (rt_threads s2 !! i = Some (j, Posting pr o buf wr)) as Hi2 by (subst s2; by eapply moved_lookup).
  assert (deref s2 (jb_peer j) o = Some c2) as Hd2.
  { unfold deref. rewrite bool_decide_true by (by subst s1 s2). subst s2. apply lookup_insert_eq. }
  assert (with_outbound (put_conn (rt_rdma s) (jb_peer j) c1)
      (alter (write_buf buf (stage (jb_id j) (jb_purpose j) (jb_data j))) (jb_peer j)
        (rd_outbound (put_conn (rt_rdma s) (jb_peer j) c1))) = rt_rdma s2) as ->.
  { rewrite (alter_conn _ _ c1) by (apply lookup_insert_eq). by subst s1 s2. }
  assert (∀ s', reaches i s2 s' → reaches i s s') as Hgo.
  { intros s' Hr. eapply (reaches_step i Yes); [rewrite (step_at s i _ _ _ Hi); exact E1|].
    eapply (reaches_step i Yes); [rewrite (step_at s1 i _ _ _ Hi1); exact E2|exact Hr]. }
  assert (∀ pc, <[i := (j, pc)]> (rt_threads s2) = <[i := (j, pc)]> (rt_threads s)) as Hth.
  { intros pc. subst s2 s1. cbn [moved rt_threads]. by rewrite !list_insert_insert_eq. }
  destruct posted.
  - eexists. split; [apply Hgo; eapply (reaches_step i Yes); [|apply reaches_refl]|].
    + rewrite (step_at s2 i _ _ _ Hi2). cbn [send_step]. unfold step_post. by rewrite Hd2.
    + split; [done|]. apply Hth.
  - set (s3 := moved s2 i j (Unposting pr o buf wr) (rt_dial s2) (rt_rdma s2)).
    assert (rt_threads s3 !! i = Some (j, Unposting pr o buf wr)) as Hi3 by (by eapply moved_lookup).
    eexists. split; [apply Hgo; eapply (reaches_step i No);
      [|eapply (reaches_step i No); [rewrite (step_at s3 i _ _ _ Hi3)|apply reaches_refl]]|].
    + rewrite (step_at s2 i _ _ _ Hi2). cbn [send_step]. unfold step_post. by rewrite Hd2.
    + cbn [send_step]. unfold step_unpost. change (deref s3) with (deref s2). by rewrite Hd2.
    + split; [|cbn [moved rt_threads s3]; rewrite list_insert_insert_eq; apply Hth]. cbn [moved rt_rdma s3].
      rewrite (alter_conn _ _ c2); [done|]. subst s2. apply lookup_insert_eq.
Qed.

Definition spawned (j : Job) (s : RT) : RT :=
  mkRT (rt_rdma s) (rt_ids s) (rt_next s) (rt_dial s) (rt_posted s) (rt_wire s) (rt_threads s ++ [(j, Begin)]).

Definition alone_result (dial posted : bool) (j : Job) (st : Rdma) : nat * Rdma :=
  Send dial posted [] (jb_peer j) (jb_id j) (jb_purpose j) (jb_data j) st.

(** The rest of the sequential send from the lookup of the connection on. *)
Definition ensured (dial posted : bool) (j : Job) (pr : nat) (st : Rdma) : Rdma :=
  let '(connected, st2) := EnsureOutbound dial (jb_peer j) st in
  if connected then (after_connect posted j pr st2).2 else resolve pr false (count DropNoconn st2).

Lemma alone_result_fst dial posted j st : (alone_result dial posted j st).1 = rd_next_promise st.
Proof. unfold alone_result, Send, new_promise. by repeat case_match. Qed.

Lemma alone_result_snd dial posted j st :
  (alone_result dial posted j st).2 =
    if job_fits j (rd_msg_bytes st) then ensured dial posted j (rd_next_promise st) (new_promise st).2
    else resolve (rd_next_promise st) false (new_promise st).2.
Proof.
  unfold alone_result, Send, job_fits, ensured, after_connect, new_promise. cbn [snd rd_msg_bytes].
  destruct (_ >? _); cbn [negb]; [done|]. destruct (EnsureOutbound dial (jb_peer j) _) as [[] st2]; cbn [negb]; [|done].
  destruct (acquire_loop kSendAttempts [] _ (jb_peer j) st2) as [[[buf wr]|] st3]; [|done]. by destruct posted.
Qed.

Lemma after_connect_pc posted j pr st :
  (after_connect posted j pr st).1 = Sent pr ∨ (after_connect posted j pr st).1 = Failed pr.
Proof. unfold after_connect. destruct (acquire_loop _ _ _ _ _) as [[[buf wr]|] st']; destruct posted; eauto. Qed.

Lemma EnsureOutbound_connected dial peer st c :
  rd_outbound st !! peer = Some c → EnsureOutbound dial peer st = (true, st).
Proof. intros Hc. unfold EnsureOutbound. by rewrite Hc. Qed.

(** What a send alone leaves behind. *)
Definition ends_as (i : nat) (j : Job) (pr : nat) (st : Rdma) (s : RT) : Prop :=
  ∃ s' pc, reaches i s s' ∧ rt_threads s' = <[i := (j, pc)]> (rt_threads s) ∧ (pc = Sent pr ∨ pc = Failed pr) ∧
    rt_rdma s' = st.

Lemma ends_as_step i answer j pr st s pc dial st1 :
  rt_step s (EStep i answer) = Next (moved s i j pc dial st1) →
  ends_as i j pr st (moved s i j pc dial st1) → ends_as i j pr st s.
Proof.
  intros E (s' & pc' & Hr & Et & Hpc & Est). exists s', pc'. split_and!; [by eapply reaches_step| |done|done].
  rewrite Et. cbn [moved rt_threads]. by rewrite list_insert_insert_eq.
Qed.

Lemma ends_as_failed i answer j pr st s dial :
  rt_step s (EStep i answer) = Next (moved s i j (Failed pr) dial st) → ends_as i j pr st s.
Proof.
  intros E. eapply ends_as_step; [exact E|]. exists (moved s i j (Failed pr) dial st), (Failed pr).
  split_and!; [apply reaches_refl| |by right|done]. cbn [moved rt_threads]. by rewrite list_insert_insert_eq.
Qed.

Lemma alone_acquire B s i j pr o posted :
  1 ≤ B < 2 ^ 48 - 1 → rt_ok B s → rt_threads s !! i = Some (j, Acquiring pr o kSendAttempts) →
  ends_as i j pr (after_connect posted j pr (rt_rdma s)).2 s.
Proof.
  intros HB Hok Hi. destruct (alone_connected B s i j pr o posted HB Hok Hi) as (s' & Hr & E1 & E2).
  exists s', (after_connect posted j pr (rt_rdma s)).1. split_and!; [done|done|apply after_connect_pc|done].
Qed.

(** The holder of the lock publishes the connection that it dialled. *)
Lemma alone_publish B s i j pr posted :
  1 ≤ B < 2 ^ 48 - 1 → rt_ok B s → rt_threads s !! i = Some (j, Publishing pr) →
  ends_as i j pr
    (after_connect posted j pr (put_conn (rt_rdma s) (jb_peer j) (new_conn (rd_msg_bytes (rt_rdma s))))).2 s.
Proof.
  intros HB Hok Hi. destruct (step_publish_ok B s i j pr ltac:(lia) Hok Hi) as (s1 & E & Hok1).
  assert (rt_threads s1 = <[i := (j, Acquiring pr (rt_next s) kSendAttempts)]> (rt_threads s) ∧
    rt_rdma s1 = put_conn (rt_rdma s) (jb_peer j) (new_conn (rd_msg_bytes (rt_rdma s)))) as [Et Er].
  { revert E. unfold step_publish. case_match; [done|]. by intros [= <-]. }
  rewrite <- Er. destruct (alone_acquire B s1 i j pr (rt_next s) posted HB Hok1) as (s' & pc & Hr & Et' & Hpc & Er').
  { rewrite Et. apply list_lookup_insert_eq. by eapply lookup_lt_Some. }
  exists s', pc. split_and!; [|rewrite Et', Et; by rewrite list_insert_insert_eq|done|done].
  eapply (reaches_step i Yes); [|exact Hr]. by rewrite (step_at s i _ _ _ Hi).
Qed.

(** A sender that takes the lock of the dial. *)
Lemma alone_dial B s i j pr dial posted :
  1 ≤ B < 2 ^ 48 - 1 → rt_ok B s → rt_threads s !! i = Some (j, WantDial pr) → rt_dial s = None →
  rt_ids s !! jb_peer j = None →
  ends_as i j pr (ensured dial posted j pr (rt_rdma s)) s.
Proof.
  intros HB Hok Hi Hd Hn. unfold ensured. pose proof (no_id_no_conn B s _ Hok Hn) as Hc. unfold EnsureOutbound. rewrite Hc.
  set (s1 := moved s i j (Recheck pr) (Some i) (rt_rdma s)).
  assert (step_lock s i j pr = Next s1) as E1 by (unfold step_lock; by rewrite Hd).
  pose proof (step_lock_ok B s i j pr _ Hok Hi E1) as Hok1.
  assert (rt_threads s1 !! i = Some (j, Recheck pr)) as Hi1 by (by eapply moved_lookup).
  assert (∀ st, ends_as i j pr st s1 → ends_as i j pr st s) as Hgo1.
  { intros st. apply ends_as_step with Yes. by rewrite (step_at s i _ _ _ Hi). }
  set (s2 := moved s1 i j (Dialing pr) (Some i) (rt_rdma s)).
  assert (step_recheck s1 i j pr = match rd_peers (rt_rdma s) !! jb_peer j with Some _ => Next s2 | None => no_connection s1 i j pr end) as E2.
  { unfold step_recheck. change (rt_ids s1) with (rt_ids s). by rewrite Hn. }
  destruct (rd_peers (rt_rdma s) !! jb_peer j) as [ep|] eqn:Ep.
  2:{ apply Hgo1. apply ends_as_failed with Yes None. rewrite (step_at s1 i _ _ _ Hi1). exact E2. }
  pose proof (step_recheck_ok B s1 i j pr s2 Hok1 Hi1 E2) as Hok2.
  assert (rt_threads s2 !! i = Some (j, Dialing pr)) as Hi2 by (by eapply moved_lookup).
  assert (∀ st, ends_as i j pr st s2 → ends_as i j pr st s) as Hgo2.
  { intros st H. apply Hgo1. revert H. apply ends_as_step with Yes. by rewrite (step_at s1 i _ _ _ Hi1). }
  destruct dial; apply Hgo2.
  2:{ apply ends_as_failed with No None. by rewrite (step_at s2 i _ _ _ Hi2). }
  set (s3 := moved s2 i j (Publishing pr) (Some i) (rt_rdma s)).
  pose proof (step_dial_ok B s2 i j pr Yes s3 Hok2 Hi2 eq_refl) as Hok3.
  apply (ends_as_step i Yes j pr _ s2 (Publishing pr) (Some i) (rt_rdma s)); [by rewrite (step_at s2 i _ _ _ Hi2)|].
  apply (alone_publish B s3); [done|done|by eapply moved_lookup].
Qed.

Lemma alone_begin B s i j dial posted :
  1 ≤ B < 2 ^ 48 - 1 → rt_ok B s → rt_threads s !! i = Some (j, Begin) → rt_dial s = None →
  ends_as i j (alone_result dial posted j (rt_rdma s)).1 (alone_result dial posted j (rt_rdma s)).2 s.
Proof.
  intros HB Hok Hi Hd. rewrite alone_result_fst, alone_result_snd.
  assert (∀ x, step_begin s i j = Next x → rt_step s (EStep i Yes) = Next x ∧ rt_ok B x) as Hstep.
  { intros x E. rewrite (step_at s i _ _ _ Hi). split; [exact E|]. by apply (step_begin_ok B s i j). }
  unfold step_begin in Hstep. unfold new_promise in *. cbn [snd]. set (pr := rd_next_promise (rt_rdma s)) in *.
  match type of Hstep with context [job_fits j (rd_msg_bytes ?x)] => set (st1 := x) in * end.
  change (rd_msg_bytes st1) with (rd_msg_bytes (rt_rdma s)) in Hstep. destruct (job_fits j (rd_msg_bytes (rt_rdma s))).
  2:{ destruct (Hstep _ eq_refl) as [E _]. exact (ends_as_failed _ _ _ _ _ _ _ E). }
  destruct (rt_ids s !! jb_peer j) as [o|] eqn:Eo; destruct (Hstep _ eq_refl) as [E Hok1].
  - destruct (deref_live B s j o Hok Eo) as (c & _ & Hc). unfold ensured.
    rewrite (EnsureOutbound_connected dial (jb_peer j) st1 c Hc). apply (ends_as_step _ _ _ _ _ _ _ _ _ E).
    apply (alone_acquire B _ i j pr o posted HB Hok1). by eapply moved_lookup.
  - pose proof (alone_dial B _ i j pr dial posted HB Hok1 (moved_lookup _ _ _ _ _ _ _ Hi) Hd Eo) as H.
    exact (ends_as_step _ _ _ _ _ _ _ _ _ E H).
Qed.

(** A send that runs alone, from any state that concurrent sends and idle drops
    can reach with the lock of the dial free, is the sequential send. *)
Theorem rdma_send_alone msg_bytes peers es s j dial posted :
  drops_idle (new_rt msg_bytes peers) es = true → Z.of_nat (length es) < 2 ^ 48 - 4 →
  rt_run (new_rt msg_bytes peers) es = Some (s, true) → rt_dial s = None →
  ends_as (length (rt_threads s)) j (alone_result dial posted j (rt_rdma s)).1
    (alone_result dial posted j (rt_rdma s)).2 (spawned j s).
Proof.
  intros Hdr Hlen Hrun Hd.
  destruct (rt_run_ok 1 _ es ltac:(lia) ltac:(lia) (new_rt_ok msg_bytes peers) Hdr) as (s0 & alive & E0 & Hok & _).
  rewrite Hrun in E0. injection E0 as <- <-.
  apply (alone_begin (1 + Z.of_nat (length es)) (spawned j s)); [lia|by apply spawn_ok| |exact Hd].
  cbn [spawned rt_threads]. by apply list_lookup_middle.
Qed.

(** ** Connections dropped under a sender *)

(** A sender that has its pointer, and whose peer is then disconnected, uses a
    freed connection with its next step. *)
Theorem disconnect_frees_in_use s i j pc o answer :
  rt_threads s !! i = Some (j, pc) → pc_pointer pc = Some o → (∀ pr, pc ≠ Acquiring pr o 0) →
  rt_run s [EDisconnect (jb_peer j); EStep i answer] = None.
Proof.
  intros Hi Ho Ht. cbn [rt_run rt_step disconnect_step rt_threads]. rewrite Hi.
  set (s1 := mkRT _ _ _ _ _ _ _). assert (deref s1 (jb_peer j) o = None) as Hd.
  { unfold deref. rewrite bool_decide_false; [done|]. cbn. by rewrite lookup_delete_eq. }
  destruct pc as [|pr|pr|pr|pr|pr o' [|tries]|pr o' buf wr|pr o' buf wr|pr o' buf wr|pr|pr]; cbn in Ho; try done;
    injection Ho as ->; cbn [send_step].
  - by destruct (Ht pr).
  - cbn [step_acquire]. by rewrite Hd.
  - unfold step_stage. by rewrite Hd.
  - unfold step_post. by rewrite Hd.
  - unfold step_unpost. by rewrite Hd.
Qed.

Definition demo_job (b : Byte.byte) : Job := mkJob "b" (block_id_of_byte b) ReplicationPush [b].
Definition demo_rt : RT := new_rt 4 {["b" := ("10.0.0.2", 18515)]}.
Definition steps_of (i n : nat) : list RtEvent := replicate n (EStep i Yes).

(** What a state shows: how the senders ended, what was read and resolved. *)
Definition shown (s : RT) : list SendPc * list (nat * bytes) * list (nat * bool) :=
  ((rt_threads s).*2, rt_wire s, rd_resolved (rt_rdma s)).



(** The first sender has its pointer when the peer is disconnected; had the
    disconnect come after the send, all would have been well. *)
Theorem rdma_disconnect_race :
  let start := ESpawn (demo_job Byte.x01) :: steps_of 0 5 in
  drops_idle demo_rt (start ++ [EDisconnect "b"]) = false ∧
  rt_run demo_rt (start ++ [EDisconnect "b"; EStep 0 Yes]) = None ∧
  (fst ∘ fst ∘ shown ∘ fst <$> rt_run demo_rt (start ++ steps_of 0 3 ++ [EDisconnect "b"])) = Some [Sent 0].
Proof. split_and!; vm_compute; reflexivity. Qed.

(** A dial that the peer refuses ends the process, with no connection made; one
    that fails earlier only fails the send. *)
Theorem rdma_refused_dial_terminates :
  let start := ESpawn (demo_job Byte.x01) :: steps_of 0 3 in
  snd <$> rt_run demo_rt (start ++ [EStep 0 Refused]) = Some false ∧
  (λ x, (fst (fst (shown x.1)), x.2)) <$> rt_run demo_rt (start ++ [EStep 0 No]) = Some ([Failed 0], true).
Proof. split; vm_compute; reflexivity. Qed.

(** ** The destructor *)

(** The destructor ends the process exactly if a connection was made after the
    first [Shutdown]. *)
Lemma rt_destroy_None s : rt_destroy s = None ↔ rd_stop (rt_rdma s) = true ∧ rd_outbound (rt_rdma s) ≠ ∅.
Proof.
  unfold rt_destroy, shutdown_step. destruct (rd_stop (rt_rdma s)) eqn:Es; cbn [rt_rdma].
  - case_bool_decide as E; split; [done| |done|done]. by intros [_ ?].
  - unfold Shutdown. rewrite Es. cbn [rd_outbound with_outbound]. rewrite bool_decide_true by done. by split; [|intros []].
Qed.

(** The facade shuts the transport down before the replicator's workers are
    joined; a push that a worker still makes dials again, and the destructor of
    the transport then destroys a connection whose poller runs. *)
Theorem send_after_shutdown_terminates :
  (rt_run demo_rt [EShutdown] ≫= rt_destroy ∘ fst) ≠ None ∧
  (rt_run demo_rt (EShutdown :: ESpawn (demo_job Byte.x01) :: steps_of 0 8) ≫= rt_destroy ∘ fst) = None ∧
  drops_idle demo_rt (EShutdown :: ESpawn (demo_job Byte.x01) :: steps_of 0 8) = true.
Proof. split_and!; [|vm_compute; reflexivity..]. vm_compute. discriminate. Qed.
