(* ===== verification/Locks.v ===== *)
(** * Mutexes taken in scopes

    What a thread does to mutexes, and when a set of threads cannot get stuck.
    [Skel] is the locking skeleton of a piece of code: scopes of a lock guard,
    sequences, branches and loops, the rest forgotten.  A thread executes one
    trace of its skeleton; a mutex is not recursive and is held by one thread.

    Waiting for a thread to end is written as taking a lock that the thread
    holds while it runs.  A reader-writer lock counts as a mutex. *)
From S2P Require Import Prelude.

Section locks.
Context {L : Type} `{EqDecision L} (rank : L → nat).

Inductive Skel : Type :=
| Idle
| With (l : L) (s : Skel)
| Seq (s1 s2 : Skel)
| Alt (s1 s2 : Skel)
| Loop (s : Skel).

Inductive LockAct : Type := Acq (l : L) | Rel (l : L).

(** The traces of a skeleton; a loop makes any finite number of turns. *)
Inductive trace : Skel → list LockAct → Prop :=
| tr_idle : trace Idle []
| tr_with l s tr : trace s tr → trace (With l s) (Acq l :: tr ++ [Rel l])
| tr_seq s1 s2 tr1 tr2 : trace s1 tr1 → trace s2 tr2 → trace (Seq s1 s2) (tr1 ++ tr2)
| tr_left s1 s2 tr : trace s1 tr → trace (Alt s1 s2) tr
| tr_right s1 s2 tr : trace s2 tr → trace (Alt s1 s2) tr
| tr_stop s : trace (Loop s) []
| tr_turn s tr1 tr2 : trace s tr1 → trace (Loop s) tr2 → trace (Loop s) (tr1 ++ tr2).

(** Every lock is taken above the ones that are held; [n] is above those. *)
Fixpoint ordered (n : nat) (s : Skel) : bool :=
  match s with
  | Idle => true
  | With l s => (n <=? rank l)%nat && ordered (S (rank l)) s
  | Seq s1 s2 | Alt s1 s2 => ordered n s1 && ordered n s2
  | Loop s => ordered n s
  end.

(** ** Threads *)

(** The locks that a thread holds, the last taken first, and what it has still to do. *)
Record LThread : Type := mkLThread { lt_held : list L; lt_rest : list LockAct }.

(** Thread [i] acts; [None] if it is finished or has to wait. *)
Definition lock_step (i : nat) (ths : list LThread) : option (list LThread) :=
  match ths !! i with
  | Some (mkLThread held (Acq l :: rest)) =>
      if bool_decide (Forall (λ t, l ∉ lt_held t) ths)
      then Some (<[i := mkLThread (l :: held) rest]> ths) else None
  | Some (mkLThread held (Rel l :: rest)) => Some (<[i := mkLThread (filter (λ h, h ≠ l) held) rest]> ths)
  | _ => None
  end.

Fixpoint lock_run (sched : list nat) (ths : list LThread) : option (list LThread) :=
  match sched with
  | [] => Some ths
  | i :: sched => ths' ← lock_step i ths; lock_run sched ths'
  end.

Definition finished (t : LThread) : Prop := lt_held t = [] ∧ lt_rest t = [].

(** Scopes are closed in order, and every lock is taken above those held. *)
Fixpoint scoped (held : list L) (rest : list LockAct) : Prop :=
  match rest with
  | [] => held = []
  | Acq l :: rest => Forall (λ h, (rank h < rank l)%nat) held ∧ scoped (l :: held) rest
  | Rel l :: rest =>
      match held with
      | h :: held => h = l ∧ Forall (λ h, (rank h < rank l)%nat) held ∧ scoped held rest
      | [] => False
      end
  end.

Lemma trace_scoped s tr :
  trace s tr → ∀ n held rest, ordered n s = true → Forall (λ h, (rank h < n)%nat) held →
  scoped held rest → scoped held (tr ++ rest).
Proof.
  induction 1 as [|l s tr _ IH|s1 s2 tr1 tr2 _ IH1 _ IH2|s1 s2 tr _ IH|s1 s2 tr _ IH|s|s tr1 tr2 _ IH1 _ IH2];
    intros n held rest Ho Hh Hr; cbn [ordered app] in *; try (apply andb_true_iff in Ho as [Ho1 Ho2]).
  - done.
  - apply Nat.leb_le in Ho1.
    assert (Forall (λ h, (rank h < rank l)%nat) held) as Hl by (eapply Forall_impl; [exact Hh|]; cbn; lia).
    split; [done|]. rewrite <- app_assoc. apply IH with (S (rank l)); [done| |by split].
    apply Forall_cons. split; [lia|]. eapply Forall_impl; [exact Hl|]. cbn. lia.
  - rewrite <- app_assoc. eauto.
  - eauto.
  - eauto.
  - done.
  - rewrite <- app_assoc. eauto.
Qed.

Definition lthread_ok (t : LThread) : Prop := scoped (lt_held t) (lt_rest t).

Lemma lock_step_ok i ths ths' :
  Forall lthread_ok ths → lock_step i ths = Some ths' →
  Forall lthread_ok ths' ∧
  S (sum_list_with (λ t, length (lt_rest t)) ths') = sum_list_with (λ t, length (lt_rest t)) ths.
Proof.
  intros Hok. unfold lock_step. destruct (ths !! i) as [[held [|[l|l] rest]]|] eqn:Ei; [done| | |done].
  all: pose proof (Forall_lookup_1 _ _ _ _ Hok Ei) as Ht; unfold lthread_ok in Ht; cbn [lt_held lt_rest scoped] in Ht.
  all: assert (∀ t', length (lt_rest t') = length rest → S (sum_list_with (λ t, length (lt_rest t)) (<[i := t']> ths)) =
      sum_list_with (λ t, length (lt_rest t)) ths) as Hsum
    by (intros t' Hl; rewrite (insert_take_drop ths i t') by (by eapply lookup_lt_Some);
        rewrite <- (take_drop_middle ths i _ Ei) at 3; rewrite !sum_list_with_app;
        cbn [sum_list_with lt_rest length]; lia).
  - case_bool_decide; [|done]. intros [= <-]. split; [|by apply Hsum]. apply Forall_insert; [done|apply Ht].
  - intros [= <-]. destruct held as [|h held]; [done|]. destruct Ht as (-> & Hl & Hs). split; [|by apply Hsum].
    apply Forall_insert; [done|]. unfold lthread_ok. cbn [lt_held lt_rest]. rewrite filter_cons_False by tauto.
    replace (filter (λ h, h ≠ l) held) with held; [done|]. symmetry. apply filter_all.
    eapply Forall_impl; [exact Hl|]. intros h Hh ->. cbn in Hh. lia.
Qed.

(** ** No deadlock *)

Context (B : nat) (rank_bound : ∀ l, (rank l < B)%nat).

(** A thread that is not finished can act, or waits for one that can, or for
    one that waits for a higher lock. *)
Lemma unfinished_step ths i t :
  Forall lthread_ok ths → ths !! i = Some t → lt_rest t ≠ [] → ∃ j ths', lock_step j ths = Some ths'.
Proof.
  intros Hok Hi Hne.
  assert (∀ k i t l rest, (B - rank l ≤ k)%nat → ths !! i = Some t → lt_rest t = Acq l :: rest →
    ∃ j ths', lock_step j ths = Some ths') as Hacq.
  { clear i t Hi Hne. induction k as [|k IH]; intros i [held r] l rest Hk Hi Hr; cbn in Hr; subst r.
    { pose proof (rank_bound l). lia. }
    destruct (decide (Forall (λ t, l ∉ lt_held t) ths)) as [Hfree|Hheld].
    { exists i. unfold lock_step. rewrite Hi, bool_decide_true by done. eauto. }
    apply not_Forall_Exists, Exists_exists in Hheld as ([hj rj] & (j & Hj)%list_elem_of_lookup & Hl); [|apply _].
    apply dec_stable in Hl. cbn in Hl.
    pose proof (Forall_lookup_1 _ _ _ _ Hok Hj) as Ht. unfold lthread_ok in Ht. cbn [lt_held lt_rest] in Ht.
    destruct rj as [|[l'|l'] rj].
    - cbn in Ht. subst hj. by apply not_elem_of_nil in Hl.
    - destruct Ht as [Hlt _]. rewrite Forall_forall in Hlt. specialize (Hlt l Hl).
      eapply (IH j _ l' rj); [|exact Hj|done]. pose proof (rank_bound l'). lia.
    - exists j. unfold lock_step. rewrite Hj. eauto. }
  destruct t as [held [|[l|l] rest]]; [done| |].
  - by eapply Hacq.
  - exists i. unfold lock_step. rewrite Hi. eauto.
Qed.

(** Every run of ordered threads can be continued, and is over only when every
    thread has finished and holds nothing. *)
Lemma ordered_no_deadlock ths :
  Forall lthread_ok ths → Forall finished ths ∨ ∃ i ths', lock_step i ths = Some ths'.
Proof.
  intros Hok. destruct (decide (Forall (λ t, lt_rest t = []) ths)) as [Hd|Hd].
  - left. apply Forall_forall. intros t Ht. rewrite Forall_forall in Hok, Hd. specialize (Hok t Ht).
    unfold lthread_ok in Hok. rewrite (Hd t Ht) in Hok. by split; [|apply Hd].
  - right. apply not_Forall_Exists, Exists_exists in Hd as (t & (i & Hi)%list_elem_of_lookup & Hne); [|apply _].
    by eapply unfinished_step.
Qed.

Lemma lock_run_ok sched ths ths' :
  Forall lthread_ok ths → lock_run sched ths = Some ths' →
  Forall lthread_ok ths' ∧ (length sched ≤ sum_list_with (λ t, length (lt_rest t)) ths)%nat.
Proof.
  revert ths. induction sched as [|i sched IH]; intros ths Hok; cbn [lock_run length].
  - intros [= <-]. split; [done|lia].
  - destruct (lock_step i ths) as [ths1|] eqn:E; [|done]. cbn [mbind option_bind]. intros H.
    destruct (lock_step_ok i ths ths1 Hok E) as [Hok1 Hsum]. destruct (IH ths1 Hok1 H). split; [done|lia].
Qed.

Definition lstart (trs : list (list LockAct)) : list LThread := mkLThread [] <$> trs.

Lemma lstart_ok ss trs :
  Forall2 trace ss trs → forallb (ordered 0) ss = true → Forall lthread_ok (lstart trs).
Proof.
  induction 1 as [|s tr ss trs Ht _ IH]; [done|]. cbn [forallb]. intros [Ho Hos]%andb_true_iff.
  apply Forall_cons. split; [|by apply IH]. unfold lthread_ok. cbn [lt_held lt_rest].
  rewrite <- (app_nil_r tr). by eapply trace_scoped.
Qed.
End locks.
Arguments Skel : clear implicits.
Arguments LockAct : clear implicits.
Arguments LThread : clear implicits.
