(* ===== verification/LockOrder.v ===== *)
(** * The mutexes of a node

    The locking skeleton of every function that takes a mutex, composed as the
    functions call each other, up to the threads and request handlers of a
    node.  The order of the mutexes is the one that the sources state in
    comments: the queue inside the round (replication.cpp:99), the connection
    table inside the dial (ibverbs_transport.cpp:184), pollers joined under the
    table (ibverbs_transport.cpp:475); everything else is taken with nothing
    held.  The theorem is that no node can deadlock on its mutexes and joins.
    A wait on a future or on a condition variable is not a lock: the wait
    releases its mutex, and what ends it is outside this file. *)
From S2P Require Import Prelude Types Locks.

(** The threads that are joined. *)
Inductive Runner : Type :=
| HeartbeatRunner | BeatRunner | TierRunner | WorkerRunner | SweepRunner
| FetchRunner | ListenRunner | PollInRunner | PollOutRunner | HttpRunner.

Inductive Mutex : Type :=
| TierMu (t : Tier) | CountsMu | RouterMu
| PoolReg | QueueMu | RerepMu
| MemberReg | MemberMu | MemberStubsMu | WakeMu
| EvictReg | PeerEvictMu | EvictStubsMu
| GrpcMu | DialMu | ConnsMu | SendMu (conn : nat)
| Running (r : Runner) (k : nat).

#[export] Instance Runner_eq_dec : EqDecision Runner.
Proof. solve_decision. Defined.
#[export] Instance Mutex_eq_dec : EqDecision Mutex.
Proof. solve_decision. Defined.

(** A thread ranks below the mutexes that it takes and above those that are
    held by whoever joins it. *)
Definition mutex_rank (m : Mutex) : nat :=
  match m with
  | Running (PollInRunner | PollOutRunner) _ => 3
  | Running (BeatRunner | FetchRunner) _ => 1
  | Running _ _ => 0
  | DialMu => 1
  | ConnsMu => 2
  | RerepMu => 3
  | _ => 4
  end.

Declare Scope skel_scope.
Notation "s1 ⨾ s2" := (Seq s1 s2) (at level 62, right associativity) : skel_scope.
Open Scope skel_scope.

Definition guard (m : Mutex) : Skel Mutex := With m Idle.
Definition maybe (s : Skel Mutex) : Skel Mutex := Alt s Idle.
Definition each (ms : list Mutex) : Skel Mutex := foldr (λ m s, guard m ⨾ s) Idle ms.
Definition one_of (ss : list (Skel Mutex)) : Skel Mutex := foldr Alt Idle ss.

(** A condition variable releases its mutex and takes it again. *)
Definition waits (m : Mutex) : Skel Mutex := guard m ⨾ Loop (guard m).

(** A join waits for the thread. *)
Definition joins (r : Runner) (ks : list nat) : Skel Mutex := each (Running r <$> ks).
Definition runs (r : Runner) (k : nat) (body : Skel Mutex) : Skel Mutex := With (Running r k) body.

(** ** The stores *)

(** One operation on a tier, if there is one. *)
Definition tier_op (t : Tier) : Skel Mutex := maybe (guard (TierMu t)).
Definition some_tier : Skel Mutex := Alt (tier_op HBM) (Alt (tier_op DRAM) (tier_op SSD)).

Definition get_locks : Skel Mutex :=
  tier_op HBM ⨾ tier_op DRAM ⨾ tier_op SSD ⨾
  maybe (guard CountsMu ⨾ maybe (some_tier ⨾ maybe some_tier)).
Definition put_locks : Skel Mutex := tier_op HBM ⨾ tier_op DRAM ⨾ tier_op SSD.
Definition demote_locks : Skel Mutex :=
  tier_op HBM ⨾
  Alt (tier_op DRAM ⨾ tier_op SSD ⨾ tier_op HBM) (tier_op DRAM ⨾ maybe (tier_op SSD ⨾ tier_op DRAM)).
Definition erase_locks : Skel Mutex := tier_op HBM ⨾ tier_op DRAM ⨾ tier_op SSD ⨾ guard CountsMu.
Definition snapshot_locks (t : Tier) : Skel Mutex := tier_op t ⨾ maybe (guard CountsMu).
Definition clear_visited_locks : Skel Mutex := guard CountsMu.

(** ** Router and replicator *)

Definition route_locks : Skel Mutex := guard RouterMu.
Definition set_peers_locks : Skel Mutex := guard RouterMu.

Definition replicate_out_locks : Skel Mutex := route_locks ⨾ maybe (guard PoolReg ⨾ Loop (guard QueueMu)).

(** The round is held across the ring, the queue and the store. *)
Definition drain_locks : Skel Mutex :=
  guard PoolReg ⨾
  maybe (With RerepMu
    (Loop (route_locks ⨾ maybe (guard QueueMu ⨾ maybe (get_locks ⨾ maybe (guard QueueMu)))))).

Definition scan_locks (t : Tier) : Skel Mutex := snapshot_locks t ⨾ Loop route_locks.

(** The round is released before the first batch is drained. *)
Definition trigger_locks : Skel Mutex :=
  maybe (scan_locks HBM ⨾ scan_locks DRAM ⨾ scan_locks SSD ⨾
         guard PoolReg ⨾ maybe (guard RerepMu ⨾ drain_locks)).

(** ** Transports *)

Section transport.
Context (rdma : bool) (conns : list nat).

(** The lazy dial with its second check. *)
Definition ensure_outbound_locks : Skel Mutex :=
  guard ConnsMu ⨾ maybe (With DialMu (guard ConnsMu ⨾ maybe (guard ConnsMu))).

Definition send_locks : Skel Mutex :=
  if rdma
  then maybe (ensure_outbound_locks ⨾
              one_of ((λ k, Loop (guard (SendMu k)) ⨾ maybe (guard (SendMu k))) <$> conns))
  else guard GrpcMu.

Definition fetch_locks : Skel Mutex := guard GrpcMu.

(** One thread per peer; the function ends when all of them have. *)
Definition fetch_from_any_locks (fetches : list nat) : Skel Mutex := maybe (joins FetchRunner fetches).

Definition connect_locks : Skel Mutex := guard GrpcMu.

Definition disconnect_locks : Skel Mutex :=
  if rdma then guard GrpcMu ⨾ With ConnsMu (one_of (guard ∘ Running PollOutRunner <$> conns)) else guard GrpcMu.

Definition transport_shutdown_locks : Skel Mutex :=
  if rdma
  then maybe (joins ListenRunner [0%nat] ⨾
              With ConnsMu (joins PollOutRunner conns ⨾ joins PollInRunner conns ⨾ guard GrpcMu))
  else guard GrpcMu.

(** ** Facade, membership and evictor *)

Definition lookup_locks : Skel Mutex := Loop (get_locks ⨾ maybe route_locks).
Definition insert_locks : Skel Mutex := Loop (put_locks ⨾ maybe replicate_out_locks).

Definition change_locks : Skel Mutex := guard MemberMu ⨾ set_peers_locks ⨾ maybe trigger_locks.
Definition on_heartbeat_locks : Skel Mutex := guard MemberMu ⨾ maybe change_locks.

(** The heartbeats are sent by threads that the end of the function joins. *)
Definition send_heartbeats_locks (beats : list nat) : Skel Mutex :=
  guard MemberReg ⨾
  maybe (guard MemberMu ⨾ maybe (maybe (guard MemberMu ⨾ maybe change_locks) ⨾ joins BeatRunner beats)).

Definition heartbeat_loop_locks (beats : list nat) : Skel Mutex :=
  guard MemberReg ⨾
  maybe (Loop (send_heartbeats_locks beats ⨾ guard MemberMu ⨾ maybe change_locks ⨾ waits WakeMu)).

Definition membership_shutdown_locks : Skel Mutex :=
  maybe (guard MemberReg ⨾ maybe (guard WakeMu)) ⨾ joins HeartbeatRunner [0%nat].

Definition broadcast_locks : Skel Mutex := guard EvictReg ⨾ maybe (guard MemberMu ⨾ Loop (guard EvictStubsMu)).

Definition pass_locks (t : Tier) : Skel Mutex :=
  guard EvictReg ⨾
  maybe (snapshot_locks t ⨾
         maybe (Loop (Alt clear_visited_locks (maybe demote_locks ⨾ maybe erase_locks)) ⨾ maybe broadcast_locks)).

Definition evictor_shutdown_locks : Skel Mutex := guard EvictReg ⨾ joins TierRunner [0; 1; 2]%nat.
Definition on_peer_eviction_locks : Skel Mutex := guard EvictReg ⨾ maybe (guard PeerEvictMu).

(** ** The life of a node *)

Definition constructor_locks : Skel Mutex :=
  set_peers_locks ⨾ guard PoolReg ⨾ Loop connect_locks ⨾ guard MemberReg ⨾ guard EvictReg.

Definition start_locks : Skel Mutex := maybe (guard EvictReg).

Definition shutdown_locks : Skel Mutex :=
  maybe (evictor_shutdown_locks ⨾ membership_shutdown_locks ⨾ transport_shutdown_locks).

Definition replicator_destructor_locks : Skel Mutex :=
  guard PoolReg ⨾
  maybe (guard QueueMu ⨾ joins WorkerRunner [0; 1; 2; 3]%nat ⨾ joins SweepRunner [0%nat] ⨾ guard PoolReg).

(** The members in the order in which they are destroyed. *)
Definition destructor_locks : Skel Mutex :=
  shutdown_locks ⨾
  evictor_shutdown_locks ⨾ guard EvictReg ⨾
  membership_shutdown_locks ⨾ guard MemberReg ⨾
  replicator_destructor_locks ⨾
  (if rdma then transport_shutdown_locks else Idle) ⨾
  joins HttpRunner [0%nat].

Definition main_locks : Skel Mutex := constructor_locks ⨾ start_locks ⨾ shutdown_locks ⨾ destructor_locks.

(** The threads of the evictor in the order in which it starts them. *)
Definition tier_slot (t : Tier) : nat := match t with HBM => 0 | DRAM => 1 | SSD => 2 end.

(** What runs in a process: the main thread, the request handlers, the calls of
    the transport that only tests and tools make, and the threads. *)
Inductive Entry : Type :=
| EMain | ELookup | EInsert | EFetch | EStreamBlocks | EHeartbeat | EEvictBroadcast
| EFetchAny (fetches : list nat) | EDrop
| EHeartbeatLoop (beats : list nat) | EBeat (k : nat) | ETier (t : Tier) | EWorker (k : nat) | ESweep
| EFetcher (k : nat) | EListen | EPollIn (k : nat) | EPollOut (k : nat) | EHttp.

Definition entry_locks (e : Entry) : Skel Mutex :=
  match e with
  | EMain => main_locks
  | ELookup => lookup_locks
  | EInsert => insert_locks
  | EFetch => get_locks
  | EStreamBlocks => Loop put_locks
  | EHeartbeat => on_heartbeat_locks
  | EEvictBroadcast => on_peer_eviction_locks
  | EFetchAny fetches => fetch_from_any_locks fetches
  | EDrop => disconnect_locks
  | EHeartbeatLoop beats => runs HeartbeatRunner 0 (heartbeat_loop_locks beats)
  | EBeat k => runs BeatRunner k (guard MemberStubsMu)
  | ETier t => runs TierRunner (tier_slot t) (Loop (pass_locks t))
  | EWorker k => runs WorkerRunner k (Loop (waits QueueMu ⨾ maybe send_locks))
  | ESweep => runs SweepRunner 0 (Loop drain_locks)
  | EFetcher k => runs FetchRunner k fetch_locks
  | EListen => runs ListenRunner 0 (Loop (maybe (guard ConnsMu)))
  | EPollIn k => runs PollInRunner k (Loop insert_locks)
  | EPollOut k => runs PollOutRunner k (Loop (guard (SendMu k)))
  | EHttp => runs HttpRunner 0 Idle
  end.
End transport.

(** ** The order *)

Lemma mutex_rank_bound m : (mutex_rank m < 5)%nat.
Proof. destruct m as [| | | | | | | | | | | | | | | | |[] k]; cbn; lia. Qed.

Lemma ordered_joins n r ks : (∀ k, (n ≤ mutex_rank (Running r k))%nat) → ordered mutex_rank n (joins r ks) = true.
Proof.
  intros Hn. induction ks as [|k ks IH]; [done|]. cbn [joins each foldr fmap list_fmap guard ordered] in *.
  rewrite (proj2 (Nat.leb_le _ _) (Hn k)). exact IH.
Qed.

Lemma ordered_one_of {A} n (f : A → Skel Mutex) xs :
  (∀ x, ordered mutex_rank n (f x) = true) → ordered mutex_rank n (one_of (f <$> xs)) = true.
Proof.
  intros Hf. induction xs as [|x xs IH]; [done|]. cbn [one_of foldr fmap list_fmap ordered] in *. by rewrite Hf.
Qed.

(** Every thread of a node takes its mutexes in order. *)
Lemma entry_ordered rdma conns e : ordered mutex_rank 0 (entry_locks rdma conns e) = true.
Proof.
  destruct e as [| | | | | | |fetches| |beats|k|[]|k| |k| |k|k|]; try reflexivity;
    destruct rdma; cbn -[joins one_of];
    repeat first [rewrite ordered_joins by (cbn; lia)|rewrite ordered_one_of by (intros x; reflexivity)];
    reflexivity.
Qed.

(** C20 (no deadlock): whatever request handlers, threads and shutdown a node
    runs, over either transport, and however their critical sections and joins
    interleave: as long as a thread is not finished some thread can act, and
    no run is longer than what the threads have to do, so that every run ends
    with all of them finished and no mutex held. *)
Theorem node_no_deadlock rdma conns entries trs sched ths :
  Forall2 (λ e tr, trace (entry_locks rdma conns e) tr) entries trs →
  lock_run sched (lstart trs) = Some ths →
  (Forall finished ths ∨ ∃ i ths', lock_step i ths = Some ths') ∧
  (length sched ≤ sum_list (length <$> trs))%nat.
Proof.
  intros Ht Hr.
  assert (Forall (lthread_ok mutex_rank) (lstart trs)) as Hok.
  { apply (lstart_ok mutex_rank (entry_locks rdma conns <$> entries)); [by apply Forall2_fmap_l|].
    apply forallb_forall. intros s (e & <- & _)%in_map_iff. apply entry_ordered. }
  destruct (lock_run_ok mutex_rank sched _ ths Hok Hr) as [Hok' Hlen].
  split; [by apply (ordered_no_deadlock mutex_rank 5 mutex_rank_bound)|].
  replace (sum_list (length <$> trs)) with (sum_list_with (λ t, length (lt_rest t)) (lstart trs)); [exact Hlen|].
  unfold lstart. clear. induction trs as [|tr trs IH]; [done|]. cbn in *. by rewrite IH.
Qed.

(** A trace of a skeleton: the first branch, one turn of every loop. *)
Fixpoint sample (s : Skel Mutex) : list (LockAct Mutex) :=
  match s with
  | Idle => []
  | With l s => Acq l :: sample s ++ [Rel l]
  | Seq s1 s2 => sample s1 ++ sample s2
  | Alt s1 _ => sample s1
  | Loop s => sample s
  end.

Lemma sample_trace s : trace s (sample s).
Proof.
  induction s as [|l s IH|s1 IH1 s2 IH2|s1 IH1 s2 IH2|s IH]; cbn [sample]; [by constructor..|].
  rewrite <- (app_nil_r (sample s)). by repeat constructor.
Qed.

(** The main thread shuts down while the sweep drains, a worker sends over RDMA
    and a poller inserts; main waits for the sweep to end. *)
Lemma node_no_deadlock_witness :
  let entries := [EMain; ESweep; EWorker 0; EPollIn 1] in
  let trs := sample ∘ entry_locks true [1%nat] <$> entries in
  ∃ ths, lock_run (replicate 20 1 ++ replicate 30 0)%nat (lstart trs) = Some ths ∧
    (Forall finished ths ∨ ∃ i ths', lock_step i ths = Some ths').
Proof.
  intros entries trs. destruct (lock_run (replicate 20 1 ++ replicate 30 0)%nat (lstart trs)) as [ths|] eqn:E.
  - exists ths. split; [reflexivity|]. apply (node_no_deadlock true [1%nat] entries trs (replicate 20 1 ++ replicate 30 0)%nat ths); [|exact E].
    repeat (apply Forall2_cons; split; [apply sample_trace|]). apply Forall2_nil. exact I.
  - exfalso. vm_compute in E. discriminate E.
Defined.
